(* ===== verification/_CoqProject ===== *)
-Q . S2P
Prelude.v
GoStr.v
Utf8.v
Json.v
KubeTypes.v
IngressApi.v
Receivers.v
ReceiverJson.v
ReceiversSpec.v
Pflag.v
PflagSpec.v
KubeFlags.v
UpdateTool.v
UpdateToolSpec.v
SyslogParse.v
SyslogParseSpec.v
SyslogServer.v
SyslogServerSpec.v
GoStd.v
Dec.v
DecSpec.v
Quantity.v
QuantitySpec.v
JsonMerge.v
JsonMergeSpec.v
JsonDelta.v
JsonDeltaSpec.v
RestMapper.v
RestMapperSpec.v
Daemonizer.v
DaemonizerSpec.v
MakeSecret.v
MakeSecretSpec.v
TlsServer.v
TlsServerSpec.v
Sets.v
Labels.v
LabelsSpec.v
Fields.v
FieldsSpec.v
Errors.v
ApiErrors.v
ApiErrorsSpec.v
GoUrl.v
GoUrlSpec.v
GoUrlParse.v
KubeRequest.v
KubeRequestSpec.v
Validation.v
IngressValidation.v
IngressValidationSpec.v
AcceptedSpec.v
RateLimit.v
RateLimitSpec.v
ClientCmd.v
ClientCmdSpec.v
ClientLoader.v
ClientLoaderSpec.v
WorkQueue.v
WorkQueueSpec.v
RestIngress.v
RestMap.v
RestIngressSpec.v
ApiGroups.v
ClientTransport.v
ClientTransportSpec.v
ClientConnect.v
ClientConnectSpec.v
Broadcaster.v
BroadcasterSpec.v
StreamWatcher.v
StreamWatcherSpec.v
Cluster.v
ClusterSpec.v
Scale.v
Reaper.v
ScaleSpec.v
RollingUpdater.v
RollingUpdaterSpec.v
