(* ===== verification/Prelude.v ===== *)
(** * Verification of the Ingress tools

    The repository holds five small Go programs around Kubernetes Ingresses,
    and the packages they are built on.  This library models the programs
    completely and, below them, the packages whose behaviour decides what the
    programs do.  A client of the API server is told apart from the server:
    the tools see the server through an interface with laws, so that what is
    proved of a tool holds for every server that keeps them.

    ** The programs

    - [Receivers] (src/lib/receivers.go): the list of receivers an Ingress
      keeps in an annotation; [Get], and [Update] with its three parts: read,
      [edit], write.  [ReceiversSpec] proves that a successful update assigns
      one entry of the table of receivers and nothing else, that updates of
      several tools, interleaved in any way, are not lost (the step relation
      [ReceiversSpec.step] with its invariant), what an error leaves behind,
      and when [Update] panics.  [ReceiverJson] is the annotation's JSON.
    - [UpdateTool] (src/hack/receivers/update.go): the tool that adds a
      receiver: its flags, its checks, the two calls.  [UpdateToolSpec] shows
      which arguments lead to which update, and which are not looked at.
    - [MakeSecret] (src/hack/make_secret.go): the script that prints a Secret.
    - [Daemonizer] (src/examples/https/haproxy/daemonizer.go): the daemon that
      writes the file of haproxy, runs the syslog server and reloads haproxy.
    - [TlsServer] (src/tls_server/client_server.go): the server with a
      self-signed certificate, and the client that asks it for a page until
      its patience ends.

    ** The packages

    - [Pflag] (github.com/spf13/pflag): the flag set of the update tool, with
      flags and variables in a store.  [PflagSpec] proves that what is written
      on a command line is what is read from it, that parsing ends, and what
      an unknown flag does.
    - [KubeFlags] (clientcmd/overrides.go): the flags of the client
      configuration.
    - [SyslogParse], [SyslogServer] (github.com/ziutek/syslog): the format of
      packets, and the server with its goroutines as a step relation:
      receiver, main loops of the handlers, and the caller of [Shutdown].
    - [KubeTypes], [IngressApi]: the objects of the API, and the interface
      [IngressAPI] with [IngressAPILaws] and an instance that discharges them.
    - [KubeRequest] (client/unversioned/request.go, restclient.go, ingress.go):
      the client behind that interface: a request as a record that a chain of
      calls changes, its URL, the loop that sends it again, the result of an
      answer, and the requests for Ingresses.  [KubeRequestSpec] reads the
      loop as the inductive relation [answered], from which it proves that it
      ends and what each sending holds, relates the path of a request to the
      segments it was given, and gives the table of results.
    - [RestIngress], [RestMap] put the tool on that client: the laws of a
      server of HTTP ([RestServerLaws]), and a server that keeps them and asks
      for patience.  [RestIngressSpec] discharges [IngressAPILaws] for the
      client on such a server, and proves the tool end to end.
    - [WorkQueue] (pkg/util/workqueue): the queue of a controller, with the
      goroutines that add, get and finish items as a step relation;
      [WorkQueueSpec] proves by an invariant that an item is worked on by one
      worker at a time, that nothing added and no wake-up is lost, and that
      the queue is drained when it is shut down.
    - [Labels], [Fields] (pkg/labels, pkg/fields): selectors with their lexer
      and parser; [LabelsSpec] and [FieldsSpec] prove the round trips between
      a selector and its text, that parsing returns, and what is matched.
    - [Errors], [ApiErrors] (pkg/util/errors, pkg/util/fielderrors,
      pkg/api/errors): errors, lists of errors and the Status of the server;
      [ApiErrorsSpec] shows which predicate holds of which error.
    - [Validation], [IngressValidation] (api/validation,
      extensions/validation): the server's checks.  [IngressValidationSpec]
      states what an object must be like ([valid_ingress]) and proves that a
      validator finds no error exactly then; [AcceptedSpec] puts the tools in
      front of the server: what an update of the receivers and the script for
      Secrets send, and when it is taken.
    - [RateLimit] (juju/ratelimit, util/throttle.go): the bucket of tokens
      that limits a client; [RateLimitSpec] proves the rate over every
      sequence of requests, and what a bucket that was full gives.
    - [ClientCmd], [ClientLoader] (client/unversioned/clientcmd,
      imdario/mergo): the configuration files of the client: reading, merging,
      migrating, validating, resolving and flattening them, and the cluster
      and the user that are chosen.  [ClientCmdSpec] and [ClientLoaderSpec]
      give the precedence of the sources against a reference, and show where a
      nil map or a pointer that is nil ends the process.
    - [ApiGroups] (api/registered, api/latest, the install packages): the
      groups of the API and their versions.
    - [ClientTransport] (client/unversioned: helper.go, transport.go,
      experimental.go): the URL of the server, the layers that put credentials
      into requests, the store of transports, and the clients of [New].
      [ClientTransportSpec] proves which URL an Ingress has, what every
      request carries, and by an invariant of the store that transports are
      shared exactly by configurations with the same options.
    - [ClientConnect] (clientcmd: client_config.go, merged_client_builder.go,
      auth_loaders.go) closes the way from the flags and the files to the
      client.  [ClientConnectSpec] proves that credentials are only used
      over TLS, who the user is, and what happens inside a cluster.
    - [Broadcaster], [StreamWatcher] (pkg/watch): the goroutines that send
      events to watchers, as step relations: one with a lock, a queue and
      watchers that come and go, one over a stream, and a filter.
      [BroadcasterSpec] proves by an invariant that nothing is sent to a
      closed channel, what each watcher is given and in which order, and that
      the broadcaster ends; [StreamWatcherSpec] the same of streams, and where
      stopping one waits.
    - [Dec], [Quantity] (speter.net/go/exp/math/dec/inf, api/resource):
      decimal numbers with a scale of 32 bits, and the quantities made of them.
      [DecSpec] proves the rounders against their documentation;
      [QuantitySpec] what is accepted and its value, the canonical form, the
      round trip, the order, and what happens when a scale wraps around.
    - [JsonMerge], [JsonDelta] (evanphx/json-patch: merge.go,
      kubectl/cmd/util/jsonmerge): merge patches of JSON documents, and edits
      that are applied to a later version.  [JsonMergeSpec] relates merging to
      its specification, and proves that a patch leads from the one document
      to the other; [JsonDeltaSpec] that changes which do not overlap can be
      applied in either order, and what the search for conflicts misses.
    - [RestMapper] (api/meta: restmapper.go; api/mapper.go): from kinds to
      the names of resources and back.  [RestMapperSpec] proves by an
      invariant of its tables that what a mapper resolves it can map, that
      every kind of a scheme is mapped, and which version is chosen.
    - [Cluster], [Scale], [Reaper] (util/wait, conditions.go, kubectl:
      scale.go, stop.go): programs that work on a cluster, in a monad of its
      world, against an interface of the client and the clock.
      [ScaleSpec] proves what has happened when scaling or stopping reports
      success; [ClusterSpec] has a cluster to run the programs on.
    - [RollingUpdater] (kubectl: rolling_updater.go): replacing a controller
      step by step.  [RollingUpdaterSpec] reduces the steps to two functions
      of sizes, and proves from them the bounds on pods, that the loop ends,
      when it succeeds and when it cannot, and that an interrupted update
      goes on as it began.
    - [Sets] (pkg/util/sets): sets of strings.

    ** What they share

    This file has the results of Go code ([result], [control]), bytes and
    strings, and general lemmas; [GoStr], [Utf8], [Json], [GoStd], [GoUrl]
    (with [GoUrlSpec]) and [GoUrlParse] are the parts of Go's standard library
    the programs use.

    ** Bounds and fuel

    Recursion that is not structural takes fuel: [Json.parse_value] and
    [Pflag.parse_args] the length of their input, each step of which consumes
    some of it ([Json.parse_fuel], [PflagSpec.Parse_returns]); the lexer and
    the parser of [Labels] the length of theirs
    ([LabelsSpec.selector_Parse_returns]); the loop of [TlsServer.main] seven
    passes ([TlsServerSpec.main_ends]), that of [KubeRequest.request] the ten
    the code allows ([KubeRequestSpec.request_ends]), and the search of
    [RateLimit.NewBucketWithRate] four hundred quanta
    ([RateLimitSpec.NewBucketWithRate_ends]); [Quantity.removeFactors] as many
    rounds as its number has bits ([QuantitySpec.removeFactors_spec]);
    [RollingUpdater.update_loop] as many passes as there are pods to scale,
    each with the timeout ([RollingUpdaterSpec.update_loop_ends]).  Go's [int] is 64 bits wide: the
    conversions of texts say when a number is out of range, [TlsServer] and
    [RateLimit] compute modulo 2^64 ([GoStr.wrap64]), and [Dec] computes scales
    modulo 2^32 ([Dec.wrap32]); its theorems take scales of at most 29 bits.

    ** What is not modelled

    Sockets, HTTP, cryptography, the codec of the API group, the parsing of
    the authority of URLs, of addresses and regular expressions, and
    arithmetic in floating point are parameters of the models, as is the order
    in which a map is gone through, and the codec of the configuration files.
    The tool has its connection as a parameter ([connect] of [UpdateTool]);
    [ClientConnect.connect] is the function that the program uses for it.  The
    validation of objects other than Ingresses and
    Secrets, the upgrade of a connection to SPDY, metrics, the conversions
    and copies that are generated, the other vendored packages, the
    configuration files of nginx and haproxy, and the example that prints a
    template are left out. *)

From Stdlib Require Export Ascii ZArith Lia.
From stdpp Require Export base gmap strings list countable option.

(** ** Go strings

    A Go string is a sequence of bytes.  A byte is an [ascii] (eight bits), so
    a string is a [list ascii] and slicing is [take]/[drop].  Literals are
    written between double quotes in the scope [go_scope]; a literal is a
    wrapped list that coerces to [str], so it stays readable in goals. *)

Abbreviation str := (list ascii).

Inductive literal := Literal (bytes : list ascii).

Definition literal_of_bytes (l : list Byte.byte) : literal :=
  Literal (map ascii_of_byte l).
Definition bytes_of_literal (l : literal) : list Byte.byte :=
  match l with Literal s => map byte_of_ascii s end.

Definition lit (l : literal) : str := match l with Literal s => s end.
Coercion lit : literal >-> list.

Declare Scope go_scope.
Delimit Scope go_scope with go.
String Notation literal literal_of_bytes bytes_of_literal : go_scope.

(** A byte as the integer Go converts it to, and back (the conversion
    [byte(z)] keeps the low eight bits). *)
Definition ord (c : ascii) : Z := Z.of_N (N_of_ascii c).
Definition chr (z : Z) : ascii := ascii_of_N (Z.to_N (z mod 256)).

(** ** Results of Go code

    [result] is a Go pair [(value, error)] of which exactly one part is
    meaningful; code that returns both parts returns a plain pair.  [control]
    is how a call ends: it returns, it panics (the goroutine and, as nothing
    here recovers, the process dies), or it ends the process through
    [log.Fatalf]/[glog.Fatalf]. *)

Inductive result (E A : Type) :=
  | Ok (a : A)
  | Err (e : E).
Arguments Ok {E A} _.
Arguments Err {E A} _.
#[global] Instance result_eq_dec {E A} `{EqDecision E} `{EqDecision A} : EqDecision (result E A).
Proof. solve_decision. Defined.

#[global] Instance result_ret E : MRet (result E) := λ A a, Ok a.
#[global] Instance result_bind E : MBind (result E) :=
  λ A B k r, match r with Ok a => k a | Err e => Err e end.
#[global] Instance result_fmap E : FMap (result E) :=
  λ A B f r, match r with Ok a => Ok (f a) | Err e => Err e end.

Inductive control (A : Type) :=
  | Return (a : A)
  | Panic (why : str)
  | Fatal (msg : str).
Arguments Return {A} _.
Arguments Panic {A} _.
Arguments Fatal {A} _.

#[global] Instance control_ret : MRet control := λ A a, Return a.
#[global] Instance control_bind : MBind control :=
  λ A B k r,
    match r with Return a => k a | Panic w => Panic w | Fatal m => Fatal m end.

Definition is_ok {E A} (r : result E A) : bool :=
  match r with Ok _ => true | Err _ => false end.

Lemma result_bind_Ok {E A B} (r : result E A) (k : A → result E B) b :
  r ≫= k = Ok b ↔ ∃ a, r = Ok a ∧ k a = Ok b.
Proof.
  destruct r as [a|e]; simpl.
  - split; [eauto | by intros (? & [= <-] & ?)].
  - split; [done | by intros (? & ? & ?)].
Qed.

Lemma result_bind_Err {E A B} (r : result E A) (k : A → result E B) e :
  r ≫= k = Err e ↔ r = Err e ∨ ∃ a, r = Ok a ∧ k a = Err e.
Proof.
  destruct r as [a|e']; simpl; split.
  - eauto.
  - by intros [? | (? & [= <-] & ?)].
  - intros [= <-]. by left.
  - by intros [[= <-] | (? & ? & ?)].
Qed.

(** ** Automation *)

Create HintDb go discriminated.

(** Case analysis on a byte: all 256 values, closed by evaluation. *)
Ltac by_bytes c :=
  destruct c as [[] [] [] [] [] [] [] []]; vm_compute; try done.

(** Split every [if decide] and [match] of the goal. *)
Ltac split_cases := repeat (case_decide || case_match); simplify_eq/=.

(** ** Bytes *)

Lemma ord_range c : (0 ≤ ord c < 256)%Z.
Proof.
  unfold ord. pose proof (N_ascii_bounded c). lia.
Qed.

Lemma chr_ord c : chr (ord c) = c.
Proof.
  unfold chr. rewrite Z.mod_small by apply ord_range.
  unfold ord. rewrite N2Z.id. apply ascii_N_embedding.
Qed.

Lemma ord_chr z : ord (chr z) = (z mod 256)%Z.
Proof.
  unfold ord, chr. pose proof (Z.mod_pos_bound z 256 ltac:(lia)).
  rewrite N_ascii_embedding by lia. lia.
Qed.

Lemma ord_chr_small z : (0 ≤ z < 256)%Z → ord (chr z) = z.
Proof. intros ?. rewrite ord_chr. by apply Z.mod_small. Qed.

#[global] Instance ord_inj : Inj (=) (=) ord.
Proof. intros c1 c2 H. by rewrite <- (chr_ord c1), <- (chr_ord c2), H. Qed.

#[export] Hint Resolve ord_range : go.

(** ** Lists *)

Section lists.
Context {A : Type}.
Implicit Types l k : list A.

Lemma length_strong_ind (P : list A → Prop) :
  (∀ l, (∀ k, length k < length l → P k) → P l) → ∀ l, P l.
Proof.
  intros IH l. remember (length l) as n eqn:Hn.
  revert l Hn. induction n as [n IHn] using lt_wf_ind.
  intros l ->. apply IH. intros k Hk. by apply (IHn (length k)).
Qed.

Lemma foldl_snoc {B} (f : B → A → B) b l x :
  foldl f b (l ++ [x]) = f (foldl f b l) x.
Proof. by rewrite foldl_app. Qed.

Lemma drop_S_cons n x l : drop (S n) (x :: l) = drop n l.
Proof. done. Qed.

Lemma list_alter_insert f l i x : l !! i = Some x → alter f i l = <[i := f x]> l.
Proof.
  revert i. induction l as [|y l IH]; intros [|i] Hi; simplify_eq/=; [done|].
  f_equal. by apply IH.
Qed.

(** Replacing one element by a related one. *)
Lemma Forall2_insert_related (R : relation A) `{!Reflexive R} l i x y :
  l !! i = Some x → R x y → Forall2 R l (<[i := y]> l).
Proof.
  intros Hi HR. rewrite <- (list_insert_id l i x Hi) at 1. by apply Forall2_insert.
Qed.

(** A sublist of the same length is the list. *)
Lemma sublist_full l k : l `sublist_of` k → length k ≤ length l → l = k.
Proof.
  induction 1 as [|x l k Hs IH|x l k Hs IH]; simpl; intros Hlen; [done| |].
  - f_equal. apply IH. lia.
  - apply sublist_length in Hs. lia.
Qed.

Lemma take_drop_middle_S l i x :
  l !! i = Some x → l = take i l ++ x :: drop (S i) l.
Proof. intros. symmetry. by apply take_drop_middle. Qed.
End lists.
