(* ===== verification/GoStr.v ===== *)
(** * Go's string packages

    What the modelled code uses of the packages [strings], [bytes],
    [strconv], [path] and [path/filepath] of the Go standard library, over
    byte strings, with the lemmas the components share: splitting and
    joining, searching a byte, decimal numbers ([strconv.Itoa],
    [strconv.ParseInt] with its range errors) and the lexical path
    operations [Clean], [Join] and [Dir]. *)

From Stdlib Require Import Sorted.
From S2P Require Import Prelude.

Local Open Scope go_scope.

(** ** Searching and slicing *)

(** [strings.IndexByte]: [None] is Go's [-1]. *)
Fixpoint index_byte (c : ascii) (s : str) : option nat :=
  match s with
  | [] => None
  | a :: t => if decide (a = c) then Some 0 else S <$> index_byte c t
  end.

(** [len(s) > 0]. *)
Definition given (s : str) : bool := negb (bool_decide (length s = 0)).

(** [strings.HasPrefix]. *)
Fixpoint has_prefix (p s : str) : bool :=
  match p, s with
  | [], _ => true
  | a :: p', b :: s' => if decide (a = b) then has_prefix p' s' else false
  | _ :: _, [] => false
  end.

(** [strings.Contains]. *)
Fixpoint contains (sub s : str) : bool :=
  has_prefix sub s ||
  match s with [] => false | _ :: t => contains sub t end.

(** [strings.Split] with a one-byte separator. *)
Fixpoint split (c : ascii) (s : str) : list str :=
  match s with
  | [] => [[]]
  | a :: t =>
      if decide (a = c) then [] :: split c t
      else match split c t with
           | [] => [[a]]
           | h :: r => (a :: h) :: r
           end
  end.

(** [strings.SplitN(s, sep, 2)] with a one-byte separator. *)
Definition split2 (c : ascii) (s : str) : list str :=
  match index_byte c s with
  | Some i => [take i s; drop (S i) s]
  | None => [s]
  end.

(** [strings.Join]. *)
Fixpoint join (sep : str) (l : list str) : str :=
  match l with
  | [] => []
  | [x] => x
  | x :: r => x ++ sep ++ join sep r
  end.

(** [strings.TrimLeftFunc], [strings.TrimRightFunc], [strings.TrimFunc] for a
    predicate on single bytes. *)
Fixpoint trim_left (p : ascii → bool) (s : str) : str :=
  match s with
  | [] => []
  | a :: t => if p a then trim_left p t else s
  end.
Definition trim_right (p : ascii → bool) (s : str) : str :=
  reverse (trim_left p (reverse s)).
Definition trim (p : ascii → bool) (s : str) : str :=
  trim_right p (trim_left p s).

(** [strings.ToUpper] and [strings.ToLower] on ASCII strings (other bytes are
    kept). *)
Definition upper_byte (c : ascii) : ascii :=
  if bool_decide (97 ≤ ord c ≤ 122)%Z then chr (ord c - 32) else c.
Definition lower_byte (c : ascii) : ascii :=
  if bool_decide (65 ≤ ord c ≤ 90)%Z then chr (ord c + 32) else c.
Definition to_upper (s : str) : str := map upper_byte s.
Definition to_lower (s : str) : str := map lower_byte s.

(** The byte order of Go strings, as [sort.Strings] uses it. *)
Fixpoint str_ltb (s t : str) : bool :=
  match s, t with
  | [], [] => false
  | [], _ :: _ => true
  | _ :: _, [] => false
  | a :: s', b :: t' =>
      if decide (a = b) then str_ltb s' t' else (ord a <? ord b)%Z
  end.

(** [sort.Strings]. *)
Fixpoint insert_sorted (k : str) (l : list str) : list str :=
  match l with
  | [] => [k]
  | x :: t => if str_ltb x k then x :: insert_sorted k t else k :: l
  end.
Definition sort_strings (l : list str) : list str := foldr insert_sorted [] l.

(** ** Numbers *)

Definition is_digit (c : ascii) : bool := bool_decide (48 ≤ ord c ≤ 57)%Z.
Definition digit (d : Z) : ascii := chr (48 + d).

Fixpoint udigits (fuel : nat) (z : Z) : str :=
  match fuel with
  | O => []
  | S f =>
      if (z <? 10)%Z then [digit z] else udigits f (z / 10) ++ [digit (z mod 10)]
  end.

(** [strconv.FormatUint(z, 10)]; a number has at most as many decimal as
    binary digits, so the fuel is enough ([udigits_value]). *)
Definition format_uint (z : Z) : str := udigits (S (Z.to_nat (Z.log2 z))) z.

(** [strconv.Itoa]. *)
Definition itoa (z : Z) : str :=
  if (z <? 0)%Z then "-"%char :: format_uint (- z) else format_uint z.

Inductive num_error := ErrSyntax | ErrRange.

Definition max_uint64 : Z := 2 ^ 64 - 1.
Definition min_int64 : Z := - 2 ^ 63.
Definition max_int64 : Z := 2 ^ 63 - 1.
Definition in_int64 (z : Z) : Prop := (min_int64 ≤ z ≤ max_int64)%Z.

(** An integer cut to 64 bits, as the operations of [int64] do. *)
Definition wrap64 (z : Z) : Z := ((z + 2 ^ 63) mod 2 ^ 64 - 2 ^ 63)%Z.

Lemma wrap64_id z : in_int64 z → wrap64 z = z.
Proof.
  unfold in_int64, min_int64, max_int64, wrap64. intros H. rewrite Z.mod_small; lia.
Qed.

Lemma wrap64_range z : in_int64 (wrap64 z).
Proof.
  unfold in_int64, min_int64, max_int64, wrap64. pose proof (Z.mod_pos_bound (z + 2 ^ 63) (2 ^ 64)). lia.
Qed.

(** The value of a digit in the bases up to 36; [None] is a bad byte. *)
Definition digit_value (c : ascii) : option Z :=
  let d := ord c in
  if bool_decide (48 ≤ d ≤ 57)%Z then Some (d - 48)%Z
  else if bool_decide (97 ≤ d ≤ 122)%Z then Some (d - 97 + 10)%Z
  else if bool_decide (65 ≤ d ≤ 90)%Z then Some (d - 65 + 10)%Z
  else None.

(** The loop of [strconv.ParseUint]: the range error is met at the digit that
    overflows, before the rest of the string is looked at. *)
Fixpoint parse_uint_loop (base n : Z) (s : str) : Z * option num_error :=
  match s with
  | [] => (n, None)
  | c :: t =>
      match digit_value c with
      | None => (0%Z, Some ErrSyntax)
      | Some v =>
          if (base <=? v)%Z then (0%Z, Some ErrSyntax)
          else if (max_uint64 <? n * base + v)%Z then (max_uint64, Some ErrRange)
          else parse_uint_loop base (n * base + v) t
      end
  end.

(** [strconv.ParseUint(s, base, 64)] for base 0 (prefixes [0x] and [0]) and
    the bases 2 to 36. *)
Definition parse_uint (base : Z) (s : str) : Z * option num_error :=
  match s with
  | [] => (0%Z, Some ErrSyntax)
  | c :: t =>
      if (base =? 0)%Z then
        if decide (c = "0"%char) then
          match t with
          | x :: t' =>
              if decide (x = "x"%char ∨ x = "X"%char) then
                match t' with
                | [] => (0%Z, Some ErrSyntax)
                | _ => parse_uint_loop 16 0 t'
                end
              else parse_uint_loop 8 0 s
          | [] => parse_uint_loop 8 0 s
          end
        else parse_uint_loop 10 0 s
      else parse_uint_loop base 0 s
  end.

(** [strconv.ParseInt(s, base, 64)]: the value is returned next to the error,
    saturated on a range error. *)
Definition parse_int (base : Z) (s : str) : Z * option num_error :=
  match s with
  | [] => (0%Z, Some ErrSyntax)
  | c :: t =>
      let neg := bool_decide (c = "-"%char) in
      let body := if decide (c = "+"%char ∨ c = "-"%char) then t else s in
      match parse_uint base body with
      | (_, Some ErrSyntax) => (0%Z, Some ErrSyntax)
      | (un, _) =>
          if negb neg && (2 ^ 63 <=? un)%Z then (max_int64, Some ErrRange)
          else if neg && (2 ^ 63 <? un)%Z then (min_int64, Some ErrRange)
          else ((if neg then - un else un)%Z, None)
      end
  end.

(** [strconv.Atoi]. *)
Definition atoi (s : str) : Z * option num_error := parse_int 10 s.

(** ** Paths *)

(** One element of a path against the elements kept so far (most recent
    first): empty elements and [.] are dropped, [..] removes the previous
    element, except at the root and after a leading [..]. *)
Definition clean_step (rooted : bool) (out : list str) (seg : str) : list str :=
  if decide (seg = [] ∨ seg = ("." : str)) then out
  else if decide (seg = (".." : str)) then
    match out with
    | x :: r => if decide (x = (".." : str)) then seg :: out else r
    | [] => if rooted then [] else [seg]
    end
  else seg :: out.

Definition is_rooted (s : str) : bool :=
  match s with c :: _ => bool_decide (c = "/"%char) | [] => false end.

Definition clean_segs (s : str) : list str :=
  reverse (foldl (clean_step (is_rooted s)) [] (split "/" s)).

(** [path.Clean] ([filepath.Clean] on Unix). *)
Definition clean (s : str) : str :=
  if is_rooted s then "/"%char :: join "/" (clean_segs s)
  else match clean_segs s with [] => "." | segs => join "/" segs end.

(** [path.Join]: the leading empty elements are skipped. *)
Fixpoint path_join (elems : list str) : str :=
  match elems with
  | [] => []
  | [] :: r => path_join r
  | _ => clean (join "/" elems)
  end.

(** The path up to and including its last slash ([path.Split]'s directory). *)
Definition dir_part (s : str) : str :=
  reverse (trim_left (λ c, bool_decide (c ≠ "/"%char)) (reverse s)).

(** [filepath.Dir]. *)
Definition dir (s : str) : str := clean (dir_part s).

(** ** Lemmas: searching and splitting *)

Lemma index_byte_Some c s i :
  index_byte c s = Some i ↔ s !! i = Some c ∧ c ∉ take i s.
Proof.
  revert i. induction s as [|a t IH]; intros i; simpl.
  - split; [done | by intros [? _]].
  - case_decide as Ha.
    + subst a. split.
      * intros [= <-]. split; [done | set_solver].
      * intros [Hi Hn]. destruct i as [|i]; [done|]. set_solver.
    + rewrite fmap_Some. split.
      * intros (j & Hj & ->). apply IH in Hj as [? ?]. simpl. set_solver.
      * destruct i as [|i]; simpl; intros [Hi Hn]; [congruence|].
        exists i. split; [|done]. apply IH. set_solver.
Qed.

Lemma index_byte_None c s : index_byte c s = None ↔ c ∉ s.
Proof.
  induction s as [|a t IH]; simpl; [set_solver|].
  case_decide; [set_solver|]. rewrite fmap_None, IH. set_solver.
Qed.

Lemma index_byte_app c s t :
  c ∉ s → index_byte c (s ++ c :: t) = Some (length s).
Proof.
  intros Hs. apply index_byte_Some. split.
  - by apply list_lookup_middle.
  - by rewrite take_app_length.
Qed.

Lemma split_not_nil c s : split c s ≠ [].
Proof. destruct s; simpl; [done|]. by split_cases. Qed.

Lemma split_none c s : c ∉ s → split c s = [s].
Proof.
  induction s as [|a t IH]; simpl; [done|]. intros Hn.
  rewrite decide_False by set_solver. by rewrite IH by set_solver.
Qed.

Lemma split_app c s t : c ∉ s → split c (s ++ c :: t) = s :: split c t.
Proof.
  induction s as [|a s IH]; simpl; intros Hn.
  - by rewrite decide_True.
  - rewrite decide_False by set_solver. by rewrite IH by set_solver.
Qed.

Lemma join_split c s : join [c] (split c s) = s.
Proof.
  induction s as [|a t IH]; simpl; [done|].
  pose proof (split_not_nil c t).
  case_decide; subst.
  - destruct (split c t) as [|h r]; [done|]. simpl in *. by rewrite IH.
  - destruct (split c t) as [|h r]; [done|].
    simpl in *. destruct r; simpl in *; congruence.
Qed.

Lemma split_join c l :
  l ≠ [] → Forall (λ p, c ∉ p) l → split c (join [c] l) = l.
Proof.
  intros Hl. induction l as [|x r IH]; [done|].
  rewrite Forall_cons_iff. intros [Hx Hr]. destruct r as [|y r]; simpl in *.
  - by apply split_none.
  - rewrite split_app by done. f_equal. by apply IH.
Qed.

Lemma split_pieces c s : Forall (λ p, c ∉ p) (split c s).
Proof.
  induction s as [|a t IH]; simpl; [constructor; set_solver|].
  case_decide; [constructor; set_solver|].
  destruct (split c t) as [|h r]; constructor; try set_solver;
    apply Forall_cons_iff in IH as [??]; [set_solver | done].
Qed.

(** A string splits into exactly two pieces when it has exactly one
    separator. *)
Lemma split_two c s x y :
  split c s = [x; y] ↔ s = x ++ c :: y ∧ c ∉ x ∧ c ∉ y.
Proof.
  split.
  - intros H. pose proof (join_split c s) as Hj.
    pose proof (split_pieces c s) as Hp. rewrite H in Hj, Hp.
    apply Forall_cons_iff in Hp as [Hx Hp]. apply Forall_cons_iff in Hp as [Hy _].
    done.
  - intros (-> & Hx & Hy). by rewrite split_app, split_none.
Qed.

Lemma has_prefix_spec p s : has_prefix p s = true ↔ ∃ t, s = p ++ t.
Proof.
  revert s. induction p as [|a p IH]; intros s; simpl; [naive_solver|].
  destruct s as [|b s]; [split; [done | by intros [??]]|].
  case_decide; subst.
  - rewrite IH. naive_solver.
  - split; [done|]. intros [? [=]]. congruence.
Qed.

Lemma trim_left_suffix p s : ∃ u, s = u ++ trim_left p s ∧ Forall (λ c, p c = true) u.
Proof.
  induction s as [|a t (u & Hu & Hp)]; simpl; [by exists []|].
  destruct (p a) eqn:Ha; [|by exists []].
  exists (a :: u). split; [by rewrite <- app_comm_cons, <- Hu | by constructor].
Qed.

Lemma trim_right_prefix p s : ∃ u, s = trim_right p s ++ u ∧ Forall (λ c, p c = true) u.
Proof.
  unfold trim_right. destruct (trim_left_suffix p (reverse s)) as (u & Hu & Hp).
  exists (reverse u). split; [|by apply Forall_reverse].
  apply (f_equal reverse) in Hu.
  by rewrite reverse_involutive, reverse_app in Hu.
Qed.

(** ** Lemmas: decimal numbers *)

Lemma digit_value_digit d : (0 ≤ d ≤ 9)%Z → digit_value (digit d) = Some d.
Proof.
  intros Hd. unfold digit_value, digit. rewrite ord_chr_small by lia.
  rewrite bool_decide_true by lia. f_equal. lia.
Qed.

Lemma digit_is_digit d : (0 ≤ d ≤ 9)%Z → is_digit (digit d) = true.
Proof.
  intros Hd. unfold is_digit, digit. rewrite ord_chr_small by lia.
  apply bool_decide_eq_true. lia.
Qed.

Lemma parse_uint_loop_app b n s t :
  parse_uint_loop b n (s ++ t) =
  match parse_uint_loop b n s with
  | (m, None) => parse_uint_loop b m t
  | r => r
  end.
Proof.
  revert n. induction s as [|c s IH]; intros n; simpl; [done|].
  destruct (digit_value c) as [v|]; [|done].
  destruct (b <=? v)%Z; [done|]. destruct (max_uint64 <? n * b + v)%Z; [done|].
  apply IH.
Qed.

Lemma udigits_value f z :
  (0 ≤ z ≤ max_uint64)%Z → (z < 2 ^ Z.of_nat f)%Z →
  parse_uint_loop 10 0 (udigits f z) = (z, None).
Proof.
  revert z. induction f as [|f IH]; intros z Hz Hf; simpl.
  - assert (z = 0%Z) as -> by lia. done.
  - rewrite Nat2Z.inj_succ, Z.pow_succ_r in Hf by lia.
    destruct (Z.ltb_spec z 10) as [Hs|Hs].
    + simpl. rewrite digit_value_digit by lia.
      destruct (Z.leb_spec 10 z); [lia|].
      destruct (Z.ltb_spec max_uint64 (0 * 10 + z)); [lia|]. f_equal.
    + pose proof (Z.mod_pos_bound z 10 ltac:(lia)).
      pose proof (Z.div_mod z 10 ltac:(lia)).
      rewrite parse_uint_loop_app, IH by (split || idtac; lia). simpl.
      rewrite digit_value_digit by lia.
      destruct (Z.leb_spec 10 (z mod 10)); [lia|].
      destruct (Z.ltb_spec max_uint64 (z / 10 * 10 + z mod 10)); [lia|].
      f_equal. lia.
Qed.

Lemma format_uint_value z :
  (0 ≤ z ≤ max_uint64)%Z → parse_uint_loop 10 0 (format_uint z) = (z, None).
Proof.
  intros Hz. apply udigits_value; [done|].
  rewrite Nat2Z.inj_succ, Z2Nat.id by apply Z.log2_nonneg.
  destruct (Z.eq_dec z 0%Z) as [->|]; [by vm_compute|].
  apply Z.log2_spec. lia.
Qed.

Lemma udigits_digits f z :
  (0 ≤ z)%Z → Forall (λ c, is_digit c = true) (udigits f z).
Proof.
  revert z. induction f as [|f IH]; intros z Hz; simpl; [done|].
  destruct (Z.ltb_spec z 10).
  - constructor; [|done]. apply digit_is_digit. lia.
  - apply Forall_app. split.
    + apply IH. apply Z.div_pos; lia.
    + constructor; [|done]. apply digit_is_digit.
      pose proof (Z.mod_pos_bound z 10). lia.
Qed.

(** No leading zero: the first digit of a positive number is not [0]. *)
Lemma udigits_head f z :
  (0 < z)%Z → (z < 2 ^ Z.of_nat f)%Z →
  ∃ c t, udigits f z = c :: t ∧ c ≠ "0"%char.
Proof.
  revert z. induction f as [|f IH]; intros z Hz Hf; simpl in *; [lia|].
  rewrite Nat2Z.inj_succ, Z.pow_succ_r in Hf by lia.
  destruct (Z.ltb_spec z 10).
  - exists (digit z), []. split; [done|]. intros Hd.
    apply (f_equal ord) in Hd. unfold digit in Hd.
    rewrite ord_chr_small in Hd by lia. vm_compute (ord "0") in Hd. lia.
  - destruct (IH (z / 10)%Z) as (c & t & -> & Hc).
    + apply Z.div_str_pos. lia.
    + apply Z.div_lt_upper_bound; lia.
    + by exists c, (t ++ [digit (z mod 10)]).
Qed.

Lemma log2_fuel z : (0 ≤ z)%Z → (z < 2 ^ Z.of_nat (S (Z.to_nat (Z.log2 z))))%Z.
Proof.
  intros Hz. rewrite Nat2Z.inj_succ, Z2Nat.id by apply Z.log2_nonneg.
  destruct (Z.eq_dec z 0%Z) as [->|]; [by vm_compute|].
  apply Z.log2_spec. lia.
Qed.

Lemma format_uint_digits z :
  (0 ≤ z)%Z → Forall (λ c, is_digit c = true) (format_uint z).
Proof. apply udigits_digits. Qed.

Lemma format_uint_head z :
  (0 ≤ z)%Z →
  format_uint z = ["0"%char] ∨
  ∃ c t, format_uint z = c :: t ∧ c ≠ "0"%char.
Proof.
  intros Hz. destruct (Z.eq_dec z 0%Z) as [->|]; [by left|]. right.
  apply udigits_head; [lia | by apply log2_fuel].
Qed.

(** [strconv.Atoi] inverts [strconv.Itoa] on the 64-bit integers. *)
Lemma atoi_itoa z : in_int64 z → atoi (itoa z) = (z, None).
Proof.
  unfold in_int64, min_int64, max_int64. intros Hz.
  assert (∀ u, (0 ≤ u)%Z → ∃ c t, format_uint u = c :: t ∧ is_digit c = true) as Hhead.
  { intros u Hu. pose proof (format_uint_digits u Hu) as Hd.
    destruct (format_uint_head u Hu) as [E|(c & t & E & _)]; rewrite E in *.
    - by eexists _, _.
    - apply Forall_cons_iff in Hd as [? _]. by eexists _, _. }
  assert (∀ c, is_digit c = true → c ≠ "+"%char ∧ c ≠ "-"%char) as Hsign.
  { intros c Hc. split; intros ->; by vm_compute in Hc. }
  unfold itoa, atoi, parse_int, parse_uint.
  destruct (Z.ltb_spec z 0) as [Hneg|Hpos].
  - rewrite bool_decide_true by done. rewrite decide_True by auto.
    destruct (Hhead (- z)%Z ltac:(lia)) as (c & t & E & _).
    pose proof (format_uint_value (- z) ltac:(unfold max_uint64; lia)) as V.
    rewrite E in *. simpl (10 =? 0)%Z. cbv beta iota. rewrite V. simpl.
    destruct (Z.ltb_spec (2 ^ 63) (- z)); [lia|]. f_equal. lia.
  - destruct (Hhead z Hpos) as (c & t & E & Hc).
    pose proof (format_uint_value z ltac:(unfold max_uint64; lia)) as V.
    destruct (Hsign c Hc) as [??].
    rewrite E in *. rewrite bool_decide_false by done.
    rewrite decide_False by naive_solver.
    simpl (10 =? 0)%Z. cbv beta iota. rewrite V. simpl.
    destruct (Z.leb_spec (2 ^ 63) z); [lia|]. done.
Qed.

Lemma digit_value_nonneg c v : digit_value c = Some v → (0 ≤ v)%Z.
Proof.
  unfold digit_value. intros Hv.
  repeat match type of Hv with
    | (if bool_decide ?P then _ else _) = _ => destruct (bool_decide_reflect P)
    end; simplify_eq; lia.
Qed.

Lemma parse_uint_loop_nonneg b n s :
  (0 ≤ b)%Z → (0 ≤ n)%Z → (0 ≤ (parse_uint_loop b n s).1)%Z.
Proof.
  revert n. induction s as [|c t IH]; intros n Hb Hn; simpl; [done|].
  destruct (digit_value c) as [v|] eqn:Hv; [|done]. apply digit_value_nonneg in Hv.
  destruct (b <=? v)%Z; [done|]. destruct (max_uint64 <? n * b + v)%Z; [done|].
  apply IH; nia.
Qed.

Lemma parse_uint_nonneg b s : (0 ≤ b)%Z → (0 ≤ (parse_uint b s).1)%Z.
Proof.
  intros Hb. unfold parse_uint.
  repeat (case_match; try done); by apply parse_uint_loop_nonneg.
Qed.

(** A number that is read without an error is a 64-bit integer. *)
Lemma parse_int_range b s z : (0 ≤ b)%Z → parse_int b s = (z, None) → in_int64 z.
Proof.
  intros Hb. unfold parse_int, in_int64, min_int64, max_int64.
  destruct s as [|c t]; [done|]. intros Hz.
  pose proof (parse_uint_nonneg b (if decide (c = "+"%char ∨ c = "-"%char) then t else c :: t) Hb) as Hu.
  destruct (parse_uint b _) as [un e]. simpl in Hu.
  destruct (Z.leb_spec (2 ^ 63) un), (Z.ltb_spec (2 ^ 63) un), (bool_decide (c = "-"%char));
    destruct e as [[]|]; simpl in Hz; simplify_eq; lia.
Qed.

(** [strconv.ParseBool]. *)
Definition parse_bool (s : str) : bool * option num_error :=
  if decide (s ∈ [lit "1"; lit "t"; lit "T"; lit "true"; lit "TRUE"; lit "True"]) then (true, None)
  else if decide (s ∈ [lit "0"; lit "f"; lit "F"; lit "false"; lit "FALSE"; lit "False"])
  then (false, None) else (false, Some ErrSyntax).

(** [fmt.Sprintf("%v")] of a bool ([strconv.FormatBool]). *)
Definition format_bool (b : bool) : str := if b then lit "true" else lit "false".

(** ** Lemmas: [SplitN(s, sep, 2)] *)

Lemma split2_none c s : c ∉ s → split2 c s = [s].
Proof. intros Hs. unfold split2. by rewrite (proj2 (index_byte_None c s)). Qed.

Lemma split2_app c s t : c ∉ s → split2 c (s ++ c :: t) = [s; t].
Proof.
  intros Hs. unfold split2. rewrite index_byte_app by done.
  rewrite take_app_length, drop_app_ge by lia.
  by replace (S (length s) - length s) with 1 by lia.
Qed.

Lemma split2_shape c s : split2 c s = [s] ∨ ∃ x y, split2 c s = [x; y].
Proof. unfold split2. destruct (index_byte c s); eauto. Qed.

(** ** Lemmas: trimming *)

Lemma trim_left_all p u s : Forall (λ c, p c = true) u → trim_left p (u ++ s) = trim_left p s.
Proof. induction 1 as [|c u Hc _ IH]; [done|]. simpl. by rewrite Hc. Qed.

Lemma trim_right_app p s u :
  Forall (λ c, p c = true) u → (∀ c, list.last s = Some c → p c = false) →
  trim_right p (s ++ u) = s.
Proof.
  intros Hu Hs. unfold trim_right. rewrite reverse_app, trim_left_all by by apply Forall_reverse.
  rewrite <- (reverse_involutive s). f_equal. rewrite reverse_involutive.
  rewrite <- head_reverse in Hs. destruct (reverse s) as [|c t]; [done|].
  simpl. by rewrite (Hs c eq_refl).
Qed.

Lemma trim_right_stop p s c : list.last (trim_right p s) = Some c → p c = false.
Proof.
  unfold trim_right. rewrite <- head_reverse, reverse_involutive.
  induction (reverse s) as [|x t IH]; [done|]. simpl. destruct (p x) eqn:Hx; [done|].
  by intros [= <-].
Qed.

Lemma trim_left_head p s c t : trim_left p s = c :: t → p c = false.
Proof.
  induction s as [|x s IH]; simpl; [done|]. destruct (p x) eqn:Hx; [done|]. by intros [= <- <-].
Qed.

(** ** Lemmas: sorting *)

Lemma str_ltb_trans s t u : str_ltb s t = true → str_ltb t u = true → str_ltb s u = true.
Proof.
  revert t u. induction s as [|a s IH]; intros [|b t] [|c u]; simpl; try done.
  destruct (decide (a = b)) as [->|Hab].
  - destruct (decide (b = c)) as [->|]; [apply IH | done].
  - intros Hlt%Z.ltb_lt. destruct (decide (b = c)) as [->|Hbc].
    + intros _. rewrite decide_False by done. by apply Z.ltb_lt.
    + intros Hlt'%Z.ltb_lt. rewrite decide_False by (intros ->; lia). apply Z.ltb_lt. lia.
Qed.

Lemma str_ltb_total s t : str_ltb s t = false → str_ltb t s = false → s = t.
Proof.
  revert t. induction s as [|a s IH]; intros [|b t]; simpl; try done.
  destruct (decide (a = b)) as [->|Hab].
  - rewrite decide_True by done. intros ??. f_equal. by apply IH.
  - rewrite decide_False by done. intros H1%Z.ltb_ge H2%Z.ltb_ge.
    destruct Hab. apply (inj ord). lia.
Qed.

(** The order [sort] leaves: no string is below an earlier one. *)
Definition str_le (s t : str) : Prop := str_ltb t s = false.

Lemma str_ltb_irrefl s : str_ltb s s = false.
Proof. induction s as [|a s IH]; simpl; [done|]. by rewrite decide_True. Qed.

#[global] Instance str_le_trans : Transitive str_le.
Proof.
  unfold str_le. intros s t u Hst Htu. apply not_true_iff_false. intros Hus.
  destruct (str_ltb s t) eqn:Hlt.
  - by rewrite (str_ltb_trans u s t) in Htu.
  - rewrite (str_ltb_total s t) in Hus by done. by rewrite Hus in Htu.
Qed.

Lemma insert_sorted_perm k l : insert_sorted k l ≡ₚ k :: l.
Proof.
  induction l as [|x l IH]; simpl; [done|]. destruct (str_ltb x k); [|done].
  rewrite IH. apply Permutation_swap.
Qed.

Lemma sort_strings_perm l : sort_strings l ≡ₚ l.
Proof. induction l as [|x l IH]; [done|]. simpl. by rewrite insert_sorted_perm, IH. Qed.

Lemma insert_sorted_sorted k l : StronglySorted str_le l → StronglySorted str_le (insert_sorted k l).
Proof.
  induction 1 as [|x l Hl IH Hx]; simpl; [by repeat constructor|].
  destruct (str_ltb x k) eqn:Hlt.
  - constructor; [done|]. rewrite insert_sorted_perm. constructor; [|done].
    unfold str_le. apply not_true_iff_false. intros Hk.
    pose proof (str_ltb_trans _ _ _ Hlt Hk) as Hxx. by rewrite str_ltb_irrefl in Hxx.
  - repeat constructor; try done. eapply list.Forall_impl; [exact Hx|]. intros y Hy. by trans x.
Qed.

Lemma sort_strings_sorted l : StronglySorted str_le (sort_strings l).
Proof. induction l as [|x l IH]; simpl; [constructor | by apply insert_sorted_sorted]. Qed.

(** ** encoding/base64 and hexadecimal digits *)

Definition base64_char (z : Z) : ascii :=
  if (z <? 26)%Z then chr (65 + z)
  else if (z <? 52)%Z then chr (71 + z)
  else if (z <? 62)%Z then chr (z - 4)
  else if (z =? 62)%Z then "+"%char else "/"%char.

Fixpoint base64 (s : str) : str :=
  match s with
  | a :: b :: c :: t =>
      let n := (ord a * 65536 + ord b * 256 + ord c)%Z in
      [base64_char (n / 262144); base64_char (n / 4096 mod 64);
       base64_char (n / 64 mod 64); base64_char (n mod 64)] ++ base64 t
  | [a; b] =>
      let n := (ord a * 1024 + ord b * 4)%Z in
      [base64_char (n / 4096); base64_char (n / 64 mod 64); base64_char (n mod 64); "="%char]
  | [a] =>
      let n := (ord a * 16)%Z in
      [base64_char (n / 64); base64_char (n mod 64); "="%char; "="%char]
  | [] => []
  end.

Definition lower_hex (n : Z) : ascii := if (n <? 10)%Z then chr (48 + n) else chr (87 + n).
(** The verb [%x] of a byte slice. *)
Definition hex (s : str) : str := s ≫= λ c, [lower_hex (ord c / 16); lower_hex (ord c mod 16)].
