(* ===== verification/Utf8.v ===== *)
(** * UTF-8, as the package [unicode/utf8] of the Go standard library decodes
    and encodes it: [DecodeRune], [EncodeRune], the rune-by-rune traversal of
    a string that [for range] and the JSON encoder make, and validity. *)

From S2P Require Import Prelude.

Local Open Scope Z_scope.

Definition rune_error : Z := 65533.
Definition max_rune : Z := 1114111.
Definition rune_self : Z := 128.

(** Bounds of the second byte of an encoding that starts with [b0]: they
    exclude overlong forms, the surrogates and what is above [max_rune]. *)
Definition second_lo (b0 : Z) : Z :=
  if b0 =? 224 then 160 else if b0 =? 240 then 144 else 128.
Definition second_hi (b0 : Z) : Z :=
  if b0 =? 237 then 159 else if b0 =? 244 then 143 else 191.

Definition in_range (lo hi z : Z) : bool := (lo <=? z) && (z <=? hi).

(** [utf8.DecodeRune]: the rune and its size in bytes; [(rune_error, 1)] for a
    byte that starts no valid encoding. *)
Definition decode_rune (s : str) : Z * nat :=
  match s with
  | [] => (rune_error, 0%nat)
  | c0 :: t0 =>
      let b0 := ord c0 in
      if b0 <? 128 then (b0, 1%nat)
      else if (b0 <? 194) || (244 <? b0) then (rune_error, 1%nat)
      else
        match t0 with
        | [] => (rune_error, 1%nat)
        | c1 :: t1 =>
            let b1 := ord c1 in
            if negb (in_range (second_lo b0) (second_hi b0) b1) then (rune_error, 1%nat)
            else if b0 <? 224 then ((b0 - 192) * 64 + (b1 - 128), 2%nat)
            else
              match t1 with
              | [] => (rune_error, 1%nat)
              | c2 :: t2 =>
                  let b2 := ord c2 in
                  if negb (in_range 128 191 b2) then (rune_error, 1%nat)
                  else if b0 <? 240 then
                    (((b0 - 224) * 64 + (b1 - 128)) * 64 + (b2 - 128), 3%nat)
                  else
                    match t2 with
                    | [] => (rune_error, 1%nat)
                    | c3 :: _ =>
                        let b3 := ord c3 in
                        if negb (in_range 128 191 b3) then (rune_error, 1%nat)
                        else ((((b0 - 240) * 64 + (b1 - 128)) * 64 + (b2 - 128)) * 64
                              + (b3 - 128), 4%nat)
                    end
              end
        end
  end.

Definition is_surrogate (r : Z) : bool := in_range 55296 57343 r.

(** [utf8.EncodeRune]: what is not a code point is encoded as [rune_error]. *)
Definition encode_rune (r : Z) : str :=
  let r := if (r <? 0) || (max_rune <? r) || is_surrogate r then rune_error else r in
  if r <=? 127 then [chr r]
  else if r <=? 2047 then [chr (192 + r / 64); chr (128 + r mod 64)]
  else if r <=? 65535 then
    [chr (224 + r / 4096); chr (128 + r / 64 mod 64); chr (128 + r mod 64)]
  else
    [chr (240 + r / 262144); chr (128 + r / 4096 mod 64);
     chr (128 + r / 64 mod 64); chr (128 + r mod 64)].

(** The runes of a string with the bytes each was read from, in order; [skip]
    counts the bytes of the current rune still to be passed. *)
Fixpoint chunks_from (skip : nat) (s : str) : list (Z * str) :=
  match s with
  | [] => []
  | _ :: t =>
      match skip with
      | S k => chunks_from k t
      | O =>
          let '(r, n) := decode_rune s in
          (r, take n s) :: chunks_from (pred n) t
      end
  end.
Definition rune_chunks (s : str) : list (Z * str) := chunks_from 0 s.

Definition bad_chunk (rb : Z * str) : bool :=
  (rb.1 =? rune_error) && bool_decide (length rb.2 = 1%nat).

(** [utf8.ValidString]. *)
Definition valid_utf8 (s : str) : bool := forallb (λ rb, negb (bad_chunk rb)) (rune_chunks s).

(** The string re-encoded rune by rune: [string([]rune(s))]. *)
Definition sanitize (s : str) : str := concat (map (λ rb, encode_rune rb.1) (rune_chunks s)).

Arguments decode_rune : simpl never.
Arguments encode_rune : simpl never.

(** ** Lemmas *)

Lemma in_range_spec lo hi z : in_range lo hi z = true ↔ lo ≤ z ≤ hi.
Proof. unfold in_range. rewrite andb_true_iff, !Z.leb_le. done. Qed.

(** One case per branch of [decode_rune] in hypothesis [H]. *)
Ltac decode_cases H :=
  unfold decode_rune in H; cbv zeta in H;
  repeat
    match type of H with
    | (match ?l with [] => _ | _ :: _ => _ end) = _ => destruct l
    | (if ?b then _ else _) = _ => destruct b eqn:?
    end;
  try (injection H as <- <-).

Lemma decode_rune_size s r n :
  s ≠ [] → decode_rune s = (r, n) → (1 ≤ n ≤ length s)%nat.
Proof.
  intros Hs H. decode_cases H; simpl; lia || done.
Qed.

Lemma decode_rune_size_4 s r n : decode_rune s = (r, n) → (n ≤ 4)%nat.
Proof. intros H. decode_cases H; lia. Qed.

Lemma decode_rune_ascii c t : ord c < 128 → decode_rune (c :: t) = (ord c, 1%nat).
Proof.
  intros H. unfold decode_rune. by destruct (Z.ltb_spec (ord c) 128); [|lia].
Qed.

(** A rune that was read is read again from its own bytes, whatever follows. *)
Lemma decode_rune_local s r n u :
  decode_rune s = (r, n) → bad_chunk (r, take n s) = false → s ≠ [] →
  decode_rune (take n s ++ u) = (r, n).
Proof.
  intros H Hb Hs. decode_cases H; try done;
    unfold decode_rune; cbn -[in_range second_lo second_hi];
    repeat match goal with E : @eq bool _ _ |- _ => rewrite E end; done.
Qed.

(** The payload bits of a continuation byte, as quotient and remainder. *)
Lemma div_64 x y : 0 ≤ y < 64 → (x * 64 + y) / 64 = x.
Proof. intros ?. rewrite Z.div_add_l, Z.div_small; lia. Qed.

Lemma mod_64 x y : 0 ≤ y < 64 → (x * 64 + y) mod 64 = y.
Proof. intros ?. rewrite Z.add_comm, Z.mod_add, Z.mod_small; lia. Qed.

Lemma div_4096 r : r / 4096 = r / 64 / 64.
Proof. by rewrite Z.div_div by lia. Qed.

Lemma div_262144 r : r / 262144 = r / 64 / 64 / 64.
Proof. by rewrite !Z.div_div by lia. Qed.

Lemma encode_rune_id r :
  0 ≤ r ≤ max_rune → is_surrogate r = false →
  (if (r <? 0) || (max_rune <? r) || is_surrogate r then rune_error else r) = r.
Proof.
  intros Hr ->. destruct (Z.ltb_spec r 0); [lia|].
  by destruct (Z.ltb_spec max_rune r); [lia|].
Qed.

(** Decide the comparisons of [encode_rune] by arithmetic. *)
Ltac encode_size :=
  repeat match goal with
    | |- context [?x <=? ?y] => destruct (Z.leb_spec x y); [try lia | try lia]
    end.

Lemma encode_rune_2 x y :
  2 ≤ x < 32 → 0 ≤ y < 64 →
  encode_rune (x * 64 + y) = [chr (192 + x); chr (128 + y)].
Proof.
  intros Hx Hy. unfold encode_rune.
  rewrite encode_rune_id by (unfold max_rune, is_surrogate, in_range; lia).
  encode_size. by rewrite div_64, mod_64.
Qed.

Lemma encode_rune_3 x y z :
  0 ≤ x < 16 → 0 ≤ y < 64 → 0 ≤ z < 64 → 2048 ≤ (x * 64 + y) * 64 + z →
  is_surrogate ((x * 64 + y) * 64 + z) = false →
  encode_rune ((x * 64 + y) * 64 + z) = [chr (224 + x); chr (128 + y); chr (128 + z)].
Proof.
  intros Hx Hy Hz Hr Hs. unfold encode_rune.
  rewrite encode_rune_id by (done || unfold max_rune; lia).
  encode_size. by rewrite div_4096, !div_64, !mod_64 by lia.
Qed.

Lemma encode_rune_4 x y z w :
  0 ≤ x < 5 → 0 ≤ y < 64 → 0 ≤ z < 64 → 0 ≤ w < 64 →
  65536 ≤ ((x * 64 + y) * 64 + z) * 64 + w ≤ max_rune →
  encode_rune (((x * 64 + y) * 64 + z) * 64 + w)
  = [chr (240 + x); chr (128 + y); chr (128 + z); chr (128 + w)].
Proof.
  intros Hx Hy Hz Hw Hr. unfold encode_rune.
  rewrite encode_rune_id by (unfold is_surrogate, in_range; lia).
  unfold max_rune in Hr. encode_size.
  by rewrite div_262144, div_4096, !div_64, !mod_64 by lia.
Qed.

Lemma encode_rune_1 c : ord c < 128 → encode_rune (ord c) = [c].
Proof.
  intros Hc. pose proof (ord_range c). unfold encode_rune.
  rewrite encode_rune_id by (unfold max_rune, is_surrogate, in_range; lia).
  encode_size. by rewrite chr_ord.
Qed.

Lemma cons_chr z c (l k : str) : z = ord c → l = k → chr z :: l = c :: k.
Proof. intros -> ->. by rewrite chr_ord. Qed.

Ltac second_byte :=
  unfold second_lo, second_hi in *;
  repeat match goal with
    | H : context [?x =? ?y] |- _ => destruct (Z.eqb_spec x y)
    | |- context [?x =? ?y] => destruct (Z.eqb_spec x y)
    end; lia.

(** A valid encoding is the encoding of the rune it decodes to. *)
Lemma decode_rune_encode s r n :
  decode_rune s = (r, n) → bad_chunk (r, take n s) = false → s ≠ [] →
  encode_rune r = take n s.
Proof.
  intros H Hb Hs. decode_cases H; try done;
    rewrite ?negb_false_iff, ?in_range_spec, ?orb_false_iff,
      ?Z.ltb_lt, ?Z.ltb_ge in *.
  - by apply encode_rune_1.
  - rewrite encode_rune_2 by second_byte.
    by repeat (apply cons_chr; [lia|]).
  - rewrite encode_rune_3; try second_byte.
    + by repeat (apply cons_chr; [lia|]).
    + unfold is_surrogate, in_range. second_byte.
  - rewrite encode_rune_4; unfold max_rune; try second_byte.
    by repeat (apply cons_chr; [lia|]).
Qed.

Lemma chunks_from_drop k s : chunks_from k s = chunks_from 0 (drop k s).
Proof.
  revert k. induction s as [|c t IH]; intros k; [by destruct k|].
  destruct k as [|k]; [done|]. simpl. apply IH.
Qed.

(** The traversal peels one rune. *)
Lemma rune_chunks_step s r n :
  s ≠ [] → decode_rune s = (r, n) →
  rune_chunks s = (r, take n s) :: rune_chunks (drop n s).
Proof.
  intros Hs H. pose proof (decode_rune_size s r n Hs H) as Hn.
  destruct s as [|c t]; [done|]. unfold rune_chunks. simpl chunks_from at 1.
  rewrite H. f_equal. rewrite chunks_from_drop.
  destruct n as [|n]; [lia|]. done.
Qed.

(** Induction rune by rune. *)
Lemma rune_ind (P : str → Prop) :
  P [] →
  (∀ s r n, s ≠ [] → decode_rune s = (r, n) → P (drop n s) → P s) →
  ∀ s, P s.
Proof.
  intros H0 HS. apply length_strong_ind. intros s IH.
  destruct s as [|c t]; [done|].
  destruct (decode_rune (c :: t)) as [r n] eqn:E.
  pose proof (decode_rune_size (c :: t) r n ltac:(done) E) as Hn.
  eapply HS; [done | done |]. apply IH. rewrite length_drop. simpl in *. lia.
Qed.

Lemma concat_chunks s : concat (map snd (rune_chunks s)) = s.
Proof.
  induction s as [|s r n Hs H IH] using rune_ind; [done|].
  rewrite (rune_chunks_step s r n) by done. simpl. rewrite IH. apply take_drop.
Qed.

Lemma valid_utf8_step s r n :
  s ≠ [] → decode_rune s = (r, n) →
  valid_utf8 s = negb (bad_chunk (r, take n s)) && valid_utf8 (drop n s).
Proof. intros Hs H. unfold valid_utf8. by rewrite (rune_chunks_step s r n). Qed.

Lemma sanitize_step s r n :
  s ≠ [] → decode_rune s = (r, n) →
  sanitize s = encode_rune r ++ sanitize (drop n s).
Proof. intros Hs H. unfold sanitize. by rewrite (rune_chunks_step s r n). Qed.

(** Re-encoding changes nothing in a valid string. *)
Lemma sanitize_valid s : valid_utf8 s = true → sanitize s = s.
Proof.
  induction s as [|s r n Hs H IH] using rune_ind; [done|].
  rewrite (valid_utf8_step s r n), (sanitize_step s r n) by done.
  rewrite andb_true_iff, negb_true_iff. intros [Hb Hv].
  rewrite IH, (decode_rune_encode s r n) by done. apply take_drop.
Qed.

Lemma valid_utf8_ascii s : Forall (λ c, ord c < 128) s → valid_utf8 s = true.
Proof.
  induction 1 as [|c t Hc _ IH]; [done|].
  rewrite (valid_utf8_step (c :: t) (ord c) 1) by (done || by apply decode_rune_ascii).
  rewrite drop_S_cons, drop_0, IH, andb_true_r. unfold bad_chunk, rune_error. simpl.
  destruct (Z.eqb_spec (ord c) 65533); [lia | done].
Qed.

(** ** Lemmas: what [encode_rune] writes is valid *)

Lemma decode_encode_2 x y u :
  2 ≤ x < 32 → 0 ≤ y < 64 →
  decode_rune (chr (192 + x) :: chr (128 + y) :: u) = (x * 64 + y, 2%nat).
Proof.
  intros Hx Hy. unfold decode_rune. rewrite !ord_chr_small by lia. cbv zeta.
  replace (192 + x <? 128) with false by lia.
  replace ((192 + x <? 194) || (244 <? 192 + x)) with false by lia.
  replace (in_range (second_lo (192 + x)) (second_hi (192 + x)) (128 + y)) with true
    by (symmetry; apply in_range_spec; second_byte). simpl.
  replace (192 + x <? 224) with true by lia. f_equal. lia.
Qed.

Lemma decode_encode_3 x y z u :
  0 ≤ x < 16 → 0 ≤ y < 64 → 0 ≤ z < 64 → 2048 ≤ (x * 64 + y) * 64 + z →
  is_surrogate ((x * 64 + y) * 64 + z) = false →
  decode_rune (chr (224 + x) :: chr (128 + y) :: chr (128 + z) :: u)
  = ((x * 64 + y) * 64 + z, 3%nat).
Proof.
  intros Hx Hy Hz Hr Hs. unfold is_surrogate, in_range in Hs.
  unfold decode_rune. rewrite !ord_chr_small by lia. cbv zeta.
  replace (224 + x <? 128) with false by lia.
  replace ((224 + x <? 194) || (244 <? 224 + x)) with false by lia.
  replace (in_range (second_lo (224 + x)) (second_hi (224 + x)) (128 + y)) with true
    by (symmetry; apply in_range_spec; second_byte). simpl.
  replace (224 + x <? 224) with false by lia.
  replace (in_range 128 191 (128 + z)) with true by (symmetry; apply in_range_spec; lia).
  simpl. replace (224 + x <? 240) with true by lia. f_equal. lia.
Qed.

Lemma decode_encode_4 x y z w u :
  0 ≤ x < 5 → 0 ≤ y < 64 → 0 ≤ z < 64 → 0 ≤ w < 64 →
  65536 ≤ ((x * 64 + y) * 64 + z) * 64 + w ≤ max_rune →
  decode_rune (chr (240 + x) :: chr (128 + y) :: chr (128 + z) :: chr (128 + w) :: u)
  = (((x * 64 + y) * 64 + z) * 64 + w, 4%nat).
Proof.
  unfold max_rune. intros Hx Hy Hz Hw Hr.
  unfold decode_rune. rewrite !ord_chr_small by lia. cbv zeta.
  replace (240 + x <? 128) with false by lia.
  replace ((240 + x <? 194) || (244 <? 240 + x)) with false by lia.
  replace (in_range (second_lo (240 + x)) (second_hi (240 + x)) (128 + y)) with true
    by (symmetry; apply in_range_spec; second_byte). simpl.
  replace (240 + x <? 224) with false by lia.
  replace (in_range 128 191 (128 + z)) with true by (symmetry; apply in_range_spec; lia).
  simpl. replace (240 + x <? 240) with false by lia.
  replace (in_range 128 191 (128 + w)) with true by (symmetry; apply in_range_spec; lia).
  simpl. f_equal. lia.
Qed.

Lemma valid_utf8_chunk bs r u :
  (1 < length bs)%nat → decode_rune (bs ++ u) = (r, length bs) →
  valid_utf8 (bs ++ u) = valid_utf8 u.
Proof.
  intros Hl H. assert (bs ++ u ≠ []) as Hne by (by destruct bs; [simpl in Hl; lia|]).
  rewrite (valid_utf8_step _ _ _ Hne H).
  rewrite drop_app_length. unfold bad_chunk. simpl.
  rewrite take_app_length, bool_decide_false by lia. by rewrite andb_false_r.
Qed.

Lemma valid_utf8_cons c u : ord c < 128 → valid_utf8 (c :: u) = valid_utf8 u.
Proof.
  intros Hc. rewrite (valid_utf8_step (c :: u) (ord c) 1); [|done|by apply decode_rune_ascii].
  rewrite drop_S_cons, drop_0. unfold bad_chunk, rune_error. simpl.
  destruct (Z.eqb_spec (ord c) 65533); [lia | done].
Qed.

(** A rune as its six-bit digits. *)
Lemma rune_digits r : 0 ≤ r → r = r / 64 * 64 + r mod 64 ∧ 0 ≤ r mod 64 < 64 ∧ 0 ≤ r / 64.
Proof.
  intros Hr. pose proof (Z.div_mod r 64 ltac:(lia)). pose proof (Z.mod_pos_bound r 64 ltac:(lia)).
  pose proof (Z.div_pos r 64 Hr ltac:(lia)). lia.
Qed.

Lemma encode_rune_valid r u : valid_utf8 (encode_rune r ++ u) = valid_utf8 u.
Proof.
  set (r0 := if (r <? 0) || (max_rune <? r) || is_surrogate r then rune_error else r).
  assert (0 ≤ r0 ≤ max_rune ∧ is_surrogate r0 = false) as [Hr0 Hs].
  { assert (0 ≤ rune_error ≤ max_rune ∧ is_surrogate rune_error = false) as He.
    { unfold rune_error, max_rune, is_surrogate, in_range. lia. }
    subst r0. destruct (Z.ltb_spec r 0); [exact He|].
    destruct (Z.ltb_spec max_rune r); [exact He|]. simpl.
    destruct (is_surrogate r) eqn:E; [exact He | by split; [lia|]]. }
  assert (encode_rune r = encode_rune r0) as ->.
  { unfold encode_rune at 2. by rewrite encode_rune_id. }
  clearbody r0. clear r. unfold max_rune in Hr0.
  destruct (decide (r0 ≤ 127)) as [H1|H1].
  { replace r0 with (ord (chr r0)) at 1 by (rewrite ord_chr_small; lia).
    rewrite encode_rune_1 by (rewrite ord_chr_small; lia).
    apply valid_utf8_cons. rewrite ord_chr_small; lia. }
  destruct (rune_digits r0) as (E1 & B1 & P1); [lia|].
  destruct (decide (r0 ≤ 2047)) as [H2|H2].
  { rewrite E1 at 1. rewrite encode_rune_2 by lia.
    eapply valid_utf8_chunk; [simpl; lia|]. apply decode_encode_2; lia. }
  destruct (rune_digits (r0 / 64)) as (E2 & B2 & P2); [lia|].
  destruct (decide (r0 ≤ 65535)) as [H3|H3].
  { rewrite E2 in E1. rewrite E1 in Hs. rewrite E1 at 1.
    rewrite encode_rune_3 by (done || lia).
    eapply valid_utf8_chunk; [simpl; lia|]. apply decode_encode_3; done || lia. }
  destruct (rune_digits (r0 / 64 / 64)) as (E3 & B3 & P3); [lia|].
  rewrite E3 in E2. rewrite E2 in E1. rewrite E1 at 1.
  rewrite encode_rune_4 by (unfold max_rune; lia).
  eapply valid_utf8_chunk; [simpl; lia|]. apply decode_encode_4; unfold max_rune; lia.
Qed.

Lemma sanitize_is_valid s : valid_utf8 (sanitize s) = true.
Proof.
  induction s as [|s r n Hs H IH] using rune_ind; [done|].
  by rewrite (sanitize_step s r n), encode_rune_valid.
Qed.

Local Close Scope Z_scope.

(** ** Searching and trimming by runes *)

Fixpoint index_runes (p : Z → bool) (l : list (Z * str)) : option nat :=
  match l with
  | [] => None
  | (r, b) :: t => if p r then Some 0 else (λ i, length b + i) <$> index_runes p t
  end.

(** [strings.IndexFunc], [strings.TrimLeftFunc]. *)
Definition index_func (p : Z → bool) (s : str) : option nat := index_runes p (rune_chunks s).
Definition trim_left_func (p : Z → bool) (s : str) : str :=
  match index_func (λ r, negb (p r)) s with Some i => drop i s | None => [] end.

(** [utf8.DecodeLastRune]. *)
Definition rune_start (c : ascii) : bool := negb (in_range 128 191 (ord c)).
Fixpoint find_start (fuel start : nat) (s : str) : nat :=
  match fuel with
  | O => start
  | S fuel =>
      match s !! start with
      | Some c => if rune_start c then start else find_start fuel (pred start) s
      | None => start
      end
  end.
Definition decode_last_rune (s : str) : Z * nat :=
  match list.last s with
  | None => (rune_error, 0)
  | Some c =>
      if (ord c <? 128)%Z then (ord c, 1)
      else
        let start := find_start 3 (length s - 2) s in
        let '(r, n) := decode_rune (drop start s) in
        if decide (start + n = length s) then (r, n) else (rune_error, 1)
  end.

(** [strings.TrimRightFunc]: what is left of the last rune that stays. *)
Fixpoint trim_right_loop (fuel : nat) (p : Z → bool) (s : str) : str :=
  match fuel with
  | O => s
  | S fuel =>
      match s with
      | [] => []
      | _ =>
          let '(r, n) := decode_last_rune s in
          if p r then trim_right_loop fuel p (take (length s - n) s) else s
      end
  end.
Definition trim_right_func (p : Z → bool) (s : str) : str := trim_right_loop (length s) p s.
Definition trim_func (p : Z → bool) (s : str) : str := trim_right_func p (trim_left_func p s).

(** [unicode.IsSpace]. *)
Definition is_space_rune (r : Z) : bool :=
  in_range 9 13 r || (r =? 32)%Z || (r =? 133)%Z || (r =? 160)%Z || (r =? 5760)%Z ||
  in_range 8192 8202 r || (r =? 8232)%Z || (r =? 8233)%Z || (r =? 8239)%Z || (r =? 8287)%Z ||
  (r =? 12288)%Z.

(** [strings.TrimSpace]. *)
Definition trim_space_runes (s : str) : str := trim_func is_space_rune s.
