(* ===== verification/Json.v ===== *)
(** * JSON, as the package [encoding/json] of the Go standard library reads
    and writes it: the string encoder with its HTML-safe escapes, the scanner
    and the unquoting of strings, and a parser to a tree of values.  The tree
    keeps the order and the duplicates of object members, which the decoder of
    a struct depends on. *)

From S2P Require Import Prelude GoStr Utf8.

Local Open Scope go_scope.

Definition dquote : ascii := "034"%char.
Definition bslash : ascii := "092"%char.

(** ** Writing *)

(** [hex[d]] for the lower-case digits. *)
Definition hex_digit (d : Z) : ascii :=
  if (d <? 10)%Z then chr (48 + d) else chr (87 + d).

Definition html_unsafe (c : ascii) : bool :=
  bool_decide (c = "<"%char ∨ c = ">"%char ∨ c = "&"%char).

(** One rune of [encodeState.string]. *)
Definition escape_chunk (rb : Z * str) : str :=
  let '(r, bs) := rb in
  if (r <? rune_self)%Z then
    match bs with
    | [c] =>
        if decide (c = bslash ∨ c = dquote) then [bslash; c]
        else if decide (c = "010"%char) then [bslash; "n"%char]
        else if decide (c = "013"%char) then [bslash; "r"%char]
        else if decide (c = "009"%char) then [bslash; "t"%char]
        else if (r <? 32)%Z || html_unsafe c then
          [bslash; "u"%char; "0"%char; "0"%char; hex_digit (r / 16); hex_digit (r mod 16)]
        else [c]
    | _ => bs
    end
  else if bad_chunk rb then bslash :: "ufffd"
  else if (r =? 8232)%Z || (r =? 8233)%Z then bslash :: "u202" ++ [hex_digit (r mod 16)]
  else bs.

Definition escape (s : str) : str := concat (map escape_chunk (rune_chunks s)).

Definition quote_string (s : str) : str := dquote :: escape s ++ [dquote].

(** ** Reading *)

#[warnings="-register-all"]
Inductive json :=
  | JNull
  | JBool (b : bool)
  | JNumber (lit : str)
  | JString (s : str)
  | JArray (vs : list json)
  | JObject (ms : list (str * json)).

Definition is_space (c : ascii) : bool :=
  bool_decide (c = " "%char ∨ c = "009"%char ∨ c = "010"%char ∨ c = "013"%char).

Definition skip_space (s : str) : str := trim_left is_space s.

Definition hex_value (c : ascii) : option Z :=
  let d := ord c in
  if bool_decide (48 ≤ d ≤ 57)%Z then Some (d - 48)%Z
  else if bool_decide (97 ≤ d ≤ 102)%Z then Some (d - 87)%Z
  else if bool_decide (65 ≤ d ≤ 70)%Z then Some (d - 55)%Z
  else None.

(** The bytes that may follow a backslash, other than [u], with their
    meaning. *)
Definition simple_escape (c : ascii) : option ascii :=
  if decide (c = dquote ∨ c = bslash ∨ c = "/"%char) then Some c
  else if decide (c = "b"%char) then Some "008"%char
  else if decide (c = "f"%char) then Some "012"%char
  else if decide (c = "n"%char) then Some "010"%char
  else if decide (c = "r"%char) then Some "013"%char
  else if decide (c = "t"%char) then Some "009"%char
  else None.

(** The body of a string literal up to its closing quote, as the scanner
    accepts it, and what follows. *)
Fixpoint scan_string (s : str) : option (str * str) :=
  match s with
  | [] => None
  | c :: t =>
      if decide (c = dquote) then Some ([], t)
      else if decide (c = bslash) then
        match t with
        | [] => None
        | e :: t' =>
            if decide (e = "u"%char) then
              match t' with
              | h1 :: h2 :: h3 :: h4 :: t'' =>
                  match hex_value h1, hex_value h2, hex_value h3, hex_value h4 with
                  | Some _, Some _, Some _, Some _ =>
                      '(raw, r) ← scan_string t'';
                      Some (c :: e :: h1 :: h2 :: h3 :: h4 :: raw, r)
                  | _, _, _, _ => None
                  end
              | _ => None
              end
            else
              match simple_escape e with
              | Some _ => '(raw, r) ← scan_string t'; Some (c :: e :: raw, r)
              | None => None
              end
        end
      else if (ord c <? 32)%Z then None
      else '(raw, r) ← scan_string t; Some (c :: raw, r)
  end.

(** [getu4]: the code of an escape [\uXXXX] at the head of the string. *)
Definition getu4 (s : str) : option Z :=
  match s with
  | b :: u :: h1 :: h2 :: h3 :: h4 :: _ =>
      if decide (b = bslash ∧ u = "u"%char) then
        match hex_value h1, hex_value h2, hex_value h3, hex_value h4 with
        | Some a, Some b, Some c, Some d => Some (((a * 16 + b) * 16 + c) * 16 + d)%Z
        | _, _, _, _ => None
        end
      else None
  | _ => None
  end.

(** [utf16.DecodeRune]. *)
Definition utf16_decode (r1 r2 : Z) : Z :=
  if in_range 55296 56319 r1 && in_range 56320 57343 r2
  then ((r1 - 55296) * 1024 + (r2 - 56320) + 65536)%Z
  else rune_error.

(** [unquoteBytes] on the body of a literal; [skip] counts the bytes already
    consumed by the previous step. *)
Fixpoint unquote_from (skip : nat) (s : str) : option str :=
  match s with
  | [] => Some []
  | c :: t =>
      match skip with
      | S k => unquote_from k t
      | O =>
          if decide (c = bslash) then
            match t with
            | [] => None
            | e :: _ =>
                if decide (e = "u"%char) then
                  rr ← getu4 s;
                  if is_surrogate rr then
                    match utf16_decode rr <$> getu4 (drop 6 s) with
                    | Some dec =>
                        if (dec =? rune_error)%Z
                        then app (encode_rune rune_error) <$> unquote_from 5 t
                        else app (encode_rune dec) <$> unquote_from 11 t
                    | None => app (encode_rune rune_error) <$> unquote_from 5 t
                    end
                  else app (encode_rune rr) <$> unquote_from 5 t
                else
                  b ← simple_escape e; cons b <$> unquote_from 1 t
            end
          else if decide (c = dquote) then None
          else if (ord c <? 32)%Z then None
          else
            let '(r, n) := decode_rune s in
            app (encode_rune r) <$> unquote_from (pred n) t
      end
  end.
Definition unquote (s : str) : option str := unquote_from 0 s.

(** A maximal run of digits and the rest. *)
Fixpoint span_digits (s : str) : str * str :=
  match s with
  | [] => ([], [])
  | c :: t => if is_digit c then let '(d, r) := span_digits t in (c :: d, r) else ([], s)
  end.

Definition scan_fraction (s : str) : option (str * str) :=
  match s with
  | c :: t =>
      if decide (c = "."%char) then
        match span_digits t with
        | ([], _) => None
        | (d, r) => Some (c :: d, r)
        end
      else Some ([], s)
  | [] => Some ([], s)
  end.

Definition scan_exponent (s : str) : option (str * str) :=
  match s with
  | c :: t =>
      if decide (c = "e"%char ∨ c = "E"%char) then
        let '(sign, t') :=
          match t with
          | x :: u => if decide (x = "+"%char ∨ x = "-"%char) then ([x], u) else ([], t)
          | [] => ([], t)
          end in
        match span_digits t' with
        | ([], _) => None
        | (d, r) => Some (c :: sign ++ d, r)
        end
      else Some ([], s)
  | [] => Some ([], s)
  end.

(** An unsigned number literal: no leading zero, optional fraction and
    exponent. *)
Definition scan_unsigned (s : str) : option (str * str) :=
  '(int, r) ← match s with
              | c :: t =>
                  if decide (c = "0"%char) then Some ([c], t)
                  else match span_digits s with ([], _) => None | p => Some p end
              | [] => None
              end;
  '(frac, r) ← scan_fraction r;
  '(exp, r) ← scan_exponent r;
  Some (int ++ frac ++ exp, r).

Definition scan_number (s : str) : option (str * str) :=
  match s with
  | c :: t =>
      if decide (c = "-"%char) then '(n, r) ← scan_unsigned t; Some (c :: n, r)
      else scan_unsigned s
  | [] => None
  end.

(** The literals [true], [false] and [null]. *)
Definition parse_word (s : str) : option (json * str) :=
  if has_prefix "true" s then Some (JBool true, drop 4 s)
  else if has_prefix "false" s then Some (JBool false, drop 5 s)
  else if has_prefix "null" s then Some (JNull, drop 4 s)
  else None.

(** A string literal at the head of the input. *)
Definition parse_string (s : str) : option (str * str) :=
  match s with
  | c :: t =>
      if decide (c = dquote) then '(raw, r) ← scan_string t; u ← unquote raw; Some (u, r)
      else None
  | [] => None
  end.

(** The value at the head of the input (after white space) and what follows
    it.  Every value and every element consumes input, so fuel above twice the
    length of the input is enough ([parse_fuel]). *)
Fixpoint parse_value (fuel : nat) (s : str) {struct fuel} : option (json * str) :=
  match fuel with
  | O => None
  | S f =>
      match skip_space s with
      | [] => None
      | c :: t =>
          if decide (c = "{"%char) then
            match skip_space t with
            | x :: r =>
                if decide (x = "}"%char) then Some (JObject [], r)
                else '(ms, r) ← parse_members f t; Some (JObject ms, r)
            | [] => None
            end
          else if decide (c = "["%char) then
            match skip_space t with
            | x :: r =>
                if decide (x = "]"%char) then Some (JArray [], r)
                else '(vs, r) ← parse_elements f t; Some (JArray vs, r)
            | [] => None
            end
          else if decide (c = dquote) then
            '(u, r) ← parse_string (c :: t); Some (JString u, r)
          else if decide (c = "-"%char) then
            '(n, r) ← scan_number (c :: t); Some (JNumber n, r)
          else if is_digit c then
            '(n, r) ← scan_number (c :: t); Some (JNumber n, r)
          else parse_word (c :: t)
      end
  end
with parse_elements (fuel : nat) (s : str) {struct fuel} : option (list json * str) :=
  match fuel with
  | O => None
  | S f =>
      '(v, r) ← parse_value f s;
      match skip_space r with
      | c :: t =>
          if decide (c = ","%char) then '(vs, r) ← parse_elements f t; Some (v :: vs, r)
          else if decide (c = "]"%char) then Some ([v], t)
          else None
      | [] => None
      end
  end
with parse_members (fuel : nat) (s : str) {struct fuel} : option (list (str * json) * str) :=
  match fuel with
  | O => None
  | S f =>
      '(k, r) ← parse_string (skip_space s);
      match skip_space r with
      | c :: t =>
          if decide (c = ":"%char) then
            '(v, r) ← parse_value f t;
            match skip_space r with
            | d :: u =>
                if decide (d = ","%char) then
                  '(ms, r) ← parse_members f u; Some ((k, v) :: ms, r)
                else if decide (d = "}"%char) then Some ([(k, v)], u)
                else None
            | [] => None
            end
          else None
      | [] => None
      end
  end.

(** The whole input: one value between white space ([checkValid]). *)
Definition parse_json (s : str) : option json :=
  '(v, r) ← parse_value (S (2 * length s)) s;
  match skip_space r with [] => Some v | _ => None end.

Arguments skip_space : simpl never.
Arguments parse_word : simpl never.
Arguments parse_string : simpl never.
Arguments scan_number : simpl never.
Arguments scan_unsigned : simpl never.

(** ** Lemmas: the parser consumes input and has fuel enough *)

Lemma skip_space_length s : length (skip_space s) ≤ length s.
Proof.
  destruct (trim_left_suffix is_space s) as (u & Hu & _).
  unfold skip_space. rewrite Hu at 2. rewrite length_app. lia.
Qed.

(** Peel the binds and the tests of a successful parse in [H]. *)
Ltac parse_inv H :=
  repeat
    match type of H with
    | (match ?x with Some _ => _ | None => None end) = Some _ => destruct x eqn:?; [|done]
    | (?x ≫= _) = Some _ =>
        let p := fresh "p" in
        let E := fresh "E" in
        apply bind_Some in H; destruct H as [p [E Hrest]]; rename Hrest into H
    | (let '(_, _) := ?p in _) = Some _ => is_var p; destruct p
    | (match ?x with [] => _ | _ :: _ => _ end) = Some _ => destruct x eqn:?; try done
    | (if ?b then _ else _) = Some _ => destruct b eqn:?; try done
    end.

Lemma scan_string_length s raw r : scan_string s = Some (raw, r) → length r < length s.
Proof.
  revert raw r. induction s as [s IH] using length_strong_ind. intros raw r H.
  destruct s as [|c t]; [done|]. simpl in H.
  parse_inv H; simplify_eq/=; try lia;
    match goal with E : scan_string ?u = Some _ |- _ => apply IH in E; simpl in *; lia end.
Qed.

Lemma parse_string_length s u r : parse_string s = Some (u, r) → length r < length s.
Proof.
  intros H. destruct s as [|c t]; [done|]. unfold parse_string in H.
  parse_inv H. simplify_eq.
  match goal with E : scan_string _ = _ |- _ => apply scan_string_length in E end.
  simpl. lia.
Qed.

Lemma span_digits_app s d r : span_digits s = (d, r) → s = d ++ r.
Proof.
  revert d r. induction s as [|c t IH]; simpl; intros d r H; [by simplify_eq|].
  destruct (is_digit c); [|by simplify_eq].
  destruct (span_digits t) as [d' r']. simplify_eq/=. f_equal. by apply IH.
Qed.

Lemma scan_fraction_app s d r : scan_fraction s = Some (d, r) → s = d ++ r.
Proof.
  destruct s as [|c t]; simpl; [by intros [= <- <-]|].
  case_decide; [|by intros [= <- <-]].
  destruct (span_digits t) as [[|x d'] r'] eqn:E; [done|]. intros [= <- <-].
  apply span_digits_app in E. by subst.
Qed.

Lemma scan_exponent_app s d r : scan_exponent s = Some (d, r) → s = d ++ r.
Proof.
  destruct s as [|c t]; simpl; [by intros [= <- <-]|].
  case_decide; [|by intros [= <- <-]]. intros He.
  assert (∃ sg t', t = sg ++ t' ∧
    match span_digits t' with ([], _) => None | (d', r') => Some (c :: sg ++ d', r') end
    = Some (d, r)) as (sg & t' & -> & He').
  { destruct t as [|x u]; [by exists [], []|].
    case_decide; [by exists [x], u | by exists [], (x :: u)]. }
  destruct (span_digits t') as [[|y d'] r'] eqn:E; [done|].
  apply span_digits_app in E. simplify_eq/=. by rewrite <- app_assoc.
Qed.

Lemma scan_number_length s n r : scan_number s = Some (n, r) → length r < length s.
Proof.
  assert (∀ s n r, scan_unsigned s = Some (n, r) → length r < length s) as Hu.
  { clear. intros s n r H. unfold scan_unsigned in H.
    apply bind_Some in H as ([int r0] & Hi & H).
    apply bind_Some in H as ([fr r1] & Hf & H).
    apply bind_Some in H as ([ex r2] & He & H). simplify_eq.
    apply scan_fraction_app in Hf as ->. apply scan_exponent_app in He as ->.
    destruct s as [|c t]; [done|]. case_decide.
    - simplify_eq/=. rewrite !length_app. lia.
    - destruct (span_digits (c :: t)) as [[|x d] r'] eqn:E; [done|]. simplify_eq.
      apply span_digits_app in E. rewrite E, !length_app. simpl. lia. }
  unfold scan_number. destruct s as [|c t]; [done|]. case_decide; [|apply Hu].
  intros Hs. apply bind_Some in Hs as ([n' r'] & Hn & Hs). simplify_eq.
  apply Hu in Hn. simpl. lia.
Qed.

Lemma parse_word_length s v r : parse_word s = Some (v, r) → length r < length s.
Proof.
  unfold parse_word. intros H.
  repeat match type of H with
    | (if has_prefix ?p s then _ else _) = _ => destruct (has_prefix p s) eqn:?
    end;
  try done; simplify_eq;
  match goal with E : has_prefix _ _ = true |- _ => apply has_prefix_spec in E as [u ->] end;
  rewrite length_drop, length_app; simpl; lia.
Qed.

(** Every successful parse consumes input. *)
Lemma parse_length f :
  (∀ s v r, parse_value f s = Some (v, r) → length r < length s) ∧
  (∀ s v r, parse_elements f s = Some (v, r) → length r < length s) ∧
  (∀ s v r, parse_members f s = Some (v, r) → length r < length s).
Proof.
  induction f as [|f (IHv & IHe & IHm)]; [done|]. split_and!; intros s v r H; simpl in H.
  - pose proof (skip_space_length s) as Hs.
    destruct (skip_space s) as [|c t]; [done|]. simpl in Hs.
    pose proof (skip_space_length t) as Ht.
    parse_inv H; simplify_eq/=;
      repeat match goal with E : skip_space t = _ |- _ => rewrite E in Ht; clear E end;
      simpl in *; try lia;
      match goal with
      | E : parse_members _ _ = _ |- _ => apply IHm in E
      | E : parse_elements _ _ = _ |- _ => apply IHe in E
      | E : parse_string _ = _ |- _ => apply parse_string_length in E
      | E : scan_number _ = _ |- _ => apply scan_number_length in E
      | E : parse_word _ = _ |- _ => apply parse_word_length in E
      end; simpl in *; lia.
  - parse_inv H; simplify_eq.
    all: match goal with E : parse_value _ _ = Some (_, ?r0), E' : skip_space ?r0 = _ |- _ =>
        apply IHv in E; pose proof (skip_space_length r0) as Hr; rewrite E' in Hr end.
    all: try match goal with E : parse_elements _ _ = _ |- _ => apply IHe in E end.
    all: simpl in *; lia.
  - pose proof (skip_space_length s) as Hs. parse_inv H; simplify_eq.
    all: repeat match goal with
      | E : parse_string _ = _ |- _ => apply parse_string_length in E
      | E : parse_value _ _ = _ |- _ => apply IHv in E
      | E : parse_members _ _ = _ |- _ => apply IHm in E
      | E' : skip_space ?r0 = _ :: _ |- _ =>
          pose proof (skip_space_length r0); rewrite E' in *; clear E'
      end.
    all: simpl in *; lia.
Qed.

(** Enough fuel: above twice the length of the input the result does not
    depend on the fuel. *)
Lemma parse_fuel f :
  (∀ f' s, 2 * length s < f → 2 * length s < f' → parse_value f s = parse_value f' s) ∧
  (∀ f' s, 2 * length s + 1 < f → 2 * length s + 1 < f' →
     parse_elements f s = parse_elements f' s) ∧
  (∀ f' s, 2 * length s < f → 2 * length s < f' → parse_members f s = parse_members f' s).
Proof.
  induction f as [|f (IHv & IHe & IHm)]; [split_and!; intros; lia|].
  split_and!; intros [|f'] s Hf Hf'; try lia; simpl.
  - pose proof (skip_space_length s) as Hs.
    destruct (skip_space s) as [|c t]; [done|]. simpl in Hs.
    case_decide; [|case_decide; [|done]].
    + destruct (skip_space t) as [|x r]; [done|]. by rewrite (IHm f' t) by lia.
    + destruct (skip_space t) as [|x r]; [done|]. by rewrite (IHe f' t) by lia.
  - rewrite (IHv f' s) by lia.
    destruct (parse_value f' s) as [[v r]|] eqn:E; [simpl|done].
    apply (parse_length f') in E. pose proof (skip_space_length r) as Hr.
    destruct (skip_space r) as [|c t]; [done|]. simpl in Hr.
    case_decide; [|done]. by rewrite (IHe f' t) by lia.
  - pose proof (skip_space_length s) as Hs.
    destruct (parse_string (skip_space s)) as [[k r]|] eqn:Ek; [simpl|done].
    apply parse_string_length in Ek. pose proof (skip_space_length r) as Hr.
    destruct (skip_space r) as [|c t]; [done|]. simpl in Hr.
    case_decide; [|done]. rewrite (IHv f' t) by lia.
    destruct (parse_value f' t) as [[v r']|] eqn:E; [simpl|done].
    apply (parse_length f') in E. pose proof (skip_space_length r') as Hr'.
    destruct (skip_space r') as [|d u]; [done|]. simpl in Hr'.
    case_decide; [|done]. by rewrite (IHm f' u) by lia.
Qed.

(** ** Lemmas: what the encoder writes is read back *)

(** The bytes of an encoding of more than one byte are not ASCII. *)
Lemma decode_rune_high s r n :
  decode_rune s = (r, n) → 1 < n →
  (rune_self ≤ r)%Z ∧ Forall (λ c, (128 ≤ ord c)%Z) (take n s).
Proof.
  intros H Hn. decode_cases H; try lia;
    rewrite ?negb_false_iff, ?in_range_spec, ?orb_false_iff,
      ?Z.ltb_lt, ?Z.ltb_ge in *;
    (split; [unfold rune_self; second_byte|]);
    repeat (constructor; [second_byte|]); constructor.
Qed.

(** The two ways a rune is read: an ASCII byte, an invalid byte, or an
    encoding of several high bytes. *)
Lemma decode_rune_kind s r n :
  s ≠ [] → decode_rune s = (r, n) →
  (∃ c t, s = c :: t ∧ (ord c < 128)%Z ∧ r = ord c ∧ n = 1) ∨
  (r = rune_error ∧ n = 1 ∧ bad_chunk (r, take n s) = true) ∨
  (1 < n ∧ bad_chunk (r, take n s) = false).
Proof.
  intros Hs H. pose proof (decode_rune_size s r n Hs H) as Hn.
  destruct (decide (n = 1)) as [Hn1|Hn1].
  - decode_cases H; try done; subst;
      first [left; eexists _, _; split_and!; [done | by apply Z.ltb_lt | done | done]
            | right; left; done].
  - right; right. split; [lia|]. unfold bad_chunk. simpl.
    rewrite length_take, bool_decide_false by lia. apply andb_false_r.
Qed.

Lemma scan_string_high bs u :
  Forall (λ c, (128 ≤ ord c)%Z) bs →
  scan_string (bs ++ u) = prod_map (app bs) id <$> scan_string u.
Proof.
  induction 1 as [|c t Hc _ IH]; simpl.
  - destruct (scan_string u) as [[??]|]; done.
  - rewrite decide_False by (intros ->; vm_compute in Hc; done).
    rewrite decide_False by (intros ->; vm_compute in Hc; done).
    destruct (Z.ltb_spec (ord c) 32); [lia|].
    rewrite IH. destruct (scan_string u) as [[??]|]; done.
Qed.

(** The form an ASCII byte is written in, as a test. *)
Definition escape_form_ok (c : ascii) : bool :=
  match escape_chunk (ord c, [c]) with
  | [c'] =>
      bool_decide (c' = c ∧ c ≠ bslash ∧ c ≠ dquote ∧ (32 ≤ ord c)%Z)
  | [b; e] => bool_decide (b = bslash ∧ e ≠ "u"%char ∧ simple_escape e = Some c)
  | [b; u; z1; z2; h1; h2] =>
      bool_decide (b = bslash) && (bool_decide (u = "u"%char) &&
        (bool_decide (z1 = "0"%char) && (bool_decide (z2 = "0"%char) &&
          match hex_value h1, hex_value h2 with
          | Some a, Some b => bool_decide ((a * 16 + b)%Z = ord c)
          | _, _ => false
          end)))
  | _ => false
  end.

(** The three forms an ASCII byte is written in. *)
Lemma escape_ascii_forms c :
  (ord c < 128)%Z →
  (∃ e, escape_chunk (ord c, [c]) = [bslash; e] ∧ e ≠ "u"%char ∧ simple_escape e = Some c) ∨
  (∃ h1 h2 a b, escape_chunk (ord c, [c]) = [bslash; "u"%char; "0"%char; "0"%char; h1; h2] ∧
     hex_value h1 = Some a ∧ hex_value h2 = Some b ∧ (a * 16 + b)%Z = ord c) ∨
  (escape_chunk (ord c, [c]) = [c] ∧ c ≠ bslash ∧ c ≠ dquote ∧ (32 ≤ ord c)%Z).
Proof.
  intros Hc. assert (escape_form_ok c = true) as H.
  { clear Hc. by_bytes c. }
  unfold escape_form_ok in H.
  destruct (escape_chunk (ord c, [c])) as [|b1 [|b2 [|b3 [|b4 [|b5 [|b6 [|]]]]]]] eqn:E;
    try done; rewrite ?andb_true_iff, ?bool_decide_eq_true in H.
  - right; right. destruct H as (-> & ? & ? & ?). done.
  - left. destruct H as (-> & ? & ?). by exists b2.
  - right; left. destruct H as (-> & -> & -> & -> & Hv).
    destruct (hex_value b5) as [x|] eqn:Hx, (hex_value b6) as [y|] eqn:Hy; try done.
    exists b5, b6, x, y. apply bool_decide_eq_true in Hv. done.
Qed.

(** One escaped rune in front of the rest, for the scanner and for the
    unquoting. *)
Lemma scan_escape_ascii c u :
  (ord c < 128)%Z →
  scan_string (escape_chunk (ord c, [c]) ++ u)
  = prod_map (app (escape_chunk (ord c, [c]))) id <$> scan_string u.
Proof.
  intros Hc.
  destruct (escape_ascii_forms c Hc) as
    [(e & -> & Hu & He) | [(h1 & h2 & a & b & -> & H1 & H2 & _) | (-> & H1 & H2 & H3)]].
  - simpl. rewrite decide_False by done. rewrite He.
    by destruct (scan_string u) as [[??]|].
  - simpl. rewrite H1, H2. by destruct (scan_string u) as [[??]|].
  - simpl. rewrite !decide_False by done. destruct (Z.ltb_spec (ord c) 32); [lia|].
    by destruct (scan_string u) as [[??]|].
Qed.

Lemma unquote_escape_ascii c u :
  (ord c < 128)%Z →
  unquote (escape_chunk (ord c, [c]) ++ u) = cons c <$> unquote u.
Proof.
  intros Hc. unfold unquote. pose proof (ord_range c).
  destruct (escape_ascii_forms c Hc) as
    [(e & -> & Hu & He) | [(h1 & h2 & a & b & -> & H1 & H2 & Hv) | (-> & H1 & H2 & H3)]].
  - simpl. rewrite decide_False by done. by rewrite He.
  - simpl. rewrite H1, H2. simpl.
    replace ((((ord "0" - 48) * 16 + (ord "0" - 48)) * 16 + a) * 16 + b)%Z with (ord c)
      by (change (ord "0") with 48%Z; lia).
    assert (is_surrogate (ord c) = false) as ->.
    { unfold is_surrogate, in_range. lia. }
    by rewrite encode_rune_1.
  - simpl. rewrite !decide_False by done. destruct (Z.ltb_spec (ord c) 32); [lia|].
    rewrite decode_rune_ascii by done. by rewrite encode_rune_1.
Qed.

(** One rune, of any kind. *)
Lemma scan_escape_chunk s r n u :
  s ≠ [] → decode_rune s = (r, n) →
  scan_string (escape_chunk (r, take n s) ++ u)
  = prod_map (app (escape_chunk (r, take n s))) id <$> scan_string u.
Proof.
  intros Hs H. destruct (decode_rune_kind s r n Hs H) as
    [(c & t & -> & Hc & -> & ->) | [(-> & -> & Hb) | (Hn & Hb)]].
  - by apply scan_escape_ascii.
  - unfold escape_chunk. rewrite Hb. simpl. by destruct (scan_string u) as [[??]|].
  - destruct (decode_rune_high s r n H Hn) as [Hr Hhi].
    unfold escape_chunk. rewrite Hb. destruct (Z.ltb_spec r rune_self); [lia|].
    destruct (Z.eqb_spec r 8232) as [->|]; [simpl; by destruct (scan_string u) as [[??]|]|].
    destruct (Z.eqb_spec r 8233) as [->|]; [simpl; by destruct (scan_string u) as [[??]|]|].
    by apply scan_string_high.
Qed.

Lemma unquote_escape_chunk s r n u :
  s ≠ [] → decode_rune s = (r, n) →
  unquote (escape_chunk (r, take n s) ++ u) = app (encode_rune r) <$> unquote u.
Proof.
  intros Hs H. destruct (decode_rune_kind s r n Hs H) as
    [(c & t & -> & Hc & -> & ->) | [(-> & -> & Hb) | (Hn & Hb)]].
  - rewrite encode_rune_1 by done. by apply unquote_escape_ascii.
  - unfold escape_chunk. rewrite Hb. reflexivity.
  - destruct (decode_rune_high s r n H Hn) as [Hr Hhi].
    unfold escape_chunk. rewrite Hb. destruct (Z.ltb_spec r rune_self); [lia|].
    destruct (Z.eqb_spec r 8232) as [->|]; [reflexivity|].
    destruct (Z.eqb_spec r 8233) as [->|]; [reflexivity|]. simpl.
    pose proof (decode_rune_local s r n u H Hb Hs) as Hl.
    pose proof (decode_rune_size s r n Hs H) as Hsz.
    assert (length (take n s) = n) as Hlen by (rewrite length_take; lia).
    destruct (take n s) as [|c t] eqn:E; [simpl in Hlen; lia|].
    apply Forall_cons_iff in Hhi as [Hc _].
    unfold unquote. rewrite <- app_comm_cons in *. cbn [unquote_from].
    rewrite decide_False by (intros ->; by vm_compute in Hc).
    rewrite decide_False by (intros ->; by vm_compute in Hc).
    destruct (Z.ltb_spec (ord c) 32); [lia|]. rewrite Hl.
    f_equal. simpl in Hlen. subst n. simpl.
    clear. by induction t.
Qed.

(** The scanner stops at the closing quote of an escaped string ... *)
Lemma scan_string_escape s u : scan_string (escape s ++ dquote :: u) = Some (escape s, u).
Proof.
  unfold escape. induction s as [|s r n Hs H IH] using rune_ind; [done|].
  rewrite (rune_chunks_step s r n) by done. cbn [map concat].
  rewrite <- app_assoc, (scan_escape_chunk s r n), IH by done. done.
Qed.

(** ... and unquoting it gives the string back, every invalid byte replaced. *)
Lemma unquote_escape s : unquote (escape s) = Some (sanitize s).
Proof.
  unfold escape. induction s as [|s r n Hs H IH] using rune_ind; [done|].
  rewrite (rune_chunks_step s r n), (sanitize_step s r n) by done. cbn [map concat].
  by rewrite (unquote_escape_chunk s r n), IH by done.
Qed.

Lemma parse_string_quote s u : parse_string (quote_string s ++ u) = Some (sanitize s, u).
Proof.
  unfold quote_string, parse_string. rewrite <- app_comm_cons, <- app_assoc.
  rewrite decide_True by done. cbn [app]. rewrite scan_string_escape. simpl.
  by rewrite unquote_escape.
Qed.

(** A byte that ends a number literal. *)
Definition ends_number (c : ascii) : bool :=
  negb (is_digit c) && bool_decide (c ≠ "."%char ∧ c ≠ "e"%char ∧ c ≠ "E"%char).

Lemma span_digits_all d c u :
  Forall (λ c, is_digit c = true) d → is_digit c = false →
  span_digits (d ++ c :: u) = (d, c :: u).
Proof.
  intros Hd Hc. induction Hd as [|x d Hx _ IH]; simpl; [by rewrite Hc|].
  by rewrite Hx, IH.
Qed.

Lemma scan_unsigned_format z c u :
  (0 ≤ z)%Z → ends_number c = true →
  scan_unsigned (format_uint z ++ c :: u) = Some (format_uint z, c :: u).
Proof.
  intros Hz Hc. unfold ends_number in Hc.
  apply andb_true_iff in Hc as [Hdig Hc]. apply bool_decide_eq_true in Hc as (H1 & H2 & H3).
  apply negb_true_iff in Hdig.
  assert (scan_fraction (c :: u) = Some ([], c :: u)) as Hf.
  { simpl. by rewrite decide_False. }
  assert (scan_exponent (c :: u) = Some ([], c :: u)) as He.
  { simpl. rewrite decide_False by naive_solver. done. }
  unfold scan_unsigned. pose proof (format_uint_digits z Hz) as Hd.
  destruct (format_uint_head z Hz) as [E|(x & t & E & Hx)]; rewrite E in *.
  - cbn [app]. rewrite decide_True by done. cbn [mbind option_bind].
    rewrite Hf. cbn [mbind option_bind]. by rewrite He.
  - rewrite <- app_comm_cons, decide_False by done.
    rewrite app_comm_cons, span_digits_all by done. cbn [mbind option_bind].
    rewrite Hf. cbn [mbind option_bind]. rewrite He.
    cbn [mbind option_bind]. by rewrite !app_nil_r.
Qed.

Lemma scan_number_itoa z c u :
  ends_number c = true → scan_number (itoa z ++ c :: u) = Some (itoa z, c :: u).
Proof.
  intros Hc. unfold itoa, scan_number. destruct (Z.ltb_spec z 0).
  - rewrite <- app_comm_cons, decide_True by done.
    by rewrite scan_unsigned_format by (done || lia).
  - pose proof (scan_unsigned_format z c u ltac:(lia) Hc) as H1.
    pose proof (format_uint_digits z ltac:(lia)) as Hd.
    destruct (format_uint z) as [|x t] eqn:E; [by destruct (format_uint_head z) as [?|(?&?&?&?)]; [lia|congruence..]|].
    apply Forall_cons_iff in Hd as [Hx _].
    rewrite <- app_comm_cons in *. rewrite decide_False; [done|].
    intros ->. by vm_compute in Hx.
Qed.

(** Values at the head of the input, whatever the fuel. *)
Lemma parse_value_string f s u :
  parse_value (S f) (quote_string s ++ u) = Some (JString (sanitize s), u).
Proof.
  pose proof (parse_string_quote s u) as H. unfold quote_string in *.
  rewrite <- app_comm_cons in *. cbn [parse_value].
  change (skip_space (dquote :: ?x)) with (dquote :: x).
  cbv beta iota. rewrite !decide_False by done. rewrite decide_True by done.
  by rewrite H.
Qed.

Lemma itoa_head z : ∃ c t, itoa z = c :: t ∧ (c = "-"%char ∨ is_digit c = true).
Proof.
  unfold itoa. destruct (Z.ltb_spec z 0); [by eexists _, _; auto|].
  pose proof (format_uint_digits z ltac:(lia)) as Hd.
  destruct (format_uint_head z ltac:(lia)) as [E|(x & t & E & _)]; rewrite E in *;
    apply Forall_cons_iff in Hd as [Hx _]; by eexists _, _; auto.
Qed.

Lemma parse_value_itoa f z c u :
  ends_number c = true →
  parse_value (S f) (itoa z ++ c :: u) = Some (JNumber (itoa z), c :: u).
Proof.
  intros Hc. pose proof (scan_number_itoa z c u Hc) as H.
  destruct (itoa_head z) as (x & t & E & Hx). rewrite E in *.
  rewrite <- app_comm_cons in *. cbn [parse_value].
  assert (is_space x = false ∧ x ≠ "{"%char ∧ x ≠ "["%char ∧ x ≠ dquote) as (Hs & ? & ? & ?).
  { destruct Hx as [->|Hx]; [by vm_compute|].
    revert Hx. clear. unfold is_digit. rewrite bool_decide_eq_true. intros Hx.
    split; [|split_and!; intros ->; vm_compute in Hx; naive_solver].
    unfold is_space. apply bool_decide_eq_false. intros Hx'.
    destruct_or!; subst; vm_compute in Hx; naive_solver. }
  unfold skip_space. cbn [trim_left]. rewrite Hs. cbv beta iota.
  rewrite !decide_False by done.
  destruct Hx as [->|Hx]; [by rewrite decide_True, H|].
  case_decide; [by rewrite H|]. by rewrite Hx, H.
Qed.

(** One member in front of the others. *)
Lemma parse_members_cons f k s v c t ms r :
  parse_value f s = Some (v, c :: t) → c = ","%char → parse_members f t = Some (ms, r) →
  parse_members (S f) (quote_string k ++ ":"%char :: s) = Some ((sanitize k, v) :: ms, r).
Proof.
  intros Hv -> Hm. cbn [parse_members].
  assert (skip_space (quote_string k ++ ":"%char :: s) = quote_string k ++ ":"%char :: s) as -> by done.
  rewrite parse_string_quote. cbn [mbind option_bind].
  change (skip_space (":"%char :: s)) with (":"%char :: s). cbv beta iota.
  rewrite decide_True by done. rewrite Hv. cbn [mbind option_bind].
  change (skip_space (","%char :: t)) with (","%char :: t). cbv beta iota.
  rewrite decide_True by done. by rewrite Hm.
Qed.

Lemma parse_members_last f k s v t :
  parse_value f s = Some (v, "}"%char :: t) →
  parse_members (S f) (quote_string k ++ ":"%char :: s) = Some ([(sanitize k, v)], t).
Proof.
  intros Hv. cbn [parse_members].
  assert (skip_space (quote_string k ++ ":"%char :: s) = quote_string k ++ ":"%char :: s) as -> by done.
  rewrite parse_string_quote. cbn [mbind option_bind].
  change (skip_space (":"%char :: s)) with (":"%char :: s). cbv beta iota.
  rewrite decide_True by done. rewrite Hv. cbn [mbind option_bind].
  change (skip_space ("}"%char :: t)) with ("}"%char :: t). cbv beta iota.
  rewrite decide_False, decide_True by done. done.
Qed.

(** ** Lemmas: what is read is valid UTF-8 *)

(** Every string of the tree is valid UTF-8. *)
Fixpoint json_utf8 (v : json) : Prop :=
  match v with
  | JString s => valid_utf8 s = true
  | JArray vs => foldr (λ v P, json_utf8 v ∧ P) True vs
  | JObject ms => foldr (λ kv P, json_utf8 kv.2 ∧ P) True ms
  | _ => True
  end.

Lemma simple_escape_ascii e b : simple_escape e = Some b → (ord b < 128)%Z.
Proof.
  unfold simple_escape. intros H.
  repeat case_decide; simplify_eq; try (vm_compute; done).
  by destruct_or!; subst; vm_compute.
Qed.

Lemma unquote_valid k s t : unquote_from k s = Some t → valid_utf8 t = true.
Proof.
  revert k t. induction s as [|c s IH]; intros k t Hs; [by simplify_eq/=|].
  assert (∀ r k', app (encode_rune r) <$> unquote_from k' s = Some t → valid_utf8 t = true) as Hr.
  { intros r k' Hf. apply fmap_Some in Hf as (u & Hu & ->).
    rewrite encode_rune_valid. by eapply IH. }
  destruct k as [|k]; [|by eapply IH]. cbn [unquote_from] in Hs.
  case_decide.
  - destruct s as [|e s']; [done|]. case_decide.
    + apply bind_Some in Hs as (rr & _ & Hs). destruct (is_surrogate rr); [|by eapply Hr].
      destruct (utf16_decode rr <$> _) as [dec|]; [|by eapply Hr].
      case_match; by eapply Hr.
    + apply bind_Some in Hs as (b & Hb & Hs). apply fmap_Some in Hs as (u & Hu & ->).
      rewrite valid_utf8_cons by (by eapply simple_escape_ascii). by eapply IH.
  - case_decide; [done|]. case_match; [done|].
    destruct (decode_rune (c :: s)) as [r n]. by eapply Hr.
Qed.

Lemma parse_string_valid s u r : parse_string s = Some (u, r) → valid_utf8 u = true.
Proof.
  unfold parse_string. destruct s as [|c t]; [done|]. case_decide; [|done].
  intros Hp. apply bind_Some in Hp as ([raw r'] & _ & Hp).
  apply bind_Some in Hp as (w & Hw & Hp). simplify_eq. by eapply unquote_valid.
Qed.

Lemma parse_word_utf8 s v r : parse_word s = Some (v, r) → json_utf8 v.
Proof. unfold parse_word. repeat case_match; intros ?; by simplify_eq. Qed.

Lemma parse_utf8 f :
  (∀ s v r, parse_value f s = Some (v, r) → json_utf8 v) ∧
  (∀ s vs r, parse_elements f s = Some (vs, r) → json_utf8 (JArray vs)) ∧
  (∀ s ms r, parse_members f s = Some (ms, r) → json_utf8 (JObject ms)).
Proof.
  induction f as [|f (IHv & IHe & IHm)]; [done|]. split_and!; intros s v r H.
  - cbn [parse_value] in H. parse_inv H; simplify_eq; try done.
    + by eapply IHm.
    + by eapply IHe.
    + by eapply parse_string_valid.
    + by eapply parse_word_utf8.
  - cbn [parse_elements] in H. parse_inv H; simplify_eq; simpl.
    + split; [by eapply IHv | by eapply IHe].
    + split; [by eapply IHv | done].
  - cbn [parse_members] in H. parse_inv H; simplify_eq; simpl.
    + split; [by eapply IHv | by eapply IHm].
    + split; [by eapply IHv | done].
Qed.

Lemma parse_json_utf8 s v : parse_json s = Some v → json_utf8 v.
Proof.
  unfold parse_json. intros H. apply bind_Some in H as ([w r] & Hw & H).
  destruct (skip_space r); [|done]. simplify_eq.
  by eapply (parse_utf8 _).
Qed.
