(* ===== verification/KubeTypes.v ===== *)
(** * The Kubernetes objects the tools exchange with the API server

    The structs of the vendored packages [pkg/api] and
    [pkg/apis/extensions] that the tools read and write: object metadata, the
    Ingress with its rules, and the Secret.  A Go map that may be nil is an
    [option] of a finite map: reading a nil map finds nothing, writing to one
    panics ([map_assign]). *)

From S2P Require Import Prelude.

Local Open Scope go_scope.

(** [map[string]string], possibly nil. *)
Abbreviation string_map := (option (gmap str str)).

(** [m[k]] as an expression. *)
Definition map_index `{Countable K} {V} (m : option (gmap K V)) (k : K) : option V :=
  m ≫= lookup k.

(** [m[k] = v]. *)
Definition map_assign `{Countable K} {V} (m : option (gmap K V)) (k : K) (v : V) :
    control (option (gmap K V)) :=
  match m with
  | Some m => Return (Some (<[k := v]> m))
  | None => Panic "assignment to entry in nil map"
  end.

Record TypeMeta := {
  tm_Kind : str;
  tm_APIVersion : str
}.

(** Times are kept as the number of nanoseconds since the zero time. *)
Record ObjectMeta := {
  om_Name : str;
  om_GenerateName : str;
  om_Namespace : str;
  om_SelfLink : str;
  om_UID : str;
  om_ResourceVersion : str;
  om_Generation : Z;
  om_CreationTimestamp : Z;
  om_DeletionTimestamp : option Z;
  om_DeletionGracePeriodSeconds : option Z;
  om_Labels : string_map;
  om_Annotations : string_map
}.

(** [util.IntOrString]. *)
Inductive IntOrString :=
  | IntVal (z : Z)
  | StrVal (s : str).

Record IngressBackend := {
  ib_ServiceName : str;
  ib_ServicePort : IntOrString
}.

Record HTTPIngressPath := {
  hp_Path : str;
  hp_Backend : IngressBackend
}.

Record HTTPIngressRuleValue := {
  hr_Paths : list HTTPIngressPath
}.

(** The inlined [IngressRuleValue] is its one field. *)
Record IngressRule := {
  ir_Host : str;
  ir_HTTP : option HTTPIngressRuleValue
}.

Record IngressSpec := {
  is_Backend : option IngressBackend;
  is_Rules : list IngressRule
}.

Record LoadBalancerIngress := {
  lb_IP : str;
  lb_Hostname : str
}.

Record LoadBalancerStatus := {
  ls_Ingress : list LoadBalancerIngress
}.

Record IngressStatus := {
  ist_LoadBalancer : LoadBalancerStatus
}.

Record Ingress := {
  ing_TypeMeta : TypeMeta;
  ing_ObjectMeta : ObjectMeta;
  ing_Spec : IngressSpec;
  ing_Status : IngressStatus
}.

Record Secret := {
  sec_TypeMeta : TypeMeta;
  sec_ObjectMeta : ObjectMeta;
  sec_Data : option (gmap str str);
  sec_Type : str
}.

(** Zero values. *)
Definition zero_TypeMeta : TypeMeta := {| tm_Kind := []; tm_APIVersion := [] |}.

Definition zero_ObjectMeta : ObjectMeta := {|
  om_Name := []; om_GenerateName := []; om_Namespace := []; om_SelfLink := [];
  om_UID := []; om_ResourceVersion := []; om_Generation := 0;
  om_CreationTimestamp := 0; om_DeletionTimestamp := None;
  om_DeletionGracePeriodSeconds := None; om_Labels := None; om_Annotations := None
|}.

Definition zero_Ingress : Ingress := {|
  ing_TypeMeta := zero_TypeMeta;
  ing_ObjectMeta := zero_ObjectMeta;
  ing_Spec := {| is_Backend := None; is_Rules := [] |};
  ing_Status := {| ist_LoadBalancer := {| ls_Ingress := [] |} |}
|}.

(** The fields of an Ingress the code reads through embedding. *)
Definition ing_Name (ing : Ingress) : str := om_Name (ing_ObjectMeta ing).
Definition ing_Namespace (ing : Ingress) : str := om_Namespace (ing_ObjectMeta ing).
Definition ing_ResourceVersion (ing : Ingress) : str := om_ResourceVersion (ing_ObjectMeta ing).
Definition ing_Annotations (ing : Ingress) : string_map := om_Annotations (ing_ObjectMeta ing).

Definition set_Annotations (m : string_map) (ing : Ingress) : Ingress := {|
  ing_TypeMeta := ing_TypeMeta ing;
  ing_ObjectMeta := {|
    om_Name := om_Name (ing_ObjectMeta ing);
    om_GenerateName := om_GenerateName (ing_ObjectMeta ing);
    om_Namespace := om_Namespace (ing_ObjectMeta ing);
    om_SelfLink := om_SelfLink (ing_ObjectMeta ing);
    om_UID := om_UID (ing_ObjectMeta ing);
    om_ResourceVersion := om_ResourceVersion (ing_ObjectMeta ing);
    om_Generation := om_Generation (ing_ObjectMeta ing);
    om_CreationTimestamp := om_CreationTimestamp (ing_ObjectMeta ing);
    om_DeletionTimestamp := om_DeletionTimestamp (ing_ObjectMeta ing);
    om_DeletionGracePeriodSeconds := om_DeletionGracePeriodSeconds (ing_ObjectMeta ing);
    om_Labels := om_Labels (ing_ObjectMeta ing);
    om_Annotations := m
  |};
  ing_Spec := ing_Spec ing;
  ing_Status := ing_Status ing
|}.

Definition set_ResourceVersion (v : str) (ing : Ingress) : Ingress := {|
  ing_TypeMeta := ing_TypeMeta ing;
  ing_ObjectMeta := {|
    om_Name := om_Name (ing_ObjectMeta ing);
    om_GenerateName := om_GenerateName (ing_ObjectMeta ing);
    om_Namespace := om_Namespace (ing_ObjectMeta ing);
    om_SelfLink := om_SelfLink (ing_ObjectMeta ing);
    om_UID := om_UID (ing_ObjectMeta ing);
    om_ResourceVersion := v;
    om_Generation := om_Generation (ing_ObjectMeta ing);
    om_CreationTimestamp := om_CreationTimestamp (ing_ObjectMeta ing);
    om_DeletionTimestamp := om_DeletionTimestamp (ing_ObjectMeta ing);
    om_DeletionGracePeriodSeconds := om_DeletionGracePeriodSeconds (ing_ObjectMeta ing);
    om_Labels := om_Labels (ing_ObjectMeta ing);
    om_Annotations := om_Annotations (ing_ObjectMeta ing)
  |};
  ing_Spec := ing_Spec ing;
  ing_Status := ing_Status ing
|}.

Lemma map_assign_Some `{Countable K} {V} (m : gmap K V) k v :
  map_assign (Some m) k v = Return (Some (<[k := v]> m)).
Proof. done. Qed.

Lemma map_index_assign `{Countable K} {V} (m m' : option (gmap K V)) k v :
  map_assign m k v = Return m' → map_index m' k = Some v.
Proof.
  destruct m as [m|]; [|done]. intros [= <-]. simpl. apply lookup_insert_eq.
Qed.

Lemma map_index_assign_ne `{Countable K} {V} (m m' : option (gmap K V)) k k' v :
  map_assign m k v = Return m' → k ≠ k' → map_index m' k' = map_index m k'.
Proof.
  destruct m as [m|]; [|done]. intros [= <-] Hk. simpl. by apply lookup_insert_ne.
Qed.
