(* ===== verification/IngressApi.v ===== *)
(** * What the API server promises to a client that edits an Ingress

    The server is not part of the repository: its state and its two calls are
    the parameters of the class [IngressAPI], and [IngressAPILaws] states the
    documented behaviour of the Kubernetes API that the tools rely on:
    a read returns what is stored, and a write with a resource version is
    accepted only against that version (optimistic concurrency), replaces the
    object and moves it to a new version.  A call that reports an error may
    still have been carried out (the answer may be lost on the way), so the
    laws say only that it was carried out or not.

    [MapServer] is a server that obeys the laws, used by the witnesses. *)

From S2P Require Import Prelude GoStr KubeTypes.

(** The identity of an object: namespace and name. *)
Abbreviation objkey := (str * str)%type.

Class IngressAPI (Srv E : Type) := {
  api_get : str → str → Srv → Srv * result E Ingress;
  api_update : str → Ingress → Srv → Srv * result E Ingress;
  api_stored : Srv → objkey → option Ingress;
  api_version : Srv → objkey → nat;
  api_rv : nat → str
}.
#[global] Hint Mode IngressAPI ! - : typeclass_instances.
Arguments api_rv Srv {E _} n.

(** A write of [ing] under [k] was carried out between [s] and [s']: the
    object was there, the version asked for was the current one, and exactly
    this object changed. *)
Definition carried_out `{IngressAPI Srv E} (k : objkey) (ing : Ingress) (s s' : Srv) : Prop :=
  is_Some (api_stored s k) ∧
  ing_ResourceVersion ing = api_rv Srv (api_version s k) ∧
  api_stored s' k = Some (set_ResourceVersion (api_rv Srv (api_version s' k)) ing) ∧
  api_version s k < api_version s' k ∧
  (∀ k', k' ≠ k → api_stored s' k' = api_stored s k' ∧ api_version s' k' = api_version s k').

Definition unchanged `{IngressAPI Srv E} (s s' : Srv) : Prop :=
  ∀ k, api_stored s' k = api_stored s k ∧ api_version s' k = api_version s k.

Class IngressAPILaws (Srv E : Type) `{!IngressAPI Srv E} := {
  api_rv_inj :: Inj (=) (=) (api_rv Srv);
  api_rv_not_empty : ∀ n, api_rv Srv n ≠ [];
  (** what is stored carries its key and its current version *)
  api_stored_key : ∀ (s : Srv) k ing, api_stored s k = Some ing →
    ing_Namespace ing = k.1 ∧ ing_Name ing = k.2 ∧
    ing_ResourceVersion ing = api_rv Srv (api_version s k);
  api_get_unchanged : ∀ ns name (s : Srv), unchanged s (api_get ns name s).1;
  api_get_Ok : ∀ ns name (s : Srv) ing,
    (api_get ns name s).2 = Ok ing → api_stored s (ns, name) = Some ing;
  (** a write that succeeds was carried out *)
  api_update_Ok : ∀ ns ing (s : Srv) ing',
    ing_ResourceVersion ing ≠ [] →
    (api_update ns ing s).2 = Ok ing' →
    carried_out (ns, ing_Name ing) ing s (api_update ns ing s).1;
  (** a write that fails was carried out or left everything as it was *)
  api_update_Err : ∀ ns ing (s : Srv) e,
    ing_ResourceVersion ing ≠ [] →
    (api_update ns ing s).2 = Err e →
    unchanged s (api_update ns ing s).1 ∨
    carried_out (ns, ing_Name ing) ing s (api_update ns ing s).1
}.

(** ** A server that keeps the objects in a map *)

Module MapServer.

Inductive error := NotFound | Conflict.

Record server := {
  objects : gmap (str * str) (Ingress * nat)
}.

(** Versions in unary: the clients treat them as opaque. *)
Definition rv (n : nat) : str := replicate (S n) "1"%char.

Definition stored (s : server) (k : objkey) : option Ingress :=
  '(ing, n) ← objects s !! k;
  if decide (ing_Namespace ing = k.1 ∧ ing_Name ing = k.2)
  then Some (set_ResourceVersion (rv n) ing) else None.

Definition version (s : server) (k : objkey) : nat :=
  match objects s !! k with Some (_, n) => n | None => 0 end.

Definition get (ns name : str) (s : server) : server * result error Ingress :=
  (s, match stored s (ns, name) with Some ing => Ok ing | None => Err NotFound end).

Definition update (ns : str) (ing : Ingress) (s : server) : server * result error Ingress :=
  let k := (ns, ing_Name ing) in
  match stored s k with
  | None => (s, Err NotFound)
  | Some _ =>
      if decide (ing_ResourceVersion ing = rv (version s k) ∧ ing_Namespace ing = ns)
      then
        let n := S (version s k) in
        ({| objects := <[k := (ing, n)]> (objects s) |}, Ok (set_ResourceVersion (rv n) ing))
      else (s, Err Conflict)
  end.

#[global] Instance api : IngressAPI server error := {|
  api_get := get;
  api_update := update;
  api_stored := stored;
  api_version := version;
  api_rv := rv
|}.

#[global] Instance rv_inj : Inj (=) (=) rv.
Proof.
  intros n m H. apply (f_equal length) in H. unfold rv in H.
  rewrite !length_replicate in H. lia.
Qed.

Lemma stored_Some s k ing :
  stored s k = Some ing →
  ing_Namespace ing = k.1 ∧ ing_Name ing = k.2 ∧
  ing_ResourceVersion ing = rv (version s k).
Proof.
  unfold stored, version. intros H. apply bind_Some in H as ([i n] & -> & H).
  case_decide as Hk; [|done]. injection H as <-. by destruct Hk.
Qed.

Lemma update_carried_out ns ing s ing' :
  (update ns ing s).2 = Ok ing' → carried_out (ns, ing_Name ing) ing s (update ns ing s).1.
Proof.
  unfold update. destruct (stored s (ns, ing_Name ing)) as [old|] eqn:Hold; [|done].
  case_decide as Hv; [|done]. destruct Hv as [Hv Hns]. intros _. simpl.
  unfold carried_out. simpl. split_and!.
  - by rewrite Hold.
  - done.
  - unfold stored at 1, version. simpl. rewrite lookup_insert_eq. simpl.
    by rewrite decide_True.
  - unfold version at 2. simpl. rewrite lookup_insert_eq. lia.
  - intros k Hk. unfold stored, version. simpl. by rewrite lookup_insert_ne.
Qed.

#[global] Instance laws : IngressAPILaws server error.
Proof.
  split.
  - apply _.
  - done.
  - intros s k ing. apply stored_Some.
  - done.
  - intros ns name s ing. simpl. unfold get. simpl.
    by destruct (stored s (ns, name)); [intros [= ->]|].
  - intros ns ing s ing' _. apply update_carried_out.
  - intros ns ing s e _ H. left. revert H. simpl. unfold update.
    destruct (stored s _); [|done]. by case_decide.
Qed.
End MapServer.
