(* ===== verification/Receivers.v ===== *)
(** * The receivers kept in an Ingress's annotations (lib/receivers.go)

    [AnnotatedReceivers] stores the list of receivers of an Ingress, encoded
    as JSON, under one annotation.  [Get] reads and decodes it; [Update] reads
    the Ingress, replaces or adds one receiver and writes the same Ingress
    back.  The API server and the JSON codec are the interfaces [IngressAPI]
    and [ReceiverCodec]. *)

From S2P Require Import Prelude KubeTypes IngressApi.

Local Open Scope go_scope.

Definition receiversKey : str := "Ingress.receivers".

Record Receiver := mkReceiver {
  Host : str;
  Port : Z;
  Cert : str
}.

#[global] Instance Receiver_eq_dec : EqDecision Receiver.
Proof. solve_decision. Defined.

(** Errors of [encoding/json]: the input is not JSON, or a value does not fit
    the Go type it is decoded into. *)
Inductive json_error :=
  | SyntaxError
  | UnmarshalTypeError (value : str).

(** [json.Marshal] and [json.Unmarshal] on a list of receivers.  [Unmarshal]
    fills its target even when it reports an error. *)
Class ReceiverCodec := {
  marshal : list Receiver → result json_error str;
  unmarshal : str → list Receiver * option json_error
}.

(** What the receivers need from the codec: the receivers it can represent
    ([wf_receiver]) come back unchanged, and it decodes only such. *)
Class ReceiverCodecLaws `{!ReceiverCodec} := {
  wf_receiver : Receiver → Prop;
  marshal_total : ∀ rs, ∃ j, marshal rs = Ok j;
  unmarshal_marshal : ∀ rs j,
    rs ≠ [] → Forall wf_receiver rs → marshal rs = Ok j → unmarshal j = (rs, None);
  unmarshal_wf : ∀ j rs, unmarshal j = (rs, None) → Forall wf_receiver rs
}.

(** [ingAnnotations.getReceivers]. *)
Definition getReceivers (i : string_map) : option str := map_index i receiversKey.

(** The loop of [Update] over the receivers with its flag [newReceiver]. *)
Fixpoint replace_receivers (receivers : list Receiver) (rec : Receiver) (newReceiver : bool) :
    list Receiver * bool :=
  match receivers with
  | [] => ([], newReceiver)
  | r :: rest =>
      if decide (Host r = Host rec) then
        let '(rest', new) := replace_receivers rest rec false in (rec :: rest', new)
      else
        let '(rest', new) := replace_receivers rest rec newReceiver in (r :: rest', new)
  end.

Definition upsert (receivers : list Receiver) (rec : Receiver) : list Receiver :=
  let '(receivers, newReceiver) := replace_receivers receivers rec true in
  if newReceiver then receivers ++ [rec] else receivers.

Section AnnotatedReceivers.
Context {Srv E : Type} `{!IngressAPI Srv E} `{!ReceiverCodec}.

(** The errors [Get] and [Update] return: the client's or the codec's. *)
Inductive error :=
  | ClientError (e : E)
  | JsonError (e : json_error).

(** [AnnotatedReceivers.Get]: both results of the Go function, the receivers
    decoded so far and the error. *)
Definition Get (ingName ingNamespace : str) (srv : Srv) :
    Srv * (list Receiver * option error) :=
  let '(srv, r) := api_get ingNamespace ingName srv in
  match r with
  | Err e => (srv, ([], Some (ClientError e)))
  | Ok ing =>
      match getReceivers (ing_Annotations ing) with
      | Some jsonRec =>
          let '(rec, err) := unmarshal jsonRec in (srv, (rec, JsonError <$> err))
      | None => (srv, ([], None))
      end
  end.

(** The receivers of an Ingress, as [Update] decodes them. *)
Definition decode_receivers (ing : Ingress) : result error (list Receiver) :=
  match getReceivers (ing_Annotations ing) with
  | Some jsonRec =>
      match unmarshal jsonRec with
      | (receivers, None) => Ok receivers
      | (_, Some e) => Err (JsonError e)
      end
  | None => Ok []
  end.

(** What [Update] does between its two calls: decode, add the receiver,
    encode, assign the annotation. *)
Definition edit (ing : Ingress) (rec : Receiver) : control (result error Ingress) :=
  match decode_receivers ing with
  | Err e => Return (Err e)
  | Ok receivers =>
      match marshal (upsert receivers rec) with
      | Err e => Return (Err (JsonError e))
      | Ok jsonReceivers =>
          m ← map_assign (ing_Annotations ing) receiversKey jsonReceivers;
          Return (Ok (set_Annotations m ing))
      end
  end.

(** [AnnotatedReceivers.Update]. *)
Definition Update (ingName ingNamespace : str) (rec : Receiver) (srv : Srv) :
    control (Srv * result error unit) :=
  let '(srv, r) := api_get ingNamespace ingName srv in
  match r with
  | Err e => Return (srv, Err (ClientError e))
  | Ok ing =>
      r ← edit ing rec;
      match r with
      | Err e => Return (srv, Err e)
      | Ok ing =>
          let '(srv, r) := api_update ingNamespace ing srv in
          match r with
          | Err e => Return (srv, Err (ClientError e))
          | Ok _ => Return (srv, Ok ())
          end
      end
  end.
End AnnotatedReceivers.
Arguments error : clear implicits.

(** ** Specification

    The receivers are a table from hosts to receivers; an update assigns one
    entry.  [receivers_of] is the table's list as a reader of the server's
    state sees it. *)

Definition table (receivers : list Receiver) : gmap str Receiver :=
  list_to_map ((λ r, (Host r, r)) <$> receivers).

Definition receivers_of `{!IngressAPI Srv E} `{!ReceiverCodec} (srv : Srv) (k : objkey) :
    option (list Receiver) :=
  ing ← api_stored srv k;
  match decode_receivers (E := E) ing with Ok rs => Some rs | Err _ => None end.

(** ** Lemmas: the list operation *)

Lemma replace_receivers_eq rs rec new :
  replace_receivers rs rec new =
  ((λ r, if decide (Host r = Host rec) then rec else r) <$> rs,
   if decide (Exists (λ r, Host r = Host rec) rs) then false else new).
Proof.
  revert new. induction rs as [|r rs IH]; intros new; [done|].
  cbn [replace_receivers]. rewrite fmap_cons.
  destruct (decide (Host r = Host rec)) as [Hr|Hr]; rewrite IH.
  - assert (Exists (λ r, Host r = Host rec) (r :: rs)) as Hex by (by left).
    rewrite (decide_True _ _ Hex). cbn. f_equal. by case_decide.
  - cbn. f_equal. case_decide as H1.
    + rewrite decide_True; [done | by right].
    + rewrite decide_False; [done|]. intros H2. by inversion H2.
Qed.

(** The list after an update, without the loop. *)
Lemma upsert_eq rs rec :
  upsert rs rec =
  (if decide (Exists (λ r, Host r = Host rec) rs)
   then (λ r, if decide (Host r = Host rec) then rec else r) <$> rs
   else rs ++ [rec]).
Proof.
  unfold upsert. rewrite replace_receivers_eq. case_decide as Hex; [done|].
  f_equal. clear -Hex. induction rs as [|r rs IH]; [done|]. simpl.
  rewrite decide_False by (intros H; apply Hex; by left).
  f_equal. apply IH. intros H. apply Hex. by right.
Qed.

Lemma upsert_not_nil rs rec : upsert rs rec ≠ [].
Proof.
  rewrite upsert_eq. case_decide as H; [|by destruct rs].
  destruct rs; [inversion H | done].
Qed.

Lemma upsert_Forall (P : Receiver → Prop) rs rec :
  Forall P rs → P rec → Forall P (upsert rs rec).
Proof.
  intros Hrs Hrec. rewrite upsert_eq. case_decide.
  - apply Forall_fmap. eapply Forall_impl; [|done]. intros r ?. simpl. by case_decide.
  - apply Forall_app. split; [done|]. by constructor.
Qed.

Lemma table_cons r rs : table (r :: rs) = <[Host r := r]> (table rs).
Proof. done. Qed.

Lemma table_lookup_None rs h : table rs !! h = None ↔ ¬ Exists (λ r, Host r = h) rs.
Proof.
  induction rs as [|r rs IH].
  - split; [intros _ H; inversion H | done].
  - rewrite table_cons. destruct (decide (Host r = h)) as [<-|Hne].
    + rewrite lookup_insert_eq. split; [done|]. intros H. exfalso. apply H. by left.
    + rewrite lookup_insert_ne, IH by done. rewrite Exists_cons. naive_solver.
Qed.

Lemma table_snoc rs rec :
  ¬ Exists (λ r, Host r = Host rec) rs → table (rs ++ [rec]) = <[Host rec := rec]> (table rs).
Proof.
  induction rs as [|r rs IH]; intros H; [done|].
  rewrite Exists_cons in H. rewrite <- app_comm_cons, !table_cons, IH by naive_solver.
  apply insert_insert_ne. naive_solver.
Qed.

Lemma table_replace rs rec :
  table ((λ r, if decide (Host r = Host rec) then rec else r) <$> rs) =
  (if decide (Exists (λ r, Host r = Host rec) rs) then <[Host rec := rec]> (table rs) else table rs).
Proof.
  induction rs as [|r rs IH]; [done|].
  rewrite fmap_cons, table_cons, IH, table_cons.
  destruct (decide (Host r = Host rec)) as [Hr|Hr].
  - assert (Exists (λ r, Host r = Host rec) (r :: rs)) as Hex by (by left).
    rewrite (decide_True _ _ Hex), Hr, insert_insert_eq. case_decide; [apply insert_insert_eq | done].
  - destruct (decide (Exists (λ r, Host r = Host rec) rs)) as [Hrs|Hrs].
    + assert (Exists (λ r, Host r = Host rec) (r :: rs)) as Hex by (by right).
      rewrite (decide_True _ _ Hex). by apply insert_insert_ne.
    + assert (¬ Exists (λ r, Host r = Host rec) (r :: rs)) as Hex
        by (rewrite Exists_cons; naive_solver).
      by rewrite (decide_False _ _ Hex).
Qed.

Lemma table_upsert rs rec : table (upsert rs rec) = <[Host rec := rec]> (table rs).
Proof.
  rewrite upsert_eq. case_decide as H; [|by apply table_snoc].
  rewrite table_replace. by rewrite decide_True.
Qed.

(** ** Lemmas: the edit of an Ingress *)

Section edit.
Context {E : Type} `{!ReceiverCodec}.
Implicit Types (ing : Ingress) (rec : Receiver).

Lemma edit_Ok ing ing' rec :
  edit (E := E) ing rec = Return (Ok ing') →
  ∃ rs j m, decode_receivers (E := E) ing = Ok rs ∧ marshal (upsert rs rec) = Ok j ∧
    ing_Annotations ing = Some m ∧
    ing' = set_Annotations (Some (<[receiversKey := j]> m)) ing.
Proof.
  unfold edit. destruct (decode_receivers ing) as [rs|e] eqn:Hd; [|done].
  destruct (marshal (upsert rs rec)) as [j|e] eqn:Hj; [|done].
  destruct (ing_Annotations ing) as [m|] eqn:Hm; [|done]. simpl. intros [= <-].
  by exists rs, j, m.
Qed.

Lemma edit_key ing ing' rec :
  edit (E := E) ing rec = Return (Ok ing') →
  ing_Name ing' = ing_Name ing ∧ ing_Namespace ing' = ing_Namespace ing ∧
  ing_ResourceVersion ing' = ing_ResourceVersion ing.
Proof. intros (rs & j & m & _ & _ & _ & ->)%edit_Ok. done. Qed.

(** The receivers are the only thing an edit changes. *)
Lemma edit_frame ing ing' rec k :
  edit (E := E) ing rec = Return (Ok ing') → k ≠ receiversKey →
  map_index (ing_Annotations ing') k = map_index (ing_Annotations ing) k.
Proof.
  intros (rs & j & m & _ & _ & Hm & ->)%edit_Ok Hk. rewrite Hm. simpl.
  by rewrite lookup_insert_ne.
Qed.

Lemma decode_set_ResourceVersion v ing :
  decode_receivers (E := E) (set_ResourceVersion v ing) = decode_receivers ing.
Proof. done. Qed.

Lemma decode_receivers_wf `{!ReceiverCodecLaws} ing rs :
  decode_receivers (E := E) ing = Ok rs → Forall wf_receiver rs.
Proof.
  unfold decode_receivers. destruct (getReceivers _) as [j|]; [|by intros [= <-]].
  destruct (unmarshal j) as [rs' [e|]] eqn:Hj; [done|]. intros [= <-].
  by eapply unmarshal_wf.
Qed.

(** What an edit stores decodes to the updated list. *)
Lemma edit_decode `{!ReceiverCodecLaws} ing ing' rec rs :
  wf_receiver rec → edit (E := E) ing rec = Return (Ok ing') →
  decode_receivers (E := E) ing = Ok rs →
  decode_receivers (E := E) ing' = Ok (upsert rs rec).
Proof.
  intros Hrec (rs' & j & m & Hd & Hj & Hm & ->)%edit_Ok Hd'.
  rewrite Hd in Hd'. injection Hd' as ->.
  unfold decode_receivers, getReceivers. simpl. rewrite lookup_insert_eq.
  rewrite (unmarshal_marshal (upsert rs rec) j); try done.
  - apply upsert_not_nil.
  - apply upsert_Forall; [|done]. by eapply decode_receivers_wf.
Qed.

Lemma edit_Panic `{!ReceiverCodecLaws} ing rec :
  (∃ w, edit (E := E) ing rec = Panic w) ↔ ing_Annotations ing = None.
Proof.
  unfold edit. split.
  - intros [w Hw]. destruct (ing_Annotations ing) as [m|] eqn:Hm; [|done].
    destruct (decode_receivers ing); [|done]. by destruct (marshal _).
  - intros Hm. unfold decode_receivers, getReceivers. rewrite Hm. simpl.
    destruct (marshal_total (upsert [] rec)) as [j ->]. simpl. by eexists.
Qed.
End edit.

(** ** Lemmas: a call of [Update] *)

Section calls.
Context {Srv E : Type} `{!IngressAPI Srv E} `{!IngressAPILaws Srv E}.
Context `{!ReceiverCodec} `{!ReceiverCodecLaws}.
Implicit Types (srv : Srv) (rec : Receiver).

(** The reads of an edited object, after the write was carried out. *)
Lemma carried_out_receivers srv1 srv2 k ing ing' rec rs :
  wf_receiver rec → api_stored srv1 k = Some ing →
  decode_receivers (E := E) ing = Ok rs → edit (E := E) ing rec = Return (Ok ing') →
  carried_out k ing' srv1 srv2 →
  receivers_of srv1 k = Some rs ∧ receivers_of srv2 k = Some (upsert rs rec).
Proof.
  intros Hrec Hst Hd He (_ & _ & Hst' & _). unfold receivers_of.
  rewrite Hst, Hst'. simpl. rewrite Hd, decode_set_ResourceVersion.
  by rewrite (edit_decode ing ing' rec rs).
Qed.

(** Everything [Update] can do, call by call. *)
Lemma Update_inv name ns rec srv srv' r :
  Update name ns rec srv = Return (srv', r) →
  let srv1 := (api_get ns name srv).1 in
  (∃ e, (api_get ns name srv).2 = Err e ∧ srv' = srv1 ∧ r = Err (ClientError e)) ∨
  (∃ ing, (api_get ns name srv).2 = Ok ing ∧
    ((∃ e, edit ing rec = Return (Err e) ∧ srv' = srv1 ∧ r = Err e) ∨
     (∃ ing', edit (E := E) ing rec = Return (Ok ing') ∧
        srv' = (api_update ns ing' srv1).1 ∧
        ((∃ o, (api_update ns ing' srv1).2 = Ok o ∧ r = Ok ()) ∨
         (∃ e, (api_update ns ing' srv1).2 = Err e ∧ r = Err (ClientError e)))))).
Proof.
  unfold Update. destruct (api_get ns name srv) as [srv1 [ing|e]] eqn:Hget; simpl.
  - intros HU. right. exists ing. split; [done|].
    destruct (edit ing rec) as [[ing'|e]| |] eqn:He; try done; simpl in HU.
    + destruct (api_update ns ing' srv1) as [srv2 [o|e]] eqn:Hput;
        injection HU as <- <-; right; exists ing'; rewrite Hput; naive_solver.
    + injection HU as <- <-. left. by exists e.
  - intros [= <- <-]. left. by exists e.
Qed.

(** The object read by [api_get] carries a version that [api_update]
    compares. *)
Lemma get_update_key name ns srv ing ing' rec :
  (api_get ns name srv).2 = Ok ing → edit (E := E) ing rec = Return (Ok ing') →
  api_stored (api_get ns name srv).1 (ns, name) = Some ing ∧
  ing_Name ing' = name ∧ ing_ResourceVersion ing' ≠ [].
Proof.
  intros Hget (Hn & _ & Hrv)%edit_key.
  pose proof (api_get_Ok _ _ _ _ Hget) as Hst.
  destruct (api_stored_key _ _ _ Hst) as (_ & Hname & Hv). simpl in Hname.
  split_and!; [|congruence|].
  - destruct (api_get_unchanged ns name srv (ns, name)) as [-> _]. done.
  - rewrite Hrv, Hv. apply api_rv_not_empty.
Qed.

Lemma receivers_of_unchanged srv srv' k :
  unchanged srv srv' → receivers_of srv' k = receivers_of srv k.
Proof. intros Hu. unfold receivers_of. by destruct (Hu k) as [-> _]. Qed.

Lemma edit_decodes (ing ing' : Ingress) rec :
  edit (E := E) ing rec = Return (Ok ing') → ∃ rs, decode_receivers (E := E) ing = Ok rs.
Proof. intros (rs & ? & ? & ? & _)%edit_Ok. by exists rs. Qed.
End calls.
