(* ===== verification/ReceiverJson.v ===== *)
(** * The JSON form of the receivers

    What [json.Marshal] and [json.Unmarshal] do for the struct [Receiver] of
    lib/receivers.go and its tags [host], [port] and [cert]: the concrete
    [ReceiverCodec].  The round trip is exact on receivers whose strings are
    valid UTF-8; an invalid byte comes back as U+FFFD. *)

From S2P Require Import Prelude GoStr Utf8 Json KubeTypes IngressApi Receivers.

Local Open Scope go_scope.

(** ** Writing *)

Definition field_host : str := "host".
Definition field_port : str := "port".
Definition field_cert : str := "cert".

(** One struct, in the order of its fields. *)
Definition marshal_receiver (r : Receiver) : str :=
  "{"%char :: quote_string field_host ++ ":"%char :: quote_string (Host r) ++
  ","%char :: quote_string field_port ++ ":"%char :: itoa (Port r) ++
  ","%char :: quote_string field_cert ++ ":"%char :: quote_string (Cert r) ++
  ["}"%char].

Definition marshal_receivers (rs : list Receiver) : result json_error str :=
  Ok ("["%char :: join "," (map marshal_receiver rs) ++ ["]"%char]).

(** ** Reading *)

Definition zero_receiver : Receiver := mkReceiver [] 0 [].

(** The case-insensitive match of a member's key with a field's name: ASCII
    letters without their case, and the long s (U+017F) for an [s]. *)
Fixpoint equal_fold (name key : str) : bool :=
  match name with
  | [] => match key with [] => true | _ => false end
  | n :: name' =>
      match key with
      | [] => false
      | k :: key' =>
          if (ord k <? 128)%Z then
            bool_decide (lower_byte n = lower_byte k) && equal_fold name' key'
          else
            match key' with
            | k2 :: key'' =>
                bool_decide (lower_byte n = "s"%char ∧ ord k = 197%Z ∧ ord k2 = 191%Z) &&
                equal_fold name' key''
            | [] => false
            end
      end
  end.

Inductive field := FHost | FPort | FCert.

(** The field a member goes to: an exact match first, then the first
    case-insensitive one. *)
Definition find_field (key : str) : option field :=
  if decide (key = field_host) then Some FHost
  else if decide (key = field_port) then Some FPort
  else if decide (key = field_cert) then Some FCert
  else if equal_fold field_host key then Some FHost
  else if equal_fold field_port key then Some FPort
  else if equal_fold field_cert key then Some FCert
  else None.

(** The name of a value's kind in an [UnmarshalTypeError]. *)
Definition kind_name (v : json) : str :=
  match v with
  | JNull => "null"
  | JBool _ => "bool"
  | JNumber _ => "number"
  | JString _ => "string"
  | JArray _ => "array"
  | JObject _ => "object"
  end.

(** Only the first error is kept; the decoding goes on. *)
Definition save_error (saved : option json_error) (value : str) : option json_error :=
  match saved with Some e => Some e | None => Some (UnmarshalTypeError value) end.

Definition decode_string (old : str) (v : json) (saved : option json_error) :
    str * option json_error :=
  match v with
  | JString s => (s, saved)
  | JNull => (old, saved)
  | _ => (old, save_error saved (kind_name v))
  end.

Definition decode_int (old : Z) (v : json) (saved : option json_error) :
    Z * option json_error :=
  match v with
  | JNumber n =>
      match parse_int 10 n with
      | (z, None) => (z, saved)
      | (_, Some _) => (old, save_error saved ("number " ++ n))
      end
  | JNull => (old, saved)
  | _ => (old, save_error saved (kind_name v))
  end.

(** One member of an object decoded into the struct. *)
Definition decode_member (st : Receiver * option json_error) (kv : str * json) :
    Receiver * option json_error :=
  let '(r, saved) := st in
  let '(key, v) := kv in
  match find_field key with
  | Some FHost => let '(h, saved) := decode_string (Host r) v saved in (mkReceiver h (Port r) (Cert r), saved)
  | Some FPort => let '(p, saved) := decode_int (Port r) v saved in (mkReceiver (Host r) p (Cert r), saved)
  | Some FCert => let '(c, saved) := decode_string (Cert r) v saved in (mkReceiver (Host r) (Port r) c, saved)
  | None => (r, saved)
  end.

Definition decode_receiver (v : json) (saved : option json_error) :
    Receiver * option json_error :=
  match v with
  | JObject ms => foldl decode_member (zero_receiver, saved) ms
  | JNull => (zero_receiver, saved)
  | _ => (zero_receiver, save_error saved (kind_name v))
  end.

Fixpoint decode_list (vs : list json) (saved : option json_error) :
    list Receiver * option json_error :=
  match vs with
  | [] => ([], saved)
  | v :: vs' =>
      let '(r, saved) := decode_receiver v saved in
      let '(rs, saved) := decode_list vs' saved in
      (r :: rs, saved)
  end.

Definition unmarshal_receivers (j : str) : list Receiver * option json_error :=
  match parse_json j with
  | None => ([], Some SyntaxError)
  | Some (JArray vs) => decode_list vs None
  | Some JNull => ([], None)
  | Some v => ([], save_error None (kind_name v))
  end.

#[global] Instance json_codec : ReceiverCodec := {|
  marshal := marshal_receivers;
  unmarshal := unmarshal_receivers
|}.

(** The receivers JSON can carry: valid UTF-8 and a 64-bit port. *)
Definition wf (r : Receiver) : Prop :=
  valid_utf8 (Host r) = true ∧ in_int64 (Port r) ∧ valid_utf8 (Cert r) = true.

(** What a receiver becomes on its way through JSON. *)
Definition sanitize_receiver (r : Receiver) : Receiver :=
  mkReceiver (sanitize (Host r)) (Port r) (sanitize (Cert r)).

(** The tree an encoded receiver parses to. *)
Definition receiver_tree (r : Receiver) : json :=
  JObject [(field_host, JString (sanitize (Host r)));
           (field_port, JNumber (itoa (Port r)));
           (field_cert, JString (sanitize (Cert r)))].

(** ** Lemmas: the round trip *)

Lemma parse_receiver f r u :
  parse_value (5 + f) (marshal_receiver r ++ u) = Some (receiver_tree r, u).
Proof.
  assert (parse_members (4 + f)
    (quote_string field_host ++ ":"%char :: quote_string (Host r) ++
     ","%char :: quote_string field_port ++ ":"%char :: itoa (Port r) ++
     ","%char :: quote_string field_cert ++ ":"%char :: quote_string (Cert r) ++
     "}"%char :: u) =
    Some ([(field_host, JString (sanitize (Host r))); (field_port, JNumber (itoa (Port r)));
           (field_cert, JString (sanitize (Cert r)))], u)) as Hm.
  { change field_host with (sanitize field_host) at 2.
    change field_port with (sanitize field_port) at 2.
    change field_cert with (sanitize field_cert) at 2.
    eapply parse_members_cons; [apply parse_value_string | done |].
    eapply parse_members_cons; [by apply parse_value_itoa | done |].
    apply parse_members_last. apply parse_value_string. }
  unfold marshal_receiver. rewrite <- app_comm_cons.
  repeat (rewrite <- ?app_assoc, <- ?app_comm_cons; cbn [app]).
  change (5 + f) with (S (4 + f)). cbn [parse_value].
  set (t := quote_string field_host ++ _) in *.
  change (skip_space ("{"%char :: t)) with ("{"%char :: t).
  cbv beta iota. rewrite decide_True by done.
  assert (∃ t', t = dquote :: t') as [t' Et] by (by eexists).
  assert (skip_space t = t) as -> by (by rewrite Et).
  rewrite Et at 1. cbv beta iota. rewrite decide_False by done. by rewrite Hm.
Qed.

Lemma parse_receivers f rs u :
  rs ≠ [] → length rs + 5 ≤ f →
  parse_elements f (join "," (map marshal_receiver rs) ++ "]"%char :: u)
  = Some (map receiver_tree rs, u).
Proof.
  revert f. induction rs as [|r rs IH]; intros f Hne Hf; [done|].
  destruct f as [|f]; [simpl in Hf; lia|].
  assert (∃ g, f = 5 + g) as [g ->] by (exists (f - 5); simpl in Hf; lia).
  destruct rs as [|r' rs].
  - simpl join. cbn [parse_elements]. by rewrite parse_receiver.
  - cbn [map join]. rewrite <- !app_assoc. cbn [parse_elements].
    rewrite parse_receiver. cbn [mbind option_bind].
    change (lit "," ++ ?x) with (","%char :: x).
    match goal with |- context [skip_space (","%char :: ?t)] =>
      change (skip_space (","%char :: t)) with (","%char :: t) end.
    cbv beta iota. rewrite decide_True by done.
    cbn [map join] in IH. rewrite IH; [done | done |].
    simpl in *. lia.
Qed.

Lemma decode_receiver_tree r saved :
  in_int64 (Port r) → decode_receiver (receiver_tree r) saved = (sanitize_receiver r, saved).
Proof.
  intros Hp. pose proof (atoi_itoa _ Hp) as Ha. unfold atoi in Ha.
  unfold decode_receiver, receiver_tree. cbn [foldl].
  unfold decode_member at 3.
  change (find_field field_host) with (Some FHost). cbn [decode_string].
  unfold decode_member at 2.
  change (find_field field_port) with (Some FPort). cbn [decode_int]. rewrite Ha.
  unfold decode_member.
  change (find_field field_cert) with (Some FCert). by cbn.
Qed.

Lemma decode_receiver_trees rs saved :
  Forall (λ r, in_int64 (Port r)) rs →
  decode_list (map receiver_tree rs) saved = (map sanitize_receiver rs, saved).
Proof.
  induction 1 as [|r rs Hr _ IH]; [done|]. cbn [map decode_list].
  by rewrite decode_receiver_tree, IH.
Qed.

Lemma length_marshal_receiver r : 5 ≤ length (marshal_receiver r).
Proof. unfold marshal_receiver, quote_string. cbn. rewrite !length_app. simpl. lia. Qed.

Lemma length_marshal_receivers rs :
  5 * length rs ≤ length (join "," (map marshal_receiver rs)).
Proof.
  induction rs as [|r rs IH]; [done|]. pose proof (length_marshal_receiver r).
  destruct rs as [|r' rs]; [simpl; lia|].
  cbn [map join]. cbn [map join] in IH. rewrite !length_app.
  simpl in IH |- *. lia.
Qed.

Lemma parse_array_receivers rs f :
  rs ≠ [] → length rs + 6 ≤ f →
  parse_value f ("["%char :: join "," (map marshal_receiver rs) ++ ["]"%char])
  = Some (JArray (map receiver_tree rs), []).
Proof.
  intros Hne Hf. destruct f as [|f]; [lia|].
  set (s := join "," (map marshal_receiver rs)).
  assert (∃ t, s = "{"%char :: t) as [t Et].
  { subst s. destruct rs as [|r [|r' rs]]; [done | by eexists..]. }
  cbn [parse_value].
  match goal with |- context [skip_space ("["%char :: ?x)] =>
    change (skip_space ("["%char :: x)) with ("["%char :: x) end.
  cbv beta iota. rewrite decide_False, decide_True by done.
  assert (skip_space (s ++ ["]"%char]) = s ++ ["]"%char]) as -> by (by rewrite Et).
  rewrite Et at 1. cbn [app]. rewrite decide_False by done.
  unfold s. rewrite parse_receivers; [done | done | lia].
Qed.

(** Decoding what was encoded, for any strings. *)
Lemma unmarshal_marshal_sanitize rs j :
  rs ≠ [] → Forall (λ r, in_int64 (Port r)) rs → marshal_receivers rs = Ok j →
  unmarshal_receivers j = (map sanitize_receiver rs, None).
Proof.
  intros Hne Hp [= <-]. unfold unmarshal_receivers, parse_json.
  pose proof (length_marshal_receivers rs) as Hlen.
  assert (0 < length rs) by (destruct rs; [done | simpl; lia]).
  rewrite parse_array_receivers; [|done|].
  - cbn [mbind option_bind]. by apply decode_receiver_trees.
  - cbn [length]. rewrite length_app. cbn [length].
    change (lit ",") with [","%char] in Hlen. lia.
Qed.

Lemma sanitize_receiver_wf r : wf r → sanitize_receiver r = r.
Proof.
  intros (Hh & _ & Hc). destruct r as [h p c]. unfold sanitize_receiver. simpl in *.
  by rewrite !sanitize_valid.
Qed.

Lemma map_sanitize_wf rs : Forall wf rs → map sanitize_receiver rs = rs.
Proof.
  induction 1 as [|r rs Hr _ IH]; [done|]. simpl. by rewrite IH, sanitize_receiver_wf.
Qed.

Lemma unmarshal_marshal_wf rs j :
  rs ≠ [] → Forall wf rs → marshal_receivers rs = Ok j →
  unmarshal_receivers j = (rs, None).
Proof.
  intros Hne Hwf Hj. rewrite (unmarshal_marshal_sanitize rs j Hne); [| |done].
  2: { eapply Forall_impl; [|done]. by intros r (_ & ? & _). }
  by rewrite map_sanitize_wf.
Qed.

(** ** Lemmas: what is decoded can be encoded *)

Lemma decode_string_valid old v saved s e :
  valid_utf8 old = true → json_utf8 v → decode_string old v saved = (s, e) →
  valid_utf8 s = true.
Proof. destruct v; simpl; intros; by simplify_eq. Qed.

Lemma decode_int_range old v saved z e :
  in_int64 old → decode_int old v saved = (z, e) → in_int64 z.
Proof.
  intros Ho. destruct v; simpl; intros Hd; try by simplify_eq.
  destruct (parse_int 10 lit) as [y [n|]] eqn:Hp; simplify_eq; [done|].
  by eapply (parse_int_range 10).
Qed.

Lemma decode_member_wf r saved k v :
  wf r → json_utf8 v → wf (decode_member (r, saved) (k, v)).1.
Proof.
  intros (Hh & Hp & Hc) Hv. unfold decode_member.
  destruct (find_field k) as [[]|]; simpl; [| | |by split_and!].
  - destruct (decode_string (Host r) v saved) as [h e] eqn:E.
    split_and!; try done. by eapply decode_string_valid in E.
  - destruct (decode_int (Port r) v saved) as [p e] eqn:E.
    split_and!; try done. by eapply decode_int_range in E.
  - destruct (decode_string (Cert r) v saved) as [c e] eqn:E.
    split_and!; try done. by eapply decode_string_valid in E.
Qed.

Lemma decode_receiver_wf v saved : json_utf8 v → wf (decode_receiver v saved).1.
Proof.
  assert (wf zero_receiver) as Hz by (by vm_compute).
  intros Hv. destruct v as [| | | | |ms]; try done. simpl in *.
  revert Hz Hv. generalize zero_receiver. revert saved.
  induction ms as [|[k v] ms IH]; intros saved r Hz Hv; [done|].
  destruct Hv as [Hv Hms]. cbn [foldl].
  pose proof (decode_member_wf r saved k v Hz Hv) as Hm.
  destruct (decode_member (r, saved) (k, v)) as [r' saved']. by apply IH.
Qed.

Lemma decode_list_wf vs saved :
  json_utf8 (JArray vs) → Forall wf (decode_list vs saved).1.
Proof.
  revert saved. induction vs as [|v vs IH]; intros saved Hvs; [done|].
  destruct Hvs as [Hv Hvs]. cbn [decode_list].
  pose proof (decode_receiver_wf v saved Hv) as Hr.
  destruct (decode_receiver v saved) as [r saved'].
  pose proof (IH saved' Hvs) as Hrs. destruct (decode_list vs saved') as [rs e].
  by constructor.
Qed.

Lemma unmarshal_receivers_wf j : Forall wf (unmarshal_receivers j).1.
Proof.
  unfold unmarshal_receivers. destruct (parse_json j) as [v|] eqn:Hj; [|done].
  apply parse_json_utf8 in Hj. destruct v; try done. by apply decode_list_wf.
Qed.

#[global] Instance json_codec_laws : ReceiverCodecLaws.
Proof.
  refine {| wf_receiver := wf |}.
  - intros rs. by eexists.
  - intros rs j. apply unmarshal_marshal_wf.
  - intros j rs Hj. pose proof (unmarshal_receivers_wf j) as Hwf.
    simpl in Hj. by rewrite Hj in Hwf.
Defined.
