(* ===== verification/ReceiversSpec.v ===== *)
(** * Properties of the receivers (lib/receivers.go)

    The theorems about [Get] and [Update] against the interface of the API
    server, each with a witness on [MapServer] with the JSON codec, and the
    interleaving of several tools that update the same Ingress: every client
    is a state machine of two calls, and no update that the server accepted
    is lost. *)

From S2P Require Import Prelude GoStr Utf8 KubeTypes IngressApi Receivers ReceiverJson.

Local Open Scope go_scope.

(** ** Concurrent clients *)

Inductive phase :=
  | Idle
  | Fetched (ing : Ingress)
  | Done (ok : bool).

(** The server, the phase of every client, and the clients whose write was
    carried out, in the order of the writes (a ghost the code does not keep). *)
Record config (Srv : Type) := mkConfig {
  server : Srv;
  phases : list phase;
  committed : list nat
}.
Arguments mkConfig {Srv} _ _ _.
Arguments server {Srv} _.
Arguments phases {Srv} _.
Arguments committed {Srv} _.

Section concurrent.
Context {Srv E : Type} `{!IngressAPI Srv E} `{!ReceiverCodec}.
(** One Ingress, and the receiver every client adds to it. *)
Variable (ns name : str) (recs : list Receiver).

Definition commit_if_changed (i : nat) (s s' : Srv) (l : list nat) : list nat :=
  if decide (api_version s' (ns, name) = api_version s (ns, name)) then l else l ++ [i].

(** Client [i] makes its next call: the two calls of [Update], with what it
    computes between them. *)
Inductive step : config Srv → config Srv → Prop :=
  | step_get i s s' ps l ing :
      ps !! i = Some Idle → api_get ns name s = (s', Ok ing) →
      step (mkConfig s ps l) (mkConfig s' (<[i := Fetched ing]> ps) l)
  | step_get_error i s s' ps l e :
      ps !! i = Some Idle → api_get ns name s = (s', Err e) →
      step (mkConfig s ps l) (mkConfig s' (<[i := Done false]> ps) l)
  | step_edit_fails i s ps l ing rec :
      ps !! i = Some (Fetched ing) → recs !! i = Some rec →
      (∀ ing', edit (E := E) ing rec ≠ Return (Ok ing')) →
      step (mkConfig s ps l) (mkConfig s (<[i := Done false]> ps) l)
  | step_put i s s' ps l ing ing' rec r :
      ps !! i = Some (Fetched ing) → recs !! i = Some rec →
      edit (E := E) ing rec = Return (Ok ing') → api_update ns ing' s = (s', r) →
      step (mkConfig s ps l)
           (mkConfig s' (<[i := Done (is_ok r)]> ps) (commit_if_changed i s s' l)).

(** The receivers the listed clients add, in that order. *)
Definition added (l : list nat) : list Receiver := omap (λ i, recs !! i) l.

Definition after (rs : list Receiver) (l : list nat) : list Receiver := foldl upsert rs (added l).

(** A client that has read the Ingress holds a version that was current at
    some time, and the stored object itself if that version still is. *)
Definition fetched_ok (s : Srv) (ing : Ingress) : Prop :=
  ∃ v, v ≤ api_version s (ns, name) ∧ ing_ResourceVersion ing = api_rv Srv v ∧
       ing_Name ing = name ∧
       (v = api_version s (ns, name) → api_stored s (ns, name) = Some ing).

Definition inv (rs0 : list Receiver) (c : config Srv) : Prop :=
  receivers_of (server c) (ns, name) = Some (after rs0 (committed c)) ∧
  NoDup (committed c) ∧
  (∀ i, i ∈ committed c → ∃ b, phases c !! i = Some (Done b)) ∧
  (∀ i, phases c !! i = Some (Done true) → i ∈ committed c) ∧
  (∀ i ing, phases c !! i = Some (Fetched ing) → fetched_ok (server c) ing).
End concurrent.

(** ** Lemmas: the invariant *)

Section invariant.
Context {Srv E : Type} `{!IngressAPI Srv E} `{!IngressAPILaws Srv E}.
Context `{!ReceiverCodec} `{!ReceiverCodecLaws}.
Variable (ns name : str) (recs : list Receiver).
Hypothesis Hrecs : Forall wf_receiver recs.
#[local] Abbreviation k := (ns, name).

Lemma after_snoc rs l i rec :
  recs !! i = Some rec → after recs rs (l ++ [i]) = upsert (after recs rs l) rec.
Proof.
  intros Hi. unfold after, added. rewrite omap_app. simpl. rewrite Hi.
  by rewrite foldl_app.
Qed.

Lemma fetched_ok_unchanged (s s' : Srv) ing :
  unchanged s s' → fetched_ok ns name s ing → fetched_ok ns name s' ing.
Proof.
  intros Hu (v & Hv & Hrv & Hn & Hst). destruct (Hu k) as [Hs Hver].
  exists v. rewrite Hs, Hver. done.
Qed.

Lemma fetched_ok_carried_out (s s' : Srv) ing ing' :
  carried_out k ing' s s' → fetched_ok ns name s ing → fetched_ok ns name s' ing.
Proof.
  intros (_ & _ & _ & Hlt & _) (v & Hv & Hrv & Hn & _). exists v. split_and!; try done; lia.
Qed.

(** Reading establishes the claim about the object read. *)
Lemma fetched_ok_get (s : Srv) ing :
  (api_get ns name s).2 = Ok ing → fetched_ok ns name (api_get ns name s).1 ing.
Proof.
  intros Hget. pose proof (api_get_Ok _ _ _ _ Hget) as Hst.
  destruct (api_stored_key _ _ _ Hst) as (_ & Hn & Hrv).
  destruct (api_get_unchanged ns name s k) as [Hs Hv].
  exists (api_version s k). rewrite Hs, Hv. done.
Qed.

(** A write of an edited object that was carried out was made against the
    object that is stored. *)
Lemma put_carried_out (s s' : Srv) ing ing' rec rs :
  wf_receiver rec → fetched_ok ns name s ing →
  edit (E := E) ing rec = Return (Ok ing') → carried_out k ing' s s' →
  receivers_of s k = Some rs → receivers_of s' k = Some (upsert rs rec).
Proof.
  intros Hrec (v & Hv & Hrv & _ & Hst) He Hc Hrs.
  destruct (edit_key _ _ _ He) as (_ & _ & Hrv').
  assert (v = api_version s k) as ->.
  { destruct Hc as (_ & Hcur & _). apply (inj (api_rv Srv)). congruence. }
  specialize (Hst eq_refl). destruct (edit_decodes _ _ _ He) as [rs' Hd].
  destruct (carried_out_receivers s s' k ing ing' rec rs' Hrec Hst Hd He Hc) as [H1 H2].
  congruence.
Qed.

(** The server's answer to a write of an edited object. *)
Lemma put_cases (s s' : Srv) ing ing' rec r :
  fetched_ok ns name s ing → edit (E := E) ing rec = Return (Ok ing') →
  api_update ns ing' s = (s', r) →
  (unchanged s s' ∧ is_ok r = false) ∨ carried_out k ing' s s'.
Proof.
  intros (v & _ & Hrv & Hn & _) He Hput.
  destruct (edit_key _ _ _ He) as (Hn' & _ & Hrv').
  assert (ing_ResourceVersion ing' ≠ []) as Hne.
  { rewrite Hrv', Hrv. apply api_rv_not_empty. }
  assert (ing_Name ing' = name) as Hname by congruence.
  destruct r as [o|e].
  - right. pose proof (api_update_Ok ns ing' s o Hne) as HU.
    rewrite Hput, Hname in HU. by apply HU.
  - pose proof (api_update_Err ns ing' s e Hne) as HU.
    rewrite Hput, Hname in HU. destruct (HU eq_refl); [by left | by right].
Qed.

Lemma pending_not_committed rs0 (s : Srv) ps l i p :
  inv ns name recs rs0 (mkConfig s ps l) → ps !! i = Some p → (∀ b, p ≠ Done b) → i ∉ l.
Proof.
  intros (_ & _ & Hdone & _) Hi Hp Hin. destruct (Hdone i Hin) as [b Hb]. simpl in Hb.
  rewrite Hi in Hb. injection Hb as ->. by apply (Hp b).
Qed.

(** A client moves without a write. *)
Lemma inv_move rs0 (s s' : Srv) ps l i p q :
  inv ns name recs rs0 (mkConfig s ps l) →
  ps !! i = Some p → (∀ b, p ≠ Done b) → unchanged s s' → q ≠ Done true →
  (∀ ing, q = Fetched ing → fetched_ok ns name s' ing) →
  inv ns name recs rs0 (mkConfig s' (<[i := q]> ps) l).
Proof.
  intros Hinv Hi Hp Hu Hq Hf. pose proof (pending_not_committed _ _ _ _ _ _ Hinv Hi Hp) as Hil.
  destruct Hinv as (Hr & Hnd & Hdone & Hcomm & Hfet). simpl in *.
  split_and!; simpl; [by rewrite (receivers_of_unchanged s s') | done | ..].
  - intros j Hj. rewrite list_lookup_insert_ne by (intros ->; done). by apply Hdone.
  - intros j Hj. apply list_lookup_insert_Some in Hj as [(-> & Hq' & _)|[_ Hj]]; [congruence|].
    by apply Hcomm.
  - intros j ing Hj. apply list_lookup_insert_Some in Hj as [(-> & Hq' & _)|[_ Hj]].
    + apply Hf. congruence.
    + eapply fetched_ok_unchanged; [done|]. by eapply Hfet.
Qed.

(** A client's write is carried out. *)
Lemma inv_commit rs0 (s s' : Srv) ps l i ing ing' rec b :
  inv ns name recs rs0 (mkConfig s ps l) →
  ps !! i = Some (Fetched ing) → recs !! i = Some rec →
  edit (E := E) ing rec = Return (Ok ing') → carried_out k ing' s s' →
  inv ns name recs rs0 (mkConfig s' (<[i := Done b]> ps) (l ++ [i])).
Proof.
  intros Hinv Hi Hreci He Hc.
  pose proof (pending_not_committed _ _ _ _ _ _ Hinv Hi ltac:(done)) as Hil.
  assert (i < length ps) as Hlt by (by eapply lookup_lt_Some).
  destruct Hinv as (Hr & Hnd & Hdone & Hcomm & Hfet). simpl in *.
  assert (wf_receiver rec) as Hrec by (by eapply Forall_lookup_1).
  split_and!; simpl.
  - rewrite (after_snoc _ _ _ rec) by done.
    by eapply put_carried_out; [| eapply Hfet | ..].
  - apply list.NoDup_app. split_and!; [done | | by apply NoDup_singleton].
    intros j Hj Hj'. apply list_elem_of_singleton in Hj' as ->. done.
  - intros j Hj. destruct (decide (j = i)) as [->|Hne].
    + exists b. by apply list_lookup_insert_eq.
    + rewrite list_lookup_insert_ne by done. apply elem_of_app in Hj as [Hj|Hj].
      * by apply Hdone.
      * by apply list_elem_of_singleton in Hj.
  - intros j Hj. apply elem_of_app.
    apply list_lookup_insert_Some in Hj as [(-> & _ & _)|[_ Hj]].
    + right. by apply list_elem_of_singleton.
    + left. by apply Hcomm.
  - intros j ingj Hj. apply list_lookup_insert_Some in Hj as [(_ & ? & _)|[_ Hj]]; [done|].
    eapply fetched_ok_carried_out; [done|]. by eapply Hfet.
Qed.

Lemma carried_out_version (s s' : Srv) ing : carried_out k ing s s' → api_version s' k ≠ api_version s k.
Proof. intros (_ & _ & _ & Hlt & _). lia. Qed.

Lemma inv_step rs0 (c c' : config Srv) :
  step (E := E) ns name recs c c' → inv ns name recs rs0 c → inv ns name recs rs0 c'.
Proof.
  intros Hstep Hinv. destruct Hstep as
    [i s s' ps l ing Hi Hget | i s s' ps l e Hi Hget | i s ps l ing rec Hi Hrec He
    | i s s' ps l ing ing' rec r Hi Hrec He Hput].
  - pose proof (api_get_unchanged ns name s) as Hu.
    pose proof (fetched_ok_get s ing) as Hf. rewrite Hget in Hu, Hf.
    eapply inv_move; try done. intros ing0 [= <-]. by apply Hf.
  - pose proof (api_get_unchanged ns name s) as Hu. rewrite Hget in Hu.
    by eapply inv_move.
  - by eapply inv_move.
  - assert (fetched_ok ns name s ing) as Hf by (by eapply Hinv).
    unfold commit_if_changed.
    destruct (put_cases s s' ing ing' rec r Hf He Hput) as [[Hu ->]|Hc].
    + destruct (Hu k) as [_ ->]. rewrite decide_True by done. by eapply inv_move.
    + rewrite decide_False by (by eapply carried_out_version). by eapply inv_commit.
Qed.

Lemma inv_reachable rs0 (c c' : config Srv) :
  rtc (step (E := E) ns name recs) c c' → inv ns name recs rs0 c → inv ns name recs rs0 c'.
Proof. induction 1 as [|x y z Hxy _ IH]; [done|]. intros Hx. apply IH. by eapply inv_step. Qed.

Lemma inv_init rs0 (s : Srv) n :
  receivers_of s k = Some rs0 → inv ns name recs rs0 (mkConfig s (replicate n Idle) []).
Proof.
  intros Hr. split_and!; simpl; [done | by constructor | by intros i ?%elem_of_nil | ..].
  - intros i Hi. by apply lookup_replicate in Hi as [? _].
  - intros i ing Hi. by apply lookup_replicate in Hi as [? _].
Qed.
End invariant.

(** ** Properties *)

Section properties.
Context {Srv E : Type} `{!IngressAPI Srv E} `{!IngressAPILaws Srv E}.
Context `{!ReceiverCodec} `{!ReceiverCodecLaws}.

(** C1: no update is lost.  Any number of tools add their receivers to one
    Ingress, their reads and writes interleaved in any way: the list a reader
    sees is the initial one with the receivers of exactly the carried-out
    writes added in the order of the writes, each once, and every client that
    was told its update succeeded is among them. *)
Theorem no_lost_update (ns name : str) recs rs0 (s : Srv) n c :
  Forall wf_receiver recs →
  receivers_of s (ns, name) = Some rs0 →
  rtc (step (E := E) ns name recs) (mkConfig s (replicate n Idle) []) c →
  receivers_of (server c) (ns, name) = Some (after recs rs0 (committed c)) ∧
  NoDup (committed c) ∧
  (∀ i, phases c !! i = Some (Done true) → i ∈ committed c).
Proof.
  intros Hrecs Hr Hstep.
  destruct (inv_reachable ns name recs Hrecs rs0 _ _ Hstep) as (H1 & H2 & _ & H3 & _);
    [by apply inv_init | done].
Qed.

Lemma Update_receivers name ns rec (srv srv' : Srv) :
  wf_receiver rec → Update (E := E) name ns rec srv = Return (srv', Ok ()) →
  ∃ rs, receivers_of srv (ns, name) = Some rs ∧
    receivers_of srv' (ns, name) = Some (upsert rs rec) ∧
    (∀ k, k ≠ (ns, name) → api_stored srv' k = api_stored srv k).
Proof.
  intros Hrec HU. apply Update_inv in HU as
    [(e & _ & _ & ?) | (ing & Hget & [(e & _ & _ & ?) | (ing' & He & -> & [(o & Hput & _) | (e & _ & ?)])])];
    try done.
  destruct (get_update_key _ _ _ _ _ _ Hget He) as (Hst & Hn & Hrv).
  pose proof (api_update_Ok _ _ _ _ Hrv Hput) as Hc. rewrite Hn in Hc.
  destruct (edit_decodes _ _ _ He) as [rs Hd].
  destruct (carried_out_receivers _ _ _ _ _ _ _ Hrec Hst Hd He Hc) as [H1 H2].
  exists rs. split_and!; [|done|].
  - rewrite <- H1. symmetry. apply receivers_of_unchanged, api_get_unchanged.
  - intros k Hk. destruct Hc as (_ & _ & _ & _ & Hoth). destruct (Hoth k Hk) as [-> _].
    by destruct (api_get_unchanged ns name srv k) as [-> _].
Qed.

(** A read that reaches the server returns the receivers it stores. *)
Lemma Get_receivers name ns (srv srv' : Srv) ing rs :
  receivers_of srv (ns, name) = Some rs → api_get ns name srv = (srv', Ok ing) →
  Get (E := E) name ns srv = (srv', (rs, None)).
Proof.
  intros Hr Hget. unfold Get. rewrite Hget.
  pose proof (api_get_Ok ns name srv ing) as Hst. rewrite Hget in Hst.
  specialize (Hst eq_refl). unfold receivers_of in Hr. rewrite Hst in Hr. simpl in Hr.
  unfold decode_receivers in Hr. destruct (getReceivers (ing_Annotations ing)) as [j|].
  - destruct (unmarshal j) as [rs' [e|]]; [done|]. by injection Hr as ->.
  - by injection Hr as <-.
Qed.

(** C2: an update that succeeds assigns one entry of the table of receivers:
    the receiver of its host, whether new or replaced; the other hosts and the
    other objects of the server keep theirs. *)
Theorem Update_assigns name ns rec (srv srv' : Srv) :
  wf_receiver rec → Update (E := E) name ns rec srv = Return (srv', Ok ()) →
  ∃ rs, receivers_of srv (ns, name) = Some rs ∧
    receivers_of srv' (ns, name) = Some (upsert rs rec) ∧
    table (upsert rs rec) = <[Host rec := rec]> (table rs) ∧
    (∀ k, k ≠ (ns, name) → api_stored srv' k = api_stored srv k).
Proof.
  intros Hrec HU. destruct (Update_receivers _ _ _ _ _ Hrec HU) as (rs & H1 & H2 & H3).
  exists rs. split_and!; [done..| apply table_upsert | done].
Qed.

(** an update changes nothing of the Ingress but the one annotation: the
    rules, the status, the labels and the other annotations are those read. *)
Theorem Update_frame name ns rec (srv srv' : Srv) :
  Update (E := E) name ns rec srv = Return (srv', Ok ()) →
  ∃ ing ing', api_stored srv (ns, name) = Some ing ∧ api_stored srv' (ns, name) = Some ing' ∧
    ing_Spec ing' = ing_Spec ing ∧ ing_Status ing' = ing_Status ing ∧
    om_Labels (ing_ObjectMeta ing') = om_Labels (ing_ObjectMeta ing) ∧
    (∀ key, key ≠ receiversKey →
       map_index (ing_Annotations ing') key = map_index (ing_Annotations ing) key).
Proof.
  intros HU. apply Update_inv in HU as
    [(e & _ & _ & ?) | (ing & Hget & [(e & _ & _ & ?) | (ing' & He & -> & [(o & Hput & _) | (e & _ & ?)])])];
    try done.
  destruct (get_update_key _ _ _ _ _ _ Hget He) as (Hst & Hn & Hrv).
  pose proof (api_update_Ok _ _ _ _ Hrv Hput) as (_ & _ & Hst' & _ & _). rewrite Hn in Hst'.
  destruct (edit_Ok _ _ _ He) as (rs & j & m & _ & _ & Hm & Heq).
  exists ing, (set_ResourceVersion (api_rv Srv (api_version (api_update ns ing' (api_get ns name srv).1).1 (ns, name))) ing').
  split_and!; try by rewrite Heq.
  - by apply (api_get_Ok ns name srv).
  - done.
  - intros key Hkey. by apply (edit_frame (E := E) ing ing' rec).
Qed.

(** C3: what was written is read: after a successful update, a read of the
    same Ingress that reaches the server returns the updated list and no
    error. *)
Theorem Get_after_Update name ns rec (srv srv' : Srv) srv'' ing :
  wf_receiver rec → Update (E := E) name ns rec srv = Return (srv', Ok ()) →
  api_get ns name srv' = (srv'', Ok ing) →
  ∃ rs, receivers_of srv (ns, name) = Some rs ∧
    Get (E := E) name ns srv' = (srv'', (upsert rs rec, None)).
Proof.
  intros Hrec HU Hget. destruct (Update_receivers _ _ _ _ _ Hrec HU) as (rs & H1 & H2 & _).
  exists rs. split; [done | by eapply Get_receivers].
Qed.

(** C4: [Update] panics exactly on an Ingress without annotations: the
    assignment to the nil map is reached whenever the read succeeds, whatever
    the receiver. *)
Theorem Update_panics_iff name ns rec (srv : Srv) :
  (∃ w, Update (E := E) name ns rec srv = Panic w) ↔
  ∃ ing, (api_get ns name srv).2 = Ok ing ∧ ing_Annotations ing = None.
Proof.
  unfold Update. destruct (api_get ns name srv) as [srv1 [ing|e]]; simpl.
  - split.
    + intros [w Hw]. exists ing. split; [done|]. apply (edit_Panic (E := E) ing rec).
      destruct (edit ing rec) as [[ing'|e]|w'|m]; simpl in Hw; [|done|by eexists|done].
      by destruct (api_update ns ing' srv1) as [? []].
    + intros (ing' & [= <-] & Hm). apply (edit_Panic (E := E) ing rec) in Hm as [w ->].
      by exists w.
  - split; [by intros [? ?] | by intros (? & ? & _)].
Qed.

(** C9: an update that reports an error has either left the receivers as they
    were or assigned the entry after all (the answer of the server was lost);
    an annotation that does not decode is reported, and nothing is written. *)
Theorem Update_error name ns rec (srv srv' : Srv) e :
  wf_receiver rec → Update (E := E) name ns rec srv = Return (srv', Err e) →
  (receivers_of srv' (ns, name) = receivers_of srv (ns, name) ∨
   ∃ rs, receivers_of srv (ns, name) = Some rs ∧
     receivers_of srv' (ns, name) = Some (upsert rs rec)) ∧
  (∀ je, e = JsonError je →
     unchanged srv srv' ∧
     ∃ ing j rs, api_stored srv (ns, name) = Some ing ∧
       getReceivers (ing_Annotations ing) = Some j ∧ unmarshal j = (rs, Some je)).
Proof.
  intros Hrec HU. apply Update_inv in HU as
    [(e' & _ & -> & [= ->]) | (ing & Hget & [(e' & He & -> & [= ->])
     | (ing' & He & -> & [(o & _ & ?) | (e' & Hput & [= ->])])])]; try done.
  - split; [|done]. left. apply receivers_of_unchanged, api_get_unchanged.
  - split.
    + left. apply receivers_of_unchanged, api_get_unchanged.
    + intros je ->. split; [apply api_get_unchanged|].
      pose proof (api_get_Ok _ _ _ _ Hget) as Hst.
      unfold edit in He. destruct (decode_receivers ing) as [rs|e] eqn:Hd.
      * destruct (marshal_total (upsert rs rec)) as [j Hj]. rewrite Hj in He.
        by destruct (ing_Annotations ing).
      * injection He as ->. unfold decode_receivers in Hd.
        destruct (getReceivers (ing_Annotations ing)) as [j|] eqn:Hg; [|done].
        destruct (unmarshal j) as [rs [je'|]] eqn:Hj; [|done]. injection Hd as ->.
        by exists ing, j, rs.
  - split; [|done].
    destruct (get_update_key _ _ _ _ _ _ Hget He) as (Hst & Hn & Hrv).
    pose proof (receivers_of_unchanged _ _ (ns, name) (api_get_unchanged ns name srv)) as H1.
    destruct (api_update_Err _ _ _ _ Hrv Hput) as [Hu|Hc].
    + left. by rewrite (receivers_of_unchanged _ _ _ Hu).
    + right. rewrite Hn in Hc. destruct (edit_decodes _ _ _ He) as [rs Hd].
      destruct (carried_out_receivers _ _ _ _ _ _ _ Hrec Hst Hd He Hc) as [H2 H3].
      exists rs. by rewrite <- H1.
Qed.
End properties.

(** the list operation of [Update]: every receiver of the updated host
    becomes the new one and there is at least one; the receivers of the other
    hosts stay, in order; hosts that were listed once are still listed once;
    and of two updates of one host only the last one counts. *)
Theorem upsert_spec rs rec :
  (∀ r, r ∈ upsert rs rec → Host r = Host rec → r = rec) ∧
  rec ∈ upsert rs rec ∧
  filter (λ r, Host r ≠ Host rec) (upsert rs rec) = filter (λ r, Host r ≠ Host rec) rs ∧
  (NoDup (Host <$> rs) → NoDup (Host <$> upsert rs rec)) ∧
  (∀ rec', Host rec' = Host rec → upsert (upsert rs rec) rec' = upsert rs rec').
Proof.
  split_and!.
  - intros r Hr Hh. rewrite upsert_eq in Hr. case_decide as Hex.
    + apply list_elem_of_fmap in Hr as (r' & -> & _). revert Hh. by case_decide.
    + apply elem_of_app in Hr as [Hr | ->%list_elem_of_singleton]; [|done].
      destruct Hex. apply list.Exists_exists. by exists r.
  - rewrite upsert_eq. case_decide as Hex.
    + apply list.Exists_exists in Hex as (r & Hr & Hh). apply list_elem_of_fmap.
      exists r. by rewrite decide_True.
    + apply elem_of_app. right. by apply list_elem_of_singleton.
  - rewrite upsert_eq. case_decide as Hex.
    + clear Hex. induction rs as [|r rs IH]; [done|]. rewrite fmap_cons.
      destruct (decide (Host r = Host rec)) as [Hr|Hr].
      * rewrite filter_cons_False by (intros Hn; by apply Hn).
        by rewrite filter_cons_False by (intros Hn; by apply Hn).
      * rewrite !filter_cons_True by done. by rewrite IH.
    + rewrite list.filter_app, filter_cons_False, app_nil_r by naive_solver. done.
  - intros Hnd. rewrite upsert_eq. case_decide as Hex.
    + rewrite <- list_fmap_compose.
      erewrite (list_fmap_ext _ Host); [done|].
      intros i r _. simpl. by case_decide.
    + rewrite fmap_app. apply list.NoDup_app. split_and!; [done| |by apply NoDup_singleton].
      intros h Hh ->%list_elem_of_singleton. apply list_elem_of_fmap in Hh as (r & Hh & Hr).
      apply Hex, list.Exists_exists. by exists r.
  - intros rec' Hh. rewrite (upsert_eq rs rec), (upsert_eq rs rec'), !Hh.
    destruct (decide (Exists (λ r, Host r = Host rec) rs)) as [Hex|Hex];
      rewrite upsert_eq, Hh.
    + rewrite decide_True.
      * rewrite <- list_fmap_compose. apply list_fmap_ext. intros i r _. simpl.
        destruct (decide (Host r = Host rec)) as [Hr|Hr]; [by rewrite decide_True|].
        by rewrite decide_False.
      * apply list.Exists_exists in Hex as (r & Hr & Hh'). apply list.Exists_exists.
        exists rec. split; [|done]. apply list_elem_of_fmap. exists r. by rewrite decide_True.
    + rewrite decide_True.
      * rewrite fmap_app. simpl. rewrite decide_True by done. f_equal.
        clear -Hex. induction rs as [|r rs IH]; [done|]. rewrite Exists_cons in Hex.
        rewrite fmap_cons, decide_False by naive_solver. f_equal. apply IH. naive_solver.
      * apply list.Exists_app. right. by constructor.
Qed.

(** the annotation's JSON: a list of receivers that is encoded and decoded
    comes back with every byte that is not valid UTF-8 replaced by U+FFFD, and
    so unchanged when its strings are valid. *)
Theorem receivers_roundtrip rs j :
  rs ≠ [] → Forall (λ r, in_int64 (Port r)) rs → marshal_receivers rs = Ok j →
  unmarshal_receivers j = (map sanitize_receiver rs, None) ∧
  (Forall wf rs → map sanitize_receiver rs = rs).
Proof.
  intros Hne Hp Hj. split; [by apply unmarshal_marshal_sanitize | apply map_sanitize_wf].
Qed.

(** ** Witnesses

    One Ingress with one receiver, on the server that keeps its objects in a
    map, and two tools that add a receiver each. *)

Definition demo_rec (host : str) (port : Z) : Receiver :=
  {| Host := host; Port := port; Cert := "PEM" |}.

Definition demo_annotation : str :=
  match marshal_receivers [demo_rec "a.com" 443] with Ok j => j | Err _ => [] end.

Definition demo_ingress : Ingress := {|
  ing_TypeMeta := zero_TypeMeta;
  ing_ObjectMeta := {|
    om_Name := "web"; om_GenerateName := []; om_Namespace := "default"; om_SelfLink := [];
    om_UID := []; om_ResourceVersion := []; om_Generation := 0;
    om_CreationTimestamp := 0; om_DeletionTimestamp := None;
    om_DeletionGracePeriodSeconds := None; om_Labels := None;
    om_Annotations := Some {[ receiversKey := demo_annotation ]}
  |};
  ing_Spec := {| is_Backend := None; is_Rules := [] |};
  ing_Status := {| ist_LoadBalancer := {| ls_Ingress := [] |} |}
|}.

Definition demo : MapServer.server := {|
  MapServer.objects := {[ (lit "default", lit "web") := (demo_ingress, 0) ]}
|}.

Definition demo_bad : MapServer.server := {|
  MapServer.objects := {[ (lit "default", lit "web") :=
    (set_Annotations (Some {[ receiversKey := lit "oops" ]}) demo_ingress, 0) ]}
|}.

(** The state a call of [Update] leaves. *)
Definition demo_state (c : control (MapServer.server * result (error MapServer.error) unit)) :
    MapServer.server :=
  match c with Return (s, _) => s | _ => demo end.

Definition demo_update : control (MapServer.server * result (error MapServer.error) unit) :=
  Update "web" "default" (demo_rec "b.com" 80) demo.

Lemma demo_rec_wf : wf_receiver (demo_rec "b.com" 80).
Proof. by vm_compute. Qed.

Lemma Update_assigns_witness :
  demo_update = Return (demo_state demo_update, Ok ()) ∧
  ∃ rs, receivers_of (demo_state demo_update) (lit "default", lit "web") =
    Some (upsert rs (demo_rec "b.com" 80)).
Proof.
  assert (demo_update = Return (demo_state demo_update, Ok ())) as HU by (vm_compute; reflexivity).
  split; [exact HU|].
  destruct (Update_assigns (lit "web") (lit "default") (demo_rec "b.com" 80) demo
    (demo_state demo_update) demo_rec_wf HU) as (rs & _ & H & _).
  by exists rs.
Defined.

Lemma Update_frame_witness :
  demo_update = Return (demo_state demo_update, Ok ()) ∧
  ∃ ing, api_stored (demo_state demo_update) (lit "default", lit "web") = Some ing ∧
    ing_Spec ing = {| is_Backend := None; is_Rules := [] |}.
Proof.
  assert (demo_update = Return (demo_state demo_update, Ok ())) as HU by (vm_compute; reflexivity).
  split; [exact HU|].
  destruct (Update_frame (lit "web") (lit "default") (demo_rec "b.com" 80) demo
    (demo_state demo_update) HU) as (ing & ing' & H1 & H2 & H3 & _).
  exists ing'. split; [exact H2|]. rewrite H3. vm_compute in H1. by injection H1 as <-.
Defined.

Lemma Get_after_Update_witness :
  ∃ rs srv'', Get (E := MapServer.error) "web" "default" (demo_state demo_update) =
    (srv'', (upsert rs (demo_rec "b.com" 80), None)).
Proof.
  assert (demo_update = Return (demo_state demo_update, Ok ())) as HU by (vm_compute; reflexivity).
  destruct (api_get (IngressAPI := MapServer.api) (lit "default") (lit "web") (demo_state demo_update)) as [s [ing|e]] eqn:Hget;
    [|vm_compute in Hget; congruence].
  destruct (Get_after_Update (lit "web") (lit "default") (demo_rec "b.com" 80) demo
    (demo_state demo_update) s ing demo_rec_wf HU Hget)
    as (rs & _ & H).
  by exists rs, s.
Defined.

Lemma Update_error_witness :
  ∃ e, Update (E := MapServer.error) "web" "default" (demo_rec "b.com" 80) demo_bad =
    Return (demo_bad, Err e) ∧ unchanged demo_bad demo_bad.
Proof.
  exists (JsonError SyntaxError).
  assert (Update (E := MapServer.error) "web" "default" (demo_rec "b.com" 80) demo_bad =
    Return (demo_bad, Err (JsonError SyntaxError))) as HU by (vm_compute; reflexivity).
  split; [exact HU|].
  destruct (Update_error (lit "web") (lit "default") (demo_rec "b.com" 80) demo_bad demo_bad
    (JsonError SyntaxError) demo_rec_wf HU) as [_ H].
  by destruct (H SyntaxError eq_refl).
Defined.

Lemma Update_panics_iff_witness :
  ∃ w, Update (E := MapServer.error) "web" "default" (demo_rec "b.com" 80)
    {| MapServer.objects :=
         {[ (lit "default", lit "web") := (set_Annotations None demo_ingress, 0) ]} |} = Panic w.
Proof.
  apply (Update_panics_iff (lit "web") (lit "default") (demo_rec "b.com" 80)).
  eexists. split; [vm_compute; reflexivity | reflexivity].
Defined.

Lemma receivers_roundtrip_witness :
  unmarshal_receivers demo_annotation = ([demo_rec "a.com" 443], None).
Proof.
  apply (receivers_roundtrip [demo_rec "a.com" 443] demo_annotation);
    [done | by constructor | reflexivity].
Defined.

(** Two tools read the same version; the first write is carried out, the
    second is refused. *)
Definition demo_read : Ingress :=
  match (MapServer.get "default" "web" demo).2 with Ok i => i | Err _ => demo_ingress end.

Definition demo_edited (rec : Receiver) : Ingress :=
  match edit (E := MapServer.error) demo_read rec with Return (Ok i) => i | _ => demo_ingress end.

Definition demo_write : MapServer.server :=
  (MapServer.update "default" (demo_edited (demo_rec "b.com" 80)) demo).1.

Definition demo_recs : list Receiver := [demo_rec "b.com" 80; demo_rec "c.com" 81].

Lemma demo_reads : MapServer.get "default" "web" demo = (demo, Ok demo_read).
Proof. vm_compute. reflexivity. Qed.

Lemma demo_edits rec : rec ∈ demo_recs →
  edit (E := MapServer.error) demo_read rec = Return (Ok (demo_edited rec)).
Proof.
  unfold demo_recs. rewrite !elem_of_cons.
  intros [->|[->|[]%elem_of_nil]]; vm_compute; reflexivity.
Qed.

Lemma demo_write_1 :
  ∃ o, MapServer.update "default" (demo_edited (demo_rec "b.com" 80)) demo = (demo_write, Ok o).
Proof. eexists. vm_compute. reflexivity. Qed.

Lemma demo_write_2 :
  MapServer.update "default" (demo_edited (demo_rec "c.com" 81)) demo_write =
  (demo_write, Err MapServer.Conflict).
Proof. vm_compute. reflexivity. Qed.

Lemma demo_commits :
  commit_if_changed (lit "default") (lit "web") 0 demo demo_write [] = [0] ∧
  commit_if_changed (lit "default") (lit "web") 1 demo_write demo_write [0] = [0].
Proof. split; vm_compute; reflexivity. Qed.

Lemma demo_run :
  rtc (step (E := MapServer.error) (lit "default") (lit "web") demo_recs)
    (mkConfig demo (replicate 2 Idle) [])
    (mkConfig demo_write [Done true; Done false] [0]).
Proof.
  destruct demo_write_1 as [o Ho], demo_commits as [Hc1 Hc2].
  eapply rtc_l; [by apply (step_get _ _ _ 0), demo_reads|].
  eapply rtc_l; [by apply (step_get _ _ _ 1), demo_reads|].
  eapply (rtc_l _ _ (mkConfig demo_write [Done true; Fetched demo_read] [0])).
  { rewrite <- Hc1. apply (step_put _ _ _ 0 demo demo_write [Fetched demo_read; Fetched demo_read]
      [] demo_read (demo_edited (demo_rec "b.com" 80)) (demo_rec "b.com" 80) (Ok o)); [done | done | | apply Ho].
    apply demo_edits. by left. }
  apply rtc_once. rewrite <- Hc2 at 2.
  apply (step_put _ _ _ 1 demo_write demo_write [Done true; Fetched demo_read] [0]
    demo_read (demo_edited (demo_rec "c.com" 81)) (demo_rec "c.com" 81) (Err MapServer.Conflict));
    [done | done | | apply demo_write_2].
  apply demo_edits. right. by left.
Qed.

Lemma no_lost_update_witness :
  receivers_of demo_write (lit "default", lit "web") =
  Some [demo_rec "a.com" 443; demo_rec "b.com" 80].
Proof.
  destruct (no_lost_update (lit "default") (lit "web") demo_recs [demo_rec "a.com" 443] demo 2
    (mkConfig demo_write [Done true; Done false] [0])) as (H & _ & _).
  - repeat constructor; by vm_compute.
  - vm_compute. reflexivity.
  - exact demo_run.
  - exact H.
Defined.
