(* ===== verification/Pflag.v ===== *)
(** * Command-line flags (github.com/spf13/pflag)

    The flag sets the tools parse their arguments with: [flag.go] with the
    value types of [int.go], [string.go] and [bool.go].

    Flags and the variables they write are shared by pointer (a flag is in
    the maps [formal], [actual] and [shorthands] of a set and of the sets it
    was added to; a variable is read by the program): they live in a store,
    and the maps hold locations.  What the code prints is kept as a list of
    messages, each with the arguments of its format string instead of the
    formatted text; the help text itself ([FlagUsages]) is one message. *)

From S2P Require Import Prelude GoStr KubeTypes.

Local Open Scope go_scope.

(** ** Values *)

(** A variable a flag writes: the implementations [stringValue], [intValue]
    and [boolValue] of the interface [Value]. *)
Inductive Var :=
  | StringVar (s : str)
  | IntVar (z : Z)
  | BoolVar (b : bool).

(** [Value.Set]: the integer is assigned even when it does not parse. *)
Definition var_Set (v : Var) (s : str) : Var * option num_error :=
  match v with
  | StringVar _ => (StringVar s, None)
  | IntVar _ => let '(z, err) := parse_int 0 s in (IntVar z, err)
  | BoolVar _ => let '(b, err) := parse_bool s in (BoolVar b, err)
  end.

Definition var_Type (v : Var) : str :=
  match v with StringVar _ => "string" | IntVar _ => "int" | BoolVar _ => "bool" end.

Definition var_String (v : Var) : str :=
  match v with StringVar s => s | IntVar z => itoa z | BoolVar b => format_bool b end.

(** ** Flags and flag sets *)

Inductive ErrorHandling := ContinueOnError | ExitOnError | PanicOnError.

(** A location of the store. *)
Abbreviation loc := nat.

Record Flag := mkFlag {
  Name : str;
  Shorthand : str;
  Usage : str;
  Value : loc;
  DefValue : str;
  Changed : bool;
  NoOptDefVal : str;
  Deprecated : str;
  ShorthandDeprecated : str;
  Annotations : option (gmap str (list str))
}.

(** The errors of the package: [ErrHelp], and one constructor per format
    string of [failf] and [Errorf]. *)
Inductive flag_error :=
  | ErrHelp
  | BadFlagSyntax (s : str)
  | UnknownFlag (name : str)
  | NeedsArgument (s : str)
  | UnknownShorthand (c : ascii) (shorthands : str)
  | ShorthandNeedsArgument (c : ascii) (shorthands : str)
  | InvalidArgument (value origArg : str) (err : num_error)
  | NoSuchFlag (name : str)
  | BadValue (err : num_error)
  | NotDefined (name : str)
  | WrongType (ftype actual : str)
  | DoesNotExist (name : str)
  | MessageNotSet (name : str).

Inductive message :=
  | ErrorLine (err : flag_error)
  | UsageOf (name : str)
  | CustomUsage (text : str)
  | FlagDeprecated (name text : str)
  | ShorthandDeprecatedMsg (shorthand text : str)
  | FlagRedefined (set name : str)
  | ShorthandTooLong (set shorthand : str)
  | ShorthandReused (set : str) (c : ascii) (name old : str).

(** A set that is not [pflag.CommandLine].  [fs_Usage] is what the caller's
    [Usage] function prints, if there is one; a normalizing function depends
    on the name only. *)
Record FlagSet := mkFlagSet {
  fs_Usage : option str;
  fs_name : str;
  parsed : bool;
  actual : option (gmap str loc);
  formal : option (gmap str loc);
  shorthands : option (gmap ascii loc);
  args : list str;
  errorHandling : ErrorHandling;
  interspersed : bool;
  normalizeNameFunc : option (str → str)
}.

(** [NewFlagSet]. *)
Definition NewFlagSet (name : str) (eh : ErrorHandling) : FlagSet := {|
  fs_Usage := None; fs_name := name; parsed := false; actual := None; formal := None;
  shorthands := None; args := []; errorHandling := eh; interspersed := true;
  normalizeNameFunc := None
|}.

Record store := mkStore {
  flags : list Flag;
  vars : list Var;
  out : list message
}.

(** ** Setters *)

Definition fs_set_parsed (b : bool) (f : FlagSet) : FlagSet :=
  mkFlagSet (fs_Usage f) (fs_name f) b (actual f) (formal f) (shorthands f) (args f)
    (errorHandling f) (interspersed f) (normalizeNameFunc f).
Definition fs_set_actual (m : option (gmap str loc)) (f : FlagSet) : FlagSet :=
  mkFlagSet (fs_Usage f) (fs_name f) (parsed f) m (formal f) (shorthands f) (args f)
    (errorHandling f) (interspersed f) (normalizeNameFunc f).
Definition fs_set_formal (m : option (gmap str loc)) (f : FlagSet) : FlagSet :=
  mkFlagSet (fs_Usage f) (fs_name f) (parsed f) (actual f) m (shorthands f) (args f)
    (errorHandling f) (interspersed f) (normalizeNameFunc f).
Definition fs_set_shorthands (m : option (gmap ascii loc)) (f : FlagSet) : FlagSet :=
  mkFlagSet (fs_Usage f) (fs_name f) (parsed f) (actual f) (formal f) m (args f)
    (errorHandling f) (interspersed f) (normalizeNameFunc f).
Definition fs_set_args (l : list str) (f : FlagSet) : FlagSet :=
  mkFlagSet (fs_Usage f) (fs_name f) (parsed f) (actual f) (formal f) (shorthands f) l
    (errorHandling f) (interspersed f) (normalizeNameFunc f).

(** [FlagSet.SetInterspersed] and [FlagSet.Init]. *)
Definition SetInterspersed (b : bool) (f : FlagSet) : FlagSet :=
  mkFlagSet (fs_Usage f) (fs_name f) (parsed f) (actual f) (formal f) (shorthands f) (args f)
    (errorHandling f) b (normalizeNameFunc f).
Definition Init (name : str) (eh : ErrorHandling) (f : FlagSet) : FlagSet :=
  mkFlagSet (fs_Usage f) name (parsed f) (actual f) (formal f) (shorthands f) (args f)
    eh (interspersed f) (normalizeNameFunc f).

Definition fl_set_Name (n : str) (fl : Flag) : Flag :=
  mkFlag n (Shorthand fl) (Usage fl) (Value fl) (DefValue fl) (Changed fl) (NoOptDefVal fl)
    (Deprecated fl) (ShorthandDeprecated fl) (Annotations fl).
Definition fl_set_Changed (b : bool) (fl : Flag) : Flag :=
  mkFlag (Name fl) (Shorthand fl) (Usage fl) (Value fl) (DefValue fl) b (NoOptDefVal fl)
    (Deprecated fl) (ShorthandDeprecated fl) (Annotations fl).
Definition fl_set_NoOptDefVal (s : str) (fl : Flag) : Flag :=
  mkFlag (Name fl) (Shorthand fl) (Usage fl) (Value fl) (DefValue fl) (Changed fl) s
    (Deprecated fl) (ShorthandDeprecated fl) (Annotations fl).
Definition fl_set_Deprecated (s : str) (fl : Flag) : Flag :=
  mkFlag (Name fl) (Shorthand fl) (Usage fl) (Value fl) (DefValue fl) (Changed fl)
    (NoOptDefVal fl) s (ShorthandDeprecated fl) (Annotations fl).
Definition fl_set_ShorthandDeprecated (s : str) (fl : Flag) : Flag :=
  mkFlag (Name fl) (Shorthand fl) (Usage fl) (Value fl) (DefValue fl) (Changed fl)
    (NoOptDefVal fl) (Deprecated fl) s (Annotations fl).
Definition fl_set_Annotations (m : option (gmap str (list str))) (fl : Flag) : Flag :=
  mkFlag (Name fl) (Shorthand fl) (Usage fl) (Value fl) (DefValue fl) (Changed fl)
    (NoOptDefVal fl) (Deprecated fl) (ShorthandDeprecated fl) m.

(** ** The state and its monad

    A call runs on one flag set and the store. *)

Definition world : Type := FlagSet * store.
Definition M (A : Type) : Type := world → control (world * A).

#[global] Instance M_ret : MRet M := λ A a w, Return (w, a).
#[global] Instance M_bind : MBind M := λ A B k m w,
  match m w with
  | Return (w', a) => k a w'
  | Panic why => Panic why
  | Fatal msg => Fatal msg
  end.

Definition mpanic {A} (why : str) : M A := λ _, Panic why.
Definition mfatal {A} (msg : str) : M A := λ _, Fatal msg.
Definition get_set : M FlagSet := λ w, Return (w, w.1).
Definition modify_set (g : FlagSet → FlagSet) : M unit := λ w, Return ((g w.1, w.2), ()).
Definition emit (m : message) : M unit := λ w,
  Return ((w.1, mkStore (flags w.2) (vars w.2) (out w.2 ++ [m])), ()).
(** A dereference: a location outside the store is a nil pointer. *)
Definition read_flag (l : loc) : M Flag := λ w,
  match flags w.2 !! l with Some fl => Return (w, fl) | None => Panic "nil pointer" end.
Definition modify_flag (l : loc) (g : Flag → Flag) : M unit := λ w,
  match flags w.2 !! l with
  | Some fl => Return ((w.1, mkStore (<[l := g fl]> (flags w.2)) (vars w.2) (out w.2)), ())
  | None => Panic "nil pointer"
  end.
Definition new_flag (fl : Flag) : M loc := λ w,
  Return ((w.1, mkStore (flags w.2 ++ [fl]) (vars w.2) (out w.2)), length (flags w.2)).
Definition read_var (l : loc) : M Var := λ w,
  match vars w.2 !! l with Some v => Return (w, v) | None => Panic "nil pointer" end.
Definition write_var (l : loc) (v : Var) : M unit := λ w,
  match vars w.2 !! l with
  | Some _ => Return ((w.1, mkStore (flags w.2) (<[l := v]> (vars w.2)) (out w.2)), ())
  | None => Panic "nil pointer"
  end.
Definition new_var (v : Var) : M loc := λ w,
  Return ((w.1, mkStore (flags w.2) (vars w.2 ++ [v]) (out w.2)), length (vars w.2)).
(** [s[n:]]. *)
Definition slice_from {A} (n : nat) (s : list A) : M (list A) :=
  if decide (n ≤ length s) then mret (drop n s) else mpanic "slice bounds out of range".

(** ** Operations *)

(** [GetNormalizeFunc] and [normalizeFlagName]. *)
Definition normalizeFlagName (f : FlagSet) (name : str) : str :=
  match normalizeNameFunc f with Some n => n name | None => name end.

(** [lookup] and [Lookup]. *)
Definition lookup_flag (f : FlagSet) (name : str) : option loc := map_index (formal f) name.
Definition Lookup (f : FlagSet) (name : str) : option loc :=
  lookup_flag f (normalizeFlagName f name).

Definition HasFlags (f : FlagSet) : bool :=
  match formal f with Some m => bool_decide (m ≠ ∅) | None => false end.

Definition NFlag (f : FlagSet) : nat :=
  match actual f with Some m => size m | None => 0 end.

Definition Arg (f : FlagSet) (i : Z) : str :=
  if decide (i < 0 ∨ Z.of_nat (length (args f)) ≤ i)%Z then []
  else default [] (args f !! Z.to_nat i).

(** [sortFlags]: the keys in the byte order of strings. *)
Definition sortFlags (m : option (gmap str loc)) : list loc :=
  omap (map_index m) (sort_strings (match m with Some m => (map_to_list m).*1 | None => [] end)).

(** [VisitAll] and [Visit]. *)
Definition for_each {A} (l : list A) (fn : A → M unit) : M unit :=
  foldr (λ x k, fn x;; k) (mret ()) l.
Definition VisitAll (f : FlagSet) (fn : loc → M unit) : M unit := for_each (sortFlags (formal f)) fn.
Definition Visit (f : FlagSet) (fn : loc → M unit) : M unit := for_each (sortFlags (actual f)) fn.

(** [getFlagType]. *)
Definition getFlagType {A} (name ftype : str) (convFunc : str → A * option num_error) :
    M (result flag_error A) :=
  f ← get_set;
  match Lookup f name with
  | None => mret (Err (NotDefined name))
  | Some l =>
      fl ← read_flag l;
      v ← read_var (Value fl);
      if decide (var_Type v = ftype) then
        match convFunc (var_String v) with
        | (_, Some e) => mret (Err (BadValue e))
        | (a, None) => mret (Ok a)
        end
      else mret (Err (WrongType ftype (var_Type v)))
  end.

Definition GetInt (name : str) : M (result flag_error Z) := getFlagType name "int" atoi.
Definition GetString (name : str) : M (result flag_error str) :=
  getFlagType name "string" (λ s, (s, None)).
Definition GetBool (name : str) : M (result flag_error bool) :=
  getFlagType name "bool" parse_bool.

(** [MarkDeprecated] and [MarkShorthandDeprecated]. *)
Definition mark (name usageMessage : str) (g : Flag → Flag) : M (option flag_error) :=
  f ← get_set;
  match Lookup f name with
  | None => mret (Some (DoesNotExist name))
  | Some l =>
      if decide (usageMessage = []) then mret (Some (MessageNotSet name))
      else modify_flag l g;; mret None
  end.
Definition MarkDeprecated (name usageMessage : str) : M (option flag_error) :=
  mark name usageMessage (fl_set_Deprecated usageMessage).
Definition MarkShorthandDeprecated (name usageMessage : str) : M (option flag_error) :=
  mark name usageMessage (fl_set_ShorthandDeprecated usageMessage).

(** The common end of [Set] and [setFlag]: the flag was set. *)
Definition mark_actual (key : str) (l : loc) : M unit :=
  f ← get_set;
  modify_set (fs_set_actual (Some (<[key := l]> (default ∅ (actual f)))));;
  modify_flag l (fl_set_Changed true);;
  fl ← read_flag l;
  if decide (Deprecated fl = []) then mret ()
  else emit (FlagDeprecated (Name fl) (Deprecated fl)).

Definition Set_ (name value : str) : M (option flag_error) :=
  f ← get_set;
  let normalName := normalizeFlagName f name in
  match map_index (formal f) normalName with
  | None => mret (Some (NoSuchFlag name))
  | Some l =>
      fl ← read_flag l;
      v ← read_var (Value fl);
      let '(v, err) := var_Set v value in
      write_var (Value fl) v;;
      match err with
      | Some e => mret (Some (BadValue e))
      | None => mark_actual normalName l;; mret None
      end
  end.

Definition SetAnnotation (name key : str) (values : list str) : M (option flag_error) :=
  f ← get_set;
  match map_index (formal f) (normalizeFlagName f name) with
  | None => mret (Some (NoSuchFlag name))
  | Some l =>
      modify_flag l (λ fl,
        fl_set_Annotations (Some (<[key := values]> (default ∅ (Annotations fl)))) fl);;
      mret None
  end.

Definition Changed_ (name : str) : M bool :=
  f ← get_set;
  match Lookup f name with
  | None => mret false
  | Some l => fl ← read_flag l; mret (Changed fl)
  end.

(** [AddFlag]: a redefinition panics before anything changes; a bad shorthand
    panics after the flag was added. *)
Definition AddFlag (l : loc) : M unit :=
  f ← get_set;
  fl ← read_flag l;
  let normalizedFlagName := normalizeFlagName f (Name fl) in
  match map_index (formal f) normalizedFlagName with
  | Some _ =>
      emit (FlagRedefined (fs_name f) (Name fl));;
      mpanic "flag redefined"
  | None =>
      modify_flag l (fl_set_Name normalizedFlagName);;
      modify_set (fs_set_formal (Some (<[normalizedFlagName := l]> (default ∅ (formal f)))));;
      match Shorthand fl with
      | [] => mret ()
      | [c] =>
          match map_index (shorthands f) c with
          | Some old =>
              ofl ← read_flag old;
              emit (ShorthandReused (fs_name f) c normalizedFlagName (Name ofl));;
              mpanic "shorthand redefinition"
          | None =>
              modify_set (fs_set_shorthands (Some (<[c := l]> (default ∅ (shorthands f)))))
          end
      | _ =>
          emit (ShorthandTooLong (fs_name f) (Shorthand fl));;
          mpanic "shorthand is more than one character"
      end
  end.

(** [VarPF]: the default is the variable's value now. *)
Definition VarPF (value : loc) (name shorthand usage : str) : M loc :=
  v ← read_var value;
  l ← new_flag (mkFlag name shorthand usage value (var_String v) false [] [] [] None);
  AddFlag l;;
  mret l.
Definition VarP (value : loc) (name shorthand usage : str) : M unit :=
  VarPF value name shorthand usage;; mret ().

Definition StringVarP (p : loc) (name shorthand value usage : str) : M unit :=
  write_var p (StringVar value);; VarP p name shorthand usage.
Definition IntVarP (p : loc) (name shorthand : str) (value : Z) (usage : str) : M unit :=
  write_var p (IntVar value);; VarP p name shorthand usage.
Definition BoolVarP (p : loc) (name shorthand : str) (value : bool) (usage : str) : M unit :=
  write_var p (BoolVar value);;
  l ← VarPF p name shorthand usage;
  modify_flag l (fl_set_NoOptDefVal "true").

(** [String], [Int], [Bool]: a new variable, whose location is returned. *)
Definition String_ (name value usage : str) : M loc :=
  p ← new_var (StringVar []); StringVarP p name [] value usage;; mret p.
Definition Int_ (name : str) (value : Z) (usage : str) : M loc :=
  p ← new_var (IntVar 0); IntVarP p name [] value usage;; mret p.
Definition Bool_ (name : str) (value : bool) (usage : str) : M loc :=
  p ← new_var (BoolVar false); BoolVarP p name [] value usage;; mret p.

(** [AddFlagSet]: the flags of [newSet] that are not there yet, in the order
    of their names. *)
Definition AddFlagSet (newSet : option FlagSet) : M unit :=
  match newSet with
  | None => mret ()
  | Some newSet =>
      VisitAll newSet (λ l,
        f ← get_set;
        fl ← read_flag l;
        match Lookup f (Name fl) with
        | None => AddFlag l
        | Some _ => mret ()
        end)
  end.

(** ** Parsing *)

(** [usage] of a set that is not [CommandLine], and [failf]. *)
Definition usage : M unit :=
  f ← get_set;
  match fs_Usage f with
  | None => emit (UsageOf (fs_name f))
  | Some text => emit (CustomUsage text)
  end.
Definition failf (err : flag_error) : M flag_error :=
  emit (ErrorLine err);; usage;; mret err.

Definition containsShorthand (arg shorthand : str) : bool :=
  if has_prefix "-" arg then false
  else contains shorthand (default [] (split2 "="%char arg !! 0)).

Definition setFlag (l : loc) (value origArg : str) : M (option flag_error) :=
  fl ← read_flag l;
  v ← read_var (Value fl);
  let '(v, err) := var_Set v value in
  write_var (Value fl) v;;
  match err with
  | Some e => err ← failf (InvalidArgument value origArg e); mret (Some err)
  | None =>
      f ← get_set;
      mark_actual (normalizeFlagName f (Name fl)) l;;
      (if decide (ShorthandDeprecated fl ≠ [] ∧ containsShorthand origArg (Shorthand fl) = true)
       then emit (ShorthandDeprecatedMsg (Shorthand fl) (ShorthandDeprecated fl))
       else mret ());;
      mret None
  end.

(** [parseLongArg]: the arguments left and the error. *)
Definition parseLongArg (s : str) (args : list str) : M (list str * option flag_error) :=
  name ← slice_from 2 s;
  match name with
  | [] => err ← failf (BadFlagSyntax s); mret (args, Some err)
  | c :: _ =>
      if decide (c = "-"%char ∨ c = "="%char) then
        err ← failf (BadFlagSyntax s); mret (args, Some err)
      else
        let sp := split2 "=" name in
        let name := default [] (sp !! 0) in
        f ← get_set;
        match map_index (formal f) (normalizeFlagName f name) with
        | None =>
            if decide (name = lit "help") then usage;; mret (args, Some ErrHelp)
            else err ← failf (UnknownFlag name); mret (args, Some err)
        | Some l =>
            fl ← read_flag l;
            match sp !! 1, NoOptDefVal fl, args with
            | Some value, _, _ => err ← setFlag l value s; mret (args, err)
            | None, (_ :: _) as value, _ => err ← setFlag l value s; mret (args, err)
            | None, [], value :: args => err ← setFlag l value s; mret (args, err)
            | None, [], [] => err ← failf (NeedsArgument s); mret (args, Some err)
            end
        end
  end.

(** [parseSingleShortArg]: the shorthands left, the arguments left, the
    error. *)
Definition parseSingleShortArg (shorts : str) (args : list str) :
    M (str * list str * option flag_error) :=
  match shorts with
  | [] => mpanic "slice bounds out of range"
  | c :: rest =>
      f ← get_set;
      match map_index (shorthands f) c with
      | None =>
          if decide (c = "h"%char) then usage;; mret (rest, args, Some ErrHelp)
          else err ← failf (UnknownShorthand c shorts); mret (rest, args, Some err)
      | Some l =>
          fl ← read_flag l;
          if decide (2 < length shorts ∧ shorts !! 1 = Some "="%char) then
            err ← setFlag l (drop 2 shorts) shorts; mret ([], args, err)
          else if decide (NoOptDefVal fl ≠ []) then
            err ← setFlag l (NoOptDefVal fl) shorts; mret (rest, args, err)
          else if decide (1 < length shorts) then
            err ← setFlag l rest shorts; mret ([], args, err)
          else
            match args with
            | value :: args => err ← setFlag l value shorts; mret (rest, args, err)
            | [] => err ← failf (ShorthandNeedsArgument c shorts); mret (rest, args, Some err)
            end
      end
  end.

(** The loop of [parseShortArg]: every pass leaves fewer shorthands, and
    every call gets the arguments the loop started with. *)
Fixpoint parse_shorts (fuel : nat) (shorts : str) (args a : list str) :
    M (list str * option flag_error) :=
  match shorts, fuel with
  | [], _ => mret (a, None)
  | _, O => mpanic "out of fuel"
  | _, S fuel =>
      r ← parseSingleShortArg shorts args;
      let '(shorts, a, err) := r in
      match err with
      | Some _ => mret (a, err)
      | None => parse_shorts fuel shorts args a
      end
  end.

Definition parseShortArg (s : str) (args : list str) : M (list str * option flag_error) :=
  shorts ← slice_from 1 s;
  parse_shorts (length shorts) shorts args args.

Definition append_args (l : list str) : M unit := modify_set (λ f, fs_set_args (args f ++ l) f).

(** The loop of [parseArgs]: every pass consumes an argument or two. *)
Fixpoint parse_args (fuel : nat) (args : list str) : M (option flag_error) :=
  match args, fuel with
  | [], _ => mret None
  | _, O => mpanic "out of fuel"
  | s :: args, S fuel =>
      match s with
      | c :: c' :: s' =>
          if decide (c = "-"%char) then
            if decide (c' = "-"%char ∧ s' = []) then append_args args;; mret None
            else
              r ← (if decide (c' = "-"%char) then parseLongArg s args else parseShortArg s args);
              let '(args, err) := r in
              match err with
              | Some _ => mret err
              | None => parse_args fuel args
              end
          else
            f ← get_set;
            if interspersed f then append_args [s];; parse_args fuel args
            else append_args [s];; append_args args;; mret None
      | _ =>
          f ← get_set;
          if interspersed f then append_args [s];; parse_args fuel args
          else append_args [s];; append_args args;; mret None
      end
  end.
Definition parseArgs (args : list str) : M (option flag_error) := parse_args (length args) args.

(** [FlagSet.Parse]. *)
Definition Parse (arguments : list str) : M (option flag_error) :=
  modify_set (λ f, fs_set_args [] (fs_set_parsed true f));;
  err ← parseArgs arguments;
  f ← get_set;
  match err with
  | None => mret None
  | Some e =>
      match errorHandling f with
      | ContinueOnError => mret (Some e)
      | ExitOnError => mfatal "os.Exit(2)"
      | PanicOnError => mpanic "flag error"
      end
  end.
