(* ===== verification/PflagSpec.v ===== *)
(** * Properties of the flag sets (github.com/spf13/pflag)

    A well-formedness invariant of a flag set and its store, which every
    operation keeps; [Parse] returns whatever the arguments are; and the
    language of command lines: parsing the text of a list of items performs
    their assignments in order. *)

From S2P Require Import Prelude GoStr KubeTypes Pflag.

Local Open Scope go_scope.

(** ** Running the monad *)

Definition runs {A} (w : world) (m : M A) (Q : world → A → Prop) : Prop :=
  ∃ w' a, m w = Return (w', a) ∧ Q w' a.

Lemma runs_ret {A} w (a : A) (Q : world → A → Prop) : Q w a → runs w (mret a) Q.
Proof. intros. by exists w, a. Qed.

Lemma runs_bind {A B} w (m : M A) (k : A → M B) Q R :
  runs w m R → (∀ w' a, R w' a → runs w' (k a) Q) → runs w (m ≫= k) Q.
Proof.
  intros (w' & a & Hm & HR) Hk. destruct (Hk w' a HR) as (w'' & b & Hb & HQ).
  exists w'', b. split; [|done]. unfold mbind, M_bind. by rewrite Hm.
Qed.

Lemma runs_mono {A} w (m : M A) (Q R : world → A → Prop) :
  runs w m R → (∀ w' a, R w' a → Q w' a) → runs w m Q.
Proof. intros (w' & a & Hm & HR) HQ. exists w', a. eauto. Qed.

Lemma bind_Return {A B} (m : M A) (k : A → M B) w w' a :
  m w = Return (w', a) → (m ≫= k) w = k a w'.
Proof. intros Hm. unfold mbind, M_bind. by rewrite Hm. Qed.

Lemma get_set_bind {B} (k : FlagSet → M B) w : (get_set ≫= k) w = k w.1 w.
Proof. by apply bind_Return. Qed.

Lemma read_flag_bind {B} l fl (k : Flag → M B) w :
  flags w.2 !! l = Some fl → (read_flag l ≫= k) w = k fl w.
Proof. intros Hl. apply bind_Return. unfold read_flag. by rewrite Hl. Qed.

Lemma read_var_bind {B} l v (k : Var → M B) w :
  vars w.2 !! l = Some v → (read_var l ≫= k) w = k v w.
Proof. intros Hl. apply bind_Return. unfold read_var. by rewrite Hl. Qed.

Lemma write_var_bind {B} l v (k : unit → M B) w :
  is_Some (vars w.2 !! l) →
  (write_var l v ≫= k) w = k () (w.1, mkStore (flags w.2) (<[l := v]> (vars w.2)) (out w.2)).
Proof. intros [v0 Hl]. apply bind_Return. unfold write_var. by rewrite Hl. Qed.

(** ** The invariant *)

(** A location is a flag of the store that writes a variable of it. *)
Definition valid_flag (h : store) (l : loc) (fl : Flag) : Prop :=
  flags h !! l = Some fl ∧ is_Some (vars h !! Value fl).

(** The maps of a set agree with the flags they point to. *)
Record wf (w : world) : Prop := {
  wf_formal n l : map_index (formal w.1) n = Some l →
    ∃ fl, valid_flag w.2 l fl ∧ Name fl = n ∧ normalizeFlagName w.1 n = n;
  wf_short c l : map_index (shorthands w.1) c = Some l →
    ∃ fl, valid_flag w.2 l fl ∧ Shorthand fl = [c] ∧
      map_index (formal w.1) (Name fl) = Some l;
  wf_actual n l : map_index (actual w.1) n = Some l →
    map_index (formal w.1) n = Some l ∧
    ∃ fl, flags w.2 !! l = Some fl ∧ Changed fl = true
}.

(** What parsing does not change: the definitions of the flags, and the type
    of every variable. *)
Definition same_flag (fl fl' : Flag) : Prop := fl_set_Changed true fl = fl_set_Changed true fl'.

Definition same_type (v v' : Var) : Prop := var_Type v = var_Type v'.

Record static (w w' : world) : Prop := {
  st_formal : formal w'.1 = formal w.1;
  st_shorthands : shorthands w'.1 = shorthands w.1;
  st_normalize : normalizeNameFunc w'.1 = normalizeNameFunc w.1;
  st_interspersed : interspersed w'.1 = interspersed w.1;
  st_errorHandling : errorHandling w'.1 = errorHandling w.1;
  st_flags : Forall2 same_flag (flags w.2) (flags w'.2);
  st_vars : Forall2 same_type (vars w.2) (vars w'.2)
}.

#[global] Instance same_flag_equiv : Equivalence same_flag.
Proof. split; unfold same_flag; repeat intro; congruence. Qed.
#[global] Instance same_type_equiv : Equivalence same_type.
Proof. split; unfold same_type; repeat intro; congruence. Qed.

Lemma static_refl w : static w w.
Proof. by split. Qed.

Lemma static_trans w1 w2 w3 : static w1 w2 → static w2 w3 → static w1 w3.
Proof. intros [] []. split; [congruence.. | by etrans | by etrans]. Qed.

Lemma static_flag w w' l fl :
  static w w' → flags w.2 !! l = Some fl → ∃ fl', flags w'.2 !! l = Some fl' ∧ same_flag fl fl'.
Proof. intros Hs Hl. by eapply Forall2_lookup_l in Hl; [|apply Hs]. Qed.

Lemma static_var w w' p v :
  static w w' → vars w.2 !! p = Some v → ∃ v', vars w'.2 !! p = Some v' ∧ same_type v v'.
Proof. intros Hs Hp. by eapply Forall2_lookup_l in Hp; [|apply Hs]. Qed.

(** The fields of a flag that a parse reads. *)
Lemma same_flag_fields fl fl' :
  same_flag fl fl' →
  Name fl' = Name fl ∧ Shorthand fl' = Shorthand fl ∧ Value fl' = Value fl ∧
  NoOptDefVal fl' = NoOptDefVal fl ∧ Deprecated fl' = Deprecated fl ∧
  ShorthandDeprecated fl' = ShorthandDeprecated fl.
Proof. unfold same_flag, fl_set_Changed. intros [=]. done. Qed.

(** Whether a text fits a variable depends on its type only. *)
Lemma var_Set_type v v' s :
  same_type v v' → same_type (var_Set v s).1 v' ∧ (var_Set v s) = (var_Set v' s).
Proof.
  unfold same_type. destruct v, v'; simpl; try done; intros _; split; try done.
  - by destruct (parse_int 0 s).
  - by destruct (parse_bool s).
Qed.

(** ** One assignment *)

Definition deprecation (fl : Flag) (origArg : str) : list message :=
  (if decide (Deprecated fl = []) then [] else [FlagDeprecated (Name fl) (Deprecated fl)]) ++
  (if decide (ShorthandDeprecated fl ≠ [] ∧ containsShorthand origArg (Shorthand fl) = true)
   then [ShorthandDeprecatedMsg (Shorthand fl) (ShorthandDeprecated fl)] else []).

(** The state after a flag was set to a text that fits it. *)
Definition assign (w : world) (a : loc * str * str) : world :=
  let '(l, value, origArg) := a in
  match flags w.2 !! l with
  | Some fl =>
      (fs_set_actual (Some (<[normalizeFlagName w.1 (Name fl) := l]> (default ∅ (actual w.1)))) w.1,
       mkStore (<[l := fl_set_Changed true fl]> (flags w.2))
         (alter (λ v, (var_Set v value).1) (Value fl) (vars w.2))
         (out w.2 ++ deprecation fl origArg))
  | None => w
  end.

Definition fits (h : store) (l : loc) (value : str) : Prop :=
  ∃ fl v, flags h !! l = Some fl ∧ vars h !! Value fl = Some v ∧ (var_Set v value).2 = None.

Lemma setFlag_fits w l value origArg :
  fits w.2 l value →
  setFlag l value origArg w = Return (assign w (l, value, origArg), None).
Proof.
  intros (fl & v & Hfl & Hv & Hset). unfold setFlag.
  rewrite (read_flag_bind l fl), (read_var_bind (Value fl) v) by done.
  destruct (var_Set v value) as [v' e] eqn:Hvs. simpl in Hset. subst e.
  rewrite write_var_bind by done. cbn beta iota. rewrite get_set_bind.
  unfold assign. rewrite Hfl.
  rewrite (list_alter_insert _ _ _ v), Hvs by done.
  rewrite (bind_Return _ _ _
    (fs_set_actual (Some (<[normalizeFlagName w.1 (Name fl) := l]> (default ∅ (actual w.1)))) w.1,
     mkStore (<[l := fl_set_Changed true fl]> (flags w.2)) (<[Value fl := v']> (vars w.2))
       (out w.2 ++ (if decide (Deprecated fl = []) then []
                    else [FlagDeprecated (Name fl) (Deprecated fl)]))) ()).
  - unfold deprecation. rewrite app_assoc.
    destruct (decide (ShorthandDeprecated fl ≠ [] ∧ _)); [done|].
    by rewrite app_nil_r.
  - unfold mark_actual. rewrite get_set_bind. unfold modify_set.
    erewrite bind_Return by done. cbn [fst snd].
    unfold modify_flag. erewrite bind_Return by (cbn; by rewrite Hfl).
    erewrite read_flag_bind
      by (apply list_lookup_insert_eq; by eapply lookup_lt_Some).
    simpl. case_decide; simpl; [by rewrite app_nil_r | done].
Qed.

Lemma assign_static w a : fits w.2 a.1.1 a.1.2 → static w (assign w a).
Proof.
  destruct a as [[l value] o]. intros (fl & v & Hfl & Hv & _). simpl in *. unfold assign.
  rewrite Hfl. split; simpl; try done.
  - by apply (Forall2_insert_related _ _ _ fl).
  - rewrite (list_alter_insert _ _ _ v) by done. apply (Forall2_insert_related _ _ _ v); [done|].
    unfold same_type. destruct v; simpl; try done.
    + by destruct (parse_int 0 value).
    + by destruct (parse_bool value).
Qed.

(** Assigning to a flag of the set keeps the invariant. *)
Lemma static_normalize w w' n : static w w' → normalizeFlagName w'.1 n = normalizeFlagName w.1 n.
Proof. intros Hs. unfold normalizeFlagName. by rewrite (st_normalize _ _ Hs). Qed.

Lemma static_valid w w' l fl :
  static w w' → valid_flag w.2 l fl → ∃ fl', valid_flag w'.2 l fl' ∧ same_flag fl fl'.
Proof.
  intros Hs [Hl [v Hv]]. destruct (static_flag w w' l fl Hs Hl) as (fl' & Hl' & Hsame).
  exists fl'. split; [|done]. split; [done|].
  destruct (same_flag_fields _ _ Hsame) as (_ & _ & -> & _).
  destruct (static_var w w' _ _ Hs Hv) as (v' & ? & _). by exists v'.
Qed.

(** A state that differs statically in nothing is well-formed when the flags
    marked as set are. *)
Lemma wf_static w w' :
  wf w → static w w' →
  (∀ n l, map_index (actual w'.1) n = Some l →
     map_index (formal w'.1) n = Some l ∧ ∃ fl, flags w'.2 !! l = Some fl ∧ Changed fl = true) →
  wf w'.
Proof.
  intros Hwf Hs Ha. split; [| |done].
  - intros n l. rewrite (st_formal _ _ Hs). intros Hn.
    destruct (wf_formal _ Hwf n l Hn) as (fl & Hv & Hname & Hnorm).
    destruct (static_valid w w' l fl Hs Hv) as (fl' & Hv' & Hsame).
    exists fl'. destruct (same_flag_fields _ _ Hsame) as (-> & _).
    by rewrite (static_normalize w w').
  - intros c l. rewrite (st_shorthands _ _ Hs), (st_formal _ _ Hs). intros Hc.
    destruct (wf_short _ Hwf c l Hc) as (fl & Hv & Hsh & Hf).
    destruct (static_valid w w' l fl Hs Hv) as (fl' & Hv' & Hsame).
    exists fl'. by destruct (same_flag_fields _ _ Hsame) as (-> & -> & _).
Qed.

(** A flag a set can reach. *)
Definition known (w : world) (l : loc) : Prop := ∃ n, map_index (formal w.1) n = Some l.

Lemma known_valid w l : wf w → known w l →
  ∃ fl, valid_flag w.2 l fl ∧ map_index (formal w.1) (normalizeFlagName w.1 (Name fl)) = Some l.
Proof.
  intros Hwf [n Hn]. destruct (wf_formal _ Hwf n l Hn) as (fl & Hv & Hname & Hnorm).
  exists fl. split; [done|]. by rewrite Hname, Hnorm.
Qed.

Lemma assign_wf w a : wf w → known w a.1.1 → fits w.2 a.1.1 a.1.2 → wf (assign w a).
Proof.
  intros Hwf Hk Hfit. pose proof (assign_static w a Hfit) as Hs.
  apply (wf_static w); [done..|]. destruct a as [[l value] o]. simpl in *.
  destruct (known_valid w l Hwf Hk) as (fl & [Hfl _] & Hn).
  unfold assign. rewrite Hfl. simpl.
  intros n l' Hl'. rewrite lookup_insert in Hl'. case_decide as Hc.
  - injection Hl' as ->. subst n. split; [done|]. exists (fl_set_Changed true fl).
    split; [|done]. apply list_lookup_insert_eq. by eapply lookup_lt_Some.
  - assert (map_index (actual w.1) n = Some l') as Ha.
    { unfold map_index. by destruct (actual w.1). }
    destruct (wf_actual _ Hwf n l' Ha) as (Hf & fl' & Hfl' & Hch). split; [done|].
    destruct (decide (l' = l)) as [->|Hne].
    + exists (fl_set_Changed true fl). split; [|done].
      apply list_lookup_insert_eq. by eapply lookup_lt_Some.
    + exists fl'. by rewrite list_lookup_insert_ne by done.
Qed.

(** ** Parsing returns *)

Definition grown (w w' : world) : Prop := wf w' ∧ static w w'.

Lemma grown_refl w : wf w → grown w w.
Proof. by split; [|apply static_refl]. Qed.

Lemma grown_trans w1 w2 w3 : grown w1 w2 → grown w2 w3 → grown w1 w3.
Proof. intros [_ ?] [? ?]. split; [done|]. by eapply static_trans. Qed.

Lemma grown_known w w' l : grown w w' → known w l → known w' l.
Proof. intros [_ Hs] [n Hn]. exists n. by rewrite (st_formal _ _ Hs). Qed.

(** A step after which the parse still runs from the grown state. *)
Lemma runs_seq {A B} w (m : M A) (k : A → M B) (P : A → Prop) (R : B → Prop) :
  runs w m (λ w' a, grown w w' ∧ P a) →
  (∀ w' a, grown w w' → P a → runs w' (k a) (λ w'' b, grown w' w'' ∧ R b)) →
  runs w (m ≫= k) (λ w' b, grown w w' ∧ R b).
Proof.
  intros Hm Hk. eapply runs_bind; [exact Hm|]. intros w' a [Hg HP].
  eapply runs_mono; [by apply Hk|]. intros w'' b [Hg' HR]. split; [|done].
  by eapply grown_trans.
Qed.

Lemma runs_here {A} w (a : A) (R : A → Prop) :
  wf w → R a → runs w (mret a) (λ w' b, grown w w' ∧ R b).
Proof. intros. apply runs_ret. split; [by apply grown_refl | done]. Qed.

(** Changes of the messages, the arguments and the mark [parsed]. *)
Lemma wf_args w l b h :
  wf w → flags h = flags w.2 → vars h = vars w.2 →
  grown w (fs_set_args l (fs_set_parsed b w.1), h).
Proof.
  intros Hwf Hf Hv. assert (static w (fs_set_args l (fs_set_parsed b w.1), h)) as Hs.
  { split; try done; simpl; by rewrite ?Hf, ?Hv. }
  split; [|done]. apply (wf_static w); [done..|]. simpl. rewrite Hf. apply Hwf.
Qed.

Lemma wf_out w o : wf w → grown w (w.1, mkStore (flags w.2) (vars w.2) o).
Proof.
  intros Hwf. destruct w as [f h]. destruct (wf_args (f, h) (args f) (parsed f)
    (mkStore (flags h) (vars h) o)) as [H1 H2]; try done. simpl in *. by destruct f.
Qed.

Lemma runs_emit w m : wf w → runs w (emit m) (λ w' _, grown w w' ∧ True).
Proof. intros Hwf. eexists _, _. split; [done|]. split; [by apply wf_out | done]. Qed.

Lemma runs_usage w : wf w → runs w usage (λ w' _, grown w w' ∧ True).
Proof.
  intros Hwf. unfold usage. eapply runs_seq.
  - eexists _, _. split; [done|]. split; [by apply grown_refl|]. by instantiate (1 := λ _, True).
  - intros w' f [Hwf' _] _. destruct (fs_Usage f); by apply runs_emit.
Qed.

Lemma runs_failf w e : wf w → runs w (failf e) (λ w' _, grown w w' ∧ True).
Proof.
  intros Hwf. unfold failf. eapply runs_seq; [by apply runs_emit|].
  intros w1 _ [Hwf1 _] _. eapply runs_seq; [by apply runs_usage|].
  intros w2 _ [Hwf2 _] _. by apply runs_here.
Qed.

(** A call that fails: the state may have grown, nothing is promised of the
    error. *)
Lemma runs_failf_ret {A} w e (g : flag_error → A) (R : A → Prop) :
  wf w → (∀ e, R (g e)) →
  runs w (failf e ≫= λ err, mret (g err)) (λ w' a, grown w w' ∧ R a).
Proof.
  intros Hwf HR. eapply runs_seq; [by apply runs_failf|].
  intros w' e' [Hwf' _] _. by apply runs_here.
Qed.

Lemma fits_or (w : world) l value fl v :
  flags w.2 !! l = Some fl → vars w.2 !! Value fl = Some v →
  fits w.2 l value ∨ ∃ v' e, var_Set v value = (v', Some e).
Proof.
  intros Hfl Hv. destruct (var_Set v value) as [v' [e|]] eqn:He.
  - right. by exists v', e.
  - left. exists fl, v. by rewrite He.
Qed.

Lemma runs_setFlag w l value o :
  wf w → known w l → runs w (setFlag l value o) (λ w' _, grown w w' ∧ True).
Proof.
  intros Hwf Hk. destruct (known_valid w l Hwf Hk) as (fl & [Hfl [v Hv]] & _).
  destruct (fits_or w l value fl v Hfl Hv) as [Hfit|(v' & e & He)].
  - eexists _, _. split; [by apply setFlag_fits|]. split; [|done].
    split; [by apply assign_wf | by apply assign_static].
  - set (w1 := (w.1, mkStore (flags w.2) (<[Value fl := v']> (vars w.2)) (out w.2)) : world).
    assert (grown w w1) as Hg.
    { assert (static w w1) as Hs.
      { split; try done. simpl. apply (Forall2_insert_related _ _ _ v); [done|].
        unfold same_type. destruct v; simpl in He; try done.
        - destruct (parse_int 0 value). by simplify_eq.
        - destruct (parse_bool value). by simplify_eq. }
      split; [|done]. apply (wf_static w); [done..|]. apply Hwf. }
    destruct Hg as [Hwf1 Hs1].
    destruct (runs_failf_ret w1 (InvalidArgument value o e) Some (λ _, True) Hwf1)
      as (w2 & a & Hrun & [Hg2 _]); [done|].
    exists w2, a. split.
    + unfold setFlag. rewrite (read_flag_bind l fl), (read_var_bind (Value fl) v) by done.
      rewrite He, write_var_bind by done. exact Hrun.
    + split; [|done]. by eapply grown_trans.
Qed.

Lemma runs_set_ret {A} w l value o (g : option flag_error → A) (R : A → Prop) :
  wf w → known w l → (∀ e, R (g e)) →
  runs w (setFlag l value o ≫= λ err, mret (g err)) (λ w' a, grown w w' ∧ R a).
Proof.
  intros Hwf Hk HR. eapply runs_seq; [by apply runs_setFlag|].
  intros w' e [Hwf' _] _. by apply runs_here.
Qed.

(** Reads of a known flag. *)
Lemma runs_get {B} (w : world) (k : FlagSet → M B) Q : runs w (k w.1) Q → runs w (get_set ≫= k) Q.
Proof. unfold runs. by rewrite get_set_bind. Qed.

Lemma runs_read {B} (w : world) l fl (k : Flag → M B) Q :
  flags w.2 !! l = Some fl → runs w (k fl) Q → runs w (read_flag l ≫= k) Q.
Proof. intros Hl. unfold runs. by rewrite (read_flag_bind l fl). Qed.

Lemma slice_bind {A B} n (s : list A) (k : list A → M B) w :
  n ≤ length s → (slice_from n s ≫= k) w = k (drop n s) w.
Proof. intros Hn. unfold slice_from. by rewrite decide_True. Qed.

Lemma runs_slice {A B} n (s : list A) (k : list A → M B) w Q :
  n ≤ length s → runs w (k (drop n s)) Q → runs w (slice_from n s ≫= k) Q.
Proof. intros Hn. unfold runs. by rewrite slice_bind. Qed.

Lemma lookup_known (w : world) n l : map_index (formal w.1) n = Some l → known w l.
Proof. intros Hn. by exists n. Qed.

Lemma known_flag w l : wf w → known w l → ∃ fl, flags w.2 !! l = Some fl.
Proof. intros Hwf Hk. destruct (known_valid w l Hwf Hk) as (fl & [Hfl _] & _). by exists fl. Qed.

(** The side conditions of a branch: the invariant, and the lengths. *)
Ltac bounded := try done; intros; repeat match goal with R := _ |- _ => subst R end; simpl; lia.

Lemma runs_parseLongArg w s arguments :
  wf w → 2 ≤ length s →
  runs w (parseLongArg s arguments)
    (λ w' r, grown w w' ∧ length r.1 ≤ length arguments).
Proof.
  intros Hwf Hs. unfold parseLongArg. apply runs_slice; [done|].
  set (R := λ r : list str * option flag_error, length r.1 ≤ length arguments).
  destruct (drop 2 s) as [|c name].
  { apply (runs_failf_ret _ _ (λ e, (arguments, Some e)) R); bounded. }
  destruct (decide (c = "-"%char ∨ c = "="%char)).
  { apply (runs_failf_ret _ _ (λ e, (arguments, Some e)) R); bounded. }
  apply runs_get. destruct (map_index (formal w.1) _) as [l|] eqn:Hl.
  - apply lookup_known in Hl. destruct (known_flag w l Hwf Hl) as [fl Hfl].
    apply (runs_read w l fl); [done|].
    destruct (split2 _ _ !! 1) as [value|]; [|destruct (NoOptDefVal fl); [destruct arguments|]].
    + apply (runs_set_ret _ _ _ _ (λ e, (arguments, e)) R); bounded.
    + apply (runs_failf_ret _ _ (λ e, ([], Some e)) R); bounded.
    + apply (runs_set_ret _ _ _ _ (λ e, (arguments, e)) R); bounded.
    + apply (runs_set_ret _ _ _ _ (λ e, (arguments, e)) R); bounded.
  - destruct (decide (_ = lit "help")).
    + eapply runs_seq; [by apply runs_usage|]. intros w' _ [Hwf' _] _.
      apply (runs_here _ _ R); bounded.
    + apply (runs_failf_ret _ _ (λ e, (arguments, Some e)) R); bounded.
Qed.

Lemma runs_parseSingleShortArg w c rest arguments :
  wf w →
  runs w (parseSingleShortArg (c :: rest) arguments)
    (λ w' r, grown w w' ∧ (length r.1.1 ≤ length rest ∧ length r.1.2 ≤ length arguments)).
Proof.
  intros Hwf. unfold parseSingleShortArg.
  set (R := λ r : str * list str * option flag_error,
    length r.1.1 ≤ length rest ∧ length r.1.2 ≤ length arguments).
  apply runs_get. destruct (map_index (shorthands w.1) c) as [l|] eqn:Hl.
  - destruct (wf_short _ Hwf c l Hl) as (fl & [Hfl _] & _ & Hk%lookup_known).
    apply (runs_read w l fl); [done|].
    destruct (decide (2 < _ ∧ _)); [|destruct (decide (NoOptDefVal fl ≠ []));
      [|destruct (decide (1 < _)); [|destruct arguments]]].
    + apply (runs_set_ret _ _ _ _ (λ e, ([], arguments, e)) R); bounded.
    + apply (runs_set_ret _ _ _ _ (λ e, (rest, arguments, e)) R); bounded.
    + apply (runs_set_ret _ _ _ _ (λ e, ([], arguments, e)) R); bounded.
    + apply (runs_failf_ret _ _ (λ e, (rest, [], Some e)) R); bounded.
    + apply (runs_set_ret _ _ _ _ (λ e, (rest, arguments, e)) R); bounded.
  - destruct (decide (c = "h"%char)).
    + eapply runs_seq; [by apply runs_usage|]. intros w' _ [Hwf' _] _.
      apply (runs_here _ _ R); bounded.
    + apply (runs_failf_ret _ _ (λ e, (rest, arguments, Some e)) R); bounded.
Qed.

Lemma runs_parse_shorts fuel w shorts arguments a :
  wf w → length shorts ≤ fuel → length a ≤ length arguments →
  runs w (parse_shorts fuel shorts arguments a)
    (λ w' r, grown w w' ∧ length r.1 ≤ length arguments).
Proof.
  revert w shorts a. induction fuel as [|fuel IH]; intros w shorts a Hwf Hf Ha.
  - destruct shorts; [|simpl in Hf; lia]. by apply runs_here.
  - destruct shorts as [|c rest]; [by apply runs_here|].
    cbn [parse_shorts]. eapply runs_seq; [by apply runs_parseSingleShortArg|].
    intros w' [[shorts' a'] [e|]] [Hwf' _] [H1 H2]; simpl in *.
    + by apply runs_here.
    + apply IH; [done | lia | done].
Qed.

Lemma runs_parseShortArg w s arguments :
  wf w → 1 ≤ length s →
  runs w (parseShortArg s arguments) (λ w' r, grown w w' ∧ length r.1 ≤ length arguments).
Proof.
  intros Hwf Hs. unfold parseShortArg. apply runs_slice; [done|].
  by apply runs_parse_shorts.
Qed.

Lemma runs_append w l : wf w → runs w (append_args l) (λ w' _, grown w w' ∧ True).
Proof.
  intros Hwf. eexists _, _. split; [done|]. split; [|done].
  destruct w as [f h]. destruct (wf_args (f, h) (args f ++ l) (parsed f) h); done.
Qed.

Lemma runs_parse_args fuel w arguments :
  wf w → length arguments ≤ fuel →
  runs w (parse_args fuel arguments) (λ w' _, grown w w' ∧ True).
Proof.
  revert w arguments. induction fuel as [|fuel IH]; intros w arguments Hwf Hf.
  - destruct arguments; [|simpl in Hf; lia]. by apply runs_here.
  - destruct arguments as [|s arguments]; [by apply runs_here|]. simpl in Hf.
    assert (∀ s, runs w (f ← get_set;
      if interspersed f then append_args [s];; parse_args fuel arguments
      else append_args [s];; append_args arguments;; mret None) (λ w' _, grown w w' ∧ True)) as Hpos.
    { intros s0. apply runs_get. destruct (interspersed w.1).
      all: eapply runs_seq; [by apply runs_append|]; intros w1 _ [Hwf1 _] _.
      - apply IH; [done | lia].
      - eapply runs_seq; [by apply runs_append|]. intros w2 _ [Hwf2 _] _. by apply runs_here. }
    destruct s as [|c [|c' s']]; cbn [parse_args]; [apply Hpos..|].
    destruct (decide (c = "-"%char)); [|apply Hpos].
    destruct (decide (c' = "-"%char ∧ s' = [])).
    { eapply runs_seq; [by apply runs_append|]. intros w2 _ [Hwf2 _] _. by apply runs_here. }
    eapply (runs_seq _ _ _ (λ r, length r.1 ≤ length arguments)).
    { destruct (decide (c' = "-"%char)).
      - apply runs_parseLongArg; [done | simpl; lia].
      - apply runs_parseShortArg; [done | simpl; lia]. }
    intros w' [a' [er|]] [Hwf' _] Hlen; simpl in *; [by apply runs_here|].
    apply IH; [done | lia].
Qed.

Lemma runs_Parse w arguments :
  wf w → errorHandling w.1 = ContinueOnError →
  runs w (Parse arguments) (λ w' _, grown w w' ∧ True).
Proof.
  intros Hwf He. unfold Parse. eapply (runs_seq _ _ _ (λ _, True)).
  { eexists _, _. split; [done|]. split; [by apply wf_args | done]. }
  intros w1 _ [Hwf1 Hs1] _. eapply runs_seq; [by apply runs_parse_args|].
  intros w2 e [Hwf2 Hs2] _. apply runs_get.
  rewrite (st_errorHandling _ _ Hs2), (st_errorHandling _ _ Hs1), He.
  destruct e; by apply runs_here.
Qed.

(** ** The language of command lines *)

Inductive short_form := Joined | Equals | Next.

(** What a user writes: [--name=value], [--name value], [--name] of a flag
    whose value is optional, [-abc] with letters of such flags and possibly a
    last one with a value ([-abcvalue], [-abc=value], [-abc value]), or an
    argument that is not a flag. *)
Inductive item :=
  | LongEq (name value : str)
  | LongArg (name value : str)
  | LongOpt (name : str)
  | Shorts (letters : str) (last : option (ascii * short_form * str))
  | Positional (s : str).

Definition last_text (last : option (ascii * short_form * str)) : str :=
  match last with
  | None => []
  | Some (c, Joined, v) => c :: v
  | Some (c, Equals, v) => c :: "="%char :: v
  | Some (c, Next, _) => [c]
  end.
Definition last_args (last : option (ascii * short_form * str)) : list str :=
  match last with Some (_, Next, v) => [v] | _ => [] end.

Definition long (name : str) : str := "-"%char :: "-"%char :: name.

Definition render (it : item) : list str :=
  match it with
  | LongEq n v => [long (n ++ "="%char :: v)]
  | LongArg n v => [long n; v]
  | LongOpt n => [long n]
  | Shorts cs last => ("-"%char :: cs ++ last_text last) :: last_args last
  | Positional s => [s]
  end.

(** The assignments an item stands for: the flag, the text, and the argument
    as the messages name it. *)
Definition opt_value (w : world) (l : loc) : str :=
  match flags w.2 !! l with Some fl => NoOptDefVal fl | None => [] end.

Fixpoint letter_sets (w : world) (cs tail : str) : list (loc * str * str) :=
  match cs with
  | [] => []
  | c :: cs' =>
      match map_index (shorthands w.1) c with
      | Some l => [(l, opt_value w l, c :: cs' ++ tail)]
      | None => []
      end ++ letter_sets w cs' tail
  end.

Definition last_sets (w : world) (last : option (ascii * short_form * str)) : list (loc * str * str) :=
  match last with
  | None => []
  | Some (c, _, v) =>
      match map_index (shorthands w.1) c with
      | Some l => [(l, v, last_text last)]
      | None => []
      end
  end.

Definition long_sets (w : world) (n : str) (value : loc → str) (o : str) : list (loc * str * str) :=
  match Lookup w.1 n with Some l => [(l, value l, o)] | None => [] end.

Definition sets (w : world) (it : item) : list (loc * str * str) :=
  match it with
  | LongEq n v => long_sets w n (λ _, v) (long (n ++ "="%char :: v))
  | LongArg n v => long_sets w n (λ _, v) (long n)
  | LongOpt n => long_sets w n (opt_value w) (long n)
  | Shorts cs last => letter_sets w cs (last_text last) ++ last_sets w last
  | Positional _ => []
  end.

Definition positional (it : item) : list str :=
  match it with Positional s => [s] | _ => [] end.

Definition run_item (w : world) (it : item) : world :=
  match it with
  | Positional s => (fs_set_args (args w.1 ++ [s]) w.1, w.2)
  | _ => foldl assign w (sets w it)
  end.

(** Names and letters that denote a flag of the set, with a value or not as
    the flag wants, and no text that reads as another item. *)
Definition denotes (w : world) (ml : option loc) (optional : option bool) : Prop :=
  ∃ l, ml = Some l ∧ (∀ b, optional = Some b → bool_decide (opt_value w l ≠ []) = b).

Definition long_ok (w : world) (n : str) (optional : option bool) : Prop :=
  "="%char ∉ n ∧ n ≠ [] ∧ head n ≠ Some "-"%char ∧ denotes w (Lookup w.1 n) optional.

Definition letter_ok (w : world) (optional : option bool) (c : ascii) : Prop :=
  c ≠ "-"%char ∧ c ≠ "="%char ∧ denotes w (map_index (shorthands w.1) c) optional.

Definition last_ok (w : world) (last : option (ascii * short_form * str)) : Prop :=
  match last with
  | None => True
  | Some (c, Joined, v) => letter_ok w (Some false) c ∧ v ≠ [] ∧ head v ≠ Some "="%char
  | Some (c, Equals, v) => letter_ok w None c ∧ v ≠ []
  | Some (c, Next, v) => letter_ok w (Some false) c
  end.

Definition item_ok (w : world) (it : item) : Prop :=
  match it with
  | LongEq n _ => long_ok w n None
  | LongArg n _ => long_ok w n (Some false)
  | LongOpt n => long_ok w n (Some true)
  | Shorts cs last =>
      Forall (letter_ok w (Some true)) cs ∧ last_ok w last ∧ cs ++ last_text last ≠ []
  | Positional s => length s ≤ 1 ∨ head s ≠ Some "-"%char
  end ∧
  Forall (λ a, fits w.2 a.1.1 a.1.2) (sets w it).

Definition fitsb (h : store) (l : loc) (value : str) : bool :=
  match flags h !! l with
  | Some fl =>
      match vars h !! Value fl with
      | Some v => match (var_Set v value).2 with None => true | Some _ => false end
      | None => false
      end
  | None => false
  end.

#[global] Instance fits_dec h l value : Decision (fits h l value).
Proof.
  refine (cast_if (decide (fitsb h l value = true))); unfold fits, fitsb in *.
  - destruct (flags h !! l) as [fl|]; [|done]. destruct (vars h !! Value fl) as [v|] eqn:Hv; [|done].
    exists fl, v. split_and!; [done..|]. by destruct ((var_Set v value).2).
  - intros (fl & v & Hfl & Hv & Hs). rewrite Hfl, Hv, Hs in *. done.
Defined.

Definition denotesb (w : world) (ml : option loc) (o : option bool) : bool :=
  match ml with
  | Some l => match o with Some b => eqb (bool_decide (opt_value w l ≠ [])) b | None => true end
  | None => false
  end.

#[global] Instance denotes_dec w ml o : Decision (denotes w ml o).
Proof.
  refine (cast_if (decide (denotesb w ml o = true))); unfold denotes, denotesb in *.
  - destruct ml as [l|]; [|done]. exists l. split; [done|]. intros b ->. by apply eqb_prop.
  - intros (l & -> & Ho). destruct o as [b|]; [|done]. by rewrite (Ho b), eqb_reflx in *.
Defined.

#[global] Instance last_ok_dec w last : Decision (last_ok w last).
Proof. unfold last_ok, letter_ok. destruct last as [[[c []] v]|]; apply _. Defined.

#[global] Instance item_ok_dec w it : Decision (item_ok w it).
Proof. unfold item_ok, long_ok, letter_ok. destruct it; apply _. Defined.

(** ** Static facts *)

Lemma static_opt_value w w' l : static w w' → opt_value w' l = opt_value w l.
Proof.
  intros Hs. unfold opt_value. destruct (flags w.2 !! l) as [fl|] eqn:Hl.
  - destruct (static_flag w w' l fl Hs Hl) as (fl' & -> & Hsame).
    by destruct (same_flag_fields _ _ Hsame) as (_ & _ & _ & -> & _).
  - assert (length (flags w'.2) = length (flags w.2)) as Hlen
      by (symmetry; by eapply Forall2_length, Hs).
    apply lookup_ge_None in Hl. by rewrite (proj2 (lookup_ge_None _ _)) by lia.
Qed.

Lemma static_Lookup w w' n : static w w' → Lookup w'.1 n = Lookup w.1 n.
Proof.
  intros Hs. unfold Lookup, lookup_flag. by rewrite (st_formal _ _ Hs), (static_normalize w w').
Qed.

Lemma static_letter_sets w w' cs tail : static w w' → letter_sets w' cs tail = letter_sets w cs tail.
Proof.
  intros Hs. induction cs as [|c cs IH]; [done|]. simpl.
  rewrite IH, (st_shorthands _ _ Hs). f_equal. destruct (map_index _ c); [|done].
  by rewrite (static_opt_value w w').
Qed.

Lemma static_sets w w' it : static w w' → sets w' it = sets w it.
Proof.
  intros Hs. destruct it as [n v|n v|n|cs last|s]; simpl; unfold long_sets;
    try (rewrite (static_Lookup w w') by done); try done.
  - destruct (Lookup w.1 n); [|done]. by rewrite (static_opt_value w w').
  - rewrite (static_letter_sets w w') by done. f_equal. unfold last_sets.
    by rewrite (st_shorthands _ _ Hs).
Qed.

Lemma static_fits w w' l value : static w w' → fits w.2 l value → fits w'.2 l value.
Proof.
  intros Hs (fl & v & Hl & Hv & Hset).
  destruct (static_flag w w' l fl Hs Hl) as (fl' & Hl' & Hsame).
  destruct (static_var w w' _ v Hs Hv) as (v' & Hv' & Ht).
  exists fl', v'. destruct (same_flag_fields _ _ Hsame) as (_ & _ & -> & _).
  split_and!; [done..|]. by destruct (var_Set_type v v' value Ht) as [_ <-].
Qed.

Lemma static_letter_ok w w' o c : static w w' → letter_ok w o c → letter_ok w' o c.
Proof.
  intros Hs (H1 & H2 & l & Hl & Ho). split_and!; [done..|]. exists l.
  rewrite (st_shorthands _ _ Hs), (static_opt_value w w') by done. done.
Qed.

Lemma static_long_ok w w' n o : static w w' → long_ok w n o → long_ok w' n o.
Proof.
  intros Hs (H1 & H2 & H3 & l & Hl & Ho). split_and!; [done..|]. exists l.
  rewrite (static_Lookup w w'), (static_opt_value w w') by done. done.
Qed.

Lemma static_item_ok w w' it : static w w' → item_ok w it → item_ok w' it.
Proof.
  intros Hs [Hit Hfit]. split.
  - destruct it as [n v|n v|n|cs last|s]; simpl in *; try by eapply static_long_ok.
    + destruct Hit as (Hcs & Hlast & Hne). split_and!; [|clear -Hs Hlast|done].
      * eapply Forall_impl; [|done]. intros c. by apply static_letter_ok.
      * destruct last as [[[c []] v]|]; simpl in *; try done;
          repeat match goal with H : _ ∧ _ |- _ => destruct H end; split_and?; try done;
          by eapply static_letter_ok.
    + done.
  - rewrite (static_sets w w') by done. eapply Forall_impl; [|done].
    intros a. by apply static_fits.
Qed.

(** ** Parsing an item *)

Lemma fits_flag (w : world) l value : fits w.2 l value → ∃ fl, flags w.2 !! l = Some fl ∧ opt_value w l = NoOptDefVal fl.
Proof. intros (fl & v & Hl & _). exists fl. unfold opt_value. by rewrite Hl. Qed.

(** The name of a long flag is not bad syntax. *)
Lemma parse_long_name (w : world) n t l :
  n ≠ [] → "="%char ∉ n → head n ≠ Some "-"%char → Lookup w.1 n = Some l →
  t = [] ∨ (∃ v, t = "="%char :: v) →
  ∃ c n', n ++ t = c :: n' ∧ ¬ (c = "-"%char ∨ c = "="%char) ∧
    split2 "="%char (n ++ t) = n :: match t with [] => [] | _ :: v => [v] end.
Proof.
  intros Hne Heq Hd Hl Ht. destruct n as [|c n]; [done|]. exists c, (n ++ t).
  split_and!; [done | | ].
  - intros [-> | ->]; [done|]. apply Heq. by left.
  - destruct Ht as [->|[v ->]]; [by rewrite app_nil_r, split2_none | by apply split2_app].
Qed.

Lemma parseLongArg_ok (w : world) n o t arguments a value l :
  long_ok w n o → t = [] ∨ (∃ v, t = "="%char :: v) → Lookup w.1 n = Some l →
  fits w.2 l value →
  match t with
  | _ :: v => value = v ∧ a = arguments
  | [] => if decide (opt_value w l = []) then arguments = value :: a
          else value = opt_value w l ∧ a = arguments
  end →
  parseLongArg (long (n ++ t)) arguments w =
  Return (assign w (l, value, long (n ++ t)), (a, None)).
Proof.
  intros (Heq & Hne & Hd & _) Ht Hl Hfit Hcase.
  destruct (parse_long_name w n t l) as (c & n' & Hn & Hc & Hsplit); try done.
  unfold parseLongArg. rewrite slice_bind by (unfold long; simpl; lia).
  change (drop 2 (long (n ++ t))) with (n ++ t). rewrite Hn. cbv beta iota.
  rewrite decide_False by done. rewrite get_set_bind, <- Hn, Hsplit. simpl (default _ _).
  unfold Lookup, lookup_flag in Hl. rewrite Hl.
  destruct (fits_flag w l value Hfit) as (fl & Hfl & Hopt). rewrite Hopt in Hcase.
  rewrite (read_flag_bind l fl) by done.
  pose proof (setFlag_fits w l value (long (n ++ t)) Hfit) as Hset.
  destruct t as [|c' v]; simpl (_ !! 1).
  - destruct (NoOptDefVal fl) as [|x y] eqn:Hno.
    + rewrite decide_True in Hcase by done. subst arguments. by rewrite (bind_Return _ _ _ _ _ Hset).
    + rewrite decide_False in Hcase by done. destruct Hcase as [-> ->].
      by rewrite (bind_Return _ _ _ _ _ Hset).
  - destruct Hcase as [-> ->]. by rewrite (bind_Return _ _ _ _ _ Hset).
Qed.

(** A pass of the loop over an argument that is a flag. *)
Lemma parse_args_long fuel n arguments a w w' :
  n ≠ [] → parseLongArg (long n) arguments w = Return (w', (a, None)) →
  parse_args (S fuel) (long n :: arguments) w = parse_args fuel a w'.
Proof.
  intros Hn Hp. unfold long at 1. cbn [parse_args]. rewrite decide_True by done.
  rewrite decide_False by (by intros [_ ?]). rewrite decide_True by done.
  by rewrite (bind_Return _ _ _ _ _ Hp).
Qed.

Lemma parse_args_short fuel c s arguments a w w' :
  c ≠ "-"%char → parseShortArg ("-"%char :: c :: s) arguments w = Return (w', (a, None)) →
  parse_args (S fuel) (("-"%char :: c :: s) :: arguments) w = parse_args fuel a w'.
Proof.
  intros Hc Hp. cbn [parse_args]. rewrite decide_True by done.
  rewrite decide_False by (by intros [? _]). rewrite (decide_False (P := c = _)) by done.
  by rewrite (bind_Return _ _ _ _ _ Hp).
Qed.

Lemma parse_args_positional fuel s arguments (w : world) :
  interspersed w.1 = true → length s ≤ 1 ∨ head s ≠ Some "-"%char →
  parse_args (S fuel) (s :: arguments) w = parse_args fuel arguments (run_item w (Positional s)).
Proof.
  intros Hi Hs.
  assert ((f ← get_set;
    if interspersed f then append_args [s];; parse_args fuel arguments
    else append_args [s];; append_args arguments;; mret None) w =
    parse_args fuel arguments (run_item w (Positional s))) as Hpos.
  { rewrite get_set_bind, Hi. done. }
  destruct s as [|c [|c' s']]; cbn [parse_args]; [apply Hpos..|].
  rewrite decide_False; [apply Hpos|]. intros ->. destruct Hs as [Hs|Hs]; [simpl in Hs; lia | done].
Qed.

Lemma single_letter w c rest arguments l :
  letter_ok w (Some true) c → map_index (shorthands w.1) c = Some l →
  head rest ≠ Some "="%char → fits w.2 l (opt_value w l) →
  parseSingleShortArg (c :: rest) arguments w =
  Return (assign w (l, opt_value w l, c :: rest), (rest, arguments, None)).
Proof.
  intros (_ & _ & l' & Hl' & Ho) Hl Hr Hfit. rewrite Hl in Hl'. injection Hl' as <-.
  specialize (Ho true eq_refl). apply bool_decide_eq_true in Ho.
  destruct (fits_flag w l _ Hfit) as (fl & Hfl & Hopt). unfold parseSingleShortArg.
  rewrite get_set_bind, Hl, (read_flag_bind l fl) by done.
  rewrite decide_False by (destruct rest; naive_solver).
  rewrite decide_True by (by rewrite <- Hopt). rewrite <- Hopt.
  by rewrite (bind_Return _ _ _ _ _ (setFlag_fits w l _ (c :: rest) Hfit)).
Qed.

Lemma parse_letters w cs tail arguments fuel :
  Forall (letter_ok w (Some true)) cs → head tail ≠ Some "="%char →
  Forall (λ a, fits w.2 a.1.1 a.1.2) (letter_sets w cs tail) →
  parse_shorts (length cs + fuel) (cs ++ tail) arguments arguments w =
  parse_shorts fuel tail arguments arguments (foldl assign w (letter_sets w cs tail)).
Proof.
  revert w. induction cs as [|c cs IH]; intros w Hcs Ht Hfit; [done|].
  apply Forall_cons_iff in Hcs as [Hc Hcs].
  pose proof Hc as (_ & _ & l & Hl & _). simpl in Hfit. rewrite Hl in Hfit.
  apply Forall_cons_iff in Hfit as [Hf Hfit]. simpl in Hf.
  cbn [length Nat.add app parse_shorts].
  rewrite (bind_Return _ _ _ _ _ (single_letter w c (cs ++ tail) arguments l Hc Hl
    ltac:(destruct cs as [|c' cs']; [done|]; apply Forall_cons_iff in Hcs as [(_ & ? & _) _]; simpl; congruence) Hf)).
  pose proof (assign_static w (l, opt_value w l, c :: cs ++ tail) Hf) as Hs.
  rewrite IH; [| |done|].
  - simpl letter_sets. rewrite Hl. by rewrite (static_letter_sets _ _ _ _ Hs).
  - eapply Forall_impl; [|done]. intros x. by apply static_letter_ok.
  - rewrite (static_letter_sets _ _ _ _ Hs). eapply Forall_impl; [|done].
    intros x. by apply static_fits.
Qed.

(** The last letter of a group. *)
Lemma single_last w c f v rest l :
  last_ok w (Some (c, f, v)) → map_index (shorthands w.1) c = Some l → fits w.2 l v →
  ∃ r, parseSingleShortArg (last_text (Some (c, f, v))) (last_args (Some (c, f, v)) ++ rest) w =
       Return (assign w (l, v, last_text (Some (c, f, v))), (r, rest, None)) ∧ r = [].
Proof.
  intros Hok Hl Hfit. destruct (fits_flag w l v Hfit) as (fl & Hfl & Hopt).
  pose proof (λ o, setFlag_fits w l v o Hfit) as Hset.
  assert (∀ o, letter_ok w o c → ∀ b, o = Some b → bool_decide (NoOptDefVal fl ≠ []) = b) as Hb.
  { intros o (_ & _ & l' & Hl' & Ho) b. rewrite Hl in Hl'. injection Hl' as <-.
    rewrite <- Hopt. apply Ho. }
  exists []. split; [|done]. unfold parseSingleShortArg.
  destruct f; cbn [last_text last_args app]; rewrite get_set_bind, Hl, (read_flag_bind l fl) by done.
  - destruct Hok as (Hc & Hne & Hhd). specialize (Hb _ Hc false eq_refl).
    apply bool_decide_eq_false in Hb.
    rewrite decide_False by (destruct v; naive_solver). rewrite (decide_False (P := _ ≠ [])) by done.
    rewrite decide_True by (destruct v; [done | simpl; lia]).
    by rewrite (bind_Return _ _ _ _ _ (Hset _)).
  - destruct Hok as (Hc & Hne). rewrite decide_True by (destruct v; [done | simpl; split; [lia | done]]).
    by rewrite (bind_Return _ _ _ _ _ (Hset _)).
  - specialize (Hb _ Hok false eq_refl). apply bool_decide_eq_false in Hb.
    rewrite decide_False by (intros [? _]; simpl in *; lia).
    rewrite (decide_False (P := _ ≠ [])) by done. rewrite decide_False by (simpl; lia).
    by rewrite (bind_Return _ _ _ _ _ (Hset _)).
Qed.

Lemma parse_last w last rest fuel :
  last_ok w last → Forall (λ a, fits w.2 a.1.1 a.1.2) (last_sets w last) →
  parse_shorts (length (last_text last) + fuel) (last_text last) (last_args last ++ rest)
    (last_args last ++ rest) w =
  Return (foldl assign w (last_sets w last), (rest, None)).
Proof.
  intros Hok Hfit. destruct last as [[[c f] v]|].
  - assert (∃ l, map_index (shorthands w.1) c = Some l) as [l Hl].
    { destruct f; simpl in Hok; unfold letter_ok, denotes in Hok; naive_solver. }
    unfold last_sets in *. rewrite Hl in *. apply Forall_cons_iff in Hfit as [Hf _].
    destruct (single_last w c f v rest l Hok Hl Hf) as (r & Hr & ->).
    assert (∃ s, last_text (Some (c, f, v)) = c :: s) as [s Hs] by (destruct f; by eexists).
    rewrite Hs in *. cbn [length Nat.add parse_shorts].
    rewrite (bind_Return _ _ _ _ _ Hr). by destruct (length s + fuel).
  - simpl. by destruct fuel.
Qed.

Lemma foldl_assign_static w l :
  Forall (λ a, fits w.2 a.1.1 a.1.2) l → static w (foldl assign w l).
Proof.
  revert w. induction l as [|a l IH]; intros w Hf; [apply static_refl|].
  apply Forall_cons_iff in Hf as [Ha Hl]. pose proof (assign_static w a Ha) as Hs.
  eapply static_trans; [done|]. apply IH. eapply Forall_impl; [|done].
  intros x. by apply static_fits.
Qed.

Lemma run_item_static w it : item_ok w it → static w (run_item w it).
Proof.
  intros [_ Hf]. destruct it; try by apply foldl_assign_static. simpl. by split.
Qed.

Lemma static_last_ok w w' last : static w w' → last_ok w last → last_ok w' last.
Proof.
  intros Hs Hlast. destruct last as [[[c []] v]|]; simpl in *; try done;
    repeat match goal with H : _ ∧ _ |- _ => destruct H end; split_and?; try done;
    by eapply static_letter_ok.
Qed.

Lemma static_last_sets w w' last : static w w' → last_sets w' last = last_sets w last.
Proof. intros Hs. unfold last_sets. by rewrite (st_shorthands _ _ Hs). Qed.

(** What follows a letter is not [=]. *)
Lemma last_text_head w last c : last_ok w last → head (last_text last) = Some c → c ≠ "-"%char ∧ c ≠ "="%char.
Proof.
  destruct last as [[[c' []] v]|]; simpl; [..|done]; intros Hl [= <-];
    unfold letter_ok, denotes in Hl; naive_solver.
Qed.

(** *** One pass of [parse_args] per item *)

Lemma parse_long_eq fuel w n v rest :
  item_ok w (LongEq n v) →
  parse_args (S fuel) (render (LongEq n v) ++ rest) w =
  parse_args fuel rest (run_item w (LongEq n v)).
Proof.
  intros [Hok Hfit]. pose proof Hok as (Heq & Hne & Hd & l & Hl & Ho). simpl in *.
  unfold long_sets in *. rewrite Hl in *. apply Forall_cons_iff in Hfit as [Hf _].
  apply parse_args_long; [by destruct n|].
  apply (parseLongArg_ok w n None); [done | right; by eexists | done..].
Qed.

(** A long flag without [=]: its value is the next argument, or optional. *)
Lemma parse_long_bare fuel w n o l value arguments a :
  long_ok w n o → Lookup w.1 n = Some l → fits w.2 l value →
  (if decide (opt_value w l = []) then arguments = value :: a
   else value = opt_value w l ∧ a = arguments) →
  parse_args (S fuel) (long n :: arguments) w =
  parse_args fuel a (assign w (l, value, long n)).
Proof.
  intros Hok Hl Hf Ha. apply parse_args_long; [by destruct Hok as (_ & ? & _)|].
  pose proof (parseLongArg_ok w n o [] arguments a value l Hok) as Hp.
  rewrite app_nil_r in Hp. by apply Hp; [left|..].
Qed.

Lemma parse_group fuel w cs last rest :
  item_ok w (Shorts cs last) →
  parse_args (S fuel) (render (Shorts cs last) ++ rest) w =
  parse_args fuel rest (run_item w (Shorts cs last)).
Proof.
  intros [(Hcs & Hlast & Hne) [Hf1 Hf2]%Forall_app].
  pose proof (foldl_assign_static _ _ Hf1) as Hs.
  assert (∃ c s, cs ++ last_text last = c :: s ∧ c ≠ "-"%char) as (c & s & Hcs' & Hc).
  { destruct cs as [|c cs]; simpl in *.
    - destruct (last_text last) as [|c s] eqn:Hl; [done|]. exists c, s. split; [done|].
      by apply (last_text_head w last); [|rewrite Hl].
    - apply Forall_cons_iff in Hcs as [(? & _) _]. by eexists _, _. }
  simpl. rewrite Hcs'. apply parse_args_short; [done|]. rewrite <- Hcs'.
  unfold parseShortArg. rewrite slice_bind by (simpl; lia).
  change (drop 1 ("-"%char :: cs ++ last_text last)) with (cs ++ last_text last).
  cbv beta. rewrite length_app, parse_letters; [|done| |done].
  - rewrite <- (Nat.add_0_r (length (last_text last))), parse_last.
    + by rewrite foldl_app, (static_last_sets _ _ _ Hs).
    + by apply (static_last_ok _ _ _ Hs).
    + rewrite (static_last_sets _ _ _ Hs). eapply Forall_impl; [|done].
      intros x. by apply static_fits.
  - intros Hh. by destruct (last_text_head _ _ _ Hlast Hh).
Qed.

Lemma parse_item fuel w it rest :
  interspersed w.1 = true → item_ok w it →
  parse_args (S fuel) (render it ++ rest) w = parse_args fuel rest (run_item w it).
Proof.
  intros Hi Hok. destruct it as [n v|n v|n|cs last|s].
  - by apply parse_long_eq.
  - destruct Hok as [Hok Hfit]. pose proof Hok as (_ & _ & _ & l & Hl & Ho). simpl in *.
    unfold long_sets in *. rewrite Hl in *. apply Forall_cons_iff in Hfit as [Hf _].
    specialize (Ho false eq_refl). apply bool_decide_eq_false in Ho.
    apply (parse_long_bare _ _ _ _ _ _ _ _ Hok Hl Hf).
    rewrite decide_True; [done | by apply dec_stable].
  - destruct Hok as [Hok Hfit]. pose proof Hok as (_ & _ & _ & l & Hl & Ho). simpl in *.
    unfold long_sets in *. rewrite Hl in *. apply Forall_cons_iff in Hfit as [Hf _].
    specialize (Ho true eq_refl). apply bool_decide_eq_true in Ho.
    apply (parse_long_bare _ _ _ _ _ _ _ _ Hok Hl Hf). by rewrite decide_False.
  - by apply parse_group.
  - apply parse_args_positional; [done | by apply Hok].
Qed.

Definition run (w : world) (its : list item) : world := foldl run_item w its.

Lemma run_static w its : Forall (item_ok w) its → static w (run w its).
Proof.
  revert w. induction its as [|it its IH]; intros w Hits; [apply static_refl|].
  apply Forall_cons_iff in Hits as [Hit Hits]. pose proof (run_item_static w it Hit) as Hs.
  eapply static_trans; [done|]. apply IH. eapply Forall_impl; [|done].
  intros x. by apply static_item_ok.
Qed.

(** The loop reads the items in turn, one pass for each. *)
Lemma parse_items fuel w its rest :
  interspersed w.1 = true → Forall (item_ok w) its →
  parse_args (length its + fuel) (concat (render <$> its) ++ rest) w =
  parse_args fuel rest (run w its).
Proof.
  revert w. induction its as [|it its IH]; intros w Hi Hits; [done|].
  apply Forall_cons_iff in Hits as [Hit Hits]. pose proof (run_item_static w it Hit) as Hs.
  cbn [length Nat.add]. rewrite fmap_cons. cbn [concat]. rewrite <- app_assoc.
  rewrite parse_item by done. apply IH; [by rewrite (st_interspersed _ _ Hs)|].
  eapply Forall_impl; [|done]. intros x. by apply static_item_ok.
Qed.

Lemma length_render its : length its ≤ length (concat (render <$> its)).
Proof.
  induction its as [|it its IH]; [done|]. rewrite fmap_cons. cbn [concat].
  rewrite length_app. destruct it; simpl; lia.
Qed.

(** ** What a command line leaves *)

(** The texts assigned to a variable by a list of assignments. *)
Definition writes_to (w : world) (p : loc) (a : loc * str * str) : option str :=
  match flags w.2 !! a.1.1 with
  | Some fl => if decide (Value fl = p) then Some a.1.2 else None
  | None => None
  end.

Definition set_all (v : Var) (texts : list str) : Var := foldl (λ v s, (var_Set v s).1) v texts.

Definition assigned (w : world) (its : list item) (p : loc) : list str :=
  omap (writes_to w p) (concat (sets w <$> its)).

Lemma static_writes_to w w' p a : static w w' → writes_to w' p a = writes_to w p a.
Proof.
  intros Hs. unfold writes_to. destruct (flags w.2 !! a.1.1) as [fl|] eqn:Hl.
  - destruct (static_flag w w' _ fl Hs Hl) as (fl' & -> & Hsame).
    by destruct (same_flag_fields _ _ Hsame) as (_ & _ & -> & _).
  - apply lookup_ge_None in Hl. rewrite (proj2 (lookup_ge_None _ _)); [done|].
    assert (length (flags w'.2) = length (flags w.2)) as ->
      by (symmetry; by eapply Forall2_length, Hs). done.
Qed.

Lemma vars_assign w a p v :
  vars w.2 !! p = Some v →
  vars (assign w a).2 !! p = Some (set_all v (option_list (writes_to w p a))).
Proof.
  intros Hp. destruct a as [[l s] o]. unfold assign, writes_to. simpl.
  destruct (flags w.2 !! l) as [fl|]; [|done]. simpl. rewrite list_lookup_alter.
  case_decide as Hv; [by rewrite Hv, Hp | done].
Qed.

Lemma set_all_app v l k : set_all v (l ++ k) = set_all (set_all v l) k.
Proof. apply foldl_app. Qed.

Lemma vars_assigns w l p v :
  Forall (λ a, fits w.2 a.1.1 a.1.2) l → vars w.2 !! p = Some v →
  vars (foldl assign w l).2 !! p = Some (set_all v (omap (writes_to w p) l)).
Proof.
  revert w v. induction l as [|a l IH]; intros w v Hf Hp; [done|].
  apply Forall_cons_iff in Hf as [Ha Hl]. pose proof (assign_static w a Ha) as Hs.
  cbn [foldl]. rewrite (IH _ (set_all v (option_list (writes_to w p a)))).
  - rewrite <- set_all_app. do 2 f_equal. simpl.
    rewrite (list_omap_ext (writes_to (assign w a) p) (writes_to w p) l l).
    + by destruct (writes_to w p a).
    + apply Forall2_same_length_lookup. split; [done|]. intros i x y Hx Hy.
      rewrite Hx in Hy. injection Hy as <-. by apply static_writes_to.
  - eapply Forall_impl; [|done]. intros x. by apply static_fits.
  - by apply vars_assign.
Qed.

Lemma run_item_sets w it :
  (run_item w it).2 = (foldl assign w (sets w it)).2 ∧
  actual (run_item w it).1 = actual (foldl assign w (sets w it)).1.
Proof. by destruct it. Qed.

Lemma assigns_args w l : args (foldl assign w l).1 = args w.1.
Proof.
  revert w. induction l as [|[[l s] o] t IH]; intros w; [done|]. cbn [foldl]. rewrite IH.
  unfold assign. by destruct (flags w.2 !! l).
Qed.

Lemma run_args w its : args (run w its).1 = args w.1 ++ concat (positional <$> its).
Proof.
  revert w. induction its as [|it its IH]; intros w; [by rewrite app_nil_r|].
  unfold run in *. cbn [foldl]. rewrite IH, fmap_cons. cbn [concat]. rewrite app_assoc.
  f_equal. destruct it; simpl; rewrite ?assigns_args, ?app_nil_r; done.
Qed.

Lemma static_assigned w w' its p : static w w' → assigned w' its p = assigned w its p.
Proof.
  intros Hs. unfold assigned.
  assert (sets w' <$> its = sets w <$> its) as ->.
  { apply list_fmap_ext. intros i it _. by apply static_sets. }
  apply list_omap_ext, Forall2_same_length_lookup. split; [done|]. intros i x y Hx Hy.
  rewrite Hx in Hy. injection Hy as <-. by apply static_writes_to.
Qed.

Lemma run_vars w its p v :
  Forall (item_ok w) its → vars w.2 !! p = Some v →
  vars (run w its).2 !! p = Some (set_all v (assigned w its p)).
Proof.
  revert w v. induction its as [|it its IH]; intros w v Hits Hp; [done|].
  apply Forall_cons_iff in Hits as [Hit Hits]. pose proof (run_item_static w it Hit) as Hs.
  unfold run in *. cbn [foldl]. rewrite (IH _ (set_all v (omap (writes_to w p) (sets w it)))).
  - rewrite <- set_all_app, (static_assigned _ _ _ _ Hs). unfold assigned.
    rewrite fmap_cons. cbn [concat]. by rewrite omap_app.
  - eapply Forall_impl; [|done]. intros x. by apply static_item_ok.
  - destruct (run_item_sets w it) as [-> _]. apply vars_assigns; [apply Hit | done].
Qed.

(** The flags marked as set. *)
Lemma actual_assign w a n l :
  wf w → known w a.1.1 → fits w.2 a.1.1 a.1.2 →
  map_index (actual (assign w a).1) n = Some l ↔
  map_index (actual w.1) n = Some l ∨ (map_index (formal w.1) n = Some l ∧ l = a.1.1).
Proof.
  intros Hwf [m Hm] (fl & v & Hfl & _). destruct a as [[l' s] o]. simpl in *. unfold assign.
  rewrite Hfl. simpl. destruct (wf_formal _ Hwf m l' Hm) as (fl' & [Hfl' _] & Hname & Hnorm).
  rewrite Hfl in Hfl'. injection Hfl' as <-. rewrite Hname, Hnorm.
  assert (∀ k, default ∅ (actual w.1) !! k = map_index (actual w.1) k) as Hd
    by (intros k; unfold map_index; by destruct (actual w.1)).
  rewrite lookup_insert. case_decide as Hmn.
  - subst n. split; [intros [= <-]; by right|]. intros [Ha|[_ ->]]; [|done].
    destruct (wf_actual _ Hwf m l Ha) as [Hf _]. congruence.
  - rewrite Hd. split; [by left|]. intros [Ha|[Hf ->]]; [done|].
    destruct (wf_formal _ Hwf n l' Hf) as (fl' & [Hfl' _] & Hname' & _). congruence.
Qed.

Lemma actual_assigns w l n k :
  wf w → Forall (λ a, known w a.1.1 ∧ fits w.2 a.1.1 a.1.2) l →
  wf (foldl assign w l) ∧
  (map_index (actual (foldl assign w l).1) n = Some k ↔
   map_index (actual w.1) n = Some k ∨ (map_index (formal w.1) n = Some k ∧ k ∈ l.*1.*1)).
Proof.
  revert w. induction l as [|a l IH]; intros w Hwf Hl; [split; [done | set_solver]|].
  apply Forall_cons_iff in Hl as [[Hk Hf] Hl]. pose proof (assign_static w a Hf) as Hs.
  destruct (IH (assign w a)) as [Hwf' Hiff].
  - by apply assign_wf.
  - eapply Forall_impl; [|done]. intros x [Hkx Hfx]. split; [|by eapply static_fits].
    destruct Hkx as [m Hm]. exists m. by rewrite (st_formal _ _ Hs).
  - split; [done|]. cbn [foldl]. rewrite Hiff, actual_assign, (st_formal _ _ Hs) by done.
    rewrite !fmap_cons, elem_of_cons. tauto.
Qed.

Lemma sets_known w it : wf w → Forall (λ a, known w a.1.1) (sets w it).
Proof.
  intros Hwf. assert (∀ n value o, Forall (λ a, known w a.1.1) (long_sets w n value o)) as Hlong.
  { intros n value o. unfold long_sets. destruct (Lookup w.1 n) eqn:Hl; [|done].
    constructor; [|done]. by eexists. }
  assert (∀ c l, map_index (shorthands w.1) c = Some l → known w l) as Hshort.
  { intros c l Hl. destruct (wf_short _ Hwf c l Hl) as (fl & _ & _ & Hf). by eexists. }
  destruct it as [n v|n v|n|cs last|s]; simpl; [apply Hlong..| |done].
  apply Forall_app. split.
  - induction cs as [|c cs IH]; [done|]. simpl. apply Forall_app. split; [|done].
    destruct (map_index _ c) eqn:Hc; [|done]. constructor; [by eapply Hshort | done].
  - destruct last as [[[c f] v]|]; [|done]. simpl.
    destruct (map_index _ c) eqn:Hc; [|done]. constructor; [by eapply Hshort | done].
Qed.

Lemma run_item_wf w it n k :
  wf w → item_ok w it →
  wf (run_item w it) ∧
  (map_index (actual (run_item w it).1) n = Some k ↔
   map_index (actual w.1) n = Some k ∨
   (map_index (formal w.1) n = Some k ∧ k ∈ (sets w it).*1.*1)).
Proof.
  intros Hwf Hit. destruct (actual_assigns w (sets w it) n k Hwf) as [H1 H2].
  { apply Forall_and; [by apply sets_known | apply Hit]. }
  destruct (run_item_sets w it) as [_ ->]. split; [|done].
  destruct it; try done. by destruct (wf_args w (args w.1 ++ [s]) (parsed w.1) w.2).
Qed.

Lemma run_wf w its n k :
  wf w → Forall (item_ok w) its →
  wf (run w its) ∧
  (map_index (actual (run w its).1) n = Some k ↔
   map_index (actual w.1) n = Some k ∨
   (map_index (formal w.1) n = Some k ∧ k ∈ (concat (sets w <$> its)).*1.*1)).
Proof.
  revert w. induction its as [|it its IH]; intros w Hwf Hits.
  { split; [done|]. simpl. set_solver. }
  apply Forall_cons_iff in Hits as [Hit Hits]. pose proof (run_item_static w it Hit) as Hs.
  destruct (run_item_wf w it n k Hwf Hit) as [Hwf' Hiff].
  destruct (IH (run_item w it) Hwf') as [H1 H2].
  { eapply Forall_impl; [|done]. intros x. by apply static_item_ok. }
  split; [done|]. unfold run in *. cbn [foldl]. rewrite H2, Hiff, (st_formal _ _ Hs).
  assert (sets (run_item w it) <$> its = sets w <$> its) as ->.
  { apply list_fmap_ext. intros i x _. by apply static_sets. }
  rewrite fmap_cons. cbn [concat]. rewrite !fmap_app, elem_of_app. tauto.
Qed.

(** ** Properties of [Parse] *)

(** The state [Parse] starts its loop from. *)
Definition start (w : world) : world := (fs_set_args [] (fs_set_parsed true w.1), w.2).

Lemma start_static w : static w (start w).
Proof. by split. Qed.

Lemma Parse_start w arguments :
  Parse arguments w =
  (err ← parseArgs arguments;
   f ← get_set;
   match err with
   | None => mret None
   | Some e =>
       match errorHandling f with
       | ContinueOnError => mret (Some e)
       | ExitOnError => mfatal "os.Exit(2)"
       | PanicOnError => mpanic "flag error"
       end
   end) (start w).
Proof. done. Qed.

Lemma Parse_run w its :
  interspersed w.1 = true → Forall (item_ok w) its →
  Parse (concat (render <$> its)) w = Return (run (start w) its, None).
Proof.
  intros Hi Hits. rewrite Parse_start.
  rewrite (bind_Return _ _ _ (run (start w) its) None); [done|]. unfold parseArgs.
  pose proof (length_render its) as Hlen.
  replace (length (concat _)) with (length its + (length (concat (render <$> its)) - length its)) by lia.
  rewrite <- (app_nil_r (concat (render <$> its))) at 2.
  rewrite parse_items; [|done|].
  - by destruct (_ - _).
  - eapply Forall_impl; [|done]. intros it. apply static_item_ok, start_static.
Qed.

(** C8: parsing inverts writing a command line: whatever the items, [Parse]
    of their text reports no error, leaves the non-flag arguments in order,
    every variable with the texts of its flags assigned in order (so the last
    one wins), and as set exactly the flags set before or named. *)
Theorem Parse_items w its :
  wf w → interspersed w.1 = true → Forall (item_ok w) its →
  ∃ w', Parse (concat (render <$> its)) w = Return (w', None) ∧ wf w' ∧
    args w'.1 = concat (positional <$> its) ∧
    (∀ p v, vars w.2 !! p = Some v → vars w'.2 !! p = Some (set_all v (assigned w its p))) ∧
    (∀ n l, map_index (actual w'.1) n = Some l ↔
       map_index (actual w.1) n = Some l ∨
       (map_index (formal w.1) n = Some l ∧ l ∈ (concat (sets w <$> its)).*1.*1)).
Proof.
  intros Hwf Hi Hits. exists (run (start w) its).
  assert (Forall (item_ok (start w)) its) as Hits'.
  { eapply Forall_impl; [|done]. intros it. apply static_item_ok, start_static. }
  assert (wf (start w)) as Hwf' by (by apply wf_args).
  split_and!; [by apply Parse_run | by apply (run_wf (start w) its [] 0) | apply run_args | |].
  - intros p v Hp. rewrite <- (static_assigned _ _ its p (start_static w)).
    by apply run_vars.
  - intros n l. destruct (run_wf (start w) its n l Hwf' Hits') as [_ ->]. simpl.
    assert (sets (start w) <$> its = sets w <$> its) as ->; [|done].
    apply list_fmap_ext. intros i it _. apply static_sets, start_static.
Qed.

(** [failf] changes nothing but the messages. *)
Lemma failf_eq e w : ∃ o, failf e w = Return ((w.1, mkStore (flags w.2) (vars w.2) o), e).
Proof.
  destruct (fs_Usage w.1) eqn:Hu; eexists; unfold failf, usage, mbind, M_bind, emit, get_set;
    simpl; rewrite Hu; reflexivity.
Qed.

Lemma parseLongArg_unknown (w : world) n t arguments :
  "="%char ∉ n → n ≠ [] → head n ≠ Some "-"%char → t = [] ∨ (∃ v, t = "="%char :: v) →
  Lookup w.1 n = None → n ≠ lit "help" →
  ∃ o, parseLongArg (long (n ++ t)) arguments w =
    Return ((w.1, mkStore (flags w.2) (vars w.2) o), (arguments, Some (UnknownFlag n))).
Proof.
  intros Heq Hne Hd Ht Hn Hhelp. destruct (failf_eq (UnknownFlag n) w) as [o Ho]. exists o.
  assert (split2 "="%char (n ++ t) !! 0 = Some n) as Hsp.
  { destruct Ht as [->|[v ->]]; [by rewrite app_nil_r, split2_none | by rewrite split2_app]. }
  unfold parseLongArg. rewrite slice_bind by (unfold long; simpl; lia).
  change (drop 2 (long (n ++ t))) with (n ++ t).
  destruct (n ++ t) as [|c n'] eqn:Hnt; [by destruct n|].
  rewrite Hsp. simpl (default _ _). rewrite decide_False.
  - rewrite get_set_bind. unfold Lookup, lookup_flag in Hn. rewrite Hn, decide_False by done.
    by rewrite (bind_Return _ _ _ _ _ Ho).
  - destruct n as [|c0 n0]; [done|]. injection Hnt as -> _.
    intros [->| ->]; [done | apply Heq; by left].
Qed.

Lemma Parse_unknown w its n t rest :
  interspersed w.1 = true → errorHandling w.1 = ContinueOnError → Forall (item_ok w) its →
  "="%char ∉ n → n ≠ [] → head n ≠ Some "-"%char → t = [] ∨ (∃ v, t = "="%char :: v) →
  Lookup w.1 n = None → n ≠ lit "help" →
  ∃ o, Parse (concat (render <$> its) ++ long (n ++ t) :: rest) w =
    Return (((run (start w) its).1,
             mkStore (flags (run (start w) its).2) (vars (run (start w) its).2) o),
            Some (UnknownFlag n)).
Proof.
  intros Hi He Hits Heq Hne Hd Ht Hn Hhelp. rewrite Parse_start.
  assert (Forall (item_ok (start w)) its) as Hits'.
  { eapply Forall_impl; [|done]. intros it. apply static_item_ok, start_static. }
  assert (static w (run (start w) its)) as Hs
    by (eapply static_trans; [apply start_static | by apply run_static]).
  rewrite <- (static_Lookup _ _ n Hs) in Hn.
  destruct (parseLongArg_unknown _ n t rest Heq Hne Hd Ht Hn Hhelp) as [o Ho].
  exists o. erewrite (bind_Return _ _ (start w) (_, mkStore _ _ o) (Some (UnknownFlag n)));
    [rewrite get_set_bind; simpl; by rewrite (st_errorHandling _ _ Hs), He|].
  unfold parseArgs. pose proof (length_render its) as Hlen. rewrite length_app.
  replace (length (concat (render <$> its)) + length (long (n ++ t) :: rest)) with
    (length its + S (length (concat (render <$> its)) - length its + length rest))
    by (simpl; lia).
  rewrite parse_items by done. unfold long at 1. cbn [parse_args].
  rewrite decide_True by done. rewrite decide_False by (intros [_ ?]; by destruct n).
  rewrite decide_True by done. by rewrite (bind_Return _ _ _ _ _ Ho).
Qed.

(** parsing stops at the first flag the set does not know: the items
    before it have been performed, nothing after it is looked at, and the
    error is printed with the usage and returned. *)
Theorem Parse_unknown_flag w its n t rest :
  interspersed w.1 = true → errorHandling w.1 = ContinueOnError → Forall (item_ok w) its →
  "="%char ∉ n → n ≠ [] → head n ≠ Some "-"%char → t = [] ∨ (∃ v, t = "="%char :: v) →
  Lookup w.1 n = None → n ≠ lit "help" →
  ∃ o, Parse (concat (render <$> its) ++ long (n ++ t) :: rest) w =
    Return (((run (start w) its).1,
             mkStore (flags (run (start w) its).2) (vars (run (start w) its).2) o),
            Some (UnknownFlag n)).
Proof. intros. by apply Parse_unknown. Qed.

(** [Parse] of a set that continues on errors returns, whatever the
    arguments: every pass of its loops consumes input, no slice is out of
    range and no nil flag is met; the invariant is kept, and nothing of the
    definitions of the flags has changed. *)
Theorem Parse_returns w arguments :
  wf w → errorHandling w.1 = ContinueOnError →
  ∃ w' e, Parse arguments w = Return (w', e) ∧ wf w' ∧ static w w'.
Proof.
  intros Hwf He. destruct (runs_Parse w arguments Hwf He) as (w' & e & HP & [[? ?] _]).
  by exists w', e.
Qed.

(** ** Properties of the definition of flags *)

(** The definitions that panic: a name or a shorthand that is taken, or a
    shorthand of several bytes. *)
Definition redefines (w : world) (name sh : str) : bool :=
  match Lookup w.1 name with
  | Some _ => true
  | None =>
      match sh with
      | [] => false
      | [c] => match map_index (shorthands w.1) c with Some _ => true | None => false end
      | _ => true
      end
  end.

Definition defined_flag (w : world) (p : loc) (name sh usage : str) (v : Var) : Flag :=
  mkFlag (normalizeFlagName w.1 name) sh usage p (var_String v) false [] [] [] None.

Definition define (w : world) (p : loc) (name sh usage : str) (v : Var) : world :=
  let l := length (flags w.2) in
  let f := fs_set_formal (Some (<[normalizeFlagName w.1 name := l]> (default ∅ (formal w.1)))) w.1 in
  (match sh with
   | [c] => fs_set_shorthands (Some (<[c := l]> (default ∅ (shorthands w.1)))) f
   | _ => f
   end,
   mkStore (flags w.2 ++ [defined_flag w p name sh usage v]) (vars w.2) (out w.2)).

Lemma map_index_insert `{Countable K} {V} (m : option (gmap K V)) k v k' :
  map_index (Some (<[k := v]> (default ∅ m))) k' = if decide (k = k') then Some v else map_index m k'.
Proof.
  simpl. rewrite lookup_insert. case_decide; [done|]. by destruct m.
Qed.

Lemma new_flag_bind {B} fl (k : loc → M B) w :
  (new_flag fl ≫= k) w = k (length (flags w.2)) (w.1, mkStore (flags w.2 ++ [fl]) (vars w.2) (out w.2)).
Proof. by apply bind_Return. Qed.

Lemma VarPF_define w p v name sh usage :
  vars w.2 !! p = Some v → redefines w name sh = false →
  VarPF p name sh usage w = Return (define w p name sh usage v, length (flags w.2)).
Proof.
  intros Hv Hr. unfold VarPF. rewrite (read_var_bind p v) by done. rewrite new_flag_bind.
  rewrite (bind_Return _ _ _ (define w p name sh usage v) ()); [done|]. unfold AddFlag. rewrite get_set_bind.
  rewrite (read_flag_bind _ (mkFlag name sh usage p (var_String v) false [] [] [] None))
    by apply list_lookup_middle, eq_refl. cbn [Name Shorthand fst].
  unfold redefines, Lookup, lookup_flag in Hr.
  destruct (map_index (formal w.1) _); [done|].
  unfold modify_flag at 1. erewrite bind_Return
    by (simpl; rewrite list_lookup_middle by done; reflexivity).
  erewrite bind_Return by done. cbn [fst snd flags vars out].
  rewrite insert_app_r_alt, Nat.sub_diag by lia. simpl (<[0:=_]> _).
  unfold define, defined_flag, fl_set_Name. simpl.
  destruct sh as [|c [|c' sh]]; [done| |done].
  by destruct (map_index (shorthands w.1) c).
Qed.

Lemma AddFlag_panics w m :
  wf w → redefines w (Name m) (Shorthand m) = true →
  ∃ why, AddFlag (length (flags w.2)) (w.1, mkStore (flags w.2 ++ [m]) (vars w.2) (out w.2)) =
    Panic why.
Proof.
  intros Hwf Hr. unfold AddFlag. rewrite get_set_bind.
  rewrite (read_flag_bind _ m) by apply list_lookup_middle, eq_refl. cbn [fst].
  unfold redefines, Lookup, lookup_flag in Hr.
  destruct (map_index (formal w.1) _); [by eexists|].
  unfold modify_flag at 1. erewrite bind_Return
    by (simpl; rewrite list_lookup_middle by done; reflexivity).
  erewrite bind_Return by done. cbn [fst snd flags vars out].
  destruct (Shorthand m) as [|c [|c' sh]]; [done| |by eexists].
  destruct (map_index (shorthands w.1) c) as [old|] eqn:Hold; [|done].
  destruct (wf_short _ Hwf c old Hold) as (ofl & [Hofl _] & _).
  erewrite read_flag_bind; [by eexists|]. simpl. apply lookup_lt_Some in Hofl as Hlt.
  rewrite list_lookup_insert_ne by lia. by rewrite lookup_app_l.
Qed.

Lemma VarPF_panics w p v name sh usage :
  wf w → vars w.2 !! p = Some v → redefines w name sh = true →
  ∃ why, VarPF p name sh usage w = Panic why.
Proof.
  intros Hwf Hv Hr. unfold VarPF. rewrite (read_var_bind p v) by done. rewrite new_flag_bind.
  destruct (AddFlag_panics w (mkFlag name sh usage p (var_String v) false [] [] [] None) Hwf Hr)
    as [why Hw].
  exists why. unfold mbind at 1, M_bind at 1. by rewrite Hw.
Qed.

Lemma define_wf w p v name sh usage :
  wf w → vars w.2 !! p = Some v → redefines w name sh = false →
  (∀ n, normalizeFlagName w.1 (normalizeFlagName w.1 n) = normalizeFlagName w.1 n) →
  wf (define w p name sh usage v).
Proof.
  intros Hwf Hv Hr Hnorm. set (l := length (flags w.2)).
  assert (∀ l' fl, valid_flag w.2 l' fl → valid_flag (define w p name sh usage v).2 l' fl) as Hkeep.
  { intros l' fl [H1 H2]. split; [|done]. simpl. by apply lookup_app_l_Some. }
  assert (valid_flag (define w p name sh usage v).2 l (defined_flag w p name sh usage v)) as Hnew.
  { split; [by apply list_lookup_middle | by exists v]. }
  assert (∀ n, normalizeFlagName (define w p name sh usage v).1 n = normalizeFlagName w.1 n) as Hn
    by (intros n; by destruct sh as [|? []]).
  assert (∀ n, map_index (formal (define w p name sh usage v).1) n =
    if decide (normalizeFlagName w.1 name = n) then Some l else map_index (formal w.1) n) as Hf.
  { intros n. rewrite <- map_index_insert. by destruct sh as [|? []]. }
  assert (map_index (formal w.1) (normalizeFlagName w.1 name) = None) as Hnone.
  { unfold redefines, Lookup, lookup_flag in Hr. by destruct (map_index (formal w.1) _). }
  split.
  - intros n l'. rewrite Hf, Hn. case_decide as Hd.
    + intros [= <-]. subst n. by eexists.
    + intros Hl. destruct (wf_formal _ Hwf n l' Hl) as (fl & ? & ? & ?). by eauto.
  - intros c l' Hc.
    assert ((sh = [c] ∧ l' = l) ∨ map_index (shorthands w.1) c = Some l') as [[-> ->]|Hold].
    { destruct sh as [|c0 [|]]; [by right| |by right]. simpl shorthands in Hc.
      rewrite map_index_insert in Hc. case_decide; [left; naive_solver | by right]. }
    + exists (defined_flag w p name [c] usage v). split_and!; [done..|].
      rewrite Hf. by rewrite decide_True.
    + destruct (wf_short _ Hwf c l' Hold) as (fl & ? & ? & Hfn). exists fl.
      split_and!; [by apply Hkeep | done |]. rewrite Hf, decide_False; [done|]. congruence.
  - intros n l' Ha.
    assert (map_index (actual w.1) n = Some l') as Ha' by (by destruct sh as [|? []]).
    destruct (wf_actual _ Hwf n l' Ha') as (Hfn & fl & Hfl & Hch). split.
    + rewrite Hf, decide_False; [done|]. congruence.
    + exists fl. split; [|done]. simpl. by apply lookup_app_l_Some.
Qed.

(** defining a flag: a name or shorthand that is taken, or a shorthand of
    several bytes, panics; otherwise the flag is found under its name with
    the value's current text as its default, every other name and every
    variable is what it was, and the invariant is kept. *)
Theorem VarPF_spec w p v name sh usage :
  wf w → vars w.2 !! p = Some v →
  (∀ n, normalizeFlagName w.1 (normalizeFlagName w.1 n) = normalizeFlagName w.1 n) →
  if redefines w name sh then ∃ why, VarPF p name sh usage w = Panic why
  else ∃ w' l, VarPF p name sh usage w = Return (w', l) ∧ wf w' ∧
    flags w'.2 !! l = Some (defined_flag w p name sh usage v) ∧
    Lookup w'.1 name = Some l ∧
    (∀ n, normalizeFlagName w.1 n ≠ normalizeFlagName w.1 name → Lookup w'.1 n = Lookup w.1 n) ∧
    vars w'.2 = vars w.2.
Proof.
  intros Hwf Hv Hnorm. destruct (redefines w name sh) eqn:Hr; [by eapply VarPF_panics|].
  exists (define w p name sh usage v), (length (flags w.2)).
  assert (∀ n, Lookup (define w p name sh usage v).1 n =
    if decide (normalizeFlagName w.1 name = normalizeFlagName w.1 n)
    then Some (length (flags w.2)) else Lookup w.1 n) as HL.
  { intros n. unfold Lookup, lookup_flag. rewrite <- map_index_insert. by destruct sh as [|? []]. }
  split_and!; [by apply VarPF_define | by apply define_wf | by apply list_lookup_middle | | |done].
  - by rewrite HL, decide_True.
  - intros n Hn. by rewrite HL, decide_False.
Qed.

(** Changing the descriptive fields of a flag keeps the invariant. *)
Lemma modify_wf w l fl g :
  wf w → flags w.2 !! l = Some fl →
  Name (g fl) = Name fl → Shorthand (g fl) = Shorthand fl → Value (g fl) = Value fl →
  Changed (g fl) = Changed fl →
  wf (w.1, mkStore (<[l := g fl]> (flags w.2)) (vars w.2) (out w.2)).
Proof.
  intros Hwf Hl Hn Hs Hv Hc.
  assert (∀ l' fl', flags w.2 !! l' = Some fl' →
    ∃ fl'', <[l := g fl]> (flags w.2) !! l' = Some fl'' ∧ Name fl'' = Name fl' ∧
      Shorthand fl'' = Shorthand fl' ∧ Value fl'' = Value fl' ∧ Changed fl'' = Changed fl') as Hk.
  { intros l' fl' Hl'. destruct (decide (l = l')) as [<-|Hne].
    - exists (g fl). rewrite Hl in Hl'. injection Hl' as <-.
      split; [|done]. apply list_lookup_insert_eq. by eapply lookup_lt_Some.
    - exists fl'. by rewrite list_lookup_insert_ne. }
  split; simpl.
  - intros n l' Hf. destruct (wf_formal _ Hwf n l' Hf) as (fl' & [Hl' [v Hval]] & Hname & Hnorm).
    destruct (Hk l' fl' Hl') as (fl'' & H1 & H2 & H3 & H4 & H5). exists fl''.
    split; [split; [done | rewrite H4; by exists v]|]. split; [congruence | done].
  - intros c l' Hf. destruct (wf_short _ Hwf c l' Hf) as (fl' & [Hl' [v Hval]] & Hsh & Hform).
    destruct (Hk l' fl' Hl') as (fl'' & H1 & H2 & H3 & H4 & H5). exists fl''.
    split; [split; [done | rewrite H4; by exists v]|]. split; congruence.
  - intros n l' Ha. destruct (wf_actual _ Hwf n l' Ha) as (Hf & fl' & Hl' & Hch).
    split; [done|]. destruct (Hk l' fl' Hl') as (fl'' & ? & ? & ? & ? & ?).
    exists fl''. split; congruence.
Qed.

(** ** Witnesses

    A set with [--name] ([-n]), [--port] ([-p]) and the boolean [--verbose]
    ([-v]). *)

Definition demo_0 : world :=
  (NewFlagSet "demo" ContinueOnError, mkStore [] [StringVar []; IntVar 0; BoolVar false] []).
Definition demo_1 : world := define demo_0 0 "name" "n" [] (StringVar []).
Definition demo_2 : world := define demo_1 1 "port" "p" [] (IntVar 0).
Definition demo_3 : world := define demo_2 2 "verbose" "v" [] (BoolVar false).
Definition demo_verbose : Flag :=
  fl_set_NoOptDefVal "true" (defined_flag demo_2 2 "verbose" "v" [] (BoolVar false)).
Definition demo_flags : world :=
  (demo_3.1, mkStore (<[2 := demo_verbose]> (flags demo_3.2)) (vars demo_3.2) (out demo_3.2)).

Lemma demo_0_wf : wf demo_0.
Proof. by split. Qed.

Lemma demo_wf : wf demo_flags.
Proof.
  apply (modify_wf demo_3 2 (defined_flag demo_2 2 "verbose" "v" [] (BoolVar false))
    (fl_set_NoOptDefVal "true")); [|done..].
  repeat (apply define_wf; [|done..]). apply demo_0_wf.
Qed.

Definition demo_items : list item :=
  [Positional "tool"; LongEq "name" "a=b"; LongArg "port" "0x50"; LongOpt "verbose";
   Shorts "v" (Some ("p"%char, Joined, lit "81")); Positional "-"].

Lemma demo_items_ok : Forall (item_ok demo_flags) demo_items.
Proof. apply (bool_decide_unpack _). vm_compute. exact I. Qed.

(** The command line
    [tool --name=a=b --port 0x50 --verbose -vp81 -]: the last port wins. *)
Lemma Parse_items_witness :
  ∃ w', Parse (concat (render <$> demo_items)) demo_flags = Return (w', None) ∧
    args w'.1 = [lit "tool"; lit "-"] ∧
    vars w'.2 !! 1 = Some (IntVar 81).
Proof.
  destruct (Parse_items demo_flags demo_items demo_wf eq_refl demo_items_ok)
    as (w' & HP & _ & Ha & Hv & _).
  exists w'. split_and!; [exact HP | exact Ha |]. rewrite (Hv 1 (IntVar 0) eq_refl).
  vm_compute. reflexivity.
Defined.

Lemma Parse_unknown_flag_witness :
  ∃ w', Parse [lit "--port=1"; lit "--server=x"; lit "--port=2"] demo_flags =
    Return (w', Some (UnknownFlag "server")) ∧ vars w'.2 !! 1 = Some (IntVar 1).
Proof.
  destruct (Parse_unknown_flag demo_flags [LongEq "port" "1"] "server" "=x" [lit "--port=2"])
    as [o Ho]; try done.
  - apply (bool_decide_unpack _). vm_compute. exact I.
  - by apply (bool_decide_unpack _).
  - right. by exists (lit "x").
  - eexists. split; [exact Ho|]. vm_compute. reflexivity.
Defined.

Lemma Parse_returns_witness :
  ∃ w' e, Parse [lit "-x"; lit "--port"] demo_flags = Return (w', e) ∧ wf w'.
Proof.
  destruct (Parse_returns demo_flags [lit "-x"; lit "--port"] demo_wf eq_refl)
    as (w' & e & H1 & H2 & _).
  by exists w', e.
Defined.

Lemma VarPF_spec_witness :
  (∃ why, VarPF 0 "port" [] [] demo_flags = Panic why) ∧
  ∃ w' l, VarPF 0 "cert" "c" [] demo_flags = Return (w', l) ∧ Lookup w'.1 "cert" = Some l.
Proof.
  split.
  - exact (VarPF_spec demo_flags 0 (StringVar []) "port" [] [] demo_wf eq_refl (λ _, eq_refl)).
  - destruct (VarPF_spec demo_flags 0 (StringVar []) "cert" "c" [] demo_wf eq_refl (λ _, eq_refl))
      as (w' & l & H1 & _ & _ & H2 & _).
    by exists w', l.
Defined.
