(* ===== verification/KubeFlags.v ===== *)
(** * The client's command-line flags (clientcmd/overrides.go, kubectl's factory.go)

    [DefaultClientConfig] defines the flags that override the client's
    configuration ([--kubeconfig], [--server], [--user], ...) on the flag set
    of a tool.  The variables the flags write are the fields of a
    [ConfigOverrides]: here a record of locations of the store, of which
    [read_overrides] reads the values. *)

From S2P Require Import Prelude GoStr KubeTypes Pflag.

Local Open Scope go_scope.

(** [FlagInfo], and the structures of flag names. *)
Record FlagInfo := mkFlagInfo {
  LongName : str;
  ShortName : str;
  Default : str;
  Description : str
}.

Record AuthOverrideFlags := {
  af_ClientCertificate : FlagInfo;
  af_ClientKey : FlagInfo;
  af_Token : FlagInfo;
  af_Username : FlagInfo;
  af_Password : FlagInfo
}.

Record ContextOverrideFlags := {
  cf_ClusterName : FlagInfo;
  cf_AuthInfoName : FlagInfo;
  cf_Namespace : FlagInfo
}.

Record ClusterOverrideFlags := {
  uf_APIServer : FlagInfo;
  uf_APIVersion : FlagInfo;
  uf_CertificateAuthority : FlagInfo;
  uf_InsecureSkipTLSVerify : FlagInfo
}.

Record ConfigOverrideFlags := {
  of_Auth : AuthOverrideFlags;
  of_Cluster : ClusterOverrideFlags;
  of_Context : ContextOverrideFlags;
  of_CurrentContext : FlagInfo
}.

(** The fields of [ConfigOverrides] the flags write, as a record of anything:
    locations, or the values read from them. *)
Record Overrides (S B : Type) := mkOverrides {
  ov_ClientCertificate : S;
  ov_ClientKey : S;
  ov_Token : S;
  ov_Username : S;
  ov_Password : S;
  ov_Server : S;
  ov_APIVersion : S;
  ov_CertificateAuthority : S;
  ov_InsecureSkipTLSVerify : B;
  ov_Cluster : S;
  ov_AuthInfo : S;
  ov_Namespace : S;
  ov_CurrentContext : S
}.
Arguments mkOverrides {S B}.
Arguments ov_ClientCertificate {S B}.
Arguments ov_ClientKey {S B}.
Arguments ov_Token {S B}.
Arguments ov_Username {S B}.
Arguments ov_Password {S B}.
Arguments ov_Server {S B}.
Arguments ov_APIVersion {S B}.
Arguments ov_CertificateAuthority {S B}.
Arguments ov_InsecureSkipTLSVerify {S B}.
Arguments ov_Cluster {S B}.
Arguments ov_AuthInfo {S B}.
Arguments ov_Namespace {S B}.
Arguments ov_CurrentContext {S B}.

(** [BindStringFlag] and [BindBoolFlag]. *)
Definition BindStringFlag (f : FlagInfo) (target : loc) : M unit :=
  if decide (LongName f = []) then mret ()
  else StringVarP target (LongName f) (ShortName f) (Default f) (Description f).

Definition BindBoolFlag (f : FlagInfo) (target : loc) : M unit :=
  if decide (LongName f = []) then mret ()
  else
    let boolVal := match parse_bool (Default f) with (b, None) => b | (_, Some _) => false end in
    BoolVarP target (LongName f) (ShortName f) boolVal (Description f).

(** The recommended names. *)
Definition RecommendedAuthOverrideFlags (prefix : str) : AuthOverrideFlags := {|
  af_ClientCertificate := mkFlagInfo (prefix ++ lit "client-certificate") [] []
    "Path to a client key file for TLS.";
  af_ClientKey := mkFlagInfo (prefix ++ lit "client-key") [] []
    "Path to a client key file for TLS.";
  af_Token := mkFlagInfo (prefix ++ lit "token") [] []
    "Bearer token for authentication to the API server.";
  af_Username := mkFlagInfo (prefix ++ lit "username") [] []
    "Username for basic authentication to the API server.";
  af_Password := mkFlagInfo (prefix ++ lit "password") [] []
    "Password for basic authentication to the API server."
|}.

Definition RecommendedClusterOverrideFlags (prefix : str) : ClusterOverrideFlags := {|
  uf_APIServer := mkFlagInfo (prefix ++ lit "server") [] []
    "The address and port of the Kubernetes API server";
  uf_APIVersion := mkFlagInfo (prefix ++ lit "api-version") [] []
    "The API version to use when talking to the server";
  uf_CertificateAuthority := mkFlagInfo (prefix ++ lit "certificate-authority") [] []
    "Path to a cert. file for the certificate authority.";
  uf_InsecureSkipTLSVerify := mkFlagInfo (prefix ++ lit "insecure-skip-tls-verify") [] "false"
    "If true, the server's certificate will not be checked for validity. This will make your HTTPS connections insecure."
|}.

Definition RecommendedContextOverrideFlags (prefix : str) : ContextOverrideFlags := {|
  cf_ClusterName := mkFlagInfo (prefix ++ lit "cluster") [] []
    "The name of the kubeconfig cluster to use";
  cf_AuthInfoName := mkFlagInfo (prefix ++ lit "user") [] []
    "The name of the kubeconfig user to use";
  cf_Namespace := mkFlagInfo (prefix ++ lit "namespace") [] []
    "If present, the namespace scope for this CLI request."
|}.

Definition RecommendedConfigOverrideFlags (prefix : str) : ConfigOverrideFlags := {|
  of_Auth := RecommendedAuthOverrideFlags prefix;
  of_Cluster := RecommendedClusterOverrideFlags prefix;
  of_Context := RecommendedContextOverrideFlags prefix;
  of_CurrentContext := mkFlagInfo (prefix ++ lit "context") [] []
    "The name of the kubeconfig context to use"
|}.

(** [BindAuthInfoFlags], [BindClusterFlags], [BindContextFlags] and
    [BindOverrideFlags]. *)
Definition BindAuthInfoFlags (o : Overrides loc loc) (names : AuthOverrideFlags) : M unit :=
  BindStringFlag (af_ClientCertificate names) (ov_ClientCertificate o);;
  BindStringFlag (af_ClientKey names) (ov_ClientKey o);;
  BindStringFlag (af_Token names) (ov_Token o);;
  BindStringFlag (af_Username names) (ov_Username o);;
  BindStringFlag (af_Password names) (ov_Password o).

Definition BindClusterFlags (o : Overrides loc loc) (names : ClusterOverrideFlags) : M unit :=
  BindStringFlag (uf_APIServer names) (ov_Server o);;
  BindStringFlag (uf_APIVersion names) (ov_APIVersion o);;
  BindStringFlag (uf_CertificateAuthority names) (ov_CertificateAuthority o);;
  BindBoolFlag (uf_InsecureSkipTLSVerify names) (ov_InsecureSkipTLSVerify o).

Definition BindContextFlags (o : Overrides loc loc) (names : ContextOverrideFlags) : M unit :=
  BindStringFlag (cf_ClusterName names) (ov_Cluster o);;
  BindStringFlag (cf_AuthInfoName names) (ov_AuthInfo o);;
  BindStringFlag (cf_Namespace names) (ov_Namespace o).

Definition BindOverrideFlags (o : Overrides loc loc) (names : ConfigOverrideFlags) : M unit :=
  BindAuthInfoFlags o (of_Auth names);;
  BindClusterFlags o (of_Cluster names);;
  BindContextFlags o (of_Context names);;
  BindStringFlag (of_CurrentContext names) (ov_CurrentContext o).

(** [&clientcmd.ConfigOverrides{}]: new variables with their zero values. *)
Definition new_overrides : M (Overrides loc loc) :=
  cc ← new_var (StringVar []); ck ← new_var (StringVar []); tk ← new_var (StringVar []);
  us ← new_var (StringVar []); pw ← new_var (StringVar []); sv ← new_var (StringVar []);
  av ← new_var (StringVar []); ca ← new_var (StringVar []); sk ← new_var (BoolVar false);
  cl ← new_var (StringVar []); ai ← new_var (StringVar []); ns ← new_var (StringVar []);
  cx ← new_var (StringVar []);
  mret (mkOverrides cc ck tk us pw sv av ca sk cl ai ns cx).

(** [DefaultClientConfig]: the locations of the explicit path and of the
    overrides, which the client's configuration is loaded from. *)
Definition with_short_server (names : ConfigOverrideFlags) : ConfigOverrideFlags :=
  let c := of_Cluster names in
  {| of_Auth := of_Auth names;
     of_Cluster := {|
       uf_APIServer := mkFlagInfo (LongName (uf_APIServer c)) "s" (Default (uf_APIServer c))
         (Description (uf_APIServer c));
       uf_APIVersion := uf_APIVersion c;
       uf_CertificateAuthority := uf_CertificateAuthority c;
       uf_InsecureSkipTLSVerify := uf_InsecureSkipTLSVerify c |};
     of_Context := of_Context names;
     of_CurrentContext := of_CurrentContext names |}.

Definition DefaultClientConfig : M (loc * Overrides loc loc) :=
  explicitPath ← new_var (StringVar []);
  StringVarP explicitPath "kubeconfig" [] [] "Path to the kubeconfig file to use for CLI requests.";;
  overrides ← new_overrides;
  let flagNames := with_short_server (RecommendedConfigOverrideFlags []) in
  BindOverrideFlags overrides flagNames;;
  mret (explicitPath, overrides).

(** Reading a variable through a typed pointer. *)
Definition read_string (p : loc) : M str :=
  v ← read_var p; match v with StringVar s => mret s | _ => mpanic "not a string" end.
Definition read_int (p : loc) : M Z :=
  v ← read_var p; match v with IntVar z => mret z | _ => mpanic "not an int" end.
Definition read_bool (p : loc) : M bool :=
  v ← read_var p; match v with BoolVar b => mret b | _ => mpanic "not a bool" end.

Definition read_overrides (o : Overrides loc loc) : M (Overrides str bool) :=
  cc ← read_string (ov_ClientCertificate o); ck ← read_string (ov_ClientKey o);
  tk ← read_string (ov_Token o); us ← read_string (ov_Username o);
  pw ← read_string (ov_Password o); sv ← read_string (ov_Server o);
  av ← read_string (ov_APIVersion o); ca ← read_string (ov_CertificateAuthority o);
  sk ← read_bool (ov_InsecureSkipTLSVerify o); cl ← read_string (ov_Cluster o);
  ai ← read_string (ov_AuthInfo o); ns ← read_string (ov_Namespace o);
  cx ← read_string (ov_CurrentContext o);
  mret (mkOverrides cc ck tk us pw sv av ca sk cl ai ns cx).

(** No override: the zero value of [ConfigOverrides]. *)
Definition no_overrides : Overrides str bool :=
  mkOverrides [] [] [] [] [] [] [] [] false [] [] [] [].
