(* ===== verification/UpdateTool.v ===== *)
(** * The tool that adds a receiver to an Ingress (hack/receivers/update.go)

    The program parses its arguments, builds a client, and calls [Update] and
    [Get] of the receivers.  Loading the client's configuration and dialling
    are parameters: what is loaded depends on the explicit path and the
    overrides, the variables of the flags that [DefaultClientConfig] defines. *)

From S2P Require Import Prelude GoStr KubeTypes IngressApi Receivers Pflag KubeFlags.

Local Open Scope go_scope.

(** The package variables: the flag set and the variables of its flags. *)
Record settings := mkSettings {
  st_host : loc;
  st_port : loc;
  st_cert : loc;
  st_ing : loc
}.

Definition new_world : world := (NewFlagSet [] ContinueOnError, mkStore [] [] []).

Definition init_flags : M settings :=
  host ← String_ "host" [] "Hostname.";
  port ← Int_ "port" 0 "Port number.";
  cert ← String_ "cert" [] "Name of secret.";
  ingress ← String_ "ing" [] "Namespace/Name of ingress.";
  mret (mkSettings host port cert ingress).

(** The arguments as [main] reads them: an error of [Parse] is ignored. *)
Record arguments := mkArguments {
  arg_host : str;
  arg_port : Z;
  arg_cert : str;
  arg_ing : str
}.

Definition read_arguments (st : settings) (osArgs : list str) : M arguments :=
  Parse osArgs;;
  port ← read_int (st_port st);
  cert ← read_string (st_cert st);
  host ← read_string (st_host st);
  ingress ← read_string (st_ing st);
  mret (mkArguments host port cert ingress).

(** The checks of [main] before it connects: the namespace, the name and the
    receiver. *)
Definition check_arguments (a : arguments) : control (str * str * Receiver) :=
  if decide (arg_port a = 0%Z ∨ arg_cert a = [] ∨ arg_host a = [] ∨ arg_ing a = [])
  then Fatal "Need more information to add receiver."
  else
    match split "/" (arg_ing a) with
    | [ingNamespace; ingName] =>
        Return (ingNamespace, ingName, mkReceiver (arg_host a) (arg_port a) (arg_cert a))
    | _ => Fatal "--ingress should take the form namespace/name."
    end.

Section main.
Context {Srv E : Type} `{!IngressAPI Srv E} `{!ReceiverCodec}.
(** Loading the configuration and creating the client: whether it succeeds,
    given the explicit path and the overrides. *)
Context {CErr : Type}.
Variable (connect : str → Overrides str bool → result CErr ()).

(** [glog.Fatalf] ends the process; the server keeps its state. *)
Inductive outcome :=
  | Done (receivers : list Receiver)
  | Died (msg : str)
  | ClientFailed (e : CErr)
  | CallFailed (e : error E)
  | Panicked (why : str).

(** From the connection on. *)
Definition update_and_get (ns name : str) (rec : Receiver) (srv : Srv) : Srv * outcome :=
  match Update name ns rec srv with
  | Panic why => ((api_get ns name srv).1, Panicked why)
  | Fatal msg => (srv, Died msg)
  | Return (srv, Err e) => (srv, CallFailed e)
  | Return (srv, Ok _) =>
      let '(srv, (receivers, err)) := Get name ns srv in
      match err with
      | Some e => (srv, CallFailed e)
      | None => (srv, Done receivers)
      end
  end.

Definition main (osArgs : list str) (srv : Srv) : Srv * outcome :=
  match (st ← init_flags; read_arguments st osArgs) new_world with
  | Panic why => (srv, Panicked why)
  | Fatal msg => (srv, Died msg)
  | Return (w, a) =>
      match check_arguments a with
      | Panic why => (srv, Panicked why)
      | Fatal msg => (srv, Died msg)
      | Return (ns, name, rec) =>
          match ('(path, o) ← DefaultClientConfig;
                 path ← read_string path;
                 o ← read_overrides o;
                 mret (path, o)) w with
          | Panic why => (srv, Panicked why)
          | Fatal msg => (srv, Died msg)
          | Return (_, (path, o)) =>
              match connect path o with
              | Err e => (srv, ClientFailed e)
              | Ok _ => update_and_get ns name rec srv
              end
          end
      end
  end.
End main.
