(* ===== verification/UpdateToolSpec.v ===== *)
(** * Properties of the update tool (hack/receivers/update.go)

    What a command line makes of the tool: the last value of each flag, the
    checks, one [Update] and one [Get]; and what it cannot do: the client's
    own flags are defined after the arguments were parsed. *)

From S2P Require Import Prelude GoStr KubeTypes IngressApi Receivers ReceiverJson ReceiversSpec.
From S2P Require Import Pflag PflagSpec KubeFlags UpdateTool.

Local Open Scope go_scope.

(** ** The flag set of the tool *)

Definition tool_settings : settings := mkSettings 0 1 2 3.

Definition tool_world : world :=
  let d := λ w p n u v, define w p n [] u v in
  let vs := [StringVar []; IntVar 0; StringVar []; StringVar []] in
  let w0 := (new_world.1, mkStore [] vs []) in
  let w1 := d w0 0 (lit "host") (lit "Hostname.") (StringVar []) in
  let w2 := d w1 1 (lit "port") (lit "Port number.") (IntVar 0) in
  let w3 := d w2 2 (lit "cert") (lit "Name of secret.") (StringVar []) in
  d w3 3 (lit "ing") (lit "Namespace/Name of ingress.") (StringVar []).

Lemma init_flags_eq : init_flags new_world = Return (tool_world, tool_settings).
Proof. vm_compute. reflexivity. Qed.

Lemma tool_wf : wf tool_world.
Proof. repeat (apply define_wf; [|first [done | by vm_compute]..]). by split. Qed.

(** ** Defining the client's flags *)

(** The names and shorthands a set has, when it does not translate names. *)
Definition names (w : world) (L : list str) (C : list ascii) : Prop :=
  normalizeNameFunc w.1 = None ∧
  (∀ n, is_Some (map_index (formal w.1) n) ↔ n ∈ L) ∧
  (∀ c, is_Some (map_index (shorthands w.1) c) ↔ c ∈ C).

Lemma names_redefines w L C n sh :
  names w L C → n ∉ L → length sh ≤ 1 → Forall (λ c, c ∉ C) sh → redefines w n sh = false.
Proof.
  intros (Hn & HL & HC) Hnl Hsh Hc. unfold redefines, Lookup, lookup_flag, normalizeFlagName.
  rewrite Hn. destruct (map_index (formal w.1) n) eqn:Hf.
  - destruct Hnl. apply HL. by eexists.
  - destruct sh as [|c [|]]; [done| |simpl in Hsh; lia].
    destruct (map_index (shorthands w.1) c) eqn:Hs; [|done].
    apply Forall_cons_iff in Hc as [Hc _]. destruct Hc. apply HC. by eexists.
Qed.

Lemma names_define w L C p n sh u v :
  names w L C → length sh ≤ 1 → names (define w p n sh u v) (n :: L) (sh ++ C).
Proof.
  intros (Hn & HL & HC) Hsh. split_and!.
  - by destruct sh as [|c []].
  - intros m. assert (formal (define w p n sh u v).1 =
      Some (<[n := length (flags w.2)]> (default ∅ (formal w.1)))) as ->.
    { unfold define, normalizeFlagName. rewrite Hn. by destruct sh as [|c []]. }
    rewrite map_index_insert, elem_of_cons, <- HL. case_decide; naive_solver.
  - intros c. destruct sh as [|c0 [|]]; [apply HC| |simpl in Hsh; lia].
    simpl (shorthands _). rewrite map_index_insert. simpl. rewrite elem_of_cons, <- HC.
    case_decide; naive_solver.
Qed.

(** What a chain of definitions leaves: the variables, and the names so far. *)
Definition bound (vs : list Var) (L : list str) (C : list ascii) (w : world) : Prop :=
  vars w.2 = vs ∧ names w L C.

Lemma runs_VarPF w p v n sh u L C :
  vars w.2 !! p = Some v → n ∉ L → length sh ≤ 1 → Forall (λ c, c ∉ C) sh → names w L C →
  runs w (VarPF p n sh u) (λ w' l, bound (vars w.2) (n :: L) (sh ++ C) w' ∧ is_Some (flags w'.2 !! l)).
Proof.
  intros Hv Hn Hsh Hc HN. exists (define w p n sh u v), (length (flags w.2)). split.
  - apply VarPF_define; [done|]. by eapply names_redefines.
  - split; [split; [done | by apply names_define]|].
    simpl. rewrite list_lookup_middle by done. by eexists.
Qed.

Lemma runs_StringVarP vs w p n sh d u L C :
  bound vs L C w → vs !! p = Some (StringVar d) →
  n ∉ L → length sh ≤ 1 → Forall (λ c, c ∉ C) sh →
  runs w (StringVarP p n sh d u) (λ w' _, bound vs (n :: L) (sh ++ C) w').
Proof.
  intros [<- HN] Hp Hn Hsh Hc. unfold StringVarP, VarP, runs. rewrite write_var_bind by (by eexists).
  rewrite (list_insert_id _ _ _ Hp).
  destruct (runs_VarPF (w.1, mkStore (flags w.2) (vars w.2) (out w.2)) p (StringVar d)
    n sh u L C) as (w' & l & Hw & Hb & _); try done.
  exists w', (). by rewrite (bind_Return _ _ _ _ _ Hw).
Qed.

Lemma runs_BindStringFlag vs w f p L C :
  bound vs L C w → LongName f ≠ [] → vs !! p = Some (StringVar (Default f)) →
  LongName f ∉ L → length (ShortName f) ≤ 1 → Forall (λ c, c ∉ C) (ShortName f) →
  runs w (BindStringFlag f p) (λ w' _, bound vs (LongName f :: L) (ShortName f ++ C) w').
Proof.
  intros Hb Hne Hp Hn Hsh Hc. unfold BindStringFlag. rewrite decide_False by done.
  by apply runs_StringVarP.
Qed.

Lemma runs_BindBoolFlag vs w f p L C :
  bound vs L C w → LongName f ≠ [] → Default f = lit "false" → vs !! p = Some (BoolVar false) →
  LongName f ∉ L → length (ShortName f) ≤ 1 → Forall (λ c, c ∉ C) (ShortName f) →
  runs w (BindBoolFlag f p) (λ w' _, bound vs (LongName f :: L) (ShortName f ++ C) w').
Proof.
  intros [<- HN] Hne Hd Hp Hn Hsh Hc. unfold BindBoolFlag, BoolVarP. rewrite decide_False by done.
  rewrite Hd. change (parse_bool (lit "false")) with (false, None : option num_error).
  cbv beta iota zeta. unfold runs. rewrite write_var_bind by (by eexists).
  rewrite (list_insert_id _ _ _ Hp).
  destruct (runs_VarPF (w.1, mkStore (flags w.2) (vars w.2) (out w.2)) p (BoolVar false)
    (LongName f) (ShortName f) (Description f) L C) as (w' & l & Hw & [Hv HN'] & [fl Hfl]); try done.
  rewrite (bind_Return _ _ _ _ _ Hw). unfold modify_flag. rewrite Hfl.
  eexists _, (). split; [done|]. by split.
Qed.

Lemma runs_new_var {B} (w : world) v (k : loc → M B) Q :
  runs (w.1, mkStore (flags w.2) (vars w.2 ++ [v]) (out w.2)) (k (length (vars w.2))) Q →
  runs w (new_var v ≫= k) Q.
Proof. done. Qed.

(** One more flag of the chain: its name is new, and its variable holds the
    default. *)
Lemma bound_bind {B} w vs L C L' C' (m : M ()) (k : () → M B) Q :
  bound vs L C w →
  (bound vs L C w → runs w m (λ w' _, bound vs L' C' w')) →
  (∀ w', bound vs L' C' w' → runs w' (k ()) Q) →
  runs w (m ≫= k) Q.
Proof.
  intros Hb Hm Hk. eapply runs_bind; [by apply Hm|]. intros w' [] Hb'. by apply Hk.
Qed.

Ltac by_names :=
  first [reflexivity | apply (bool_decide_unpack _); vm_compute; exact I].

Ltac bind_flag :=
  eapply bound_bind; [eassumption | |];
  [ let Hb := fresh in intros Hb;
    first [eapply runs_BindStringFlag | eapply runs_BindBoolFlag | eapply runs_StringVarP];
    [exact Hb | by_names ..]
  | let w := fresh "w" in let Hb := fresh "Hb" in intros w Hb; cbv beta ].

Definition tool_names : list str := [lit "ing"; lit "cert"; lit "port"; lit "host"].

Lemma names_new : names (new_world.1, mkStore [] [StringVar []; IntVar 0; StringVar []; StringVar []] []) [] [].
Proof.
  split_and!; [done | intros n | intros c]; simpl; rewrite elem_of_nil;
    (split; [by intros [? ?] | done]).
Qed.

Lemma tool_names_ok w : static tool_world w → names w tool_names [].
Proof.
  intros Hs. assert (names tool_world tool_names []) as (H1 & H2 & H3).
  { repeat (apply (names_define _ _ []); [|simpl; lia]). apply names_new. }
  split_and!; [by rewrite (st_normalize _ _ Hs) | ..]; intros x.
  - by rewrite (st_formal _ _ Hs).
  - by rewrite (st_shorthands _ _ Hs).
Qed.

Definition client_vars : list Var :=
  replicate 9 (StringVar []) ++ [BoolVar false] ++ replicate 4 (StringVar []).

Lemma runs_assoc {A B C} (w : world) (m : M A) (k : A → M B) (h : B → M C) Q :
  runs w (m ≫= λ x, k x ≫= h) Q → runs w ((m ≫= k) ≫= h) Q.
Proof. unfold runs, mbind, M_bind. by destruct (m w) as [[w' a]| |]. Qed.

Ltac reassoc :=
  repeat lazymatch goal with |- runs _ (mbind _ (mbind _ _)) _ => apply runs_assoc end.

Definition client_overrides : Overrides loc loc := mkOverrides 5 6 7 8 9 10 11 12 13 14 15 16 17.

Lemma runs_new_overrides w v0 v1 v2 v3 L C :
  bound [v0; v1; v2; v3; StringVar []] L C w →
  runs w new_overrides (λ w' o,
    bound ([v0; v1; v2; v3] ++ client_vars) L C w' ∧ o = client_overrides).
Proof.
  destruct w as [f [fl vs o]]. intros [Hv HN]. simpl in Hv. subst vs.
  unfold new_overrides. do 13 (apply runs_new_var; cbn [vars snd fst flags out length app]).
  by apply runs_ret.
Qed.

Lemma runs_DefaultClientConfig f fl v0 v1 v2 v3 o :
  names (f, mkStore fl [v0; v1; v2; v3] o) tool_names [] →
  runs (f, mkStore fl [v0; v1; v2; v3] o) DefaultClientConfig
    (λ w' r, vars w'.2 = [v0; v1; v2; v3] ++ client_vars ∧ r = (4, client_overrides)).
Proof.
  intros HN. unfold DefaultClientConfig. apply runs_new_var. cbn [vars snd fst flags out length app].
  assert (bound [v0; v1; v2; v3; StringVar []] tool_names []
    (f, mkStore fl [v0; v1; v2; v3; StringVar []] o)) as Hb by done.
  bind_flag. eapply runs_bind; [by apply runs_new_overrides|]. intros w1 ov [Hb1 ->]; [].
  clear w Hb0. unfold BindOverrideFlags, BindAuthInfoFlags, BindClusterFlags, BindContextFlags.
  do 13 (reassoc; bind_flag).
  apply runs_ret. split; [|done]. lazymatch goal with H : bound _ _ _ ?w |- vars (?w).2 = _ => exact (proj1 H) end.
Qed.

(** The flags of the client are new on the set, whatever was parsed before:
    every override has its default. *)
Lemma runs_overrides w :
  static tool_world w →
  runs w ('(path, o) ← DefaultClientConfig;
          path ← read_string path;
          o ← read_overrides o;
          mret (path, o)) (λ _ r, r = ([], no_overrides)).
Proof.
  intros Hs. pose proof (tool_names_ok w Hs) as HN.
  assert (length (vars w.2) = 4) as Hlen
    by (symmetry; change 4 with (length (vars tool_world.2)); by eapply Forall2_length, Hs).
  destruct w as [f [fl vs o]]. simpl in Hlen.
  destruct vs as [|v0 [|v1 [|v2 [|v3 [|]]]]]; try done.
  eapply runs_bind; [by apply runs_DefaultClientConfig|].
  intros [f' [fl' vs' o']] r [Hvs ->]; simpl in Hvs. subst vs'.
  eexists _, _. split; [|reflexivity]. vm_compute. reflexivity.
Qed.

(** ** The command line of the tool *)

Definition string_of (v : Var) : str := match v with StringVar s => s | _ => [] end.
Definition int_of (v : Var) : Z := match v with IntVar z => z | _ => 0%Z end.

(** The arguments a list of items stands for: the last text of each flag, or
    the default. *)
Definition arguments_of (its : list item) : arguments :=
  let val p v := set_all v (assigned tool_world its p) in
  mkArguments (string_of (val 0 (StringVar []))) (int_of (val 1 (IntVar 0)))
    (string_of (val 2 (StringVar []))) (string_of (val 3 (StringVar []))).

Lemma set_all_type v texts : same_type v (set_all v texts).
Proof.
  revert v. induction texts as [|s texts IH]; intros v; [done|]. simpl.
  etrans; [|apply IH]. symmetry. by apply (var_Set_type v v s).
Qed.

(** The variables of the tool's flags keep their types. *)
Lemma read_typed w p v v0 :
  vars w.2 !! p = Some v → same_type v0 v →
  match v0 with
  | StringVar _ => read_string p w = Return (w, string_of v)
  | IntVar _ => read_int p w = Return (w, int_of v)
  | BoolVar _ => True
  end.
Proof.
  intros Hp Ht. destruct v0, v; try done; unfold read_string, read_int;
    by rewrite (read_var_bind _ _ _ _ Hp).
Qed.

Definition arguments_at (w : world) : arguments :=
  let val p := default (StringVar []) (vars w.2 !! p) in
  mkArguments (string_of (val 0)) (int_of (val 1)) (string_of (val 2)) (string_of (val 3)).

Lemma read_arguments_eq w w' e osArgs :
  static tool_world w' → Parse osArgs w = Return (w', e) →
  read_arguments tool_settings osArgs w = Return (w', arguments_at w').
Proof.
  intros Hs HP. unfold read_arguments. rewrite (bind_Return _ _ _ _ _ HP).
  assert (∀ p v0, vars tool_world.2 !! p = Some v0 → ∃ v, vars w'.2 !! p = Some v ∧ same_type v0 v) as Hv.
  { intros p v0. by apply static_var. }
  destruct (Hv 0 (StringVar []) eq_refl) as (h & Hh & Th).
  destruct (Hv 1 (IntVar 0) eq_refl) as (po & Hpo & Tpo).
  destruct (Hv 2 (StringVar []) eq_refl) as (c & Hc & Tc).
  destruct (Hv 3 (StringVar []) eq_refl) as (i & Hi & Ti).
  unfold arguments_at. rewrite Hh, Hpo, Hc, Hi. simpl.
  rewrite (bind_Return _ _ _ _ _ (read_typed _ _ _ _ Hpo Tpo)).
  rewrite (bind_Return _ _ _ _ _ (read_typed _ _ _ _ Hc Tc)).
  rewrite (bind_Return _ _ _ _ _ (read_typed _ _ _ _ Hh Th)).
  by rewrite (bind_Return _ _ _ _ _ (read_typed _ _ _ _ Hi Ti)).
Qed.

Definition receiver_of (a : arguments) : Receiver :=
  mkReceiver (arg_host a) (arg_port a) (arg_cert a).

Section properties.
Context {Srv E : Type} `{!IngressAPI Srv E} `{!ReceiverCodec} {CErr : Type}.
Implicit Types (connect : str → Overrides str bool → result CErr ()) (srv : Srv).

(** What [main] does with the arguments it read. *)
Definition act connect (a : arguments) srv : Srv * outcome (E := E) (CErr := CErr) :=
  match check_arguments a with
  | Panic why => (srv, Panicked why)
  | Fatal msg => (srv, Died msg)
  | Return (ns, name, rec) =>
      match connect [] no_overrides with
      | Err e => (srv, ClientFailed e)
      | Ok _ => update_and_get ns name rec srv
      end
  end.

Lemma main_act connect osArgs srv w e :
  static tool_world w → Parse osArgs tool_world = Return (w, e) →
  main connect osArgs srv = act connect (arguments_at w) srv.
Proof.
  intros Hs HP. unfold main, act. rewrite (bind_Return _ _ _ _ _ init_flags_eq).
  rewrite (read_arguments_eq _ _ _ _ Hs HP).
  destruct (check_arguments (arguments_at w)) as [[[ns name] rec]| |]; [|done..].
  destruct (runs_overrides w Hs) as (w' & r & Hw & ->). rewrite Hw. done.
Qed.

(** The arguments after the items of a command line. *)
Lemma arguments_at_run its :
  Forall (item_ok tool_world) its →
  arguments_at (run (start tool_world) its) = arguments_of its.
Proof.
  intros Hits. assert (Forall (item_ok (start tool_world)) its) as Hits'.
  { eapply Forall_impl; [|done]. intros it. apply static_item_ok, start_static. }
  unfold arguments_at, arguments_of.
  rewrite (run_vars _ _ 0 (StringVar []) Hits' eq_refl),
    (run_vars _ _ 1 (IntVar 0) Hits' eq_refl), (run_vars _ _ 2 (StringVar []) Hits' eq_refl),
    (run_vars _ _ 3 (StringVar []) Hits' eq_refl).
  by rewrite !(static_assigned _ _ its _ (start_static tool_world)).
Qed.

Lemma run_start_static its :
  Forall (item_ok tool_world) its → static tool_world (run (start tool_world) its).
Proof.
  intros Hits. eapply static_trans; [apply start_static|]. apply run_static.
  eapply Forall_impl; [|done]. intros it. apply static_item_ok, start_static.
Qed.

(** C5: the tool on a well-formed command line: every flag has the last text
    given for it, the checks are made on these values, and the tool then
    updates the Ingress they name and reads its receivers, or dies before it
    has called the server. *)
Theorem main_spec connect its srv :
  Forall (item_ok tool_world) its →
  main connect (concat (render <$> its)) srv = act connect (arguments_of its) srv.
Proof.
  intros Hits. rewrite <- (arguments_at_run its Hits).
  eapply main_act; [by apply run_start_static | by apply Parse_run].
Qed.

(** the client's flags cannot be set: whatever the arguments, the tool
    connects with no explicit path and no override, for these flags are
    defined after the arguments were parsed. *)
Theorem main_no_overrides connect osArgs srv :
  main connect osArgs srv = main (λ _ _, connect [] no_overrides) osArgs srv.
Proof.
  destruct (runs_Parse tool_world osArgs tool_wf eq_refl) as (w & e & HP & [[_ Hs] _]).
  by rewrite !(main_act _ _ _ _ _ Hs HP).
Qed.

(** the arguments end at the first flag the tool does not have: with
    [--server] or [--kubeconfig] among the arguments, it acts on those before
    it as if the rest had not been written, since the error is ignored. *)
Theorem main_unknown_flag connect its n t rest srv :
  Forall (item_ok tool_world) its →
  "="%char ∉ n → n ≠ [] → head n ≠ Some "-"%char → t = [] ∨ (∃ v, t = "="%char :: v) →
  n ∉ tool_names → n ≠ lit "help" →
  main connect (concat (render <$> its) ++ long (n ++ t) :: rest) srv =
  act connect (arguments_of its) srv.
Proof.
  intros Hits Heq Hne Hd Ht Hn Hhelp. rewrite <- (arguments_at_run its Hits).
  destruct (Parse_unknown tool_world its n t rest) as [o Ho]; try done.
  { destruct (tool_names_ok tool_world (static_refl _)) as (_ & HL & _).
    unfold Lookup, lookup_flag. change (normalizeFlagName tool_world.1 n) with n.
    destruct (map_index _ n) eqn:Hf; [|done]. destruct Hn. apply HL. by eexists. }
  erewrite main_act; [|destruct (run_start_static its Hits)|exact Ho]; [done | by split].
Qed.

Lemma check_arguments_inv a ns name rec :
  check_arguments a = Return (ns, name, rec) →
  split "/" (arg_ing a) = [ns; name] ∧ rec = receiver_of a.
Proof.
  unfold check_arguments. destruct (decide _); [done|].
  destruct (split "/" (arg_ing a)) as [|x [|y []]]; try done. by intros [= <- <- <-].
Qed.

Lemma update_and_get_Done `{!IngressAPILaws Srv E} `{!ReceiverCodecLaws} ns name rec srv srv' rs :
  wf_receiver rec → update_and_get (CErr := CErr) ns name rec srv = (srv', Done rs) →
  ∃ rs0, receivers_of srv (ns, name) = Some rs0 ∧ rs = upsert rs0 rec ∧
    receivers_of srv' (ns, name) = Some rs.
Proof.
  intros Hrec. unfold update_and_get.
  destruct (Update name ns rec srv) as [[srv1 [[]|e]]| |] eqn:HU; try done.
  destruct (Update_receivers _ _ _ _ _ Hrec HU) as (rs0 & H1 & H2 & _).
  pose proof (Get_receivers name ns srv1) as HG. pose proof (api_get_unchanged ns name srv1) as Hu.
  unfold Get in *. destruct (api_get ns name srv1) as [srv2 [ing|e]]; [|done].
  rewrite (HG srv2 ing _ H2 eq_refl). intros [= <- <-].
  exists rs0. split_and!; [done..|]. by rewrite (receivers_of_unchanged srv1).
Qed.

(** before the tool calls the server it has all four arguments: a run
    that is not stopped by the checks names a receiver with a host, a port
    and a certificate, and an Ingress [namespace/name] of two parts. *)
Theorem check_arguments_spec a ns name rec :
  check_arguments a = Return (ns, name, rec) ↔
  arg_port a ≠ 0%Z ∧ arg_cert a ≠ [] ∧ arg_host a ≠ [] ∧
  arg_ing a = ns ++ "/"%char :: name ∧ "/"%char ∉ ns ∧ "/"%char ∉ name ∧
  rec = mkReceiver (arg_host a) (arg_port a) (arg_cert a).
Proof.
  unfold check_arguments. destruct (decide _) as [Hd|Hd].
  - split; [done|]. intros (? & ? & ? & Hi & _). rewrite Hi in Hd.
    destruct Hd as [?|[?|[?|Hd]]]; try done. by destruct ns.
  - assert (arg_port a ≠ 0%Z ∧ arg_cert a ≠ [] ∧ arg_host a ≠ []) as (H1 & H2 & H3) by tauto.
    pose proof (split_two "/"%char (arg_ing a)) as Hs.
    split.
    + destruct (split "/" (arg_ing a)) as [|x [|y []]] eqn:Hsp; try done. intros [= -> -> <-].
      destruct (proj1 (Hs ns name) eq_refl) as (? & ? & ?). done.
    + intros (_ & _ & _ & Hi & Hns & Hname & ->). rewrite (proj2 (Hs ns name)); done.
Qed.

(** a run that succeeds has updated and read the Ingress it names: it
    reports the list with the receiver assigned, which is what a reader of
    the server sees. *)
Theorem main_Done `{!IngressAPILaws Srv E} `{!ReceiverCodecLaws} connect its srv srv' rs :
  Forall (item_ok tool_world) its → wf_receiver (receiver_of (arguments_of its)) →
  main connect (concat (render <$> its)) srv = (srv', Done rs) →
  ∃ ns name rs0,
    split "/" (arg_ing (arguments_of its)) = [ns; name] ∧
    receivers_of srv (ns, name) = Some rs0 ∧
    rs = upsert rs0 (receiver_of (arguments_of its)) ∧
    receivers_of srv' (ns, name) = Some rs.
Proof.
  intros Hits Hwf. erewrite main_act; [|by apply run_start_static|by apply Parse_run].
  rewrite (arguments_at_run its Hits). unfold act.
  destruct (check_arguments (arguments_of its)) as [[[ns name] rec]| |] eqn:Hc; [|done..].
  apply check_arguments_inv in Hc as (Hing & ->). destruct (connect [] no_overrides); [|done].
  intros Hd. apply (update_and_get_Done ns name _ srv srv' rs Hwf) in Hd as (rs0 & ? & ? & ?).
  by exists ns, name, rs0.
Qed.
End properties.

(** ** Witnesses *)

Definition demo_line : list item :=
  [Positional "update"; LongEq "host" "b.com"; LongArg "port" "80"; LongEq "cert" "PEM";
   LongEq "ing" "default/web"].

Lemma demo_line_ok : Forall (item_ok tool_world) demo_line.
Proof. apply (bool_decide_unpack _). vm_compute. exact I. Qed.

Definition demo_connect (path : str) (o : Overrides str bool) : result () () := Ok ().

Definition demo_main (osArgs : list str) : MapServer.server * outcome :=
  main (E := MapServer.error) demo_connect osArgs demo.

Lemma demo_arguments : arguments_of demo_line = mkArguments "b.com" 80 "PEM" "default/web".
Proof. vm_compute. reflexivity. Qed.

Lemma main_spec_witness :
  demo_main (concat (render <$> demo_line)) =
  update_and_get (E := MapServer.error) "default" "web" (demo_rec "b.com" 80) demo.
Proof.
  unfold demo_main. rewrite (main_spec demo_connect demo_line demo demo_line_ok).
  rewrite demo_arguments. reflexivity.
Defined.

Lemma main_unknown_flag_witness :
  demo_main ([lit "update"; lit "--kubeconfig=/tmp/c"] ++ concat (render <$> demo_line)) =
  (demo, Died "Need more information to add receiver.").
Proof.
  unfold demo_main.
  etransitivity; [apply (main_unknown_flag demo_connect [Positional "update"] "kubeconfig" "=/tmp/c"
    (concat (render <$> demo_line)) demo)|].
  - apply (bool_decide_unpack _). vm_compute. exact I.
  - by apply (bool_decide_unpack _).
  - done.
  - done.
  - right. by exists (lit "/tmp/c").
  - by apply (bool_decide_unpack _).
  - done.
  - vm_compute. reflexivity.
Defined.

Lemma main_Done_witness :
  ∃ rs0, receivers_of demo (lit "default", lit "web") = Some rs0 ∧
    (demo_main (concat (render <$> demo_line))).2 =
      Done (upsert rs0 (demo_rec "b.com" 80)).
Proof.
  destruct (demo_main (concat (render <$> demo_line))) as [srv' o] eqn:Hm.
  assert (o = Done [demo_rec "a.com" 443; demo_rec "b.com" 80]) as ->.
  { apply (f_equal snd) in Hm. simpl in Hm. rewrite <- Hm. vm_compute. reflexivity. }
  destruct (main_Done demo_connect demo_line demo srv' _ demo_line_ok
    ltac:(rewrite demo_arguments; exact demo_rec_wf) Hm) as (ns & name & rs0 & H1 & H2 & H3 & _).
  rewrite demo_arguments in H1, H3. exists rs0. split; [|simpl; f_equal; exact H3].
  simpl in H1. change (split "/"%char (lit "default/web")) with [lit "default"; lit "web"] in H1.
  injection H1 as <- <-. exact H2.
Defined.
