(* ===== verification/SyslogParse.v ===== *)
(** * Syslog messages (github.com/ziutek/syslog: priority.go, message.go, and
      the parsing of a packet in server.go)

    What the loop [receiver] of the syslog server makes of one datagram:
    priority, RFC 3164 header and message.  [time.Parse] for the one layout
    the code uses and the rune predicates of [unicode] are modelled here;
    whether a rune outside ASCII is a letter or a number is a table of the
    Go library, and a parameter. *)

From S2P Require Import Prelude GoStr Utf8.

Local Open Scope go_scope.

(** ** Priorities *)

Definition facToStr : list str :=
  [lit "kern"; lit "user"; lit "mail"; lit "daemon"; lit "auth"; lit "syslog"; lit "lpr";
   lit "news"; lit "uucp"; lit "cron"; lit "authpriv"; lit "system0"; lit "system1";
   lit "system2"; lit "system3"; lit "system4"; lit "local0"; lit "local1"; lit "local2";
   lit "local3"; lit "local4"; lit "local5"; lit "local6"; lit "local7"].

Definition Local7 : Z := 23.

(** [Facility.String]; indexing panics out of range. *)
Definition Facility_String (f : Z) : control str :=
  if (Local7 <? f)%Z then Return (lit "unknown")
  else match facToStr !! Z.to_nat f with
       | Some s => Return s | None => Panic "index out of range" end.

Definition sevToStr : list str :=
  [lit "emerg"; lit "alert"; lit "crit"; lit "err"; lit "waining"; lit "notice"; lit "info";
   lit "debug"].

Definition Debug_ : Z := 7.

Definition Severity_String (s : Z) : control str :=
  if (Debug_ <? s)%Z then Return (lit "unknown")
  else match sevToStr !! Z.to_nat s with
       | Some s => Return s | None => Panic "index out of range" end.

(** ** [time.Parse] with the layout [Jan _2 15:04:05] *)

Record timestamp := mkTimestamp {
  ts_month : Z;
  ts_day : Z;
  ts_hour : Z;
  ts_min : Z;
  ts_sec : Z;
  ts_nsec : Z
}.

Definition month_names : list str :=
  [lit "Jan"; lit "Feb"; lit "Mar"; lit "Apr"; lit "May"; lit "Jun"; lit "Jul"; lit "Aug";
   lit "Sep"; lit "Oct"; lit "Nov"; lit "Dec"].

(** The lookup of a month's short name, whatever the case of its letters. *)
Fixpoint lookup_month (names : list str) (i : Z) (value : str) : option (Z * str) :=
  match names with
  | [] => None
  | n :: names =>
      if decide (3 ≤ length value ∧ to_lower (take 3 value) = to_lower n)
      then Some (i, drop 3 value) else lookup_month names (i + 1) value
  end.

(** One or two digits; two exactly when [fixed]. *)
Definition getnum (s : str) (fixed : bool) : option (Z * str) :=
  match s with
  | c :: s1 =>
      if is_digit c then
        match s1 with
        | d :: s2 =>
            if is_digit d then Some ((ord c - 48) * 10 + (ord d - 48), s2)%Z
            else if fixed then None else Some (ord c - 48, s1)%Z
        | [] => if fixed then None else Some (ord c - 48, s1)%Z
        end
      else None
  | [] => None
  end.

(** Literal text of a layout: a space stands for any number of them. *)
Definition is_blank (c : ascii) : bool := bool_decide (c = " "%char).
Definition skip_space (value : str) : option str :=
  match value with
  | [] => Some []
  | c :: _ => if is_blank c then Some (trim_left is_blank value) else None
  end.
Definition skip_byte (b : ascii) (value : str) : option str :=
  match value with
  | c :: t => if decide (c = b) then Some t else None
  | [] => None
  end.

(** A fraction after the seconds is read although the layout has none. *)
Fixpoint digits_prefix (s : str) : str :=
  match s with c :: t => if is_digit c then c :: digits_prefix t else [] | [] => [] end.
Definition fraction (value : str) : Z * str :=
  match value with
  | "."%char :: t =>
      match digits_prefix t with
      | [] => (0%Z, value)
      | ds => ((parse_uint_loop 10 0 (take 9 (ds ++ replicate 9 "0"%char))).1,
               drop (length ds) t)
      end
  | _ => (0%Z, value)
  end.

(** Days of a month of the year 0, the year a value without one has. *)
Definition days_in (m : Z) : Z :=
  if decide (m = 2%Z) then 29%Z
  else if decide (m = 4 ∨ m = 6 ∨ m = 9 ∨ m = 11)%Z then 30%Z else 31%Z.

Definition in_bounds (lo hi z : Z) : option () :=
  if decide (lo ≤ z < hi)%Z then Some () else None.

Definition parse_stamp (value : str) : option timestamp :=
  '(month, value) ← lookup_month month_names 1 value;
  value ← skip_space value;
  let value := match value with c :: t => if is_blank c then t else value | [] => [] end in
  '(day, value) ← getnum value false;
  value ← skip_space value;
  '(hour, value) ← getnum value false;
  _ ← in_bounds 0 24 hour;
  value ← skip_byte ":" value;
  '(min, value) ← getnum value true;
  _ ← in_bounds 0 60 min;
  value ← skip_byte ":" value;
  '(sec, value) ← getnum value true;
  _ ← in_bounds 0 60 sec;
  let '(nsec, value) := fraction value in
  _ ← in_bounds 1 (days_in month + 1) day;
  match value with
  | [] => Some (mkTimestamp month day hour min sec nsec)
  | _ => None
  end.

(** ** Messages *)

Record Message := mkMessage {
  msg_Time : Z;
  msg_Source : str;
  Facility : Z;
  Severity : Z;
  Timestamp : option timestamp;
  Hostname : str;
  Tag : str;
  Content : str;
  Tag1 : str;
  Content1 : str
}.

Section parse.
(** [unicode.IsLetter] or [unicode.IsNumber] outside ASCII. *)
Variable letter_or_number : Z → bool.

Definition is_alnum (r : Z) : bool :=
  if (r <? 128)%Z then in_range 48 57 r || in_range 65 90 r || in_range 97 122 r
  else letter_or_number r.

Definition isNotAlnum (r : Z) : bool := negb (is_alnum r).

Definition isNulCrLf (c : ascii) : bool :=
  bool_decide (ord c = 0 ∨ ord c = 13 ∨ ord c = 10)%Z.

(** The priority: [(prio, hasPrio, rest)].  The packet's first byte is read
    without a check. *)
Definition parse_priority (pkt : str) : control (Z * bool * str) :=
  match pkt with
  | [] => Panic "index out of range"
  | c :: t =>
      if decide (c = "<"%char) then
        match index_byte ">" t with
        | Some i =>
            if decide (1 ≤ i ≤ 3) then
              match atoi (take i t) with
              | (p, None) =>
                  if (0 <=? p)%Z then Return (p, true, drop (S i) t) else Return (13%Z, false, pkt)
              | (_, Some _) => Return (13%Z, false, pkt)
              end
            else Return (13%Z, false, pkt)
        | None => Return (13%Z, false, pkt)
        end
      else Return (13%Z, false, pkt)
  end.

(** The header: the timestamp, the host name and what follows. *)
Definition parse_header (hasPrio : bool) (pkt : str) : option timestamp * str * str :=
  if decide (hasPrio = true ∧ 16 ≤ length pkt ∧ pkt !! 15 = Some " "%char) then
    match parse_stamp (take 15 pkt) with
    | Some ts =>
        match index_byte " " (drop 16 pkt) with
        | Some i => (Some ts, take i (drop 16 pkt), drop (S i) (drop 16 pkt))
        | None => (None, [], pkt)
        end
    | None => (None, [], pkt)
    end
  else (None, [], pkt).

(** The tag and the content, by the first byte that is not alphanumeric. *)
Definition parse_tag (msg : str) : str * str :=
  match index_func isNotAlnum msg with
  | Some n => (take n msg, drop n msg)
  | None => ([], msg)
  end.

(** The same by the first white space; [msg[n+1:]] drops one byte of it. *)
Definition parse_tag1 (msg : str) : str * str :=
  let msg := trim_func is_space_rune msg in
  match index_func is_space_rune msg with
  | Some n => (take n msg, trim_left_func is_space_rune (drop (S n) msg))
  | None => ([], msg)
  end.

(** One pass of the loop of [receiver], from the packet to the message. *)
Definition parse_packet (now : Z) (addr : str) (pkt : str) : control Message :=
  '(prio, hasPrio, pkt) ← parse_priority pkt;
  let '(ts, host, pkt) := parse_header hasPrio pkt in
  let msg := trim_right isNulCrLf pkt in
  let '(tag, content) := parse_tag msg in
  let '(tag1, content1) := parse_tag1 msg in
  Return (mkMessage now addr (Z.shiftr prio 3 mod 256) (Z.land prio 7) ts host
    tag content tag1 content1).
End parse.
