(* ===== verification/SyslogParseSpec.v ===== *)
(** * Properties of the parsing of syslog messages

    What a packet decodes to, whatever its bytes, and that a packet written in
    the format of RFC 3164 is read back. *)

From S2P Require Import Prelude GoStr Utf8 SyslogParse.

Local Open Scope go_scope.

(** ** The written form *)

Definition two (z : Z) : str := [digit (z / 10); digit (z mod 10)].

Definition day_text (d : Z) : str :=
  if (d <? 10)%Z then [" "%char; digit d] else two d.

Arguments two : simpl never.
Arguments day_text : simpl never.

(** The layout [Jan _2 15:04:05]. *)
Definition format_stamp (ts : timestamp) : str :=
  default [] (month_names !! Z.to_nat (ts_month ts - 1)) ++ " "%char :: day_text (ts_day ts) ++
  " "%char :: two (ts_hour ts) ++ ":"%char :: two (ts_min ts) ++ ":"%char :: two (ts_sec ts).

Definition stamp_ok (ts : timestamp) : Prop :=
  (1 ≤ ts_month ts ≤ 12 ∧ 1 ≤ ts_day ts ≤ days_in (ts_month ts) ∧ 0 ≤ ts_hour ts < 24 ∧
   0 ≤ ts_min ts < 60 ∧ 0 ≤ ts_sec ts < 60 ∧ ts_nsec ts = 0)%Z.

(** ** Lemmas: the timestamp *)

Lemma ord_digit d : (0 ≤ d ≤ 9)%Z → ord (digit d) = (48 + d)%Z.
Proof. intros ?. unfold digit. apply ord_chr_small. lia. Qed.

Lemma digit_not_blank d : (0 ≤ d ≤ 9)%Z → is_blank (digit d) = false.
Proof.
  intros Hd. apply bool_decide_eq_false. intros He. apply (f_equal ord) in He.
  rewrite ord_digit in He by done. vm_compute (ord " ") in He. lia.
Qed.

Lemma getnum_two z s fixed : (0 ≤ z < 100)%Z → getnum (two z ++ s) fixed = Some (z, s).
Proof.
  intros Hz. unfold two, getnum. cbn [app].
  pose proof (Z.mod_pos_bound z 10 ltac:(lia)). pose proof (Z.div_mod z 10 ltac:(lia)).
  rewrite !digit_is_digit, !ord_digit by lia. do 2 f_equal. lia.
Qed.

Lemma getnum_one d c s :
  (0 ≤ d ≤ 9)%Z → is_digit c = false → getnum (digit d :: c :: s) false = Some (d, c :: s).
Proof.
  intros Hd Hc. unfold getnum. rewrite digit_is_digit, Hc, ord_digit by lia. do 2 f_equal. lia.
Qed.

Lemma skip_space_one c s : is_blank c = false → skip_space (" "%char :: c :: s) = Some (c :: s).
Proof. intros Hc. simpl. by rewrite Hc. Qed.

Lemma skip_space_two c s :
  is_blank c = false → skip_space (" "%char :: " "%char :: c :: s) = Some (c :: s).
Proof. intros Hc. simpl. by rewrite Hc. Qed.

Lemma lookup_month_name m s :
  (1 ≤ m ≤ 12)%Z →
  ∃ a b c, default [] (month_names !! Z.to_nat (m - 1)) = [a; b; c] ∧
    lookup_month month_names 1 (a :: b :: c :: s) = Some (m, s).
Proof.
  intros Hm.
  assert (m = 1 ∨ m = 2 ∨ m = 3 ∨ m = 4 ∨ m = 5 ∨ m = 6 ∨ m = 7 ∨ m = 8 ∨ m = 9 ∨ m = 10 ∨
    m = 11 ∨ m = 12)%Z as Hcases by lia.
  repeat destruct Hcases as [->|Hcases]; try subst m;
    (eexists _, _, _; split; [reflexivity | vm_compute; reflexivity]).
Qed.

(** The day is read with or without its padding. *)
Lemma read_day d s :
  (1 ≤ d ≤ 31)%Z →
  ∃ value, skip_space (" "%char :: day_text d ++ " "%char :: s) = Some value ∧
    getnum (match value with c :: t => if is_blank c then t else value | [] => [] end) false =
    Some (d, " "%char :: s).
Proof.
  intros Hd. unfold day_text. destruct (Z.ltb_spec d 10).
  - eexists. cbn [app]. rewrite skip_space_two by (apply digit_not_blank; lia). split; [done|].
    cbv iota. rewrite digit_not_blank by lia. by apply getnum_one; [lia|].
  - eexists. pose proof (Z.mod_pos_bound d 10 ltac:(lia)). pose proof (Z.div_mod d 10 ltac:(lia)).
    unfold two at 1. cbn [app]. rewrite skip_space_one by (apply digit_not_blank; lia).
    split; [done|]. cbv iota. rewrite digit_not_blank by lia. apply (getnum_two d). lia.
Qed.

Lemma read_hour h s :
  (0 ≤ h < 24)%Z → skip_space (" "%char :: two h ++ s) = Some (two h ++ s).
Proof.
  intros Hh. unfold two. cbn [app]. apply skip_space_one, digit_not_blank.
  pose proof (Z.div_pos h 10). pose proof (Z.div_lt_upper_bound h 10 10). lia.
Qed.

Lemma days_in_bound m : (days_in m ≤ 31)%Z.
Proof. unfold days_in. repeat case_decide; lia. Qed.

Lemma in_bounds_ok lo hi z : (lo ≤ z < hi)%Z → in_bounds lo hi z = Some ().
Proof. intros ?. unfold in_bounds. by rewrite decide_True. Qed.

Lemma skip_byte_same b t : skip_byte b (b :: t) = Some t.
Proof. simpl. by rewrite decide_True. Qed.

(** A timestamp is read back. *)
Lemma parse_format_stamp ts : stamp_ok ts → parse_stamp (format_stamp ts) = Some ts.
Proof.
  destruct ts as [mo d h mi s ns]. unfold stamp_ok, format_stamp. cbn [ts_month ts_day ts_hour ts_min ts_sec ts_nsec].
  intros (Hmo & Hd & Hh & Hmi & Hs & ->). pose proof (days_in_bound mo).
  destruct (lookup_month_name mo (" "%char :: day_text d ++ " "%char :: two h ++
    ":"%char :: two mi ++ ":"%char :: two s) Hmo) as (a & b & c & Hn & Hl).
  unfold parse_stamp. rewrite Hn. cbn [app]. rewrite Hl. cbn [mbind option_bind].
  destruct (read_day d (two h ++ ":"%char :: two mi ++ ":"%char :: two s)) as (v & Hv & Hg); [lia|].
  rewrite Hv. cbn [mbind option_bind]. rewrite Hg. cbn [mbind option_bind].
  rewrite read_hour by done. cbn [mbind option_bind].
  rewrite getnum_two by lia. cbn [mbind option_bind]. rewrite (in_bounds_ok 0 24 h) by done.
  cbn [mbind option_bind]. rewrite skip_byte_same. cbn [mbind option_bind].
  rewrite getnum_two by lia. cbn [mbind option_bind]. rewrite (in_bounds_ok 0 60 mi) by done.
  cbn [mbind option_bind]. rewrite skip_byte_same. cbn [mbind option_bind].
  rewrite <- (app_nil_r (two s)), getnum_two by lia. cbn [mbind option_bind].
  rewrite (in_bounds_ok 0 60 s) by done. cbn [mbind option_bind fraction].
  by rewrite in_bounds_ok by lia.
Qed.

Lemma length_format_stamp ts : stamp_ok ts → length (format_stamp ts) = 15.
Proof.
  intros (Hm & _). destruct (lookup_month_name _ [] Hm) as (a & b & c & Hn & _).
  unfold format_stamp. rewrite Hn. unfold day_text. by destruct (_ <? _)%Z.
Qed.

(** ** Lemmas: the tag *)

Lemma rune_chunks_ascii c t :
  (ord c < 128)%Z → rune_chunks (c :: t) = (ord c, [c]) :: rune_chunks t.
Proof.
  intros Hc. by rewrite (rune_chunks_step (c :: t) (ord c) 1) by (done || by apply decode_rune_ascii).
Qed.

Lemma index_func_ascii p s c t :
  Forall (λ c, (ord c < 128)%Z ∧ p (ord c) = false) s → (ord c < 128)%Z → p (ord c) = true →
  index_func p (s ++ c :: t) = Some (length s).
Proof.
  intros Hs Hc Hp. unfold index_func. induction Hs as [|x s [Hx Hpx] _ IH]; cbn [app].
  - rewrite rune_chunks_ascii by done. simpl. by rewrite Hp.
  - rewrite rune_chunks_ascii by done. simpl. by rewrite Hpx, IH.
Qed.

Lemma index_runes_bound p l i : index_runes p l = Some i → i ≤ length (concat (map snd l)).
Proof.
  revert i. induction l as [|[r b] l IH]; intros i; [done|]. simpl. rewrite length_app.
  destruct (p r); [intros [= <-]; lia|]. intros (j & Hj & ->)%fmap_Some. apply IH in Hj. lia.
Qed.

Lemma index_func_bound p s i : index_func p s = Some i → i ≤ length s.
Proof. intros Hi%index_runes_bound. by rewrite concat_chunks in Hi. Qed.

(** ** Lemmas: the priority *)

Lemma priority_digits :
  forallb (λ n, bool_decide (1 ≤ length (itoa n) ≤ 3 ∧ ">"%char ∉ itoa n)) (seqZ 0 1000) = true.
Proof. vm_compute. reflexivity. Qed.

Lemma priority_text n :
  (0 ≤ n ≤ 999)%Z → 1 ≤ length (itoa n) ≤ 3 ∧ ">"%char ∉ itoa n.
Proof.
  intros Hn. pose proof priority_digits as Hd. rewrite forallb_forall in Hd.
  specialize (Hd n). apply bool_decide_eq_true in Hd; [done|].
  apply list_elem_of_In, elem_of_seqZ. lia.
Qed.

Lemma parse_priority_text n rest :
  (0 ≤ n ≤ 999)%Z → parse_priority ("<"%char :: itoa n ++ ">"%char :: rest) = Return (n, true, rest).
Proof.
  intros Hn. destruct (priority_text n Hn) as [Hl Hi]. unfold parse_priority.
  rewrite decide_True by done. rewrite index_byte_app, (decide_True _ _ Hl), take_app_length by done.
  rewrite atoi_itoa by (unfold in_int64, min_int64, max_int64; lia).
  destruct (Z.leb_spec 0 n); [|lia]. rewrite drop_app_ge by lia.
  by replace (S (length (itoa n)) - length (itoa n)) with 1 by lia.
Qed.

Lemma parse_uint_loop_bound n s v :
  (0 ≤ n)%Z → parse_uint_loop 10 n s = (v, None) → (v < (n + 1) * 10 ^ Z.of_nat (length s))%Z.
Proof.
  revert n. induction s as [|c s IH]; intros n Hn; simpl parse_uint_loop.
  - intros [= <-]. simpl. lia.
  - destruct (digit_value c) as [d|] eqn:Hd; [|done]. apply digit_value_nonneg in Hd.
    destruct (Z.leb_spec 10 d); [done|]. destruct (max_uint64 <? n * 10 + d)%Z; [done|].
    intros Hv%IH; [|lia]. cbn [length]. rewrite Nat2Z.inj_succ, Z.pow_succ_r by lia.
    pose proof (Z.pow_pos_nonneg 10 (Z.of_nat (length s)) ltac:(lia) ltac:(lia)). nia.
Qed.

Lemma parse_uint_loop_overflow n s v :
  (0 ≤ n)%Z → parse_uint_loop 10 n s = (v, Some ErrRange) →
  (max_uint64 < (n + 1) * 10 ^ Z.of_nat (length s))%Z.
Proof.
  revert n. induction s as [|c s IH]; intros n Hn; simpl parse_uint_loop; [done|].
  destruct (digit_value c) as [d|] eqn:Hd; [|done]. apply digit_value_nonneg in Hd.
  destruct (Z.leb_spec 10 d); [done|]. cbn [length]. rewrite Nat2Z.inj_succ, Z.pow_succ_r by lia.
  pose proof (Z.pow_pos_nonneg 10 (Z.of_nat (length s)) ltac:(lia) ltac:(lia)).
  destruct (Z.ltb_spec max_uint64 (n * 10 + d)); [intros _; nia|].
  intros Hv%IH; [nia | lia].
Qed.

Lemma atoi_bound s v :
  (length s ≤ 3)%nat → atoi s = (v, None) → (0 ≤ v)%Z → (v ≤ 999)%Z.
Proof.
  unfold atoi, parse_int. destruct s as [|c t]; [done|]. intros Hl.
  set (body := if decide (c = "+"%char ∨ c = "-"%char) then t else c :: t).
  assert (length body ≤ 3) as Hb by (unfold body; case_decide; simpl in *; lia).
  unfold parse_uint. destruct body as [|c' t']; [done|]. simpl (10 =? 0)%Z. cbv beta iota.
  destruct (parse_uint_loop 10 0 (c' :: t')) as [un e] eqn:Hu.
  assert (10 ^ Z.of_nat (length (c' :: t')) ≤ 1000)%Z by (change 1000%Z with (10 ^ 3)%Z; apply Z.pow_le_mono_r; lia).
  destruct e as [[]|]; [done| |].
  - destruct (_ && _); [done|]. destruct (_ && _); [done|]. intros [= <-] _.
    exfalso. apply parse_uint_loop_overflow in Hu; [|lia].
    change max_uint64 with 18446744073709551615%Z in Hu. lia.
  - pose proof (parse_uint_loop_nonneg 10 0 (c' :: t') ltac:(lia) ltac:(lia)) as Hpos.
    rewrite Hu in Hpos. simpl in Hpos. apply parse_uint_loop_bound in Hu; [|lia].
    destruct (_ && _); [done|]. destruct (_ && _); [done|]. intros [= <-] ?.
    destruct (bool_decide _); lia.
Qed.

(** The cases of a packet's priority: it is read, and taken off the packet, or
    the default is used. *)
Lemma parse_priority_cases pkt :
  pkt ≠ [] →
  ∃ prio has rest, parse_priority pkt = Return (prio, has, rest) ∧ (0 ≤ prio ≤ 999)%Z ∧
    (∃ pre, pkt = pre ++ rest) ∧ (has = false → rest = pkt ∧ prio = 13%Z).
Proof.
  intros Hp. assert (∀ r, r = Return (13%Z, false, pkt) → ∃ prio has rest,
    r = Return (prio, has, rest) ∧ (0 ≤ prio ≤ 999)%Z ∧ (∃ pre, pkt = pre ++ rest) ∧
    (has = false → rest = pkt ∧ prio = 13%Z)) as Hdef.
  { intros r ->. exists 13%Z, false, pkt. split_and!; [done | lia | lia | by exists [] | done]. }
  unfold parse_priority. destruct pkt as [|c t]; [done|].
  destruct (decide (c = "<"%char)); [|by apply Hdef].
  destruct (index_byte ">" t) as [i|] eqn:Hi; [|by apply Hdef].
  destruct (decide (1 ≤ i ≤ 3)) as [Hir|]; [|by apply Hdef].
  destruct (atoi (take i t)) as [p [er|]] eqn:Ha; [by apply Hdef|].
  destruct (Z.leb_spec 0 p); [|by apply Hdef].
  exists p, true, (drop (S i) t). split_and!; try done.
  - apply (atoi_bound (take i t)); [rewrite length_take; lia | done | done].
  - exists (c :: take (S i) t). simpl. by rewrite take_drop.
Qed.

Lemma parse_header_rest has pkt ts host rest :
  parse_header has pkt = (ts, host, rest) → ∃ pre, pkt = pre ++ rest.
Proof.
  unfold parse_header. case_decide as Hd; [|intros [= _ _ <-]; by exists []].
  destruct (parse_stamp _); [|intros [= _ _ <-]; by exists []].
  destruct (index_byte _ _) as [i|]; intros [= _ _ <-]; [|by exists []].
  exists (take 16 pkt ++ take (S i) (drop 16 pkt)). by rewrite <- app_assoc, take_drop, take_drop.
Qed.

Lemma parse_tag_app lon msg tag content :
  parse_tag lon msg = (tag, content) → tag ++ content = msg.
Proof.
  unfold parse_tag. destruct (index_func _ msg); intros [= <- <-]; [apply take_drop | done].
Qed.

(** The runes of the tag are all letters and numbers, and the content starts
    with another rune. *)
Lemma index_runes_chunks p l i :
  index_runes p l = Some i →
  ∃ pre r b post, l = pre ++ (r, b) :: post ∧ i = length (concat (map snd pre)) ∧
    Forall (λ rb, p rb.1 = false) pre ∧ p r = true.
Proof.
  revert i. induction l as [|[r b] l IH]; intros i; [done|]. simpl. destruct (p r) eqn:Hp.
  - intros [= <-]. exists [], r, b, l. by split_and!.
  - intros (j & (pre & r' & b' & post & -> & -> & Hpre & Hr)%IH & ->)%fmap_Some.
    exists ((r, b) :: pre), r', b', post. split_and!; [done | | by constructor | done].
    simpl. by rewrite length_app.
Qed.

(** A packet is parsed unless it is empty. *)
Lemma parse_packet_Return lon now addr pkt :
  pkt ≠ [] → ∃ m, parse_packet lon now addr pkt = Return m.
Proof.
  intros Hne. destruct (parse_priority_cases pkt Hne) as (prio & has & rest & Hp & _).
  unfold parse_packet. rewrite Hp. cbn [mbind control_bind].
  destruct (parse_header has rest) as [[ts host] rest'].
  destruct (parse_tag _ _), (parse_tag1 _). by eexists.
Qed.

Lemma land_7 z : (0 ≤ Z.land z 7 ≤ 7)%Z.
Proof.
  change (Z.land z 7) with (Z.land z (Z.ones 3)). rewrite Z.land_ones by lia.
  pose proof (Z.mod_pos_bound z (2 ^ 3) ltac:(lia)). lia.
Qed.

Lemma parse_packet_severity lon now addr pkt m :
  parse_packet lon now addr pkt = Return m → (0 ≤ Severity m ≤ 7)%Z.
Proof.
  unfold parse_packet. destruct (parse_priority pkt) as [[[prio has] rest]| |]; [|done..].
  cbn [mbind control_bind]. destruct (parse_header has rest) as [[ts host] rest'].
  destruct (parse_tag _ _), (parse_tag1 _). intros [= <-]. apply land_7.
Qed.

(** ** Properties *)

Section properties.
Context (lon : Z → bool).

(** the server's loop panics on exactly the empty datagram; any other
    packet gives a message whose severity and facility have names, and whose
    tag and content are together the rest of the packet without its trailing
    NUL, CR and LF bytes. *)
Theorem parse_packet_total now addr pkt :
  match parse_packet lon now addr pkt with
  | Return m =>
      pkt ≠ [] ∧ (0 ≤ Severity m ≤ 7)%Z ∧ (0 ≤ Facility m ≤ 124)%Z ∧
      (∃ s, Severity_String (Severity m) = Return s) ∧
      (∃ s, Facility_String (Facility m) = Return s) ∧
      ∃ pre tail, pkt = pre ++ Tag m ++ Content m ++ tail ∧
        Forall (λ c, isNulCrLf c = true) tail ∧
        (∀ c, list.last (Tag m ++ Content m) = Some c → isNulCrLf c = false)
  | Panic _ => pkt = []
  | Fatal _ => False
  end.
Proof.
  destruct (decide (pkt = [])) as [->|Hne]; [done|].
  destruct (parse_priority_cases pkt Hne) as (prio & has & rest & Hp & Hr & [pre Hpre] & _).
  unfold parse_packet. rewrite Hp. cbn [mbind control_bind].
  destruct (parse_header has rest) as [[ts host] rest'] eqn:Hh.
  destruct (parse_header_rest _ _ _ _ _ Hh) as [pre' Hpre'].
  destruct (parse_tag _ _) as [tag content] eqn:Ht. destruct (parse_tag1 _) as [tag1 content1].
  apply parse_tag_app in Ht. cbn [Severity Facility Tag Content].
  pose proof (land_7 prio) as Hs.
  assert (0 ≤ Z.shiftr prio 3 mod 256 ≤ 124)%Z as Hf.
  { rewrite Z.shiftr_div_pow2 by lia. change (2 ^ 3)%Z with 8%Z.
    pose proof (Z.div_pos prio 8 ltac:(lia) ltac:(lia)).
    pose proof (Z.div_lt_upper_bound prio 8 125 ltac:(lia) ltac:(lia)).
    rewrite Z.mod_small; lia. }
  split_and!; try lia; try done.
  - unfold Severity_String, Debug_. destruct (Z.ltb_spec 7 (Z.land prio 7)); [by eexists|].
    destruct (lookup_lt_is_Some_2 sevToStr (Z.to_nat (Z.land prio 7))) as [s ->];
      [simpl; lia | by eexists].
  - unfold Facility_String, Local7. destruct (Z.ltb_spec 23 (Z.shiftr prio 3 mod 256)); [by eexists|].
    destruct (lookup_lt_is_Some_2 facToStr (Z.to_nat (Z.shiftr prio 3 mod 256))) as [s ->];
      [simpl; lia | by eexists].
  - destruct (trim_right_prefix isNulCrLf rest') as (u & Hu & Hall).
    exists (pre ++ pre'), u. split_and!; [|done|].
    + rewrite (app_assoc tag), Ht, <- Hu, <- app_assoc, <- Hpre'. done.
    + rewrite Ht. apply trim_right_stop.
Qed.

(** What a sender writes. *)
Definition format_packet (prio : Z) (ts : timestamp) (host tag content tail : str) : str :=
  "<"%char :: itoa prio ++ ">"%char :: format_stamp ts ++ " "%char :: host ++ " "%char ::
  tag ++ content ++ tail.

(** a packet in the format of RFC 3164 is read back: facility and severity
    from the priority, the timestamp, the host name, the alphanumeric tag and
    the content, without the line's end. *)
Theorem parse_format_packet now addr prio ts host tag c content tail :
  (0 ≤ prio ≤ 999)%Z → stamp_ok ts → " "%char ∉ host →
  Forall (λ c, (ord c < 128)%Z ∧ is_alnum lon (ord c) = true) tag →
  (ord c < 128)%Z → is_alnum lon (ord c) = false →
  (∀ x, list.last (c :: content) = Some x → isNulCrLf x = false) →
  Forall (λ c, isNulCrLf c = true) tail →
  ∃ tag1 content1,
    parse_packet lon now addr (format_packet prio ts host tag (c :: content) tail) =
    Return (mkMessage now addr (prio / 8) (prio mod 8) (Some ts) host tag (c :: content)
      tag1 content1).
Proof.
  intros Hprio Hts Hhost Htag Hc Hca Hlast Htail.
  unfold parse_packet, format_packet. rewrite parse_priority_text by done.
  cbn [mbind control_bind]. unfold parse_header.
  pose proof (length_format_stamp ts Hts) as Hlen.
  rewrite decide_True.
  2: { split_and!; [done | rewrite length_app; simpl; lia|].
       rewrite <- Hlen. by apply list_lookup_middle. }
  rewrite <- Hlen, take_app_length, (parse_format_stamp ts Hts).
  replace 16 with (S (length (format_stamp ts))) by lia.
  assert (∀ r, drop (S (length (format_stamp ts))) (format_stamp ts ++ " "%char :: r) = r) as ->.
  { intros r. rewrite drop_app_ge by lia.
    by replace (S (length (format_stamp ts)) - length (format_stamp ts)) with 1 by lia. }
  rewrite index_byte_app, take_app_length by done.
  assert (∀ r, drop (S (length host)) (host ++ " "%char :: r) = r) as ->.
  { intros r. rewrite drop_app_ge by lia.
    by replace (S (length host) - length host) with 1 by lia. }
  rewrite app_assoc, trim_right_app; [|done|].
  2: { intros x. rewrite last_app. destruct (list.last (c :: content)) eqn:Hl.
       - intros [= <-]. by apply Hlast.
       - by apply last_None in Hl. }
  unfold parse_tag. rewrite (index_func_ascii _ tag c content);
    [|eapply Forall_impl; [|exact Htag]|done|unfold isNotAlnum; by rewrite Hca].
  2: { intros x [? Hx]. unfold isNotAlnum. by rewrite Hx. }
  rewrite take_app_length, drop_app_length.
  destruct (parse_tag1 _) as [tag1 content1]. exists tag1, content1. do 3 f_equal.
  - rewrite Z.shiftr_div_pow2 by lia. change (2 ^ 3)%Z with 8%Z. apply Z.mod_small.
    pose proof (Z.div_pos prio 8 ltac:(lia) ltac:(lia)).
    pose proof (Z.div_lt_upper_bound prio 8 256 ltac:(lia) ltac:(lia)). lia.
  - change 7%Z with (Z.ones 3). by rewrite Z.land_ones.
Qed.
End properties.

(** ** Witness

    [<165>Aug  4 05:34:09 lb haproxy[12]: up] and the end of the line. *)

Definition ascii_only (r : Z) : bool := false.
Definition demo_stamp : timestamp := mkTimestamp 8 4 5 34 9 0.
Definition newline : str := [chr 10].

Lemma parse_format_packet_witness :
  ∃ tag1 content1,
    parse_packet ascii_only 0 [] (format_packet 165 demo_stamp "lb" "haproxy" "[12]: up" newline) =
    Return (mkMessage 0 [] 20 5 (Some demo_stamp) "lb" "haproxy" "[12]: up" tag1 content1).
Proof.
  apply (parse_format_packet ascii_only 0 [] 165 demo_stamp "lb" "haproxy" "["%char "12]: up" newline).
  - lia.
  - by vm_compute.
  - by apply (bool_decide_unpack _).
  - repeat constructor.
  - by vm_compute.
  - by vm_compute.
  - by intros x [= <-].
  - by repeat constructor.
Defined.
