(* ===== verification/SyslogServer.v ===== *)
(** * The syslog server and its handlers (github.com/ziutek/syslog: server.go,
      handler.go; the handler of examples/https/haproxy/daemonizer.go)

    Three kinds of goroutines share the server: the receiver of a connection,
    the main loop of each handler, and the caller of [Shutdown].  They
    communicate through the channels of [BaseHandler]: a bounded queue and the
    signal [end].  The system is a step relation: one step is one receive,
    one call of [Handle], one [Get], or one part of [Shutdown]. *)

From S2P Require Import Prelude GoStr Utf8 SyslogParse.

Local Open Scope go_scope.

(** ** [BaseHandler] *)

Record BaseHandler := mkBaseHandler {
  qlen : nat;
  queue : list Message;
  queue_closed : bool;
  end_closed : bool;
  filter : option (Message → bool);
  ft : bool
}.

Definition NewBaseHandler (qlen : nat) (filter : option (Message → bool)) (ft : bool) : BaseHandler :=
  mkBaseHandler qlen [] false false filter ft.

Definition set_queue (q : list Message) (h : BaseHandler) : BaseHandler :=
  mkBaseHandler (qlen h) q (queue_closed h) (end_closed h) (filter h) (ft h).

(** [close(h.queue)]. *)
Definition close_queue (h : BaseHandler) : control BaseHandler :=
  if queue_closed h then Panic "close of closed channel"
  else Return (mkBaseHandler (qlen h) (queue h) true (end_closed h) (filter h) (ft h)).

(** [End]. *)
Definition End (h : BaseHandler) : control BaseHandler :=
  if end_closed h then Panic "close of closed channel"
  else Return (mkBaseHandler (qlen h) (queue h) (queue_closed h) true (filter h) (ft h)).

(** [Handle] of a message: it never waits.  The send is tried only when the
    filter lets the message in, and panics on a closed queue. *)
Definition accepts (h : BaseHandler) (m : Message) : bool :=
  match filter h with Some f => f m | None => true end.

Definition Handle (h : BaseHandler) (m : Message) : control (BaseHandler * option Message) :=
  if accepts h m then
    if queue_closed h then Panic "send on closed channel"
    else
      let h' := if decide (length (queue h) < qlen h) then set_queue (queue h ++ [m]) h else h in
      Return (h', if ft h then Some m else None)
  else Return (h, Some m).

(** [Get]: [None] when the caller has to wait; [Some None] is Go's nil. *)
Definition Get (h : BaseHandler) : option (BaseHandler * option Message) :=
  match queue h with
  | m :: q => Some (set_queue q h, Some m)
  | [] => if queue_closed h then Some (h, None) else None
  end.

(** ** The handler of the daemon *)

(** [newHandler]. *)
Definition newHandler : BaseHandler := NewBaseHandler 1000 None false.

(** ** The server *)

(** A handler with the state of its main loop; the messages it got so far,
    and (ghosts) the messages the server offered it that passed its filter,
    with the number of those that found the queue full. *)
Record hstate := mkHstate {
  bh : BaseHandler;
  running : bool;
  got : list Message;
  offered : list Message;
  dropped : nat
}.

Definition new_hstate (h : BaseHandler) : hstate := mkHstate h true [] [] 0.

(** The receiver reads, has a message for the handlers, passes it on to them
    from the [i]-th, or has returned. *)
Inductive receiver_state :=
  | Reading
  | Parsed (m : Message)
  | Passing (m : Message) (i : nat)
  | Returned.

(** The caller of [Shutdown]: not called yet, the connections closed, waiting
    for the end of the first handler, done. *)
Inductive caller_state := NotCalled | Closed | Waiting | ShutDown.

Record Server := mkServer {
  conn_open : bool;
  shutdown : bool;
  handlers : list hstate;
  receiver : receiver_state;
  caller : caller_state
}.

(** [None] is the dead process: a panic in any goroutine ends it. *)
Abbreviation state := (option Server).

Definition new_server (hs : list BaseHandler) : Server :=
  mkServer true false (map new_hstate hs) Reading NotCalled.

Definition set_receiver (r : receiver_state) (s : Server) : Server :=
  mkServer (conn_open s) (shutdown s) (handlers s) r (caller s).
Definition set_handler (i : nat) (h : hstate) (s : Server) : Server :=
  mkServer (conn_open s) (shutdown s) (<[i := h]> (handlers s)) (receiver s) (caller s).
Definition set_caller (c : caller_state) (s : Server) : Server :=
  mkServer (conn_open s) (shutdown s) (handlers s) (receiver s) c.

(** The handler after a call of [Handle]. *)
Definition offer (h : hstate) (h' : BaseHandler) (m : Message) : hstate :=
  if accepts (bh h) m then
    mkHstate h' (running h) (got h) (offered h ++ [m])
      (if decide (length (queue (bh h)) < qlen (bh h)) then dropped h else S (dropped h))
  else mkHstate h' (running h) (got h) (offered h) (dropped h).

(** The environment: the datagrams that may arrive on the connection, and
    whether [Shutdown] may be called. *)
Section steps.
Variable letter_or_number : Z → bool.
Variable datagram : str → Prop.
Variable may_shutdown : Prop.

(** The buffer of the receiver: a longer datagram is cut. *)
Definition buffer_size : nat := 1024.

Inductive step : Server → state → Prop :=
  (** [ReadFrom] returns a datagram *)
  | step_read s now addr pkt m :
      datagram pkt → receiver s = Reading → conn_open s = true →
      parse_packet letter_or_number now addr (take buffer_size pkt) = Return m →
      step s (Some (set_receiver (Parsed m) s))
  | step_read_panics s now addr pkt why :
      datagram pkt → receiver s = Reading → conn_open s = true →
      parse_packet letter_or_number now addr (take buffer_size pkt) = Panic why →
      step s None
  (** the connection was closed: the receiver returns, silently if the server
      is shutting down *)
  | step_read_error s :
      receiver s = Reading → conn_open s = false →
      step s (if shutdown s then Some (set_receiver Returned s) else None)
  (** [passToHandlers] takes the list of handlers, which is nil after
      [Shutdown], and calls them in turn *)
  | step_range s m :
      receiver s = Parsed m →
      step s (Some (set_receiver (match caller s with ShutDown => Reading | _ => Passing m 0 end) s))
  | step_pass s m i h bh' r :
      receiver s = Passing m i → handlers s !! i = Some h → Handle (bh h) m = Return (bh', r) →
      step s (Some (set_receiver (match r with Some m' => Passing m' (S i) | None => Reading end)
                      (set_handler i (offer h bh' m) s)))
  | step_pass_panics s m i h why :
      receiver s = Passing m i → handlers s !! i = Some h → Handle (bh h) m = Panic why →
      step s None
  | step_passed s m i :
      receiver s = Passing m i → handlers s !! i = None →
      step s (Some (set_receiver Reading s))
  (** a main loop gets a message, or ends *)
  | step_get s i h bh' m :
      handlers s !! i = Some h → running h = true → Get (bh h) = Some (bh', Some m) →
      step s (Some (set_handler i (mkHstate bh' true (got h ++ [m]) (offered h) (dropped h)) s))
  | step_end s i h bh' bh'' :
      handlers s !! i = Some h → running h = true → Get (bh h) = Some (bh', None) →
      End bh' = Return bh'' →
      step s (Some (set_handler i (mkHstate bh'' false (got h) (offered h) (dropped h)) s))
  (** [Shutdown]: the flag and the connections *)
  | step_shutdown s :
      may_shutdown → caller s = NotCalled →
      step s (Some (mkServer false true (handlers s) (receiver s) Closed))
  (** [passToHandlers(nil)]: [Handle(nil)] of the first handler returns nil,
      which ends the loop over the handlers *)
  | step_close s h bh' :
      caller s = Closed → handlers s !! 0 = Some h → close_queue (bh h) = Return bh' →
      step s (Some (set_caller Waiting
                (set_handler 0 (mkHstate bh' (running h) (got h) (offered h) (dropped h)) s)))
  | step_no_handlers s :
      caller s = Closed → handlers s = [] → step s (Some (set_caller ShutDown s))
  | step_ended s h :
      caller s = Waiting → handlers s !! 0 = Some h → end_closed (bh h) = true →
      step s (Some (set_caller ShutDown s)).

(** Runs of the process until it may have died. *)
Inductive steps : Server → state → Prop :=
  | steps_refl s : steps s (Some s)
  | steps_snoc s t u : steps s (Some t) → step t u → steps s u.
End steps.
