(* ===== verification/SyslogServerSpec.v ===== *)
(** * Properties of the syslog server

    What every interleaving of the receiver, the main loops and [Shutdown]
    keeps: bounded queues, order, and that nothing is lost but what found a
    queue full; what [Shutdown] does and does not end; and when the process
    can die. *)

From S2P Require Import Prelude GoStr Utf8 SyslogParse SyslogParseSpec SyslogServer.

Local Open Scope go_scope.

(** ** The invariant *)

(** A handler: its queue is bounded, what it got and has queued is what it was
    offered, in order, less the dropped, and its main loop ends only with the
    queue closed and empty. *)
Record handler_ok (h : hstate) : Prop := {
  ok_bound : length (queue (bh h)) ≤ qlen (bh h);
  ok_order : got h ++ queue (bh h) `sublist_of` offered h;
  ok_count : length (offered h) = length (got h) + length (queue (bh h)) + dropped h;
  ok_running : running h = negb (end_closed (bh h));
  ok_ended : running h = false → queue_closed (bh h) = true ∧ queue (bh h) = []
}.

Definition closing (c : caller_state) : bool :=
  match c with Waiting | ShutDown => true | _ => false end.

Record server_ok (s : Server) : Prop := {
  ok_handlers : Forall handler_ok (handlers s);
  ok_first h : handlers s !! 0 = Some h → queue_closed (bh h) = closing (caller s);
  ok_others i h : handlers s !! S i = Some h → queue_closed (bh h) = false;
  ok_done h : caller s = ShutDown → handlers s !! 0 = Some h → running h = false;
  ok_called : shutdown s = false ↔ caller s = NotCalled;
  ok_conn : conn_open s = negb (shutdown s)
}.

(** ** Lemmas: single steps of a handler *)

Lemma Handle_inv h m bh' r :
  Handle (bh h) m = Return (bh', r) →
  (accepts (bh h) m = false ∧ bh' = bh h ∧ r = Some m) ∨
  (accepts (bh h) m = true ∧ queue_closed (bh h) = false ∧
   bh' = (if decide (length (queue (bh h)) < qlen (bh h))
          then set_queue (queue (bh h) ++ [m]) (bh h) else bh h)).
Proof.
  unfold Handle. destruct (accepts (bh h) m); [|intros [= <- <-]; by left].
  destruct (queue_closed (bh h)); [done|]. intros [= <- _]. by right.
Qed.

Lemma offer_ok h m bh' r :
  handler_ok h → Handle (bh h) m = Return (bh', r) → handler_ok (offer h bh' m).
Proof.
  intros [H1 H2 H3 H4 H5] [(Ha & -> & _)|(Ha & Hq & ->)]%Handle_inv; unfold offer; rewrite Ha;
    [by split|]. split; simpl.
  - case_decide; simpl; [rewrite length_app; simpl; lia | lia].
  - case_decide; simpl; [rewrite app_assoc; by apply sublist_app|].
    by apply sublist_inserts_r.
  - rewrite length_app. case_decide; simpl; rewrite ?length_app; simpl; lia.
  - by case_decide.
  - intros Hr. destruct (H5 Hr). congruence.
Qed.

Lemma offer_closed h m bh' r :
  Handle (bh h) m = Return (bh', r) → queue_closed (bh (offer h bh' m)) = queue_closed (bh h) ∧
  running (offer h bh' m) = running h.
Proof.
  intros [(Ha & -> & _)|(Ha & Hq & ->)]%Handle_inv; unfold offer; rewrite Ha; [done|].
  by case_decide.
Qed.

Lemma Get_inv h bh' r :
  Get h = Some (bh', r) →
  (∃ m q, queue h = m :: q ∧ bh' = set_queue q h ∧ r = Some m) ∨
  (queue h = [] ∧ queue_closed h = true ∧ bh' = h ∧ r = None).
Proof.
  unfold Get. destruct (queue h) as [|m q].
  - destruct (queue_closed h) eqn:Hc; [|done]. intros [= <- <-]. by right.
  - intros [= <- <-]. left. by exists m, q.
Qed.

(** ** Lemmas: the system *)

Lemma handler_at s i h : server_ok s → handlers s !! i = Some h → handler_ok h.
Proof. intros Hs Hi. by eapply Forall_lookup_1; [apply Hs|]. Qed.

(** A step of the [i]-th handler that neither closes a queue nor starts a main
    loop again. *)
Lemma set_handler_ok s i h h' :
  server_ok s → handlers s !! i = Some h → handler_ok h' →
  queue_closed (bh h') = queue_closed (bh h) → (running h = false → running h' = false) →
  server_ok (set_handler i h' s).
Proof.
  intros [H1 H2 H3 H4 H5 H6] Hi Hok Hq Hr. assert (i < length (handlers s)) as Hlt by by eapply lookup_lt_Some.
  split; simpl; try done.
  - by apply Forall_insert.
  - intros h0 Hh. apply list_lookup_insert_Some in Hh as [(-> & -> & _)|[_ Hh]]; [|by apply H2].
    rewrite Hq. by apply H2.
  - intros j h0 Hh. apply list_lookup_insert_Some in Hh as [(-> & -> & _)|[_ Hh]]; [|by eapply H3].
    rewrite Hq. by eapply H3.
  - intros h0 Hc Hh. apply list_lookup_insert_Some in Hh as [(-> & -> & _)|[_ Hh]]; [|by apply H4].
    apply Hr. by apply H4.
Qed.

Lemma set_receiver_ok s r : server_ok s → server_ok (set_receiver r s).
Proof. by intros []. Qed.

Lemma new_server_ok hs :
  Forall (λ h, queue h = [] ∧ queue_closed h = false ∧ end_closed h = false) hs →
  server_ok (new_server hs).
Proof.
  intros Hhs. assert (∀ i h, handlers (new_server hs) !! i = Some h →
    handler_ok h ∧ queue_closed (bh h) = false) as Hall.
  { intros i h. simpl. change (map new_hstate hs) with (new_hstate <$> hs).
    rewrite list_lookup_fmap. intros (b & Hb & ->)%fmap_Some.
    destruct (Forall_lookup_1 _ _ _ _ Hhs Hb) as (Hq & Hc & He). split; [|done].
    split; simpl; rewrite ?Hq, ?He; simpl; try done; lia. }
  split; simpl; try done.
  - apply Forall_lookup_2. intros i h Hi. by apply (Hall i).
  - intros h Hh. by apply (Hall 0).
  - intros i h Hh. by apply (Hall (S i)).
Qed.

Lemma step_close_ok s h bh' :
  server_ok s → caller s = Closed → handlers s !! 0 = Some h → close_queue (bh h) = Return bh' →
  server_ok (set_caller Waiting
    (set_handler 0 (mkHstate bh' (running h) (got h) (offered h) (dropped h)) s)).
Proof.
  intros Hok Hc Hh Hq. pose proof (handler_at _ _ _ Hok Hh) as [B1 B2 B3 B4 B5].
  destruct Hok as [H1 H2 H3 H4 H5 H6]. pose proof (H2 h Hh) as Hopen. rewrite Hc in Hopen.
  simpl in Hopen. unfold close_queue in Hq. rewrite Hopen in Hq. injection Hq as <-.
  assert (0 < length (handlers s)) as Hlt by by eapply lookup_lt_Some.
  split; simpl; try done.
  - apply Forall_insert; [done|]. split; simpl; try done. intros Hr. by destruct (B5 Hr).
  - intros h0. rewrite list_lookup_insert_eq by done. by intros [= <-].
  - intros i h0. rewrite list_lookup_insert_ne by done. apply H3.
  - rewrite H5, Hc. done.
Qed.

Lemma step_get_ok s i h bh' m :
  server_ok s → handlers s !! i = Some h → running h = true → Get (bh h) = Some (bh', Some m) →
  server_ok (set_handler i (mkHstate bh' true (got h ++ [m]) (offered h) (dropped h)) s).
Proof.
  intros Hok Hi Hrun HG. pose proof (handler_at _ _ _ Hok Hi) as [B1 B2 B3 B4 B5].
  apply Get_inv in HG as [(m' & q & Hq & -> & [= <-])|(_ & _ & _ & ?)]; [|done].
  rewrite Hq in *. apply (set_handler_ok s i h); try done; [|by rewrite Hrun].
  split; simpl in *; try done; try lia.
  - by rewrite <- app_assoc.
  - rewrite length_app. simpl. lia.
  - by rewrite <- Hrun.
Qed.

Lemma step_end_ok s i h bh' bh'' :
  server_ok s → handlers s !! i = Some h → running h = true → Get (bh h) = Some (bh', None) →
  End bh' = Return bh'' →
  server_ok (set_handler i (mkHstate bh'' false (got h) (offered h) (dropped h)) s).
Proof.
  intros Hok Hi Hrun HG HE. pose proof (handler_at _ _ _ Hok Hi) as [B1 B2 B3 B4 B5].
  apply Get_inv in HG as [(m' & q & _ & _ & ?)|(Hq & Hc & -> & _)]; [done|].
  unfold End in HE. destruct (end_closed (bh h)); [done|]. injection HE as <-.
  apply (set_handler_ok s i h); try done.
Qed.

Section run.
Context (lon : Z → bool) (datagram : str → Prop) (may_shutdown : Prop).
#[local] Abbreviation step := (step lon datagram may_shutdown).
#[local] Abbreviation steps := (steps lon datagram may_shutdown).

Lemma step_ok s t : server_ok s → step s (Some t) → server_ok t.
Proof.
  intros Hok Hst. remember (Some t) as u eqn:Hu.
  destruct Hst as [s now addr pkt m Hd Hr Ho Hp | s now addr pkt why Hd Hr Ho Hp | s Hr Ho
    | s m Hr | s m i h bh' r Hr Hi HH | s m i h why Hr Hi HH | s m i Hr Hi | s i h bh' m Hi Hrun HG
    | s i h bh' bh'' Hi Hrun HG HE | s Hm Hc | s h bh' Hc Hh Hq | s Hc Hh | s h Hc Hh He];
    try (injection Hu as <-); try done; try by apply set_receiver_ok.
  - destruct (shutdown s); simplify_eq. by apply set_receiver_ok.
  - apply set_receiver_ok. pose proof (handler_at _ _ _ Hok Hi) as Hh.
    destruct (offer_closed _ _ _ _ HH) as [Hc Hrun].
    apply (set_handler_ok s i h); [done | done | by eapply offer_ok | done | by rewrite Hrun].
  - by eapply step_get_ok.
  - by eapply step_end_ok.
  - destruct Hok as [B1 B2 B3 B4 B5 B6]. split; simpl; try done.
    intros h Hh. rewrite (B2 h Hh). by rewrite Hc.
  - by apply step_close_ok.
  - destruct Hok as [B1 B2 B3 B4 B5 B6]. split; simpl; rewrite ?Hh in *; try done.
    rewrite B5, Hc. done.
  - pose proof (handler_at _ _ _ Hok Hh) as [_ _ _ Hrun _]. rewrite He in Hrun.
    destruct Hok as [B1 B2 B3 B4 B5 B6]. split; simpl; try done.
    + intros h0 Hh0. by rewrite (B2 h0 Hh0), Hc.
    + intros h0 _ Hh0. rewrite Hh in Hh0. by injection Hh0 as <-.
    + rewrite B5, Hc. done.
Qed.

Lemma steps_ok s t : server_ok s → steps s (Some t) → server_ok t.
Proof.
  intros Hok Hst. remember (Some t) as u eqn:Hu. revert t Hu.
  induction Hst as [s|s t' u Hst IH Hs]; intros t Hu.
  - by injection Hu as <-.
  - subst u. eapply step_ok; [|exact Hs]. by apply IH.
Qed.

Lemma steps_trans s t u : steps s (Some t) → steps t u → steps s u.
Proof.
  intros H1 H2. induction H2 as [|t t' u H2 IH H3]; [done|]. eapply steps_snoc; [by apply IH | done].
Qed.

Lemma steps_step s u : step s u → steps s u.
Proof. intros Hs. eapply steps_snoc; [apply steps_refl | done]. Qed.

(** ** Properties *)

(** A handler of the server as the code creates it. *)
Definition fresh (h : BaseHandler) : Prop :=
  queue h = [] ∧ queue_closed h = false ∧ end_closed h = false.

(** C6: the queues: whatever the interleaving, a handler's queue is never
    longer than its capacity, what its main loop got and what is queued are
    messages it was offered, in the order they arrived, and the number
    missing is the number that found the queue full. *)
Theorem queues_bounded_in_order hs t i h :
  Forall fresh hs → steps (new_server hs) (Some t) → handlers t !! i = Some h →
  length (queue (bh h)) ≤ qlen (bh h) ∧
  got h ++ queue (bh h) `sublist_of` offered h ∧
  length (offered h) = length (got h ++ queue (bh h)) + dropped h ∧
  (dropped h = 0 → got h ++ queue (bh h) = offered h).
Proof.
  intros Hhs Hst Hi. pose proof (steps_ok _ _ (new_server_ok hs Hhs) Hst) as Hok.
  destruct (handler_at _ _ _ Hok Hi) as [H1 H2 H3 _ _]. rewrite length_app.
  split_and!; try done. intros Hd. apply sublist_full; [done|]. rewrite length_app. lia.
Qed.

(** shutting down drains the first handler: when [Shutdown] has returned,
    the main loop of the first handler has ended, its queue is empty, and it
    got every message it was offered but those that found the queue full. *)
Theorem Shutdown_drains hs t h :
  Forall fresh hs → steps (new_server hs) (Some t) → caller t = ShutDown →
  handlers t !! 0 = Some h →
  running h = false ∧ queue (bh h) = [] ∧ end_closed (bh h) = true ∧
  length (offered h) = length (got h) + dropped h ∧ got h `sublist_of` offered h.
Proof.
  intros Hhs Hst Hc Hh. pose proof (steps_ok _ _ (new_server_ok hs Hhs) Hst) as Hok.
  destruct (handler_at _ _ _ Hok Hh) as [_ H2 H3 H4 H5].
  pose proof (ok_done _ Hok h Hc Hh) as Hr. destruct (H5 Hr) as [_ Hq].
  rewrite Hq in *. rewrite app_nil_r in H2. rewrite Hr in H4. simpl in H3.
  split_and!; try done; [|lia]. by destruct (end_closed (bh h)).
Qed.

(** the other handlers are never told: [Handle(nil)] of the first handler
    returns nil, and that ends the loop of [passToHandlers], so the queue of
    every further handler stays open and its main loop never ends, also after
    [Shutdown] has returned. *)
Theorem Shutdown_only_first hs t i h :
  Forall fresh hs → steps (new_server hs) (Some t) → handlers t !! S i = Some h →
  queue_closed (bh h) = false ∧ running h = true ∧ end_closed (bh h) = false.
Proof.
  intros Hhs Hst Hi. pose proof (steps_ok _ _ (new_server_ok hs Hhs) Hst) as Hok.
  pose proof (ok_others _ Hok i h Hi) as Hq. destruct (handler_at _ _ _ Hok Hi) as [_ _ _ H4 H5].
  destruct (running h) eqn:Hr; [|by destruct (H5 eq_refl); congruence].
  split_and!; try done. by destruct (end_closed (bh h)).
Qed.

(** The main loop of a handler whose queue is closed takes what is queued. *)
Lemma drain_queue t i h q :
  handlers t !! i = Some h → running h = true → queue (bh h) = q →
  steps t (Some (set_handler i (mkHstate (set_queue [] (bh h)) true (got h ++ q) (offered h) (dropped h)) t)).
Proof.
  revert t h. induction q as [|m q IH]; intros t h Hi Hr Hq.
  - rewrite app_nil_r. destruct t, h as [[] ? ? ? ?]. simpl in *. subst.
    unfold set_handler, set_queue. simpl. rewrite list_insert_id by done. apply steps_refl.
  - eapply steps_trans.
    + apply steps_step. eapply (step_get _ _ _ t i h (set_queue q (bh h)) m); [done..|].
      unfold Get. by rewrite Hq.
    + set (h' := mkHstate (set_queue q (bh h)) true (got h ++ [m]) (offered h) (dropped h)).
      assert (i < length (handlers t)) as Hlt by by eapply lookup_lt_Some.
      pose proof (IH (set_handler i h' t) h') as Hd.
      assert (set_handler i (mkHstate (set_queue [] (bh h')) true (got h' ++ q) (offered h') (dropped h'))
        (set_handler i h' t) =
        set_handler i (mkHstate (set_queue [] (bh h)) true (got h ++ m :: q) (offered h) (dropped h)) t) as Heq.
      { unfold set_handler. simpl. by rewrite list_insert_insert_eq, <- app_assoc. }
      rewrite <- Heq. apply Hd; [|done|done]. by apply list_lookup_insert_eq.
Qed.

(** [Shutdown] returns: from any reachable state in which it waits for the
    first handler, steps of that handler's main loop alone, finitely many,
    make it return, and the main loop gets everything that was queued. *)
Theorem Shutdown_returns hs t h :
  Forall fresh hs → steps (new_server hs) (Some t) → caller t = Waiting →
  handlers t !! 0 = Some h →
  ∃ t' h', steps t (Some t') ∧ caller t' = ShutDown ∧ handlers t' !! 0 = Some h' ∧
    got h' = got h ++ queue (bh h) ∧ receiver t' = receiver t.
Proof.
  intros Hhs Hst Hc Hh. pose proof (steps_ok _ _ (new_server_ok hs Hhs) Hst) as Hok.
  pose proof (ok_first _ Hok h Hh) as Hq. rewrite Hc in Hq. simpl in Hq.
  destruct (handler_at _ _ _ Hok Hh) as [_ _ _ H4 H5].
  assert (0 < length (handlers t)) as Hlt by by eapply lookup_lt_Some.
  destruct (running h) eqn:Hr.
  - set (h1 := mkHstate (set_queue [] (bh h)) true (got h ++ queue (bh h)) (offered h) (dropped h)).
    set (h2 := mkHstate (mkBaseHandler (qlen (bh h)) [] (queue_closed (bh h)) true (filter (bh h)) (ft (bh h)))
      false (got h ++ queue (bh h)) (offered h) (dropped h)).
    exists (set_caller ShutDown (set_handler 0 h2 (set_handler 0 h1 t))), h2. split_and!; try done.
    + eapply steps_snoc; [eapply steps_snoc; [by apply drain_queue|]|].
      * eapply (step_end _ _ _ (set_handler 0 h1 t) 0 h1); [by apply list_lookup_insert_eq | done | |].
        -- unfold Get. simpl. by rewrite Hq.
        -- unfold End. simpl. by destruct (end_closed (bh h)).
      * eapply (step_ended _ _ _ (set_handler 0 h2 (set_handler 0 h1 t)) h2); [done | | done].
        simpl. apply list_lookup_insert_eq. by rewrite length_insert.
    + simpl. apply list_lookup_insert_eq. by rewrite length_insert.
  - destruct (H5 eq_refl) as [_ Hempty]. exists (set_caller ShutDown t), h.
    split_and!; try done; [|by rewrite Hempty, app_nil_r].
    apply steps_step, (step_ended _ _ _ t h); [done..|]. by destruct (end_closed (bh h)).
Qed.

(** ** When the process dies *)

(** The environment of a state: [Shutdown] was called only if it may be, and
    a message is under way only if some datagram may arrive. *)
Definition caused (t : Server) : Prop :=
  (caller t ≠ NotCalled → may_shutdown) ∧
  ((∃ m, receiver t = Parsed m ∨ ∃ i, receiver t = Passing m i) → ∃ pkt, datagram pkt).

Lemma step_caused s t : caused s → step s (Some t) → caused t.
Proof.
  intros [Hc Hr] Hst. remember (Some t) as u eqn:Hu.
  destruct Hst as [s now addr pkt m Hd Hrs Ho Hp | | s Hrs Ho
    | s m Hrs | s m i h bh' r Hrs Hi HH | | s m i Hrs Hi | s i h bh' m Hi Hrun HG
    | s i h bh' bh'' Hi Hrun HG HE | s Hm Hcs | s h bh' Hcs Hh Hq | s Hcs Hh | s h Hcs Hh He];
    try done; try (injection Hu as <-); try (by split).
  - split; [done|]. intros _. by exists pkt.
  - destruct (shutdown s); [|done]. injection Hu as <-. split; [done|].
    by intros [m [?|[i ?]]].
  - split; [done|]. intros _. apply Hr. exists m. by left.
  - split; [done|]. intros _. apply Hr. exists m. right. by exists i.
  - split; [done|]. by intros [m' [?|[j ?]]].
  - split; [|done]. intros _. apply Hc. by rewrite Hcs.
  - split; [|done]. intros _. apply Hc. by rewrite Hcs.
  - split; [|done]. intros _. apply Hc. by rewrite Hcs.
Qed.

Lemma steps_caused hs t : steps (new_server hs) (Some t) → caused t.
Proof.
  intros Hst. remember (Some t) as u eqn:Hu. remember (new_server hs) as s eqn:Hs. revert t Hu.
  induction Hst as [s|s t' u Hst IH Hstep]; intros t Hu.
  - injection Hu as <-. subst s. split; [done|]. by intros [m [?|[i ?]]].
  - subst u. eapply step_caused; [|exact Hstep]. by apply IH.
Qed.

Lemma steps_None s : steps s None → ∃ t, steps s (Some t) ∧ step t None.
Proof. intros Hst. inversion Hst as [|? t ? H1 H2]; subst. by exists t. Qed.

Lemma Handle_panics h m why : Handle (bh h) m = Panic why → queue_closed (bh h) = true.
Proof. unfold Handle. destruct (accepts _ _); [|done]. by destruct (queue_closed (bh h)). Qed.

(** The steps that end the process. *)
Lemma step_None t :
  server_ok t → caused t → step t None →
  datagram [] ∨ (may_shutdown ∧ ∃ pkt, datagram pkt).
Proof.
  intros Hok [Hc Hr] Hst. remember None as u eqn:Hu.
  destruct Hst as [| s now addr pkt why Hd Hrs Ho Hp | s Hrs Ho | | | s m i h why Hrs Hi HH
    | | | | | | |]; try done.
  - left. destruct (decide (pkt = [])) as [->|Hne]; [done|].
    destruct (parse_packet_Return lon now addr (take buffer_size pkt)) as [m Hm]; [by destruct pkt|].
    congruence.
  - rewrite (ok_conn _ Hok) in Ho. by destruct (shutdown s).
  - right. apply Handle_panics in HH. split; [|apply Hr; exists m; right; by exists i].
    apply Hc. destruct i as [|i].
    + pose proof (ok_first _ Hok h Hi) as Hf. rewrite HH in Hf. by destruct (caller s).
    + by rewrite (ok_others _ Hok i h Hi) in HH.
Qed.

(** when the process can die: for a server whose first handler takes every
    message, exactly when an empty datagram may arrive (its first byte is
    read without a check), or when [Shutdown] may be called while datagrams
    arrive (a message on its way is sent on the queue [Shutdown] closed). *)
Theorem dies_iff h hs :
  Forall fresh (h :: hs) → filter h = None →
  steps (new_server (h :: hs)) None ↔ datagram [] ∨ (may_shutdown ∧ ∃ pkt, datagram pkt).
Proof.
  intros Hhs Hf. split.
  - intros (t & Hst & Hd)%steps_None. eapply step_None; [|by eapply steps_caused | exact Hd].
    by eapply steps_ok; [apply new_server_ok|].
  - assert (datagram [] → steps (new_server (h :: hs)) None) as Hempty.
    { intros Hd. by eapply steps_step, (step_read_panics _ _ _ _ 0%Z [] []). }
    intros [Hd|[Hm [pkt Hd]]]; [by apply Hempty|].
    destruct (decide (pkt = [])) as [->|Hne]; [by apply Hempty|].
    destruct (parse_packet_Return lon 0 [] (take buffer_size pkt)) as [m Hp]; [by destruct pkt|].
    apply Forall_cons_iff in Hhs as [(_ & Hopen & _) _].
    eapply steps_snoc; [eapply steps_snoc; [eapply steps_snoc; [eapply steps_snoc;
      [eapply steps_step|]|]|]|].
    + by eapply (step_read _ _ _ (new_server (h :: hs)) 0%Z [] pkt m).
    + by apply (step_range _ _ _ _ m).
    + by apply step_shutdown.
    + eapply (step_close _ _ _ _ (new_hstate h)); [done..|]. unfold close_queue. simpl. by rewrite Hopen.
    + eapply (step_pass_panics _ _ _ _ m 0); [done..|]. unfold Handle, accepts. simpl. by rewrite Hf.
Qed.
End run.

(** ** Witnesses

    The daemon's handler, and a second one; one datagram, then [Shutdown]. *)

Definition demo_handlers : list BaseHandler := [newHandler; NewBaseHandler 1 None true].

Lemma demo_fresh : Forall fresh demo_handlers.
Proof. by repeat constructor. Qed.

Definition any_datagram (p : str) : Prop := True.

Definition demo_message : Message :=
  match parse_packet ascii_only 0 [] "<13>up" with
  | Return m => m | _ => mkMessage 0 [] 0 0 None [] [] [] [] [] end.

Definition demo_offered : hstate :=
  mkHstate (set_queue [demo_message] newHandler) true [] [demo_message] 0.

Definition demo_after : Server :=
  mkServer true false [demo_offered; new_hstate (NewBaseHandler 1 None true)] Reading NotCalled.

Definition demo_closed : hstate :=
  mkHstate (mkBaseHandler 1000 [demo_message] true false None false) true [] [demo_message] 0.

Definition demo_waiting : Server :=
  mkServer false true [demo_closed; new_hstate (NewBaseHandler 1 None true)] Reading Waiting.

#[local] Abbreviation demo_steps := (steps ascii_only any_datagram True).

Lemma demo_reaches_after : demo_steps (new_server demo_handlers) (Some demo_after).
Proof.
  eapply steps_snoc; [eapply steps_snoc; [eapply steps_step|]|].
  - by eapply (step_read _ _ _ (new_server demo_handlers) 0%Z [] (lit "<13>up") demo_message).
  - by apply (step_range _ _ _ _ demo_message).
  - by eapply (step_pass _ _ _ (set_receiver (Passing demo_message 0) (new_server demo_handlers))
      demo_message 0 (new_hstate newHandler) (set_queue [demo_message] newHandler) None).
Qed.

Lemma demo_reaches_waiting : demo_steps (new_server demo_handlers) (Some demo_waiting).
Proof.
  eapply steps_snoc; [eapply steps_snoc; [apply demo_reaches_after|]|].
  - by apply step_shutdown.
  - by apply (step_close _ _ _ (mkServer false true (handlers demo_after) Reading Closed) demo_offered
      (mkBaseHandler 1000 [demo_message] true false None false)).
Qed.

Lemma queues_bounded_in_order_witness :
  length (queue (bh demo_offered)) ≤ 1000 ∧ got demo_offered ++ queue (bh demo_offered) = [demo_message].
Proof.
  destruct (queues_bounded_in_order ascii_only any_datagram True demo_handlers demo_after 0 demo_offered
    demo_fresh demo_reaches_after eq_refl) as (H1 & _ & _ & H2).
  split; [exact H1 | exact (H2 eq_refl)].
Defined.

Lemma Shutdown_returns_witness :
  ∃ t' h', demo_steps demo_waiting (Some t') ∧ caller t' = ShutDown ∧ handlers t' !! 0 = Some h' ∧
    got h' = [demo_message].
Proof.
  destruct (Shutdown_returns ascii_only any_datagram True demo_handlers demo_waiting demo_closed
    demo_fresh demo_reaches_waiting eq_refl eq_refl) as (t' & h' & H1 & H2 & H3 & H4 & _).
  by exists t', h'.
Defined.

Lemma Shutdown_only_first_witness :
  queue_closed (bh (new_hstate (NewBaseHandler 1 None true))) = false.
Proof.
  by destruct (Shutdown_only_first ascii_only any_datagram True demo_handlers demo_waiting 0
    (new_hstate (NewBaseHandler 1 None true)) demo_fresh demo_reaches_waiting eq_refl).
Defined.

Definition demo_ended : hstate :=
  mkHstate (mkBaseHandler 1000 [] true true None false) false [demo_message] [demo_message] 0.

Definition demo_shut : Server :=
  mkServer false true [demo_ended; new_hstate (NewBaseHandler 1 None true)] Reading ShutDown.

Lemma demo_reaches_shut : demo_steps (new_server demo_handlers) (Some demo_shut).
Proof.
  eapply steps_snoc; [eapply steps_snoc; [eapply steps_snoc; [apply demo_reaches_waiting|]|]|].
  - by apply (step_get _ _ _ demo_waiting 0 demo_closed (set_queue [] (bh demo_closed)) demo_message).
  - by apply (step_end _ _ _ (set_handler 0 (mkHstate (set_queue [] (bh demo_closed)) true [demo_message]
      [demo_message] 0) demo_waiting) 0 (mkHstate (set_queue [] (bh demo_closed)) true [demo_message]
      [demo_message] 0) (set_queue [] (bh demo_closed)) (bh demo_ended)).
  - by apply (step_ended _ _ _ (set_caller Waiting demo_shut) demo_ended).
Qed.

Lemma Shutdown_drains_witness : queue (bh demo_ended) = [] ∧ length (got demo_ended) = 1.
Proof.
  destruct (Shutdown_drains ascii_only any_datagram True demo_handlers demo_shut demo_ended
    demo_fresh demo_reaches_shut eq_refl eq_refl) as (_ & H1 & _ & H2 & _).
  split; [exact H1 | reflexivity].
Defined.

Lemma dies_iff_witness : demo_steps (new_server demo_handlers) None.
Proof.
  apply (dies_iff ascii_only any_datagram True newHandler [NewBaseHandler 1 None true] demo_fresh eq_refl).
  by left.
Defined.
