(* ===== verification/GoStd.v ===== *)
(** * More of Go's standard library: [flag], [fmt.Printf] without operands,
      and files

    The package [flag] for flags with text values (as [flag.Parse] reads the
    arguments of a program), [Printf] called with a text as its format and
    nothing to format, and the calls of [os] and [io/ioutil] on a tree of
    files without symbolic links, whose space may run out. *)

From S2P Require Import Prelude GoStr Utf8.

Local Open Scope go_scope.

(** ** [flag.Parse] *)

(** The flags with their values, and the first [=] of a name after its first
    byte. *)
Abbreviation flag_values := (gmap str str).

Definition split_name (name : str) : str * option str :=
  match name with
  | [] => ([], None)
  | c :: t =>
      match index_byte "=" t with
      | Some i => (c :: take i t, Some (drop (S i) t))
      | None => (name, None)
      end
  end.

(** [None] is [os.Exit(2)]: the flag set of a program exits on errors and on
    [-help]. *)
Fixpoint flag_parse (fuel : nat) (args : list str) (fv : flag_values) : option flag_values :=
  match args, fuel with
  | [], _ => Some fv
  | _, O => None
  | s :: args, S fuel =>
      match s with
      | "-"%char :: c :: t =>
          if decide (c = "-"%char ∧ t = []) then Some fv
          else
            let name := if decide (c = "-"%char) then t else c :: t in
            match name with
            | c :: _ =>
                if decide (c = "-"%char ∨ c = "="%char) then None
                else
                  let '(name, value) := split_name name in
                  match fv !! name with
                  | None => None
                  | Some _ =>
                      match value, args with
                      | Some v, _ => flag_parse fuel args (<[name := v]> fv)
                      | None, v :: args => flag_parse fuel args (<[name := v]> fv)
                      | None, [] => None
                      end
                  end
            | [] => None
            end
      | _ => Some fv
      end
  end.

Definition FlagParse (args : list str) (fv : flag_values) : option flag_values :=
  flag_parse (length args) args fv.

(** A flag that is written [-name=value]. *)
Definition name_ok (n : str) : Prop := ∃ c t, n = c :: t ∧ c ≠ "-"%char ∧ c ≠ "="%char ∧ "="%char ∉ t.

Lemma flag_parse_eq fuel n v args fv :
  name_ok n → is_Some (fv !! n) →
  flag_parse (S fuel) (("-"%char :: n ++ "="%char :: v) :: args) fv =
  flag_parse fuel args (<[n := v]> fv).
Proof.
  intros (c & t & -> & Hc1 & Hc2 & Ht) [v0 Hv]. cbn [flag_parse app].
  rewrite decide_False by (by intros [? _]). rewrite (decide_False (P := c = _)) by done.
  rewrite decide_False by (by intros [?|?]).
  unfold split_name. rewrite index_byte_app by done. rewrite take_app_length, Hv.
  rewrite drop_app_ge by lia. by replace (S (length t) - length t) with 1 by lia.
Qed.

(** ** [fmt.Printf(s)]

    The loop of [doPrintf] with no operands: a verb prints an error in its
    place. *)

Definition is_flag_byte (c : ascii) : bool :=
  bool_decide (c ∈ ["#"%char; "0"%char; "+"%char; "-"%char; " "%char]).

(** [argNumber] with no operands: the rest of the format, whether an index was
    read, and whether the argument number is still good. *)
Definition arg_number (s : str) (good : bool) : str * bool * bool :=
  match s with
  | "["%char :: t =>
      match index_byte "]" t with
      | Some i =>
          let digits := take i t in
          (drop (S i) t, negb (bool_decide (digits = [])) && forallb is_digit digits, false)
      | None => (t, false, false)
      end
  | _ => (s, false, good)
  end.

Definition starts_with (c : ascii) (s : str) : bool :=
  match s with a :: _ => bool_decide (a = c) | [] => false end.

(** A width: the rest, the text printed for it, and the new marks. *)
Definition width (s : str) (after good : bool) : str * str * bool * bool :=
  if starts_with "*" s then (drop 1 s, lit "%!(BADWIDTH)", false, good)
  else
    let s' := trim_left is_digit s in
    (s', [], after, good && negb (after && negb (bool_decide (length s' = length s)))).

Definition precision (s : str) (after good : bool) : str * str * bool * bool :=
  if starts_with "." s then
    let good := good && negb after in
    let '(s, after, good) := arg_number (drop 1 s) good in
    if starts_with "*" s then (drop 1 s, lit "%!(BADPREC)", false, good)
    else (trim_left is_digit s, [], after, good)
  else (s, [], after, good).

(** One verb, after its percent sign: what is printed, and the rest. *)
Definition verb (s : str) : str * str :=
  let s := trim_left is_flag_byte s in
  let '(s, after, good) := arg_number s true in
  let '(s, out1, after, good) := width s after good in
  let '(s, out2, after, good) := precision s after good in
  let '(s, after, good) := if after then (s, after, good) else arg_number s good in
  let out := out1 ++ out2 in
  match s with
  | [] => (out ++ lit "%!(NOVERB)", [])
  | _ =>
      let '(c, w) := decode_rune s in
      if (c =? 37)%Z then (out ++ ["%"%char], drop w s)
      else (out ++ lit "%!" ++ encode_rune c ++
              (if good then lit "(MISSING)" else lit "(BADINDEX)"), drop w s)
  end.

Fixpoint printf_loop (fuel : nat) (s : str) : str :=
  match s, fuel with
  | [], _ => []
  | _, O => []
  | c :: t, S fuel =>
      if decide (c = "%"%char) then let '(out, rest) := verb t in out ++ printf_loop fuel rest
      else c :: printf_loop fuel t
  end.

Definition Printf (s : str) : str := printf_loop (length s) s.

(** Without a percent sign a format is its text. *)
Lemma Printf_plain s : "%"%char ∉ s → Printf s = s.
Proof.
  unfold Printf. intros Hs. induction s as [|c t IH]; [done|]. cbn [length printf_loop].
  rewrite decide_False by set_solver. f_equal. apply IH. set_solver.
Qed.

(** ** Files *)

Inductive node :=
  | File (content : str)
  | Dir (perm : Z).

Inductive errno := ENOENT | ENOTDIR | EISDIR | EEXIST | ENOSPC.

(** The tree by cleaned path, and the bytes that can still be written. *)
Record files := mkFiles {
  nodes : gmap str node;
  space : nat
}.

Definition set_nodes (m : gmap str node) (fs : files) : files := mkFiles m (space fs).

(** [os.Stat]. *)
Definition stat (fs : files) (path : str) : result errno node :=
  match path with
  | [] => Err ENOENT
  | _ => match nodes fs !! clean path with Some n => Ok n | None => Err ENOENT end
  end.

Definition in_dir (fs : files) (path : str) : option errno :=
  match nodes fs !! dir (clean path) with
  | Some (Dir _) => None
  | Some (File _) => Some ENOTDIR
  | None => Some ENOENT
  end.

(** [os.Mkdir]. *)
Definition mkdir (path : str) (perm : Z) (fs : files) : files * option errno :=
  match path with
  | [] => (fs, Some ENOENT)
  | _ =>
      match nodes fs !! clean path, in_dir fs path with
      | Some _, _ => (fs, Some EEXIST)
      | None, Some e => (fs, Some e)
      | None, None => (set_nodes (<[clean path := Dir perm]> (nodes fs)) fs, None)
      end
  end.

(** [os.MkdirAll]: the part before the last slash first, if there is one
    beyond the root.  The recursion is on a shorter path. *)
Fixpoint mkdir_all_fuel (fuel : nat) (path : str) (perm : Z) (fs : files) : files * option errno :=
  match stat fs path with
  | Ok (Dir _) => (fs, None)
  | Ok (File _) => (fs, Some ENOTDIR)
  | Err _ =>
      let p := trim_right (λ c, bool_decide (c = "/"%char)) path in
      let parent := removelast (dir_part p) in
      match fuel with
      | S fuel =>
          let '(fs, e) := if decide (1 < length (dir_part p))
            then mkdir_all_fuel fuel parent perm fs else (fs, None) in
          match e with
          | Some e => (fs, Some e)
          | None =>
              match mkdir path perm fs with
              | (fs, None) => (fs, None)
              | (fs, Some e) =>
                  match stat fs path with Ok (Dir _) => (fs, None) | _ => (fs, Some e) end
              end
          end
      | O => (fs, Some ENOENT)
      end
  end.
Definition mkdir_all (path : str) (perm : Z) (fs : files) : files * option errno :=
  mkdir_all_fuel (S (length path)) path perm fs.

(** [ioutil.ReadFile]. *)
Definition read_file (fs : files) (path : str) : result errno str :=
  match stat fs path with
  | Ok (File c) => Ok c
  | Ok (Dir _) => Err EISDIR
  | Err e => Err e
  end.

(** [ioutil.WriteFile]: the file is created or emptied, then written as far as
    there is space. *)
Definition write_file (path content : str) (fs : files) : files * option errno :=
  let write (old : str) :=
    let room := space fs + length old in
    let n := room `min` length content in
    (mkFiles (<[clean path := File (take n content)]> (nodes fs)) (room - n),
     if decide (n < length content) then Some ENOSPC else None) in
  match path with
  | [] => (fs, Some ENOENT)
  | _ =>
      match nodes fs !! clean path with
      | Some (File old) => write old
      | Some (Dir _) => (fs, Some EISDIR)
      | None => match in_dir fs path with None => write [] | Some e => (fs, Some e) end
      end
  end.

(** [os.Remove] of a file or an empty directory; its error is not looked at
    here. *)
Definition remove (path : str) (fs : files) : files :=
  match nodes fs !! clean path with
  | Some (File c) => mkFiles (delete (clean path) (nodes fs)) (space fs + length c)
  | Some (Dir _) =>
      if decide (map_Forall (λ q _, dir q ≠ clean path) (nodes fs))
      then set_nodes (delete (clean path) (nodes fs)) fs else fs
  | None => fs
  end.

(** ** Lemmas: files *)

(** Everything that is there stays as it is, and nothing but directories is
    new. *)
Definition extends (fs fs' : files) : Prop :=
  space fs' = space fs ∧
  (∀ q n, nodes fs !! q = Some n → nodes fs' !! q = Some n) ∧
  (∀ q c, nodes fs' !! q = Some (File c) → nodes fs !! q = Some (File c)).

Lemma extends_refl fs : extends fs fs.
Proof. done. Qed.

Lemma extends_trans fs1 fs2 fs3 : extends fs1 fs2 → extends fs2 fs3 → extends fs1 fs3.
Proof. intros (H1 & H2 & H3) (H4 & H5 & H6). split_and!; [congruence | eauto..]. Qed.

Lemma mkdir_extends path perm fs fs' e : mkdir path perm fs = (fs', e) → extends fs fs'.
Proof.
  unfold mkdir. destruct path; [by intros [= <- _]|].
  destruct (nodes fs !! clean _) eqn:Hn; [by intros [= <- _]|].
  destruct (in_dir fs _); intros [= <- _]; [done|]. split_and!; simpl; [done|..]; intros q n Hq.
  - rewrite lookup_insert_ne; [done|]. intros <-. congruence.
  - by apply lookup_insert_Some in Hq as [[_ ?]|[_ ?]].
Qed.

Lemma mkdir_all_fuel_extends fuel path perm fs fs' e :
  mkdir_all_fuel fuel path perm fs = (fs', e) → extends fs fs'.
Proof.
  revert path fs fs' e. induction fuel as [|fuel IH]; intros path fs fs' e; simpl.
  - destruct (stat fs path) as [[]|]; by intros [= <- _].
  - destruct (stat fs path) as [[]|]; try by intros [= <- _].
    destruct (if decide _ then _ else _) as [fs1 e1] eqn:H1.
    assert (extends fs fs1) as Hx1.
    { destruct (decide _); [by eapply IH | by injection H1 as <- _]. }
    destruct e1; [by intros [= <- _]|].
    destruct (mkdir path perm fs1) as [fs2 e2] eqn:H2.
    assert (extends fs fs2) as Hx2 by (eapply extends_trans; [done|by eapply mkdir_extends]).
    destruct e2; [|by intros [= <- _]]. destruct (stat fs2 path) as [[]|]; by intros [= <- _].
Qed.

Lemma stat_Ok fs path n : stat fs path = Ok n ↔ path ≠ [] ∧ nodes fs !! clean path = Some n.
Proof.
  unfold stat. destruct path as [|c t]; [split; [done | by intros [? _]]|].
  destruct (nodes fs !! clean (c :: t)); naive_solver.
Qed.

Lemma read_file_Ok fs path c :
  read_file fs path = Ok c ↔ path ≠ [] ∧ nodes fs !! clean path = Some (File c).
Proof.
  rewrite <- stat_Ok. unfold read_file. destruct (stat fs path) as [[]|]; naive_solver.
Qed.

Lemma extends_read fs fs' path c :
  extends fs fs' → read_file fs' path = Ok c ↔ read_file fs path = Ok c.
Proof. rewrite !read_file_Ok. intros (_ & Hx & Hy). naive_solver. Qed.

(** A write touches no other file. *)
Lemma write_file_frame path content fs fs' e q :
  write_file path content fs = (fs', e) → q ≠ clean path → nodes fs' !! q = nodes fs !! q.
Proof.
  unfold write_file. destruct path as [|c t]; [by intros [= <- _]|].
  destruct (nodes fs !! clean (c :: t)) as [[]|]; [| |destruct (in_dir _ _)];
    intros [= <- _] Hq; try done; simpl; by rewrite lookup_insert_ne.
Qed.

(** A write that succeeds has written everything. *)
Lemma write_file_None path content fs fs' :
  write_file path content fs = (fs', None) → nodes fs' !! clean path = Some (File content).
Proof.
  unfold write_file. destruct path as [|c t]; [done|].
  destruct (nodes fs !! clean (c :: t)) as [[old|]|]; [|done|destruct (in_dir _ _); [done|]];
    (destruct (decide _) as [|Hn]; [done|]); intros [= <-]; simpl;
    apply Nat.nlt_ge in Hn; rewrite lookup_insert_eq; do 2 f_equal; by apply take_ge.
Qed.
