(* ===== verification/Dec.v ===== *)
(** * Decimal numbers (speter.net/go/exp/math/dec/inf: dec.go, rounder.go)

    A number of any size with a scale of 32 bits: its value is
    [unscaled / 10^scale].  What the quantities need of the package: parsing,
    arithmetic, comparison and rounding with every rounder.  A method that
    sets its receiver is a function to the new value.  The scales are added
    and subtracted with the wrap-around of [int32], and a power of ten is
    looked up in a table whose index may then be negative, which panics. *)

From S2P Require Import Prelude GoStr.

Local Open Scope go_scope.
Local Open Scope Z_scope.

(** An integer cut to 32 bits. *)
Definition wrap32 (z : Z) : Z := (z + 2 ^ 31) mod 2 ^ 32 - 2 ^ 31.

Record Dec := mkDec { unscaled : Z; scale : Z }.
#[global] Instance Dec_eq_dec : EqDecision Dec.
Proof. solve_decision. Defined.

Definition NewDec (unscaled scale : Z) : Dec := mkDec unscaled scale.
Definition NewDecBig (unscaled scale : Z) : Dec := mkDec unscaled scale.

(** [big.Int.Int64] keeps the low 64 bits. *)
Definition Unscaled (x : Dec) : Z * bool := (wrap64 (unscaled x), bool_decide (wrap64 (unscaled x) = unscaled x)).
Definition SetScale (s : Z) (z : Dec) : Dec := mkDec (unscaled z) s.
Definition SetUnscaled (u : Z) (z : Dec) : Dec := mkDec u (scale z).
Definition SetUnscaledBig (u : Z) (z : Dec) : Dec := mkDec u (scale z).

Definition Sign (x : Dec) : Z := Z.sgn (unscaled x).
Definition Neg (x : Dec) : Dec := mkDec (- unscaled x) (scale x).
Definition Abs (x : Dec) : Dec := mkDec (Z.abs (unscaled x)) (scale x).

(** ** Powers of ten *)

Fixpoint powers (n : nat) (e10i : Z) : list Z :=
  match n with O => [] | S n => e10i :: powers n (e10i * 10) end.
Definition exp10cache : list Z := powers 64 1.

Definition exp10 (x : Z) : control Z :=
  if x <? Z.of_nat (length exp10cache) then
    if x <? 0 then Panic (lit "index out of range")
    else match exp10cache !! Z.to_nat x with Some e => Return e | None => Panic (lit "index out of range") end
  else Return (10 ^ x).

(** ** Arithmetic *)

Definition rescale (x : Dec) (newScale : Z) : control Dec :=
  let shift := wrap32 (newScale - scale x) in
  if shift <? 0 then e ← exp10 (wrap32 (- shift)); Return (NewDecBig (Z.quot (unscaled x) e) newScale)
  else if 0 <? shift then e ← exp10 shift; Return (NewDecBig (unscaled x * e) newScale)
  else Return x.

Definition upscale (a b : Dec) : control (Dec * Dec) :=
  if scale a =? scale b then Return (a, b)
  else if scale b <? scale a then bb ← rescale b (scale a); Return (a, bb)
  else aa ← rescale a (scale b); Return (aa, b).

(** [big.Int.Cmp]. *)
Definition big_cmp (x y : Z) : Z := match x ?= y with Lt => -1 | Eq => 0 | Gt => 1 end.

Definition Cmp (x y : Dec) : control Z := '(xx, yy) ← upscale x y; Return (big_cmp (unscaled xx) (unscaled yy)).
Definition Add (x y : Dec) : control Dec :=
  '(xx, yy) ← upscale x y; Return (mkDec (unscaled xx + unscaled yy) (scale xx)).
Definition Sub (x y : Dec) : control Dec :=
  '(xx, yy) ← upscale x y; Return (mkDec (unscaled xx - unscaled yy) (scale xx)).
Definition Mul (x y : Dec) : Dec := mkDec (unscaled x * unscaled y) (wrap32 (scale x + scale y)).

(** ** Rounding *)

Inductive Rounder :=
  | RoundDown | RoundUp | RoundFloor | RoundCeil | RoundHalfDown | RoundHalfUp | RoundHalfEven | RoundExact.

(** [big.Int.BitLen]. *)
Definition bit_len (z : Z) : Z := if z =? 0 then 0 else Z.log2 (Z.abs z) + 1.

Definition roundHalf (f : Z → bool → bool) (q : Dec) (rA rB : Z) : Dec :=
  let brA := bit_len rA in
  let brB := bit_len rB in
  if brA <? brB - 1 then q
  else
    let srA := Z.sgn rA in
    let srB := Z.sgn rB in
    let s := srA * srB in
    let roundUp :=
      if brA =? brB - 1 then
        let rA2 := Z.shiftl rA 1 in
        let rA2 := if s <? 0 then - rA2 else rA2 in
        f (big_cmp rA2 rB * srB) (Z.odd (unscaled q))
      else true in
    if roundUp then mkDec (unscaled q + s) (scale q) else q.

Definition UseRemainder (r : Rounder) : bool := match r with RoundDown => false | _ => true end.

(** [None] is the nil pointer. *)
Definition round (r : Rounder) (q : Dec) (rA rB : Z) : option Dec :=
  match r with
  | RoundExact => if Z.sgn rA =? 0 then Some q else None
  | RoundDown => Some q
  | RoundUp => Some (if Z.sgn rA =? 0 then q else mkDec (unscaled q + Z.sgn rA * Z.sgn rB) (scale q))
  | RoundFloor => Some (if Z.sgn rA * Z.sgn rB <? 0 then mkDec (unscaled q - 1) (scale q) else q)
  | RoundCeil => Some (if 0 <? Z.sgn rA * Z.sgn rB then mkDec (unscaled q + 1) (scale q) else q)
  | RoundHalfDown => Some (roundHalf (λ c odd, 0 <? c) q rA rB)
  | RoundHalfUp => Some (roundHalf (λ c odd, 0 <=? c) q rA rB)
  | RoundHalfEven => Some (roundHalf (λ c odd, (0 <? c) || (c =? 0) && odd) q rA rB)
  end.

Definition quoRem (x y : Dec) (s : Z) : control (Dec * Z * Z) :=
  let shift := wrap32 (s - wrap32 (scale x - scale y)) in
  '(ix, iy) ←
    (if 0 <? shift then e ← exp10 shift; Return (unscaled x * e, unscaled y)
     else if shift <? 0 then e ← exp10 (wrap32 (- shift)); Return (unscaled x, unscaled y * e)
     else Return (unscaled x, unscaled y));
  if iy =? 0 then Panic (lit "division by zero")
  else Return (mkDec (Z.quot ix iy) s, Z.rem ix iy, iy).

Definition QuoRound (x y : Dec) (s : Z) (r : Rounder) : control (option Dec) :=
  '(zz, rA, rB) ← quoRem x y s; Return (if UseRemainder r then round r zz rA rB else round r zz 0 0).

Definition Round (x : Dec) (s : Z) (r : Rounder) : control (option Dec) := QuoRound x (NewDec 1 0) s r.

(** ** Parsing *)

(** The loop of [scan]: what it has collected, the indexes of the decimal
    point and of the first digit, and what it leaves unread. *)
Fixpoint scan_loop (s unscaled : str) (dp dg : Z) : str * Z * Z * str :=
  match s with
  | [] => (unscaled, dp, dg, [])
  | ch :: t =>
      let n := Z.of_nat (length unscaled) in
      if decide (ch = "+"%char ∨ ch = "-"%char) then
        if decide (0 < n ∨ 0 ≤ dp) then (unscaled, dp, dg, s) else scan_loop t (unscaled ++ [ch]) dp dg
      else if decide (ch = "."%char) then
        if decide (0 ≤ dp) then (unscaled, dp, dg, s) else scan_loop t unscaled n dg
      else if is_digit ch then scan_loop t (unscaled ++ [ch]) dp (if dg =? -1 then n else dg)
      else (unscaled, dp, dg, s)
  end.

(** [big.Int.SetString(s, 10)]. *)
Fixpoint big_digits (n : Z) (s : str) : option Z :=
  match s with
  | [] => Some n
  | c :: t => if is_digit c then big_digits (n * 10 + (ord c - 48)) t else None
  end.
Definition big_unsigned (s : str) : option Z := match s with [] => None | _ => big_digits 0 s end.
Definition big_of_string (s : str) : option Z :=
  match s with
  | c :: t =>
      if decide (c = "+"%char) then big_unsigned t
      else if decide (c = "-"%char) then Z.opp <$> big_unsigned t
      else big_unsigned s
  | [] => None
  end.

(** The number that was read, and what is left. *)
Definition scan (s : str) : option (Dec * str) :=
  let '(unscaled, dp, dg, rest) := scan_loop s [] (-1) (-1) in
  if dg =? -1 then None
  else
    let sc := if 0 <=? dp then wrap32 (Z.of_nat (length unscaled) - dp) else 0 in
    (λ u, (mkDec u sc, rest)) <$> big_of_string unscaled.

Definition SetString (s : str) : option Dec :=
  match scan s with
  | Some (z, []) => Some z
  | _ => None
  end.
