(* ===== verification/DecSpec.v ===== *)
(** * Decimal numbers (proofs about [Dec])

    As long as no scale leaves 29 bits, nothing wraps around and nothing
    panics: comparing compares the values, and rounding gives the documented
    number for each of the rounders. *)

From S2P Require Import Prelude GoStr Dec.

Local Open Scope Z_scope.

Lemma wrap32_id z : - 2 ^ 31 ≤ z < 2 ^ 31 → wrap32 z = z.
Proof. unfold wrap32. intros H. rewrite Z.mod_small; lia. Qed.

Definition small_scale (s : Z) : Prop := - 2 ^ 29 ≤ s ≤ 2 ^ 29.

Ltac unwrap :=
  unfold small_scale in *; repeat match goal with |- context [wrap32 ?z] => rewrite (wrap32_id z) by lia end.

(** ** Powers of ten *)

Lemma powers_lookup n e i : (i < n)%nat → powers n e !! i = Some (e * 10 ^ Z.of_nat i).
Proof.
  revert e i. induction n as [|n IH]; intros e [|i] Hi; simpl; [lia|lia|by rewrite Z.mul_1_r|].
  rewrite IH by lia. f_equal. rewrite Nat2Z.inj_succ, Z.pow_succ_r by lia. lia.
Qed.

Lemma exp10_spec x : 0 ≤ x → exp10 x = Return (10 ^ x).
Proof.
  intros Hx. unfold exp10. change (Z.of_nat (length exp10cache)) with 64.
  destruct (Z.ltb_spec x 64); [|done]. destruct (Z.ltb_spec x 0); [lia|].
  unfold exp10cache. rewrite powers_lookup by lia. rewrite Z2Nat.id by done. by rewrite Z.mul_1_l.
Qed.

Lemma pow10_pos k : 0 ≤ k → 0 < 10 ^ k.
Proof. intros. by apply Z.pow_pos_nonneg. Qed.

Lemma pow10_add a b : 0 ≤ a → 0 ≤ b → 10 ^ (a + b) = 10 ^ a * 10 ^ b.
Proof. intros. by apply Z.pow_add_r. Qed.

(** ** Comparing *)

(** The unscaled value at a scale that is not lower. *)
Definition at_scale (k : Z) (x : Dec) : Z := unscaled x * 10 ^ (k - scale x).

Lemma at_scale_more k k' x : scale x ≤ k ≤ k' → at_scale k' x = at_scale k x * 10 ^ (k' - k).
Proof.
  intros H. unfold at_scale. replace (k' - scale x) with ((k - scale x) + (k' - k)) by lia.
  rewrite pow10_add by lia. lia.
Qed.

Lemma rescale_up x k : small_scale (scale x) → small_scale k → scale x ≤ k → rescale x k = Return (mkDec (at_scale k x) k).
Proof.
  intros Hx Hk Hle. unfold rescale, at_scale, NewDecBig. unwrap.
  destruct (Z.ltb_spec (k - scale x) 0); [lia|]. destruct (Z.ltb_spec 0 (k - scale x)).
  - rewrite exp10_spec by lia. done.
  - replace k with (scale x) by lia. rewrite Z.sub_diag, Z.pow_0_r, Z.mul_1_r. by destruct x.
Qed.

Lemma upscale_spec x y :
  small_scale (scale x) → small_scale (scale y) →
  let k := Z.max (scale x) (scale y) in
  upscale x y = Return (mkDec (at_scale k x) k, mkDec (at_scale k y) k).
Proof.
  intros Hx Hy. unfold upscale.
  assert (Hself : ∀ z, mkDec (at_scale (scale z) z) (scale z) = z).
  { intros []. unfold at_scale. simpl. by rewrite Z.sub_diag, Z.pow_0_r, Z.mul_1_r. }
  destruct (Z.eqb_spec (scale x) (scale y)) as [E|Hne].
  - simpl. rewrite Z.max_l by lia. rewrite Hself. rewrite E. by rewrite Hself.
  - destruct (Z.ltb_spec (scale y) (scale x)).
    + rewrite rescale_up by (done || lia). simpl. rewrite Z.max_l by lia. by rewrite Hself.
    + rewrite rescale_up by (done || lia). simpl. rewrite Z.max_r by lia. by rewrite Hself.
Qed.

Lemma big_cmp_scale a b c : 0 < c → big_cmp (a * c) (b * c) = big_cmp a b.
Proof. intros Hc. unfold big_cmp. by rewrite <- Zmult_compare_compat_r by lia. Qed.

(** Comparing is comparing the values, written with any scale that is high
    enough for both. *)
Lemma Cmp_at k x y :
  small_scale (scale x) → small_scale (scale y) → scale x ≤ k → scale y ≤ k →
  Cmp x y = Return (big_cmp (at_scale k x) (at_scale k y)).
Proof.
  intros Hx Hy Hxk Hyk. unfold Cmp. rewrite upscale_spec by done. simpl.
  rewrite (at_scale_more (Z.max (scale x) (scale y)) k x) by lia.
  rewrite (at_scale_more (Z.max (scale x) (scale y)) k y) by lia.
  rewrite big_cmp_scale; [done|]. apply pow10_pos. lia.
Qed.

Lemma big_cmp_neg a b : big_cmp a b < 0 ↔ a < b.
Proof. unfold big_cmp. destruct (Z.compare_spec a b); lia. Qed.
Lemma big_cmp_pos a b : 0 < big_cmp a b ↔ b < a.
Proof. unfold big_cmp. destruct (Z.compare_spec a b); lia. Qed.
Lemma big_cmp_zero a b : big_cmp a b = 0 ↔ a = b.
Proof. unfold big_cmp. destruct (Z.compare_spec a b); lia. Qed.

(** ** Rounding *)

(** A quotient rounded up, both parts not negative. *)
Definition div_up (n d : Z) : Z := (n + d - 1) / d.

Lemma div_up_spec n d z : 0 < d → div_up n d = z ↔ d * (z - 1) < n ≤ d * z.
Proof.
  intros Hd. unfold div_up. pose proof (Z.div_mod (n + d - 1) d ltac:(lia)).
  pose proof (Z.mod_pos_bound (n + d - 1) d Hd). split; [intros <-; lia|].
  intros Hz. symmetry. apply (Z.div_unique (n + d - 1) d z (n + d - 1 - d * z)); lia.
Qed.

(** The number nearest to the quotient; [tie], the quotient rounded down:
    whether halves are rounded up. *)
Definition nearest (tie : Z → bool) (n d : Z) : Z :=
  let q := n / d in
  match 2 * (n mod d) ?= d with Lt => q | Gt => q + 1 | Eq => if tie q then q + 1 else q end.

(** What the rounders are documented to make of [n / d]. *)
Definition rounding (r : Rounder) (n d : Z) : option Z :=
  let away f := Some (Z.sgn n * f (Z.abs n) d) in
  match r with
  | RoundDown => away Z.div
  | RoundUp => away div_up
  | RoundFloor => Some (n / d)
  | RoundCeil => Some (- (- n / d))
  | RoundHalfDown => away (nearest (λ _, false))
  | RoundHalfUp => away (nearest (λ _, true))
  | RoundHalfEven => away (nearest Z.odd)
  | RoundExact => if decide (n mod d = 0) then Some (n / d) else None
  end.

(** The fraction that is rounded: the value times [10^s]. *)
Definition numerator (s : Z) (x : Dec) : Z := unscaled x * 10 ^ Z.max 0 (s - scale x).
Definition denominator (s : Z) (x : Dec) : Z := 10 ^ Z.max 0 (scale x - s).

Lemma denominator_pos s x : 0 < denominator s x.
Proof. apply pow10_pos. lia. Qed.

Lemma quoRem_one x s :
  small_scale (scale x) → small_scale s →
  let n := numerator s x in let d := denominator s x in
  quoRem x (NewDec 1 0) s = Return (mkDec (Z.quot n d) s, Z.rem n d, d).
Proof.
  intros Hx Hs. unfold quoRem, numerator, denominator. simpl scale. rewrite Z.sub_0_r. unwrap. simpl unscaled.
  assert (Hd : ∀ n d, 0 < d →
    (if d =? 0 then Panic (lit "division by zero"%go) else Return (mkDec (Z.quot n d) s, Z.rem n d, d)) =
    Return (mkDec (Z.quot n d) s, Z.rem n d, d)) by (intros n d Hd; by destruct (Z.eqb_spec d 0); [lia|]).
  destruct (Z.ltb_spec 0 (s - scale x)) as [Hup|Hup]; [|destruct (Z.ltb_spec (s - scale x) 0) as [Hdown|Heq]].
  - rewrite exp10_spec by lia. rewrite (Z.max_r 0 (s - scale x)), (Z.max_l 0 (scale x - s)) by lia. done.
  - unwrap. rewrite exp10_spec by lia. rewrite (Z.max_l 0 (s - scale x)), (Z.max_r 0 (scale x - s)) by lia.
    replace (- (s - scale x)) with (scale x - s) by lia. rewrite Z.mul_1_r.
    cbn [mbind control_bind]. rewrite Z.mul_1_l. apply Hd. apply pow10_pos. lia.
  - rewrite !Z.max_l by lia. by rewrite Z.pow_0_r, Z.mul_1_r.
Qed.

(** *** The rounders, on a quotient with its remainder *)

Lemma quot_sgn n d : 0 < d → Z.quot n d = Z.sgn n * (Z.abs n / d).
Proof. intros Hd. rewrite Z.quot_div by lia. rewrite (Z.sgn_pos d), (Z.abs_eq d) by lia. lia. Qed.

Lemma rem_sgn n d : 0 < d → Z.rem n d = Z.sgn n * (Z.abs n mod d).
Proof. intros Hd. rewrite Z.rem_mod by lia. by rewrite (Z.abs_eq d) by lia. Qed.

Lemma bit_len_spec z : 0 < z → 2 ^ (bit_len z - 1) ≤ z < 2 ^ bit_len z ∧ 1 ≤ bit_len z.
Proof.
  intros Hz. unfold bit_len. destruct (Z.eqb_spec z 0); [lia|]. rewrite Z.abs_eq by lia.
  replace (Z.log2 z + 1 - 1) with (Z.log2 z) by lia.
  pose proof (Z.log2_nonneg z). split; [apply (Z.log2_spec z Hz)|lia].
Qed.

Lemma bit_len_small m d : 0 ≤ m → 0 < d → bit_len m < bit_len d - 1 → 2 * m < d.
Proof.
  intros Hm Hd Hlt. destruct (bit_len_spec d Hd) as [[Hlo _] _].
  destruct (Z.eq_dec m 0) as [->|]; [lia|]. destruct (bit_len_spec m) as [[_ Hhi] H1]; [lia|].
  assert (2 ^ (bit_len m + 1) ≤ 2 ^ (bit_len d - 1)) by (apply Z.pow_le_mono_r; lia).
  rewrite Z.pow_add_r in * by lia. lia.
Qed.

Lemma bit_len_large m d : 0 ≤ m → 0 < d → bit_len d - 1 < bit_len m → d < 2 * m.
Proof.
  intros Hm Hd Hlt. destruct (bit_len_spec d Hd) as [[_ Hhi] Hd1].
  destruct (Z.eq_dec m 0) as [->|]; [change (bit_len 0) with 0 in Hlt; lia|].
  destruct (bit_len_spec m) as [[Hlo _] H1]; [lia|].
  assert (2 ^ bit_len d ≤ 2 ^ (bit_len m - 1 + 1)) by (apply Z.pow_le_mono_r; lia).
  rewrite Z.pow_add_r in * by lia. lia.
Qed.

Lemma bit_len_sgn σ z : Z.abs σ = 1 → bit_len (σ * z) = bit_len z.
Proof.
  intros Hs. unfold bit_len. rewrite Z.abs_mul, Hs, Z.mul_1_l.
  destruct (Z.eqb_spec z 0) as [->|]; [by rewrite Z.mul_0_r|]. destruct (Z.eqb_spec (σ * z) 0); [nia|done].
Qed.

Lemma sgn_cases σ : Z.abs σ = 1 → σ = 1 ∨ σ = -1.
Proof. lia. Qed.

(** A rounder to the nearest, when [f] rounds down below the half and up
    above it. *)
Lemma roundHalf_spec f tie σ q m d s :
  Z.abs σ = 1 → 0 ≤ m < d → (∀ odd, f (-1) odd = false) → (∀ odd, f 1 odd = true) →
  f 0 (Z.odd q) = tie q →
  roundHalf f (mkDec (σ * q) s) (σ * m) d =
  mkDec (σ * match 2 * m ?= d with Lt => q | Gt => q + 1 | Eq => if tie q then q + 1 else q end) s.
Proof.
  intros Hσ Hm Hlo Hhi Htie. unfold roundHalf. cbv zeta. simpl unscaled. simpl scale. rewrite bit_len_sgn by done.
  assert (Hodd : Z.odd (σ * q) = Z.odd q) by (rewrite Z.odd_mul; by destruct (sgn_cases σ Hσ) as [->| ->]).
  rewrite (Z.sgn_pos d), !Z.mul_1_r by lia. rewrite Hodd.
  assert (Hup : 0 < m → σ * q + Z.sgn (σ * m) = σ * (q + 1)) by (destruct (sgn_cases σ Hσ) as [->| ->]; lia).
  assert (Hrem : (if Z.sgn (σ * m) <? 0 then - Z.shiftl (σ * m) 1 else Z.shiftl (σ * m) 1) = 2 * m).
  { rewrite Z.shiftl_mul_pow2 by lia. destruct (Z.ltb_spec (Z.sgn (σ * m)) 0); destruct (sgn_cases σ Hσ) as [->| ->]; lia. }
  rewrite Hrem. destruct (Z.ltb_spec (bit_len m) (bit_len d - 1)) as [Hb|Hb].
  - pose proof (bit_len_small m d ltac:(lia) ltac:(lia) Hb) as Hlt. apply Z.compare_lt_iff in Hlt. by rewrite Hlt.
  - destruct (Z.eqb_spec (bit_len m) (bit_len d - 1)) as [He|He].
    + unfold big_cmp. destruct (Z.compare_spec (2 * m) d) as [Hc|Hc|Hc].
      * rewrite Htie. destruct (tie q); [|done]. by rewrite Hup by lia.
      * by rewrite Hlo.
      * rewrite Hhi. by rewrite Hup by lia.
    + pose proof (bit_len_large m d ltac:(lia) ltac:(lia) ltac:(lia)) as Hgt. rewrite Hup by lia.
      apply Z.compare_gt_iff in Hgt. by rewrite Hgt.
Qed.

Lemma div_up_rem n d : 0 < d → div_up n d = if n mod d =? 0 then n / d else n / d + 1.
Proof.
  intros Hd. apply div_up_spec; [done|]. pose proof (Z.div_mod n d ltac:(lia)). pose proof (Z.mod_pos_bound n d Hd).
  destruct (Z.eqb_spec (n mod d) 0); lia.
Qed.

Lemma floor_sgn n d :
  0 < d → n / d = if Z.sgn n <? 0 then - div_up (Z.abs n) d else Z.abs n / d.
Proof.
  intros Hd. destruct (Z.ltb_spec (Z.sgn n) 0).
  - rewrite Z.abs_neq by lia. symmetry. pose proof (proj1 (div_up_spec (- n) d _ Hd) eq_refl).
    apply (Z.div_unique n d _ (n + d * div_up (- n) d)); lia.
  - by rewrite Z.abs_eq by lia.
Qed.

(** A sign for [n] that is never zero. *)
Definition sign_of (n : Z) : Z := if n <? 0 then -1 else 1.

Lemma sign_of_abs n : Z.abs (sign_of n) = 1.
Proof. unfold sign_of. by destruct (n <? 0). Qed.

Lemma sgn_mul n z : (n = 0 → z = 0) → Z.sgn n * z = sign_of n * z.
Proof. intros Hz. unfold sign_of. destruct (Z.ltb_spec n 0); lia. Qed.

(** The rounder [round] gets the quotient and the remainder of [n] and [d]. *)
Lemma round_rounding r n d s :
  0 < d →
  (if UseRemainder r then round r (mkDec (Z.quot n d) s) (Z.rem n d) d else round r (mkDec (Z.quot n d) s) 0 0) =
  (λ z, mkDec z s) <$> rounding r n d.
Proof.
  intros Hd. rewrite quot_sgn, rem_sgn by done.
  pose proof (Z.mod_pos_bound (Z.abs n) d Hd) as Hm. pose proof (div_up_rem (Z.abs n) d Hd) as Hup.
  pose proof (floor_sgn n d Hd) as Hfloor. pose proof (floor_sgn (- n) d Hd) as Hceil. rewrite Z.abs_opp in Hceil.
  assert (Hz : n = 0 → Z.abs n / d = 0 ∧ Z.abs n mod d = 0) by (intros ->; by rewrite Z.div_0_l, Z.mod_0_l by lia).
  assert (Hhalf : ∀ f tie, (∀ odd, f (-1) odd = false) → (∀ odd, f 1 odd = true) → (∀ q, f 0 (Z.odd q) = tie q) →
    roundHalf f (mkDec (Z.sgn n * (Z.abs n / d)) s) (Z.sgn n * (Z.abs n mod d)) d =
    mkDec (Z.sgn n * nearest tie (Z.abs n) d) s).
  { intros f tie Hlo Hhi Htie. rewrite !sgn_mul by naive_solver.
    rewrite (roundHalf_spec f tie) by auto using sign_of_abs. f_equal. unfold nearest.
    rewrite sgn_mul; [done|]. intros Hn. destruct (Hz Hn) as [-> ->].
    destruct (Z.compare_spec (2 * 0) d); [lia|done|lia]. }
  set (q := Z.abs n / d) in *. set (m := Z.abs n mod d) in *.
  assert (Hmod : n mod d = 0 ↔ m = 0) by (unfold m; rewrite !Z.mod_divide by lia; by rewrite Z.divide_abs_r).
  assert (Hsgn : Z.sgn (Z.sgn n * m) = if m =? 0 then 0 else Z.sgn n).
  { rewrite Z.sgn_mul, Z.sgn_sgn. destruct (Z.eqb_spec m 0) as [->|]; [lia|]. rewrite (Z.sgn_pos m); lia. }
  assert (Hcases : n < 0 ∧ Z.sgn n = -1 ∨ n = 0 ∧ q = 0 ∧ m = 0 ∧ Z.sgn n = 0 ∨ 0 < n ∧ Z.sgn n = 1) by lia.
  destruct r; cbn [UseRemainder round rounding fmap option_fmap option_map]; rewrite ?(Z.sgn_pos d), ?Z.mul_1_r, ?Hsgn by done;
    [done| | | |by rewrite (Hhalf _ (λ _, false))|by rewrite (Hhalf _ (λ _, true))|by rewrite (Hhalf _ Z.odd)|].
  - rewrite Hup.
    destruct (Z.eqb_spec m 0), Hcases as [[? ->]|[(? & ? & ? & ->)|[? ->]]]; simpl; do 2 f_equal; lia.
  - rewrite Hfloor, Hup.
    destruct (Z.eqb_spec m 0), Hcases as [[? ->]|[(? & ? & ? & ->)|[? ->]]]; simpl; do 2 f_equal; lia.
  - rewrite Hceil, Hup, Z.sgn_opp.
    destruct (Z.eqb_spec m 0), Hcases as [[? ->]|[(? & ? & ? & ->)|[? ->]]]; simpl; do 2 f_equal; lia.
  - rewrite Hfloor, Hup. destruct (decide (n mod d = 0)) as [Hex|Hex]; rewrite Hmod in Hex;
      destruct (Z.eqb_spec m 0), Hcases as [[? ->]|[(? & ? & ? & ->)|[? ->]]]; simpl; try done; do 2 f_equal; lia.
Qed.

Lemma Round_rounding r x s :
  small_scale (scale x) → small_scale s →
  Round x s r = Return ((λ z, mkDec z s) <$> rounding r (numerator s x) (denominator s x)).
Proof.
  intros Hx Hs. unfold Round, QuoRound. rewrite quoRem_one by done. simpl.
  rewrite <- round_rounding by apply denominator_pos. done.
Qed.

(** *** What the documentation says of the rounders *)

Definition rounded (r : Rounder) (n d z : Z) : Prop :=
  match r with
  | RoundDown => Z.abs z * d ≤ Z.abs n < (Z.abs z + 1) * d ∧ 0 ≤ z * n
  | RoundUp => (Z.abs z - 1) * d < Z.abs n ≤ Z.abs z * d ∧ 0 ≤ z * n
  | RoundFloor => z * d ≤ n < (z + 1) * d
  | RoundCeil => (z - 1) * d < n ≤ z * d
  | RoundHalfDown => 2 * Z.abs (n - z * d) ≤ d ∧ (2 * Z.abs (n - z * d) = d → Z.abs z * d ≤ Z.abs n)
  | RoundHalfUp => 2 * Z.abs (n - z * d) ≤ d ∧ (2 * Z.abs (n - z * d) = d → Z.abs n ≤ Z.abs z * d)
  | RoundHalfEven => 2 * Z.abs (n - z * d) ≤ d ∧ (2 * Z.abs (n - z * d) = d → Z.even z = true)
  | RoundExact => n = z * d
  end.

Lemma nearest_spec tie n d :
  0 < d → 0 ≤ n →
  let z := nearest tie n d in
  0 ≤ z ∧ 2 * Z.abs (n - z * d) ≤ d ∧
  (2 * Z.abs (n - z * d) = d → if tie (n / d) then z = n / d + 1 ∧ n < z * d else z = n / d ∧ z * d < n).
Proof.
  intros Hd Hn. unfold nearest.
  pose proof (Z.div_mod n d ltac:(lia)). pose proof (Z.mod_pos_bound n d Hd). pose proof (Z.div_pos n d Hn Hd).
  destruct (Z.compare_spec (2 * (n mod d)) d); [destruct (tie (n / d))|..]; simpl; repeat split; lia.
Qed.

Lemma rounding_zero r d : 0 < d → rounding r 0 d = Some 0.
Proof. intros Hd. destruct r; simpl; rewrite ?Z.div_0_l, ?Z.mod_0_l by lia; by rewrite ?decide_True by done. Qed.

Lemma rounded_zero r d : 0 < d → rounded r 0 d 0.
Proof. intros Hd. destruct r; simpl; repeat split; lia. Qed.

(** With the sign of [n] outside. *)
Lemma sgn_apart n d w :
  n ≠ 0 → 0 ≤ w →
  Z.abs (Z.sgn n * w) = w ∧ Z.abs (n - Z.sgn n * w * d) = Z.abs (Z.abs n - w * d) ∧ 0 ≤ Z.sgn n * w * n ∧
  Z.even (Z.sgn n * w) = Z.even w.
Proof.
  intros Hn Hw. rewrite Z.even_mul. destruct (Z.lt_total n 0) as [H|[H|H]]; [|done|].
  - rewrite (Z.sgn_neg n), (Z.abs_neq n) by lia. repeat split; try nia. 
  - rewrite (Z.sgn_pos n), (Z.abs_eq n) by lia. repeat split; try nia.
Qed.

Lemma rounding_rounded r n d z : 0 < d → rounding r n d = Some z → rounded r n d z.
Proof.
  intros Hd. destruct (Z.eq_dec n 0) as [->|Hn].
  { rewrite rounding_zero by done. intros [= <-]. by apply rounded_zero. }
  pose proof (Z.div_mod (Z.abs n) d ltac:(lia)) as Hdm. pose proof (Z.mod_pos_bound (Z.abs n) d Hd) as Hm.
  pose proof (Z.div_pos (Z.abs n) d ltac:(lia) Hd) as Hq. pose proof (proj1 (div_up_spec (Z.abs n) d _ Hd) eq_refl) as Hup.
  assert (Hup0 : 0 ≤ div_up (Z.abs n) d) by nia.
  destruct r; simpl; intros E; simplify_eq.
  - destruct (sgn_apart n d (Z.abs n / d) Hn Hq) as (-> & _ & ? & _). lia.
  - destruct (sgn_apart n d _ Hn Hup0) as (-> & _ & ? & _). lia.
  - pose proof (Z.div_mod n d ltac:(lia)). pose proof (Z.mod_pos_bound n d Hd). lia.
  - pose proof (Z.div_mod (- n) d ltac:(lia)). pose proof (Z.mod_pos_bound (- n) d Hd). lia.
  - destruct (nearest_spec (λ _, false) (Z.abs n) d Hd ltac:(lia)) as (Hw & Hle & Htie).
    destruct (sgn_apart n d _ Hn Hw) as (-> & -> & _ & _). split; [done|]. intros Ht. destruct (Htie Ht). lia.
  - destruct (nearest_spec (λ _, true) (Z.abs n) d Hd ltac:(lia)) as (Hw & Hle & Htie).
    destruct (sgn_apart n d _ Hn Hw) as (-> & -> & _ & _). split; [done|]. intros Ht. destruct (Htie Ht). lia.
  - destruct (nearest_spec Z.odd (Z.abs n) d Hd ltac:(lia)) as (Hw & Hle & Htie).
    destruct (sgn_apart n d _ Hn Hw) as (_ & -> & _ & ->). split; [done|]. intros Ht. specialize (Htie Ht).
    destruct (Z.odd (Z.abs n / d)) eqn:Hodd; destruct Htie as [-> _].
    + by rewrite Z.add_1_r, Z.even_succ.
    + by rewrite <- Z.negb_odd, Hodd.
  - case_decide as Hex; [|done]. simplify_eq. pose proof (Z.div_mod n d ltac:(lia)). lia.
Qed.

(** [Round] gives the number that is documented for its rounder, at the scale
    that was asked for: truncated, away from zero, towards either infinity,
    or the nearest one with the half down, up or to the even one.  Only the
    exact rounder may give none, and then there is none. *)
Theorem Round_rounded r x s :
  small_scale (scale x) → small_scale s →
  ∃ o, Round x s r = Return o ∧
    match o with
    | Some z => scale z = s ∧ rounded r (numerator s x) (denominator s x) (unscaled z)
    | None => r = RoundExact ∧ ∀ z, numerator s x ≠ z * denominator s x
    end.
Proof.
  intros Hx Hs. rewrite Round_rounding by done. eexists. split; [reflexivity|].
  pose proof (denominator_pos s x) as Hd.
  destruct (rounding r (numerator s x) (denominator s x)) as [z|] eqn:E; simpl.
  - split; [done|]. by apply rounding_rounded.
  - destruct r; simpl in E; try done. split; [done|]. intros z Hz. case_decide as Hex; [done|].
    apply Hex. rewrite Hz. apply Z.mod_mul. lia.
Qed.

Lemma Round_rounded_witness :
  ∃ o, Round (mkDec (-25) 1) 0 RoundHalfEven = Return o ∧ o = Some (mkDec (-2) 0).
Proof.
  destruct (Round_rounded RoundHalfEven (mkDec (-25) 1) 0 ltac:(unfold small_scale; simpl; lia) ltac:(unfold small_scale; lia))
    as (o & E & H).
  exists o. split; [exact E|]. destruct o as [[u sc]|]; [|destruct H; discriminate].
  change (numerator 0 (mkDec (-25) 1)) with (-25) in H. change (denominator 0 (mkDec (-25) 1)) with 10 in H.
  destruct H as (Hsc & Hnear & Htie). simpl in Hsc, Hnear, Htie.
  assert (u = -2 ∨ u = -3) as [->| ->] by lia; [by subst|]. discriminate Htie. reflexivity.
Defined.
