(* ===== verification/Quantity.v ===== *)
(** * Quantities of resources (pkg/api/resource: quantity.go, suffix.go)

    A decimal number with the format it is printed in.  Parsing cuts what is
    too large, rounds up what is too fine, and remembers the kind of suffix;
    printing moves as much as it can into the suffix.  An [Amount] of [None]
    is the nil pointer.  A method that changes its receiver is a function to
    the new value. *)

From S2P Require Import Prelude GoStr Utf8 Json Dec.

Local Open Scope go_scope.
Local Open Scope Z_scope.

(** ** Formats and suffixes (suffix.go) *)

Abbreviation Format := str.
Definition DecimalExponent : Format := lit "DecimalExponent".
Definition BinarySI : Format := lit "BinarySI".
Definition DecimalSI : Format := lit "DecimalSI".

(** The base and the exponent a suffix stands for. *)
Abbreviation bePair := (Z * Z)%type.

Record listSuffixer := mkListSuffixer { suffixToBE : gmap str bePair; beToSuffix : gmap bePair str }.

Definition addSuffix (s : str) (pair : bePair) (ls : listSuffixer) : listSuffixer :=
  mkListSuffixer (<[s := pair]> (suffixToBE ls)) (<[pair := s]> (beToSuffix ls)).
Definition lookup_suffix (s : str) (ls : listSuffixer) : option bePair := suffixToBE ls !! s.
Definition construct_listed (base exponent : Z) (ls : listSuffixer) : option str := beToSuffix ls !! (base, exponent).

Record suffixHandler := mkSuffixHandler { decSuffixes : listSuffixer; binSuffixes : listSuffixer }.

Definition add_all (l : list (str * bePair)) : listSuffixer :=
  foldl (λ ls p, addSuffix p.1 p.2 ls) (mkListSuffixer ∅ ∅) l.

Definition newSuffixer : suffixHandler :=
  mkSuffixHandler
    (add_all [(lit "", (2, 0)); (lit "m", (10, -3)); (lit "", (10, 0)); (lit "k", (10, 3)); (lit "M", (10, 6));
              (lit "G", (10, 9)); (lit "T", (10, 12)); (lit "P", (10, 15)); (lit "E", (10, 18))])
    (add_all [(lit "Ki", (2, 10)); (lit "Mi", (2, 20)); (lit "Gi", (2, 30)); (lit "Ti", (2, 40)); (lit "Pi", (2, 50));
              (lit "Ei", (2, 60))]).

Definition quantitySuffixer : suffixHandler := newSuffixer.

(** [None]: not ok, with the empty suffix. *)
Definition construct (base exponent : Z) (fmt : Format) (sh : suffixHandler) : option str :=
  if decide (fmt = DecimalSI) then construct_listed base exponent (decSuffixes sh)
  else if decide (fmt = BinarySI) then construct_listed base exponent (binSuffixes sh)
  else if decide (fmt = DecimalExponent) then
    if decide (base ≠ 10) then None
    else if decide (exponent = 0) then Some []
    else Some ("e"%char :: itoa exponent)
  else None.

Definition interpret (suffix : str) (sh : suffixHandler) : option (Z * Z * Format) :=
  match lookup_suffix suffix (decSuffixes sh) with
  | Some (b, e) => Some (b, e, DecimalSI)
  | None =>
      match lookup_suffix suffix (binSuffixes sh) with
      | Some (b, e) => Some (b, e, BinarySI)
      | None =>
          match suffix with
          | c :: (_ :: _) as t =>
              if decide (c = "E"%char ∨ c = "e"%char) then
                match parse_int 10 t with
                | (parsed, None) => Some (10, parsed, DecimalExponent)
                | _ => None
                end
              else None
          | _ => None
          end
      end
  end.

(** ** Quantities *)

Record Quantity := mkQuantity { Amount : option Dec; Fmt : Format }.
#[global] Instance Quantity_eq_dec : EqDecision Quantity.
Proof. solve_decision. Defined.

Inductive quantity_error := ErrFormatWrong | ErrNumeric | ErrSuffix.

Definition decZero : Dec := NewDec 0 0.
Definition decOne : Dec := NewDec 1 0.
Definition decThousand : Dec := NewDec 1000 0.
Definition dec1024 : Dec := NewDec 1024 0.
Definition decMinus1024 : Dec := NewDec (-1024) 0.
Definition maxAllowed : Dec := NewDec (2 ^ 63 - 1) 0.
Definition MaxMilliValue : Z := Z.quot (2 ^ 63 - 1) 1000.

(** [splitRE.FindStringSubmatch]: a sign and as many digits and points as
    there are; then letters, a sign and digits up to the end. *)
Fixpoint span (p : ascii → bool) (s : str) : str * str :=
  match s with
  | [] => ([], [])
  | c :: t => if p c then let '(u, v) := span p t in (c :: u, v) else ([], s)
  end.
Definition is_sign (c : ascii) : bool := bool_decide (c = "+"%char ∨ c = "-"%char).
Definition is_number (c : ascii) : bool := is_digit c || bool_decide (c = "."%char).
Definition is_letter (c : ascii) : bool := bool_decide (c ∈ lit "eEimkKMGTP").
Definition span_sign (s : str) : str * str :=
  match s with c :: t => if is_sign c then ([c], t) else ([], s) | [] => ([], []) end.

Definition splitRE (s : str) : option (str * str) :=
  let '(sign, s1) := span_sign s in
  let '(number, s2) := span is_number s1 in
  if decide (number = []) then None
  else
    let '(_, s3) := span is_letter s2 in
    let '(_, s4) := span_sign s3 in
    let '(_, s5) := span is_digit s4 in
    if decide (s5 = []) then Some (sign ++ number, s2) else None.

(** [z.Round(x, s, r)]: [z] is kept if there is no result. *)
Definition set_round (z x : Dec) (s : Z) (r : Rounder) : control Dec :=
  o ← Round x s r; Return (default z o).

(** What the suffix makes of the amount. *)
Definition remove_suffix (base exponent : Z) (amount : Dec) : Dec :=
  if base =? 10 then Dec.SetScale (wrap32 (scale amount + wrap32 (- exponent))) amount
  else if base =? 2 then Dec.SetUnscaledBig (unscaled amount * Z.shiftl 1 exponent) amount
  else amount.

(** Rounding up and cutting an amount that is not negative; and the format. *)
Definition round_amount (amount : Dec) : control Dec :=
  let '(v, ok) := Dec.Unscaled amount in
  if decide (v ≠ 0 ∨ ok = false) then set_round amount amount 3 RoundUp else Return amount.
Definition cap (amount : Dec) : control Dec :=
  c ← Dec.Cmp amount maxAllowed; Return (if 0 <? c then maxAllowed else amount).
Definition small_format (format : Format) (amount : Dec) : control Format :=
  if decide (format = BinarySI) then
    c ← Dec.Cmp amount decOne;
    if c <? 0 then c' ← Dec.Cmp amount decZero; Return (if 0 <? c' then DecimalSI else format)
    else Return format
  else Return format.

Definition ParseQuantity (s : str) : control (result quantity_error Quantity) :=
  match splitRE (trim_space_runes s) with
  | None => Return (Err ErrFormatWrong)
  | Some (number, suffix) =>
      match Dec.SetString number with
      | None => Return (Err ErrNumeric)
      | Some amount =>
          match interpret suffix quantitySuffixer with
          | None => Return (Err ErrSuffix)
          | Some (base, exponent, format) =>
              let amount := remove_suffix base exponent amount in
              let sign := Dec.Sign amount in
              let amount := if sign =? -1 then Dec.Neg amount else amount in
              amount ← round_amount amount;
              amount ← cap amount;
              format ← small_format format amount;
              Return (Ok (mkQuantity (Some (if sign =? -1 then Dec.Neg amount else amount)) format))
          end
      end
  end.

Definition MustParse (s : str) : control Quantity :=
  r ← ParseQuantity s;
  match r with Ok q => Return q | Err _ => Panic (lit "cannot parse '" ++ s ++ lit "'") end.

(** ** Printing *)

(** [DivMod] by a factor above zero rounds down.  Each round divides [d] by
    the factor, so that there are at most as many as [d] has bits. *)
Fixpoint remove_loop (fuel : nat) (d factor times : Z) : Z * Z :=
  match fuel with
  | O => (d, times)
  | S fuel =>
      if d =? 0 then (d, times)
      else if d mod factor =? 0 then remove_loop fuel (d / factor) factor (times + 1) else (d, times)
  end.
Definition removeFactors (d factor : Z) : Z * Z := remove_loop (S (Z.to_nat (Z.log2 (Z.abs d)))) d factor 0.

(** The loop that makes the exponent a multiple of three; it has at most two
    rounds. *)
Fixpoint align (fuel : nat) (amount exponent : Z) : Z * Z :=
  match fuel with
  | O => (amount, exponent)
  | S fuel => if Z.rem exponent 3 =? 0 then (amount, exponent) else align fuel (amount * 10) (exponent - 1)
  end.

(** The format that is really used. *)
Definition print_format (amount : Dec) (format : Format) : control Format :=
  if decide (format = DecimalExponent ∨ format = DecimalSI) then Return format
  else if decide (format = BinarySI) then
    lo ← Dec.Cmp amount decMinus1024;
    hi ← (if 0 <? lo then Dec.Cmp amount dec1024 else Return 0);
    if (0 <? lo) && (hi <? 0) then Return DecimalSI
    else
      tmp ← set_round (mkDec 0 0) amount 0 RoundUp;
      c ← Dec.Cmp tmp amount;
      Return (if decide (c ≠ 0) then DecimalSI else format)
  else Return DecimalExponent.

Definition print_decimal (amount : Dec) (format : Format) : str * str :=
  let '(m, times) := removeFactors (unscaled amount) 10 in
  let '(m, exponent) := align 2 m (wrap32 (- scale amount) + times) in
  (itoa m, default [] (construct 10 exponent format quantitySuffixer)).

Definition print_binary (amount : Dec) (format : Format) : control (str * str) :=
  tmp ← set_round (mkDec 0 0) amount 0 RoundUp;
  let '(m, exponent) := removeFactors (unscaled tmp) 1024 in
  Return (itoa m, default [] (construct 2 (exponent * 10) format quantitySuffixer)).

Definition Canonicalize (q : Quantity) : control (str * str) :=
  match Amount q with
  | None => Return (lit "0", [])
  | Some amount =>
      c ← Dec.Cmp amount (mkDec 0 0);
      if c =? 0 then Return (lit "0", [])
      else
        format ← print_format amount (Fmt q);
        if decide (format = DecimalExponent ∨ format = DecimalSI) then Return (print_decimal amount format)
        else if decide (format = BinarySI) then print_binary amount format
        else Return (lit "0", [])
  end.

Definition String_ (q : Quantity) : control str := '(number, suffix) ← Canonicalize q; Return (number ++ suffix).

(** ** The other methods *)

Definition NewQuantity (value : Z) (format : Format) : Quantity := mkQuantity (Some (NewDec value 0)) format.
Definition NewMilliQuantity (value : Z) (format : Format) : Quantity := mkQuantity (Some (NewDec value 3)) format.

Definition nil_pointer {A} : control A := Panic (lit "nil pointer").

(** The unscaled value as [Int64] gives it. *)
Definition rounded_int64 (x : Dec) : control Z :=
  o ← Round x 0 RoundUp;
  match o with Some z => Return (wrap64 (unscaled z)) | None => nil_pointer end.

Definition Value (q : Quantity) : control Z :=
  match Amount q with None => Return 0 | Some amount => rounded_int64 amount end.
Definition MilliValue (q : Quantity) : control Z :=
  match Amount q with None => Return 0 | Some amount => rounded_int64 (Dec.Mul amount decThousand) end.

Definition Cmp (q y : Quantity) : control Z :=
  num1 ← Value q;
  num2 ← Value y;
  '(num1, num2) ←
    (if (num1 <? MaxMilliValue) && (num2 <? MaxMilliValue) then
       num1 ← MilliValue q; num2 ← MilliValue y; Return (num1, num2)
     else Return (num1, num2));
  Return (if num1 <? num2 then -1 else if num2 <? num1 then 1 else 0).

Definition with_amounts (f : Dec → Dec → control Dec) (q y : Quantity) : control Quantity :=
  match Amount q, Amount y with
  | Some a, Some b => c ← f a b; Return (mkQuantity (Some c) (Fmt q))
  | _, _ => nil_pointer
  end.
Definition Add (q y : Quantity) : control Quantity := with_amounts Dec.Add q y.

(** [Err]: the formats, which differ. *)
Definition Sub (q y : Quantity) : control (result (Format * Format) Quantity) :=
  if decide (Fmt q ≠ Fmt y) then Return (Err (Fmt q, Fmt y))
  else q' ← with_amounts Dec.Sub q y; Return (Ok q').

Definition MarshalJSON (q : Quantity) : control str := s ← String_ q; Return (dquote :: s ++ [dquote]).
(** The quantity afterwards, and the error. *)
Definition UnmarshalJSON (value : str) (q : Quantity) : control (Quantity * option quantity_error) :=
  r ← ParseQuantity (trim (λ c, bool_decide (c = dquote)) value);
  Return (match r with Ok parsed => (parsed, None) | Err e => (q, Some e) end).

Definition set_amount (value scale : Z) (q : Quantity) : Quantity :=
  let amount := default (mkDec 0 0) (Amount q) in
  mkQuantity (Some (Dec.SetScale scale (Dec.SetUnscaled value amount))) (Fmt q).
Definition Set_ (value : Z) (q : Quantity) : Quantity := set_amount value 0 q.
Definition SetMilli (value : Z) (q : Quantity) : Quantity := set_amount value 3 q.

Definition Copy (q : Quantity) : Quantity :=
  match Amount q with None => NewQuantity 0 (Fmt q) | Some amount => mkQuantity (Some amount) (Fmt q) end.

(** The flag, over the quantity it points at. *)
Definition qFlag_Set (val : str) (dest : Quantity) : control (Quantity * option quantity_error) :=
  r ← ParseQuantity val;
  Return (match r with Ok q => (q, None) | Err e => (dest, Some e) end).
Definition qFlag_String (dest : Quantity) : control str := String_ dest.
Definition qFlag_Type : str := lit "quantity".
