(* ===== verification/QuantitySpec.v ===== *)
(** * Quantities of resources (proofs about [Quantity])

    What is accepted and what it is parsed to, that printing loses nothing
    and is parsed back, and how quantities compare. *)

From S2P Require Import Prelude GoStr Utf8 Json Dec DecSpec Quantity.

Local Open Scope go_scope.
Local Open Scope Z_scope.

(** ** The text of a quantity *)

Record parts := mkParts { p_sign : option bool; p_int : str; p_fraction : option str; p_suffix : str }.

(** [Some true] is a minus. *)
Definition sign_text (o : option bool) : str :=
  match o with None => [] | Some true => ["-"%char] | Some false => ["+"%char] end.
Definition fraction_text (o : option str) : str := match o with None => [] | Some f => "."%char :: f end.
Definition number_text (p : parts) : str := sign_text (p_sign p) ++ p_int p ++ fraction_text (p_fraction p).
Definition text (p : parts) : str := number_text p ++ p_suffix p.

Definition p_digits (p : parts) : str := p_int p ++ default [] (p_fraction p).

Definition all_digits (s : str) : Prop := Forall (λ c, is_digit c = true) s.

(** [<signedNumber><suffix>] of the documentation. *)
Definition well_formed (p : parts) : Prop :=
  all_digits (p_digits p) ∧ p_digits p ≠ [] ∧ is_Some (interpret (p_suffix p) quantitySuffixer).

(** The digits as one number, and with the sign. *)
Definition digits_value (s : str) : Z := default 0 (big_digits 0 s).
Definition p_unscaled (p : parts) : Z :=
  let u := digits_value (p_digits p) in if decide (p_sign p = Some true) then - u else u.
Definition p_scale (p : parts) : Z := Z.of_nat (length (default [] (p_fraction p))).

(** ** Reading a number *)

Lemma big_digits_app n s t :
  all_digits s → big_digits n (s ++ t) = big_digits (default 0 (big_digits n s)) t.
Proof. intros Hs. revert n. induction Hs as [|c s Hc _ IH]; intros n; simpl; [done|]. by rewrite Hc. Qed.

Lemma big_digits_total n s : all_digits s → ∃ z, big_digits n s = Some z.
Proof. intros Hs. revert n. induction Hs as [|c s Hc _ IH]; intros n; simpl; [eauto|]. by rewrite Hc. Qed.

Lemma big_digits_nonneg n s z : 0 ≤ n → big_digits n s = Some z → 0 ≤ z.
Proof.
  revert n. induction s as [|c s IH]; intros n Hn; simpl; [by intros [= <-]|].
  destruct (is_digit c) eqn:Hc; [|done]. apply IH. unfold is_digit in Hc. apply bool_decide_eq_true in Hc. lia.
Qed.

Lemma digits_value_spec s : all_digits s → big_digits 0 s = Some (digits_value s) ∧ 0 ≤ digits_value s.
Proof.
  intros Hs. unfold digits_value. destruct (big_digits_total 0 s Hs) as [z Hz]. rewrite Hz.
  split; [done|]. by apply (big_digits_nonneg 0 s).
Qed.

Lemma digit_not c : is_digit c = true → c ≠ "+"%char ∧ c ≠ "-"%char ∧ c ≠ "."%char.
Proof. intros Hc. repeat split; intros ->; discriminate Hc. Qed.

(** The loop over digits. *)
Lemma scan_digits ds t un dp dg :
  all_digits ds →
  scan_loop (ds ++ t) un dp dg =
  scan_loop t (un ++ ds) dp (if decide (ds = []) then dg else if dg =? -1 then Z.of_nat (length un) else dg).
Proof.
  intros Hds. revert un dg. induction Hds as [|c ds Hc Hds IH]; intros un dg; [by rewrite app_nil_r|].
  destruct (digit_not c Hc) as (H1 & H2 & H3). rewrite decide_False by done. simpl.
  rewrite decide_False by naive_solver. rewrite decide_False by done. rewrite Hc, IH, <- app_assoc. f_equal.
  destruct (Z.eqb_spec dg (-1)); case_decide; try done.
  - destruct (Z.eqb_spec (Z.of_nat (length un)) (-1)); [lia|done].
  - by destruct (Z.eqb_spec dg (-1)).
Qed.

Lemma scan_sign o t : scan_loop (sign_text o ++ t) [] (-1) (-1) = scan_loop t (sign_text o) (-1) (-1).
Proof. by destruct o as [[]|]. Qed.

Lemma scan_fraction o un dg :
  (∀ f, o = Some f → all_digits f) →
  scan_loop (fraction_text o) un (-1) dg =
  (un ++ default [] o, match o with Some _ => Z.of_nat (length un) | None => -1 end,
   if decide (default [] o = []) then dg else if dg =? -1 then Z.of_nat (length un) else dg, []).
Proof.
  intros Hf. destruct o as [f|]; simpl; [|by rewrite app_nil_r].
  rewrite <- (app_nil_r f) at 1. by rewrite scan_digits by auto.
Qed.

Lemma big_of_text o s :
  all_digits s → s ≠ [] →
  big_of_string (sign_text o ++ s) = Some (if decide (o = Some true) then - digits_value s else digits_value s).
Proof.
  intros Hs Hne. destruct (digits_value_spec s Hs) as [Hv _].
  assert (Hu : big_unsigned s = Some (digits_value s)) by (by destruct s).
  destruct o as [[]|]; simpl; [by rewrite Hu|done|].
  destruct s as [|c s]; [done|]. apply Forall_cons_iff in Hs as [Hc _].
  destruct (digit_not c Hc) as (H1 & H2 & H3). simpl. rewrite decide_False by done. by rewrite decide_False by done.
Qed.

Lemma SetString_text p :
  all_digits (p_digits p) → p_digits p ≠ [] →
  SetString (number_text p) = Some (mkDec (p_unscaled p) (wrap32 (p_scale p))).
Proof.
  intros Hd Hne. pose proof Hd as Hd'. unfold p_digits in Hd'. apply Forall_app in Hd' as [Hi Hf].
  unfold SetString, scan, number_text. rewrite scan_sign, scan_digits by done.
  rewrite scan_fraction by (intros f E; rewrite E in Hf; exact Hf).
  rewrite <- app_assoc. fold (p_digits p). rewrite big_of_text by done.
  match goal with |- context [if ?dg =? -1 then None else _] => assert (Hdg : dg =? -1 = false) end.
  { apply Z.eqb_neq. pose proof (Nat2Z.is_nonneg (length (sign_text (p_sign p)))) as H1.
    pose proof (Nat2Z.is_nonneg (length (sign_text (p_sign p) ++ p_int p))) as H2.
    revert H1 H2. generalize (Z.of_nat (length (sign_text (p_sign p)))), (Z.of_nat (length (sign_text (p_sign p) ++ p_int p))).
    intros a b Ha Hb. unfold p_digits in Hne. change (-1 =? -1) with true.
    destruct (decide (default [] (p_fraction p) = [])) as [E1|]; destruct (decide (p_int p = [])) as [E2|]; cbv iota; change (-1 =? -1) with true; cbv iota; try lia;
      [by rewrite E1, E2 in Hne|destruct (a =? -1) eqn:E; lia]. }
  rewrite Hdg. simpl. unfold p_unscaled, p_scale. do 2 f_equal. unfold p_digits.
  destruct (p_fraction p) as [f|]; simpl; [|done].
  destruct (Z.leb_spec 0 (Z.of_nat (length (sign_text (p_sign p) ++ p_int p)))); [|lia].
  f_equal. rewrite !length_app. simpl. lia.
Qed.

(** ** Suffixes *)

Definition dec_table : list (str * bePair) :=
  [(lit "", (10, 0)); (lit "m", (10, -3)); (lit "k", (10, 3)); (lit "M", (10, 6)); (lit "G", (10, 9)); (lit "T", (10, 12));
   (lit "P", (10, 15)); (lit "E", (10, 18))].
Definition bin_table : list (str * bePair) :=
  [(lit "Ki", (2, 10)); (lit "Mi", (2, 20)); (lit "Gi", (2, 30)); (lit "Ti", (2, 40)); (lit "Pi", (2, 50));
   (lit "Ei", (2, 60))].

Ltac table_cases H :=
  apply elem_of_map_to_list in H; vm_compute in H;
  repeat (apply elem_of_cons in H as [H|H]; [injection H as ? ?; subst|]); [..|by apply elem_of_nil in H].

Lemma dec_lookup s be : lookup_suffix s (decSuffixes quantitySuffixer) = Some be → (s, be) ∈ dec_table.
Proof. intros H. unfold lookup_suffix in H. table_cases H; vm_compute; set_solver. Qed.

Lemma bin_lookup s be : lookup_suffix s (binSuffixes quantitySuffixer) = Some be → (s, be) ∈ bin_table.
Proof. intros H. unfold lookup_suffix in H. table_cases H; vm_compute; set_solver. Qed.

Lemma parse_uint_loop_digits n s m : parse_uint_loop 10 n s = (m, None) → all_digits s.
Proof.
  revert n. induction s as [|c s IH]; intros n; simpl; [constructor|].
  destruct (digit_value c) as [v|] eqn:Hv; [|done]. destruct (Z.leb_spec 10 v); [done|].
  destruct (max_uint64 <? n * 10 + v); [done|]. intros H'. constructor; [|by eapply IH].
  unfold digit_value in Hv. unfold is_digit.
  repeat match type of Hv with (if bool_decide ?P then _ else _) = _ => destruct (bool_decide_reflect P) end;
    simplify_eq; [done|lia..].
Qed.

Lemma parse_uint_loop_range n s m : parse_uint_loop 10 n s = (m, Some ErrRange) → m = max_uint64.
Proof.
  revert n. induction s as [|c s IH]; intros n; cbn [parse_uint_loop]; [done|].
  destruct (digit_value c) as [v|]; [|done]. destruct (10 <=? v); [done|].
  destruct (max_uint64 <? n * 10 + v); [by intros [= <-]|apply IH].
Qed.

(** What [ParseInt] accepts is a number with a sign or without. *)
Lemma parse_int_shape s z : parse_int 10 s = (z, None) → ∃ o d, s = sign_text o ++ d ∧ all_digits d ∧ d ≠ [].
Proof.
  unfold parse_int, parse_uint. destruct s as [|c t]; [done|].
  set (body := if decide (c = "+"%char ∨ c = "-"%char) then t else c :: t). intros H.
  assert (Hd : all_digits body ∧ body ≠ []).
  { destruct body as [|b u] eqn:Hb; [done|]. split; [|done]. change (10 =? 0) with false in H. cbv iota in H.
    destruct (parse_uint_loop 10 0 (b :: u)) as [un [e|]] eqn:E; [|by eapply parse_uint_loop_digits].
    exfalso. destruct e; [done|]. apply parse_uint_loop_range in E as ->.
    unfold max_uint64 in H. destruct (bool_decide (c = "-"%char)); simpl in H; done. }
  destruct (decide (c = "+"%char ∨ c = "-"%char)) as [[->| ->]|Hno]; unfold body in *.
  - by exists (Some false), t.
  - by exists (Some true), t.
  - by exists None, (c :: t).
Qed.

(** A suffix that is understood: letters, a sign and digits, or nothing. *)
Lemma interpret_shape s r :
  interpret s quantitySuffixer = Some r →
  ∃ l o d, s = l ++ sign_text o ++ d ∧ Forall (λ c, is_letter c = true) l ∧ all_digits d ∧ (l = [] → s = []).
Proof.
  intros H. unfold interpret in H.
  assert (Hletters : Forall (λ c, is_letter c = true) s →
    ∃ l o d, s = l ++ sign_text o ++ d ∧ Forall (λ c, is_letter c = true) l ∧ all_digits d ∧ (l = [] → s = [])).
  { intros Hs. exists s, None, []. simpl. rewrite app_nil_r. repeat split; [done|constructor|done]. }
  destruct (lookup_suffix s (decSuffixes _)) as [be|] eqn:E1.
  { apply dec_lookup in E1. apply Hletters. clear -E1.
    repeat (apply elem_of_cons in E1 as [E1|E1]; [injection E1 as -> _; by repeat constructor|]). by apply elem_of_nil in E1. }
  destruct (lookup_suffix s (binSuffixes _)) as [be|] eqn:E2.
  { apply bin_lookup in E2. apply Hletters. clear -E2.
    repeat (apply elem_of_cons in E2 as [E2|E2]; [injection E2 as -> _; by repeat constructor|]). by apply elem_of_nil in E2. }
  destruct s as [|c [|c' t]]; [done..|]. case_decide as Hc; [|done].
  destruct (parse_int 10 (c' :: t)) as [z [|]] eqn:Hp; [done|].
  destruct (parse_int_shape _ _ Hp) as (o & d & Ht & Hd & _). exists [c], o, d. simpl. rewrite Ht.
  repeat split; [|done..]. constructor; [|constructor]. by destruct Hc as [->| ->].
Qed.

(** ** Splitting *)

Lemma span_app (f : ascii → bool) u v :
  Forall (λ c, f c = true) u → (∀ c t, v = c :: t → f c = false) → span f (u ++ v) = (u, v).
Proof.
  intros Hu Hv. induction Hu as [|c u Hc _ IH]; simpl.
  - destruct v as [|c t]; [done|]. simpl. by rewrite (Hv c t).
  - by rewrite Hc, IH.
Qed.

Lemma letter_not_number c : is_letter c = true → is_number c = false ∧ is_sign c = false.
Proof. by_bytes c. Qed.
Lemma digit_number c : is_digit c = true → is_number c = true ∧ is_sign c = false ∧ is_letter c = false.
Proof. by_bytes c. Qed.
Lemma sign_not_letter c : is_sign c = true → is_letter c = false.
Proof. by_bytes c. Qed.

Lemma span_sign_text o s : (∀ c t, s = c :: t → is_sign c = false) → span_sign (sign_text o ++ s) = (sign_text o, s).
Proof. intros Hs. destruct o as [[]|]; [done..|]. destruct s as [|c t]; [done|]. simpl. by rewrite (Hs c t). Qed.

Lemma digits_head s c t : all_digits s → s = c :: t → is_digit c = true.
Proof. intros Hs ->. by apply Forall_cons_iff in Hs as [? _]. Qed.

(** The middle of a number: digits and a point. *)
Lemma number_chars p :
  all_digits (p_digits p) → Forall (λ c, is_number c = true) (p_int p ++ fraction_text (p_fraction p)).
Proof.
  intros Hd. unfold p_digits in Hd. apply Forall_app in Hd as [Hi Hf].
  assert (Hall : ∀ s, all_digits s → Forall (λ c, is_number c = true) s)
    by (intros s Hs; eapply list.Forall_impl; [exact Hs|intros c Hc; by apply digit_number]).
  apply Forall_app. split; [by apply Hall|]. destruct (p_fraction p); simpl in *; [|constructor].
  constructor; [done|by apply Hall].
Qed.

Lemma splitRE_text p : well_formed p → splitRE (text p) = Some (number_text p, p_suffix p).
Proof.
  intros (Hd & Hne & [r Hr]). destruct (interpret_shape _ _ Hr) as (l & o & d & Hs & Hl & Hdd & Hnil).
  unfold splitRE, text, number_text. rewrite <- !app_assoc.
  pose proof (number_chars p Hd) as Hnum.
  assert (Hmid : p_int p ++ fraction_text (p_fraction p) ≠ []).
  { intros E. apply app_eq_nil in E as [E1 E2]. unfold p_digits in Hne. rewrite E1 in Hne.
    by destruct (p_fraction p). }
  assert (Hsuffix : ∀ c t, p_suffix p = c :: t → is_number c = false).
  { intros c t E. rewrite Hs in E. destruct l as [|c' l]; [rewrite Hs in Hnil; by rewrite Hnil in E|].
    simplify_eq/=. apply Forall_cons_iff in Hl as [Hl _]. by apply letter_not_number. }
  rewrite span_sign_text.
  2: { intros c t E. rewrite app_assoc in E. destruct (p_int p ++ fraction_text (p_fraction p)) as [|c' k]; [done|].
       simplify_eq/=. apply Forall_cons_iff in Hnum as [Hn _]. revert Hn. clear. by_bytes c. }
  rewrite (app_assoc (p_int p)). rewrite span_app by done. rewrite decide_False by done.
  rewrite Hs at 1. rewrite span_app; [|done|].
  2: { intros c t E. destruct o as [[]|]; simplify_eq/=; [done..|]. apply digit_number. by eapply digits_head. }
  rewrite span_sign_text by (intros c t E; apply digit_number; by eapply digits_head).
  rewrite <- (app_nil_r d) at 1. rewrite span_app by (done || (by intros)). done.
Qed.

(** ** What the parser makes of the amount *)

(** Milli-units. *)
Definition milli (x : Dec) : Z := at_scale 3 x.
Definition max_milli : Z := (2 ^ 63 - 1) * 1000.

(** No finer than a milli-unit. *)
Definition normal (x : Dec) : Prop := small_scale (scale x) ∧ (unscaled x = 0 ∨ scale x ≤ 3).

(** The value, in milli-units: rounded away from zero, and cut. *)
Definition rounded_milli (x : Dec) : Z :=
  Z.sgn (unscaled x) * Z.min (div_up (Z.abs (numerator 3 x)) (denominator 3 x)) max_milli.

Lemma normal_milli x : normal x → scale x ≤ 3 ∨ milli x = 0.
Proof. intros [_ [Hu|Hs]]; [right|by left]. unfold milli, at_scale. rewrite Hu. lia. Qed.

Lemma Cmp_int x c : normal x → Dec.Cmp x (NewDec c 0) = Return (big_cmp (milli x) (c * 1000)).
Proof.
  intros [Hs Hn]. rewrite (Cmp_at (Z.max 3 (scale x))) by (unfold small_scale in *; simpl; lia).
  f_equal. unfold at_scale, milli, at_scale. simpl.
  replace (Z.max 3 (scale x) - 0) with (3 + (Z.max 3 (scale x) - 3)) by lia.
  rewrite pow10_add by lia. change (10 ^ 3) with 1000. rewrite (Z.mul_assoc c 1000).
  destruct Hn as [Hu|Hs3].
  - rewrite Hu, Z.mul_0_l. rewrite <- (Z.mul_0_l (10 ^ (Z.max 3 (scale x) - 3))) at 1.
    rewrite big_cmp_scale; [by rewrite Z.mul_0_l|]. apply pow10_pos. lia.
  - rewrite Z.max_l by lia. by rewrite Z.sub_diag, Z.pow_0_r, Z.mul_1_r.
Qed.

(** What is behind the reading of the text. *)
Definition finish (amount : Dec) (format : Format) : control (result quantity_error Quantity) :=
  let sign := Dec.Sign amount in
  let amount := if sign =? -1 then Dec.Neg amount else amount in
  amount ← round_amount amount;
  amount ← cap amount;
  format ← small_format format amount;
  Return (Ok (mkQuantity (Some (if sign =? -1 then Dec.Neg amount else amount)) format)).

Lemma round_amount_spec x :
  small_scale (scale x) → 0 ≤ unscaled x →
  ∃ y, round_amount x = Return y ∧ normal y ∧ milli y = div_up (numerator 3 x) (denominator 3 x).
Proof.
  intros Hs Hu. unfold round_amount, Dec.Unscaled.
  assert (Hz : (wrap64 (unscaled x) ≠ 0 ∨ bool_decide (wrap64 (unscaled x) = unscaled x) = false) ↔ unscaled x ≠ 0).
  { rewrite bool_decide_eq_false. split; [intros [H|H] E|intros H].
    - by rewrite E in H.
    - by rewrite E in H.
    - destruct (decide (wrap64 (unscaled x) = unscaled x)) as [E|]; [left; congruence|by right]. }
  destruct (decide (wrap64 (unscaled x) ≠ 0 ∨ _)) as [Hd|Hd]; rewrite Hz in Hd.
  - unfold set_round. rewrite Round_rounding by (done || (unfold small_scale; lia)). simpl.
    eexists. split; [reflexivity|]. unfold normal, small_scale, milli, at_scale. simpl.
    assert (0 < numerator 3 x) by (apply Z.mul_pos_pos; [lia|apply pow10_pos; lia]).
    rewrite Z.sgn_pos, Z.abs_eq by lia. split; lia.
  - exists x. split; [done|]. assert (unscaled x = 0) as E by lia. split; [by split; [|left]|].
    unfold milli, at_scale, numerator. rewrite E, !Z.mul_0_l. symmetry.
    pose proof (denominator_pos 3 x). apply div_up_spec; lia.
Qed.

Lemma Neg_milli x : milli (Dec.Neg x) = - milli x.
Proof. unfold milli, at_scale. simpl. lia. Qed.

Lemma Neg_normal x : normal x → normal (Dec.Neg x).
Proof. intros [H1 H2]. split; simpl; [done|lia]. Qed.

Lemma cap_spec x : normal x → ∃ y, cap x = Return y ∧ normal y ∧ milli y = Z.min (milli x) max_milli.
Proof.
  intros Hn. unfold cap, maxAllowed. rewrite Cmp_int by done. cbn [mbind control_bind].
  change ((2 ^ 63 - 1) * 1000) with max_milli. eexists. split; [reflexivity|].
  destruct (Z.ltb_spec 0 (big_cmp (milli x) max_milli)) as [H|H].
  - rewrite big_cmp_pos in H. rewrite Z.min_r by lia. split; [split; simpl; unfold small_scale; lia|done].
  - assert (¬ 0 < big_cmp (milli x) max_milli) as Hc by lia. rewrite big_cmp_pos in Hc.
    rewrite Z.min_l by lia. done.
Qed.

Definition small_binary (format : Format) (x : Dec) : Format :=
  if decide (format = BinarySI ∧ 0 < milli x < 1000) then DecimalSI else format.

Lemma small_format_spec format x : normal x → small_format format x = Return (small_binary format x).
Proof.
  intros Hn. unfold small_format, small_binary, decOne, decZero. rewrite !Cmp_int by done. rewrite Z.mul_0_l, Z.mul_1_l. simpl.
  destruct (decide (format = BinarySI)) as [Hf|Hf].
  - destruct (Z.ltb_spec (big_cmp (milli x) 1000) 0) as [H|H]; simpl.
    + rewrite big_cmp_neg in H. f_equal. destruct (Z.ltb_spec 0 (big_cmp (milli x) 0)) as [H'|H'].
      * rewrite big_cmp_pos in H'. by rewrite decide_True by done.
      * rewrite decide_False; [done|]. intros [_ [Hc _]]. pose proof (proj2 (big_cmp_pos (milli x) 0) Hc). lia.
    + rewrite decide_False; [done|]. intros [_ [_ Hc]]. pose proof (proj2 (big_cmp_neg (milli x) 1000) Hc). lia.
  - by rewrite decide_False by tauto.
Qed.

Lemma finish_spec x format :
  small_scale (scale x) →
  ∃ a fmt, finish x format = Return (Ok (mkQuantity (Some a) fmt)) ∧ normal a ∧ milli a = rounded_milli x ∧
    fmt = (if decide (format = BinarySI ∧ 0 < Z.abs (milli a) < 1000) then DecimalSI else format).
Proof.
  intros Hs. unfold finish, Dec.Sign.
  set (x' := if Z.sgn (unscaled x) =? -1 then Dec.Neg x else x).
  assert (Hx' : small_scale (scale x') ∧ unscaled x' = Z.abs (unscaled x) ∧ scale x' = scale x).
  { unfold x'. destruct (Z.eqb_spec (Z.sgn (unscaled x)) (-1)); simpl; (split; [done|split; [lia|done]]). }
  destruct Hx' as (Hs' & Hu' & Hsc).
  assert (Hnum : numerator 3 x' = Z.abs (numerator 3 x) ∧ denominator 3 x' = denominator 3 x).
  { unfold numerator, denominator. rewrite Hu', Hsc, Z.abs_mul. split; [|done]. f_equal.
    symmetry. apply Z.abs_eq. apply Z.lt_le_incl, pow10_pos. lia. }
  destruct (round_amount_spec x' Hs' ltac:(lia)) as (y & -> & Hyn & Hym).
  destruct (cap_spec y Hyn) as (z & Hz & Hzn & Hzm). simpl. rewrite Hz. simpl.
  rewrite small_format_spec by done. simpl. eexists _, _. split; [reflexivity|].
  rewrite Hym, (proj1 Hnum), (proj2 Hnum) in Hzm.
  assert (Hnn : 0 ≤ milli z).
  { rewrite Hzm. apply Z.min_glb; [|by unfold max_milli; lia]. apply Z.div_pos; [|apply denominator_pos].
    pose proof (denominator_pos 3 x). lia. }
  assert (Hzero : unscaled x = 0 → milli z = 0).
  { intros E. rewrite Hzm. unfold numerator. rewrite E, Z.mul_0_l. pose proof (denominator_pos 3 x).
    rewrite (proj2 (div_up_spec (Z.abs 0) (denominator 3 x) 0 ltac:(lia)) ltac:(lia)). done. }
  unfold rounded_milli. rewrite <- Hzm. unfold small_binary.
  destruct (Z.eqb_spec (Z.sgn (unscaled x)) (-1)) as [E|E].
  - split; [by apply Neg_normal|]. rewrite Neg_milli, E. split; [lia|]. by rewrite Z.abs_opp, Z.abs_eq by done.
  - split; [done|]. rewrite Z.abs_eq by done. split; [|done].
    destruct (Z.eq_dec (unscaled x) 0) as [E0|]; [rewrite E0, Hzero by done; lia|]. rewrite Z.sgn_pos by lia. lia.
Qed.

(** ** What is accepted, and its value *)

(** The number a text denotes, with the base and the exponent of its suffix. *)
Definition denoted (p : parts) (base exponent : Z) : Dec :=
  mkDec (p_unscaled p * if base =? 2 then 2 ^ exponent else 1) (p_scale p - if base =? 10 then exponent else 0).

Lemma interpret_base s b e f : interpret s quantitySuffixer = Some (b, e, f) → b = 10 ∨ b = 2 ∧ 0 ≤ e.
Proof.
  unfold interpret. intros H.
  destruct (lookup_suffix s (decSuffixes _)) as [[b' e']|] eqn:E1.
  { apply dec_lookup in E1. simplify_eq. repeat (apply elem_of_cons in E1 as [E1|E1]; [injection E1; intros; subst; auto|]).
    by apply elem_of_nil in E1. }
  destruct (lookup_suffix s (binSuffixes _)) as [[b' e']|] eqn:E2.
  { apply bin_lookup in E2. simplify_eq.
    repeat (apply elem_of_cons in E2 as [E2|E2]; [injection E2; intros; subst; right; split; [done|lia]|]). by apply elem_of_nil in E2. }
  destruct s as [|c [|c' t]]; [done..|]. case_decide; [|done].
  destruct (parse_int 10 (c' :: t)) as [z [|]]; [done|]. simplify_eq. by left.
Qed.

Definition small_text (p : parts) (exponent : Z) : Prop := p_scale p ≤ 2 ^ 28 ∧ Z.abs exponent ≤ 2 ^ 28.

Lemma remove_suffix_denoted p b e :
  b = 10 ∨ b = 2 ∧ 0 ≤ e → small_text p e →
  remove_suffix b e (mkDec (p_unscaled p) (wrap32 (p_scale p))) = denoted p b e ∧ small_scale (scale (denoted p b e)).
Proof.
  intros Hb [H1 H2]. unfold remove_suffix, denoted, Dec.SetScale, Dec.SetUnscaledBig. simpl.
  assert (0 ≤ p_scale p) by (unfold p_scale; lia). unwrap.
  destruct Hb as [->|[-> He]]; simpl.
  - unwrap. rewrite Z.mul_1_r. split; [f_equal; lia|unfold small_scale; simpl; lia].
  - rewrite Z.shiftl_1_l. rewrite Z.sub_0_r. split; [done|unfold small_scale; simpl; lia].
Qed.

Lemma Parse_unfold s num suf amount b e f :
  splitRE (trim_space_runes s) = Some (num, suf) → Dec.SetString num = Some amount →
  interpret suf quantitySuffixer = Some (b, e, f) →
  ParseQuantity s = finish (remove_suffix b e amount) f.
Proof. intros H1 H2 H3. unfold ParseQuantity. by rewrite H1, H2, H3. Qed.

Lemma Parse_text p s b e f :
  trim_space_runes s = text p → well_formed p → interpret (p_suffix p) quantitySuffixer = Some (b, e, f) →
  small_text p e →
  ∃ a fmt, ParseQuantity s = Return (Ok (mkQuantity (Some a) fmt)) ∧ normal a ∧ milli a = rounded_milli (denoted p b e) ∧
    fmt = (if decide (f = BinarySI ∧ 0 < Z.abs (milli a) < 1000) then DecimalSI else f).
Proof.
  intros Ht Hw Hi Hsm. destruct (remove_suffix_denoted p b e (interpret_base _ _ _ _ Hi) Hsm) as [Hr Hsc].
  pose proof Hw as (Hd & Hne & _).
  erewrite Parse_unfold; [|rewrite Ht; by apply splitRE_text|by apply SetString_text|exact Hi].
  rewrite Hr. by apply finish_spec.
Qed.

(** *** Only such a text is accepted *)

Lemma span_spec (f : ascii → bool) s u v :
  span f s = (u, v) → s = u ++ v ∧ Forall (λ c, f c = true) u ∧ (∀ c t, v = c :: t → f c = false).
Proof.
  revert u v. induction s as [|c s IH]; intros u v; simpl; [intros [= <- <-]; by repeat split|].
  destruct (f c) eqn:Hc.
  - destruct (span f s) as [u' v'] eqn:E. intros [= <- <-]. destruct (IH u' v' eq_refl) as (-> & Hu & Hv).
    repeat split; auto.
  - intros [= <- <-]. repeat split; [constructor|]. by intros c' t [= <- <-].
Qed.

Lemma span_sign_spec s u v : span_sign s = (u, v) → ∃ o, u = sign_text o ∧ s = u ++ v.
Proof.
  unfold span_sign. destruct s as [|c t]; [intros [= <- <-]; by exists None|].
  destruct (is_sign c) eqn:Hc; intros [= <- <-]; [|by exists None].
  unfold is_sign in Hc. apply bool_decide_eq_true in Hc as [->| ->]; [by exists (Some false)|by exists (Some true)].
Qed.

Lemma splitRE_spec s num suf :
  splitRE s = Some (num, suf) →
  s = num ++ suf ∧ ∃ o k, num = sign_text o ++ k ∧ Forall (λ c, is_number c = true) k.
Proof.
  unfold splitRE. destruct (span_sign s) as [sg s1] eqn:E1. destruct (span is_number s1) as [k s2] eqn:E2.
  case_decide; [done|]. destruct (span is_letter s2) as [l s3], (span_sign s3) as [sg' s4], (span is_digit s4) as [d s5].
  case_decide; [|done]. intros [= <- <-]. destruct (span_sign_spec _ _ _ E1) as (o & -> & ->).
  destruct (span_spec _ _ _ _ E2) as (-> & Hk & _). split; [by rewrite <- app_assoc|]. by exists o, k.
Qed.

Lemma scan_point t un dp dg :
  scan_loop ("."%char :: t) un dp dg =
  if decide (0 ≤ dp) then (un, dp, dg, "."%char :: t) else scan_loop t un (Z.of_nat (length un)) dg.
Proof. done. Qed.

(** Digits, and then the end or a point. *)
Lemma number_split k :
  Forall (λ c, is_number c = true) k →
  ∃ ds t, k = ds ++ t ∧ all_digits ds ∧ Forall (λ c, is_number c = true) t ∧ (t = [] ∨ ∃ u, t = "."%char :: u).
Proof.
  intros Hk. destruct (span is_digit k) as [ds t] eqn:E. destruct (span_spec _ _ _ _ E) as (-> & Hds & Ht).
  apply Forall_app in Hk as [_ Hk]. exists ds, t. repeat split; [done..|].
  destruct t as [|c u]; [by left|right]. exists u. f_equal. specialize (Ht c u eq_refl).
  apply Forall_cons_iff in Hk as [Hc _]. unfold is_number in Hc. rewrite Ht in Hc. by apply bool_decide_eq_true in Hc.
Qed.

Lemma SetString_parts o k z :
  Forall (λ c, is_number c = true) k → Dec.SetString (sign_text o ++ k) = Some z →
  ∃ ip fr, k = ip ++ fraction_text fr ∧ all_digits (ip ++ default [] fr) ∧ ip ++ default [] fr ≠ [].
Proof.
  intros Hk. destruct (number_split k Hk) as (ip & t & -> & Hip & Ht & Hcase).
  assert (Hscan : ∀ t', all_digits ip → scan_loop (sign_text o ++ ip ++ t') [] (-1) (-1) =
    scan_loop t' (sign_text o ++ ip) (-1) (if decide (ip = []) then -1 else Z.of_nat (length (sign_text o)))).
  { intros t' H. by rewrite scan_sign, scan_digits. }
  unfold Dec.SetString, scan. rewrite Hscan by done. destruct Hcase as [->|[u ->]].
  - simpl. destruct (decide (ip = [])) as [->|Hne]; [done|]. intros _. exists ip, None. by rewrite !app_nil_r.
  - apply Forall_cons_iff in Ht as [_ Hu]. destruct (number_split u Hu) as (fp & v & -> & Hfp & _ & Hcase).
    rewrite scan_point, decide_False by lia. rewrite scan_digits by done. destruct Hcase as [->|[w ->]].
    + intros H. exists ip, (Some fp). simpl. rewrite app_nil_r in *. split; [done|]. split; [by apply Forall_app|].
      intros E. apply app_eq_nil in E as [-> ->]. done.
    + rewrite scan_point, decide_True by lia. clear. intros H. exfalso. revert H.
      match goal with |- match (if ?b then _ else _) with _ => _ end = _ → _ => destruct b end; [done|].
      match goal with |- match (_ <$> ?x) with _ => _ end = _ → _ => by destruct x end.
Qed.

Lemma Parse_of_Ok s q :
  ParseQuantity s = Return (Ok q) → ∃ p, well_formed p ∧ trim_space_runes s = text p.
Proof.
  unfold ParseQuantity. destruct (splitRE (trim_space_runes s)) as [[num suf]|] eqn:E1; [|done].
  destruct (Dec.SetString num) as [z|] eqn:E2; [|done].
  destruct (interpret suf quantitySuffixer) as [r|] eqn:E3; [|done]. intros _.
  destruct (splitRE_spec _ _ _ E1) as (-> & o & k & -> & Hk).
  destruct (SetString_parts o k z Hk E2) as (ip & fr & -> & Hd & Hne).
  exists (mkParts o ip fr suf). split; [|done]. split; [done|]. split; [done|].
  simpl. rewrite E3. by exists r.
Qed.

(** ** Printing *)

Lemma remove_loop_spec fuel d f t m t' :
  2 ≤ f → remove_loop fuel d f t = (m, t') → t ≤ t' ∧ d = m * f ^ (t' - t) ∧
  (d ≠ 0 → Z.abs d < f ^ Z.of_nat fuel → m mod f ≠ 0).
Proof.
  intros Hf. revert d t. induction fuel as [|fuel IH]; intros d t; simpl.
  { intros [= <- <-]. rewrite Z.sub_diag. split; [lia|]. split; lia. }
  destruct (Z.eqb_spec d 0) as [->|Hd].
  { intros [= <- <-]. rewrite Z.sub_diag. split; [lia|]. split; lia. }
  destruct (Z.eqb_spec (d mod f) 0) as [Hm|Hm].
  - intros E. destruct (IH _ _ E) as (Ht & Hdm & Hn). pose proof (Z.div_mod d f ltac:(lia)) as Hdiv.
    assert (Hd' : d = d / f * f) by lia. split; [lia|]. split.
    + rewrite Hd', Hdm. replace (t' - t) with (t' - (t + 1) + 1) by lia. rewrite Z.pow_add_r by lia. lia.
    + intros _ Hlt. apply Hn; [nia|]. rewrite Nat2Z.inj_succ, Z.pow_succ_r in Hlt by lia.
      rewrite Hd', Z.abs_mul, (Z.abs_eq f) in Hlt by lia. nia.
  - intros [= <- <-]. rewrite Z.sub_diag. split; [lia|]. split; [lia|done].
Qed.

Lemma removeFactors_spec d f m t :
  2 ≤ f → removeFactors d f = (m, t) → 0 ≤ t ∧ d = m * f ^ t ∧ (d ≠ 0 → m mod f ≠ 0).
Proof.
  intros Hf E. destruct (remove_loop_spec _ _ _ _ _ _ Hf E) as (Ht & Hd & Hn). rewrite Z.sub_0_r in Hd.
  split; [done|]. split; [done|]. intros Hd0. apply Hn; [done|].
  eapply Z.lt_le_trans; [apply log2_fuel; lia|]. apply Z.pow_le_mono_l. lia.
Qed.

Lemma align_spec m e m' e' :
  align 2 m e = (m', e') → e - 2 ≤ e' ≤ e ∧ m' = m * 10 ^ (e - e') ∧ Z.rem e' 3 = 0.
Proof.
  simpl. pose proof (Z.quot_rem e 3 ltac:(lia)). pose proof (Z.rem_bound_abs e 3 ltac:(lia)).
  destruct (Z.eqb_spec (Z.rem e 3) 0); [intros [= <- <-]; rewrite Z.sub_diag; lia|].
  pose proof (Z.quot_rem (e - 1) 3 ltac:(lia)). pose proof (Z.rem_bound_abs (e - 1) 3 ltac:(lia)).
  destruct (Z.eqb_spec (Z.rem (e - 1) 3) 0); [intros [= <- <-]; replace (e - (e - 1)) with 1 by lia; lia|].
  pose proof (Z.quot_rem (e - 1 - 1) 3 ltac:(lia)). pose proof (Z.rem_bound_abs (e - 1 - 1) 3 ltac:(lia)).
  intros [= <- <-]. replace (e - (e - 1 - 1)) with 2 by lia. lia.
Qed.

(** The mantissa and the exponent that are printed in base ten. *)
Definition canonical10 (M m e : Z) : Prop :=
  M = m * 10 ^ (e + 3) ∧ m mod 1000 ≠ 0 ∧ -3 ≤ e ≤ 18 ∧ Z.rem e 3 = 0.

Lemma mod_1000 m k : m mod 10 ≠ 0 → 0 ≤ k ≤ 2 → (m * 10 ^ k) mod 1000 ≠ 0.
Proof.
  intros Hm Hk H. apply Z.mod_divide in H as [c Hc]; [|lia]. apply Hm.
  assert (k = 0 ∨ k = 1 ∨ k = 2) as [->|[->| ->]] by lia.
  - apply Z.mod_divide; [lia|]. exists (c * 100). lia.
  - apply Z.mod_divide; [lia|]. exists (c * 10). lia.
  - apply Z.mod_divide; [lia|]. exists c. lia.
Qed.

Lemma print_decimal_spec a f :
  normal a → unscaled a ≠ 0 → Z.abs (milli a) ≤ max_milli →
  ∃ m e, print_decimal a f = (itoa m, default [] (construct 10 e f quantitySuffixer)) ∧ canonical10 (milli a) m e.
Proof.
  intros [Hs Hn] Hu Hmax. unfold print_decimal. unwrap.
  destruct (removeFactors (unscaled a) 10) as [m t] eqn:E1. destruct (align 2 m (- scale a + t)) as [m' e'] eqn:E2.
  exists m', e'. split; [done|].
  destruct (removeFactors_spec _ 10 _ _ ltac:(lia) E1) as (Ht & Hd & Hm). destruct (align_spec _ _ _ _ E2) as (He & Hm' & H3).
  destruct Hn as [|Hsc]; [done|]. specialize (Hm Hu).
  pose proof (Z.quot_rem e' 3 ltac:(lia)).
  assert (HM : milli a = m' * 10 ^ (e' + 3)).
  { unfold milli, at_scale. rewrite Hd, Hm'. rewrite <- !Z.mul_assoc, <- !pow10_add by lia. f_equal. f_equal. lia. }
  assert (Hm0 : m' ≠ 0).
  { intros E. rewrite E, Z.mul_0_l in HM. unfold milli, at_scale in HM. pose proof (pow10_pos (3 - scale a) ltac:(lia)). nia. }
  split; [done|]. split; [rewrite Hm'; apply mod_1000; [done|lia]|]. split; [|done]. split; [lia|].
  destruct (Z.le_gt_cases e' 18) as [|Hbig]; [done|]. exfalso.
  assert (10 ^ 24 ≤ 10 ^ (e' + 3)) by (apply Z.pow_le_mono_r; lia).
  rewrite HM, Z.abs_mul, (Z.abs_eq (10 ^ _)) in Hmax by (apply Z.lt_le_incl, pow10_pos; lia).
  change (10 ^ 24) with 1000000000000000000000000 in *. unfold max_milli in Hmax.
  change ((2 ^ 63 - 1) * 1000) with 9223372036854775807000 in Hmax. nia.
Qed.

(** Mantissa and exponent are determined by the value. *)
Lemma canonical10_unique M m e m' e' : canonical10 M m e → canonical10 M m' e' → m = m' ∧ e = e'.
Proof.
  intros (H1 & H2 & H3 & H4) (H1' & H2' & H3' & H4').
  pose proof (Z.quot_rem e 3 ltac:(lia)). pose proof (Z.quot_rem e' 3 ltac:(lia)).
  assert (Hlt : ∀ m m' e e', m * 10 ^ (e + 3) = m' * 10 ^ (e' + 3) → m mod 1000 ≠ 0 → -3 ≤ e → e + 3 ≤ e' → False).
  { clear. intros m m' e e' E Hm He Hle. apply Hm. apply Z.mod_divide; [lia|].
    exists (m' * 10 ^ (e' - e - 3)). replace (e' + 3) with (e' - e - 3 + 3 + (e + 3)) in E by lia.
    rewrite (pow10_add (e' - e - 3 + 3) (e + 3)), (pow10_add (e' - e - 3) 3) in E by lia.
    change (10 ^ 3) with 1000 in E. pose proof (pow10_pos (e + 3) ltac:(lia)).
    apply (Z.mul_reg_r _ _ (10 ^ (e + 3))); lia. }
  assert (e = e') as <-.
  { destruct (Z.lt_trichotomy e e') as [Hc|[Hc|Hc]]; [exfalso|done|exfalso].
    - apply (Hlt m m' e e'); (congruence || done || lia).
    - apply (Hlt m' m e' e); (congruence || done || lia). }
  split; [|done]. pose proof (pow10_pos (e + 3) ltac:(lia)). nia.
Qed.

(** Milli-units rounded away from zero to units. *)
Definition units (M : Z) : Z := Z.sgn M * div_up (Z.abs M) 1000.

Lemma units_exact M : units M * 1000 = M ↔ M mod 1000 = 0.
Proof.
  unfold units. split.
  - intros H. rewrite <- H. by apply Z.mod_mul.
  - intros H. apply Z.mod_divide in H as [c ->]; [|lia].
    rewrite (proj2 (div_up_spec (Z.abs (c * 1000)) 1000 (Z.abs c) ltac:(lia))) by lia. lia.
Qed.

Lemma round_units x : small_scale (scale x) → scale x ≤ 3 → Round x 0 RoundUp = Return (Some (mkDec (units (milli x)) 0)).
Proof.
  intros Hs H3. rewrite Round_rounding by (done || (unfold small_scale; lia)). simpl. do 2 f_equal.
  assert (HM : numerator 0 x * 1000 = milli x * denominator 0 x).
  { unfold numerator, milli, at_scale, denominator. change 1000 with (10 ^ 3).
    rewrite <- !Z.mul_assoc, <- !pow10_add by lia. f_equal. f_equal. lia. }
  pose proof (denominator_pos 0 x) as Hd. unfold units. f_equal.
  assert (Hsgn : Z.sgn (numerator 0 x) = Z.sgn (milli x)) by nia. rewrite Hsgn. f_equal.
  assert (Habs : Z.abs (numerator 0 x) * 1000 = Z.abs (milli x) * denominator 0 x) by nia.
  apply div_up_spec; [done|]. destruct (proj1 (div_up_spec (Z.abs (milli x)) 1000 _ ltac:(lia)) eq_refl). nia.
Qed.

(** The format that is used: binary for integers of at least 1024. *)
Definition binary_fits (M : Z) : Prop := 1024 * 1000 ≤ Z.abs M ∧ M mod 1000 = 0.
#[global] Instance binary_fits_dec M : Decision (binary_fits M).
Proof. unfold binary_fits. apply _. Defined.

Definition used_format (f : Format) (M : Z) : Format :=
  if decide (f = DecimalExponent ∨ f = DecimalSI) then f
  else if decide (f = BinarySI) then if decide (binary_fits M) then BinarySI else DecimalSI
  else DecimalExponent.

Lemma print_format_spec a f : normal a → unscaled a ≠ 0 → print_format a f = Return (used_format f (milli a)).
Proof.
  intros Hn Hu. assert (H3 : scale a ≤ 3) by (by destruct Hn as [_ [|]]). unfold print_format, used_format.
  destruct (decide (f = DecimalExponent ∨ f = DecimalSI)); [done|]. destruct (decide (f = BinarySI)) as [->|]; [|done].
  unfold decMinus1024, dec1024. rewrite !Cmp_int by done. cbn [mbind control_bind].
  unfold set_round. rewrite round_units by (done || apply Hn). cbn [mbind control_bind default from_option id].
  rewrite (Cmp_at 3) by (done || apply Hn || (unfold small_scale; simpl; lia)). cbn [mbind control_bind].
  fold (milli a). assert (Ht : at_scale 3 (mkDec (units (milli a)) 0) = units (milli a) * 1000) by done. rewrite Ht.
  pose proof (big_cmp_pos (milli a) (-1024 * 1000)) as Hlo. pose proof (big_cmp_neg (milli a) (1024 * 1000)) as Hhi.
  destruct (Z.ltb_spec 0 (big_cmp (milli a) (-1024 * 1000))) as [H1|H1]; cbn [mbind control_bind andb].
  - destruct (Z.ltb_spec (big_cmp (milli a) (1024 * 1000)) 0) as [H2|H2].
    + rewrite decide_False; [done|]. unfold binary_fits. lia.
    + f_equal. destruct (decide (binary_fits (milli a))) as [[Hb Hm]|Hb].
      * rewrite decide_False; [done|]. apply units_exact in Hm. rewrite big_cmp_zero. auto.
      * rewrite decide_True; [done|]. rewrite big_cmp_zero, units_exact. unfold binary_fits in Hb. lia.
  - f_equal. destruct (decide (binary_fits (milli a))) as [[Hb Hm]|Hb].
    + rewrite decide_False; [done|]. apply units_exact in Hm. rewrite big_cmp_zero. auto.
    + rewrite decide_True; [done|]. rewrite big_cmp_zero, units_exact. unfold binary_fits in Hb. lia.
Qed.

(** The mantissa and the exponent that are printed in base two. *)
Definition canonical2 (M m k : Z) : Prop := M = m * 1024 ^ k * 1000 ∧ m mod 1024 ≠ 0 ∧ 0 ≤ k ≤ 6.

Lemma print_binary_spec a f :
  normal a → unscaled a ≠ 0 → binary_fits (milli a) → Z.abs (milli a) ≤ max_milli →
  ∃ m k, print_binary a f = Return (itoa m, default [] (construct 2 (k * 10) f quantitySuffixer)) ∧ canonical2 (milli a) m k.
Proof.
  intros Hn Hu [Hb Hm] Hmax. assert (H3 : scale a ≤ 3) by (by destruct Hn as [_ [|]]). unfold print_binary, set_round.
  rewrite round_units by (done || apply Hn). cbn [mbind control_bind default from_option id unscaled].
  destruct (removeFactors (units (milli a)) 1024) as [m k] eqn:E. exists m, k. split; [done|].
  destruct (removeFactors_spec _ 1024 _ _ ltac:(lia) E) as (Hk & Hd & Hmod). apply units_exact in Hm.
  split; [lia|]. split; [apply Hmod; lia|]. split; [done|].
  destruct (Z.le_gt_cases k 6) as [|Hbig]; [done|]. exfalso.
  assert (1024 ^ 7 ≤ 1024 ^ k) by (apply Z.pow_le_mono_r; lia).
  rewrite <- Hm, Hd, !Z.abs_mul, (Z.abs_eq (1024 ^ k)) in Hmax by lia.
  assert (m ≠ 0) by (intros ->; lia).
  change (1024 ^ 7) with 1180591620717411303424 in *. unfold max_milli in Hmax.
  change ((2 ^ 63 - 1) * 1000) with 9223372036854775807000 in Hmax. nia.
Qed.

(** *** Suffixes that are printed are understood *)

Lemma third_cases e : -3 ≤ e ≤ 18 → Z.rem e 3 = 0 → e ∈ [-3; 0; 3; 6; 9; 12; 15; 18].
Proof.
  intros He H. pose proof (Z.quot_rem e 3 ltac:(lia)).
  assert (∃ k, e = 3 * k ∧ -1 ≤ k ≤ 6) as (k & -> & Hk) by (exists (Z.quot e 3); lia).
  assert (k = -1 ∨ k = 0 ∨ k = 1 ∨ k = 2 ∨ k = 3 ∨ k = 4 ∨ k = 5 ∨ k = 6) as Hc by lia.
  rewrite !elem_of_cons. lia.
Qed.

Definition decimal_suffix (e : Z) (f : Format) : str := default [] (construct 10 e f quantitySuffixer).
Definition binary_suffix (k : Z) : str := default [] (construct 2 (k * 10) BinarySI quantitySuffixer).

Lemma decimal_suffix_spec e f :
  -3 ≤ e ≤ 18 → Z.rem e 3 = 0 → f = DecimalExponent ∨ f = DecimalSI →
  interpret (decimal_suffix e f) quantitySuffixer = Some (10, e, if decide (e = 0) then DecimalSI else f).
Proof.
  intros He H3 Hf. pose proof (third_cases e He H3) as Hc.
  destruct Hf as [->| ->]; repeat (apply elem_of_cons in Hc as [->|Hc]; [by vm_compute|]); by apply elem_of_nil in Hc.
Qed.

Lemma binary_suffix_spec k :
  0 ≤ k ≤ 6 →
  interpret (binary_suffix k) quantitySuffixer =
  Some (if decide (k = 0) then (10, 0, DecimalSI) else (2, k * 10, BinarySI)).
Proof.
  intros Hk. assert (k = 0 ∨ k = 1 ∨ k = 2 ∨ k = 3 ∨ k = 4 ∨ k = 5 ∨ k = 6) as Hc by lia.
  by repeat destruct Hc as [->|Hc]; [vm_compute..|rewrite Hc; vm_compute].
Qed.

(** *** What is printed *)

Definition printed (M : Z) (f : Format) (number suffix : str) : Prop :=
  if decide (M = 0) then number = lit "0" ∧ suffix = []
  else if decide (used_format f M = BinarySI) then
    ∃ m k, number = itoa m ∧ suffix = binary_suffix k ∧ canonical2 M m k
  else ∃ m e, number = itoa m ∧ suffix = decimal_suffix e (used_format f M) ∧ canonical10 M m e.

Lemma milli_zero a : normal a → milli a = 0 ↔ unscaled a = 0.
Proof.
  intros [_ Hn]. unfold milli, at_scale. split; [|intros ->; lia]. destruct Hn as [|Hs]; [done|].
  pose proof (pow10_pos (3 - scale a) ltac:(lia)). nia.
Qed.

Lemma used_format_cases f M : used_format f M = BinarySI ∨ used_format f M = DecimalExponent ∨ used_format f M = DecimalSI.
Proof. unfold used_format. destruct (decide (f = DecimalExponent ∨ f = DecimalSI)) as [[->| ->]|]; repeat case_decide; auto. Qed.

Lemma used_binary f M : used_format f M = BinarySI → f = BinarySI ∧ binary_fits M.
Proof. unfold used_format. intros H. repeat case_decide; try done. by destruct H0 as [->| ->]. Qed.

Lemma Canonicalize_printed a f :
  normal a → Z.abs (milli a) ≤ max_milli →
  ∃ number suffix, Canonicalize (mkQuantity (Some a) f) = Return (number, suffix) ∧ printed (milli a) f number suffix.
Proof.
  intros Hn Hmax. unfold Canonicalize, printed. simpl Amount. cbv iota beta.
  change (mkDec 0 0) with (NewDec 0 0). rewrite Cmp_int by done. cbn [mbind control_bind]. rewrite Z.mul_0_l.
  destruct (decide (milli a = 0)) as [E|E].
  { rewrite E. simpl. by eexists _, _. }
  assert (Hu : unscaled a ≠ 0) by (by rewrite <- milli_zero).
  destruct (Z.eqb_spec (big_cmp (milli a) 0) 0) as [E'|_]; [by rewrite big_cmp_zero in E'|].
  simpl Fmt. rewrite print_format_spec by done. cbn [mbind control_bind].
  destruct (decide (used_format f (milli a) = BinarySI)) as [Hb|Hb].
  - rewrite Hb. rewrite decide_False by (by intros [|]).
    destruct (used_binary _ _ Hb) as [_ Hfit].
    destruct (print_binary_spec a BinarySI Hn Hu Hfit Hmax) as (m & k & -> & Hc).
    eexists _, _. split; [reflexivity|]. by exists m, k.
  - destruct (used_format_cases f (milli a)) as [|Hd]; [done|]. rewrite decide_True by done.
    destruct (print_decimal_spec a (used_format f (milli a)) Hn Hu Hmax) as (m & e & -> & Hc).
    eexists _, _. split; [reflexivity|]. by exists m, e.
Qed.

(** ** Printing and parsing again *)

Lemma udigits_big f z : 0 ≤ z → z < 2 ^ Z.of_nat f → big_digits 0 (udigits f z) = Some z.
Proof.
  revert z. induction f as [|f IH]; intros z Hz Hf; simpl.
  - assert (z = 0) as -> by lia. done.
  - rewrite Nat2Z.inj_succ, Z.pow_succ_r in Hf by lia. destruct (Z.ltb_spec z 10) as [Hs|Hs].
    + cbn [big_digits]. rewrite digit_is_digit by lia. unfold digit. rewrite ord_chr_small by lia. f_equal. lia.
    + pose proof (Z.mod_pos_bound z 10 ltac:(lia)). pose proof (Z.div_mod z 10 ltac:(lia)).
      assert (H10 : 0 ≤ z / 10) by lia.
      rewrite big_digits_app by (by apply udigits_digits). rewrite IH by lia.
      cbn [big_digits default from_option id]. rewrite digit_is_digit by lia. unfold digit. rewrite ord_chr_small by lia.
      f_equal. lia.
Qed.

Lemma digits_value_format z : 0 ≤ z → digits_value (format_uint z) = z.
Proof. intros Hz. unfold digits_value, format_uint. by rewrite udigits_big by (done || by apply log2_fuel). Qed.

Definition number_parts (m : Z) (s : str) : parts :=
  mkParts (if m <? 0 then Some true else None) (format_uint (Z.abs m)) None s.

Lemma format_not_nil z : 0 ≤ z → format_uint z ≠ [].
Proof. intros Hz. destruct (format_uint_head z Hz) as [->|(c & t & -> & _)]; done. Qed.

Lemma number_parts_spec m s :
  text (number_parts m s) = itoa m ++ s ∧ p_unscaled (number_parts m s) = m ∧ p_scale (number_parts m s) = 0 ∧
  (is_Some (interpret s quantitySuffixer) → well_formed (number_parts m s)).
Proof.
  unfold text, number_text, p_unscaled, p_scale, well_formed, p_digits, itoa. simpl. rewrite !app_nil_r.
  rewrite digits_value_format by lia. split; [|split; [|split; [done|]]].
  - destruct (Z.ltb_spec m 0); simpl; [by rewrite Z.abs_neq by lia|by rewrite Z.abs_eq by lia].
  - destruct (Z.ltb_spec m 0); simpl; lia.
  - intros Hi. split; [by apply format_uint_digits; lia|]. split; [by apply format_not_nil; lia|done].
Qed.

(** *** There is nothing to trim *)

Definition plain (c : ascii) : bool := is_number c || is_sign c || is_letter c.

Lemma plain_spec c : plain c = true → ord c < 128 ∧ is_space_rune (ord c) = false.
Proof. by_bytes c. Qed.

Lemma trim_plain s : Forall (λ c, plain c = true) s → trim_space_runes s = s.
Proof.
  intros Hs. unfold trim_space_runes, trim_func.
  assert (Hleft : trim_left_func is_space_rune s = s).
  { destruct s as [|c t]; [done|]. apply Forall_cons_iff in Hs as [Hc _]. destruct (plain_spec c Hc) as [Ha Hsp].
    unfold trim_left_func, index_func. rewrite (rune_chunks_step _ (ord c) 1%nat) by (done || by apply decode_rune_ascii).
    cbn [index_runes]. rewrite Hsp. done. }
  rewrite Hleft. unfold trim_right_func. destruct s as [|c0 t]; [done|].
  cbn [length trim_right_loop]. unfold decode_last_rune.
  destruct (list.last (c0 :: t)) as [c|] eqn:E; [|by apply last_None in E].
  assert (Hc : plain c = true).
  { apply list.Forall_forall with (x := c) in Hs; [done|]. by apply last_Some_elem_of. }
  destruct (plain_spec c Hc) as [Ha Hsp]. destruct (Z.ltb_spec (ord c) 128); [|lia]. by rewrite Hsp.
Qed.

Lemma digit_plain s : all_digits s → Forall (λ c, plain c = true) s.
Proof.
  intros Hs. eapply list.Forall_impl; [exact Hs|]. intros c Hc. unfold plain.
  by destruct (digit_number c Hc) as (-> & _ & _).
Qed.

Lemma sign_plain o : Forall (λ c, plain c = true) (sign_text o).
Proof. destruct o as [[]|]; by repeat constructor. Qed.

Lemma text_plain p : well_formed p → Forall (λ c, plain c = true) (text p).
Proof.
  intros (Hd & _ & [r Hr]). destruct (interpret_shape _ _ Hr) as (l & o & d & Hs & Hl & Hdd & _).
  unfold text, number_text. rewrite Hs. repeat (apply Forall_app; split); try apply sign_plain; try by apply digit_plain.
  - pose proof (number_chars p Hd) as Hn. apply Forall_app in Hn as [Hn _].
    eapply list.Forall_impl; [exact Hn|]. intros c Hc. unfold plain. by rewrite Hc.
  - pose proof (number_chars p Hd) as Hn. apply Forall_app in Hn as [_ Hn].
    eapply list.Forall_impl; [exact Hn|]. intros c Hc. unfold plain. by rewrite Hc.
  - eapply list.Forall_impl; [exact Hl|]. intros c Hc. unfold plain. rewrite Hc. by rewrite orb_true_r.
Qed.

(** *** The value survives *)

Lemma reparse m s b e f M :
  interpret s quantitySuffixer = Some (b, e, f) → Z.abs e ≤ 2 ^ 28 → Z.abs M ≤ max_milli →
  b = 10 ∧ -3 ≤ e ∧ M = m * 10 ^ (e + 3) ∨ b = 2 ∧ M = m * 2 ^ e * 1000 →
  ∃ a fmt, ParseQuantity (itoa m ++ s) = Return (Ok (mkQuantity (Some a) fmt)) ∧ normal a ∧ milli a = M ∧
    fmt = (if decide (f = BinarySI ∧ 0 < Z.abs (milli a) < 1000) then DecimalSI else f).
Proof.
  intros Hi He HM Hcase. destruct (number_parts_spec m s) as (Htext & Hun & Hsc & Hwf).
  rewrite Hi in Hwf. specialize (Hwf ltac:(eauto)). rewrite <- Htext.
  destruct (Parse_text (number_parts m s) (text (number_parts m s)) b e f) as (a & fmt & Hp & Hn & Hm & Hf).
  - apply trim_plain. by apply text_plain.
  - done.
  - exact Hi.
  - split; [rewrite Hsc; lia|done].
  - exists a, fmt. split; [done|]. split; [done|]. split; [|done]. rewrite Hm. clear Hf Hm Hp.
    assert (Hnum : numerator 3 (denoted (number_parts m s) b e) = M ∧ denominator 3 (denoted (number_parts m s) b e) = 1 ∧
      Z.sgn (unscaled (denoted (number_parts m s) b e)) = Z.sgn M).
    { unfold numerator, denominator, denoted. rewrite Hun, Hsc. simpl unscaled. simpl scale.
      destruct Hcase as [(-> & He3 & ->)|[-> ->]]; simpl.
      - rewrite Z.max_r, Z.max_l by lia. replace (3 - (0 - e)) with (e + 3) by lia. rewrite Z.mul_1_r.
        pose proof (pow10_pos (e + 3) ltac:(lia)). split; [done|]. split; [done|]. rewrite Z.sgn_mul, (Z.sgn_pos (10 ^ _)) by done. lia.
      - split; [done|]. split; [done|]. rewrite (Z.sgn_mul _ 1000). change (Z.sgn 1000) with 1. lia. }
    unfold rounded_milli. destruct Hnum as (-> & -> & ->).
    rewrite (proj2 (div_up_spec (Z.abs M) 1 (Z.abs M) ltac:(lia))) by lia. rewrite Z.min_l by done. lia.
Qed.

(** A printed quantity is parsed to the same value; and to the suffix it was
    printed with. *)
Lemma printed_parsed M f number suffix :
  Z.abs M ≤ max_milli → printed M f number suffix →
  ∃ a fmt, ParseQuantity (number ++ suffix) = Return (Ok (mkQuantity (Some a) fmt)) ∧ normal a ∧ milli a = M ∧
    (f ≠ BinarySI → printed M fmt number suffix ∧ used_format fmt M ≠ BinarySI).
Proof.
  intros Hmax. unfold printed at 1. destruct (decide (M = 0)) as [->|HM].
  { intros [-> ->]. destruct (reparse 0 [] 10 0 DecimalSI 0) as (a & fmt & Hp & Hn & Hm & Hf); [by vm_compute|done|done|left; lia|].
    exists a, fmt. split; [exact Hp|]. split; [done|]. split; [done|]. intros _.
    rewrite Hf, decide_False by (by intros [? _]). unfold printed. by rewrite decide_True by done. }
  destruct (decide (used_format f M = BinarySI)) as [Hb|Hb].
  - intros (m & k & -> & -> & HMk & Hmod & Hk). pose proof (binary_suffix_spec k Hk) as Hi.
    assert (Hpow : 2 ^ (k * 10) = 1024 ^ k) by (rewrite Z.mul_comm, Z.pow_mul_r by lia; done).
    destruct (decide (k = 0)) as [->|Hk0].
    + destruct (reparse m _ 10 0 DecimalSI M Hi) as (a & fmt & Hp & Hn & Hm & Hf); [done|done|left; lia|].
      exists a, fmt. split; [exact Hp|]. split; [done|]. split; [done|]. by destruct (used_binary _ _ Hb).
    + destruct (reparse m _ 2 (k * 10) BinarySI M Hi) as (a & fmt & Hp & Hn & Hm & Hf); [lia|done|right; by rewrite Hpow|].
      exists a, fmt. split; [exact Hp|]. split; [done|]. split; [done|]. by destruct (used_binary _ _ Hb).
  - intros (m & e & -> & -> & Hc). pose proof Hc as (HMe & Hmod & He & H3).
    destruct (used_format_cases f M) as [|Hu]; [done|]. pose proof (decimal_suffix_spec e _ He H3 Hu) as Hi.
    destruct (reparse m _ 10 e _ M Hi) as (a & fmt & Hp & Hn & Hm & Hf); [lia|done|left; split; [done|]; by split; [lia|]|].
    exists a, fmt. split; [exact Hp|]. split; [done|]. split; [done|]. intros _.
    cut (printed M fmt (itoa m) (decimal_suffix e (used_format f M)) ∧ used_format fmt M = fmt ∧ fmt ≠ BinarySI);
      [intros (H1 & H2 & H'); by rewrite H2|]. unfold printed. rewrite decide_False by done.
    assert (Hdec : ∀ g, g = DecimalExponent ∨ g = DecimalSI → used_format g M = g)
      by (intros g Hg; unfold used_format; by rewrite decide_True by done).
    destruct (decide (e = 0)) as [->|He0].
    + rewrite decide_False in Hf by (by intros [? _]). rewrite Hf, Hdec by auto. rewrite decide_False by done.
      split; [|done]. exists m, 0. split; [done|]. split; [|done]. by destruct Hu as [->| ->].
    + rewrite decide_False in Hf by (intros [E _]; by destruct Hu as [Hu|Hu]; rewrite Hu in E).
      rewrite Hf, Hdec by done. rewrite decide_False by (intros E; by rewrite E in Hb).
      split; [by exists m, e|]. split; [done|]. intros E. by rewrite E in Hb.
Qed.

Lemma printed_unique M f n s n' s' : printed M f n s → printed M f n' s' → used_format f M ≠ BinarySI → n = n' ∧ s = s'.
Proof.
  unfold printed. intros H H' Hb. destruct (decide (M = 0)); [by destruct H as [-> ->], H' as [-> ->]|].
  rewrite decide_False in H, H' by done.
  destruct H as (m & e & -> & -> & Hc), H' as (m' & e' & -> & -> & Hc').
  by destruct (canonical10_unique _ _ _ _ _ Hc Hc') as [-> ->].
Qed.

(** ** Values, sums and comparisons *)

Lemma in_int64_units M : Z.abs M ≤ max_milli → in_int64 (units M).
Proof.
  intros HM. unfold in_int64, min_int64, max_int64, units, max_milli in *.
  destruct (proj1 (div_up_spec (Z.abs M) 1000 _ ltac:(lia)) eq_refl). assert (0 ≤ div_up (Z.abs M) 1000) by lia. nia.
Qed.

(** The lowest scale a zero may have is not bounded; an amount that is not
    zero, or has a low scale. *)
Definition fine (x : Dec) : Prop := small_scale (scale x) ∧ scale x ≤ 3.

Lemma fine_normal x : fine x → normal x.
Proof. intros [H1 H2]. by split; [|right]. Qed.

Lemma Value_units x f : fine x → Z.abs (milli x) ≤ max_milli → Value (mkQuantity (Some x) f) = Return (units (milli x)).
Proof.
  intros [Hs H3] HM. unfold Value, rounded_int64. simpl. rewrite round_units by done. simpl.
  by rewrite wrap64_id by by apply in_int64_units.
Qed.

Lemma MilliValue_milli x f : fine x → in_int64 (milli x) → MilliValue (mkQuantity (Some x) f) = Return (milli x).
Proof.
  intros [Hs H3] HM. unfold MilliValue, rounded_int64. simpl Amount. cbv iota beta.
  unfold Dec.Mul, decThousand, NewDec. simpl unscaled. simpl scale. rewrite Z.add_0_r. unwrap.
  rewrite round_units by (simpl; (unfold small_scale; lia)). cbn [mbind control_bind unscaled].
  assert (Hm : milli (mkDec (unscaled x * 1000) (scale x)) = milli x * 1000) by (unfold milli, at_scale; simpl; lia).
  assert (Hu : units (milli x * 1000) = milli x).
  { apply (Z.mul_reg_r _ _ 1000); [done|]. apply units_exact. by apply Z.mod_mul. }
  by rewrite Hm, Hu, wrap64_id by done.
Qed.

Lemma units_mono M M' : M ≤ M' → units M ≤ units M'.
Proof.
  intros H. unfold units. destruct (proj1 (div_up_spec (Z.abs M) 1000 _ ltac:(lia)) eq_refl).
  destruct (proj1 (div_up_spec (Z.abs M') 1000 _ ltac:(lia)) eq_refl).
  destruct (Z.lt_trichotomy M 0) as [E|[E|E]], (Z.lt_trichotomy M' 0) as [E'|[E'|E']];
    rewrite ?(Z.sgn_neg M), ?(Z.sgn_neg M'), ?(Z.sgn_pos M), ?(Z.sgn_pos M') by done; rewrite ?E, ?E'; simpl; lia.
Qed.

Lemma big_cmp_units M M' :
  big_cmp (units M) (units M') = big_cmp M M' ∨ big_cmp (units M) (units M') = 0 ∧ units M = units M'.
Proof.
  pose proof (units_mono M M') as H1. pose proof (units_mono M' M) as H2. unfold big_cmp.
  destruct (Z.compare_spec (units M) (units M')) as [E|E|E]; [by right|left|left]; destruct (Z.compare_spec M M'); try done;
    exfalso; [subst; lia|lia|subst; lia|lia].
Qed.

Lemma compare_cmp a b : (if a <? b then -1 else if b <? a then 1 else 0) = big_cmp a b.
Proof. unfold big_cmp. destruct (Z.ltb_spec a b), (Z.ltb_spec b a), (Z.compare_spec a b); lia. Qed.

(** Adding and subtracting add and subtract the values. *)
Lemma Add_milli x y f g :
  fine x → fine y →
  ∃ z, Add (mkQuantity (Some x) f) (mkQuantity (Some y) g) = Return (mkQuantity (Some z) f) ∧ fine z ∧
    milli z = milli x + milli y.
Proof.
  intros [Hx Hx3] [Hy Hy3]. unfold Add, with_amounts, Dec.Add. simpl. rewrite upscale_spec by done. simpl.
  eexists. split; [reflexivity|]. unfold fine, small_scale, milli in *. simpl. split; [lia|].
  rewrite (at_scale_more (Z.max (scale x) (scale y)) 3 x), (at_scale_more (Z.max (scale x) (scale y)) 3 y) by lia.
  unfold at_scale at 1. simpl. lia.
Qed.

(** ** The theorems *)


(** C32: The canonical form: no precision is lost, there are no fractional digits,
    and the exponent is as large as possible, among the multiples of three in
    base ten and the multiples of ten in base two. *)
Theorem Canonicalize_canonical a f :
  normal a → Z.abs (milli a) ≤ max_milli → milli a ≠ 0 →
  ∃ m suffix, Canonicalize (mkQuantity (Some a) f) = Return (itoa m, suffix) ∧
    if decide (f = BinarySI ∧ binary_fits (milli a)) then
      ∃ k, milli a = m * 1024 ^ k * 1000 ∧ m mod 1024 ≠ 0 ∧
        interpret suffix quantitySuffixer = Some (if decide (k = 0) then (10, 0, DecimalSI) else (2, k * 10, BinarySI))
    else
      ∃ e fmt, milli a = m * 10 ^ (e + 3) ∧ m mod 1000 ≠ 0 ∧ Z.rem e 3 = 0 ∧
        interpret suffix quantitySuffixer = Some (10, e, fmt).
Proof.
  intros Hn Hmax H0. destruct (Canonicalize_printed a f Hn Hmax) as (number & suffix & Hc & Hp). unfold printed in Hp.
  rewrite decide_False in Hp by done. destruct (decide (used_format f (milli a) = BinarySI)) as [Hb|Hb].
  - destruct Hp as (m & k & -> & -> & HM & Hmod & Hk). exists m, (binary_suffix k). split; [done|].
    rewrite decide_True by by apply used_binary. exists k. split; [done|]. split; [done|]. by apply binary_suffix_spec.
  - destruct Hp as (m & e & -> & -> & HM & Hmod & He & H3). exists m, (decimal_suffix e (used_format f (milli a))).
    split; [done|]. destruct (decide (f = BinarySI ∧ binary_fits (milli a))) as [[-> Hfit]|_].
    { exfalso. apply Hb. unfold used_format. rewrite (decide_True (P := binary_fits _)) by done. done. }
    destruct (used_format_cases f (milli a)) as [|Hu]; [done|].
    eexists e, _. split; [done|]. split; [done|]. split; [done|]. by apply decimal_suffix_spec.
Qed.

(** C31: What is printed is parsed, to the same value; and for the decimal formats
    the quantity that was parsed is printed as the same text. *)
Theorem String_ParseQuantity a f :
  normal a → Z.abs (milli a) ≤ max_milli →
  ∃ s a' f', String_ (mkQuantity (Some a) f) = Return s ∧
    ParseQuantity s = Return (Ok (mkQuantity (Some a') f')) ∧ milli a' = milli a ∧
    (f ≠ BinarySI → String_ (mkQuantity (Some a') f') = Return s).
Proof.
  intros Hn Hmax. destruct (Canonicalize_printed a f Hn Hmax) as (number & suffix & Hc & Hp).
  destruct (printed_parsed (milli a) f number suffix Hmax Hp) as (a' & f' & Hparse & Hn' & Hm & Hagain).
  exists (number ++ suffix), a', f'. unfold String_ at 1. rewrite Hc. split; [done|]. split; [done|]. split; [done|].
  intros Hf. destruct (Canonicalize_printed a' f' Hn') as (n & sx & Hc' & Hp'); [by rewrite Hm|].
  rewrite Hm in Hp'. destruct (Hagain Hf) as [Hp2 Hb]. unfold String_. rewrite Hc'.
  by destruct (printed_unique _ _ _ _ _ _ Hp' Hp2 Hb) as [-> ->].
Qed.

(** Quantities compare as their values do, from the least one whose
    milli-units fit 64 bits on; but values that are too large for
    [MilliValue] compare as equal when they round up to the same unit. *)
Theorem Cmp_spec x y f g :
  fine x → fine y → - 2 ^ 63 ≤ milli x ≤ max_milli → - 2 ^ 63 ≤ milli y ≤ max_milli →
  ∃ c, Cmp (mkQuantity (Some x) f) (mkQuantity (Some y) g) = Return c ∧
    (c = big_cmp (milli x) (milli y) ∨
     c = 0 ∧ units (milli x) = units (milli y) ∧ MaxMilliValue ≤ units (milli x)).
Proof.
  intros Hx Hy Hxm Hym. unfold Cmp. rewrite !Value_units by (done || (unfold max_milli in *; lia)). cbn [mbind control_bind].
  assert (Hlow : ∀ M, - 2 ^ 63 ≤ M → units M < MaxMilliValue → in_int64 M).
  { intros M HM Hu. unfold in_int64, min_int64, max_int64. split; [lia|].
    destruct (Z.le_gt_cases M 0); [lia|]. unfold units in Hu. rewrite Z.sgn_pos, Z.abs_eq in Hu by lia.
    destruct (proj1 (div_up_spec M 1000 _ ltac:(lia)) eq_refl). unfold MaxMilliValue in Hu.
    change (Z.quot (2 ^ 63 - 1) 1000) with 9223372036854775 in Hu. lia. }
  destruct (Z.ltb_spec (units (milli x)) MaxMilliValue) as [Hxu|Hxu], (Z.ltb_spec (units (milli y)) MaxMilliValue) as [Hyu|Hyu];
    cbn [andb].
  1: { rewrite !MilliValue_milli by (done || apply Hlow; (done || lia)). cbn [mbind control_bind].
       rewrite compare_cmp. eexists. split; [reflexivity|]. by left. }
  all: cbn [mbind control_bind]; rewrite compare_cmp; eexists; split; [reflexivity|].
  all: destruct (big_cmp_units (milli x) (milli y)) as [E|[E Eu]]; [by left|right]; (split; [done|]; split; [done|lia]).
Qed.

(** ** Witnesses *)

Lemma fine_example : fine (mkDec 15 1) ∧ milli (mkDec 15 1) = 1500.
Proof. split; [unfold fine, small_scale; simpl; lia|done]. Qed.

Lemma Canonicalize_canonical_witness :
  ∃ m suffix, Canonicalize (mkQuantity (Some (mkDec 15 1)) DecimalSI) = Return (itoa m, suffix) ∧
    ∃ e fmt, 1500 = m * 10 ^ (e + 3) ∧ m mod 1000 ≠ 0 ∧ Z.rem e 3 = 0 ∧ interpret suffix quantitySuffixer = Some (10, e, fmt).
Proof.
  destruct fine_example as [Hf Hm].
  destruct (Canonicalize_canonical (mkDec 15 1) DecimalSI (fine_normal _ Hf)) as (m & suffix & H & Hc);
    [rewrite Hm; unfold max_milli; lia|rewrite Hm; lia|].
  exists m, suffix. split; [exact H|]. destruct (decide _) as [[Hd _]|_]; [discriminate Hd|]. exact Hc.
Defined.

Lemma String_ParseQuantity_witness :
  ∃ s a' f', String_ (mkQuantity (Some (mkDec 15 1)) DecimalSI) = Return s ∧
    ParseQuantity s = Return (Ok (mkQuantity (Some a') f')) ∧ milli a' = 1500 ∧
    String_ (mkQuantity (Some a') f') = Return s.
Proof.
  destruct fine_example as [Hf Hm].
  destruct (String_ParseQuantity (mkDec 15 1) DecimalSI (fine_normal _ Hf)) as (s & a' & f' & H1 & H2 & H3 & H4);
    [rewrite Hm; unfold max_milli; lia|].
  exists s, a', f'. split; [exact H1|]. split; [exact H2|]. split; [exact H3|]. apply H4. discriminate.
Defined.

Lemma Cmp_spec_witness :
  ∃ c, Cmp (mkQuantity (Some (mkDec 15 1)) DecimalSI) (mkQuantity (Some (mkDec 15 1)) BinarySI) = Return c ∧ c = 0.
Proof.
  destruct fine_example as [Hf Hm].
  destruct (Cmp_spec (mkDec 15 1) (mkDec 15 1) DecimalSI BinarySI Hf Hf) as (c & H & [Hc|[Hc _]]);
    [rewrite Hm; unfold max_milli; lia|rewrite Hm; unfold max_milli; lia|exists c; split; [exact H|]..].
  - rewrite Hc. reflexivity.
  - exact Hc.
Defined.

(** ** What the bounds are for *)

(** An exponent that does not fit 32 bits is cut to its low bits: this large
    number is parsed as one, not as the largest quantity. *)
Lemma ParseQuantity_wraps :
  ParseQuantity (lit "1e4294967296") = Return (Ok (mkQuantity (Some (mkDec 1000 3)) DecimalExponent)).
Proof. by vm_compute. Qed.

(** And with this exponent the difference of two scales wraps to the least
    32-bit integer, whose negation is negative, as is then the index of the
    power of ten. *)
Lemma ParseQuantity_panics : ParseQuantity (lit "1e2147483645") = Panic (lit "index out of range").
Proof. by vm_compute. Qed.

(** A value that is too low for [MilliValue] compares as larger than zero. *)
Lemma Cmp_wraps : Cmp (NewQuantity (- (2 ^ 63 - 1)) DecimalSI) (NewQuantity 0 DecimalSI) = Return 1.
Proof. by vm_compute. Qed.

(** There is no suffix for [10^21], and none is printed. *)
Lemma String_drops_exponent : String_ (mkQuantity (Some (mkDec 1 (-21))) DecimalSI) = Return (lit "1").
Proof. by vm_compute. Qed.

(** The empty suffix is listed for [2^0] among the decimal ones, where it is
    not looked for; what is printed without a suffix is parsed as decimal, and
    then printed otherwise. *)
Lemma binary_without_suffix :
  construct 2 0 BinarySI quantitySuffixer = None ∧ String_ (NewQuantity 2000 BinarySI) = Return (lit "2000") ∧
  (r ← ParseQuantity (lit "2000"); match r with Ok q => String_ q | Err _ => Return [] end) = Return (lit "2k").
Proof. by vm_compute. Qed.

(** The fraction is not dropped but rounded up, and a binary quantity with a
    fraction is printed as a decimal one, not rounded up. *)
Lemma Value_rounds_up :
  Value (NewMilliQuantity 1100 DecimalSI) = Return 2 ∧ String_ (NewMilliQuantity 2000500 BinarySI) = Return (lit "2000500m").
Proof. by vm_compute. Qed.
