(* ===== verification/JsonMerge.v ===== *)
(** * Merge patches of JSON documents (github.com/evanphx/json-patch: merge.go)

    A patch is a document: its members replace those of the document, null
    removes one.  Here are the merging of a patch and the making of one from
    two documents.  A node that is decoded only when it is looked into is its
    value, and a map is a finite map: the loops over maps change each member
    on its own, so that their order does not matter.  Numbers are what the
    decoder makes of them, which keeps the text for merging and a
    floating-point number for making a patch; decoding and encoding are
    parameters. *)

From S2P Require Import Prelude.

Section merge.
Context {N : Type} `{EqDecision N}.

(** ** Values *)

Inductive value :=
  | VNull
  | VBool (b : bool)
  | VNumber (n : N)
  | VString (s : str)
  | VArray (l : list value)
  | VObject (m : gmap str value).

(** Null is the nil pointer of a map or an array of nodes. *)
Definition is_null (v : value) : bool := match v with VNull => true | _ => false end.

(** [reflect.TypeOf(a) == reflect.TypeOf(b)] *)
Definition same_type (a b : value) : bool :=
  match a, b with
  | VNull, VNull | VBool _, VBool _ | VNumber _, VNumber _ | VString _, VString _ | VArray _, VArray _
  | VObject _, VObject _ => true
  | _, _ => false
  end.

(** ** Merging *)

(** An array that is built by appending starts as the nil slice, which is
    encoded as null when nothing was appended. *)
Definition appended (newAry : list value) : value := match newAry with [] => VNull | _ => VArray newAry end.

Fixpoint pruneNulls (n : value) : value :=
  match n with
  | VObject doc => VObject (omap (λ v, if is_null v then None else Some (pruneNulls v)) doc)
  | VArray ary => appended (omap (λ v, if is_null v then None else Some (pruneNulls v)) ary)
  | _ => n
  end.
Definition pruneDocNulls (doc : gmap str value) : gmap str value :=
  omap (λ v, if is_null v then None else Some (pruneNulls v)) doc.
Definition pruneAryNulls (ary : list value) : value :=
  appended (omap (λ v, if is_null v then None else Some (pruneNulls v)) ary).

(** What one member of a patch makes of that of the document; [merge_node]:
    [merge]. *)
Definition merge_member (merge_node : value → value → value) (v cur : option value) : option value :=
  match v with
  | None => cur
  | Some v =>
      if is_null v then None
      else
        match cur with
        | None => Some (pruneNulls v)
        | Some cur => if is_null cur then Some (pruneNulls v) else Some (merge_node v cur)
        end
  end.

(** [merge(cur, patch)] *)
Fixpoint merge_node (patch cur : value) : value :=
  match cur with
  | VObject curDoc =>
      match patch with
      | VObject patchDoc => VObject (base.merge (merge_member merge_node) patchDoc curDoc)
      | _ => patch
      end
  | _ => pruneNulls patch
  end.
Definition mergeDocs (doc patch : gmap str value) : gmap str value :=
  base.merge (merge_member merge_node) patch doc.

Inductive merge_error := errBadJSONDoc | errBadJSONPatch.

(** [unmarshal]: the value of a text, none for a syntax error.  Decoding into
    a map fails for what is neither an object nor null. *)
Context (unmarshal : str → option value) (marshal : value → str).

Definition MergePatch (docData patchData : str) : result merge_error str :=
  match unmarshal docData, unmarshal patchData with
  | None, _ => Err errBadJSONDoc
  | Some _, None => Err errBadJSONPatch
  | Some VNull, _ => Err errBadJSONDoc
  | Some _, Some VNull => Err errBadJSONPatch
  | Some (VObject doc), Some (VObject patch) => Ok (marshal (VObject (mergeDocs doc patch)))
  | Some _, Some (VObject patch) => Ok (marshal (VObject (pruneDocNulls patch)))
  | Some _, Some (VArray patchAry) => Ok (marshal (pruneAryNulls patchAry))
  | Some _, Some _ => Err errBadJSONPatch
  end.

(** ** Making a patch *)

(** There is no case for null and none for arrays.  A member that one of the
    maps does not have is null there, and matches nothing. *)
Fixpoint matchesValue (av bv : value) : bool :=
  same_type av bv &&
  match av, bv with
  | VString a, VString b => bool_decide (a = b)
  | VNumber a, VNumber b => bool_decide (a = b)
  | VBool a, VBool b => bool_decide (a = b)
  | VObject a, VObject b =>
      map_fold (λ _ matched all, matched && all) true
        (base.merge (λ x y : option value,
           match x, y with
           | Some v, Some w => Some (matchesValue v w)
           | Some v, None => Some (matchesValue v VNull)
           | None, Some w => Some false
           | None, None => None
           end) a b)
  | _, _ => false
  end.

Definition matchesArray (a b : list value) : bool :=
  bool_decide (length a = length b) && forallb (λ p, matchesValue p.1 p.2) (zip a b).

(** A member of the patch, from those of [b] and [a]. *)
Definition diff_member (getDiff : value → value → value) (bv av : option value) : option value :=
  match bv, av with
  | None, None => None
  | None, Some _ => Some VNull
  | Some bv, None => Some bv
  | Some bv, Some av =>
      if negb (same_type av bv) then Some bv
      else
        match av, bv with
        | VObject _, _ =>
            match getDiff bv av with
            | VObject dst => if bool_decide (dst = ∅) then None else Some (VObject dst)
            | _ => None
            end
        | VArray a, VArray b => if matchesArray a b then None else Some bv
        | VNull, _ => if is_null bv then None else Some bv
        | _, _ => if matchesValue av bv then None else Some bv
        end
  end.

(** [getDiff] on the values of two objects. *)
Fixpoint diff_node (b a : value) : value :=
  match b, a with
  | VObject b, VObject a => VObject (base.merge (diff_member diff_node) b a)
  | _, _ => VObject ∅
  end.
Definition getDiff (a b : gmap str value) : gmap str value := base.merge (diff_member diff_node) b a.

(** Null is decoded to the nil map. *)
Definition as_map (v : option value) : option (gmap str value) :=
  match v with Some (VObject m) => Some m | Some VNull => Some ∅ | _ => None end.
Definition CreateMergePatch (a b : str) : result merge_error str :=
  match as_map (unmarshal a), as_map (unmarshal b) with
  | Some aI, Some bI => Ok (marshal (VObject (getDiff aI bI)))
  | _, _ => Err errBadJSONDoc
  end.
End merge.
Arguments value N : clear implicits.
