(* ===== verification/JsonMergeSpec.v ===== *)
(** * Merge patches of JSON documents (proofs about [JsonMerge])

    Merging does what the specification of merge patches says, for patches
    whose arrays are not empty and hold no null; and for such documents the
    patch that is made from two of them leads from the one to the other. *)

From S2P Require Import Prelude JsonMerge.

Section merge.
Context {N : Type} `{EqDecision N}.
Implicit Types v w a b patch : value N.
Implicit Types l : list (value N).
Implicit Types m : gmap str (value N).

(** ** Induction over values *)

Fixpoint value_size v : nat :=
  match v with
  | VArray l => S (foldr (λ v n, value_size v + n) 0 l)
  | VObject m => S (map_fold (λ _ v n, value_size v + n) 0 m)
  | _ => 1
  end.

Lemma size_member m k v : m !! k = Some v → value_size v < value_size (VObject m).
Proof.
  intros Hk. simpl. rewrite (map_fold_delete_L (λ _ v n, value_size v + n) 0 k v m); [lia| |done]. intros. lia.
Qed.

Lemma size_element l v : v ∈ l → value_size v < value_size (VArray l).
Proof.
  intros Hv. simpl. induction l as [|w l IH]; [by apply not_elem_of_nil in Hv|]. simpl.
  apply elem_of_cons in Hv as [->|Hv]; [lia|]. specialize (IH Hv). lia.
Qed.

Lemma value_strong_ind (P : value N → Prop) :
  (∀ v, (∀ w, value_size w < value_size v → P w) → P v) → ∀ v, P v.
Proof.
  intros IH v. remember (value_size v) as n eqn:Hn. revert v Hn.
  induction n as [n IHn] using lt_wf_ind. intros v ->. apply IH. intros w Hw. by eapply IHn.
Qed.

Lemma value_ind' (P : value N → Prop) :
  P VNull → (∀ x, P (VBool x)) → (∀ x, P (VNumber x)) → (∀ x, P (VString x)) →
  (∀ l, (∀ v, v ∈ l → P v) → P (VArray l)) → (∀ m, (∀ k v, m !! k = Some v → P v) → P (VObject m)) → ∀ v, P v.
Proof.
  intros H1 H2 H3 H4 H5 H6. induction v as [[| | | |l|m] IH] using value_strong_ind; auto.
  - apply H5. intros v Hv. apply IH. by apply size_element.
  - apply H6. intros k v Hv. apply IH. by eapply size_member.
Qed.

(** ** Values that pruning leaves alone *)

(** No null, and no array that is empty. *)
Inductive tame : value N → Prop :=
  | tame_bool x : tame (VBool x)
  | tame_number x : tame (VNumber x)
  | tame_string x : tame (VString x)
  | tame_array l : l ≠ [] → (∀ v, v ∈ l → tame v) → tame (VArray l)
  | tame_object m : (∀ k v, m !! k = Some v → tame v) → tame (VObject m).

Lemma tame_not_null v : tame v → is_null v = false.
Proof. by destruct 1. Qed.

Lemma prune_tame v : tame v → pruneNulls v = v.
Proof.
  induction 1 as [x|x|x|l Hl Hall IH|m Hall IH]; simpl; try done.
  - assert (E : omap (λ v, if is_null v then None else Some (pruneNulls v)) l = l).
    { clear Hl. induction l as [|v l IHl]; [done|]. simpl. rewrite (tame_not_null v) by (apply Hall; set_solver).
      rewrite IH by set_solver. f_equal. apply IHl; intros w Hw; [apply Hall|apply IH]; set_solver. }
    rewrite E. by destruct l.
  - f_equal. apply map_eq. intros k. rewrite lookup_omap. destruct (m !! k) as [v|] eqn:Hk; [|done]. simpl.
    rewrite (tame_not_null v) by by eapply Hall. by rewrite (IH k).
Qed.

(** ** The specification of merge patches (RFC 7386) *)

(** [MergePatch(Target, Patch)]; [None]: the target is undefined. *)
Fixpoint rfc_merge patch (target : option (value N)) : value N :=
  match patch with
  | VObject p =>
      VObject (merge (λ x t, match x with
                             | None => t
                             | Some x => if is_null x then None else Some (rfc_merge x t)
                             end)
                 p (match target with Some (VObject t) => t | _ => ∅ end))
  | _ => patch
  end.

(** A patch whose arrays are as pruning leaves them. *)
Inductive mergeable : value N → Prop :=
  | mergeable_null : mergeable VNull
  | mergeable_tame v : tame v → mergeable v
  | mergeable_object m : (∀ k v, m !! k = Some v → mergeable v) → mergeable (VObject m).

Lemma mergeable_member m k v : mergeable (VObject m) → m !! k = Some v → mergeable v.
Proof. inversion 1 as [|x Ht|x Hm]; subst; [|by apply Hm]. intros Hk. inversion Ht as [| | | |x Hx]; subst. apply mergeable_tame. by eapply Hx. Qed.

Lemma mergeable_plain v : mergeable v → (∀ m, v ≠ VObject m) → v = VNull ∨ tame v.
Proof. intros H Hn. inversion H; subst; auto. by destruct (Hn m). Qed.

Lemma rfc_plain v t : (∀ m, v ≠ VObject m) → rfc_merge v t = v.
Proof. intros Hn. destruct v; try done. by destruct (Hn m). Qed.

Lemma merge_lookup (f : option (value N) → option (value N) → option (value N)) m m' k :
  f None None = None → merge f m m' !! k = f (m !! k) (m' !! k).
Proof. intros Hf. rewrite lookup_merge. by destruct (m !! k), (m' !! k). Qed.

Lemma prune_rfc v : mergeable v → is_null v = false → pruneNulls v = rfc_merge v None.
Proof.
  induction v as [|x|x|x|l IH|m IH] using value_ind'; intros Hm Hn; try done.
  - destruct (mergeable_plain _ Hm) as [|Ht]; [done..|]. by apply prune_tame.
  - simpl. f_equal. apply map_eq. intros k. rewrite lookup_omap, merge_lookup by done.
    rewrite lookup_empty. destruct (m !! k) as [v|] eqn:Hk; [|done]. simpl.
    destruct (is_null v) eqn:Hv; [done|]. rewrite (IH k v) by (done || by eapply mergeable_member). done.
Qed.

Lemma rfc_not_object v w : (∀ m, w ≠ VObject m) → rfc_merge v (Some w) = rfc_merge v None.
Proof. intros Hw. destruct v; try done. simpl. destruct w; try done. by destruct (Hw m0). Qed.

Lemma merge_member_rfc v t :
  mergeable v → (∀ w, t = Some w → is_null w = false → is_null v = false → merge_node v w = rfc_merge v (Some w)) →
  merge_member merge_node (Some v) t = if is_null v then None else Some (rfc_merge v t).
Proof.
  intros Hm Hnode. simpl. destruct (is_null v) eqn:Hv; [done|].
  destruct t as [w|]; [|by rewrite prune_rfc]. destruct (is_null w) eqn:Hw; [|by rewrite Hnode].
  rewrite prune_rfc by done. rewrite rfc_not_object; [done|]. intros m ->. done.
Qed.

Lemma merge_node_rfc v w : mergeable v → is_null v = false → merge_node v w = rfc_merge v (Some w).
Proof.
  revert w. induction v as [|x|x|x|l IH|m IH] using value_ind'; intros w Hm Hn.
  1-5: destruct w; cbn [merge_node rfc_merge]; try done; destruct (mergeable_plain _ Hm) as [|Ht]; try done; by apply prune_tame.
  destruct w as [| | | | |t]; cbn [merge_node]; [by rewrite prune_rfc, rfc_not_object..|].
  cbn [rfc_merge]. f_equal. apply map_eq. intros k. rewrite !merge_lookup by done.
  destruct (m !! k) as [v|] eqn:Hk; [|done].
  apply merge_member_rfc; [by eapply mergeable_member|]. intros w Hw _ Hv. apply (IH k); [done| |done]. by eapply mergeable_member.
Qed.

Lemma mergeDocs_spec m p :
  mergeable (VObject p) → VObject (mergeDocs m p) = rfc_merge (VObject p) (Some (VObject m)).
Proof. intros Hm. by rewrite <- merge_node_rfc. Qed.

(** C33: Merging a patch is what the specification says, if the arrays of the
    patch are not empty and hold no null. *)
Theorem mergeDocs_rfc m p :
  mergeable (VObject p) → VObject (mergeDocs m p) = rfc_merge (VObject p) (Some (VObject m)).
Proof. apply mergeDocs_spec. Qed.

(** ** Making a patch *)

Lemma matchesValue_eq v w : matchesValue v w = true → v = w.
Proof.
  revert w. induction v as [|x|x|x|l IH|m IH] using value_ind'; intros w; destruct w as [|y|y|y|k|m']; simpl; try done.
  1-3: by intros ->%bool_decide_eq_true.
  intros Hall. f_equal. apply map_eq. intros k.
  set (f := λ x y : option (value N),
         match x, y with
         | Some v, Some w => Some (matchesValue v w)
         | Some v, None => Some (matchesValue v VNull)
         | None, Some w => Some false
         | None, None => None
         end) in Hall.
  assert (Hk : ∀ c, merge f m m' !! k = Some c → c = true).
  { intros c Hc. revert Hall. rewrite (map_fold_delete_L (λ _ matched all, matched && all) true k c _ ); [|intros j1 j2 [] []; done|done].
    by intros [Hc' _]%andb_true_iff. }
  rewrite lookup_merge in Hk. destruct (m !! k) as [v|] eqn:Hv, (m' !! k) as [w|] eqn:Hw; simpl in Hk.
  - f_equal. apply (IH k v Hv). by apply Hk.
  - specialize (IH k v Hv VNull). specialize (Hk _ eq_refl). destruct v; simpl in Hk; try done.
  - by specialize (Hk _ eq_refl).
  - done.
Qed.

Lemma matchesArray_eq l k : matchesArray l k = true → l = k.
Proof.
  unfold matchesArray. intros [Hlen%bool_decide_eq_true Hall]%andb_true_iff. revert k Hlen Hall.
  induction l as [|v l IH]; intros [|w k]; simpl; intros Hlen Hall; try done.
  apply andb_true_iff in Hall as [Hv Hall]. apply matchesValue_eq in Hv as ->. f_equal. apply IH; [lia|done].
Qed.

Lemma tame_member m k v : tame (VObject m) → m !! k = Some v → tame v.
Proof. inversion 1; subst. eauto. Qed.

(** What is merged for one member leads to that of [b]. *)
Lemma diff_member_merges w v :
  tame w → (∀ m m', w = VObject m' → v = VObject m → merge_node (diff_node w v) v = w) →
  merge_member merge_node (diff_member diff_node (Some w) (Some v)) (Some v) = Some w.
Proof.
  intros Ht Hnode. pose proof (tame_not_null w Ht) as Hn. pose proof (prune_tame w Ht) as Hp.
  assert (Hset : (∀ m, v ≠ VObject m) ∨ (∀ m, w ≠ VObject m) → merge_member merge_node (Some w) (Some v) = Some w).
  { intros Hv. unfold merge_member. rewrite Hn, Hp. destruct (is_null v); [done|]. f_equal.
    destruct v as [| | | | |m]; [by destruct w..|].
    destruct w as [| | | | |m2]; [done..|]. destruct Hv as [Hv|Hv]; [by destruct (Hv m)|by destruct (Hv m2)]. }
  unfold diff_member. destruct (same_type v w) eqn:Hs; simpl negb; cbv iota.
  2: { apply Hset. destruct v; [left; done..|]. right. by destruct w. }
  destruct v as [|x|x|x|l|m], w as [|y|y|y|k|m']; try done.
  - destruct (matchesValue (VBool x) (VBool y)) eqn:E; [apply matchesValue_eq in E; by rewrite E|by apply Hset; left].
  - destruct (matchesValue (VNumber x) (VNumber y)) eqn:E; [apply matchesValue_eq in E; by rewrite E|by apply Hset; left].
  - destruct (matchesValue (VString x) (VString y)) eqn:E; [apply matchesValue_eq in E; by rewrite E|by apply Hset; left].
  - destruct (matchesArray l k) eqn:E; [apply matchesArray_eq in E as ->; done|by apply Hset; left].
  - specialize (Hnode m m' eq_refl eq_refl). destruct (diff_node (VObject m') (VObject m)) as [| | | | |dst] eqn:E; try done.
    case_bool_decide as Hd; [|cbn [merge_member is_null]; by rewrite Hnode].
    subst dst. simpl. rewrite <- Hnode. cbn [merge_node]. do 2 f_equal. apply map_eq. intros i.
    rewrite merge_lookup by done. by rewrite lookup_empty.
Qed.

Lemma diff_node_merges w v m m' : tame w → w = VObject m' → v = VObject m → merge_node (diff_node w v) v = w.
Proof.
  revert v m m'. induction w as [|x|x|x|l IH|m0 IH] using value_ind'; intros v m m' Ht Hw ->; try done.
  injection Hw as <-. cbn [diff_node merge_node]. f_equal. apply map_eq. intros k. rewrite !merge_lookup by done.
  destruct (m0 !! k) as [w|] eqn:Hk.
  - pose proof (tame_member _ _ _ Ht Hk) as Htw. destruct (m !! k) as [v|].
    + apply diff_member_merges; [done|]. intros m1 m2 -> ->. by eapply (IH k).
    + simpl. rewrite (tame_not_null w) by done. by rewrite prune_tame.
  - by destruct (m !! k).
Qed.

Lemma getDiff_merges m m' : tame (VObject m') → mergeDocs m (getDiff m m') = m'.
Proof.
  intros Ht. pose proof (diff_node_merges _ (VObject m) m m' Ht eq_refl eq_refl) as E.
  cbn [diff_node merge_node] in E. by injection E.
Qed.

End merge.

(** ** Examples *)

Definition field : str := lit "a"%go.
Definition doc_of (v : value Z) : gmap str (value Z) := {[ field := v ]}.

Lemma doc_of_mergeable v : mergeable v → mergeable (VObject (doc_of v)).
Proof. intros Hv. apply mergeable_object. unfold doc_of. intros k w Hw. by apply lookup_singleton_Some in Hw as [_ <-]. Qed.

Lemma doc_of_tame v : tame v → tame (VObject (doc_of v)).
Proof. intros Hv. apply tame_object. unfold doc_of. intros k w Hw. by apply lookup_singleton_Some in Hw as [_ <-]. Qed.

Lemma mergeDocs_rfc_witness :
  VObject (mergeDocs (doc_of (VNumber 1%Z)) (doc_of VNull)) = VObject ∅ ∧
  VObject (mergeDocs (doc_of (VNumber 1%Z)) (doc_of VNull)) = rfc_merge (VObject (doc_of VNull)) (Some (VObject (doc_of (VNumber 1%Z)))).
Proof. split; [reflexivity|]. apply mergeDocs_rfc. apply doc_of_mergeable. apply mergeable_null. Defined.


(** An empty array becomes null, and null is taken out of arrays, where the
    specification keeps both. *)
Lemma arrays_are_changed :
  mergeDocs ∅ (doc_of (VArray [])) = doc_of VNull ∧
  rfc_merge (VObject (doc_of (VArray []))) None = VObject (doc_of (VArray [])) ∧
  mergeDocs ∅ (doc_of (VArray [VNull; VNumber 1%Z])) = doc_of (VArray [VNumber 1%Z]) ∧
  rfc_merge (VObject (doc_of (VArray [VNull; VNumber 1%Z]))) None = VObject (doc_of (VArray [VNull; VNumber 1%Z])).
Proof. by vm_compute. Qed.
