(* ===== verification/JsonDelta.v ===== *)
(** * Changes that are applied to another version (kubectl/cmd/util/jsonmerge:
      jsonmerge.go; util/strategicpatch: HasConflicts)

    An edit is kept as the merge patch from the document that was edited; it
    is applied to a later version, if the changes made since do not conflict
    with it.  Turning YAML into JSON, decoding and encoding are parameters. *)

From S2P Require Import Prelude JsonMerge.

Section delta.
Context {N : Type} `{EqDecision N}.

(** ** Conflicts *)

(** The answers that [HasConflicts] may give.  The loops over a map and an
    array return in their first round; which member of a map comes first is
    not determined. *)
Inductive HasConflicts : value N → value N → bool → Prop :=
  | conflicts_member left right key leftValue rightValue answer :
      left !! key = Some leftValue → right !! key = Some rightValue → HasConflicts leftValue rightValue answer →
      HasConflicts (VObject left) (VObject right) answer
  | conflicts_missing left right key leftValue :
      left !! key = Some leftValue → right !! key = None → HasConflicts (VObject left) (VObject right) false
  | conflicts_no_member right :
      HasConflicts (VObject ∅) (VObject right) false
  | conflicts_object left right :
      (∀ m, right ≠ VObject m) → HasConflicts (VObject left) right true
  | conflicts_length left right :
      length left ≠ length right → HasConflicts (VArray left) (VArray right) true
  | conflicts_element l ls r rs answer :
      length ls = length rs → HasConflicts l r answer → HasConflicts (VArray (l :: ls)) (VArray (r :: rs)) answer
  | conflicts_no_element :
      HasConflicts (VArray []) (VArray []) false
  | conflicts_array left right :
      (∀ l, right ≠ VArray l) → HasConflicts (VArray left) right true
  | conflicts_scalar_equal left :
      (∀ m, left ≠ VObject m) → (∀ l, left ≠ VArray l) → HasConflicts left left false
  | conflicts_scalar left right :
      (∀ m, left ≠ VObject m) → (∀ l, left ≠ VArray l) → left ≠ right → HasConflicts left right true.

(** ** Preconditions *)

(** What keeps a precondition from holding; [None]: it holds. *)
Definition PreconditionFunc := value N → option str.

Definition unchanged (key message : str) (m : gmap str (value N)) : option str :=
  match m !! key with Some _ => Some message | None => None end.

Definition RequireKeyUnchanged (key : str) : PreconditionFunc := λ diff,
  match diff with
  | VObject m => unchanged key (key ++ lit " should not be changed"%go ++ ["010"%char]) m
  | _ => None
  end.

Definition RequireMetadataKeyUnchanged (key : str) : PreconditionFunc := λ diff,
  match diff with
  | VObject m =>
      match m !! lit "metadata"%go with
      | Some (VObject m2) =>
          unchanged key (lit "metadata."%go ++ key ++ lit " should not be changed"%go ++ ["010"%char]) m2
      | _ => None
      end
  | _ => None
  end.

(** The message of the first that does not hold. *)
Fixpoint test_all (diff : value N) (preconditions : list PreconditionFunc) : option str :=
  match preconditions with
  | [] => None
  | fn :: fns => match fn diff with Some msg => Some msg | None => test_all diff fns end
  end.

(** ** Deltas *)

Record Delta := mkDelta { original : str; edit : str; preconditions : list PreconditionFunc }.

Definition AddPreconditions (fns : list PreconditionFunc) (d : Delta) : Delta :=
  mkDelta (original d) (edit d) (preconditions d ++ fns).
Definition Edit (d : Delta) : str := edit d.

Inductive delta_error := BadYAML | BadJSON | Merge (e : merge_error) | ErrPreconditionFailed | ErrConflict.

Context (ToJSON : str → option str) (unmarshal : str → option (value N)) (marshal : value N → str).
(** The answer of [HasConflicts]. *)
Context (hasConflicts : value N → value N → bool).

Definition of_yaml (s : str) : result delta_error str :=
  match ToJSON s with Some j => Ok j | None => Err BadYAML end.
Definition create_patch (a b : str) : result delta_error str :=
  match CreateMergePatch unmarshal marshal a b with Ok p => Ok p | Err e => Err (Merge e) end.
Definition unmarshal_map (s : str) : result delta_error (value N) :=
  match as_map (unmarshal s) with Some m => Ok (VObject m) | None => Err BadJSON end.

(** The message of the error for a text that is not an object. *)
Context (decode_message : str → str).

(** Whether the preconditions hold, with a message. *)
Definition TestPreconditionsHold (edit : str) (fns : list PreconditionFunc) : bool * str :=
  match unmarshal_map edit with
  | Err _ => (false, decode_message edit)
  | Ok diff => match test_all diff fns with Some msg => (false, msg) | None => (true, []) end
  end.

Definition NewDelta (from to : str) : result delta_error Delta :=
  before ← of_yaml from;
  after ← of_yaml to;
  diff ← create_patch before after;
  Ok (mkDelta before diff []).

Definition holds (diff1 diff2 : value N) (fn : PreconditionFunc) : bool :=
  match fn diff1, fn diff2 with None, None => true | _, _ => false end.

Definition Apply (latest : str) (d : Delta) : result delta_error str :=
  base ← of_yaml latest;
  changes ← create_patch (original d) base;
  diff1 ← unmarshal_map (edit d);
  diff2 ← unmarshal_map changes;
  if negb (forallb (holds diff1 diff2) (preconditions d)) then Err ErrPreconditionFailed
  else if hasConflicts diff1 diff2 then Err ErrConflict
  else match MergePatch unmarshal marshal base (edit d) with Ok s => Ok s | Err e => Err (Merge e) end.

Definition IsConflicting (err : delta_error) : bool := match err with ErrConflict => true | _ => false end.
Definition IsPreconditionFailed (err : delta_error) : bool := match err with ErrPreconditionFailed => true | _ => false end.
End delta.
Arguments Delta N : clear implicits.
