(* ===== verification/JsonDeltaSpec.v ===== *)
(** * Changes that are applied to another version (proofs about [JsonDelta])

    What [Apply] returns; that changes which do not overlap can be applied in
    either order, so that none is lost; and that [HasConflicts] may miss
    changes that do. *)

From S2P Require Import Prelude JsonMerge JsonMergeSpec JsonDelta.

Section delta.
Context {N : Type} `{EqDecision N}.
Implicit Types v w : value N.
Implicit Types m o b d : gmap str (value N).

(** ** Changes that do not overlap *)

(** Both are objects, and what is in both does not overlap; or they are the
    same. *)
Inductive compatible : value N → value N → Prop :=
  | compatible_same v : (∀ m, v ≠ VObject m) → compatible v v
  | compatible_object m m' :
      (∀ k v w, m !! k = Some v → m' !! k = Some w → compatible v w) → compatible (VObject m) (VObject m').

Lemma compatible_null v w : compatible v w → is_null v = is_null w.
Proof. by destruct 1. Qed.

(** The specification's merge of one member. *)
Definition rfc_member (x : option (value N)) (t : option (value N)) : option (value N) :=
  match x with None => t | Some x => if is_null x then None else Some (rfc_merge x t) end.

Definition members (t : option (value N)) : gmap str (value N) := match t with Some (VObject m) => m | _ => ∅ end.

Lemma rfc_object m t : rfc_merge (VObject m) t = VObject (merge rfc_member m (members t)).
Proof. done. Qed.

Lemma rfc_commute v w t :
  compatible v w → rfc_merge v (Some (rfc_merge w t)) = rfc_merge w (Some (rfc_merge v t)).
Proof.
  intros Hc. revert t. induction Hc as [v Hv|m m' Hall IH]; intros t.
  - by rewrite !rfc_plain.
  - rewrite !rfc_object. f_equal. cbn [members]. apply map_eq. intros k. rewrite !merge_lookup by done.
    destruct (m !! k) as [v|] eqn:Hv, (m' !! k) as [w|] eqn:Hw; try done.
    pose proof (compatible_null v w (Hall k v w Hv Hw)) as Hn. unfold rfc_member. rewrite <- Hn.
    destruct (is_null v); [done|]. by rewrite (IH k v w Hv Hw).
Qed.

Lemma compatible_refl v : compatible v v.
Proof.
  induction v as [|x|x|x|l IH|m IH] using value_ind'; try by apply compatible_same.
  apply compatible_object. intros k v w Hv Hw. rewrite Hv in Hw. injection Hw as <-. by apply (IH k).
Qed.

(** A conflict that is reported is one. *)
Lemma HasConflicts_sound v w : HasConflicts v w true → ¬ compatible v w.
Proof.
  intros Hc. remember true as answer eqn:Ha. revert Ha.
  induction Hc as [left right k v w answer Hl Hr Hc IH| | |left right Hno|left right Hlen|l ls r rs answer Hlen Hc IH| |left right Hno
    |left Ho Har|left right Ho Har Hne]; intros Ha Hcomp; try done.
  - inversion Hcomp as [x Hx|m m' Hall]; subst; [by edestruct Hx|]. by apply IH, (Hall k).
  - inversion Hcomp as [x Hx|m m' Hall]; subst; [by edestruct Hx|by destruct (Hno m')].
  - by inversion Hcomp; subst.
  - inversion Hcomp; subst. by apply IH, compatible_refl.
  - inversion Hcomp; subst. by destruct (Hno left).
  - inversion Hcomp as [x Hx|m m' Hall]; subst; [done|by destruct (Ho m)].
Qed.

(** ** What a patch that was made is like *)

Lemma diff_mergeable b o : tame (VObject b) → mergeable (VObject (getDiff o b)).
Proof.
  intros Ht. change (VObject (getDiff o b)) with (diff_node (VObject b) (VObject o)).
  remember (VObject b) as w eqn:Hw. remember (VObject o) as a eqn:Ha. clear Hw Ha b o. revert a Ht.
  induction w as [|x|x|x|l IH|m IH] using value_ind'; intros a Ht; destruct a as [| | | | |m'];
    try (apply mergeable_tame, tame_object; intros k v Hv; by rewrite lookup_empty in Hv).
  cbn [diff_node]. apply mergeable_object. intros k v. rewrite merge_lookup by done.
  destruct (m !! k) as [w|] eqn:Hk; [|destruct (m' !! k); [intros [= <-]; apply mergeable_null|done]].
  pose proof (tame_member _ _ _ Ht Hk) as Htw. pose proof (mergeable_tame w Htw) as Hm.
  destruct (m' !! k) as [a|]; [|by intros [= <-]]. unfold diff_member. intros E.
  destruct (negb (same_type a w)); [by simplify_eq|].
  destruct a as [| | | | |ma]; [..|]; try (repeat case_match; by simplify_eq).
  pose proof (IH k w Hk (VObject ma) Htw) as Hd. destruct (diff_node w (VObject ma)) as [| | | | |dst]; try done.
  case_bool_decide; by simplify_eq.
Qed.

(** ** Applying *)

Context (ToJSON : str → option str) (unmarshal : str → option (value N)) (marshal : value N → str).
Context (hasConflicts : value N → value N → bool).

Lemma Apply_unfold (delta : Delta N) latest base o b d1 :
  ToJSON latest = Some base → unmarshal base = Some (VObject b) → unmarshal (original delta) = Some (VObject o) →
  unmarshal (edit delta) = Some (VObject d1) →
  unmarshal (marshal (VObject (getDiff o b))) = Some (VObject (getDiff o b)) →
  Apply ToJSON unmarshal marshal hasConflicts latest delta =
  if negb (forallb (holds (VObject d1) (VObject (getDiff o b))) (preconditions delta)) then Err ErrPreconditionFailed
  else if hasConflicts (VObject d1) (VObject (getDiff o b)) then Err ErrConflict
  else Ok (marshal (VObject (mergeDocs b d1))).
Proof.
  intros H1 H2 H3 H4 H5. unfold Apply, of_yaml, create_patch, CreateMergePatch, unmarshal_map. rewrite H1. simpl.
  rewrite H2, H3. simpl. rewrite H4, H5. simpl.
  destruct (forallb _ _); simpl; [|done]. destruct (hasConflicts _ _); [done|]. unfold MergePatch. by rewrite H2, H4.
Qed.

End delta.

(** ** Examples *)

Definition pair_of (x y : value Z) : gmap str (value Z) := <[lit "a"%go := x]> {[ lit "b"%go := y ]}.

(** Both set [b], to different values; that both set [a] to the same may be
    all that is looked at. *)
Lemma HasConflicts_misses :
  let left := VObject (pair_of (VNumber 5%Z) (VNumber 2%Z)) in
  let right := VObject (pair_of (VNumber 5%Z) (VNumber 3%Z)) in
  HasConflicts left right false ∧ ¬ compatible left right.
Proof.
  split.
  - eapply (conflicts_member _ _ (lit "a"%go)); [by vm_compute|by vm_compute|]. by apply conflicts_scalar_equal.
  - intros Hc. inversion Hc as [|m m' Hall]; subst.
    specialize (Hall (lit "b"%go) _ _ ltac:(by vm_compute) ltac:(by vm_compute)). by inversion Hall.
Qed.

Definition text_o : str := lit "o"%go.
Definition text_e : str := lit "e"%go.
Definition text_m : str := lit "m"%go.
Definition read_text (s : str) : option (value Z) :=
  if decide (s = text_o) then Some (VObject (doc_of (VNumber 1%Z)))
  else if decide (s = text_e) then Some (VObject (doc_of (VNumber 2%Z)))
  else Some (VObject ∅).

