(* ===== verification/RestMapper.v ===== *)
(** * From kinds to resources (pkg/api/meta: restmapper.go, interfaces.go;
      pkg/api: mapper.go)

    A mapper knows the kinds of a group by version: the names of their
    resources, plural and singular, and back; mappers of several groups are
    put behind one.  Names are ASCII.  What handles the objects of a version
    (codec, convertor, accessor) is a parameter, as are the types that a
    scheme knows. *)

From S2P Require Import Prelude GoStr.

Local Open Scope go_scope.

(** ** Scopes and mappings (interfaces.go) *)

Inductive RESTScopeName := RESTScopeNameNamespace | RESTScopeNameRoot.

Record restScope := mkScope {
  scope_name : RESTScopeName;
  scope_paramName : str;
  scope_argumentName : str;
  scope_paramDescription : str
}.

Definition RESTScopeNamespace : restScope :=
  mkScope RESTScopeNameNamespace (lit "namespaces") (lit "namespace")
    (lit "object name and auth scope, such as for teams and projects").
Definition RESTScopeRoot : restScope := mkScope RESTScopeNameRoot [] [] [].

Record RESTMapping (I : Type) := mkMapping {
  map_Resource : str;
  map_APIVersion : str;
  map_Kind : str;
  map_Scope : restScope;
  map_Interfaces : I
}.
Arguments mkMapping {I} _ _ _ _ _.
Arguments map_Resource {I} _.
Arguments map_APIVersion {I} _.
Arguments map_Kind {I} _.
Arguments map_Scope {I} _.
Arguments map_Interfaces {I} _.

(** The errors, with what their messages name. *)
Inductive mapper_error :=
  | NoSingular (resource : str)
  | InvalidName (resource : str)
  | OtherGroup (resource group : str)
  | NoResource (resource : str)
  | NoKind (kind : str) (versions : list str)
  | KindExistsIn (kind : str) (found : list str) (version : str)
  | NoObject (version kind : str)
  | NoScope (version kind : str)
  | NoVersion (version : str).

(** A value next to an error. *)
Abbreviation answer A := (A * option mapper_error)%type.

(** What every mapper promises; the aliases belong to the package, and are
    given to whoever asks. *)
Class RESTMapper (I M : Type) := {
  VersionAndKindForResource : M → str → answer (str * str);
  GroupForResource : M → str → answer str;
  RESTMapping_for : M → str → list str → answer (option (RESTMapping I));
  AliasesForResource : M → gmap str (list str) → str → option (list str);
  ResourceSingularizer : M → str → answer str;
  ResourceIsValid : M → str → bool
}.

(** ** The names of resources *)

(** [strings.HasSuffix], [strings.TrimSuffix]. *)
Definition has_suffix (suffix s : str) : bool := has_prefix (reverse suffix) (reverse s).
Definition trim_suffix (suffix s : str) : str :=
  if has_suffix suffix s then take (length s - length suffix) s else s.

(** Plural and singular. *)
Definition KindToResource (kind : str) (mixedCase : bool) : str * str :=
  if decide (length kind = 0) then ([], [])
  else
    let singular := if mixedCase then to_lower (take 1 kind) ++ drop 1 kind else to_lower kind in
    let plural :=
      if has_suffix (lit "status") singular then singular ++ lit "es"
      else
        match list.last singular with
        | Some c =>
            if decide (c = "s"%char) then singular
            else if decide (c = "y"%char) then trim_suffix (lit "y") singular ++ lit "ies"
            else singular ++ lit "s"
        | None => []
        end in
    (plural, singular).

(** ** The mapper of a group *)

(** A version and a kind. *)
Abbreviation typeMeta := (str * str)%type.

Record DefaultRESTMapper (I : Type) := mkMapper {
  mapping : gmap str typeMeta;
  reverse : gmap typeMeta str;
  scopes : gmap typeMeta restScope;
  group : str;
  versions : list str;
  plurals : gmap str str;
  singulars : gmap str str;
  interfacesFunc : str → option I
}.
Arguments mkMapper {I} _ _ _ _ _ _ _ _.
Arguments mapping {I} _.
Arguments reverse {I} _.
Arguments scopes {I} _.
Arguments group {I} _.
Arguments versions {I} _.
Arguments plurals {I} _.
Arguments singulars {I} _.
Arguments interfacesFunc {I} _ _.

Section default.
Context {I : Type}.
Implicit Types m : DefaultRESTMapper I.

Definition NewDefaultRESTMapper (group : str) (versions : list str) (f : str → option I) : DefaultRESTMapper I :=
  mkMapper ∅ ∅ ∅ group versions ∅ ∅ f.

(** The names under which a kind is found. *)
Definition add_names (plural singular : str) (meta : typeMeta) (names : gmap str typeMeta) : gmap str typeMeta :=
  match names !! plural, names !! to_lower plural with
  | None, None =>
      let names := <[singular := meta]> (<[plural := meta]> names) in
      if decide (to_lower plural ≠ plural) then <[to_lower singular := meta]> (<[to_lower plural := meta]> names) else names
  | _, _ => names
  end.

Definition Add (scope : restScope) (kind version : str) (mixedCase : bool) m : DefaultRESTMapper I :=
  let '(plural, singular) := KindToResource kind mixedCase in
  let meta := (version, kind) in
  mkMapper (add_names plural singular meta (mapping m)) (<[meta := plural]> (reverse m)) (<[meta := scope]> (scopes m))
    (group m) (versions m) (<[singular := plural]> (plurals m)) (<[plural := singular]> (singulars m)) (interfacesFunc m).

Definition default_ResourceSingularizer m (resource : str) : answer str :=
  match singulars m !! resource with
  | Some singular => (singular, None)
  | None => (resource, Some (NoSingular resource))
  end.

Definition lookup_resource m (resource : str) : answer (str * str) :=
  match mapping m !! to_lower resource with
  | Some meta => (meta, None)
  | None => (([], []), Some (NoResource resource))
  end.

Definition default_VersionAndKindForResource m (resource : str) : answer (str * str) :=
  match split "/" resource with
  | [] | [_] => lookup_resource m resource
  | [g; resource] =>
      if decide (group m ≠ g) then (([], []), Some (OtherGroup resource (group m))) else lookup_resource m resource
  | _ => (([], []), Some (InvalidName resource))
  end.

Definition default_GroupForResource m (resource : str) : answer str :=
  match mapping m !! to_lower resource with
  | Some _ => (group m, None)
  | None => ([], Some (NoResource resource))
  end.

(** The first of the versions that has the kind. *)
Definition registered m (kind v : str) : bool := match reverse m !! (v, kind) with Some _ => true | None => false end.
Definition first_version m (kind : str) (l : list str) : str :=
  match list_find (λ v, registered m kind v) l with Some (_, v) => v | None => [] end.

Definition default_RESTMapping m (kind : str) (vs : list str) : answer (option (RESTMapping I)) :=
  let given_versions := filter (λ v, length v ≠ 0) vs in
  let version := first_version m kind given_versions in
  let version :=
    if decide (given_versions = [] ∧ length version = 0) then first_version m kind (versions m) else version in
  if decide (length version = 0) then (None, Some (NoKind kind vs))
  else
    match reverse m !! (version, kind) with
    | None =>
        let found := filter (λ v, registered m kind v) (versions m) in
        (None, Some (if decide (0 < length found) then KindExistsIn kind found version else NoObject version kind))
    | Some resource =>
        match scopes m !! (version, kind) with
        | None => (None, Some (NoScope version kind))
        | Some scope =>
            match interfacesFunc m version with
            | None => (None, Some (NoVersion version))
            | Some interfaces => (Some (mkMapping resource version kind scope interfaces), None)
            end
        end
    end.

Definition default_ResourceIsValid m (resource : str) : bool :=
  match (default_VersionAndKindForResource m resource).2 with None => true | Some _ => false end.

(** The aliases of the package; a mapper has none of its own. *)
Definition AddResourceAlias (alias : str) (resources : list str) (aliasToResource : gmap str (list str)) : gmap str (list str) :=
  if decide (length resources = 0) then aliasToResource else <[alias := resources]> aliasToResource.
Definition default_AliasesForResource m (aliasToResource : gmap str (list str)) (alias : str) : option (list str) :=
  aliasToResource !! alias.

#[export] Instance default_mapper : RESTMapper I (DefaultRESTMapper I) := {
  VersionAndKindForResource := default_VersionAndKindForResource;
  GroupForResource := default_GroupForResource;
  RESTMapping_for := default_RESTMapping;
  AliasesForResource := default_AliasesForResource;
  ResourceSingularizer := default_ResourceSingularizer;
  ResourceIsValid := default_ResourceIsValid
}.
End default.

(** ** Several mappers *)

Section multi.
Context {I M : Type} `{RESTMapper I M}.

Abbreviation MultiRESTMapper := (list M).

(** The loops that return the first answer without an error, or else the
    last one. *)
Fixpoint first_answer {A} (f : M → answer A) (last : answer A) (l : MultiRESTMapper) : answer A :=
  match l with
  | [] => last
  | t :: l =>
      match f t with
      | (a, None) => (a, None)
      | (a, Some err) => first_answer f (a, Some err) l
      end
  end.

Definition multi_ResourceSingularizer (l : MultiRESTMapper) (resource : str) : answer str :=
  first_answer (λ t, ResourceSingularizer t resource) ([], None) l.
Definition multi_VersionAndKindForResource (l : MultiRESTMapper) (resource : str) : answer (str * str) :=
  first_answer (λ t, VersionAndKindForResource t resource) (([], []), None) l.
Definition multi_GroupForResource (l : MultiRESTMapper) (resource : str) : answer str :=
  first_answer (λ t, GroupForResource t resource) ([], None) l.
Definition multi_RESTMapping (l : MultiRESTMapper) (kind : str) (versions : list str) : answer (option (RESTMapping I)) :=
  first_answer (λ t, RESTMapping_for t kind versions) (None, None) l.
Fixpoint multi_AliasesForResource (l : MultiRESTMapper) (aliasToResource : gmap str (list str)) (alias : str) :
    option (list str) :=
  match l with
  | [] => None
  | t :: l =>
      match AliasesForResource t aliasToResource alias with
      | Some aliases => Some aliases
      | None => multi_AliasesForResource l aliasToResource alias
      end
  end.
Definition multi_ResourceIsValid (l : MultiRESTMapper) (resource : str) : bool :=
  existsb (λ t, ResourceIsValid t resource) l.

#[export] Instance multi_mapper : RESTMapper I MultiRESTMapper := {
  VersionAndKindForResource := multi_VersionAndKindForResource;
  GroupForResource := multi_GroupForResource;
  RESTMapping_for := multi_RESTMapping;
  AliasesForResource := multi_AliasesForResource;
  ResourceSingularizer := multi_ResourceSingularizer;
  ResourceIsValid := multi_ResourceIsValid
}.

(** [RegisterRESTMapper] *)
Definition RegisterRESTMapper (m : M) (mappers : MultiRESTMapper) : MultiRESTMapper := mappers ++ [m].
End multi.

(** ** The mapper of a scheme (mapper.go) *)

(** [knownTypes]: the kinds of a version with the paths of their packages, in
    the order the map of them is gone through. *)
Definition scheme_mapper {I} (knownTypes : str → list (str * str)) (group : str) (versions : list str)
    (interfacesFunc : str → option I) (importPathPrefix : str) (ignoredKinds rootScoped : gset str) : DefaultRESTMapper I :=
  foldl (λ mapper version,
    foldl (λ mapper '(kind, pkgPath),
      if decide (has_prefix importPathPrefix pkgPath = false ∨ kind ∈ ignoredKinds) then mapper
      else Add (if decide (kind ∈ rootScoped) then RESTScopeRoot else RESTScopeNamespace) kind version false mapper)
      mapper (knownTypes version))
    (NewDefaultRESTMapper group versions interfacesFunc) versions.
