(* ===== verification/RestMapperSpec.v ===== *)
(** * From kinds to resources (proofs about [RestMapper])

    The tables of a mapper fit together, however it was built: what a
    resource is resolved to can be mapped back.  Which version is chosen, which
    errors there are, and which of several mappers answers. *)

From S2P Require Import Prelude GoStr RestMapper.

Local Open Scope go_scope.

Section default.
Context {I : Type}.
Implicit Types m : DefaultRESTMapper I.

(** The mappers that can be built. *)
Inductive built : DefaultRESTMapper I → Prop :=
  | built_new group versions f : built (NewDefaultRESTMapper group versions f)
  | built_add m scope kind version mixedCase : built m → built (Add scope kind version mixedCase m).

(** A name of the resource of a kind. *)
Definition names_of (kind name : str) : Prop :=
  ∃ mixedCase, let '(plural, singular) := KindToResource kind mixedCase in
    name ∈ [plural; singular; to_lower plural; to_lower singular].

Record well_formed m : Prop := {
  wf_mapping : ∀ name meta, mapping m !! name = Some meta → names_of meta.2 name ∧ is_Some (reverse m !! meta);
  wf_reverse : ∀ meta plural, reverse m !! meta = Some plural →
    (∃ mixedCase, plural = (KindToResource meta.2 mixedCase).1) ∧ is_Some (scopes m !! meta);
  wf_plurals : ∀ singular plural, plurals m !! singular = Some plural → is_Some (singulars m !! plural)
}.

Lemma add_names_lookup plural singular meta names name meta' :
  add_names plural singular meta names !! name = Some meta' →
  meta' = meta ∧ name ∈ [plural; singular; to_lower plural; to_lower singular] ∨ names !! name = Some meta'.
Proof.
  unfold add_names. intros Hl. destruct (names !! plural), (names !! to_lower plural); auto.
  case_decide; rewrite !lookup_insert_Some in Hl; set_solver.
Qed.

Lemma insert_is_Some {K} `{Countable K} {A} (t : gmap K A) k k' x :
  is_Some (t !! k) → is_Some (<[k' := x]> t !! k).
Proof. intros. apply lookup_insert_is_Some'. by right. Qed.

Lemma Add_well_formed scope kind version mixedCase m : well_formed m → well_formed (Add scope kind version mixedCase m).
Proof.
  intros [H1 H2 H3]. unfold Add. destruct (KindToResource kind mixedCase) as [plural singular] eqn:E. split; simpl.
  - intros name meta [[-> Hn]|Hl]%add_names_lookup.
    + split; [|rewrite lookup_insert_eq; eauto]. exists mixedCase. simpl. by rewrite E.
    + destruct (H1 name meta Hl) as [Hn Hr]. split; [done|by apply insert_is_Some].
  - intros meta p [[<- <-]|[_ Hl]]%lookup_insert_Some.
    + split; [exists mixedCase; simpl; by rewrite E|rewrite lookup_insert_eq; eauto].
    + destruct (H2 meta p Hl) as [Hp Hs]. split; [done|by apply insert_is_Some].
  - intros s p [[<- <-]|[_ Hl]]%lookup_insert_Some; [rewrite lookup_insert_eq; eauto|].
    apply insert_is_Some. by eapply H3.
Qed.

Lemma built_well_formed m : built m → well_formed m.
Proof. induction 1; [by split|by apply Add_well_formed]. Qed.

Lemma lookup_resource_Ok m r meta : lookup_resource m r = (meta, None) → mapping m !! to_lower r = Some meta.
Proof. unfold lookup_resource. destruct (mapping m !! to_lower r); by intros [= <-]. Qed.

(** The resource that is asked for, without its group. *)
Definition asked (r : str) : str := match split "/" r with [_; resource] => resource | _ => r end.

Lemma resolves_Ok m r meta :
  default_VersionAndKindForResource m r = (meta, None) → mapping m !! to_lower (asked r) = Some meta.
Proof.
  unfold default_VersionAndKindForResource, asked. destruct (split "/" r) as [|g [|r' [|]]]; try done.
  1,2: intros Hl%lookup_resource_Ok; eauto.
  case_decide; [done|]. intros Hl%lookup_resource_Ok. eauto.
Qed.

(** ** Which version is chosen *)

Lemma first_version_spec m kind l v :
  first_version m kind l = v → v ≠ [] →
  registered m kind v = true ∧ ∃ before after, l = before ++ v :: after ∧ Forall (λ u, registered m kind u = false) before.
Proof.
  unfold first_version. destruct (list_find _ l) as [[i u]|] eqn:E; [|by intros <-]. intros -> Hv.
  apply list_find_Some in E as (Hl & Hr & Hbefore). split; [by apply Is_true_true|].
  exists (take i l), (drop (S i) l). split; [by apply take_drop_middle_S|].
  apply list.Forall_forall. intros u Hu. apply elem_of_take in Hu as (j & Hj & Hlt).
  specialize (Hbefore j u Hj Hlt). by destruct (registered m kind u).
Qed.

Lemma first_version_none m kind l : first_version m kind l = [] → Forall (λ u, u = [] ∨ registered m kind u = false) l ∨ [] ∈ l.
Proof.
  unfold first_version. destruct (list_find _ l) as [[i u]|] eqn:E.
  - intros ->. apply list_find_Some in E as (Hl & _ & _). right. by eapply list_elem_of_lookup_2.
  - intros _. left. apply list_find_None in E. eapply list.Forall_impl; [exact E|]. intros u Hu. right.
    cbv beta in Hu. by destruct (registered m kind u).
Qed.

(** The versions that are searched. *)
Definition searched m (vs : list str) : list str :=
  let given_versions := filter (λ v, length v ≠ 0) vs in
  if decide (given_versions = []) then versions m else given_versions.

Lemma searched_single m v : v ≠ [] → searched m [v] = [v].
Proof. intros. unfold searched. rewrite filter_cons_True by (by destruct v). done. Qed.

Lemma first_version_single m kind v : registered m kind v = true → first_version m kind [v] = v.
Proof. intros Hr. unfold first_version. simpl. rewrite decide_True by (by rewrite Hr). done. Qed.

Lemma chosen m kind vs :
  let given_versions := filter (λ v, length v ≠ 0) vs in
  let version := first_version m kind given_versions in
  (if decide (given_versions = [] ∧ length version = 0) then first_version m kind (versions m) else version) =
  first_version m kind (searched m vs).
Proof.
  simpl. unfold searched. destruct (decide (filter (λ v, length v ≠ 0) vs = [])) as [->|Hne].
  - by rewrite decide_True by done.
  - by rewrite decide_False by naive_solver.
Qed.

Lemma RESTMapping_cases m kind vs :
  well_formed m →
  let version := first_version m kind (searched m vs) in
  default_RESTMapping m kind vs =
  if decide (version = []) then (None, Some (NoKind kind vs))
  else match interfacesFunc m version, reverse m !! (version, kind), scopes m !! (version, kind) with
       | Some i, Some p, Some scope => (Some (mkMapping p version kind scope i), None)
       | _, _, _ => (None, Some (NoVersion version))
       end.
Proof.
  intros Hwf version. unfold default_RESTMapping. rewrite chosen. fold version.
  destruct (decide (version = [])) as [->|Hv]; [by rewrite decide_True by done|].
  rewrite decide_False by (by destruct version).
  destruct (first_version_spec m kind _ version eq_refl Hv) as [Hr _]. unfold registered in Hr.
  destruct (reverse m !! (version, kind)) as [p|] eqn:Hp; [|done].
  destruct (wf_reverse m Hwf _ _ Hp) as [_ [scope Hs]]. rewrite Hs. by destruct (interfacesFunc m version).
Qed.

Lemma RESTMapping_one m v k p i scope :
  well_formed m → v ≠ [] → reverse m !! (v, k) = Some p → scopes m !! (v, k) = Some scope → interfacesFunc m v = Some i →
  default_RESTMapping m k [v] = (Some (mkMapping p v k scope i), None).
Proof.
  intros Hwf Hv Hp Hs Hi.
  rewrite (RESTMapping_cases m k [v] Hwf), searched_single, first_version_single by first [done | unfold registered; by rewrite Hp].
  rewrite decide_False by done. by rewrite Hi, Hp, Hs.
Qed.

(** ** The theorems *)

(** C36: What a resource is resolved to, by a mapper that was built in any way,
    can be mapped: the resource that was asked for is, in lower case, one of
    the names of the kind, and the mapping gives that kind its plural and a
    scope in the very version. *)
Theorem resolved_is_mapped m r v k i :
  built m → VersionAndKindForResource m r = ((v, k), None) → v ≠ [] → interfacesFunc m v = Some i →
  names_of k (to_lower (asked r)) ∧
  ∃ mixedCase scope, RESTMapping_for m k [v] = (Some (mkMapping (KindToResource k mixedCase).1 v k scope i), None).
Proof.
  intros Hb Hres Hv Hi. pose proof (built_well_formed m Hb) as Hwf. simpl in Hres |- *.
  destruct (wf_mapping m Hwf _ _ (resolves_Ok _ _ _ Hres)) as [Hnames [p Hp]]. split; [done|].
  destruct (wf_reverse m Hwf _ _ Hp) as [[mixedCase Hplural] [scope Hs]]. exists mixedCase, scope.
  rewrite (RESTMapping_one m v k p i scope Hwf); [|done..]. simpl in Hplural. by rewrite Hplural.
Qed.

(** A kind is mapped at the first version that has it: of those asked for, or
    of the mapper's own if none is.  Otherwise there is one of two errors: no
    such version has the kind, or nothing handles the version. *)
Theorem RESTMapping_first m kind vs :
  built m →
  match RESTMapping_for m kind vs with
  | (Some mp, None) =>
      map_Kind mp = kind ∧ reverse m !! (map_APIVersion mp, kind) = Some (map_Resource mp) ∧
      ∃ before after, searched m vs = before ++ map_APIVersion mp :: after ∧
        Forall (λ u, registered m kind u = false) before
  | (None, Some (NoKind k l)) =>
      k = kind ∧ l = vs ∧ ([] ∉ searched m vs → Forall (λ u, registered m kind u = false) (searched m vs))
  | (None, Some (NoVersion v)) => interfacesFunc m v = None ∧ registered m kind v = true
  | _ => False
  end.
Proof.
  intros Hb. pose proof (built_well_formed m Hb) as Hwf. simpl. rewrite (RESTMapping_cases m kind vs Hwf).
  destruct (decide (first_version m kind (searched m vs) = [])) as [E|E].
  - split; [done|]. split; [done|]. intros Hno. destruct (first_version_none _ _ _ E) as [Hall|]; [|done].
    apply list.Forall_forall. intros u Hu. rewrite list.Forall_forall in Hall. destruct (Hall u Hu) as [->|]; done.
  - destruct (first_version_spec m kind _ _ eq_refl E) as (Hr & before & after & Hl & Hbefore).
    pose proof Hr as Hr'. unfold registered in Hr'. destruct (reverse m !! _) as [p|] eqn:Hp; [|done].
    destruct (wf_reverse m Hwf _ _ Hp) as [_ [scope Hs]]. rewrite Hs.
    destruct (interfacesFunc m _) as [i|] eqn:Hi; simpl; [|done]. split; [done|]. split; [done|]. by exists before, after.
Qed.
End default.

(** ** A mapper of a scheme *)

Section scheme.
Context {I : Type} (knownTypes : str → list (str * str)) (group : str) (versions : list str)
  (interfacesFunc : str → option I) (importPathPrefix : str) (ignoredKinds rootScoped : gset str).
Implicit Types m : DefaultRESTMapper I.

Definition scope_of (kind : str) : restScope := if decide (kind ∈ rootScoped) then RESTScopeRoot else RESTScopeNamespace.

(** The step of the loop for a kind, and the loop for a version. *)
Definition add_kind (version : str) m (known : str * str) : DefaultRESTMapper I :=
  if decide (has_prefix importPathPrefix known.2 = false ∨ known.1 ∈ ignoredKinds) then m
  else Add (scope_of known.1) known.1 version false m.
Definition add_version m (version : str) : DefaultRESTMapper I := foldl (add_kind version) m (knownTypes version).

Lemma scheme_mapper_fold :
  scheme_mapper knownTypes group versions interfacesFunc importPathPrefix ignoredKinds rootScoped =
  foldl add_version (NewDefaultRESTMapper group versions interfacesFunc) versions.
Proof.
  unfold scheme_mapper. generalize (NewDefaultRESTMapper group versions interfacesFunc).
  induction versions as [|v l IH]; intros m; [done|]. simpl. rewrite IH. f_equal. unfold add_version.
  revert m. induction (knownTypes v) as [|[k p] t IHt]; intros m; [done|]. simpl. by rewrite IHt.
Qed.

(** A kind is in the tables of a version, with the scope it should have. *)
Definition has_kind (v k : str) m : Prop :=
  reverse m !! (v, k) = Some (KindToResource k false).1 ∧ scopes m !! (v, k) = Some (scope_of k).

Lemma Add_has_kind v k m : has_kind v k (Add (scope_of k) k v false m).
Proof. unfold has_kind, Add. destruct (KindToResource k false). simpl. by rewrite !lookup_insert_eq. Qed.

Lemma add_kind_keeps v k version known m : has_kind v k m → has_kind v k (add_kind version m known).
Proof.
  destruct known as [k' p]. unfold add_kind. simpl. case_decide; [done|]. intros [Hr Hs].
  destruct (decide ((version, k') = (v, k))) as [[= -> ->]|Hne]; [apply Add_has_kind|].
  unfold has_kind, Add. destruct (KindToResource k' false). simpl. by rewrite !lookup_insert_ne.
Qed.

(** What every step keeps, the loop keeps; what one step makes true is true
    at its end. *)
Lemma foldl_keeps {A B} (P : A → Prop) (f : A → B → A) l :
  (∀ a b, P a → P (f a b)) → ∀ a, P a → P (foldl f a l).
Proof. intros Hf. induction l as [|b l IH]; simpl; auto. Qed.

Lemma foldl_reaches {A B} (P : A → Prop) (f : A → B → A) l b :
  (∀ a b, P a → P (f a b)) → (∀ a, P (f a b)) → b ∈ l → ∀ a, P (foldl f a l).
Proof.
  intros Hk Hb Hin. apply list_elem_of_split in Hin as (l1 & l2 & ->). intros a. rewrite foldl_app. simpl.
  by apply foldl_keeps.
Qed.

Lemma add_version_keeps (P : DefaultRESTMapper I → Prop) :
  (∀ version m known, P m → P (add_kind version m known)) → ∀ m version, P m → P (add_version m version).
Proof. intros Hk m version. apply foldl_keeps. intros ??. apply Hk. Qed.

Lemma scheme_mapper_keeps (P : DefaultRESTMapper I → Prop) :
  (∀ version m known, P m → P (add_kind version m known)) → P (NewDefaultRESTMapper group versions interfacesFunc) →
  P (scheme_mapper knownTypes group versions interfacesFunc importPathPrefix ignoredKinds rootScoped).
Proof. intros Hk Hnew. rewrite scheme_mapper_fold. apply foldl_keeps; [by apply add_version_keeps|done]. Qed.

Lemma scheme_mapper_built :
  built (scheme_mapper knownTypes group versions interfacesFunc importPathPrefix ignoredKinds rootScoped).
Proof.
  apply scheme_mapper_keeps; [|constructor]. intros version m known Hm. unfold add_kind. case_decide; [done|].
  by constructor.
Qed.

Lemma Add_interfacesFunc scope k v mc m : RestMapper.interfacesFunc (Add scope k v mc m) = RestMapper.interfacesFunc m.
Proof. unfold Add. by destruct (KindToResource k mc). Qed.

(** Every kind of the scheme that is in a version of the group, in a package
    of the prefix, and not ignored, is mapped: to the plural of its name, and
    in the root exactly if it is listed there. *)
Theorem scheme_mapper_maps v k pkg i :
  v ∈ versions → (k, pkg) ∈ knownTypes v → has_prefix importPathPrefix pkg = true → k ∉ ignoredKinds →
  v ≠ [] → interfacesFunc v = Some i →
  RESTMapping_for (scheme_mapper knownTypes group versions interfacesFunc importPathPrefix ignoredKinds rootScoped) k [v] =
  (Some (mkMapping (KindToResource k false).1 v k (scope_of k) i), None).
Proof.
  intros Hv Hk Hpkg Hign Hne Hi. pose proof (built_well_formed _ scheme_mapper_built) as Hwf.
  assert (Hhas : has_kind v k (scheme_mapper knownTypes group versions interfacesFunc importPathPrefix ignoredKinds rootScoped)).
  { rewrite scheme_mapper_fold. apply (foldl_reaches _ _ _ v); [|intros m|done].
    - apply add_version_keeps. intros. by apply add_kind_keeps.
    - apply (foldl_reaches _ _ _ (k, pkg)); [intros; by apply add_kind_keeps|intros m'|done].
      unfold add_kind. rewrite decide_False by (simpl; intros [?|?]; congruence). apply Add_has_kind. }
  destruct Hhas as [Hr Hs]. apply RESTMapping_one; [done..|].
  apply (scheme_mapper_keeps (λ m, RestMapper.interfacesFunc m v = Some i)); [|done].
  intros version m known Hm. unfold add_kind. case_decide; [done|]. by rewrite Add_interfacesFunc.
Qed.
End scheme.


(** ** Several mappers *)

Section multi.
Context {I M : Type} `{RESTMapper I M}.

(** The first mapper that answers without an error decides. *)
Lemma first_answer_spec {A} (f : M → answer A) last (l : list M) :
  (∃ before t after, l = before ++ t :: after ∧ (f t).2 = None ∧ first_answer f last l = f t ∧
     Forall (λ u, (f u).2 ≠ None) before) ∨
  Forall (λ u, (f u).2 ≠ None) l ∧
    first_answer f last l = match list.last l with Some t => f t | None => last end.
Proof.
  revert last. induction l as [|t l IH]; intros last; [by right|]. simpl. destruct (f t) as [a [err|]] eqn:E.
  - destruct (IH (a, Some err)) as [(before & u & after & -> & Hu & -> & Hb)|[Hall ->]].
    + left. exists (t :: before), u, after. split; [done|]. split; [done|]. split; [done|].
      constructor; [by rewrite E|done].
    + right. split; [constructor; [by rewrite E|done]|]. destruct l as [|x l]; [by simpl; rewrite ?E|].
      simpl. by destruct (list.last (x :: l)) eqn:El; [|apply last_None in El].
  - left. exists [], t, l. rewrite E. by repeat split.
Qed.
End multi.

(** Without a mapper there is neither an answer nor an error, as long as
    nothing is registered. *)
Example no_mappers :
  RESTMapping_for ([] : list (DefaultRESTMapper ())) (lit "Pod") [] = (None, None) ∧
  VersionAndKindForResource ([] : list (DefaultRESTMapper ())) (lit "pods") = (([], []), None).
Proof. done. Qed.

(** The mapper of a group with Ingresses and daemon sets. *)
Definition sample : DefaultRESTMapper () :=
  scheme_mapper (λ _, [(lit "Ingress", lit "k8s/extensions"); (lit "DaemonSet", lit "k8s/extensions"); (lit "Policy", lit "k8s/api")])
    (lit "extensions") [lit "extensions/v1beta1"] (λ _, Some ()) (lit "k8s/extensions") ∅ {[lit "DaemonSet"]}.

Example sample_resolves :
  VersionAndKindForResource sample (lit "extensions/DaemonSets") = ((lit "extensions/v1beta1", lit "DaemonSet"), None) ∧
  VersionAndKindForResource sample (lit "policies") = (([], []), Some (NoResource (lit "policies"))).
Proof. by vm_compute. Qed.

Lemma resolved_is_mapped_witness :
  names_of (lit "Ingress") (lit "ingress") ∧
  ∃ mixedCase scope, RESTMapping_for sample (lit "Ingress") [lit "extensions/v1beta1"] =
    (Some (mkMapping (KindToResource (lit "Ingress") mixedCase).1 (lit "extensions/v1beta1") (lit "Ingress") scope tt), None).
Proof.
  apply (resolved_is_mapped sample (lit "ingress") (lit "extensions/v1beta1") (lit "Ingress") ());
    [apply scheme_mapper_built|vm_compute; reflexivity..|discriminate|vm_compute; reflexivity].
Defined.
