(* ===== verification/Daemonizer.v ===== *)
(** * The daemon that runs haproxy (examples/https/haproxy/daemonizer.go)

    It concatenates the certificate and the key of a mounted secret into the
    file haproxy reads, starts the syslog server ([SyslogServer]), and
    reloads haproxy.  The socket of the server and the reload command are
    outside the program: whether they succeed is a parameter. *)

From S2P Require Import Prelude GoStr GoStd SyslogParse.

Local Open Scope go_scope.

Definition default_pem : str := "/etc/haproxy/ssl/haproxyhttps.pem".
Definition default_key : str := "/ssl/haproxyhttps.key".
Definition default_crt : str := "/ssl/haproxyhttps.crt".

Definition daemon_flags : flag_values :=
  list_to_map [(lit "pem", default_pem); (lit "key", default_key); (lit "crt", default_crt)].

Inductive pem_error :=
  | CouldNotParse (file : str) (err : errno)
  | CouldNotWrite (file : str) (err : errno)
  | SharedParent
  | MkdirFailed (err : errno).

(** The loop of [catFiles] over its inputs. *)
Fixpoint read_all (fs : files) (ins : list str) (content : str) : result pem_error str :=
  match ins with
  | [] => Ok content
  | f :: ins =>
      match read_file fs f with
      | Err e => Err (CouldNotParse f e)
      | Ok c => read_all fs ins (content ++ c)
      end
  end.

Definition catFiles (in1 in2 out : str) (fs : files) : files * option pem_error :=
  match read_all fs [in1; in2] [] with
  | Err e => (fs, Some e)
  | Ok content =>
      match write_file out content fs with
      | (fs, Some e) => (fs, Some (CouldNotWrite out e))
      | (fs, None) => (fs, None)
      end
  end.

Definition createPEM (key crt pem : str) (fs : files) : files * option pem_error :=
  match stat fs pem with
  | Ok _ => (fs, None)
  | Err _ =>
      let pemDir := dir pem in
      if decide (dir crt = pemDir ∨ dir key = pemDir) then (fs, Some SharedParent)
      else
        match mkdir_all pemDir 420 fs with
        | (fs, Some e) => (fs, Some (MkdirFailed e))
        | (fs, None) => catFiles crt key pem fs
        end
  end.

(** The line [mainLoop] prints for a message of the syslog server. *)
Definition line (m : Message) : control str :=
  sev ← Severity_String (Severity m);
  Return (lit "servicelb [" ++ to_upper sev ++ lit "] " ++ Tag m ++ Content m ++ [chr 10]).

Section main.
Context {E : Type}.
(** Listening on the socket, which makes a file of it, and the output and
    status of the reload command. *)
Variable (listen : str → files → files * option E) (reload_output : str) (reload_status : option E).

Definition startSyslogServer (path : str) (fs : files) : files * option E :=
  listen path (remove path fs).

(** [reloadHaproxy]: the text it logs, or its error; the output of the command
    is the format of the log line. *)
Inductive reload_error := ErrorRestarting (msg : str) (err : E).
Definition reloadHaproxy : result reload_error str :=
  let msg := lit "haproxy -- " ++ reload_output in
  match reload_status with
  | Some err => Err (ErrorRestarting msg err)
  | None => Ok (Printf msg)
  end.

Inductive outcome :=
  | Running (log : str)
  | Usage
  | NoPem (err : pem_error)
  | NoSyslog (err : E)
  | NoReload (err : reload_error).

(** A flag of the program. *)
Definition value (fv : flag_values) (name : str) : str := default [] (fv !! name).

Definition main (args : list str) (fs : files) : files * outcome :=
  match FlagParse args daemon_flags with
  | None => (fs, Usage)
  | Some fv =>
      match createPEM (value fv "key") (value fv "crt") (value fv "pem") fs with
      | (fs, Some e) => (fs, NoPem e)
      | (fs, None) =>
          match startSyslogServer "/var/run/haproxy.log.socket" fs with
          | (fs, Some e) => (fs, NoSyslog e)
          | (fs, None) =>
              match reloadHaproxy with
              | Err e => (fs, NoReload e)
              | Ok log => (fs, Running log)
              end
          end
      end
  end.
End main.
