(* ===== verification/DaemonizerSpec.v ===== *)
(** * Properties of the haproxy daemon (examples/https/haproxy/daemonizer.go)

    The file haproxy reads: what it contains once it was created, that nothing
    else is touched, and that it is never written again. *)

From S2P Require Import Prelude GoStr Utf8 GoStd SyslogParse SyslogParseSpec Daemonizer.

Local Open Scope go_scope.

(** ** Lemmas *)

Lemma read_all_Ok fs in1 in2 content :
  read_all fs [in1; in2] [] = Ok content ↔
  ∃ c1 c2, read_file fs in1 = Ok c1 ∧ read_file fs in2 = Ok c2 ∧ content = c1 ++ c2.
Proof.
  simpl. destruct (read_file fs in1) as [c1|e]; [|naive_solver].
  destruct (read_file fs in2) as [c2|e]; naive_solver.
Qed.

(** The cases of [createPEM]: the file is there; it stops before the write; or
    the key and the certificate were read and the file is written. *)
Inductive create_case (key crt pem : str) (fs fs' : files) : option pem_error → Prop :=
  | case_exists n : stat fs pem = Ok n → fs' = fs → create_case key crt pem fs fs' None
  | case_stops e : (∀ n, stat fs pem ≠ Ok n) → extends fs fs' →
      e ≠ CouldNotWrite pem ENOSPC → create_case key crt pem fs fs' (Some e)
  | case_writes fs1 c k e : (∀ n, stat fs pem ≠ Ok n) → dir crt ≠ dir pem → dir key ≠ dir pem →
      extends fs fs1 → read_file fs crt = Ok c → read_file fs key = Ok k →
      write_file pem (c ++ k) fs1 = (fs', e) →
      create_case key crt pem fs fs' (CouldNotWrite pem <$> e).

Lemma createPEM_cases key crt pem fs fs' e :
  createPEM key crt pem fs = (fs', e) → create_case key crt pem fs fs' e.
Proof.
  unfold createPEM. destruct (stat fs pem) as [n|er] eqn:Hs.
  { intros [= <- <-]. by eapply case_exists. }
  assert (∀ n, stat fs pem ≠ Ok n) as Hn by (intros n; congruence).
  destruct (decide _) as [|Hd]; [intros [= <- <-]; by apply case_stops|].
  destruct (mkdir_all (dir pem) 420 fs) as [fs1 [em|]] eqn:Hm;
    apply mkdir_all_fuel_extends in Hm; [intros [= <- <-]; by apply case_stops|].
  unfold catFiles. destruct (read_all fs1 [crt; key] []) as [content|er'] eqn:Hr.
  - apply read_all_Ok in Hr as (c & k & Hc & Hk & ->).
    rewrite (extends_read fs) in Hc by done. rewrite (extends_read fs) in Hk by done.
    destruct (write_file pem (c ++ k) fs1) as [fs2 ew] eqn:Hw.
    assert (dir crt ≠ dir pem ∧ dir key ≠ dir pem) as [? ?] by tauto.
    pose proof (case_writes key crt pem fs fs2 fs1 c k ew Hn) as Hcase.
    destruct ew; intros [= <- <-]; by apply Hcase.
  - intros [= <- <-]. apply case_stops; [done..|]. intros ->. simpl in Hr.
    destruct (read_file fs1 crt); [|done]. by destruct (read_file fs1 key).
Qed.

Lemma createPEM_exists key crt pem fs n :
  stat fs pem = Ok n → createPEM key crt pem fs = (fs, None).
Proof. intros Hs. unfold createPEM. by rewrite Hs. Qed.

(** The bytes a write that failed for space has left. *)
Lemma write_file_ENOSPC path content fs fs' :
  write_file path content fs = (fs', Some ENOSPC) →
  ∃ n, n < length content ∧ read_file fs' path = Ok (take n content).
Proof.
  unfold write_file. destruct path as [|x t]; [done|].
  assert (∀ m s n, read_file (mkFiles (<[clean (x :: t) := File (take n content)]> m) s) (x :: t) =
    Ok (take n content)) as Hread.
  { intros m s n. apply read_file_Ok. split; [done|]. apply lookup_insert_eq. }
  destruct (nodes fs !! clean (x :: t)) as [[old|]|]; [|done|];
    [|unfold in_dir; destruct (nodes fs !! dir _) as [[]|]; try done];
    (destruct (decide _); [|done]); intros [= <-]; eexists; (split; [|apply Hread]); done.
Qed.

(** Removing a path leaves the others. *)
Lemma remove_other path fs q n :
  q ≠ clean path → nodes fs !! q = Some n → nodes (remove path fs) !! q = Some n.
Proof.
  unfold remove. intros Hne Hq. destruct (nodes fs !! clean path) as [[]|]; [| |done].
  - simpl. by rewrite lookup_delete_ne.
  - destruct (decide _); [|done]. simpl. by rewrite lookup_delete_ne.
Qed.

(** Without arguments the flags have their defaults. *)
Lemma main_default {E} (listen : str → files → files * option E) out status fs :
  main listen out status [] fs =
  match createPEM default_key default_crt default_pem fs with
  | (fs, Some e) => (fs, NoPem e)
  | (fs, None) =>
      match startSyslogServer listen "/var/run/haproxy.log.socket" fs with
      | (fs, Some e) => (fs, NoSyslog e)
      | (fs, None) =>
          match reloadHaproxy out status with
          | Err e => (fs, NoReload e)
          | Ok log => (fs, Running log)
          end
      end
  end.
Proof. done. Qed.

(** ** Properties *)

(** C7: the file for haproxy: when [createPEM] succeeds the file was there
    before, and nothing was changed, or it is the certificate followed by the
    key, as they were read, in a directory neither is in. *)
Theorem createPEM_Ok key crt pem fs fs' :
  createPEM key crt pem fs = (fs', None) →
  (∃ n, stat fs pem = Ok n ∧ fs' = fs) ∨
  (∃ c k, (∀ n, stat fs pem ≠ Ok n) ∧ read_file fs crt = Ok c ∧ read_file fs key = Ok k ∧
     read_file fs' pem = Ok (c ++ k) ∧ dir crt ≠ dir pem ∧ dir key ≠ dir pem).
Proof.
  intros Hc%createPEM_cases. inversion Hc as [n Hs Hfs| |fs1 c k e Hs H1 H2 Hx Hcr Hk Hw He]; subst.
  - left. by exists n.
  - right. exists c, k. destruct e; [done|]. split_and!; try done.
    apply read_file_Ok. split; [by intros ->|]. by eapply write_file_None.
Qed.

(** [createPEM] never changes what is there: whatever its result, every
    file and directory that was there is still there with its content, the
    secret's key and certificate among them. *)
Theorem createPEM_frame key crt pem fs fs' e q n :
  createPEM key crt pem fs = (fs', e) → nodes fs !! q = Some n → nodes fs' !! q = Some n.
Proof.
  intros Hc%createPEM_cases Hq.
  inversion Hc as [n' Hs Hfs|e' Hs Hx He|fs1 c k e' Hs H1 H2 Hx Hcr Hk Hw He]; subst; [done| |].
  - by apply Hx.
  - destruct (decide (q = clean pem)) as [->|Hne].
    + destruct pem as [|x t]; [|by destruct (Hs n); apply stat_Ok].
      injection Hw as <- <-. by apply Hx.
    + rewrite (write_file_frame _ _ _ _ _ _ Hw Hne). by apply Hx.
Qed.

(** the file is written once: after a success, every later call succeeds
    and changes nothing, as long as the file is there, whatever the key and
    the certificate have become: a renewed secret does not reach haproxy. *)
Theorem createPEM_once key crt pem fs fs1 fs2 :
  createPEM key crt pem fs = (fs1, None) → nodes fs2 !! clean pem = nodes fs1 !! clean pem →
  createPEM key crt pem fs2 = (fs2, None).
Proof.
  intros Hc%createPEM_cases Hn.
  assert (∃ n, pem ≠ [] ∧ nodes fs1 !! clean pem = Some n) as (n & Hne & Hp).
  { inversion Hc as [n Hs Hfs| |fs' c k e Hs H1 H2 Hx Hcr Hk Hw He]; subst.
    - exists n. by apply stat_Ok.
    - destruct e; [done|]. eexists. split; [by intros ->|by eapply write_file_None]. }
  apply (createPEM_exists _ _ _ _ n), stat_Ok. by rewrite Hn.
Qed.

(** a file cut short is taken for the whole: when the space runs out the
    call fails and leaves a proper prefix of the certificate and the key, and
    the next call succeeds with it. *)
Theorem createPEM_truncated key crt pem fs fs' :
  createPEM key crt pem fs = (fs', Some (CouldNotWrite pem ENOSPC)) →
  ∃ c k n, read_file fs crt = Ok c ∧ read_file fs key = Ok k ∧ n < length (c ++ k) ∧
    read_file fs' pem = Ok (take n (c ++ k)) ∧
    createPEM key crt pem fs' = (fs', None).
Proof.
  intros Hc%createPEM_cases. inversion Hc as [|e Hs Hx He|fs1 c k e Hs H1 H2 Hx Hcr Hk Hw He]; subst; [done|].
  destruct e as [e|]; [|done]. injection He as ->.
  destruct (write_file_ENOSPC _ _ _ _ Hw) as (n & Hn & Hr). exists c, k, n. split_and!; try done.
  apply read_file_Ok in Hr as [Hne Hp]. by eapply createPEM_exists, stat_Ok.
Qed.


(** every message the syslog server passes on has its line: the handler of
    the daemon never panics on one, and prints the severity's name in capital
    letters, the tag and the content; for a warning the name is WAINING. *)
Theorem line_of_packet lon now addr pkt m :
  parse_packet lon now addr pkt = Return m →
  ∃ sev, sevToStr !! Z.to_nat (Severity m) = Some sev ∧
    line m = Return (lit "servicelb [" ++ to_upper sev ++ lit "] " ++ Tag m ++ Content m ++ [chr 10]) ∧
    (Severity m = 4%Z → to_upper sev = lit "WAINING").
Proof.
  intros Hp. destruct (parse_packet_severity lon now addr pkt m Hp) as [Hs1 Hs2].
  destruct (lookup_lt_is_Some_2 sevToStr (Z.to_nat (Severity m))) as [s Hs]; [simpl; lia|].
  exists s. split_and!; [done| |].
  - unfold line, Severity_String, Debug_. destruct (Z.ltb_spec 7 (Severity m)); [lia|]. by rewrite Hs.
  - intros H4. rewrite H4 in Hs. by injection Hs as <-.
Qed.

(** ** Witnesses *)

(** A pod with the secret mounted, with room for [n] bytes. *)
Definition pod (n : nat) : files := mkFiles
  (list_to_map [(lit "/", Dir 493); (lit "/ssl", Dir 493); (lit "/etc", Dir 493);
     (default_key, File (lit "KEY")); (default_crt, File (lit "CERT"))]) n.

Definition pod_after (n : nat) : files := fst (createPEM default_key default_crt default_pem (pod n)).

Definition demo_listen (path : str) (fs : files) : files * option unit := (fs, None).

(** What a message of haproxy looks like on the socket. *)
Definition demo_packet : str := lit "<12>haproxy[7]: down".

Lemma pod_fresh n x : stat (pod n) default_pem ≠ Ok x.
Proof. by vm_compute. Qed.

Lemma createPEM_Ok_witness :
  createPEM default_key default_crt default_pem (pod 10) = (pod_after 10, None) ∧
  read_file (pod_after 10) default_pem = Ok (lit "CERTKEY").
Proof.
  assert (createPEM default_key default_crt default_pem (pod 10) = (pod_after 10, None)) as Hc by
    (vm_compute; reflexivity).
  split; [exact Hc|].
  destruct (createPEM_Ok _ _ _ _ _ Hc) as [(x & Hx & _)|(c & k & _ & H1 & H2 & H3 & _)].
  - by destruct (pod_fresh 10 x).
  - vm_compute in H1, H2. injection H1 as <-. injection H2 as <-. exact H3.
Defined.

Lemma createPEM_frame_witness :
  createPEM default_key default_crt default_pem (pod 3) =
    (pod_after 3, Some (CouldNotWrite default_pem ENOSPC)) ∧
  nodes (pod_after 3) !! default_key = Some (File (lit "KEY")).
Proof.
  assert (createPEM default_key default_crt default_pem (pod 3) =
    (pod_after 3, Some (CouldNotWrite default_pem ENOSPC))) as Hc by (vm_compute; reflexivity).
  split; [exact Hc|]. apply (createPEM_frame _ _ _ _ _ _ _ _ Hc). vm_compute. reflexivity.
Defined.

(** The pod after its certificate was renewed. *)
Definition pod_renewed : files :=
  set_nodes (<[default_crt := File (lit "NEW")]> (nodes (pod_after 10))) (pod_after 10).

Lemma createPEM_once_witness :
  read_file pod_renewed default_crt = Ok (lit "NEW") ∧
  read_file pod_renewed default_pem = Ok (lit "CERTKEY") ∧
  createPEM default_key default_crt default_pem pod_renewed = (pod_renewed, None).
Proof.
  split_and!; [vm_compute; reflexivity..|].
  apply (createPEM_once _ _ _ (pod 10) (pod_after 10)); vm_compute; reflexivity.
Defined.

Lemma createPEM_truncated_witness :
  ∃ n, n < 7 ∧ read_file (pod_after 3) default_pem = Ok (take n (lit "CERTKEY")) ∧
    createPEM default_key default_crt default_pem (pod_after 3) = (pod_after 3, None).
Proof.
  destruct (createPEM_truncated default_key default_crt default_pem (pod 3) (pod_after 3))
    as (c & k & n & H1 & H2 & H3 & H4 & H5); [vm_compute; reflexivity|].
  vm_compute in H1, H2. injection H1 as <-. injection H2 as <-. exists n.
  split; [exact H3|]. split; [exact H4|exact H5].
Defined.


Lemma line_of_packet_witness :
  ∃ m, parse_packet ascii_only 0%Z [] demo_packet = Return m ∧
    line m = Return (lit "servicelb [WAINING] haproxy[7]: down" ++ [chr 10]).
Proof.
  eexists. split; [vm_compute; reflexivity|].
  match goal with |- line ?m = _ =>
    destruct (line_of_packet ascii_only 0%Z [] demo_packet m) as (sev & Hs & Hl & _);
      [vm_compute; reflexivity|] end.
  vm_compute in Hs. injection Hs as <-. exact Hl.
Defined.
