(* ===== verification/MakeSecret.v ===== *)
(** * The script that makes a secret (hack/make_secret.go)

    It reads a certificate and a key and prints a Secret that holds them, as
    JSON.  The codec of the API group is a parameter: [EncodeOrDie] panics
    when it fails.  What is printed is the codec's text taken as a format. *)

From S2P Require Import Prelude GoStr KubeTypes GoStd.

Local Open Scope go_scope.

Definition secret_flags : flag_values :=
  list_to_map [(lit "crt", []); (lit "key", []); (lit "name", lit "nginxsecret");
    (lit "app", lit "unknown")].

Definition read (fs : files) (file : str) : control str :=
  match read_file fs file with
  | Ok b => Return b
  | Err _ => Fatal "Cannot read file"
  end.

Definition metadata (name app : str) : ObjectMeta := {|
  om_Name := name; om_GenerateName := []; om_Namespace := []; om_SelfLink := [];
  om_UID := []; om_ResourceVersion := []; om_Generation := 0;
  om_CreationTimestamp := 0; om_DeletionTimestamp := None;
  om_DeletionGracePeriodSeconds := None;
  om_Labels := Some {[lit "app" := app]}; om_Annotations := None
|}.

Definition make_secret (name app nginxCrt nginxKey : str) : Secret := {|
  sec_TypeMeta := zero_TypeMeta;
  sec_ObjectMeta := metadata name app;
  sec_Data := Some (list_to_map [(app ++ lit ".key", nginxKey); (app ++ lit ".crt", nginxCrt)]);
  sec_Type := []
|}.

Section main.
(** [runtime.Encode] with the codec of the legacy API group. *)
Context {E : Type}.
Variable encode : Secret → result E str.

Definition EncodeOrDie (s : Secret) : control str :=
  match encode s with
  | Ok j => Return j
  | Err _ => Panic "EncodeOrDie"
  end.

(** What is printed; [None] is [os.Exit(2)] of [flag.Parse]. *)
Definition main (args : list str) (fs : files) : option (control str) :=
  match FlagParse args secret_flags with
  | None => None
  | Some fv =>
      let value name := default [] (fv !! name) in
      Some (
        if decide (value (lit "crt") = [] ∨ value (lit "key") = [])
        then Fatal "Need to specify -crt -key"
        else
          nginxCrt ← read fs (value (lit "crt"));
          nginxKey ← read fs (value (lit "key"));
          text ← EncodeOrDie (make_secret (value (lit "name")) (value (lit "app")) nginxCrt nginxKey);
          Return (Printf text))
  end.
End main.
