(* ===== verification/MakeSecretSpec.v ===== *)
(** * Properties of the script that makes a secret (hack/make_secret.go)

    What the secret holds, when it is printed as the codec encoded it, and
    what becomes of a percent sign. *)

From S2P Require Import Prelude GoStr Utf8 KubeTypes GoStd MakeSecret.

Local Open Scope go_scope.

(** ** Lemmas *)

(** The flags of a command line. *)
Definition command_line (crt key name app : str) : list str :=
  [lit "-crt=" ++ crt; lit "-key=" ++ key; lit "-name=" ++ name; lit "-app=" ++ app].

Lemma FlagParse_command_line crt key name app :
  ∃ fv, FlagParse (command_line crt key name app) secret_flags = Some fv ∧
    fv !! lit "crt" = Some crt ∧ fv !! lit "key" = Some key ∧
    fv !! lit "name" = Some name ∧ fv !! lit "app" = Some app.
Proof. eexists. split; [reflexivity|]. split_and!; reflexivity. Qed.

(** The two files have different keys, so the secret holds both. *)
Lemma data_keys_ne app : app ++ lit ".key" ≠ app ++ lit ".crt".
Proof. intros Heq%app_inv_head. discriminate. Qed.

Lemma make_secret_data name app crt key d :
  sec_Data (make_secret name app crt key) = Some d →
  d !! (app ++ lit ".crt") = Some crt ∧ d !! (app ++ lit ".key") = Some key ∧ size d = 2.
Proof.
  intros [= <-]. pose proof (data_keys_ne app) as Hne. split_and!.
  - by rewrite lookup_insert_ne, lookup_insert_eq.
  - by rewrite lookup_insert_eq.
  - rewrite map_size_insert_None, map_size_insert_None, map_size_empty; [done| |]; [done|].
    by rewrite lookup_insert_ne.
Qed.

(** A plain part of a format is printed as it is, whatever follows. *)
Lemma printf_loop_plain f u t :
  "%"%char ∉ u → printf_loop (length u + f) (u ++ t) = u ++ printf_loop f t.
Proof.
  induction u as [|c u IH]; [done|]. intros Hc. cbn [length app printf_loop Nat.add].
  rewrite decide_False by set_solver. f_equal. apply IH. set_solver.
Qed.

Lemma printf_loop_all f t : "%"%char ∉ t → length t ≤ f → printf_loop f t = t.
Proof.
  intros Ht Hf. pose proof (printf_loop_plain (f - length t) t [] Ht) as Hp.
  rewrite app_nil_r in Hp. replace (length t + (f - length t)) with f in Hp by lia.
  rewrite Hp. destruct (f - length t); simpl; by rewrite app_nil_r.
Qed.

(** A letter after a percent sign is a verb without its operand. *)
Definition is_letter (c : ascii) : bool :=
  bool_decide (65 ≤ ord c ≤ 90 ∨ 97 ≤ ord c ≤ 122)%Z.

Lemma is_letter_class c :
  implb (is_letter c) (negb (is_flag_byte c) && negb (is_digit c)) = true.
Proof. by_bytes c. Qed.

Lemma is_letter_other c :
  is_letter c = true →
  is_flag_byte c = false ∧ is_digit c = false ∧ (ord c < 128)%Z ∧ (ord c =? 37)%Z = false ∧
  c ≠ "["%char ∧ c ≠ "*"%char ∧ c ≠ "."%char.
Proof.
  intros Hl. pose proof (is_letter_class c) as Hcl. rewrite Hl in Hcl. simpl in Hcl.
  apply andb_true_iff in Hcl as [H1%negb_true_iff H2%negb_true_iff].
  unfold is_letter in Hl. apply bool_decide_eq_true in Hl.
  split_and!; [done|done|lia|apply Z.eqb_neq; lia|intros ->; vm_compute in Hl; naive_solver..].
Qed.

Lemma arg_number_other c t good : c ≠ "["%char → arg_number (c :: t) good = (c :: t, false, good).
Proof. by_bytes c. Qed.

Lemma verb_letter c t :
  is_letter c = true → verb (c :: t) = (lit "%!" ++ [c] ++ lit "(MISSING)", t).
Proof.
  intros (Hf & Hd & Hc & H37 & H1 & H2 & H3)%is_letter_other.
  unfold verb. cbn [trim_left]. rewrite Hf, arg_number_other by done.
  unfold width, precision. cbn [starts_with]. rewrite !bool_decide_eq_false_2 by done.
  cbn [trim_left]. rewrite Hd. cbn [starts_with]. rewrite bool_decide_eq_false_2 by done.
  rewrite arg_number_other by done. rewrite decode_rune_ascii, encode_rune_1 by done.
  by rewrite H37.
Qed.

Lemma printf_loop_verb f t :
  printf_loop (S f) ("%"%char :: t) = let '(out, rest) := verb t in out ++ printf_loop f rest.
Proof. done. Qed.

Lemma Printf_verb u c t :
  "%"%char ∉ u → is_letter c = true → "%"%char ∉ t →
  Printf (u ++ "%"%char :: c :: t) = u ++ lit "%!" ++ [c] ++ lit "(MISSING)" ++ t.
Proof.
  intros Hu Hc Ht. unfold Printf. rewrite length_app, printf_loop_plain by done. f_equal.
  cbn [length]. rewrite printf_loop_verb, verb_letter by done.
  rewrite printf_loop_all by (done || lia). by rewrite <- !app_assoc.
Qed.

(** ** Properties *)

Section properties.
Context {E : Type} (encode : Secret → result E str).


(** a percent sign is taken for a verb: where the text the codec made has
    one before a letter, as in a name [100%sure], something else is printed,
    with an error message inside. *)
Theorem main_percent crt key name app fs c k u x t :
  crt ≠ [] → key ≠ [] → read_file fs crt = Ok c → read_file fs key = Ok k →
  encode (make_secret name app c k) = Ok (u ++ "%"%char :: x :: t) →
  "%"%char ∉ u → is_letter x = true → "%"%char ∉ t →
  main encode (command_line crt key name app) fs =
    Some (Return (u ++ lit "%!" ++ [x] ++ lit "(MISSING)" ++ t)).
Proof.
  intros Hcrt Hkey Hc Hk Hj Hu Hx Ht.
  destruct (FlagParse_command_line crt key name app) as (fv & Hf & H1 & H2 & H3 & H4).
  unfold main. rewrite Hf, H1, H2, H3, H4. simpl default. rewrite decide_False by tauto.
  unfold read. rewrite Hc, Hk. unfold EncodeOrDie. simpl. rewrite Hj. simpl.
  by rewrite Printf_verb.
Qed.

(** nothing is printed without both files: whatever the arguments, the
    script returns only if the flags name a readable certificate and a
    readable key, and the codec succeeded on a secret that holds both. *)
Theorem main_returns args fs out :
  main encode args fs = Some (Return out) →
  ∃ fv crt key c k name app j, FlagParse args secret_flags = Some fv ∧
    default [] (fv !! lit "crt") = crt ∧ default [] (fv !! lit "key") = key ∧
    crt ≠ [] ∧ key ≠ [] ∧ read_file fs crt = Ok c ∧ read_file fs key = Ok k ∧
    encode (make_secret name app c k) = Ok j ∧ out = Printf j.
Proof.
  unfold main. destruct (FlagParse args secret_flags) as [fv|] eqn:Hf; [|done].
  cbv zeta beta. destruct (decide _) as [|Hd]; [done|].
  apply Decidable.not_or in Hd as [H1 H2]. intros Hm.
  assert (∀ A B (m : control A) (g : A → control B) b, m ≫= g = Return b →
    ∃ x, m = Return x ∧ g x = Return b) as Hbind by (intros ?? []; naive_solver).
  injection Hm as (c & Hc & (k & Hk & (j & Hj & Ho)%Hbind)%Hbind)%Hbind.
  unfold read in Hc, Hk. destruct (read_file _ _) as [c'|] eqn:Hrc in Hc; [|done].
  destruct (read_file _ _) as [k'|] eqn:Hrk in Hk; [|done].
  injection Hc as <-. injection Hk as <-. injection Ho as <-.
  unfold EncodeOrDie in Hj. destruct (encode _) as [j'|] eqn:Hen in Hj; [|done]. injection Hj as <-.
  by eexists fv, _, _, c', k', _, _, j'.
Qed.
End properties.

(** ** Witnesses *)

(** A codec that shows the name. *)
Definition demo_encode (s : Secret) : result () str :=
  Ok (lit "{name: " ++ om_Name (sec_ObjectMeta s) ++ lit "}").

Definition demo_files : files := mkFiles
  (list_to_map [(lit "a.crt", File (lit "CERT")); (lit "a.key", File (lit "KEY"))]) 0.


Lemma main_percent_witness :
  main demo_encode (command_line "a.crt" "a.key" "100%sure" "app") demo_files =
    Some (Return (lit "{name: 100%!s(MISSING)ure}")).
Proof.
  apply (main_percent demo_encode "a.crt" "a.key" "100%sure" "app" demo_files "CERT" "KEY"
    "{name: 100" "s"%char "ure}");
    first [done | by vm_compute | apply (bool_decide_unpack _); vm_compute; exact I].
Defined.

Lemma main_returns_witness :
  ∃ c k, read_file demo_files "a.crt" = Ok c ∧ read_file demo_files "a.key" = Ok k ∧
    c = lit "CERT" ∧ k = lit "KEY".
Proof.
  destruct (main_returns demo_encode (command_line "a.crt" "a.key" "ssl" "app") demo_files
    (lit "{name: ssl}")) as (fv & crt & key & c & k & n & a & j & Hf & Hcrt & Hkey & _ & _ & Hc & Hk & _);
    [vm_compute; reflexivity|].
  injection Hf as <-. vm_compute in Hcrt, Hkey. subst crt key. exists c, k.
  split; [exact Hc|]. split; [exact Hk|]. vm_compute in Hc, Hk.
  injection Hc as <-. injection Hk as <-. done.
Defined.
