(* ===== verification/TlsServer.v ===== *)
(** * The TLS server and its client (tls_server/client_server.go)

    The program makes a self-signed certificate, serves it on a port, and asks
    itself for a page until the answer comes or its patience ends.
    Cryptography, sockets and HTTP are outside the program and are parameters;
    [net.ParseIP] and [pem.Encode] are written out. *)

From S2P Require Import Prelude GoStr Utf8.

Local Open Scope go_scope.

(** ** [net.ParseIP]

    Addresses are 16 bytes. *)

Definition hex_value (c : ascii) : option Z :=
  if in_range 48 57 (ord c) then Some (ord c - 48)%Z
  else if in_range 97 102 (ord c) then Some (ord c - 87)%Z
  else if in_range 65 70 (ord c) then Some (ord c - 55)%Z
  else None.
Definition dec_value (c : ascii) : option Z :=
  if is_digit c then Some (ord c - 48)%Z else None.

(** [dtoi], [xtoi]: the number at the start of [s], and the rest; none when
    there is no digit or the number reaches [0xFFFFFF]. *)
Fixpoint number_from (digit : ascii → option Z) (base n : Z) (s : str) : option (Z * str) :=
  match s with
  | c :: t =>
      match digit c with
      | Some d =>
          let n := (n * base + d)%Z in
          if (16777215 <=? n)%Z then None else number_from digit base n t
      | None => Some (n, s)
      end
  | [] => Some (n, s)
  end.
Definition number (digit : ascii → option Z) (base : Z) (s : str) : option (Z * str) :=
  match s with
  | c :: _ => match digit c with Some _ => number_from digit base 0 s | None => None end
  | [] => None
  end.

(** The numbers of an IPv4 address, [k] of them. *)
Fixpoint parse_ipv4_from (k : nat) (first : bool) (s : str) : option (list Z) :=
  match k with
  | O => match s with [] => Some [] | _ => None end
  | S k =>
      s ← (if first then Some s
           else match s with c :: t => if decide (c = "."%char) then Some t else None | [] => None end);
      '(n, s) ← number dec_value 10 s;
      if (255 <? n)%Z then None else (λ l, n :: l) <$> parse_ipv4_from k false s
  end.
Definition parse_ipv4 (s : str) : option (list Z) := parse_ipv4_from 4 true s.

Definition ipv4_prefix : list Z := replicate 10 0%Z ++ [255; 255]%Z.

(** The loop of [parseIPv6]: the bytes so far, where the ellipsis is, and what
    is left of the text. *)
Fixpoint parse_ipv6_loop (fuel : nat) (bytes : list Z) (ellipsis : option nat) (s : str) :
    option (list Z * option nat * str) :=
  match fuel with
  | O => Some (bytes, ellipsis, s)
  | S fuel =>
      '(n, rest) ← number hex_value 16 s;
      if (65535 <? n)%Z then None
      else if decide (head rest = Some "."%char) then
        if decide (ellipsis = None ∧ length bytes ≠ 12) then None
        else if decide (16 < length bytes + 4) then None
        else (λ ip4, (bytes ++ ip4, ellipsis, [])) <$> parse_ipv4 s
      else
        let bytes := bytes ++ [Z.shiftr n 8; n mod 256]%Z in
        match rest with
        | [] => Some (bytes, ellipsis, [])
        | c :: rest =>
            if decide (c ≠ ":"%char) then None
            else
              match rest with
              | [] => None
              | c :: rest' =>
                  if decide (c = ":"%char) then
                    match ellipsis, rest' with
                    | Some _, _ => None
                    | None, [] => Some (bytes, Some (length bytes), [])
                    | None, _ => parse_ipv6_loop fuel bytes (Some (length bytes)) rest'
                    end
                  else parse_ipv6_loop fuel bytes ellipsis rest
              end
        end
  end.

Definition expand_ipv6 (r : list Z * option nat * str) : option (list Z) :=
  match r with
  | (bytes, ellipsis, []) =>
      if decide (length bytes < 16) then
        match ellipsis with
        | Some i => Some (take i bytes ++ replicate (16 - length bytes) 0%Z ++ drop i bytes)
        | None => None
        end
      else match ellipsis with Some _ => None | None => Some bytes end
  | _ => None
  end.

Definition parse_ipv6 (s : str) : option (list Z) :=
  match s with
  | ":"%char :: ":"%char :: [] => Some (replicate 16 0%Z)
  | ":"%char :: ":"%char :: t => parse_ipv6_loop 8 [] (Some 0) t ≫= expand_ipv6
  | _ => parse_ipv6_loop 8 [] None s ≫= expand_ipv6
  end.

Definition ParseIP (s : str) : option (list Z) :=
  match parse_ipv4 s with
  | Some ip4 => Some (ipv4_prefix ++ ip4)
  | None => parse_ipv6 s
  end.

Example ParseIP_4 : drop 12 <$> ParseIP "10.0.0.255" = Some [10; 0; 0; 255]%Z.
Proof. reflexivity. Qed.
Example ParseIP_6 : ParseIP "fe80::1:0.0.0.2" =
  Some [254; 128; 0; 0; 0; 0; 0; 0; 0; 0; 0; 1; 0; 0; 0; 2]%Z.
Proof. reflexivity. Qed.
Example ParseIP_name : ParseIP "foo.bar.com" = None ∧ ParseIP "1.2.3.256" = None.
Proof. split; reflexivity. Qed.

(** ** [pem.Encode], without headers *)

Definition newline : str := [chr 10].

(** Lines of 64 characters. *)
Fixpoint break_lines (fuel : nat) (s : str) : str :=
  match s, fuel with
  | [], _ | _, O => []
  | _, S fuel => take 64 s ++ newline ++ break_lines fuel (drop 64 s)
  end.

Definition pem_text (type bytes : str) : str :=
  lit "-----BEGIN " ++ type ++ lit "-----" ++ newline ++
  break_lines (length (base64 bytes)) (base64 bytes) ++
  lit "-----END " ++ type ++ lit "-----" ++ newline.

(** ** Durations: 64-bit nanoseconds *)

Definition Second : Z := 1000000000.
Definition Minute : Z := 60 * Second.
Definition Hour : Z := 60 * Minute.

Definition rsaBits : Z := 2048.
Definition validFor : Z := wrap64 (wrap64 (365 * 24) * Hour).

(** ** Writers

    A [bytes.Buffer] takes everything; another writer may stop after some
    bytes.  Writing a text in pieces and at once come to the same then. *)

Record writer := mkWriter {
  written : str;
  room : option nat
}.
Definition new_buffer : writer := mkWriter [] None.

Definition write (w : writer) (s : str) : writer * bool :=
  match room w with
  | None => (mkWriter (written w ++ s) None, true)
  | Some n =>
      (mkWriter (written w ++ take n s) (Some (n - length s)), bool_decide (length s ≤ n))
  end.

(** ** Certificates *)

Definition KeyUsageDigitalSignature : Z := 1.
Definition KeyUsageKeyEncipherment : Z := 4.
Definition KeyUsageCertSign : Z := 32.

Inductive ext_key_usage := ServerAuth.

Record Certificate := mkCertificate {
  SerialNumber : Z;
  Organization : list str;
  NotBefore : Z;
  NotAfter : Z;
  KeyUsage : Z;
  ExtKeyUsage : list ext_key_usage;
  BasicConstraintsValid : bool;
  IsCA : bool;
  IPAddresses : list (list Z);
  DNSNames : list str
}.

Inductive certs_error (E : Type) :=
  | RequireHost
  | FailedGenerateKey (err : E)
  | FailedSerialNumber (err : E)
  | FailedCreateCertificate (err : E)
  | FailedCreatingCert
  | FailedCreatingKey.
Arguments RequireHost {E}.
Arguments FailedGenerateKey {E} _.
Arguments FailedSerialNumber {E} _.
Arguments FailedCreateCertificate {E} _.
Arguments FailedCreatingCert {E}.
Arguments FailedCreatingKey {E}.

Definition add_host (t : Certificate) (h : str) : Certificate :=
  let '(ips, names) := match ParseIP h with
    | Some ip => (IPAddresses t ++ [ip], DNSNames t)
    | None => (IPAddresses t, DNSNames t ++ [h])
    end in
  mkCertificate (SerialNumber t) (Organization t) (NotBefore t) (NotAfter t) (KeyUsage t)
    (ExtKeyUsage t) (BasicConstraintsValid t) (IsCA t) ips names.

Definition set_CA (t : Certificate) : Certificate :=
  mkCertificate (SerialNumber t) (Organization t) (NotBefore t) (NotAfter t)
    (Z.lor (KeyUsage t) KeyUsageCertSign) (ExtKeyUsage t) (BasicConstraintsValid t) true
    (IPAddresses t) (DNSNames t).

Definition template (host : str) (isCA : bool) (serialNumber now : Z) : Certificate :=
  let template := mkCertificate serialNumber [lit "Acme Co"] now (now + validFor)%Z
    (Z.lor KeyUsageKeyEncipherment KeyUsageDigitalSignature) [ServerAuth] true false [] [] in
  let template := foldl add_host template (split "," host) in
  if isCA then set_CA template else template.

Section program.
Context {E Key : Type}.
(** [rsa.GenerateKey], [rand.Int] below a limit, the time of day,
    [x509.CreateCertificate] and [x509.MarshalPKCS1PrivateKey]. *)
Variable (GenerateKey : Z → result E Key) (rand_Int : Z → result E Z) (now : Z).
Variable (CreateCertificate : Certificate → Key → result E str) (MarshalKey : Key → str).

(** The result with [keyOut] and [certOut] as they are left. *)
Definition generateRSACerts (host : str) (isCA : bool) (keyOut certOut : writer) :
    option (certs_error E) * writer * writer :=
  if decide (length host = 0) then (Some RequireHost, keyOut, certOut)
  else
    match GenerateKey rsaBits with
    | Err err => (Some (FailedGenerateKey err), keyOut, certOut)
    | Ok priv =>
        match rand_Int (2 ^ 128)%Z with
        | Err err => (Some (FailedSerialNumber err), keyOut, certOut)
        | Ok serialNumber =>
            match CreateCertificate (template host isCA serialNumber now) priv with
            | Err err => (Some (FailedCreateCertificate err), keyOut, certOut)
            | Ok derBytes =>
                match write certOut (pem_text "CERTIFICATE" derBytes) with
                | (certOut, false) => (Some FailedCreatingCert, keyOut, certOut)
                | (certOut, true) =>
                    match write keyOut (pem_text "RSA PRIVATE KEY" (MarshalKey priv)) with
                    | (keyOut, false) => (Some FailedCreatingKey, keyOut, certOut)
                    | (keyOut, true) => (None, keyOut, certOut)
                    end
                end
            end
        end
    end.

(** ** The client *)

Record request := mkRequest {
  req_Method : str;
  req_URL : str;
  req_Host : str
}.

(** What reading the body gives, and the status. *)
Record response := mkResponse {
  StatusCode : Z;
  Body : str;
  read_error : option E
}.

Inductive get_error :=
  | BadRequest (err : E)
  | DoFailed (err : E)
  | ReadFailed (err : E)
  | HttpError (status : Z).

Record client := mkClient {
  InsecureSkipVerify : bool;
  ServerName : str;
  RootCAs : str
}.

(** The state of the world the client and the clock act on; [NewRequest] fails
    on a text that is no URL. *)
Context {W : Type}.
Variable (NewRequest : str → option E).
Variable (Do : client → request → W → W * result E response).

Definition simpleGET (c : client) (url host : str) (w : W) : W * (str * option get_error) :=
  match NewRequest url with
  | Some err => (w, ([], Some (BadRequest err)))
  | None =>
      match Do c (mkRequest "GET" url host) w with
      | (w, Err err) => (w, ([], Some (DoFailed err)))
      | (w, Ok res) =>
          match read_error res with
          | Some err => (w, ([], Some (ReadFailed err)))
          | None =>
              (w, (Body res,
                   if decide (StatusCode res ≠ 200%Z) then Some (HttpError (StatusCode res)) else None))
          end
      end
  end.

(** [AppendCertsFromPEM] on an empty pool: whether a certificate was found. *)
Variable AppendCerts : str → bool.

Definition buildHTTPSClient (serverName rootCA : str) : option client :=
  if AppendCerts rootCA then Some (mkClient false serverName rootCA) else None.

(** ** The server

    [tls.X509KeyPair], [net.Listen] and the loop of [Serve], which ends with
    an error only. *)
Record tls_config (Pair : Type) := mkTlsConfig {
  NextProtos : list str;
  Certificates : list Pair
}.
Arguments mkTlsConfig {Pair} _ _.
Context {Pair : Type}.
Variable (X509KeyPair : str → str → result E Pair).
Variable (Listen : str → option E) (Serve : tls_config Pair → option E).

(** [None]: it never returns. *)
Definition listenAndServeTLS (key cert : str) : option E :=
  match X509KeyPair cert key with
  | Err err => Some err
  | Ok kp =>
      match Listen ":443" with
      | Some err => Some err
      | None => Serve (mkTlsConfig [lit "http/1.1"] [kp])
      end
  end.

(** ** The program *)

Variable sleep : Z → W → W.
(** The schedule: whether the goroutine of [startServer] has got to its
    [log.Fatalf], should it come to it, when [n] passes of the loop are
    over. *)
Variable ended : nat → bool.

Record report := mkReport {
  printed : option str;
  slept : list Z
}.

(** One pass of the loop after the other; [None] is the loop that has not
    ended. *)
Fixpoint get_loop (fuel n : nat) (served : option E) (c : client) (sleepTime : Z) (naps : list Z)
    (w : W) : option (W * control report) :=
  match fuel with
  | O => None
  | S fuel =>
      if (match served with Some _ => ended n | None => false end)
      then Some (w, Fatal "ListenAndServe")
      else if (Minute <=? sleepTime)%Z then Some (w, Return (mkReport None naps))
      else
        match simpleGET c "https://localhost/hello" "foo.bar.com" w with
        | (w, (resp, None)) => Some (w, Return (mkReport (Some resp) naps))
        | (w, (_, Some _)) =>
            get_loop fuel (S n) served c (wrap64 (2 * sleepTime)) (naps ++ [sleepTime])
              (sleep sleepTime w)
        end
  end.

Definition main (fuel : nat) (w : W) : option (W * control report) :=
  match generateRSACerts "foo.bar.com" true new_buffer new_buffer with
  | (Some _, _, _) => Some (w, Fatal "generateRSACerts")
  | (None, k, c) =>
      let key := written k in
      let cert := written c in
      let served := listenAndServeTLS key cert in
      match buildHTTPSClient "foo.bar.com" cert with
      | None => Some (w, Fatal "Unable to load serverCA.")
      | Some client => get_loop fuel 0 served client (1 * Second) [] w
      end
  end.
End program.
Arguments mkResponse {E} _ _ _.
Arguments response E : clear implicits.
Arguments get_error E : clear implicits.
