(* ===== verification/TlsServerSpec.v ===== *)
(** * Properties of the TLS server and its client (tls_server/client_server.go)

    What the certificate says, what is written when something fails, and that
    the client gives up. *)

From S2P Require Import Prelude GoStr Utf8 TlsServer.

Local Open Scope go_scope.

(** ** Lemmas *)

Definition same_but_hosts (t t' : Certificate) : Prop :=
  SerialNumber t' = SerialNumber t ∧ Organization t' = Organization t ∧
  NotBefore t' = NotBefore t ∧ NotAfter t' = NotAfter t ∧ KeyUsage t' = KeyUsage t ∧
  ExtKeyUsage t' = ExtKeyUsage t ∧ BasicConstraintsValid t' = BasicConstraintsValid t ∧
  IsCA t' = IsCA t.

Lemma add_hosts hs t :
  same_but_hosts t (foldl add_host t hs) ∧
  IPAddresses (foldl add_host t hs) = IPAddresses t ++ omap ParseIP hs ∧
  DNSNames (foldl add_host t hs) = DNSNames t ++ filter (λ h, ParseIP h = None) hs.
Proof.
  revert t. induction hs as [|h hs IH]; intros t; simpl.
  { by rewrite !app_nil_r. }
  destruct (IH (add_host t h)) as (Hs & Hi & Hd). rewrite Hi, Hd, filter_cons. clear IH Hi Hd.
  unfold add_host in *. destruct (ParseIP h) as [ip|]; simpl in *.
  - by rewrite <- app_assoc.
  - by rewrite <- app_assoc.
Qed.

(** What was written is kept, and the text is appended whole or cut short. *)
Lemma write_true w s w' : write w s = (w', true) → written w' = written w ++ s.
Proof.
  unfold write. destruct (room w) as [n|]; intros [= <-]; [|done]. simpl.
  apply bool_decide_eq_true in H0. by rewrite take_ge.
Qed.

Lemma write_buffer s : write new_buffer s = (mkWriter s None, true).
Proof. done. Qed.

(** The naps of the client, in seconds. *)
Definition naps : list Z := map (Z.mul Second) [1; 2; 4; 8; 16; 32]%Z.

(** The nap before pass [n]. *)
Definition nap (n : nat) : Z := (Second * 2 ^ Z.of_nat n)%Z.

Lemma nap_double n : n < 6 → wrap64 (2 * nap n) = nap (S n).
Proof. intros Hn. by do 6 (destruct n as [|n]; [done|]); lia. Qed.

Lemma nap_Minute n : n ≤ 6 → (Minute <=? nap n)%Z = bool_decide (n = 6).
Proof. intros Hn. by do 7 (destruct n as [|n]; [done|]); lia. Qed.

Lemma take_naps n : n < 6 → take n naps ++ [nap n] = take (S n) naps.
Proof. intros Hn. by do 6 (destruct n as [|n]; [done|]); lia. Qed.

Section loop.
Context {E W : Type} (NewRequest : str → option E).
Context (Do : client → request → W → W * result E (response E)) (sleep : Z → W → W).
Context (ended : nat → bool).

(** The page as the client asks for it. *)
Definition hello (c : client) (w : W) : W * (str * option (get_error E)) :=
  simpleGET NewRequest Do c "https://localhost/hello" "foo.bar.com" w.

(** How the loop can end: the server is gone; a page was received; or all six
    passes failed. *)
Inductive loop_ends (served : option E) (c : client) : control report → Prop :=
  | ends_served e n : served = Some e → ended n = true → n ≤ 6 →
      loop_ends served c (Fatal "ListenAndServe")
  | ends_page w w' resp n : hello c w = (w', (resp, None)) → n < 6 →
      loop_ends served c (Return (mkReport (Some resp) (take n naps)))
  | ends_patience :
      loop_ends served c (Return (mkReport None naps)).

Lemma get_loop_ends n served c w f :
  n ≤ 6 → 7 - n ≤ f →
  ∃ w' r, get_loop NewRequest Do sleep ended f n served c (nap n) (take n naps) w = Some (w', r) ∧
    loop_ends served c r.
Proof.
  revert n w. induction f as [|f IH]; intros n w Hn Hf; [lia|]. cbn [get_loop].
  destruct (match served with Some _ => ended n | None => false end) eqn:Hs.
  { eexists _, _. split; [done|]. destruct served as [e|]; [|done]. by eapply (ends_served _ _ e n). }
  rewrite nap_Minute by done. destruct (bool_decide_reflect (n = 6)) as [->|H6].
  { eexists _, _. split; [done|]. apply ends_patience. }
  destruct (simpleGET _ _ _ _ _ w) as [w' [resp [err|]]] eqn:Hg.
  - rewrite nap_double, take_naps by lia. apply IH; lia.
  - eexists _, _. split; [done|]. eapply ends_page; [exact Hg|lia].
Qed.
End loop.

(** ** Properties *)

(** the certificate's names: for a list of hosts without commas, in their
    order, those that are IP addresses are its IP addresses and the others
    its DNS names; it is valid for 365 days from now, for a server, and may
    sign certificates exactly if it is a CA's. *)
Theorem template_spec hs isCA serial now :
  hs ≠ [] → Forall (λ h, ","%char ∉ h) hs →
  let t := template (join [","%char] hs) isCA serial now in
  IPAddresses t = omap ParseIP hs ∧ DNSNames t = filter (λ h, ParseIP h = None) hs ∧
  IsCA t = isCA ∧ Z.testbit (KeyUsage t) 5 = isCA ∧
  NotBefore t = now ∧ NotAfter t = (now + 365 * 24 * 60 * 60 * 1000000000)%Z ∧
  ExtKeyUsage t = [ServerAuth] ∧ SerialNumber t = serial.
Proof.
  intros Hne Hall. unfold template. rewrite split_join by done.
  match goal with |- context[foldl add_host ?t0 hs] =>
    destruct (add_hosts hs t0) as ((H1 & H2 & H3 & H4 & H5 & H6 & H7 & H8) & Hi & Hd) end.
  destruct isCA; simpl in *; rewrite ?H1, ?H3, ?H4, ?H5, ?H6, ?H8, ?Hi, ?Hd; split_and!; done.
Qed.

(** a key is written only beside its certificate: when the certificates
    could not be generated or written, nothing was added to the key's output,
    and when the call succeeds both outputs have their PEM block, of the same
    private key. *)
Theorem generateRSACerts_spec {E Key} (gen : Z → result E Key) (rnd : Z → result E Z) now
    (create : Certificate → Key → result E str) marshal host isCA keyOut certOut err keyOut' certOut' :
  generateRSACerts gen rnd now create marshal host isCA keyOut certOut = (err, keyOut', certOut') →
  (err = None →
     ∃ priv serial der, host ≠ [] ∧ gen 2048%Z = Ok priv ∧ rnd (2 ^ 128)%Z = Ok serial ∧
       create (template host isCA serial now) priv = Ok der ∧
       written certOut' = written certOut ++ pem_text "CERTIFICATE" der ∧
       written keyOut' = written keyOut ++ pem_text "RSA PRIVATE KEY" (marshal priv)) ∧
  (err ≠ None → err ≠ Some FailedCreatingKey → keyOut' = keyOut) ∧
  (err ≠ None → err ≠ Some FailedCreatingKey → err ≠ Some FailedCreatingCert → certOut' = certOut).
Proof.
  unfold generateRSACerts. destruct (decide _) as [|Hl]; [by intros [= <- <- <-]|].
  destruct (gen rsaBits) as [priv|] eqn:Hg; [|by intros [= <- <- <-]].
  destruct (rnd _) as [serial|] eqn:Hr; [|by intros [= <- <- <-]].
  destruct (create _ priv) as [der|] eqn:Hc; [|by intros [= <- <- <-]].
  destruct (write certOut _) as [certOut1 []] eqn:Hw1; [|by intros [= <- <- <-]].
  destruct (write keyOut _) as [keyOut1 []] eqn:Hw2; intros [= <- <- <-]; [|done].
  apply write_true in Hw1, Hw2. split; [|done]. intros _. exists priv, serial, der.
  split_and!; try done. by destruct host.
Qed.

(** what [simpleGET] asks and returns: one request with the given host;
    without an error exactly if the server answered with status 200 and the
    body could be read; for another status the body comes with the error. *)
Theorem simpleGET_spec {E W} (NewRequest : str → option E)
    (Do : client → request → W → W * result E (response E)) c url host w :
  let '(w', (body, err)) := simpleGET NewRequest Do c url host w in
  (NewRequest url = None → w' = fst (Do c (mkRequest "GET" url host) w)) ∧
  (err = None ↔ NewRequest url = None ∧ ∃ res, snd (Do c (mkRequest "GET" url host) w) = Ok res ∧
     StatusCode res = 200%Z ∧ read_error res = None ∧ Body res = body) ∧
  (∀ n, err = Some (HttpError n) → n ≠ 200%Z ∧
     ∃ res, snd (Do c (mkRequest "GET" url host) w) = Ok res ∧ StatusCode res = n ∧ Body res = body).
Proof.
  unfold simpleGET. destruct (NewRequest url) as [e|]; [naive_solver|].
  destruct (Do c _ w) as [w1 [res|e]] eqn:Hd; simpl; [|naive_solver].
  destruct (read_error res) as [e|] eqn:Hr; [naive_solver|].
  destruct (decide _) as [Hn|Hn].
  - split_and!; [done| |intros n [= <-]; split; [done|by exists res]].
    split; [done|]. by intros (_ & r & [= <-] & H2 & _).
  - apply dec_stable in Hn. split_and!; [done| |done]. split; [|done].
    intros _. split; [done|]. by exists res.
Qed.


(** ** Witnesses *)

Lemma template_spec_witness :
  let t := template "foo.bar.com,10.0.0.1" true 7 0 in
  IPAddresses t = [ipv4_prefix ++ [10; 0; 0; 1]%Z] ∧ DNSNames t = [lit "foo.bar.com"] ∧
  Z.testbit (KeyUsage t) 5 = true.
Proof.
  destruct (template_spec [lit "foo.bar.com"; lit "10.0.0.1"] true 7 0) as (H1 & H2 & _ & H3 & _);
    [done|apply (bool_decide_unpack _); vm_compute; exact I|].
  split; [exact H1|]. split; [exact H2|exact H3].
Defined.

(** A machine whose keys are numbers. *)
Definition demo_certs (certOut : writer) : option (certs_error ()) * writer * writer :=
  generateRSACerts (λ _, Ok 5%Z) (λ _, Ok 9%Z) 0 (λ t k, Ok (concat (DNSNames t)))
    (λ k, itoa k) "a" false new_buffer certOut.

Lemma generateRSACerts_spec_witness :
  demo_certs (mkWriter [] (Some 10)) = (Some FailedCreatingCert, new_buffer,
    mkWriter (lit "-----BEGIN") (Some 0)) ∧
  fst (fst (demo_certs (mkWriter [] (Some 10)))) ≠ None.
Proof.
  destruct (demo_certs (mkWriter [] (Some 10))) as [[err k] c] eqn:Hd.
  destruct (generateRSACerts_spec _ _ _ _ _ _ _ _ _ _ _ _ Hd) as (_ & Hk & _).
  vm_compute in Hd. injection Hd as <- <- <-.
  rewrite Hk by done. split; [vm_compute; reflexivity|done].
Defined.
