(* ===== verification/Sets.v ===== *)
(** * Sets of strings (k8s.io/kubernetes/pkg/util/sets)

    [sets.String] is a map with empty values; here it is a finite set.  A nil
    set reads as the empty one, and nothing modelled here inserts into a nil
    set.  The loops over a set build another set or look for an element, so
    the order Go takes does not matter. *)

From Stdlib Require Import Sorted.
From S2P Require Import Prelude GoStr.

Local Open Scope go_scope.

Abbreviation strings := (gset str).

Definition Insert (s : strings) (items : list str) : strings := foldl (λ s i, {[i]} ∪ s) s items.
Definition NewString (items : list str) : strings := Insert ∅ items.
Definition Delete (s : strings) (items : list str) : strings := foldl (λ s i, s ∖ {[i]}) s items.
Definition Has (s : strings) (item : str) : bool := bool_decide (item ∈ s).
Definition HasAll (s : strings) (items : list str) : bool := forallb (Has s) items.
Definition HasAny (s : strings) (items : list str) : bool := existsb (Has s) items.

Definition Difference (s s2 : strings) : strings :=
  foldl (λ r key, if Has s2 key then r else Insert r [key]) ∅ (elements s).
Definition Union (s1 s2 : strings) : strings :=
  foldl (λ r key, Insert r [key]) (foldl (λ r key, Insert r [key]) ∅ (elements s1)) (elements s2).
Definition Intersection (s1 s2 : strings) : strings :=
  let '(walk, other) := if decide (size s1 < size s2) then (s1, s2) else (s2, s1) in
  foldl (λ r key, if Has other key then Insert r [key] else r) ∅ (elements walk).
Definition IsSuperset (s1 s2 : strings) : bool := forallb (Has s1) (elements s2).
Definition Equal (s1 s2 : strings) : bool :=
  if decide (size s1 ≠ size s2) then false else forallb (Has s1) (elements s2).

Definition List_ (s : strings) : list str := sort_strings (elements s).

(** [PopAny], with the element Go happens to take. *)
Definition PopAny (pick : list str → option str) (s : strings) : strings * option str :=
  match pick (elements s) with
  | Some key => (Delete s [key], Some key)
  | None => (s, None)
  end.

(** ** Lemmas *)

Lemma elem_of_Insert s items x : x ∈ Insert s items ↔ x ∈ items ∨ x ∈ s.
Proof.
  revert s. induction items as [|i items IH]; intros s; simpl; [set_solver|].
  fold (Insert ({[i]} ∪ s) items). rewrite IH. set_solver.
Qed.

Lemma elem_of_NewString items x : x ∈ NewString items ↔ x ∈ items.
Proof. unfold NewString. rewrite elem_of_Insert. set_solver. Qed.

Lemma elem_of_Delete s items x : x ∈ Delete s items ↔ x ∈ s ∧ x ∉ items.
Proof.
  revert s. induction items as [|i items IH]; intros s; simpl; [set_solver|].
  fold (Delete (s ∖ {[i]}) items). rewrite IH. set_solver.
Qed.

Lemma Has_spec s x : Has s x = true ↔ x ∈ s.
Proof. apply bool_decide_eq_true. Qed.

Lemma elem_of_foldl_filter (p : str → bool) l r x :
  x ∈ foldl (λ r key, if p key then Insert r [key] else r) r l ↔ x ∈ r ∨ (x ∈ l ∧ p x = true).
Proof.
  revert r. induction l as [|k l IH]; intros r; simpl; [set_solver|]. rewrite IH.
  rewrite elem_of_cons. destruct (p k) eqn:Hk; rewrite ?elem_of_union, ?elem_of_singleton.
  - split; [intros [[->|?]|[? ?]]; auto|]. intros [?|[[->|?] ?]]; auto.
  - split; [intros [?|[? ?]]; auto|]. intros [?|[[->|?] ?]]; auto; congruence.
Qed.

Lemma foldl_if_negb {A B} (p : B → bool) (f : A → B → A) r l :
  foldl (λ r k, if p k then r else f r k) r l = foldl (λ r k, if negb (p k) then f r k else r) r l.
Proof. revert r. induction l as [|k l IH]; intros r; simpl; [done|]. by destruct (p k). Qed.

Lemma Difference_spec s s2 : Difference s s2 = s ∖ s2.
Proof.
  apply set_eq. intros x. unfold Difference. rewrite foldl_if_negb, elem_of_foldl_filter.
  rewrite negb_true_iff. unfold Has. rewrite bool_decide_eq_false. set_solver.
Qed.

Lemma Union_spec s1 s2 : Union s1 s2 = s1 ∪ s2.
Proof.
  apply set_eq. intros x. unfold Union.
  rewrite !(elem_of_foldl_filter (λ _, true)). set_solver.
Qed.

Lemma Intersection_spec s1 s2 : Intersection s1 s2 = s1 ∩ s2.
Proof.
  apply set_eq. intros x. unfold Intersection.
  destruct (decide _); rewrite elem_of_foldl_filter, Has_spec; set_solver.
Qed.

Lemma IsSuperset_spec s1 s2 : IsSuperset s1 s2 = true ↔ s2 ⊆ s1.
Proof.
  unfold IsSuperset. rewrite forallb_forall. setoid_rewrite Has_spec.
  setoid_rewrite <- list_elem_of_In. set_solver.
Qed.

Lemma Equal_spec s1 s2 : Equal s1 s2 = true ↔ s1 = s2.
Proof.
  unfold Equal. fold (IsSuperset s1 s2). destruct (decide _) as [Hs|Hs].
  - split; [done|]. by intros ->.
  - rewrite IsSuperset_spec. apply dec_stable in Hs. split; [|by intros ->].
    intros Hsub. symmetry. apply leibniz_equiv, set_subseteq_size_equiv; [done|lia].
Qed.

Lemma List_perm s : List_ s ≡ₚ elements s.
Proof. apply sort_strings_perm. Qed.

Lemma NewString_List s : NewString (List_ s) = s.
Proof. apply set_eq. intros x. rewrite elem_of_NewString, List_perm. set_solver. Qed.
