(* ===== verification/Labels.v ===== *)
(** * Label selectors (k8s.io/kubernetes/pkg/labels, pkg/util/validation)

    The selectors the client puts into its requests: a selector is a list of
    requirements on a set of labels, with a text form that [Parse] reads.

    The lexer is modelled on what is left of its text ([unread] gives a byte
    back), the parser on what is left of its scanned items; reading past the
    last item panics.  Errors keep the literal their message shows. *)

From S2P Require Import Prelude GoStr Sets.

Local Open Scope go_scope.

(** ** Names (pkg/util/validation/validation.go)

    The regular expressions are anchored at both ends. *)

Definition is_lower (c : ascii) : bool := bool_decide (97 ≤ ord c ≤ 122)%Z.
Definition is_upper (c : ascii) : bool := bool_decide (65 ≤ ord c ≤ 90)%Z.

(** [qnameCharFmt] and [qnameExtCharFmt]. *)
Definition qname_char (c : ascii) : bool := is_lower c || is_upper c || is_digit c.
Definition qname_ext_char (c : ascii) : bool :=
  qname_char c || bool_decide (c ∈ ["-"%char; "_"%char; "."%char]).

(** One character that may be at the edge, or two with characters that may be
    inside between them. *)
Definition edged (edge inner : ascii → bool) (s : str) : bool :=
  match s, list.last s with
  | c :: _, Some d => edge c && edge d && forallb inner s
  | _, _ => false
  end.

Definition QualifiedNameMaxLength : nat := 63.
Definition LabelValueMaxLength : nat := 63.
Definition DNS1123LabelMaxLength : nat := 63.
Definition DNS1123SubdomainMaxLength : nat := 253.

Definition dns1123_char (c : ascii) : bool := is_lower c || is_digit c.
Definition dns1123_ext_char (c : ascii) : bool := dns1123_char c || bool_decide (c = "-"%char).

Definition IsDNS1123Label (value : str) : bool :=
  bool_decide (length value ≤ DNS1123LabelMaxLength) && edged dns1123_char dns1123_ext_char value.

(** Labels of any length between dots: no character of a label is a dot. *)
Definition IsDNS1123Subdomain (value : str) : bool :=
  bool_decide (length value ≤ DNS1123SubdomainMaxLength) &&
  forallb (edged dns1123_char dns1123_ext_char) (split "." value).

Definition valid_name (name : str) : bool :=
  bool_decide (name ≠ []) && bool_decide (length name ≤ QualifiedNameMaxLength) &&
  edged qname_char qname_ext_char name.

Definition IsQualifiedName (value : str) : bool :=
  match split "/" value with
  | [name] => valid_name name
  | [prefix; name] =>
      if bool_decide (prefix = []) || negb (IsDNS1123Subdomain prefix) then false
      else valid_name name
  | _ => false
  end.

Definition IsValidLabelValue (value : str) : bool :=
  bool_decide (length value ≤ LabelValueMaxLength) &&
  (bool_decide (value = []) || edged qname_char qname_ext_char value).

(** ** Labels (labels.go) *)

(** The interface [Labels] of a map. *)
Abbreviation Set_ := (gmap str str).
Definition Labels_Has (ls : Set_) (label : str) : bool := bool_decide (is_Some (ls !! label)).
Definition Labels_Get (ls : Set_) (label : str) : str := default [] (ls !! label).

Definition Set_String (ls : Set_) : str :=
  join [","%char] (sort_strings ((λ '(key, value), key ++ "="%char :: value) <$> map_to_list ls)).
Definition FormatLabels (labelMap : Set_) : str :=
  match Set_String labelMap with [] => lit "<none>" | l => l end.

(** ** Requirements *)

Inductive Operator :=
  | EqualsOperator
  | DoubleEqualsOperator
  | InOperator
  | NotEqualsOperator
  | NotInOperator
  | ExistsOperator
  | UnknownOperator (op : str).

#[global] Instance Operator_eq_dec : EqDecision Operator.
Proof. solve_decision. Defined.

Record Requirement := mkRequirement {
  key : str;
  operator : Operator;
  strValues : strings
}.

Abbreviation LabelSelector := (list Requirement).

Inductive label_error :=
  | InvalidKey (k : str)
  | InvalidValue
  | NoValues
  | NotOneValue
  | UnrecognizedOperator (op : str)
  | Expected (what found : str).

Definition validateLabelKey (k : str) : option label_error :=
  if IsQualifiedName k then None else Some (InvalidKey k).
Definition validateLabelValue (v : str) : option label_error :=
  if IsValidLabelValue v then None else Some InvalidValue.

Definition check_values (op : Operator) (vals : strings) : option label_error :=
  match op with
  | InOperator | NotInOperator => if decide (size vals = 0) then Some NoValues else None
  | EqualsOperator | DoubleEqualsOperator | NotEqualsOperator =>
      if decide (size vals ≠ 1) then Some NotOneValue else None
  | ExistsOperator => None
  | UnknownOperator op => Some (UnrecognizedOperator op)
  end.

(** The order of the loop over the values does not show: the error does not
    keep the value. *)
Definition NewRequirement (key : str) (op : Operator) (vals : strings) :
    result label_error Requirement :=
  match validateLabelKey key with
  | Some err => Err err
  | None =>
      match check_values op vals with
      | Some err => Err err
      | None =>
          match omap validateLabelValue (elements vals) with
          | err :: _ => Err err
          | [] => Ok (mkRequirement key op vals)
          end
      end
  end.

Definition Requirement_Matches (r : Requirement) (ls : Set_) : bool :=
  match operator r with
  | InOperator | EqualsOperator | DoubleEqualsOperator =>
      if negb (Labels_Has ls (key r)) then false else Has (strValues r) (Labels_Get ls (key r))
  | NotInOperator | NotEqualsOperator =>
      if negb (Labels_Has ls (key r)) then true else negb (Has (strValues r) (Labels_Get ls (key r)))
  | ExistsOperator => Labels_Has ls (key r)
  | UnknownOperator _ => false
  end.

Definition operator_text (op : Operator) : str :=
  match op with
  | EqualsOperator => "="
  | DoubleEqualsOperator => "=="
  | NotEqualsOperator => "!="
  | InOperator => " in "
  | NotInOperator => " notin "
  | ExistsOperator | UnknownOperator _ => []
  end.

Definition Requirement_String (r : Requirement) : str :=
  let buffer := key r ++ operator_text (operator r) in
  let values := join [","%char] (List_ (strValues r)) in
  match operator r with
  | ExistsOperator => buffer
  | InOperator | NotInOperator => buffer ++ "("%char :: values ++ [")"%char]
  | _ => buffer ++ values
  end.

(** ** Selectors *)

Definition Everything : LabelSelector := [].
Definition Empty (lsel : LabelSelector) : bool := bool_decide (length lsel = 0).

Definition Add (lsel : LabelSelector) (key : str) (operator : Operator) (values : list str) :
    LabelSelector :=
  match NewRequirement key operator (NewString values) with
  | Ok r => lsel ++ [r]
  | Err _ => lsel
  end.

Definition Matches (lsel : LabelSelector) (l : Set_) : bool :=
  forallb (λ req, Requirement_Matches req l) lsel.

Definition String (lsel : LabelSelector) : str := join [","%char] (Requirement_String <$> lsel).

(** [SelectorFromSet], with the labels in the order the loop takes them. *)
Fixpoint requirements_of (ls : list (str * str)) : result label_error LabelSelector :=
  match ls with
  | [] => Ok []
  | (label, value) :: ls =>
      match NewRequirement label EqualsOperator (NewString [value]) with
      | Err err => Err err
      | Ok r => (λ rs, r :: rs) <$> requirements_of ls
      end
  end.
Definition SelectorFromSet (order : Set_ → list (str * str)) (ls : option Set_) : LabelSelector :=
  match ls with
  | None => []
  | Some ls => match requirements_of (order ls) with Ok rs => rs | Err _ => [] end
  end.

(** ** The lexer *)

Inductive Token :=
  | ErrorToken
  | EndOfStringToken
  | ClosedParToken
  | CommaToken
  | DoubleEqualsToken
  | EqualsToken
  | IdentifierToken
  | InToken
  | NotEqualsToken
  | NotInToken
  | OpenParToken.

#[global] Instance Token_eq_dec : EqDecision Token.
Proof. solve_decision. Defined.

Definition string2token (s : str) : option Token :=
  if decide (s = lit ")") then Some ClosedParToken
  else if decide (s = lit ",") then Some CommaToken
  else if decide (s = lit "==") then Some DoubleEqualsToken
  else if decide (s = lit "=") then Some EqualsToken
  else if decide (s = lit "in") then Some InToken
  else if decide (s = lit "!=") then Some NotEqualsToken
  else if decide (s = lit "notin") then Some NotInToken
  else if decide (s = lit "(") then Some OpenParToken
  else None.

Record ScannedItem := mkScannedItem {
  tok : Token;
  literal : str
}.

Definition isWhitespace (ch : ascii) : bool :=
  bool_decide (ord ch = 32 ∨ ord ch = 9 ∨ ord ch = 13 ∨ ord ch = 10)%Z.

Definition isSpecialSymbol (ch : ascii) : bool :=
  bool_decide (ch ∈ ["="%char; "!"%char; "("%char; ")"%char; ","%char]).

(** [read] returns the byte 0 at the end, and cannot tell it from a byte 0 of
    the text. *)
Definition nul : ascii := chr 0.

Fixpoint id_loop (s buffer : str) : str * str :=
  match s with
  | [] => (buffer, [])
  | ch :: t =>
      if decide (ch = nul) then (buffer, t)
      else if isSpecialSymbol ch || isWhitespace ch then (buffer, s)
      else id_loop t (buffer ++ [ch])
  end.

Definition scanIdOrKeyword (l : str) : ScannedItem * str :=
  let '(s, l) := id_loop l [] in
  match string2token s with
  | Some val => (mkScannedItem val s, l)
  | None => (mkScannedItem IdentifierToken s, l)
  end.

Fixpoint special_loop (s buffer : str) (lastScannedItem : option ScannedItem) :
    str * option ScannedItem * str :=
  match s with
  | [] => (buffer, lastScannedItem, [])
  | ch :: t =>
      if decide (ch = nul) then (buffer, lastScannedItem, t)
      else if isSpecialSymbol ch then
        let buffer := buffer ++ [ch] in
        match string2token buffer, lastScannedItem with
        | Some token, _ => special_loop t buffer (Some (mkScannedItem token buffer))
        | None, Some _ => (buffer, lastScannedItem, s)
        | None, None => special_loop t buffer None
        end
      else (buffer, lastScannedItem, s)
  end.

Definition scanSpecialSymbol (l : str) : ScannedItem * str :=
  match special_loop l [] None with
  | (buffer, None, l) =>
      (mkScannedItem ErrorToken (lit "error expected: keyword found '" ++ buffer ++ lit "'"), l)
  | (_, Some item, l) => (item, l)
  end.

Definition skipWhiteSpaces (l : str) : str := trim_left isWhitespace l.

Definition Lex (l : str) : ScannedItem * str :=
  match skipWhiteSpaces l with
  | [] => (mkScannedItem EndOfStringToken [], [])
  | ch :: t =>
      if decide (ch = nul) then (mkScannedItem EndOfStringToken [], t)
      else if isSpecialSymbol ch then scanSpecialSymbol (ch :: t)
      else scanIdOrKeyword (ch :: t)
  end.

(** [scan]: every call of [Lex] before the end takes a byte. *)
Fixpoint scan_loop (fuel : nat) (l : str) : list ScannedItem :=
  match fuel with
  | O => []
  | S fuel =>
      let '(item, l) := Lex l in
      match tok item with
      | EndOfStringToken => [item]
      | _ => item :: scan_loop fuel l
      end
  end.
Definition scan (l : str) : list ScannedItem := scan_loop (S (length l)) l.

(** ** The parser *)

Inductive ParserContext := KeyAndOperator | Values.

Definition parser (A : Type) : Type :=
  list ScannedItem → control (result label_error A * list ScannedItem).

#[global] Instance parser_ret : MRet parser := λ A a p, Return (Ok a, p).
#[global] Instance parser_bind : MBind parser := λ A B k m p,
  match m p with
  | Return (Ok a, p) => k a p
  | Return (Err e, p) => Return (Err e, p)
  | Panic w => Panic w
  | Fatal w => Fatal w
  end.

Definition fail {A} (e : label_error) : parser A := λ p, Return (Err e, p).
Definition lift {A} (r : result label_error A) : parser A := λ p, Return (r, p).

Definition in_context (context : ParserContext) (t : Token) : Token :=
  match context, t with
  | Values, (InToken | NotInToken) => IdentifierToken
  | _, _ => t
  end.

Definition lookahead (context : ParserContext) : parser (Token * str) := λ p,
  match p with
  | [] => Panic "index out of range"
  | item :: _ => Return (Ok (in_context context (tok item), literal item), p)
  end.

Definition consume (context : ParserContext) : parser (Token * str) := λ p,
  match p with
  | [] => Panic "index out of range"
  | item :: p => Return (Ok (in_context context (tok item), literal item), p)
  end.

Definition parseKeyAndInferOperator : parser (str * option Operator) :=
  '(tok, literal) ← consume Values;
  if decide (tok ≠ IdentifierToken) then fail (Expected "identifier" literal)
  else
    match validateLabelKey literal with
    | Some err => fail err
    | None =>
        '(t, _) ← lookahead Values;
        mret (literal,
          if decide (t = EndOfStringToken ∨ t = CommaToken) then Some ExistsOperator else None)
    end.

Definition parseOperator : parser Operator :=
  '(tok, lit_) ← consume KeyAndOperator;
  match tok with
  | InToken => mret InOperator
  | EqualsToken => mret EqualsOperator
  | DoubleEqualsToken => mret DoubleEqualsOperator
  | NotInToken => mret NotInOperator
  | NotEqualsToken => mret NotEqualsOperator
  | _ => fail (Expected "'=', '!=', '==', 'in', notin'" lit_)
  end.

(** Every pass consumes an item. *)
Fixpoint identifiers_loop (fuel : nat) (s : strings) : parser strings :=
  match fuel with
  | O => λ _, Panic "out of fuel"
  | S fuel =>
      '(tok, lit_) ← consume Values;
      match tok with
      | IdentifierToken =>
          let s := Insert s [lit_] in
          '(tok2, lit2) ← lookahead Values;
          match tok2 with
          | CommaToken => identifiers_loop fuel s
          | ClosedParToken => mret s
          | _ => fail (Expected "',' or ')'" lit2)
          end
      | CommaToken =>
          let s := if decide (size s = 0) then Insert s [[]] else s in
          '(tok2, _) ← lookahead Values;
          match tok2 with
          | ClosedParToken => mret (Insert s [[]])
          | CommaToken => consume Values;; identifiers_loop fuel (Insert s [[]])
          | _ => identifiers_loop fuel s
          end
      | _ => fail (Expected "',', or identifier" lit_)
      end
  end.
Definition parseIdentifiersList : parser strings := λ p, identifiers_loop (S (length p)) ∅ p.

Definition parseValues : parser strings :=
  '(tok, lit_) ← consume Values;
  if decide (tok ≠ OpenParToken) then fail (Expected "'('" lit_)
  else
    '(tok, lit_) ← lookahead Values;
    match tok with
    | IdentifierToken | CommaToken =>
        s ← parseIdentifiersList;
        '(tok, _) ← consume Values;
        if decide (tok ≠ ClosedParToken) then fail (Expected "')'" lit_) else mret s
    | ClosedParToken => consume Values;; mret (NewString [[]])
    | _ => fail (Expected "',', ')' or identifier" lit_)
    end.

Definition parseExactValue : parser strings :=
  '(tok, lit_) ← lookahead Values;
  if decide (tok = EndOfStringToken ∨ tok = CommaToken) then mret (NewString [[]])
  else
    '(tok, lit_) ← consume Values;
    if decide (tok = IdentifierToken) then mret (NewString [lit_])
    else fail (Expected "identifier" lit_).

Definition parseRequirement : parser Requirement :=
  '(key, operator) ← parseKeyAndInferOperator;
  match operator with
  | Some ExistsOperator => lift (NewRequirement key ExistsOperator ∅)
  | _ =>
      operator ← parseOperator;
      values ← match operator with
               | InOperator | NotInOperator => parseValues
               | EqualsOperator | DoubleEqualsOperator | NotEqualsOperator => parseExactValue
               | _ => mret ∅
               end;
      lift (NewRequirement key operator values)
  end.

Fixpoint parse_loop (fuel : nat) (requirements : list Requirement) : parser (list Requirement) :=
  match fuel with
  | O => λ _, Panic "out of fuel"
  | S fuel =>
      '(tok, lit_) ← lookahead Values;
      match tok with
      | IdentifierToken =>
          r ← parseRequirement;
          let requirements := requirements ++ [r] in
          '(t, l) ← consume Values;
          match t with
          | EndOfStringToken => mret requirements
          | CommaToken =>
              '(t2, l2) ← lookahead Values;
              if decide (t2 ≠ IdentifierToken) then fail (Expected "identifier after ','" l2)
              else parse_loop fuel requirements
          | _ => fail (Expected "',' or 'end of string'" l)
          end
      | EndOfStringToken => mret requirements
      | _ => fail (Expected "identifier or 'end of string'" lit_)
      end
  end.
Definition parse (l : str) : control (result label_error (list Requirement)) :=
  let items := scan l in
  match parse_loop (S (length items)) [] items with
  | Return (r, _) => Return r
  | Panic why => Panic why
  | Fatal msg => Fatal msg
  end.

(** [Parse], with the order [sort.Sort] gives to the requirements. *)
Definition Parse (sort : list Requirement → list Requirement) (selector : str) :
    control (result label_error LabelSelector) :=
  match parse selector with
  | Return r => Return (sort <$> r)
  | Panic why => Panic why
  | Fatal msg => Fatal msg
  end.

Example parse_doc :
  ∃ x y z, Parse id (lit "x in (foo,,baz),y,z notin ()") = Return (Ok [x; y; z]) ∧
    Requirement_String x = lit "x in (,baz,foo)" ∧ Requirement_String y = lit "y" ∧
    Requirement_String z = lit "z notin ()".
Proof. eexists _, _, _. split; [vm_compute; reflexivity|]. split_and!; vm_compute; reflexivity. Qed.
