(* ===== verification/LabelsSpec.v ===== *)
(** * Properties of label selectors (k8s.io/kubernetes/pkg/labels)

    The parser always returns, and what it returns is valid; the text of a
    selector reads back as the selector; and which labels a selector made from
    labels matches. *)

From Stdlib Require Import Sorted.
From S2P Require Import Prelude GoStr Sets Labels.

Local Open Scope go_scope.

#[local] Arguments in_context : simpl never.
#[local] Arguments Insert : simpl never.

(** ** Lemmas: requirements *)

Lemma NewRequirement_Ok k op vals r :
  NewRequirement k op vals = Ok r →
  r = mkRequirement k op vals ∧ IsQualifiedName k = true ∧ check_values op vals = None ∧
  (∀ v, v ∈ vals → IsValidLabelValue v = true).
Proof.
  unfold NewRequirement, validateLabelKey. destruct (IsQualifiedName k) eqn:Hk; [|done].
  destruct (check_values op vals) eqn:Hc; [done|].
  destruct (omap validateLabelValue (elements vals)) as [|e l] eqn:Ho; [|done]. intros [= <-].
  split_and!; [done..|]. intros v Hv. apply not_false_iff_true. intros Hf.
  assert (InvalidValue ∈ omap validateLabelValue (elements vals)) as Hin.
  { apply list_elem_of_omap. exists v. split; [by apply elem_of_elements|].
    unfold validateLabelValue. by rewrite Hf. }
  rewrite Ho in Hin. by apply not_elem_of_nil in Hin.
Qed.

Lemma NewRequirement_valid k op vals :
  IsQualifiedName k = true → check_values op vals = None →
  (∀ v, v ∈ vals → IsValidLabelValue v = true) →
  NewRequirement k op vals = Ok (mkRequirement k op vals).
Proof.
  intros Hk Hc Hv. unfold NewRequirement, validateLabelKey. rewrite Hk, Hc.
  assert (omap validateLabelValue (elements vals) = []) as ->; [|done].
  assert (∀ l, (∀ v, v ∈ l → v ∈ vals) → omap validateLabelValue l = []) as Hl.
  { induction l as [|v l IH]; intros Hs; [done|]. simpl. unfold validateLabelValue at 1.
    rewrite Hv by (apply Hs; set_solver). apply IH. intros w Hw. apply Hs. set_solver. }
  apply Hl. intros v. by rewrite elem_of_elements.
Qed.

(** A requirement as the constructor makes it. *)
Definition valid (r : Requirement) : Prop :=
  NewRequirement (key r) (operator r) (strValues r) = Ok r.

Lemma NewRequirement_is_valid k op vals r : NewRequirement k op vals = Ok r → valid r.
Proof. intros Hr. destruct (NewRequirement_Ok _ _ _ _ Hr) as [-> _]. exact Hr. Qed.

(** ** Lemmas: the parser does not run past its items *)

(** Items that end with the end of the string, and have none before. *)
Fixpoint good (p : list ScannedItem) : Prop :=
  match p with
  | [] => False
  | item :: p => if decide (tok item = EndOfStringToken) then p = [] else good p
  end.

Lemma good_tail item p : good (item :: p) → tok item ≠ EndOfStringToken → good p.
Proof. simpl. intros Hg Hn. by rewrite decide_False in Hg. Qed.

Lemma in_context_end c t : in_context c t = EndOfStringToken ↔ t = EndOfStringToken.
Proof. by destruct c, t. Qed.

(** The parser [m] returns, and what it returns satisfies [Q]. *)
Definition reads {A} (m : parser A) (p : list ScannedItem) (Q : A → list ScannedItem → Prop) : Prop :=
  ∃ r p', m p = Return (r, p') ∧ ∀ a, r = Ok a → Q a p'.

Lemma reads_ret {A} (a : A) p (Q : A → list ScannedItem → Prop) : Q a p → reads (mret a) p Q.
Proof. intros HQ. eexists _, _. split; [done|]. by intros b [= <-]. Qed.

Lemma reads_fail {A} e p (Q : A → list ScannedItem → Prop) : reads (fail e) p Q.
Proof. by eexists _, _. Qed.

Lemma reads_lift {A} r p (Q : A → list ScannedItem → Prop) :
  (∀ a, r = Ok a → Q a p) → reads (lift r) p Q.
Proof. intros HQ. by eexists _, _. Qed.

Lemma reads_bind {A B} (m : parser A) (k : A → parser B) p Q R :
  reads m p Q → (∀ a p', Q a p' → reads (k a) p' R) → reads (m ≫= k) p R.
Proof.
  intros (r & p' & Hm & HQ) Hk. unfold mbind, parser_bind, reads. rewrite Hm.
  destruct r as [a|e]; [by apply Hk, HQ | by eexists _, _].
Qed.

Lemma reads_mono {A} (m : parser A) p (Q R : A → list ScannedItem → Prop) :
  reads m p Q → (∀ a p', Q a p' → R a p') → reads m p R.
Proof. intros (r & p' & Hm & HQ) HR. exists r, p'. split; [done|]. auto. Qed.

Lemma reads_consume c p :
  good p → reads (consume c) p (λ a p', ∃ item, p = item :: p' ∧
    a = (in_context c (tok item), literal item) ∧ (in_context c (tok item) ≠ EndOfStringToken → good p')).
Proof.
  destruct p as [|item p]; [done|]. intros Hg. eexists _, _. split; [done|].
  intros a [= <-]. exists item. split_and!; [done..|]. rewrite in_context_end. by apply good_tail.
Qed.

Lemma reads_lookahead c p :
  good p → reads (lookahead c) p (λ a p', p' = p ∧ ∃ item p1, p = item :: p1 ∧
    a = (in_context c (tok item), literal item)).
Proof.
  destruct p as [|item p]; [done|]. intros Hg. eexists _, _. split; [done|].
  intros a [= <-]. split; [done|]. by eexists _, _.
Qed.

Ltac run_consume p item Hg :=
  eapply reads_bind; [by apply reads_consume|]; intros [? ?] p (item & -> & [= -> ->] & Hg).
Ltac run_lookahead :=
  eapply reads_bind; [by apply reads_lookahead|];
  let item := fresh "item" in intros [? ?] ? (-> & item & ? & ? & [= -> ->]).

(** What a parser of a part does to good items. *)
Definition advances {A} (p : list ScannedItem) (_ : A) (p' : list ScannedItem) : Prop :=
  good p' ∧ length p' ≤ length p.

Lemma advances_trans {A B} (a : A) (b : B) p p1 p2 :
  advances p1 b p2 → length p1 ≤ length p → advances p a p2.
Proof. intros [H1 H2] H3. split; [done|lia]. Qed.

Lemma reads_identifiers f s p :
  good p → length p < f → reads (identifiers_loop f s) p (advances p).
Proof.
  revert s p. induction f as [|f IH]; intros s p Hg Hf; [lia|]. simpl.
  run_consume p1 item Hg1. simpl in Hf.
  assert (∀ s', good p1 → reads (identifiers_loop f s') p1 (advances (item :: p1))) as Hrec.
  { intros s' Hg'. eapply reads_mono; [apply IH; [done|lia]|].
    intros a p' Ha. by eapply advances_trans, Nat.le_succ_diag_r. }
  assert (∀ s', good p1 → reads (A := strings) (mret s') p1 (advances (item :: p1))) as Hret.
  { intros s' Hg'. apply reads_ret. split; [done|simpl; lia]. }
  destruct (in_context Values (tok item)) eqn:Ht; try apply reads_fail;
    specialize (Hg1 ltac:(done)); run_lookahead;
    destruct (in_context Values (tok item0)) eqn:Ht0; try apply reads_fail; auto.
  run_consume p2 item2 Hg2. simplify_eq. rewrite Ht0 in Hg2. specialize (Hg2 ltac:(done)). simpl in Hf.
  eapply reads_mono; [apply IH; [done|simpl in *; lia]|].
  intros a p' Ha. eapply advances_trans; [done|simpl; lia].
Qed.

Lemma reads_values p : good p → reads parseValues p (advances p).
Proof.
  intros Hg. unfold parseValues. run_consume p1 item Hg1.
  destruct (decide _) as [|Ht%dec_stable]; [apply reads_fail|]. rewrite Ht in Hg1.
  specialize (Hg1 ltac:(done)). run_lookahead.
  assert (reads (s ← parseIdentifiersList; '(tok, _) ← consume Values;
    if decide (tok ≠ ClosedParToken) then fail (Expected "')'" (literal item0)) else mret s)
    p1 (advances (item :: p1))) as Hlist.
  { eapply reads_bind; [apply reads_identifiers; [done|lia]|]. intros s p2 [Hg2 Hl2].
    run_consume p3 item3 Hg3. destruct (decide _) as [|Ht3%dec_stable]; [apply reads_fail|].
    rewrite Ht3 in Hg3. apply reads_ret. split; [by apply Hg3|simpl in *; lia]. }
  destruct (in_context Values (tok item0)) eqn:Ht0; try apply reads_fail; try exact Hlist.
  run_consume p3 item3 Hg3. simplify_eq. rewrite Ht0 in Hg3.
  apply reads_ret. split; [by apply Hg3|simpl; lia].
Qed.

Lemma reads_exact p : good p → reads parseExactValue p (advances p).
Proof.
  intros Hg. unfold parseExactValue. run_lookahead.
  destruct (decide _) as [|Hn]; [by apply reads_ret|].
  run_consume p2 item2 Hg2. destruct (decide _) as [Ht|]; [|apply reads_fail].
  rewrite Ht in Hg2. apply reads_ret. split; [by apply Hg2|simpl; lia].
Qed.

Lemma reads_operator p : good p → reads parseOperator p (advances p).
Proof.
  intros Hg. unfold parseOperator. run_consume p1 item Hg1.
  destruct (in_context _ _); try apply reads_fail; apply reads_ret;
    (split; [by apply Hg1|simpl; lia]).
Qed.

(** A requirement takes an item, and is valid. *)
Lemma reads_requirement p :
  good p → reads parseRequirement p (λ r p', valid r ∧ good p' ∧ length p' < length p).
Proof.
  intros Hg. unfold parseRequirement. eapply reads_bind with (Q := λ _ p', good p' ∧ length p' < length p).
  - unfold parseKeyAndInferOperator. run_consume p1 item Hg1.
    destruct (decide _) as [|Ht%dec_stable]; [apply reads_fail|]. rewrite Ht in Hg1.
    specialize (Hg1 ltac:(done)).
    destruct (validateLabelKey _); [apply reads_fail|]. run_lookahead.
    apply reads_ret. split; [done|simpl; lia].
  - intros [k op] p1 [Hg1 Hl1].
    assert (reads (operator ← parseOperator;
      values ← match operator with
               | InOperator | NotInOperator => parseValues
               | EqualsOperator | DoubleEqualsOperator | NotEqualsOperator => parseExactValue
               | _ => mret ∅
               end;
      lift (NewRequirement k operator values)) p1
      (λ r p', valid r ∧ good p' ∧ length p' < length p)) as Hop.
    { eapply reads_bind; [by apply reads_operator|]. intros o p2 [Hg2 Hl2].
      eapply reads_bind with (Q := advances p2).
      - destruct o; first [by apply reads_values | by apply reads_exact | by apply reads_ret].
      - intros vs p3 [Hg3 Hl3]. apply reads_lift. intros r Hr%NewRequirement_is_valid.
        split_and!; [done..|lia]. }
    destruct op as [[]|]; try exact Hop. apply reads_lift.
    intros r Hr%NewRequirement_is_valid. done.
Qed.

Lemma reads_parse_loop f rs p :
  good p → length p < f → Forall valid rs →
  reads (parse_loop f rs) p (λ rs' _, Forall valid rs').
Proof.
  revert rs p. induction f as [|f IH]; intros rs p Hg Hf Hrs; [lia|]. simpl. run_lookahead.
  destruct (in_context Values (tok item)); try apply reads_fail; [by apply reads_ret|].
  eapply reads_bind; [by apply reads_requirement|]. intros r p2 (Hr & Hg2 & Hl2).
  assert (Forall valid (rs ++ [r])) as Hrs' by (apply Forall_app; by repeat constructor).
  run_consume p3 item3 Hg3.
  destruct (in_context Values (tok item3)) eqn:Ht3; try apply reads_fail; [by apply reads_ret|].
  specialize (Hg3 ltac:(done)). run_lookahead.
  destruct (decide _); [apply reads_fail|]. apply IH; [done|simpl in *; lia|done].
Qed.

(** ** Lemmas: the lexer takes a byte for every item *)

Lemma id_loop_length s b w l : id_loop s b = (w, l) → length l ≤ length s.
Proof.
  revert b. induction s as [|c s IH]; intros b; simpl; [by intros [= <- <-]|].
  destruct (decide _); [intros [= <- <-]; lia|].
  destruct (_ || _); [intros [= <- <-]; simpl; lia|]. intros Hl%IH. lia.
Qed.

Lemma special_loop_length s b o w o' l : special_loop s b o = (w, o', l) → length l ≤ length s.
Proof.
  revert b o. induction s as [|c s IH]; intros b o; simpl; [by intros [= <- <- <-]|].
  destruct (decide _); [intros [= <- <- <-]; lia|].
  destruct (isSpecialSymbol c); [|intros [= <- <- <-]; simpl; lia].
  destruct (string2token _), o; first [intros Hl%IH; lia | intros [= <- <- <-]; simpl; lia].
Qed.

Lemma string2token_not_end s : string2token s ≠ Some EndOfStringToken.
Proof. unfold string2token. repeat case_decide; done. Qed.

Lemma skipWhiteSpaces_length l : length (skipWhiteSpaces l) ≤ length l.
Proof.
  unfold skipWhiteSpaces. destruct (trim_left_suffix isWhitespace l) as (u & Hu & _).
  rewrite Hu at 2. rewrite length_app. lia.
Qed.

Lemma special_loop_item s b o w o' l item :
  (∀ i, o = Some i → tok i ≠ EndOfStringToken) →
  special_loop s b o = (w, o', l) → o' = Some item → tok item ≠ EndOfStringToken.
Proof.
  revert b o. induction s as [|c s IH]; intros b o Ho; simpl; [intros [= <- <- <-]; auto|].
  destruct (decide _); [intros [= <- <- <-]; auto|].
  destruct (isSpecialSymbol c); [|intros [= <- <- <-]; auto].
  destruct (string2token (b ++ [c])) as [t|] eqn:Ht.
  - apply IH. intros i [= <-]. simpl. intros ->. by apply string2token_not_end in Ht.
  - destruct o; [intros [= <- <- <-]; auto | by apply IH].
Qed.

Lemma special_loop_first c t :
  c ≠ nul → isSpecialSymbol c = true →
  ∃ b o, special_loop (c :: t) [] None = special_loop t b o ∧
    (∀ i, o = Some i → tok i ≠ EndOfStringToken).
Proof.
  intros Hn Hc. cbn [special_loop]. rewrite decide_False, Hc by done.
  destruct (string2token _) as [x|] eqn:Hx; eexists _, _; (split; [done|]); [|done].
  intros i [= <-]. simpl. intros ->. by apply string2token_not_end in Hx.
Qed.

Lemma Lex_progress l item l' :
  Lex l = (item, l') → tok item ≠ EndOfStringToken → length l' < length l.
Proof.
  unfold Lex. pose proof (skipWhiteSpaces_length l) as Hs.
  destruct (skipWhiteSpaces l) as [|c t] eqn:Hl0; [by intros [= <- <-]|].
  destruct (decide _) as [|Hn]; [by intros [= <- <-]|]. simpl in Hs.
  apply trim_left_head in Hl0. destruct (isSpecialSymbol c) eqn:Hc.
  - unfold scanSpecialSymbol. destruct (special_loop_first c t Hn Hc) as (b & o & -> & _).
    destruct (special_loop t b o) as [[w o'] l1] eqn:Hl. apply special_loop_length in Hl.
    destruct o'; intros [= <- <-] _; lia.
  - unfold scanIdOrKeyword. cbn [id_loop]. rewrite decide_False, Hc, Hl0 by done. simpl.
    destruct (id_loop t [c]) as [w l1] eqn:Hl. apply id_loop_length in Hl.
    destruct (string2token w); intros [= <- <-] _; lia.
Qed.

(** More fuel than bytes is enough. *)
Lemma scan_loop_fuel f l : length l < f → scan_loop f l = scan l.
Proof.
  unfold scan. remember (length l) as n eqn:Hn. revert f l Hn.
  induction (lt_wf n) as [n _ IH]. intros [|f] l -> Hf; [lia|]. simpl.
  destruct (Lex l) as [item l'] eqn:Hl. pose proof (Lex_progress _ _ _ Hl) as Hp.
  destruct (tok item); try done; specialize (Hp ltac:(done));
    (f_equal; rewrite (IH (length l')) by (done || lia);
     symmetry; apply (IH (length l')); done || lia).
Qed.

Lemma scan_step l item l' :
  Lex l = (item, l') → tok item ≠ EndOfStringToken → scan l = item :: scan l'.
Proof.
  intros Hl Ht. unfold scan at 1. simpl. rewrite Hl. pose proof (Lex_progress _ _ _ Hl Ht).
  rewrite (scan_loop_fuel (length l)) by done. by destruct (tok item).
Qed.

Lemma scan_end l item l' :
  Lex l = (item, l') → tok item = EndOfStringToken → scan l = [item].
Proof. intros Hl Ht. unfold scan. simpl. by rewrite Hl, Ht. Qed.

Lemma scan_good l : good (scan l).
Proof.
  revert l. apply length_strong_ind. intros l IH.
  destruct (Lex l) as [item l'] eqn:Hl.
  destruct (decide (tok item = EndOfStringToken)) as [Ht|Ht].
  - rewrite (scan_end l item l') by done. simpl. by rewrite decide_True.
  - rewrite (scan_step l item l') by done. simpl. rewrite decide_False by done.
    apply IH. by eapply Lex_progress.
Qed.

Lemma parse_total l : ∃ r, parse l = Return r ∧ ∀ rs, r = Ok rs → Forall valid rs.
Proof.
  unfold parse.
  destruct (reads_parse_loop (S (length (scan l))) [] (scan l)) as (r & p' & -> & Hr);
    [apply scan_good|lia|done|]. by exists r.
Qed.

(** ** Lemmas: the items of a text *)

Definition word_char (c : ascii) : bool :=
  bool_decide (c ≠ nul) && negb (isSpecialSymbol c) && negb (isWhitespace c).
Abbreviation word w := (Forall (λ c, word_char c = true) w).

(** What ends a word. *)
Definition stops (t : str) : Prop :=
  match t with [] => True | c :: _ => isSpecialSymbol c || isWhitespace c = true end.

Definition word_item (w : str) : ScannedItem :=
  mkScannedItem (default IdentifierToken (string2token w)) w.
Definition symbol (t : Token) (s : str) : ScannedItem := mkScannedItem t s.
Abbreviation comma := (symbol CommaToken (lit ",")).

Lemma word_char_spec c :
  word_char c = true → c ≠ nul ∧ isSpecialSymbol c = false ∧ isWhitespace c = false.
Proof.
  unfold word_char. rewrite !andb_true_iff, !negb_true_iff.
  intros [[Hn%bool_decide_eq_true Hs] Hw]. done.
Qed.

Lemma special_not_nul c : isSpecialSymbol c || isWhitespace c = true → c ≠ nul.
Proof. by intros Hc ->. Qed.

Lemma id_loop_word w b t : word w → stops t → id_loop (w ++ t) b = (b ++ w, t).
Proof.
  intros Hw Ht. revert b. induction Hw as [|c w Hc Hw IH]; intros b; simpl.
  - rewrite app_nil_r. destruct t as [|c t]; [done|]. simpl in *.
    rewrite decide_False by (by apply special_not_nul). by rewrite Ht.
  - apply word_char_spec in Hc as (Hn & Hs & Hb). rewrite decide_False, Hs, Hb by done. simpl.
    by rewrite IH, <- app_assoc.
Qed.

Lemma string2token_kind w t :
  string2token w = Some t → (∃ c u, w = c :: u ∧ isSpecialSymbol c = true) ∨ t = InToken ∨ t = NotInToken.
Proof.
  unfold string2token. repeat case_decide; intros [= <-]; subst; auto; left; by eexists _, _.
Qed.

(** A word is an identifier, or one of the two words that are operators. *)
Lemma word_item_tok w : word w → in_context Values (tok (word_item w)) = IdentifierToken.
Proof.
  intros Hw. simpl. destruct (string2token w) as [t|] eqn:Ht; [|done].
  apply string2token_kind in Ht as [(c & u & -> & Hc)|[->| ->]]; [|done..].
  apply Forall_cons_iff in Hw as [(_ & Hs & _)%word_char_spec _]. congruence.
Qed.

Lemma word_item_not_end w : word w → tok (word_item w) ≠ EndOfStringToken.
Proof. intros Hw He. apply word_item_tok in Hw. rewrite He in Hw. done. Qed.

Lemma Lex_word w t : w ≠ [] → word w → stops t → Lex (w ++ t) = (word_item w, t).
Proof.
  intros Hne Hw Ht. destruct w as [|c w]; [done|]. unfold Lex, skipWhiteSpaces.
  pose proof Hw as [(Hn & Hs & Hb)%word_char_spec _]%Forall_cons_iff. cbn [app trim_left].
  rewrite Hb, decide_False, Hs by done. change (c :: w ++ t) with ((c :: w) ++ t).
  unfold scanIdOrKeyword. rewrite id_loop_word by done. simpl. unfold word_item.
  by destruct (string2token (c :: w)).
Qed.

Lemma scan_word w t : w ≠ [] → word w → stops t → scan (w ++ t) = word_item w :: scan t.
Proof. intros. apply scan_step; [by apply Lex_word | by apply word_item_not_end]. Qed.

Lemma scan_space t : scan (" "%char :: t) = scan t.
Proof.
  assert (Lex (" "%char :: t) = Lex t) as Heq by done.
  destruct (Lex t) as [item l'] eqn:Hl.
  destruct (decide (tok item = EndOfStringToken)) as [Ht|Ht].
  - by rewrite (scan_end _ _ _ Heq), (scan_end _ _ _ Hl).
  - by rewrite (scan_step _ _ _ Heq), (scan_step _ _ _ Hl).
Qed.

(** A symbol [u], of the item [i], ends before [t]. *)
Definition ends_symbol (u t : str) : Prop :=
  match t with [] => True | d :: _ => d ≠ nul ∧ string2token (u ++ [d]) = None end.

Lemma special_loop_ends u t i :
  ends_symbol u t → special_loop t u (Some i) = (u, Some i, t) ∨
  ∃ b, special_loop t u (Some i) = (b, Some i, t).
Proof.
  destruct t as [|d t]; [by left|]. intros [Hn Hs]. cbn [special_loop].
  rewrite decide_False by done. destruct (isSpecialSymbol d); [|by left].
  rewrite Hs. right. by eexists.
Qed.

Lemma scan_symbol1 c tk t :
  isSpecialSymbol c = true → string2token [c] = Some tk → ends_symbol [c] t →
  scan (c :: t) = symbol tk [c] :: scan t.
Proof.
  intros Hc Hs Ht. apply scan_step; [|intros He; simpl in He; subst; by apply string2token_not_end in Hs].
  assert (isWhitespace c = false ∧ c ≠ nul) as [Hw Hn].
  { split; [|by intros ->]. revert Hc. by_bytes c. }
  unfold Lex, skipWhiteSpaces. cbn [trim_left]. rewrite Hw, decide_False, Hc by done.
  unfold scanSpecialSymbol. cbn [special_loop]. rewrite decide_False, Hc by done.
  simpl app. rewrite Hs.
  destruct (special_loop_ends [c] t (symbol tk [c]) Ht) as [Hl|[b Hl]];
    unfold symbol in Hl; by rewrite Hl.
Qed.

Lemma string2token_3 s : length s = 3 → string2token s = None.
Proof. unfold string2token. intros Hl. repeat (case_decide; [subst; discriminate Hl|]). done. Qed.

Lemma scan_symbol2 c tk t :
  (c = "="%char ∨ c = "!"%char) → string2token [c; "="%char] = Some tk →
  (∀ d t', t = d :: t' → d ≠ nul) →
  scan (c :: "="%char :: t) = symbol tk [c; "="%char] :: scan t.
Proof.
  intros Hc Hs Ht. apply scan_step; [|intros He; simpl in He; subst; by apply string2token_not_end in Hs].
  assert (ends_symbol [c; "="%char] t) as He.
  { destruct t as [|d t]; [done|]. split; [by eapply Ht | by apply string2token_3]. }
  assert (Lex (c :: "="%char :: t) = scanSpecialSymbol (c :: "="%char :: t)) as -> by
    (by destruct Hc as [-> | ->]).
  assert (∃ o, special_loop (c :: "="%char :: t) [] None = special_loop ("="%char :: t) [c] o)
    as [o Ho] by (destruct Hc as [-> | ->]; [by exists (Some (symbol EqualsToken "="))|by exists None]).
  unfold scanSpecialSymbol. rewrite Ho. cbn [special_loop].
  rewrite decide_False by done. change (isSpecialSymbol "="%char) with true. cbv iota.
  change ([c] ++ ["="%char]) with [c; "="%char]. rewrite Hs.
  destruct (special_loop_ends [c; "="%char] t (symbol tk [c; "="%char]) He) as [Hl|[b Hl]];
    unfold symbol in Hl; destruct o; by rewrite Hl.
Qed.

(** ** Lemmas: the items of a selector *)

Definition opt_item (v : str) : list ScannedItem :=
  match v with [] => [] | _ => [word_item v] end.
Fixpoint list_items (vs : list str) : list ScannedItem :=
  match vs with
  | [] => []
  | [v] => opt_item v
  | v :: vs => opt_item v ++ comma :: list_items vs
  end.

Definition operator_items (op : Operator) (vs : list str) : list ScannedItem :=
  match op with
  | EqualsOperator => symbol EqualsToken "=" :: list_items vs
  | DoubleEqualsOperator => symbol DoubleEqualsToken "==" :: list_items vs
  | NotEqualsOperator => symbol NotEqualsToken "!=" :: list_items vs
  | InOperator => word_item "in" :: symbol OpenParToken "(" :: list_items vs ++ [symbol ClosedParToken ")"]
  | NotInOperator => word_item "notin" :: symbol OpenParToken "(" :: list_items vs ++ [symbol ClosedParToken ")"]
  | _ => []
  end.
Definition requirement_items (r : Requirement) : list ScannedItem :=
  word_item (key r) :: operator_items (operator r) (List_ (strValues r)).

Fixpoint selector_items (sel : LabelSelector) : list ScannedItem :=
  match sel with
  | [] => []
  | [r] => requirement_items r
  | r :: sel => requirement_items r ++ comma :: selector_items sel
  end.

Lemma scan_opt v t : word v → stops t → scan (v ++ t) = opt_item v ++ scan t.
Proof. intros Hv Ht. destruct v as [|c v]; [done|]. by apply scan_word. Qed.

(** What follows a comma is no symbol that goes on with it. *)
Definition no_nul (t : str) : Prop := ∀ d t', t = d :: t' → d ≠ nul.

Lemma comma_ends t : no_nul t → ends_symbol [","%char] t.
Proof.
  destruct t as [|d t]; [done|]. intros Hn. split; [by eapply Hn|].
  unfold string2token. repeat (case_decide as Hd; [discriminate Hd|]). done.
Qed.

Lemma scan_comma t : no_nul t → scan (","%char :: t) = comma :: scan t.
Proof. intros Hn. by apply scan_symbol1; [..|apply comma_ends]. Qed.

Lemma stops_no_nul t : stops t → no_nul t.
Proof. intros Ht d t' ->. by apply special_not_nul. Qed.

Lemma word_no_nul v t : word v → no_nul t → no_nul (v ++ t).
Proof.
  intros Hv Ht d t'. destruct v as [|c v]; [apply Ht|]. intros [= -> _].
  by apply Forall_cons_iff in Hv as [(Hn & _)%word_char_spec _].
Qed.

Lemma join_cons_app sep v vs t :
  join [sep] (v :: vs) ++ t = v ++ match vs with [] => t | _ => sep :: join [sep] vs ++ t end.
Proof. destruct vs; simpl; [done|]. by rewrite <- !app_assoc. Qed.

Lemma list_no_nul vs t : Forall (λ v, word v) vs → stops t → no_nul (join [","%char] vs ++ t).
Proof.
  intros Hvs Ht. destruct Hvs as [|v vs Hv Hvs]; [by apply stops_no_nul|].
  rewrite join_cons_app. apply word_no_nul; [done|]. destruct vs; [by apply stops_no_nul|].
  by intros d t' [= <- _].
Qed.

Lemma scan_list vs t :
  vs ≠ [] → Forall (λ v, word v) vs → stops t →
  scan (join [","%char] vs ++ t) = list_items vs ++ scan t.
Proof.
  intros Hne Hvs Ht. induction Hvs as [|v vs Hv Hvs IH]; [done|]. rewrite join_cons_app.
  destruct vs as [|w vs]; [by apply scan_opt|]. rewrite scan_opt by done.
  rewrite scan_comma by (by apply list_no_nul). rewrite IH by done. cbn [list_items].
  by rewrite <- app_assoc.
Qed.

(** The characters of names are characters of words. *)
Lemma ext_char_word c :
  implb (qname_ext_char c) (word_char c) && implb (dns1123_ext_char c) (word_char c) = true.
Proof. by_bytes c. Qed.

Lemma edged_word edge inner s :
  (∀ c, inner c = true → word_char c = true) → edged edge inner s = true → s ≠ [] ∧ word s.
Proof.
  intros Hi. unfold edged. destruct s as [|c s]; [done|]. destruct (list.last _); [|done].
  rewrite andb_true_iff, forallb_forall. intros [_ Hall]. split; [done|].
  apply Forall_forall. intros x Hx. by apply Hi, Hall.
Qed.

Lemma qname_word s : edged qname_char qname_ext_char s = true → s ≠ [] ∧ word s.
Proof.
  apply edged_word. intros c Hc. pose proof (ext_char_word c) as Hw.
  rewrite Hc in Hw. by apply andb_true_iff in Hw as [Hw _].
Qed.

Lemma dns1123_word s : edged dns1123_char dns1123_ext_char s = true → s ≠ [] ∧ word s.
Proof.
  apply edged_word. intros c Hc. pose proof (ext_char_word c) as Hw.
  rewrite Hc in Hw. by apply andb_true_iff in Hw as [_ Hw].
Qed.

Lemma join_word sep l : word_char sep = true → Forall (λ v, word v) l → word (join [sep] l).
Proof.
  intros Hs Hl. induction Hl as [|v l Hv Hl IH]; [done|].
  rewrite <- (app_nil_r (join _ _)), join_cons_app. apply Forall_app. split; [done|].
  destruct l; [done|]. rewrite app_nil_r. by constructor.
Qed.

Lemma IsQualifiedName_word k : IsQualifiedName k = true → k ≠ [] ∧ word k.
Proof.
  unfold IsQualifiedName. pose proof (join_split "/" k) as Hk.
  assert (∀ name, valid_name name = true → name ≠ [] ∧ word name) as Hname.
  { intros name. unfold valid_name. rewrite !andb_true_iff. intros [_ Hn]. by apply qname_word. }
  destruct (split "/" k) as [|x [|y [|]]]; try done.
  - simpl in Hk. rewrite <- Hk. apply Hname.
  - destruct (bool_decide _); [done|]. simpl orb. destruct (IsDNS1123Subdomain x) eqn:Hx; [|done].
    simpl. intros [_ Hy]%Hname. rewrite <- Hk. split; [by destruct x|]. apply join_word; [done|].
    constructor; [|by repeat constructor]. unfold IsDNS1123Subdomain in Hx.
    apply andb_true_iff in Hx as [_ Hx]. rewrite <- (join_split "." x). apply join_word; [done|].
    apply Forall_forall. intros p Hp. rewrite forallb_forall in Hx.
    by apply dns1123_word, Hx.
Qed.

Lemma IsValidLabelValue_word v : IsValidLabelValue v = true → word v.
Proof.
  unfold IsValidLabelValue. rewrite andb_true_iff, orb_true_iff.
  intros [_ [->%bool_decide_eq_true|Hv]]; [done|]. by apply qname_word.
Qed.

(** What the text of a requirement is made of. *)
Lemma valid_parts r :
  valid r → key r ≠ [] ∧ word (key r) ∧ Forall (λ v, word v) (List_ (strValues r)) ∧
  check_values (operator r) (strValues r) = None.
Proof.
  intros (_ & Hk & Hc & Hv)%NewRequirement_Ok. apply IsQualifiedName_word in Hk as [??].
  split_and!; try done. rewrite List_perm. apply Forall_forall. intros v Hin.
  apply IsValidLabelValue_word, Hv. by apply elem_of_elements, list_elem_of_In.
Qed.

Lemma List_size s : length (List_ s) = size s.
Proof. by rewrite List_perm. Qed.

Lemma operator_values r :
  valid r → match operator r with
    | InOperator | NotInOperator => List_ (strValues r) ≠ []
    | EqualsOperator | DoubleEqualsOperator | NotEqualsOperator => ∃ v, List_ (strValues r) = [v]
    | ExistsOperator => True
    | UnknownOperator _ => False
    end.
Proof.
  intros (_ & _ & _ & Hc)%valid_parts. unfold check_values in Hc. rewrite <- List_size in Hc.
  destruct (List_ (strValues r)) as [|v [|w l]]; destruct (operator r); try done; by eexists.
Qed.

(** What may follow a requirement. *)
Definition follows (t : str) : Prop := t = [] ∨ ∃ t', t = ","%char :: t'.

Lemma follows_stops t : follows t → stops t.
Proof. by intros [->|[t' ->]]. Qed.

Lemma equals_ends v t : word v → follows t → ends_symbol ["="%char] (v ++ t).
Proof.
  intros Hv Ht. destruct v as [|d v]; [by destruct Ht as [->|[t' ->]]|].
  apply Forall_cons_iff in Hv as [(Hn & Hd & _)%word_char_spec _]. split; [done|].
  unfold string2token. repeat (destruct (decide _) as [Hx|_]; [first [discriminate Hx | injection Hx as ->; by vm_compute in Hd]|]). done.
Qed.

Lemma scan_parens vs t :
  vs ≠ [] → Forall (λ v, word v) vs → follows t →
  scan ("("%char :: join [","%char] vs ++ ")"%char :: t) =
  symbol OpenParToken "(" :: list_items vs ++ symbol ClosedParToken ")" :: scan t.
Proof.
  intros Hne Hvs Ht. rewrite (scan_symbol1 _ OpenParToken); [..|].
  - rewrite scan_list by done. rewrite (scan_symbol1 _ ClosedParToken); try done.
    by destruct Ht as [->|[t' ->]].
  - done.
  - done.
  - pose proof (list_no_nul vs (")"%char :: t) Hvs eq_refl) as Hn.
    destruct (join _ vs ++ _) as [|d u]; [done|]. split; [by eapply Hn|].
    unfold string2token. repeat (case_decide as Hd; [discriminate Hd|]). done.
Qed.

Lemma scan_set_operator w vs t :
  w ≠ [] → word w → vs ≠ [] → Forall (λ v, word v) vs → follows t →
  scan (" "%char :: w ++ " "%char :: "("%char :: join [","%char] vs ++ ")"%char :: t) =
  word_item w :: symbol OpenParToken "(" :: list_items vs ++ symbol ClosedParToken ")" :: scan t.
Proof. intros. by rewrite scan_space, scan_word, scan_space, scan_parens. Qed.

Lemma scan_requirement r t :
  valid r → follows t → scan (Requirement_String r ++ t) = requirement_items r ++ scan t.
Proof.
  intros Hr Ht. pose proof (operator_values r Hr) as Hop.
  apply valid_parts in Hr as (Hne & Hk & Hvs & _). pose proof (follows_stops t Ht) as Hst.
  unfold Requirement_String, requirement_items. set (vs := List_ (strValues r)) in *.
  assert (∀ t', stops t' → scan (key r ++ t') = word_item (key r) :: scan t') as Hkey.
  { intros t' Ht'. by apply scan_word. }
  destruct (operator r); cbn [operator_text operator_items]; try done;
    try (destruct Hop as [v ->]; apply Forall_cons_iff in Hvs as [Hv _]);
    rewrite <- ?app_assoc, Hkey by done; cbn [app lit]; rewrite <- ?app_assoc; cbn [app]; f_equal.
  - rewrite (scan_symbol1 _ EqualsToken); [|done..|by apply equals_ends].
    cbn [join list_items]. by rewrite scan_opt.
  - rewrite (scan_symbol2 _ DoubleEqualsToken); [|by left|done|by apply word_no_nul, stops_no_nul].
    cbn [join list_items]. by rewrite scan_opt.
  - apply (scan_set_operator "in"); [done|by repeat constructor|done..].
  - rewrite (scan_symbol2 _ NotEqualsToken); [|by right|done|by apply word_no_nul, stops_no_nul].
    cbn [join list_items]. by rewrite scan_opt.
  - apply (scan_set_operator "notin"); [done|by repeat constructor|done..].
Qed.

Lemma Requirement_String_head r : valid r → ∃ c u, Requirement_String r = c :: u ∧ c ≠ nul.
Proof.
  intros (Hne & Hk & _)%valid_parts. unfold Requirement_String. destruct (key r) as [|c k]; [done|].
  apply Forall_cons_iff in Hk as [(Hn & _)%word_char_spec _].
  destruct (operator r); eexists _, _; (split; [done|exact Hn]).
Qed.

Lemma scan_selector sel :
  Forall valid sel → scan (String sel) = selector_items sel ++ [symbol EndOfStringToken []].
Proof.
  unfold String. induction 1 as [|r sel Hr Hsel IH]; [done|]. rewrite fmap_cons.
  rewrite <- (app_nil_r (join _ _)), join_cons_app. destruct Hsel as [|r' sel Hr' Hsel].
  - by rewrite scan_requirement by (done || by left).
  - rewrite fmap_cons in *. rewrite scan_requirement by (done || (right; by eexists)).
    rewrite app_nil_r, scan_comma, IH.
    + cbn [selector_items]. by rewrite <- app_assoc.
    + destruct (Requirement_String_head r' Hr') as (c & u & Hu & Hn).
      rewrite <- (app_nil_r (join _ _)), join_cons_app, Hu. by intros d t' [= <- _].
Qed.

(** ** Lemmas: the parser on the items of a selector *)

Lemma consume_cons c i p : consume c (i :: p) = Return (Ok (in_context c (tok i), literal i), p).
Proof. done. Qed.
Lemma lookahead_cons c i p : lookahead c (i :: p) = Return (Ok (in_context c (tok i), literal i), i :: p).
Proof. done. Qed.

Lemma parser_bind_Ok {A B} (m : parser A) (k : A → parser B) p p' a :
  m p = Return (Ok a, p') → (m ≫= k) p = k a p'.
Proof. intros Hm. unfold mbind, parser_bind. by rewrite Hm. Qed.

Lemma in_context_symbol c t s :
  t ≠ InToken → t ≠ NotInToken → in_context c (tok (symbol t s)) = t.
Proof. by destruct c, t. Qed.

(** The next step of a parser: a word, or a symbol. *)
Ltac parse_step :=
  erewrite parser_bind_Ok by (first [apply consume_cons | apply lookahead_cons]); cbv beta iota;
  rewrite ?word_item_tok by done; rewrite ?in_context_symbol by done; cbn [symbol literal word_item].

Lemma list_items_head v ws p :
  v ≠ [] → ∃ q, list_items (v :: ws) ++ p = word_item v :: q.
Proof. destruct v as [|c v]; [done|]. intros _. destruct ws; by eexists. Qed.

Lemma Insert_not_empty s w : size (Insert s [w]) ≠ 0.
Proof. rewrite size_non_empty_iff. intros He. apply (not_elem_of_empty (C := strings) w). rewrite <- He.
  apply elem_of_Insert. left. by left. Qed.

(** A list of words that are not empty is read as their set. *)
Lemma identifiers_words f s w ws p :
  Forall (λ v, word v) (w :: ws) → Forall (λ v, v ≠ []) (w :: ws) → 2 * length ws < f →
  identifiers_loop f s (list_items (w :: ws) ++ symbol ClosedParToken ")" :: p) =
  Return (Ok (Insert s (w :: ws)), symbol ClosedParToken ")" :: p).
Proof.
  revert f s w. induction ws as [|v ws IH]; intros f s w [Hw Hws]%Forall_cons_iff [Hwne Hne]%Forall_cons_iff Hf.
  - destruct f as [|f]; [simpl in *; lia|]. destruct w as [|c w]; [done|]. cbn [list_items opt_item app].
    cbn [identifiers_loop]. parse_step. parse_step. done.
  - destruct f as [|[|f]]; [simpl in *; lia..|].
    change (list_items (w :: v :: ws)) with (opt_item w ++ comma :: list_items (v :: ws)).
    destruct w as [|c w]; [done|]. cbn [opt_item app identifiers_loop].
    parse_step. parse_step. parse_step. rewrite decide_False by apply Insert_not_empty.
    pose proof Hne as [Hv _]%Forall_cons_iff. pose proof Hws as [Hvw _]%Forall_cons_iff.
    destruct (list_items_head v ws (symbol ClosedParToken ")" :: p) Hv) as [q Hq].
    rewrite Hq. parse_step. rewrite <- Hq. rewrite IH by (done || (simpl in *; lia)). done.
Qed.

(** The strings of a set in order: the empty one comes first. *)
Lemma List_empty_first s :
  Forall (λ v, v ≠ []) (List_ s) ∨ ∃ ws, List_ s = [] :: ws ∧ Forall (λ v, v ≠ []) ws.
Proof.
  pose proof (sort_strings_sorted (elements s)) as Hs.
  assert (NoDup (List_ s)) as Hnd by (rewrite List_perm; apply NoDup_elements).
  unfold List_ in *. destruct Hs as [|v ws Hs Hv]; [by left|].
  apply list.NoDup_cons in Hnd as [Hnin Hnd].
  destruct (decide (v = [])) as [->|Hne].
  - right. exists ws. split; [done|]. apply Forall_forall. intros w Hw ->.
    by apply Hnin, list_elem_of_In.
  - left. constructor; [done|]. eapply list.Forall_impl; [exact Hv|]. intros w Hw ->.
    by destruct v.
Qed.

Lemma length_list_items vs : length vs ≤ S (length (list_items vs)).
Proof.
  induction vs as [|v [|w vs] IH]; [simpl; lia..|].
  change (list_items (v :: w :: vs)) with (opt_item v ++ comma :: list_items (w :: vs)).
  rewrite length_app. simpl length in *. lia.
Qed.

Lemma length_list_items_words v vs :
  Forall (λ v, v ≠ []) (v :: vs) → length (list_items (v :: vs)) = S (2 * length vs).
Proof.
  revert v. induction vs as [|w vs IH]; intros v [Hv Hvs]%Forall_cons_iff; (destruct v; [done|]); [done|].
  change (list_items ((?a :: ?v) :: w :: vs)) with (word_item (a :: v) :: comma :: list_items (w :: vs)).
  cbn [length]. rewrite IH by done. simpl. lia.
Qed.

Lemma parse_values_items s p :
  List_ s ≠ [] → Forall (λ v, word v) (List_ s) →
  parseValues (symbol OpenParToken "(" :: list_items (List_ s) ++ symbol ClosedParToken ")" :: p) =
  Return (Ok s, p).
Proof.
  intros Hne Hw. rewrite <- (NewString_List s) at 2. unfold parseValues. parse_step.
  rewrite decide_False by (intros Hn; by apply Hn).
  destruct (List_empty_first s) as [Hall|(ws & Hl & Hall)].
  - destruct (List_ s) as [|v vs]; [done|]. pose proof Hall as [Hv _]%Forall_cons_iff.
    pose proof Hw as [Hvw _]%Forall_cons_iff.
    destruct (list_items_head v vs (symbol ClosedParToken ")" :: p) Hv) as [q Hq].
    rewrite Hq. parse_step. rewrite <- Hq. erewrite parser_bind_Ok; cycle 1.
    { apply identifiers_words; [done..|]. rewrite length_app, length_list_items_words by done. lia. }
    parse_step. done.
  - rewrite Hl in *. apply Forall_cons_iff in Hw as [_ Hw]. destruct ws as [|v vs].
    { cbn [list_items opt_item app]. parse_step. parse_step. done. }
    change (list_items ([] :: v :: vs)) with (comma :: list_items (v :: vs)). cbn [app]. parse_step.
    pose proof Hall as [Hv _]%Forall_cons_iff. pose proof Hw as [Hvw _]%Forall_cons_iff.
    destruct (list_items_head v vs (symbol ClosedParToken ")" :: p) Hv) as [q Hq].
    erewrite parser_bind_Ok; cycle 1.
    { unfold parseIdentifiersList. cbn [length].
      set (f := S (length (list_items (v :: vs) ++ _))).
      assert (2 * length vs < f) as Hf
        by (subst f; rewrite length_app, length_list_items_words by done; lia).
      clearbody f. cbn [identifiers_loop]. parse_step. rewrite Hq. parse_step.
      rewrite decide_True by done. rewrite <- Hq. by apply identifiers_words. }
    parse_step. done.
Qed.

(** The item after a requirement. *)
Definition follow_item (i : ScannedItem) : Prop :=
  ∃ t s, i = symbol t s ∧ (t = EndOfStringToken ∨ t = CommaToken).

Lemma follow_end : follow_item (symbol EndOfStringToken []).
Proof. exists EndOfStringToken, []. auto. Qed.
Lemma follow_comma : follow_item comma.
Proof. exists CommaToken, (lit ","). auto. Qed.
#[local] Hint Resolve follow_end follow_comma : core.

Lemma parse_exact_items v i p :
  word v → follow_item i →
  parseExactValue (opt_item v ++ i :: p) = Return (Ok (NewString [v]), i :: p).
Proof.
  intros Hv (t & s & -> & Ht). unfold parseExactValue. destruct v as [|c v]; cbn [opt_item app].
  - erewrite parser_bind_Ok by apply lookahead_cons. cbv beta iota.
    rewrite in_context_symbol by (destruct Ht as [-> | ->]; done). by rewrite decide_True.
  - parse_step. rewrite decide_False by (by intros [|]). parse_step. by rewrite decide_True.
Qed.

Lemma validateLabelKey_valid r : valid r → validateLabelKey (key r) = None.
Proof. intros (_ & Hk & _)%NewRequirement_Ok. unfold validateLabelKey. by rewrite Hk. Qed.

Lemma parse_key_items k t p i q :
  word k → validateLabelKey k = None → p = i :: q →
  in_context Values (tok i) = t →
  parseKeyAndInferOperator (word_item k :: p) =
  Return (Ok (k, if decide (t = EndOfStringToken ∨ t = CommaToken) then Some ExistsOperator else None), p).
Proof.
  intros Hk Hv -> <-. unfold parseKeyAndInferOperator. parse_step.
  rewrite decide_False by (intros Hn; by apply Hn). rewrite Hv. by parse_step.
Qed.

(** After the key, an operator and its values. *)
Lemma parse_requirement_operator k op vals i q p1 p2 r :
  word k → validateLabelKey k = None →
  in_context Values (tok i) ≠ EndOfStringToken → in_context Values (tok i) ≠ CommaToken →
  parseOperator (i :: q) = Return (Ok op, p1) →
  (match op with
   | InOperator | NotInOperator => parseValues
   | EqualsOperator | DoubleEqualsOperator | NotEqualsOperator => parseExactValue
   | _ => mret ∅
   end) p1 = Return (Ok vals, p2) →
  NewRequirement k op vals = Ok r →
  parseRequirement (word_item k :: i :: q) = Return (Ok r, p2).
Proof.
  intros Hk Hv H1 H2 Hop Hvals Hr. unfold parseRequirement.
  erewrite parser_bind_Ok by (by eapply parse_key_items). cbv beta iota.
  rewrite decide_False by tauto. erewrite parser_bind_Ok by exact Hop.
  erewrite parser_bind_Ok by exact Hvals. unfold lift. by rewrite Hr.
Qed.

(** What the text of a requirement keeps: the values of an operator without
    values are not written. *)
Definition written (r : Requirement) : Requirement :=
  match operator r with
  | ExistsOperator => mkRequirement (key r) ExistsOperator ∅
  | _ => r
  end.

Lemma written_key r : key (written r) = key r.
Proof. unfold written. by destruct (operator r). Qed.

Lemma written_Matches r ls : Requirement_Matches (written r) ls = Requirement_Matches r ls.
Proof. unfold written, Requirement_Matches. by destruct (operator r) eqn:Ho; simpl; rewrite ?Ho. Qed.

Lemma parse_requirement_items r i p :
  valid r → follow_item i →
  parseRequirement (requirement_items r ++ i :: p) = Return (Ok (written r), i :: p).
Proof.
  intros Hr Hi. pose proof (operator_values r Hr) as Hop. pose proof (validateLabelKey_valid r Hr) as Hkey.
  pose proof (valid_parts r Hr) as (_ & Hk & Hvs & _).
  assert (∀ v, List_ (strValues r) = [v] → word v ∧ NewString [v] = strValues r) as Hone.
  { intros v Hl. rewrite Hl in Hvs. split; [by apply Forall_cons_iff in Hvs as [? _]|].
    by rewrite <- (NewString_List (strValues r)), Hl. }
  unfold requirement_items, written. unfold valid in Hr.
  destruct (operator r) eqn:Ho; cbn [operator_items app]; try done; rewrite <- ?app_assoc.
  1, 2, 4: destruct Hop as [v Hop]; destruct (Hone v Hop) as [Hv Hs]; rewrite Hop; rewrite <- Hs in Hr.
  - by eapply (parse_requirement_operator _ EqualsOperator); [..|by apply parse_exact_items|].
  - by eapply (parse_requirement_operator _ DoubleEqualsOperator); [..|by apply parse_exact_items|].
  - by eapply (parse_requirement_operator _ NotEqualsOperator); [..|by apply parse_exact_items|].
  - by eapply (parse_requirement_operator _ InOperator); [..|by apply parse_values_items|].
  - by eapply (parse_requirement_operator _ NotInOperator); [..|by apply parse_values_items|].
  - destruct Hi as (t & s & -> & Ht). unfold parseRequirement.
    erewrite parser_bind_Ok by (by eapply parse_key_items). cbv beta iota.
    rewrite in_context_symbol by (destruct Ht as [-> | ->]; done). rewrite decide_True by done.
    unfold lift. do 3 f_equal. apply NewRequirement_Ok in Hr as (_ & Hq & _).
    by rewrite NewRequirement_valid.
Qed.

Lemma parse_selector_items f acc sel :
  Forall valid sel → length sel < f →
  parse_loop f acc (selector_items sel ++ [symbol EndOfStringToken []]) =
  Return (Ok (acc ++ (written <$> sel)), match sel with [] => [symbol EndOfStringToken []] | _ => [] end).
Proof.
  revert f acc. induction sel as [|r sel IH]; intros f acc Hsel Hf; (destruct f as [|f]; [simpl in *; lia|]).
  { simpl. by rewrite app_nil_r. }
  apply Forall_cons_iff in Hsel as [Hr Hsel]. pose proof (valid_parts r Hr) as (_ & Hk & _).
  assert (∀ p, ∃ q, requirement_items r ++ p = word_item (key r) :: q) as Hhead by (by eexists).
  destruct sel as [|r' sel].
  - cbn [selector_items]. destruct (Hhead [symbol EndOfStringToken []]) as [q Hq]. cbn [parse_loop]. rewrite Hq. parse_step.
    rewrite <- Hq. erewrite parser_bind_Ok by (by apply parse_requirement_items).
    parse_step. done.
  - change (selector_items (r :: r' :: sel)) with
      (requirement_items r ++ comma :: selector_items (r' :: sel)).
    rewrite <- app_assoc. cbn [app].
    set (rest := selector_items (r' :: sel) ++ [symbol EndOfStringToken []]).
    destruct (Hhead (comma :: rest)) as [q Hq]. cbn [parse_loop]. rewrite Hq. parse_step.
    rewrite <- Hq. erewrite parser_bind_Ok by (by apply parse_requirement_items).
    parse_step.
    assert (∃ q', rest = word_item (key r') :: q') as [q' Hq'].
    { subst rest. destruct sel; by eexists. }
    pose proof Hsel as [(_ & Hk' & _)%valid_parts _]%Forall_cons_iff.
    rewrite Hq'. parse_step. rewrite decide_False by (intros Hn; by apply Hn). rewrite <- Hq'.
    rewrite IH by (done || (simpl in *; lia)). rewrite fmap_cons. by rewrite <- app_assoc.
Qed.

(** ** Lemmas: selectors made from labels *)

Lemma Matches_perm sel sel' ls : sel ≡ₚ sel' → Matches sel ls = Matches sel' ls.
Proof.
  unfold Matches. induction 1 as [|r l l' _ IH|r r' l|l l' l'' _ IH1 _ IH2]; simpl; [done|by rewrite IH| |congruence].
  by rewrite !andb_assoc, (andb_comm (Requirement_Matches _ _)).
Qed.

Lemma Matches_written sel ls : Matches (written <$> sel) ls = Matches sel ls.
Proof. induction sel as [|r sel IH]; [done|]. simpl. by rewrite written_Matches, <- IH. Qed.

(** A label that a selector can be made from. *)
Definition label_ok (kv : str * str) : Prop :=
  IsQualifiedName kv.1 = true ∧ IsValidLabelValue kv.2 = true.

#[global] Instance label_ok_dec kv : Decision (label_ok kv).
Proof. unfold label_ok. apply _. Defined.

Definition equals (kv : str * str) : Requirement := mkRequirement kv.1 EqualsOperator (NewString [kv.2]).

Lemma equals_ok kv :
  label_ok kv → NewRequirement kv.1 EqualsOperator (NewString [kv.2]) = Ok (equals kv).
Proof.
  intros [Hk Hv]. apply NewRequirement_valid; [done| |].
  - unfold check_values. rewrite decide_False; [done|]. intros Hn. apply Hn.
    change (NewString [kv.2]) with ({[kv.2]} ∪ ∅ : strings). by rewrite (right_id_L ∅ (∪)), size_singleton.
  - intros v Hv'%elem_of_NewString. by apply list_elem_of_singleton in Hv' as ->.
Qed.

Lemma requirements_of_ok l : Forall label_ok l → requirements_of l = Ok (equals <$> l).
Proof.
  induction 1 as [|[k v] l Hkv Hl IH]; [done|]. cbn [requirements_of].
  pose proof (equals_ok (k, v) Hkv) as He. simpl in He. rewrite He, IH. done.
Qed.

Lemma requirements_of_bad l : ¬ Forall label_ok l → ∃ e, requirements_of l = Err e.
Proof.
  induction l as [|[k v] l IH]; intros Hn; [by destruct Hn|]. cbn [requirements_of].
  destruct (NewRequirement k _ _) as [r|e] eqn:Hr; [|by eexists].
  destruct IH as [e He]; [|rewrite He; by eexists].
  intros Hl. apply Hn. constructor; [|done]. apply NewRequirement_Ok in Hr as (_ & Hk & _ & Hv).
  split; [done|]. apply Hv, elem_of_NewString. by left.
Qed.

Lemma equals_Matches kv ls : Requirement_Matches (equals kv) ls = bool_decide (ls !! kv.1 = Some kv.2).
Proof.
  unfold Requirement_Matches, Labels_Has, Labels_Get. simpl.
  destruct (ls !! kv.1) as [v|] eqn:Hv; simpl; [|done].
  unfold Has. apply bool_decide_ext. rewrite elem_of_NewString, list_elem_of_singleton. naive_solver.
Qed.

(** ** Properties *)

(** the parser of selectors is total and its results are valid: on every
    text, [Parse] returns a selector or an error and never reads past its
    items, and each requirement of a selector it returns is one the
    constructor accepts: its key and values are well-formed, and it has as
    many values as its operator takes. *)
Theorem selector_Parse_returns sort s :
  (∀ l, sort l ≡ₚ l) →
  ∃ r, Parse sort s = Return r ∧ ∀ sel, r = Ok sel → Forall valid sel.
Proof.
  intros Hsort. destruct (parse_total s) as (r & Hr & Hv). unfold Parse. rewrite Hr.
  eexists. split; [done|]. intros sel Hsel. destruct r as [rs|e]; [|done].
  injection Hsel as <-. rewrite Hsort. by apply Hv.
Qed.


(** a selector made from labels matches exactly the sets that contain
    them, in whatever order the map is walked; but when one of the labels is
    not well-formed it matches every set, not none. *)
Theorem SelectorFromSet_spec order ls l :
  (∀ m, order m ≡ₚ map_to_list m) →
  (Forall label_ok (map_to_list ls) →
     Matches (SelectorFromSet order (Some ls)) l = true ↔ ls ⊆ l) ∧
  (¬ Forall label_ok (map_to_list ls) → Matches (SelectorFromSet order (Some ls)) l = true).
Proof.
  intros Hord. unfold SelectorFromSet. split; intros Hok; rewrite <- (Hord ls) in Hok.
  - rewrite requirements_of_ok by done. unfold Matches. rewrite forallb_forall, map_subseteq_spec.
    setoid_rewrite <- list_elem_of_In. split.
    + intros Hall k v Hkv. assert (equals (k, v) ∈ equals <$> order ls) as Hin.
      { apply list_elem_of_fmap_2. rewrite Hord. by apply elem_of_map_to_list. }
      apply Hall in Hin. rewrite equals_Matches in Hin. by apply bool_decide_eq_true in Hin.
    + intros Hsub r Hr. apply list_elem_of_fmap in Hr as ([k v] & -> & Hin).
      rewrite equals_Matches. apply bool_decide_eq_true. rewrite Hord in Hin.
      by apply Hsub, elem_of_map_to_list.
  - by destruct (requirements_of_bad _ Hok) as [e ->].
Qed.

(** a byte 0 is taken for the end: a text that starts with one is read as
    the selector without requirements, whatever follows, and matches
    everything. *)
Theorem Parse_nul sort s :
  (∀ l, sort l ≡ₚ l) →
  ∃ sel, Parse sort (nul :: s) = Return (Ok sel) ∧ ∀ ls, Matches sel ls = true.
Proof.
  intros Hsort. eexists. split; [done|]. intros ls.
  by rewrite (Matches_perm _ [] ls (Hsort [])).
Qed.

(** ** Witnesses *)

(** The order of [sort.Sort] on short lists. *)
Fixpoint insert_by_key (r : Requirement) (l : LabelSelector) : LabelSelector :=
  match l with
  | [] => [r]
  | x :: t => if str_ltb (key r) (key x) then r :: l else x :: insert_by_key r t
  end.
Definition sort_by_key (l : LabelSelector) : LabelSelector := foldl (λ l r, insert_by_key r l) [] l.

Lemma insert_by_key_perm r l : insert_by_key r l ≡ₚ r :: l.
Proof.
  induction l as [|x l IH]; simpl; [done|]. destruct (str_ltb _ _); [done|].
  rewrite IH. apply Permutation_swap.
Qed.

Lemma sort_by_key_perm l : sort_by_key l ≡ₚ l.
Proof.
  unfold sort_by_key. assert (∀ acc, foldl (λ l r, insert_by_key r l) acc l ≡ₚ acc ++ l) as Hl; [|apply Hl].
  induction l as [|r l IH]; intros acc; simpl; [by rewrite app_nil_r|].
  rewrite IH, insert_by_key_perm. apply Permutation_middle.
Qed.

Definition demo_selector : LabelSelector :=
  [mkRequirement (lit "k8s.io/x") InOperator (NewString [[]; lit "in"; lit "a"]);
   mkRequirement (lit "in") NotEqualsOperator (NewString [lit "b"])].

Lemma selector_Parse_returns_witness :
  ∃ sel, Parse sort_by_key (lit "x in (a,b), y!=c") = Return (Ok sel) ∧ Forall valid sel ∧
    length sel = 2.
Proof.
  destruct (selector_Parse_returns sort_by_key (lit "x in (a,b), y!=c") sort_by_key_perm) as (r & Hr & Hv).
  assert (∃ sel, r = Ok sel ∧ length sel = 2) as (sel & -> & Hl).
  { vm_compute in Hr. injection Hr as <-. eexists. split; reflexivity. }
  exists sel. split; [exact Hr|]. split; [by apply Hv|exact Hl].
Defined.


Lemma SelectorFromSet_spec_witness :
  Matches (SelectorFromSet map_to_list (Some {[lit "app" := lit "web"]}))
    {[lit "app" := lit "web"; lit "x" := lit "y"]} = true ∧
  Matches (SelectorFromSet map_to_list (Some {[lit "not a name" := lit "web"]})) ∅ = true.
Proof.
  split.
  - destruct (SelectorFromSet_spec map_to_list {[lit "app" := lit "web"]}
      {[lit "app" := lit "web"; lit "x" := lit "y"]}) as [Hm _]; [done|].
    apply Hm; apply (bool_decide_unpack _); vm_compute; exact I.
  - destruct (SelectorFromSet_spec map_to_list {[lit "not a name" := lit "web"]} ∅) as [_ Hm]; [done|].
    apply Hm. apply (bool_decide_unpack _). vm_compute. exact I.
Defined.

Lemma Parse_nul_witness :
  ∃ sel, Parse sort_by_key (nul :: lit "app in (web)") = Return (Ok sel) ∧
    ∀ ls, Matches sel ls = true.
Proof. apply (Parse_nul sort_by_key (lit "app in (web)") sort_by_key_perm). Defined.
