(* ===== verification/Fields.v ===== *)
(** * Field selectors (k8s.io/kubernetes/pkg/fields)

    A selector compares fields of an object with values; a field that is not
    there compares as the empty string.  Selectors are printed and parsed, and
    transformed field by field, as the request does before it sends one. *)

From S2P Require Import Prelude GoStr.

Local Open Scope go_scope.

(** ** Fields (fields.go) *)

Abbreviation FieldSet := (gmap str str).
Definition Fields_Has (ls : FieldSet) (field : str) : bool := bool_decide (is_Some (ls !! field)).
Definition Fields_Get (ls : FieldSet) (field : str) : str := default [] (ls !! field).
Definition FieldSet_String (ls : FieldSet) : str :=
  join [","%char] (sort_strings ((λ '(key, value), key ++ "="%char :: value) <$> map_to_list ls)).

(** ** Selectors (selector.go) *)

#[warnings="-register-all"]
Inductive Selector :=
  | hasTerm (field value : str)
  | notHasTerm (field value : str)
  | andTerm (terms : list Selector).

Definition Everything : Selector := andTerm [].

(** The methods of the two terms that compare a field. *)
Definition hasTerm_Matches (field value : str) (ls : FieldSet) : bool :=
  bool_decide (Fields_Get ls field = value).
Definition hasTerm_RequiresExactMatch (t_field value field : str) : option str :=
  if decide (t_field = field) then Some value else None.
Definition hasTerm_String (field value : str) : str := field ++ "="%char :: value.
Definition notHasTerm_Matches (field value : str) (ls : FieldSet) : bool :=
  bool_decide (Fields_Get ls field ≠ value).
Definition notHasTerm_String (field value : str) : str := field ++ "!"%char :: "="%char :: value.

Fixpoint Matches (t : Selector) (ls : FieldSet) : bool :=
  match t with
  | hasTerm field value => hasTerm_Matches field value ls
  | notHasTerm field value => notHasTerm_Matches field value ls
  | andTerm ts => forallb (λ q, Matches q ls) ts
  end.

Fixpoint Empty (t : Selector) : bool :=
  match t with
  | hasTerm _ _ | notHasTerm _ _ => false
  | andTerm ts => forallb Empty ts
  end.

(** The value, and whether there is one. *)
Fixpoint RequiresExactMatch (t : Selector) (field : str) : option str :=
  match t with
  | hasTerm f value => hasTerm_RequiresExactMatch f value field
  | notHasTerm _ _ => None
  | andTerm ts =>
      (fix first (ts : list Selector) : option str :=
         match ts with
         | [] => None
         | q :: ts =>
             match RequiresExactMatch q field with
             | Some value => Some value
             | None => first ts
             end
         end) ts
  end.

Fixpoint Selector_String (t : Selector) : str :=
  match t with
  | hasTerm field value => hasTerm_String field value
  | notHasTerm field value => notHasTerm_String field value
  | andTerm ts => join [","%char] (map Selector_String ts)
  end.

(** [TransformFunc], with errors of any type. *)
Section transform.
Context {E : Type} (fn : str → str → result E (str * str)).

Definition hasTerm_Transform (field value : str) : result E Selector :=
  '(field, value) ← fn field value; mret (hasTerm field value).
Definition notHasTerm_Transform (field value : str) : result E Selector :=
  '(field, value) ← fn field value; mret (notHasTerm field value).

Fixpoint Transform (t : Selector) : result E Selector :=
  match t with
  | hasTerm field value => hasTerm_Transform field value
  | notHasTerm field value => notHasTerm_Transform field value
  | andTerm ts =>
      next ← (fix each (ts : list Selector) : result E (list Selector) :=
        match ts with
        | [] => mret []
        | s :: ts => n ← Transform s; next ← each ts; mret (n :: next)
        end) ts;
      mret (andTerm next)
  end.
End transform.

(** [SelectorFromSet], with the fields in the order the loop takes them. *)
Definition SelectorFromSet (order : FieldSet → list (str * str)) (ls : option FieldSet) : Selector :=
  match ls with
  | None => Everything
  | Some ls =>
      let items := (λ '(field, value), hasTerm field value) <$> order ls in
      match items with [item] => item | _ => andTerm items end
  end.

(** [strings.Split] by an operator. *)
Fixpoint cut (op s : str) : option (str * str) :=
  if has_prefix op s then Some ([], drop (length op) s)
  else match s with
       | [] => None
       | c :: t => (λ '(x, y), (c :: x, y)) <$> cut op t
       end.

(** [try]: the two pieces, if there are two. *)
Definition try_op (selectorPiece op : str) : option (str * str) :=
  match cut op selectorPiece with
  | Some (lhs, rhs) => match cut op rhs with None => Some (lhs, rhs) | Some _ => None end
  | None => None
  end.

Inductive parse_error (E : Type) :=
  | InvalidSelector (selector part : str)
  | TransformError (e : E).
Arguments InvalidSelector {E} _ _.
Arguments TransformError {E} _.

Definition parse_part (part : str) : option Selector :=
  match try_op part "!=", try_op part "==", try_op part "=" with
  | Some (lhs, rhs), _, _ => Some (notHasTerm lhs rhs)
  | None, Some (lhs, rhs), _ => Some (hasTerm lhs rhs)
  | None, None, Some (lhs, rhs) => Some (hasTerm lhs rhs)
  | None, None, None => None
  end.

(** The loop over the parts: the items, or the part that is not understood. *)
Fixpoint parse_parts (parts : list str) : result str (list Selector) :=
  match parts with
  | [] => Ok []
  | [] :: parts => parse_parts parts
  | part :: parts =>
      match parse_part part with
      | Some item => (λ items, item :: items) <$> parse_parts parts
      | None => Err part
      end
  end.

Definition parseSelector {E} (selector : str) (fn : str → str → result E (str * str)) :
    result (parse_error E) Selector :=
  match parse_parts (sort_strings (split "," selector)) with
  | Err part => Err (InvalidSelector selector part)
  | Ok items =>
      let t := match items with [item] => item | _ => andTerm items end in
      match Transform fn t with Ok t => Ok t | Err e => Err (TransformError e) end
  end.

Definition ParseSelector (selector : str) : result (parse_error Empty_set) Selector :=
  parseSelector selector (λ lhs rhs, Ok (lhs, rhs)).

Definition OneTermEqualSelector (k v : str) : Selector := hasTerm k v.

Example ParseSelector_demo :
  ParseSelector (lit "x!=a,metadata.name==b,,y=") =
  Ok (andTerm [hasTerm (lit "metadata.name") (lit "b"); notHasTerm (lit "x") (lit "a");
    hasTerm (lit "y") []]).
Proof. vm_compute. reflexivity. Qed.
