(* ===== verification/FieldsSpec.v ===== *)
(** * Properties of field selectors (k8s.io/kubernetes/pkg/fields)

    What a selector matches survives printing and parsing, and transforming
    its fields. *)

From S2P Require Import Prelude GoStr Fields.

Local Open Scope go_scope.

(** ** Induction over nested selectors *)

Section induction.
Variable P : Selector → Prop.
Hypotheses (Hhas : ∀ f v, P (hasTerm f v)) (Hnot : ∀ f v, P (notHasTerm f v)).
Hypothesis Hand : ∀ ts, Forall P ts → P (andTerm ts).

Fixpoint Selector_nested_ind (t : Selector) : P t :=
  match t with
  | hasTerm f v => Hhas f v
  | notHasTerm f v => Hnot f v
  | andTerm ts =>
      Hand ts ((fix each (ts : list Selector) : Forall P ts :=
        match ts with
        | [] => @List.Forall_nil _ P
        | t :: ts => @List.Forall_cons _ P t ts (Selector_nested_ind t) (each ts)
        end) ts)
  end.
End induction.

(** ** Lemmas: matching *)

Lemma Matches_and ts ls : Matches (andTerm ts) ls = true ↔ Forall (λ t, Matches t ls = true) ts.
Proof. simpl. rewrite forallb_forall, Forall_forall. done. Qed.

Lemma Matches_and_perm ts ts' ls : ts ≡ₚ ts' → Matches (andTerm ts) ls = Matches (andTerm ts') ls.
Proof.
  intros Hp. apply eq_true_iff_eq. by rewrite !Matches_and, Hp.
Qed.

(** One term stands for the list of it. *)
Lemma Matches_single items ls :
  Matches match items with [item] => item | _ => andTerm items end ls = Matches (andTerm items) ls.
Proof. destruct items as [|t [|]]; try done. simpl. by rewrite andb_true_r. Qed.

(** ** Lemmas: parsing *)

(** A name or value without the characters of operators. *)
Definition clean_char (c : ascii) : bool := negb (bool_decide (c ∈ ["="%char; "!"%char; ","%char])).
Abbreviation clean s := (Forall (λ c, clean_char c = true) s).

Lemma clean_not_in c s : clean s → clean_char c = false → c ∉ s.
Proof.
  intros Hs Hc Hin. rewrite Forall_forall in Hs. apply list_elem_of_In, Hs in Hin. congruence.
Qed.

Lemma cut_None c op s : c ∉ s → cut (c :: op) s = None.
Proof.
  induction s as [|d s IH]; intros Hn; [done|]. cbn [cut has_prefix].
  rewrite decide_False by set_solver. rewrite IH by set_solver. done.
Qed.

(** The first operator is where its first character is. *)
Lemma cut_app c op f s : c ∉ f → cut (c :: op) (f ++ (c :: op) ++ s) = Some (f, s).
Proof.
  intros Hf. induction f as [|d f IH].
  - assert (has_prefix (c :: op) ((c :: op) ++ s) = true) as Hp by (apply has_prefix_spec; by eexists).
    cbn [app] in *. cbn [cut]. rewrite Hp.
    change (c :: op ++ s) with ((c :: op) ++ s). by rewrite drop_app_length.
  - cbn [app cut has_prefix]. rewrite decide_False by set_solver. cbn [app] in IH.
    rewrite IH by set_solver. done.
Qed.

Lemma cut_other c d s f :
  c ∉ f → c ∉ s → head s ≠ Some d → cut [c; d] (f ++ c :: s) = None.
Proof.
  intros Hf Hs Hh. induction f as [|x f IH]; cbn [app cut has_prefix].
  - rewrite decide_True by done. destruct s as [|y s]; [done|].
    rewrite decide_False by (intros ->; by apply Hh). by rewrite cut_None.
  - rewrite decide_False by set_solver. rewrite IH by set_solver. done.
Qed.

(** The texts of single comparisons. *)
Definition term (t : Selector) : Prop :=
  match t with hasTerm f v | notHasTerm f v => clean f ∧ clean v | andTerm _ => False end.

Lemma parse_part_term t : term t → parse_part (Selector_String t) = Some t.
Proof.
  destruct t as [f v|f v|]; [| |done]; intros [Hf Hv]; unfold parse_part, try_op;
    pose proof (clean_not_in "=" f Hf eq_refl); pose proof (clean_not_in "=" v Hv eq_refl);
    pose proof (clean_not_in "!" f Hf eq_refl); pose proof (clean_not_in "!" v Hv eq_refl); cbn [Selector_String]; unfold hasTerm_String, notHasTerm_String.
  - change (lit "!=") with ["!"%char; "="%char]. rewrite (cut_None "!") by (rewrite elem_of_app, elem_of_cons; naive_solver).
    change (lit "==") with ["="%char; "="%char]. rewrite cut_other; [|done..|].
    + change (lit "=") with ["="%char].
      assert (cut ["="%char] (f ++ "="%char :: v) = Some (f, v)) as -> by (by apply (cut_app "=" [])).
      by rewrite cut_None.
    + destruct v; [done|]. set_solver.
  - change (lit "!=") with ["!"%char; "="%char].
    assert (cut ["!"%char; "="%char] (f ++ "!"%char :: "="%char :: v) = Some (f, v)) as ->
      by (by apply (cut_app "!" ["="%char])).
    by rewrite cut_None.
Qed.

Lemma term_text t : term t → Selector_String t ≠ [] ∧ ","%char ∉ Selector_String t.
Proof.
  destruct t as [f v|f v|]; [| |done]; intros [Hf Hv];
    pose proof (clean_not_in "," f Hf eq_refl); pose proof (clean_not_in "," v Hv eq_refl);
    cbn [Selector_String]; unfold hasTerm_String, notHasTerm_String; (split; [by destruct f|]); rewrite elem_of_app, !elem_of_cons; naive_solver.
Qed.

(** Parts that are the texts of terms, with empty parts between them. *)
Lemma parse_parts_terms ts :
  Forall term ts → parse_parts (Selector_String <$> ts) = Ok ts.
Proof.
  induction 1 as [|t ts Ht Hts IH]; [done|]. rewrite fmap_cons.
  destruct (term_text t Ht) as [Hne _]. pose proof (parse_part_term t Ht) as Hp.
  destruct (Selector_String t) as [|c s]; [done|]. cbn [parse_parts]. by rewrite Hp, IH.
Qed.

(** Sorting the texts sorts the terms. *)
Lemma fmap_perm_inv {A B} (f : A → B) l k :
  k ≡ₚ f <$> l → ∃ l', k = f <$> l' ∧ l' ≡ₚ l.
Proof.
  revert k. induction l as [|x l IH]; intros k Hk.
  - apply Permutation_nil_r in Hk as ->. by exists [].
  - rewrite fmap_cons in Hk. apply Permutation_cons_inv_r in Hk as (k1 & k2 & -> & Hk).
    symmetry in Hk. destruct (IH _ Hk) as (l' & Hl & Hp). symmetry in Hl. apply fmap_app_inv in Hl as (l1 & l2 & -> & -> & ->).
    exists (l1 ++ x :: l2). rewrite fmap_app, fmap_cons. split; [done|]. by rewrite <- Permutation_middle, Hp.
Qed.

Lemma Transform_identity {E} (fn : str → str → result E (str * str)) :
  (∀ f v, fn f v = Ok (f, v)) → ∀ t, Transform fn t = Ok t.
Proof.
  intros Hfn t. induction t as [f v|f v|ts IH] using Selector_nested_ind; cbn [Transform];
    [unfold hasTerm_Transform|unfold notHasTerm_Transform|]; rewrite ?Hfn; [done..|].
  match goal with |- context[?f ts ≫= _] => assert (f ts = Ok ts) as ->; [|done] end.
  induction IH as [|t ts Ht Hts IHs]; [done|]. simpl. by rewrite Ht, IHs.
Qed.

Lemma Transform_id {E} t : Transform (λ f v, Ok (E := E) (f, v)) t = Ok t.
Proof. by apply Transform_identity. Qed.

(** ** Properties *)

(** the text of a field selector reads back: parsing what is printed for
    a list of comparisons, whose fields and values hold none of the characters
    of operators, gives the comparisons again in another order, so it matches
    the same objects. *)
Theorem ParseSelector_String ts :
  Forall term ts →
  ∃ ts', ParseSelector (Selector_String (andTerm ts)) =
      Ok match ts' with [item] => item | _ => andTerm ts' end ∧ ts' ≡ₚ ts ∧
    ∀ ls, Matches match ts' with [item] => item | _ => andTerm ts' end ls = Matches (andTerm ts) ls.
Proof.
  intros Hts. destruct (decide (ts = [])) as [->|Hne]; [by exists []|].
  unfold ParseSelector, parseSelector. cbn [Selector_String].
  rewrite split_join; cycle 1.
  { by destruct ts. }
  { apply Forall_fmap. eapply list.Forall_impl; [exact Hts|]. intros t Ht. by apply term_text. }
  destruct (fmap_perm_inv Selector_String ts _ (sort_strings_perm (map Selector_String ts)))
    as (ts' & -> & Hp).
  exists ts'. rewrite parse_parts_terms by (by rewrite Hp). rewrite Transform_id.
  split_and!; [done..|]. intros ls. rewrite Matches_single. by apply Matches_and_perm.
Qed.

(** a transformation that is faithful keeps the meaning: when every field
    and value becomes one that holds of the new fields exactly if the old one
    held of the old, the whole selector matches as before. *)
Theorem Transform_Matches {E} (fn : str → str → result E (str * str)) ls ls' t t' :
  (∀ f v f' v', fn f v = Ok (f', v') → Fields_Get ls' f' = v' ↔ Fields_Get ls f = v) →
  Transform fn t = Ok t' → Matches t' ls' = Matches t ls.
Proof.
  intros Hfn. revert t'. induction t as [f v|f v|ts IH] using Selector_nested_ind; intros t'; cbn [Transform]; unfold hasTerm_Transform, notHasTerm_Transform.
  - destruct (fn f v) as [[f' v']|] eqn:Hf; [|done]. intros [= <-]. simpl. unfold hasTerm_Matches, notHasTerm_Matches.
    apply bool_decide_ext. by apply Hfn.
  - destruct (fn f v) as [[f' v']|] eqn:Hf; [|done]. intros [= <-]. simpl. unfold hasTerm_Matches, notHasTerm_Matches.
    apply bool_decide_ext. by rewrite (Hfn _ _ _ _ Hf).
  - match goal with |- context[?g ts ≫= _] => set (each := g) end.
    intros (next & Hn & [= <-])%result_bind_Ok. revert next Hn. simpl.
    induction IH as [|t ts Ht Hts IHs]; intros next; simpl; [by intros [= <-]|].
    intros (n & Ht1 & (ns & Ht2 & [= <-])%result_bind_Ok)%result_bind_Ok.
    simpl. by rewrite (Ht _ Ht1), (IHs _ Ht2).
Qed.

(** a selector made from fields matches exactly the objects that have
    their values, an object without the field having the empty one. *)
Theorem SelectorFromSet_Matches order ls l :
  (∀ m, order m ≡ₚ map_to_list m) →
  Matches (SelectorFromSet order (Some ls)) l = true ↔
  (∀ f v, ls !! f = Some v → l !! f = Some v ∨ (l !! f = None ∧ v = [])).
Proof.
  intros Hord. unfold SelectorFromSet. cbv zeta. rewrite Matches_single, Matches_and, Forall_forall.
  assert (∀ f v, (Fields_Get l f = v) ↔ (l !! f = Some v ∨ (l !! f = None ∧ v = []))) as Hget.
  { intros f v. unfold Fields_Get. destruct (l !! f); simpl; naive_solver. }
  setoid_rewrite <- Hget. split.
  - intros Hall f v Hfv. specialize (Hall (hasTerm f v)). simpl in Hall. unfold hasTerm_Matches in Hall.
    rewrite bool_decide_eq_true in Hall. apply Hall.
    apply list_elem_of_In, list_elem_of_fmap. exists (f, v). split; [done|].
    rewrite (Hord ls). by apply elem_of_map_to_list.
  - intros Hall t Ht. apply list_elem_of_In, list_elem_of_fmap in Ht as ([f v] & -> & Hin).
    rewrite (Hord ls) in Hin. apply elem_of_map_to_list in Hin. simpl. unfold hasTerm_Matches.
    apply bool_decide_eq_true. by apply Hall.
Qed.

(** an exact match that is announced holds: when the selector says it
    requires a value of a field, every object it matches has that value. *)
Theorem RequiresExactMatch_sound t field value ls :
  RequiresExactMatch t field = Some value → Matches t ls = true → Fields_Get ls field = value.
Proof.
  revert value. induction t as [f v|f v|ts IH] using Selector_nested_ind; intros value; cbn [RequiresExactMatch]; unfold hasTerm_RequiresExactMatch.
  - case_decide; [|done]. subst. intros [= ->]. simpl. unfold hasTerm_Matches. by intros ?%bool_decide_eq_true.
  - done.
  - intros Hr Hm%Matches_and. induction IH as [|t ts Ht Hts IHs]; [done|].
    apply Forall_cons_iff in Hm as [Hmt Hms].
    destruct (RequiresExactMatch t field) as [x|]; [|by apply IHs].
    injection Hr as ->. by apply Ht.
Qed.

(** ** Witnesses *)

Definition demo_terms : list Selector :=
  [notHasTerm (lit "spec.nodeName") []; hasTerm (lit "metadata.name") (lit "web")].

Lemma ParseSelector_String_witness :
  Selector_String (andTerm demo_terms) = lit "spec.nodeName!=,metadata.name=web" ∧
  ∃ t, ParseSelector (Selector_String (andTerm demo_terms)) = Ok t ∧
    ∀ ls, Matches t ls = Matches (andTerm demo_terms) ls.
Proof.
  split; [vm_compute; reflexivity|].
  destruct (ParseSelector_String demo_terms) as (ts & H1 & _ & H2); [by repeat constructor|].
  by eexists.
Defined.

(** The renaming of a client's field to the name a server knows. *)
Definition demo_fn (f v : str) : result () (str * str) :=
  if decide (f = lit "status.phase") then Ok (lit "phase", v) else Err ().

Lemma Transform_Matches_witness :
  Transform demo_fn (andTerm [notHasTerm (lit "status.phase") (lit "Running")]) =
    Ok (andTerm [notHasTerm (lit "phase") (lit "Running")]) ∧
  Matches (andTerm [notHasTerm (lit "phase") (lit "Running")]) {[lit "phase" := lit "Failed"]} =
  Matches (andTerm [notHasTerm (lit "status.phase") (lit "Running")])
    {[lit "status.phase" := lit "Failed"]}.
Proof.
  assert (Transform demo_fn (andTerm [notHasTerm (lit "status.phase") (lit "Running")]) =
    Ok (andTerm [notHasTerm (lit "phase") (lit "Running")])) as Ht by (vm_compute; reflexivity).
  split; [exact Ht|]. refine (Transform_Matches demo_fn _ _ _ _ _ Ht).
  intros f v f' v'. unfold demo_fn. case_decide; [|done]. subst. by intros [= <- <-].
Defined.

Lemma SelectorFromSet_Matches_witness :
  Matches (SelectorFromSet map_to_list (Some {[lit "f" := []]})) ∅ = true.
Proof.
  apply (SelectorFromSet_Matches map_to_list {[lit "f" := []]}); [done|].
  intros f v Hf. right. split; [apply lookup_empty|].
  apply lookup_singleton_Some in Hf as [_ <-]. done.
Defined.

Lemma RequiresExactMatch_sound_witness :
  RequiresExactMatch (andTerm demo_terms) (lit "metadata.name") = Some (lit "web") ∧
  Fields_Get {[lit "metadata.name" := lit "web"; lit "spec.nodeName" := lit "n"]} (lit "metadata.name") =
    lit "web".
Proof.
  split; [vm_compute; reflexivity|].
  apply (RequiresExactMatch_sound (andTerm demo_terms)); vm_compute; reflexivity.
Defined.
