(* ===== verification/Errors.v ===== *)
(** * Errors of the Kubernetes packages (pkg/util/errors, pkg/util/fielderrors,
      the Status object of pkg/api/unversioned)

    The values of Go's interface [error] that the modelled code makes and
    tells apart: errors that are a text only, validation errors of a field,
    errors that carry a Status of the server, and lists of errors
    (aggregates), which may nest.  A nil error is [None]. *)

From S2P Require Import Prelude GoStr Utf8 Json KubeTypes.

Local Open Scope go_scope.

(** ** [strconv.Quote], as the verb %q prints

    Whether a rune outside ASCII is printable is a parameter. *)

Definition hex_digits (n : nat) (z : Z) : str :=
  (λ i, hex_digit (z / 16 ^ Z.of_nat i mod 16)) <$> reverse (seq 0 n).

Section quote.
Variable printable : Z → bool.

Definition is_print (r : Z) : bool := if (r <? 128)%Z then in_range 32 126 r else printable r.

Definition quote_rune (rb : Z * str) : str :=
  let '(r, bytes) := rb in
  if bad_chunk rb then "\"%char :: "x"%char :: (bytes ≫= λ c, hex_digits 2 (ord c))
  else if decide (r = 34 ∨ r = 92)%Z then ["\"%char; chr r]
  else if is_print r then encode_rune r
  else if decide (r = 7)%Z then lit "\a"
  else if decide (r = 8)%Z then lit "\b"
  else if decide (r = 12)%Z then lit "\f"
  else if decide (r = 10)%Z then lit "\n"
  else if decide (r = 13)%Z then lit "\r"
  else if decide (r = 9)%Z then lit "\t"
  else if decide (r = 11)%Z then lit "\v"
  else if (r <? 32)%Z then lit "\x" ++ hex_digits 2 r
  else if (r <? 65536)%Z then lit "\u" ++ hex_digits 4 r
  else lit "\U" ++ hex_digits 8 r.

Definition Quote (s : str) : str := dquote :: (rune_chunks s ≫= quote_rune) ++ [dquote].
End quote.

(** ** The Status of the server (pkg/api/unversioned/types.go) *)

Record ListMeta := mkListMeta {
  lm_SelfLink : str;
  lm_ResourceVersion : str
}.

Record StatusCause := mkStatusCause {
  cause_Type : str;
  cause_Message : str;
  cause_Field : str
}.

Record StatusDetails := mkStatusDetails {
  details_Name : str;
  details_Kind : str;
  details_Causes : list StatusCause;
  details_RetryAfterSeconds : Z
}.

Record Status := mkStatus {
  st_TypeMeta : TypeMeta;
  st_ListMeta : ListMeta;
  st_Status : str;
  st_Message : str;
  st_Reason : str;
  st_Details : option StatusDetails;
  st_Code : Z
}.

Definition zero_Status : Status :=
  mkStatus zero_TypeMeta (mkListMeta [] []) [] [] [] None 0.

Definition StatusSuccess : str := "Success".
Definition StatusFailure : str := "Failure".

Definition StatusReasonUnknown : str := "".
Definition StatusReasonUnauthorized : str := "Unauthorized".
Definition StatusReasonForbidden : str := "Forbidden".
Definition StatusReasonNotFound : str := "NotFound".
Definition StatusReasonAlreadyExists : str := "AlreadyExists".
Definition StatusReasonConflict : str := "Conflict".
Definition StatusReasonInvalid : str := "Invalid".
Definition StatusReasonServerTimeout : str := "ServerTimeout".
Definition StatusReasonTimeout : str := "Timeout".
Definition StatusReasonBadRequest : str := "BadRequest".
Definition StatusReasonMethodNotAllowed : str := "MethodNotAllowed".
Definition StatusReasonInternalError : str := "InternalError".
Definition StatusReasonServiceUnavailable : str := "ServiceUnavailable".

Definition CauseTypeUnexpectedServerResponse : str := "UnexpectedServerResponse".

(** ** Validation errors (pkg/util/fielderrors)

    A bad value is kept as the text it is printed as. *)

Inductive ValidationErrorType :=
  | TypeNotFound
  | TypeRequired
  | TypeDuplicate
  | TypeInvalid
  | TypeNotSupported
  | TypeForbidden
  | TypeTooLong.

#[global] Instance ValidationErrorType_eq_dec : EqDecision ValidationErrorType.
Proof. solve_decision. Defined.

(** The constant itself, and its method [String]. *)
Definition type_constant (t : ValidationErrorType) : str :=
  match t with
  | TypeNotFound => "FieldValueNotFound"
  | TypeRequired => "FieldValueRequired"
  | TypeDuplicate => "FieldValueDuplicate"
  | TypeInvalid => "FieldValueInvalid"
  | TypeNotSupported => "FieldValueNotSupported"
  | TypeForbidden => "FieldValueForbidden"
  | TypeTooLong => "FieldValueTooLong"
  end.
Definition type_String (t : ValidationErrorType) : str :=
  match t with
  | TypeNotFound => "not found"
  | TypeRequired => "required value"
  | TypeDuplicate => "duplicate value"
  | TypeInvalid => "invalid value"
  | TypeNotSupported => "unsupported value"
  | TypeForbidden => "forbidden"
  | TypeTooLong => "too long"
  end.

Record ValidationError := mkValidationError {
  ve_Type : ValidationErrorType;
  ve_Field : str;
  ve_BadValue : str;
  ve_Detail : str
}.

Definition ErrorBody (v : ValidationError) : str :=
  let s := match ve_Type v with
    | TypeRequired | TypeTooLong => type_String (ve_Type v)
    | _ => type_String (ve_Type v) ++ lit " '" ++ ve_BadValue v ++ lit "'"
    end in
  if decide (length (ve_Detail v) ≠ 0) then s ++ lit ", Details: " ++ ve_Detail v else s.

Definition ValidationError_Error (v : ValidationError) : str := ve_Field v ++ lit ": " ++ ErrorBody v.

Definition NewFieldRequired (field : str) : ValidationError := mkValidationError TypeRequired field [] [].
Definition NewFieldInvalid (field value detail : str) : ValidationError :=
  mkValidationError TypeInvalid field value detail.
Definition NewFieldValueNotSupported (field value : str) (validValues : list str) : ValidationError :=
  mkValidationError TypeNotSupported field value
    (match validValues with [] => [] | _ => lit "supported values: " ++ join ", " validValues end).
Definition NewFieldForbidden (field value : str) : ValidationError :=
  mkValidationError TypeForbidden field value [].
Definition NewFieldDuplicate (field value : str) : ValidationError :=
  mkValidationError TypeDuplicate field value [].
Definition NewFieldNotFound (field value : str) : ValidationError :=
  mkValidationError TypeNotFound field value [].
Definition NewFieldTooLong (field value : str) (maxLength : Z) : ValidationError :=
  mkValidationError TypeTooLong field value
    (lit "must have at most " ++ itoa maxLength ++ lit " characters").

(** ** The interface [error] *)

#[warnings="-register-all"]
Inductive err :=
  | Text (msg : str)
  | Validation (v : ValidationError)
  | StatusError (st : Status)
  | UnexpectedObjectError (object : str)
  | Aggregate (errs : list err).

(** The method [Error]. *)
Fixpoint Error (e : err) : str :=
  match e with
  | Text msg => msg
  | Validation v => ValidationError_Error v
  | StatusError st => st_Message st
  | UnexpectedObjectError object => lit "unexpected object: " ++ object
  | Aggregate errs =>
      match errs with
      | [] => []
      | [e] => Error e
      | e :: errs => "["%char :: Error e ++ (errs ≫= λ e, lit ", " ++ Error e) ++ lit "]"
      end
  end.

(** ** Lists of errors (pkg/util/errors) *)

Definition NewAggregate (errlist : list err) : option err :=
  match errlist with [] => None | _ => Some (Aggregate errlist) end.

Abbreviation Matcher := (err → bool).

Definition matchesError (e : err) (fns : list Matcher) : bool := existsb (λ fn, fn e) fns.

Fixpoint FilterOut (fns : list Matcher) (e : err) : option err :=
  match e with
  | Aggregate errs =>
      NewAggregate ((fix filterErrors (l : list err) : list err :=
        match l with
        | [] => []
        | e :: l =>
            match FilterOut fns e with
            | Some r => r :: filterErrors l
            | None => filterErrors l
            end
        end) errs)
  | _ => if matchesError e fns then None else Some e
  end.

(** [Flatten] of a list that is not nil; its members are not nil either. *)
Fixpoint leaves (e : err) : list err :=
  match e with
  | Aggregate errs => errs ≫= leaves
  | _ => [e]
  end.
Definition Flatten (agg : option (list err)) : option err :=
  match agg with
  | None => None
  | Some errs => NewAggregate (errs ≫= leaves)
  end.

(** [AggregateGoroutines], given the results in the order they arrive. *)
Definition AggregateGoroutines (arrived : list (option err)) : option err :=
  NewAggregate (omap id arrived).

(** ** Lists of validation errors *)

Definition prefix_field (prefix field : str) : str :=
  if has_prefix "[" field then prefix ++ field
  else if decide (length field ≠ 0) then prefix ++ lit "." ++ field
  else prefix.

(** [Prefix]: it panics on an error that is not a validation error. *)
Fixpoint Prefix (prefix : str) (l : list err) : control (list err) :=
  match l with
  | [] => mret []
  | Validation v :: l =>
      l ← Prefix prefix l;
      mret (Validation (mkValidationError (ve_Type v) (prefix_field prefix (ve_Field v))
        (ve_BadValue v) (ve_Detail v)) :: l)
  | _ :: _ => Panic "Programmer error: ValidationErrorList holds non-ValidationError"
  end.
Definition PrefixIndex (index : Z) (l : list err) : control (list err) :=
  Prefix (lit "[" ++ itoa index ++ lit "]") l.

Definition NewValidationErrorTypeMatcher (t : ValidationErrorType) : Matcher := λ e,
  match e with Validation v => bool_decide (ve_Type v = t) | _ => false end.
Definition NewValidationErrorFieldPrefixMatcher (prefix : str) : Matcher := λ e,
  match e with Validation v => has_prefix prefix (ve_Field v) | _ => false end.

Definition Filter (fns : list Matcher) (l : list err) : list err :=
  match NewAggregate l ≫= FilterOut fns with
  | Some (Aggregate errs) => errs
  | _ => []
  end.
