(* ===== verification/ApiErrors.v ===== *)
(** * The errors of the API (k8s.io/kubernetes/pkg/api/errors/errors.go)

    The errors a server reports, the error a client makes up for an answer
    that is no Status, and the predicates that tell them apart. *)

From S2P Require Import Prelude GoStr KubeTypes Errors.

Local Open Scope go_scope.

(** HTTP status codes. *)
Definition HttpBadRequest : Z := 400.
Definition HttpUnauthorized : Z := 401.
Definition HttpForbidden : Z := 403.
Definition HttpNotFound : Z := 404.
Definition HttpMethodNotAllowed : Z := 405.
Definition HttpConflict : Z := 409.
Definition StatusUnprocessableEntity : Z := 422.
Definition StatusTooManyRequests : Z := 429.
Definition HttpInternalServerError : Z := 500.
Definition HttpServiceUnavailable : Z := 503.
Definition StatusServerTimeout : Z := 504.

(** A failure; the fields that are not given are zero. *)
Definition failure (code : Z) (reason message : str) (details : option StatusDetails) : err :=
  StatusError (mkStatus zero_TypeMeta (mkListMeta [] []) StatusFailure message reason details code).
Definition about (kind name : str) : option StatusDetails := Some (mkStatusDetails name kind [] 0).

(** [FromObject], given a Status or the text of another object. *)
Definition FromObject (obj : Status + str) : err :=
  match obj with inl st => StatusError st | inr object => UnexpectedObjectError object end.

Section constructors.
Variable printable : Z → bool.
#[local] Abbreviation q s := (Quote printable s).

Definition NewNotFound (kind name : str) : err :=
  failure HttpNotFound StatusReasonNotFound (kind ++ lit " " ++ q name ++ lit " not found")
    (about kind name).

Definition NewAlreadyExists (kind name : str) : err :=
  failure HttpConflict StatusReasonAlreadyExists (kind ++ lit " " ++ q name ++ lit " already exists")
    (about kind name).

Definition NewUnauthorized (reason : str) : err :=
  let message := if decide (length reason = 0) then lit "not authorized" else reason in
  failure HttpUnauthorized StatusReasonUnauthorized message None.

Definition NewForbidden (kind name : str) (e : err) : err :=
  failure HttpForbidden StatusReasonForbidden
    (kind ++ lit " " ++ q name ++ lit " is forbidden: " ++ Error e) (about kind name).

Definition NewConflict (kind name : str) (e : err) : err :=
  failure HttpConflict StatusReasonConflict
    (kind ++ lit " " ++ q name ++ lit " cannot be updated: " ++ Error e) (about kind name).

(** A cause per validation error; other errors of the list are in the message
    only. *)
Definition causes_of (errs : list err) : list StatusCause :=
  omap (λ e, match e with
    | Validation v => Some (mkStatusCause (type_constant (ve_Type v)) (ErrorBody v) (ve_Field v))
    | _ => None
    end) errs.

Definition NewInvalid (kind name : str) (errs : list err) : err :=
  failure StatusUnprocessableEntity StatusReasonInvalid
    (kind ++ lit " " ++ q name ++ lit " is invalid: " ++
       match NewAggregate errs with Some e => Error e | None => lit "<nil>" end)
    (Some (mkStatusDetails name kind (causes_of errs) 0)).

Definition NewBadRequest (reason : str) : err :=
  failure HttpBadRequest StatusReasonBadRequest reason None.

Definition NewServiceUnavailable (reason : str) : err :=
  failure HttpServiceUnavailable StatusReasonServiceUnavailable reason None.

Definition NewMethodNotSupported (kind action : str) : err :=
  failure HttpMethodNotAllowed StatusReasonMethodNotAllowed
    (action ++ lit " is not supported on resources of kind " ++ q kind)
    (Some (mkStatusDetails [] kind [] 0)).

Definition NewServerTimeout (kind operation : str) (retryAfterSeconds : Z) : err :=
  failure HttpInternalServerError StatusReasonServerTimeout
    (lit "The " ++ operation ++ lit " operation against " ++ kind ++
       lit " could not be completed at this time, please try again.")
    (Some (mkStatusDetails operation kind [] retryAfterSeconds)).

Definition NewInternalError (e : err) : err :=
  failure HttpInternalServerError StatusReasonInternalError
    (lit "Internal error occurred: " ++ Error e)
    (Some (mkStatusDetails [] [] [mkStatusCause [] (Error e) []] 0)).

Definition NewTimeoutError (message : str) (retryAfterSeconds : Z) : err :=
  failure StatusServerTimeout StatusReasonTimeout (lit "Timeout: " ++ message)
    (Some (mkStatusDetails [] [] [] retryAfterSeconds)).
End constructors.

(** The reason and the message for a status code. *)
Definition generic_reason (code : Z) (verb : str) : str * str :=
  if decide (code = HttpConflict) then
    (if decide (verb = lit "POST") then StatusReasonAlreadyExists else StatusReasonConflict,
     lit "the server reported a conflict")
  else if decide (code = HttpNotFound) then
    (StatusReasonNotFound, lit "the server could not find the requested resource")
  else if decide (code = HttpBadRequest) then
    (StatusReasonBadRequest, lit "the server rejected our request for an unknown reason")
  else if decide (code = HttpUnauthorized) then
    (StatusReasonUnauthorized, lit "the server has asked for the client to provide credentials")
  else if decide (code = HttpForbidden) then
    (StatusReasonForbidden, lit "the server does not allow access to the requested resource")
  else if decide (code = HttpMethodNotAllowed) then
    (StatusReasonMethodNotAllowed, lit "the server does not allow this method on the requested resource")
  else if decide (code = StatusUnprocessableEntity) then
    (StatusReasonInvalid, lit "the server rejected our request due to an error in our request")
  else if decide (code = StatusServerTimeout) then
    (StatusReasonServerTimeout,
     lit "the server cannot complete the requested operation at this time, try again later")
  else if decide (code = StatusTooManyRequests) then
    (StatusReasonTimeout,
     lit "the server has received too many requests and has asked us to try again later")
  else if (500 <=? code)%Z then
    (StatusReasonInternalError, lit "an error on the server has prevented the request from succeeding")
  else
    (StatusReasonUnknown,
     lit "the server responded with the status code " ++ itoa code ++
       lit " but did not return more information").

Definition NewGenericServerResponse (code : Z) (verb kind name serverMessage : str)
    (retryAfterSeconds : Z) (isUnexpectedResponse : bool) : err :=
  let '(reason, message) := generic_reason code verb in
  let message :=
    if decide (0 < length kind ∧ 0 < length name) then
      message ++ lit " (" ++ to_lower verb ++ lit " " ++ kind ++ lit " " ++ name ++ lit ")"
    else if decide (0 < length kind) then
      message ++ lit " (" ++ to_lower verb ++ lit " " ++ kind ++ lit ")"
    else message in
  let causes :=
    if isUnexpectedResponse then [mkStatusCause CauseTypeUnexpectedServerResponse serverMessage []]
    else [] in
  failure code reason message (Some (mkStatusDetails name kind causes retryAfterSeconds)).

(** ** Telling errors apart; [None] is a nil error. *)

Definition reasonForError (e : option err) : str :=
  match e with Some (StatusError st) => st_Reason st | _ => StatusReasonUnknown end.

Definition has_reason (reason : str) (e : option err) : bool := bool_decide (reasonForError e = reason).
Definition IsNotFound := has_reason StatusReasonNotFound.
Definition IsAlreadyExists := has_reason StatusReasonAlreadyExists.
Definition IsConflict := has_reason StatusReasonConflict.
Definition IsInvalid := has_reason StatusReasonInvalid.
Definition IsMethodNotSupported := has_reason StatusReasonMethodNotAllowed.
Definition IsBadRequest := has_reason StatusReasonBadRequest.
Definition IsUnauthorized := has_reason StatusReasonUnauthorized.
Definition IsForbidden := has_reason StatusReasonForbidden.
Definition IsServerTimeout := has_reason StatusReasonServerTimeout.

Definition IsUnexpectedServerError (e : option err) : bool :=
  match e with
  | Some (StatusError st) =>
      match st_Details st with
      | Some d => existsb (λ c, bool_decide (cause_Type c = CauseTypeUnexpectedServerResponse)) (details_Causes d)
      | None => false
      end
  | _ => false
  end.

Definition IsUnexpectedObjectError (e : option err) : bool :=
  match e with Some (UnexpectedObjectError _) => true | _ => false end.

(** The seconds to wait, if the error suggests a delay. *)
Definition SuggestsClientDelay (e : option err) : option Z :=
  match e with
  | Some (StatusError st) =>
      match st_Details st with
      | Some d =>
          if decide (st_Reason st = StatusReasonServerTimeout ∨ st_Reason st = StatusReasonTimeout)
          then Some (details_RetryAfterSeconds d) else None
      | None => None
      end
  | _ => None
  end.
