(* ===== verification/ApiErrorsSpec.v ===== *)
(** * The errors of the API: specification

    What filtering and flattening keep of a tree of errors, how the path of a
    field grows, and which predicates hold of the errors that a client makes up
    from a status code. *)

From S2P Require Import Prelude GoStr KubeTypes Errors ApiErrors.

Local Open Scope go_scope.

(** ** Induction on nested lists of errors *)

Lemma err_tree_ind (P : err → Prop) :
  (∀ msg, P (Text msg)) → (∀ v, P (Validation v)) → (∀ st, P (StatusError st)) →
  (∀ o, P (UnexpectedObjectError o)) → (∀ errs, Forall P errs → P (Aggregate errs)) → ∀ e, P e.
Proof.
  intros HT HV HS HU HA. fix IH 1. intros [| | | |errs]; [auto..|].
  apply HA. induction errs as [|e errs IHe]; constructor; [apply IH|exact IHe].
Qed.

(** ** Filtering and flattening *)

Definition leaves_of (e : option err) : list err := match e with Some e => leaves e | None => [] end.

(** No aggregate without members, at any depth. *)
Fixpoint no_empty (e : err) : bool :=
  match e with
  | Aggregate errs => bool_decide (errs ≠ []) && forallb no_empty errs
  | _ => true
  end.

Definition kept (fns : list Matcher) (e : err) : bool := negb (matchesError e fns).

Lemma FilterOut_Aggregate fns errs :
  FilterOut fns (Aggregate errs) = NewAggregate (omap (FilterOut fns) errs).
Proof.
  cbn [FilterOut]. f_equal.
Qed.

Lemma leaves_NewAggregate errs : leaves_of (NewAggregate errs) = errs ≫= leaves.
Proof. by destruct errs. Qed.

Lemma filter_one fns e : (if matchesError e fns then [] else [e]) = filter (kept fns) [e].
Proof.
  unfold kept. cbn. destruct (matchesError e fns) eqn:E; destruct (decide _) as [H|H]; cbn in *;
    rewrite ?E in H; naive_solver.
Qed.

Lemma leaves_FilterOut fns e : leaves_of (FilterOut fns e) = filter (kept fns) (leaves e).
Proof.
  induction e as [| | | |errs IH] using err_tree_ind;
    [cbn [FilterOut leaves]; rewrite <- filter_one; by destruct (matchesError _ _)..|].
  rewrite FilterOut_Aggregate, leaves_NewAggregate. cbn [leaves].
  induction IH as [|e errs He _ IH]; [done|]. cbn. rewrite list.filter_app, <- He, <- IH.
  by destruct (FilterOut fns e).
Qed.

Lemma no_empty_NewAggregate errs r :
  Forall (λ e, no_empty e = true) errs → NewAggregate errs = Some r → no_empty r = true.
Proof.
  intros H Hr. destruct errs as [|e errs]; [done|]. injection Hr as <-. cbn [no_empty].
  rewrite bool_decide_true by done.
  rewrite List.Forall_forall in H. by apply forallb_forall.
Qed.

Lemma FilterOut_no_empty fns e r : FilterOut fns e = Some r → no_empty r = true.
Proof.
  revert r. induction e as [| | | |errs IH] using err_tree_ind; intros r;
    [cbn [FilterOut]; destruct (matchesError _ _); naive_solver..|].
  rewrite FilterOut_Aggregate. apply no_empty_NewAggregate. apply list.Forall_forall.
  intros x (e & He & Hx)%list_elem_of_omap. rewrite list.Forall_forall in IH. eauto.
Qed.

Lemma no_empty_leaves e : no_empty e = true → leaves e ≠ [].
Proof.
  induction e as [| | | |errs IH] using err_tree_ind; [done..|]. cbn [no_empty leaves].
  intros [Hne Hall]%andb_prop. apply bool_decide_eq_true in Hne.
  destruct errs as [|e errs]; [done|]. apply list.Forall_cons in IH as [He _].
  apply andb_prop in Hall as [H1 _]. cbn. specialize (He H1). by destruct (leaves e).
Qed.

(** filtering a tree of errors: the leaves that no matcher matches remain,
    in their order, and no aggregate without members is left; the result is
    nil exactly when every leaf is matched, and flattening it gives the
    aggregate of the leaves that remain. *)
Theorem FilterOut_spec (fns : list Matcher) (e : err) :
  leaves_of (FilterOut fns e) = filter (kept fns) (leaves e) ∧
  (∀ r, FilterOut fns e = Some r → no_empty r = true) ∧
  (FilterOut fns e = None ↔ Forall (λ l, matchesError l fns = true) (leaves e)) ∧
  (∀ errs, FilterOut fns e = Some (Aggregate errs) →
     Flatten (Some errs) = NewAggregate (filter (kept fns) (leaves e))).
Proof.
  pose proof (leaves_FilterOut fns e) as Hl. split; [done|].
  split; [apply FilterOut_no_empty|]. split.
  - split; intros H.
    + rewrite H in Hl. apply list.Forall_forall. intros l Hin.
      destruct (matchesError l fns) eqn:E; [done|].
      assert (l ∈ filter (kept fns) (leaves e)) as Hf.
      { apply list_elem_of_filter. unfold kept. by rewrite E. }
      rewrite <- Hl in Hf. by apply elem_of_nil in Hf.
    + destruct (FilterOut fns e) as [r|] eqn:E; [|done]. exfalso.
      apply (no_empty_leaves r); [by apply (FilterOut_no_empty fns e)|].
      cbn in Hl. rewrite Hl. clear -H. induction H as [|l ls Hm _ IH]; [done|].
      rewrite filter_cons_False; [done|]. unfold kept. rewrite Hm. by intros [].
  - intros errs E. rewrite E in Hl. cbn in Hl. cbn [Flatten]. by rewrite Hl.
Qed.

(** ** The path of a field *)

Lemma has_prefix_bracket_app b f :
  b ≠ [] → has_prefix "[" (b ++ f) = has_prefix "[" b.
Proof. by destruct b. Qed.

Lemma prefix_field_suffix f : ∃ x, ∀ a, prefix_field a f = a ++ x.
Proof.
  unfold prefix_field. destruct (has_prefix _ f); [by exists f|].
  destruct (decide _); [by exists (lit "." ++ f)|]. exists []. intros a. by rewrite app_nil_r.
Qed.

Lemma prefix_field_app a b x :
  b ≠ [] → prefix_field a (b ++ x) = prefix_field a b ++ x.
Proof.
  intros Hb. unfold prefix_field. rewrite has_prefix_bracket_app, length_app by done.
  destruct (has_prefix _ b); [by rewrite <- app_assoc|].
  rewrite !decide_True by (destruct b; [done|simpl; lia]). by rewrite <- !app_assoc.
Qed.

Lemma prefix_field_assoc a b f :
  b ≠ [] → prefix_field a (prefix_field b f) = prefix_field (prefix_field a b) f.
Proof.
  intros Hb. destruct (prefix_field_suffix f) as [x Hx]. rewrite !Hx. by apply prefix_field_app.
Qed.

Definition at_path (path : str) (v : ValidationError) : ValidationError :=
  mkValidationError (ve_Type v) (prefix_field path (ve_Field v)) (ve_BadValue v) (ve_Detail v).

Lemma Prefix_Validation path (vs : list ValidationError) :
  Prefix path (Validation <$> vs) = Return (Validation <$> (at_path path <$> vs)).
Proof. induction vs as [|v vs IH]; [done|]. cbn [fmap list_fmap Prefix]. by rewrite IH. Qed.

(** prefixing a list of validation errors twice is prefixing it with the
    composed path, changes the path of every error and nothing else, and never
    panics; a list that holds another kind of error panics. *)
Theorem Prefix_spec (path path' : str) (vs : list ValidationError) (l : list err) (e : err)
    (Hne : path' ≠ []) (He : ∀ v, e ≠ Validation v) :
  Prefix path (Validation <$> vs) = Return (Validation <$> (at_path path <$> vs)) ∧
  (Prefix path' (Validation <$> vs) ≫= Prefix path) =
    Prefix (prefix_field path path') (Validation <$> vs) ∧
  (∃ why, Prefix path ((Validation <$> vs) ++ e :: l) = Panic why).
Proof.
  split; [apply Prefix_Validation|]. split.
  - rewrite !Prefix_Validation. cbn. rewrite Prefix_Validation. do 2 f_equal.
    rewrite <- list_fmap_compose. apply list_fmap_ext. intros i v _.
    unfold compose, at_path. cbn. by rewrite prefix_field_assoc.
  - induction vs as [|v vs [why IH]].
    + destruct e; [by eexists|by destruct (He v)|by eexists..].
    + exists why. cbn [fmap list_fmap app Prefix]. by rewrite IH.
Qed.

Lemma Prefix_spec_witness :
  ∃ why, Prefix "spec" ((Validation <$> [NewFieldRequired "[0]"]) ++ [Text "x"]) = Panic why ∧
  (Prefix "rules" (Validation <$> [NewFieldRequired "[0]"]) ≫= Prefix "spec") =
    Return [Validation (NewFieldRequired "spec.rules[0]")].
Proof.
  destruct (Prefix_spec "spec" "rules" [NewFieldRequired "[0]"] [] (Text "x")) as (_ & H & why & Hp);
    [by vm_compute|done|].
  exists why. split; [exact Hp|]. rewrite H. reflexivity.
Defined.

(** ** Errors made up from a status code *)

Lemma reason_of_response code verb kind name msg retry unexpected :
  reasonForError (Some (NewGenericServerResponse code verb kind name msg retry unexpected)) =
  fst (generic_reason code verb).
Proof. unfold NewGenericServerResponse. by destruct (generic_reason code verb). Qed.

(** One branch of [generic_reason] per code; a reason that is another one is
    told apart by evaluation. *)
Ltac by_code :=
  apply bool_decide_ext; unfold generic_reason, HttpConflict, HttpNotFound, HttpBadRequest,
    HttpUnauthorized, HttpForbidden, HttpMethodNotAllowed, StatusUnprocessableEntity,
    StatusServerTimeout, StatusTooManyRequests;
  repeat (destruct (decide (_ = _)) as [?|?]; [|]); try destruct (500 <=? _)%Z; cbn [fst];
  (split; [intros Hr; first [discriminate Hr | vm_compute in Hr; discriminate Hr | lia | tauto]
          |intros ?; first [reflexivity | exfalso; intuition lia | exfalso; tauto]]).

Lemma has_reason_response reason code verb kind name msg retry unexpected :
  has_reason reason (Some (NewGenericServerResponse code verb kind name msg retry unexpected)) =
  bool_decide (fst (generic_reason code verb) = reason).
Proof. unfold has_reason. by rewrite reason_of_response. Qed.

Lemma bool_decide_ext_iff P Q `{!Decision P, !Decision Q} : bool_decide P = bool_decide Q → P ↔ Q.
Proof. destruct (bool_decide_reflect P), (bool_decide_reflect Q); naive_solver. Qed.

(** the error a client makes up for an answer with a status code is told
    apart by the code alone, 409 by the verb too: each predicate holds for its
    code and for no other.  A delay is suggested for 504 and for 429, where no
    predicate holds, and never for 500, the code of the server's own timeout. *)
Theorem NewGenericServerResponse_spec (code : Z) (verb kind name msg : str) (retry : Z)
    (unexpected : bool) :
  let e := Some (NewGenericServerResponse code verb kind name msg retry unexpected) in
  IsNotFound e = bool_decide (code = 404%Z) ∧
  IsAlreadyExists e = bool_decide (code = 409%Z ∧ verb = lit "POST") ∧
  IsConflict e = bool_decide (code = 409%Z ∧ verb ≠ lit "POST") ∧
  IsInvalid e = bool_decide (code = 422%Z) ∧
  IsMethodNotSupported e = bool_decide (code = 405%Z) ∧
  IsBadRequest e = bool_decide (code = 400%Z) ∧
  IsUnauthorized e = bool_decide (code = 401%Z) ∧
  IsForbidden e = bool_decide (code = 403%Z) ∧
  IsServerTimeout e = bool_decide (code = 504%Z) ∧
  IsUnexpectedServerError e = unexpected ∧
  SuggestsClientDelay e = (if decide (code = 504 ∨ code = 429)%Z then Some retry else None).
Proof.
  intros e. subst e.
  unfold IsNotFound, IsAlreadyExists, IsConflict, IsInvalid, IsMethodNotSupported, IsBadRequest,
    IsUnauthorized, IsForbidden, IsServerTimeout.
  rewrite !has_reason_response.
  do 9 (split; [by_code|]). unfold NewGenericServerResponse.
  destruct (generic_reason code verb) as [reason message] eqn:E.
  split; [by destruct unexpected|]. cbn.
  apply (f_equal fst) in E. cbn in E. subst reason.
  destruct (decide (code = 504 ∨ code = 429)%Z) as [[->| ->]|Hc]; [done..|].
  rewrite decide_False; [done|].
  assert (bool_decide (fst (generic_reason code verb) = StatusReasonServerTimeout) =
    bool_decide (code = 504%Z)) as H1%bool_decide_ext_iff by by_code.
  assert (bool_decide (fst (generic_reason code verb) = StatusReasonTimeout) =
    bool_decide (code = 429%Z)) as H2%bool_decide_ext_iff by by_code.
  cbn in H1, H2. tauto.
Qed.
