(* ===== verification/GoUrl.v ===== *)
(** * URLs, headers and media types of Go's standard library

    What the requests use of [net/url], [net/http], [mime], [path] and [time]:
    escaping, the text of a URL and of a query, headers with their canonical
    names, the media type of a header, and the text of a duration. *)

From S2P Require Import Prelude GoStr Utf8 Json.

Local Open Scope go_scope.

(** ** net/url *)

Definition upper_hex (n : Z) : ascii := if (n <? 10)%Z then chr (48 + n) else chr (55 + n).

Definition url_unreserved (c : ascii) : bool :=
  bool_decide (97 ≤ ord c ≤ 122 ∨ 65 ≤ ord c ≤ 90)%Z || is_digit c ||
  bool_decide (c ∈ ["-"; "_"; "."; "~"]%char).

(** The characters that stay as they are in a path, besides those. *)
Definition path_reserved (c : ascii) : bool :=
  bool_decide (c ∈ ["$"; "&"; "+"; ","; "/"; ":"; ";"; "="; "@"]%char).

Definition percent (c : ascii) : str := ["%"%char; upper_hex (ord c / 16); upper_hex (ord c mod 16)].

Definition PathEscape (s : str) : str :=
  s ≫= λ c, if url_unreserved c || path_reserved c then [c] else percent c.

Definition QueryEscape (s : str) : str :=
  s ≫= λ c, if decide (c = " "%char) then ["+"%char] else if url_unreserved c then [c] else percent c.

(** [url.Values]: each key with its values in order. *)
Abbreviation Values := (gmap str (list str)).

(** [Values.Encode]: the keys in sorted order. *)
Definition Encode (v : Values) : str :=
  join "&" (sort_strings (elements (dom v)) ≫= λ k,
    (λ x, QueryEscape k ++ "="%char :: QueryEscape x) <$> default [] (v !! k)).

(** A URL without opaque part, user and fragment. *)
Record URL := mkURL {
  url_Scheme : str;
  url_Host : str;
  url_Path : str;
  url_RawQuery : str
}.

Definition url_prefix (u : URL) : str :=
  (match url_Scheme u with [] => [] | s => s ++ [":"%char] end) ++
  (if decide (url_Scheme u ≠ [] ∨ url_Host u ≠ []) then lit "//" ++ url_Host u else []).

(** The method [String]. *)
Definition URL_String (u : URL) : str :=
  let path := PathEscape (url_Path u) in
  url_prefix u ++
  (match path with c :: _ => if decide (c ≠ "/"%char ∧ url_Host u ≠ []) then ["/"%char] else [] | [] => [] end) ++
  path ++ (match url_RawQuery u with [] => [] | q => "?"%char :: q end).

(** ** path *)

(** [path.Base]. *)
Definition base (p : str) : str :=
  match p with
  | [] => "."
  | _ =>
      match list.last (split "/" (trim_right (λ c, bool_decide (c = "/"%char)) p)) with
      | Some [] | None => "/"
      | Some x => x
      end
  end.

(** ** net/http: headers *)

(** [textproto.CanonicalMIMEHeaderKey] of a name made of token characters. *)
Fixpoint canonical_from (upper : bool) (s : str) : str :=
  match s with
  | [] => []
  | c :: t => (if upper then upper_byte c else lower_byte c) :: canonical_from (bool_decide (c = "-"%char)) t
  end.
Definition CanonicalHeaderKey (s : str) : str := canonical_from true s.

Abbreviation Header := (gmap str (list str)).
Definition Header_Get (h : Header) (key : str) : str :=
  match h !! CanonicalHeaderKey key with Some (v :: _) => v | _ => [] end.
Definition Header_Set (h : Header) (key value : str) : Header := <[CanonicalHeaderKey key := [value]]> h.

(** ** mime *)

Definition is_token_char (c : ascii) : bool :=
  bool_decide (33 ≤ ord c ≤ 126)%Z &&
  negb (bool_decide (c ∈ lit "()<>@,;:\/[]?=" ++ [dquote])).

Definition is_space (c : ascii) : bool := bool_decide (ord c = 32 ∨ 9 ≤ ord c ≤ 13)%Z.
Definition trim_space (s : str) : str := trim is_space s.

(** The longest prefix of token characters, and the rest. *)
Fixpoint consume_token (s : str) : str * str :=
  match s with
  | c :: t => if is_token_char c then let '(tok, rest) := consume_token t in (c :: tok, rest) else ([], s)
  | [] => ([], [])
  end.

(** A quoted string after its first quote: the rest behind it. *)
Fixpoint consume_quoted (literal : bool) (s : str) : option str :=
  match s with
  | [] => None
  | c :: t =>
      if literal then consume_quoted false t
      else if decide (c = dquote) then Some t
      else if decide (c = "\"%char) then consume_quoted true t
      else if decide (ord c = 13 ∨ ord c = 10)%Z then None
      else consume_quoted false t
  end.

(** A parameter [; key=value]: the key and the rest. *)
Definition consume_param (s : str) : option (str * str) :=
  match trim_left is_space s with
  | ";"%char :: s =>
      let '(key, s) := consume_token (trim_left is_space s) in
      match key, trim_left is_space s with
      | _ :: _, "="%char :: s =>
          let s := trim_left is_space s in
          match s with
          | c :: q =>
              if decide (c = dquote) then (λ rest, (to_lower key, rest)) <$> consume_quoted false q
              else match consume_token s with
                   | ([], _) => None
                   | (_, rest) => Some (to_lower key, rest)
                   end
          | [] => None
          end
      | _, _ => None
      end
  | _ => None
  end.

(** Whether the parameters are well formed, without a key twice. *)
Fixpoint params_ok (fuel : nat) (seen : list str) (s : str) : bool :=
  match fuel with
  | 0 => false
  | S fuel =>
      match trim_left is_space s with
      | [] => true
      | s =>
          match consume_param s with
          | Some (key, rest) => if decide (key ∈ seen) then false else params_ok fuel (key :: seen) rest
          | None => bool_decide (trim_space s = [";"%char])
          end
      end
  end.

Definition media_ok (s : str) : bool :=
  let '(typ, rest) := consume_token s in
  match typ, rest with
  | [], _ => false
  | _, [] => true
  | _, "/"%char :: sub =>
      let '(subtype, rest) := consume_token sub in bool_decide (subtype ≠ [] ∧ rest = [])
  | _, _ => false
  end.

(** [mime.ParseMediaType], without the parameters. *)
Definition ParseMediaType (v : str) : option str :=
  let i := default (length v) (index_byte ";" v) in
  let media := trim_space (to_lower (take i v)) in
  if media_ok media && params_ok (S (length v)) [] (drop i v) then Some media else None.

(** ** time: the text of a duration in nanoseconds *)

(** The digits of [v mod 10^n] behind a point, without the zeros at the end. *)
Definition fraction (n : nat) (v : Z) : str :=
  match trim_right (λ c, bool_decide (c = "0"%char))
    ((λ i, digit (v / 10 ^ Z.of_nat i mod 10)) <$> reverse (seq 0 n)) with
  | [] => []
  | ds => "."%char :: ds
  end.

Definition Duration_String (d : Z) : str :=
  let u := Z.abs d in
  let text :=
    if decide (u = 0)%Z then lit "0"
    else if (u <? 1000)%Z then itoa u ++ lit "ns"
    else if (u <? 1000000)%Z then itoa (u / 1000) ++ fraction 3 u ++ encode_rune 181 ++ lit "s"
    else if (u <? 1000000000)%Z then itoa (u / 1000000) ++ fraction 6 u ++ lit "ms"
    else
      let s := (u / 1000000000)%Z in
      let m := (s / 60)%Z in
      (if (0 <? m)%Z then (if (0 <? m / 60)%Z then itoa (m / 60) ++ lit "h" else []) ++ itoa (m mod 60) ++ lit "m"
       else []) ++
      itoa (s mod 60) ++ fraction 9 u ++ lit "s" in
  if (d <? 0)%Z then "-"%char :: text else text.

Example Duration_demo :
  (Duration_String <$> [1500000000; -90000000000; 3600000000000; 2500000; 1500; 1]%Z) =
  [lit "1.5s"; lit "-1m30s"; lit "1h0m0s"; lit "2.5ms"; lit "1.5" ++ encode_rune 181 ++ lit "s"; lit "1ns"].
Proof. vm_compute. reflexivity. Qed.

Example ParseMediaType_demo :
  (ParseMediaType <$> [lit "Text/HTML; charset=utf-8"; lit "text/plain;"; lit "text/plain; x"; lit "/x"; lit " application/json "]) =
  [Some (lit "text/html"); Some (lit "text/plain"); None; None; Some (lit "application/json")].
Proof. vm_compute. reflexivity. Qed.

Example URL_demo :
  URL_String (mkURL "http" "h:80" "/a b/c?" (Encode (<[lit "x" := [lit "1"; lit "&"]]> {[lit "k" := [lit "v v"]]}))) =
  lit "http://h:80/a%20b/c%3F?k=v+v&x=1&x=%26".
Proof. vm_compute. reflexivity. Qed.
