(* ===== verification/GoUrlSpec.v ===== *)
(** * Paths and URLs: lemmas

    Joining paths appends their segments, and escaping a path or a query can
    be undone, so that different paths have different texts. *)

From S2P Require Import Prelude GoStr GoUrl.

Local Open Scope go_scope.

(** ** Segments of a path *)

(** A segment that [clean] keeps as it is. *)
Definition good_segment (s : str) : bool :=
  bool_decide (s ≠ [] ∧ s ≠ (lit ".") ∧ s ≠ (lit "..")) && negb (bool_decide ("/"%char ∈ s)).
Abbreviation good_segments l := (Forall (λ s, good_segment s = true) l).

Lemma good_segment_inv s :
  good_segment s = true → s ≠ [] ∧ s ≠ lit "." ∧ s ≠ lit ".." ∧ "/"%char ∉ s.
Proof. intros [H1%bool_decide_eq_true H2%negb_true_iff%bool_decide_eq_false]%andb_prop. naive_solver. Qed.

Lemma split_app_any c s t : split c (s ++ c :: t) = split c s ++ split c t.
Proof.
  induction s as [|x s IH]; simpl; [by rewrite decide_True|].
  destruct (decide (x = c)) as [->|Hx]; [by rewrite IH|]. rewrite IH.
  pose proof (split_not_nil c s). by destruct (split c s).
Qed.

Definition segs_from (out : list str) (p : str) : list str := foldl (clean_step true) out (split "/" p).

Lemma segs_from_app out p q : segs_from out (p ++ "/"%char :: q) = segs_from (segs_from out p) q.
Proof. unfold segs_from. by rewrite split_app_any, foldl_app. Qed.

Lemma segs_from_good out s : good_segment s = true → segs_from out s = s :: out.
Proof.
  intros (H1 & H2 & H3 & H4)%good_segment_inv. unfold segs_from. rewrite split_none by done. simpl.
  unfold clean_step. by rewrite !decide_False by naive_solver.
Qed.

Lemma segs_from_nil out : segs_from out [] = out.
Proof. done. Qed.

Lemma segs_from_join out l : l ≠ [] → good_segments l → segs_from out (join "/" l) = reverse l ++ out.
Proof.
  intros Hne Hl. revert out Hne. induction Hl as [|x l Hx Hl IH]; intros out Hne; [done|].
  destruct l as [|y l]; [by apply segs_from_good|].
  change (join "/" (x :: y :: l)) with (x ++ "/"%char :: join "/" (y :: l)).
  rewrite segs_from_app, (segs_from_good out x Hx). rewrite IH by done.
  by rewrite (reverse_cons _ x), <- app_assoc.
Qed.

Lemma clean_rooted p : is_rooted p = true → clean p = "/"%char :: join "/" (clean_segs p).
Proof. intros H. unfold clean. by rewrite H. Qed.

Lemma clean_segs_rooted p : is_rooted p = true → clean_segs p = reverse (segs_from [] p).
Proof. intros H. unfold clean_segs. by rewrite H. Qed.

Lemma is_rooted_app p q : is_rooted p = true → is_rooted (p ++ q) = true.
Proof. by destruct p. Qed.

(** The elements kept for a rooted path are good. *)
Lemma clean_step_good out s :
  good_segments out → "/"%char ∉ s → good_segments (clean_step true out s).
Proof.
  intros Hout Hs. unfold clean_step. case_decide; [done|]. case_decide.
  - destruct out as [|x r]; [done|]. apply list.Forall_cons in Hout as [Hx Hr].
    apply good_segment_inv in Hx. rewrite decide_False by naive_solver. done.
  - constructor; [|done]. unfold good_segment. rewrite !bool_decide_true by naive_solver.
    by rewrite bool_decide_false.
Qed.

Lemma clean_segs_good p : is_rooted p = true → good_segments (clean_segs p).
Proof.
  intros H. rewrite clean_segs_rooted by done. apply Forall_reverse. unfold segs_from.
  assert (∀ l out, Forall (λ s, "/"%char ∉ s) l → good_segments out →
    good_segments (foldl (clean_step true) out l)) as Hf.
  { intros l. induction l as [|s l IH]; intros out Hl Ho; [done|].
    apply list.Forall_cons in Hl as [Hs Hl]. simpl. apply IH; [done|]. by apply clean_step_good. }
  apply Hf; [apply split_pieces|constructor].
Qed.

Lemma clean_segs_clean p : is_rooted p = true → clean_segs (clean p) = clean_segs p.
Proof.
  intros H. rewrite clean_rooted by done. rewrite clean_segs_rooted by done.
  change ("/"%char :: join "/" (clean_segs p)) with ([] ++ "/"%char :: join "/" (clean_segs p)).
  rewrite segs_from_app. destruct (clean_segs p) as [|x l] eqn:E; [done|]. rewrite <- E.
  rewrite segs_from_join; [|by rewrite E|by apply clean_segs_good].
  by rewrite app_nil_r, reverse_involutive.
Qed.

(** A rooted path with the given segments. *)
Definition path_of (l : list str) : str := "/"%char :: join "/" l.

Lemma path_join_rooted p l :
  is_rooted p = true → path_join (p :: l) = clean (join "/" (p :: l)).
Proof. by destruct p. Qed.

(** Joining good segments to a rooted path appends them. *)
Lemma path_join_good p l :
  is_rooted p = true → good_segments l → path_join (p :: l) = path_of (clean_segs p ++ l).
Proof.
  intros Hp Hl. rewrite path_join_rooted by done.
  assert (is_rooted (join "/" (p :: l)) = true) as Hr by (destruct l; [done|by apply is_rooted_app]).
  rewrite clean_rooted, clean_segs_rooted by done. unfold path_of. f_equal. f_equal.
  rewrite clean_segs_rooted by done. destruct l as [|x l]; [by rewrite app_nil_r|].
  change (join "/" (p :: x :: l)) with (p ++ "/"%char :: join "/" (x :: l)).
  rewrite segs_from_app, segs_from_join by done. by rewrite reverse_app, reverse_involutive.
Qed.

Lemma path_of_rooted l : is_rooted (path_of l) = true.
Proof. done. Qed.

Lemma clean_segs_path_of l : good_segments l → clean_segs (path_of l) = l.
Proof.
  intros Hl. rewrite clean_segs_rooted by done. unfold path_of.
  change ("/"%char :: join "/" l) with ([] ++ "/"%char :: join "/" l). rewrite segs_from_app.
  destruct l as [|x l]; [done|]. rewrite segs_from_join by done.
  by rewrite app_nil_r, reverse_involutive.
Qed.

Lemma path_of_inj l l' : good_segments l → good_segments l' → path_of l = path_of l' → l = l'.
Proof.
  intros H1 H2 E. by rewrite <- (clean_segs_path_of l), <- (clean_segs_path_of l'), E.
Qed.

(** ** Joining to any path *)

(** The path of the given segments, rooted or not. *)
Definition path_at (rooted : bool) (l : list str) : str := (if rooted then lit "/" else []) ++ join "/" l.

(** Segments, with empty ones among them. *)
Abbreviation plain_segments l := (Forall (λ s, s = [] ∨ good_segment s = true) l).

Ltac plain :=
  repeat match goal with
    | |- Forall _ (_ :: _) => constructor; [first [by left|by right]|]
    | |- Forall _ [] => constructor
    end.

Lemma is_rooted_app_ne p q : p ≠ [] → is_rooted (p ++ q) = is_rooted p.
Proof. by destruct p. Qed.

Lemma foldl_clean_plain b out xs :
  xs ≠ [] → plain_segments xs →
  foldl (clean_step b) out (split "/" (join "/" xs)) = reverse (filter (λ s, s ≠ []) xs) ++ out.
Proof.
  assert (Hone : ∀ out x, x = [] ∨ good_segment x = true →
    foldl (clean_step b) out (split "/" x) = reverse (filter (λ s, s ≠ []) [x]) ++ out).
  { clear. intros out x [->|(H1 & H2 & H3 & H4)%good_segment_inv]; [done|].
    rewrite split_none by done. rewrite filter_cons_True by done. simpl.
    unfold clean_step. by rewrite !decide_False by naive_solver. }
  intros Hne Hxs. revert out Hne. induction Hxs as [|x xs Hx Hxs IH]; intros out Hne; [done|].
  destruct xs as [|y xs]; [by apply Hone|].
  change (join "/" (x :: y :: xs)) with (x ++ "/"%char :: join "/" (y :: xs)).
  rewrite split_app_any, foldl_app, (Hone out x Hx), IH by done.
  change (x :: y :: xs) with ([x] ++ y :: xs). by rewrite (list.filter_app _ [x]), reverse_app, <- app_assoc.
Qed.

Lemma path_join_at p xs :
  good_segments (clean_segs p) → filter (λ s, s ≠ []) xs ≠ [] → plain_segments xs →
  path_join (p :: xs) = path_at (is_rooted p) (clean_segs p ++ filter (λ s, s ≠ []) xs).
Proof.
  assert (Hclean : ∀ q l, clean_segs q = l → l ≠ [] → clean q = path_at (is_rooted q) l).
  { intros q l <- Hl. unfold clean, path_at. destruct (is_rooted q); [done|]. by destruct (clean_segs q). }
  intros Hp Hne Hxs. destruct p as [|a p].
  - change (path_join ([] :: xs)) with (path_join xs). change (clean_segs []) with (@nil str).
    induction Hxs as [|x xs Hx Hxs IH]; [done|]. destruct x as [|b x]; [by apply IH|].
    destruct Hx as [?|Hx]; [done|]. change (path_join ((b :: x) :: xs)) with (clean (join "/" ((b :: x) :: xs))).
    assert (Hr : is_rooted (join "/" ((b :: x) :: xs)) = false).
    { destruct (good_segment_inv _ Hx) as (_ & _ & _ & Hs). destruct xs; simpl; apply bool_decide_eq_false; set_solver. }
    rewrite (Hclean _ (filter (λ s, s ≠ []) ((b :: x) :: xs))); [by rewrite Hr| |done].
    unfold clean_segs. rewrite foldl_clean_plain; [by rewrite app_nil_r, reverse_involutive|done|].
    constructor; [by right|done].
  - destruct xs as [|x xs]; [done|].
    change (path_join ((a :: p) :: x :: xs)) with (clean ((a :: p) ++ "/"%char :: join "/" (x :: xs))).
    rewrite (Hclean _ (clean_segs (a :: p) ++ filter (λ s, s ≠ []) (x :: xs))); [by rewrite is_rooted_app_ne| |].
    + unfold clean_segs. rewrite is_rooted_app_ne by done. rewrite split_app_any, foldl_app, foldl_clean_plain by done.
      by rewrite reverse_app, reverse_involutive.
    + intros [_ ?]%app_eq_nil. done.
Qed.

Lemma path_at_rooted b l : l ≠ [] → good_segments l → is_rooted (path_at b l) = b.
Proof.
  intros Hne Hl. destruct b; [done|]. destruct Hl as [|x l Hx Hl]; [done|].
  destruct (good_segment_inv x Hx) as (Hx1 & _ & _ & Hx2). destruct x as [|a x]; [done|].
  destruct l; simpl; apply bool_decide_eq_false; set_solver.
Qed.

Lemma clean_segs_at b l : l ≠ [] → good_segments l → clean_segs (path_at b l) = l.
Proof.
  intros Hne Hl. unfold clean_segs. rewrite path_at_rooted by done.
  assert (Hf : foldl (clean_step b) [] (split "/" (join "/" l)) = reverse l).
  { rewrite foldl_clean_plain, app_nil_r; [|done|by eapply list.Forall_impl; [done|]; right].
    f_equal. clear Hne. induction Hl as [|x l Hx Hl IH]; [done|].
    rewrite filter_cons_True, IH; [done|]. by apply good_segment_inv. }
  unfold path_at. destruct b; [|by rewrite app_nil_l, Hf, reverse_involutive].
  change (lit "/" ++ join "/" l) with ([] ++ "/"%char :: join "/" l). rewrite split_app_any, foldl_app.
  change (foldl (clean_step true) [] (split "/" [])) with (@nil str). by rewrite Hf, reverse_involutive.
Qed.

Lemma path_at_inj b l l' :
  l ≠ [] → l' ≠ [] → good_segments l → good_segments l' → path_at b l = path_at b l' → l = l'.
Proof. intros ???? E. by rewrite <- (clean_segs_at b l), <- (clean_segs_at b l'), E. Qed.

(** ** Escapes undone *)

Definition hex_val (c : ascii) : Z := if is_digit c then ord c - 48 else ord c - 55.

Fixpoint path_unescape (s : str) : str :=
  match s with
  | [] => []
  | c :: t =>
      if decide (c = "%"%char) then
        match t with
        | x :: y :: u => chr (16 * hex_val x + hex_val y) :: path_unescape u
        | _ => c :: path_unescape t
        end
      else c :: path_unescape t
  end.

Lemma plain_not_percent c : implb (url_unreserved c || path_reserved c) (bool_decide (c ≠ "%"%char)) = true.
Proof. by_bytes c. Qed.

Lemma hex_percent c : chr (16 * hex_val (upper_hex (ord c / 16)) + hex_val (upper_hex (ord c mod 16))) = c.
Proof. by_bytes c. Qed.

Lemma path_unescape_byte c s :
  path_unescape ((if url_unreserved c || path_reserved c then [c] else percent c) ++ s) = c :: path_unescape s.
Proof.
  pose proof (plain_not_percent c) as Hp. destruct (url_unreserved c || path_reserved c).
  - apply bool_decide_eq_true in Hp. cbn [app path_unescape]. by rewrite decide_False.
  - unfold percent. cbn [app path_unescape]. rewrite decide_True by done. by rewrite hex_percent.
Qed.

Lemma path_unescape_escape s : path_unescape (PathEscape s) = s.
Proof.
  unfold PathEscape. induction s as [|c s IH]; [done|]. cbn [mbind list_bind].
  rewrite path_unescape_byte. f_equal. exact IH.
Qed.

#[global] Instance PathEscape_inj : Inj (=) (=) PathEscape.
Proof. intros s t H. by rewrite <- (path_unescape_escape s), <- (path_unescape_escape t), H. Qed.
