(* ===== verification/GoUrlParse.v ===== *)
(** * Parsing a URL (net/url of Go 1.5)

    The URLs a client is configured with: [Parse], [ParseRequestURI] and the
    method [String], with every part a URL can have.  The authority (user and
    host) is parsed and escaped by two parameters; [AuthorityLaws] says what
    is used of them. *)

From S2P Require Import Prelude GoStr Utf8 Json Errors GoUrl.

Local Open Scope go_scope.

Record FullURL := mkFull {
  fu_Scheme : str;
  fu_Opaque : str;
  (** the user and the password as they are written; [None] for none *)
  fu_User : option str;
  fu_Host : str;
  fu_Path : str;
  fu_RawPath : str;
  fu_RawQuery : str;
  fu_Fragment : str
}.

Definition set_full_path (p : str) (u : FullURL) : FullURL :=
  mkFull (fu_Scheme u) (fu_Opaque u) (fu_User u) (fu_Host u) p (fu_RawPath u) (fu_RawQuery u) (fu_Fragment u).
(** Without a path, a query and a fragment. *)
Definition only_server (u : FullURL) : FullURL :=
  mkFull (fu_Scheme u) (fu_Opaque u) (fu_User u) (fu_Host u) [] (fu_RawPath u) [] [].

(** [split]: at the first [c], which the second part keeps unless [cutc]. *)
Definition cut_at (c : ascii) (cutc : bool) (s : str) : str * str :=
  match index_byte c s with
  | None => (s, [])
  | Some i => (take i s, drop (if cutc then S i else i) s)
  end.

Definition is_letter (c : ascii) : bool := bool_decide (97 ≤ ord c ≤ 122 ∨ 65 ≤ ord c ≤ 90)%Z.
Definition is_scheme_char (c : ascii) : bool := is_digit c || bool_decide (c ∈ ["+"; "-"; "."]%char).

Fixpoint getscheme_at (i : nat) (rest rawurl : str) : result str (str * str) :=
  match rest with
  | [] => Ok ([], rawurl)
  | c :: t =>
      if is_letter c then getscheme_at (S i) t rawurl
      else if is_scheme_char c then
        if decide (i = 0) then Ok ([], rawurl) else getscheme_at (S i) t rawurl
      else if decide (c = ":"%char) then
        if decide (i = 0) then Err (lit "missing protocol scheme") else Ok (take i rawurl, t)
      else Ok ([], rawurl)
  end.
Definition getscheme (rawurl : str) : result str (str * str) := getscheme_at 0 rawurl rawurl.

(** The bytes behind the escapes, or the first escape that is none. *)
Fixpoint unescape (s : str) : result str str :=
  match s with
  | [] => Ok []
  | c :: t =>
      if decide (c = "%"%char) then
        match t with
        | x :: y :: u =>
            match hex_value x, hex_value y with
            | Some a, Some b => cons (chr (16 * a + b)) <$> unescape u
            | _, _ => Err [c; x; y]
            end
        | _ => Err (c :: t)
        end
      else cons c <$> unescape t
  end.

(** The characters an encoded path may have. *)
Definition valid_encoded_char (c : ascii) : bool :=
  bool_decide (c ∈ ["!"; "$"; "&"; "'"; "("; ")"; "*"; "+"; ","; ";"; "="; ":"; "@"; "["; "]"; "%"]%char) ||
  url_unreserved c || path_reserved c.
Definition validEncodedPath (s : str) : bool := forallb valid_encoded_char s.

Definition EscapedPath (path rawPath : str) : str :=
  if bool_decide (rawPath ≠ []) && validEncodedPath rawPath && bool_decide (unescape rawPath = Ok path)
  then rawPath
  else if decide (path = lit "*") then "*" else PathEscape path.

Definition FragmentEscape (s : str) : str :=
  s ≫= λ c, if url_unreserved c || path_reserved c || bool_decide (c = "?"%char) then [c] else percent c.

Section authority.
Variable printable : Z → bool.
(** [parseAuthority]: the user as it is written and the host. *)
Variable parse_authority : str → result str (option str * str).
(** The escaping of a host. *)
Variable escape_host : str → str.

Definition EscapeError (s : str) : str := lit "invalid URL escape " ++ Quote printable s.

Definition or_escape (r : result str str) : result str str :=
  match r with Ok s => Ok s | Err e => Err (EscapeError e) end.

Definition parse_rest (viaRequest : bool) (scheme rest query : str) : result str FullURL :=
  let rooted := is_rooted rest in
  if negb rooted && bool_decide (scheme ≠ []) then Ok (mkFull scheme rest None [] [] [] query [])
  else if negb rooted && viaRequest then Err (lit "invalid URI for request")
  else
    '(user, host, rest) ←
      (if (bool_decide (scheme ≠ []) || (negb viaRequest && negb (has_prefix "///" rest))) && has_prefix "//" rest then
         let '(authority, rest) := cut_at "/" false (drop 2 rest) in
         '(user, host) ← parse_authority authority;
         Ok (user, host, rest)
       else Ok (None, [], rest));
    path ← or_escape (unescape rest);
    let rawPath := if bool_decide (EscapedPath path [] ≠ rest) && validEncodedPath rest then rest else [] in
    Ok (mkFull scheme [] user host path rawPath query []).

Definition parse_uri (viaRequest : bool) (rawurl : str) : result str FullURL :=
  if bool_decide (rawurl = []) && viaRequest then Err (lit "empty url")
  else if decide (rawurl = lit "*") then Ok (mkFull [] [] None [] (lit "*") [] [] [])
  else
    '(scheme, rest) ← getscheme rawurl;
    let '(rest, query) := cut_at "?" true rest in
    parse_rest viaRequest (to_lower scheme) rest query.

Definition url_error (rawurl : str) (e : str) : err := Text (lit "parse " ++ rawurl ++ lit ": " ++ e).

Definition ParseRequestURI (rawurl : str) : result err FullURL :=
  match parse_uri true rawurl with Ok u => Ok u | Err e => Err (url_error rawurl e) end.

Definition ParseURL (rawurl : str) : result err FullURL :=
  let '(u, frag) := cut_at "#" true rawurl in
  match parse_uri false u with
  | Err e => Err (url_error u e)
  | Ok url =>
      match or_escape (unescape frag) with
      | Err e => Err (url_error rawurl e)
      | Ok f => Ok (mkFull (fu_Scheme url) (fu_Opaque url) (fu_User url) (fu_Host url) (fu_Path url)
          (fu_RawPath url) (fu_RawQuery url) f)
      end
  end.

(** The method [String]. *)
Definition Full_String (u : FullURL) : str :=
  (match fu_Scheme u with [] => [] | s => s ++ [":"%char] end) ++
  (match fu_Opaque u with
   | _ :: _ => fu_Opaque u
   | [] =>
       let path := EscapedPath (fu_Path u) (fu_RawPath u) in
       (if bool_decide (fu_Scheme u ≠ [] ∨ fu_Host u ≠ [] ∨ fu_User u ≠ None) then
          lit "//" ++ (match fu_User u with Some user => user ++ ["@"%char] | None => [] end) ++ escape_host (fu_Host u)
        else []) ++
       (if bool_decide (path ≠ [] ∧ is_rooted path = false ∧ fu_Host u ≠ []) then ["/"%char] else []) ++ path
   end) ++
  (match fu_RawQuery u with [] => [] | q => "?"%char :: q end) ++
  (match fu_Fragment u with [] => [] | f => "#"%char :: FragmentEscape f end).

(** The hosts that are written as they are: names and addresses, with a
    port. *)
Definition plain_host (h : str) : bool :=
  bool_decide (h ≠ []) && forallb (λ c, url_unreserved c || bool_decide (c = ":"%char)) h.

(** What is used of the two parameters. *)
Record AuthorityLaws : Prop := {
  al_parse : ∀ h, plain_host h = true → parse_authority h = Ok (None, h);
  al_escape : ∀ h, plain_host h = true → escape_host h = h
}.
End authority.
Arguments al_parse {parse_authority escape_host} _.
Arguments al_escape {parse_authority escape_host} _.

Section demo.
#[local] Abbreviation parse_url := (ParseURL (λ _, true) (λ h, Ok (None, h))).

Example ParseURL_demo :
  parse_url "https://host:443/a%20b?q#f" = Ok (mkFull "https" [] None "host:443" "/a b" [] "q" "f") ∧
  parse_url "localhost:8080" = Ok (mkFull "localhost" "8080" None [] [] [] [] []) ∧
  parse_url "10.0.0.1:8080" = Ok (mkFull [] [] None [] "10.0.0.1:8080" [] [] []) ∧
  parse_url "kubernetes" = Ok (mkFull [] [] None [] "kubernetes" [] [] []) ∧
  parse_url "http:///x%2Fy" = Ok (mkFull "http" [] None [] "/x/y" "/x%2Fy" [] []) ∧
  parse_url ":80" = Err (Text "parse :80: missing protocol scheme").
Proof. vm_compute. repeat split. Qed.

Example Full_String_demo :
  (Full_String (λ h, h) <$> (parse_url "https://host:443/x%2Fy?q#f")) = Ok (lit "https://host:443/x%2Fy?q#f") ∧
  (Full_String (λ h, h) <$> (parse_url "localhost:8080")) = Ok (lit "localhost:8080").
Proof. vm_compute. repeat split. Qed.
End demo.
