(* ===== verification/KubeRequest.v ===== *)
(** * Requests to the API server (k8s.io/kubernetes/pkg/client/unversioned:
      request.go, restclient.go, ingress.go; pkg/util/http.go)

    A request is built by a chain of calls, each of which returns at once
    after the first error, then sent, again after each answer that asks for a
    delay, and its answer is turned into a result.  The HTTP client, the codec
    and the reading of files are parameters; sleeping is recorded. *)

From S2P Require Import Prelude GoStr Json KubeTypes Sets Labels Fields Errors ApiErrors GoUrl.

Local Open Scope go_scope.

(** ** The request under construction *)

Record Request := mkRequest {
  r_verb : str;
  r_baseURL : URL;
  r_path : str;
  r_subpath : str;
  r_params : option Values;
  r_headers : option Header;
  r_namespace : str;
  r_namespaceSet : bool;
  r_resource : str;
  r_resourceName : str;
  r_subresource : str;
  r_timeout : Z;
  r_apiVersion : str;
  r_err : option err;
  (** what the reader of the body still holds *)
  r_body : option str
}.

Definition set_path x r := mkRequest (r_verb r) (r_baseURL r) x (r_subpath r) (r_params r) (r_headers r)
  (r_namespace r) (r_namespaceSet r) (r_resource r) (r_resourceName r) (r_subresource r) (r_timeout r)
  (r_apiVersion r) (r_err r) (r_body r).
Definition set_subpath x r := mkRequest (r_verb r) (r_baseURL r) (r_path r) x (r_params r) (r_headers r)
  (r_namespace r) (r_namespaceSet r) (r_resource r) (r_resourceName r) (r_subresource r) (r_timeout r)
  (r_apiVersion r) (r_err r) (r_body r).
Definition set_params x r := mkRequest (r_verb r) (r_baseURL r) (r_path r) (r_subpath r) x (r_headers r)
  (r_namespace r) (r_namespaceSet r) (r_resource r) (r_resourceName r) (r_subresource r) (r_timeout r)
  (r_apiVersion r) (r_err r) (r_body r).
Definition set_headers x r := mkRequest (r_verb r) (r_baseURL r) (r_path r) (r_subpath r) (r_params r) x
  (r_namespace r) (r_namespaceSet r) (r_resource r) (r_resourceName r) (r_subresource r) (r_timeout r)
  (r_apiVersion r) (r_err r) (r_body r).
Definition set_namespace x b r := mkRequest (r_verb r) (r_baseURL r) (r_path r) (r_subpath r) (r_params r)
  (r_headers r) x b (r_resource r) (r_resourceName r) (r_subresource r) (r_timeout r) (r_apiVersion r)
  (r_err r) (r_body r).
Definition set_resource x r := mkRequest (r_verb r) (r_baseURL r) (r_path r) (r_subpath r) (r_params r)
  (r_headers r) (r_namespace r) (r_namespaceSet r) x (r_resourceName r) (r_subresource r) (r_timeout r)
  (r_apiVersion r) (r_err r) (r_body r).
Definition set_resourceName x r := mkRequest (r_verb r) (r_baseURL r) (r_path r) (r_subpath r) (r_params r)
  (r_headers r) (r_namespace r) (r_namespaceSet r) (r_resource r) x (r_subresource r) (r_timeout r)
  (r_apiVersion r) (r_err r) (r_body r).
Definition set_subresource x r := mkRequest (r_verb r) (r_baseURL r) (r_path r) (r_subpath r) (r_params r)
  (r_headers r) (r_namespace r) (r_namespaceSet r) (r_resource r) (r_resourceName r) x (r_timeout r)
  (r_apiVersion r) (r_err r) (r_body r).
Definition set_timeout x r := mkRequest (r_verb r) (r_baseURL r) (r_path r) (r_subpath r) (r_params r)
  (r_headers r) (r_namespace r) (r_namespaceSet r) (r_resource r) (r_resourceName r) (r_subresource r) x
  (r_apiVersion r) (r_err r) (r_body r).
Definition set_err x r := mkRequest (r_verb r) (r_baseURL r) (r_path r) (r_subpath r) (r_params r)
  (r_headers r) (r_namespace r) (r_namespaceSet r) (r_resource r) (r_resourceName r) (r_subresource r)
  (r_timeout r) (r_apiVersion r) (Some x) (r_body r).
Definition set_body x r := mkRequest (r_verb r) (r_baseURL r) (r_path r) (r_subpath r) (r_params r)
  (r_headers r) (r_namespace r) (r_namespaceSet r) (r_resource r) (r_resourceName r) (r_subresource r)
  (r_timeout r) (r_apiVersion r) (r_err r) x.

Definition NewRequest (verb : str) (baseURL : URL) (apiVersion : str) : Request :=
  mkRequest verb baseURL (url_Path baseURL) [] None None [] false [] [] [] 0 apiVersion None None.

(** Every call of the chain but [SetHeader] starts with the check of the error. *)
Definition unless_err (k : Request → Request) (r : Request) : Request :=
  match r_err r with Some _ => r | None => k r end.

Definition set_err_text (msg : str) (r : Request) : Request := set_err (Text msg) r.

Definition Prefix (segments : list str) : Request → Request := unless_err (λ r,
  set_path (path_join [r_path r; path_join segments]) r).

Definition Suffix (segments : list str) : Request → Request := unless_err (λ r,
  set_subpath (path_join [r_subpath r; path_join segments]) r).

(** ** Fields of selectors, by version and resource *)

Abbreviation clientFieldNameToAPIVersionFieldName := (gmap str str).
Abbreviation resourceTypeToFieldMapping := (gmap str (gmap str str)).
Abbreviation versionToResourceToFieldMapping := (gmap str (gmap str (gmap str str))).

Definition client_filterField (c : clientFieldNameToAPIVersionFieldName) (field value : str) :
    result str (str * str) :=
  match c !! field with
  | None => Err (field ++ lit " - " ++ value ++ lit " - no field mapping defined")
  | Some newFieldName => Ok (newFieldName, value)
  end.

Definition resource_filterField (r : resourceTypeToFieldMapping) (resourceType field value : str) :
    result str (str * str) :=
  match r !! resourceType with
  | None => Err (resourceType ++ lit " - " ++ field ++ lit " - " ++ value ++ lit " - no field mapping defined")
  | Some fMapping => client_filterField fMapping field value
  end.

(** It warns and keeps the field where there is no mapping. *)
Definition version_filterField (v : versionToResourceToFieldMapping)
    (apiVersion resourceType field value : str) : result str (str * str) :=
  match v !! apiVersion with
  | None => Ok (field, value)
  | Some rMapping =>
      match resource_filterField rMapping resourceType field value with
      | Err _ => Ok (field, value)
      | Ok new => Ok new
      end
  end.

Definition ObjectNameField : str := "metadata.name".
Definition NodeUnschedulable : str := "spec.unschedulable".
Definition PodHost : str := "spec.nodeName".
Definition PodStatus : str := "status.phase".
Definition SecretType : str := "type".

Definition same_names (l : list str) : gmap str str := list_to_map ((λ x, (x, x)) <$> l).

Definition fieldMappings : versionToResourceToFieldMapping :=
  {[ lit "v1" := list_to_map [
      (lit "nodes", list_to_map [(ObjectNameField, lit "metadata.name"); (NodeUnschedulable, lit "spec.unschedulable")]);
      (lit "pods", list_to_map [(PodHost, lit "spec.nodeName"); (PodStatus, lit "status.phase")]);
      (lit "secrets", {[SecretType := lit "type"]});
      (lit "serviceAccounts", {[ObjectNameField := lit "metadata.name"]});
      (lit "endpoints", {[ObjectNameField := lit "metadata.name"]});
      (lit "events", same_names [ObjectNameField; lit "reason"; lit "source"; lit "involvedObject.kind";
        lit "involvedObject.namespace"; lit "involvedObject.name"; lit "involvedObject.uid";
        lit "involvedObject.apiVersion"; lit "involvedObject.resourceVersion"; lit "involvedObject.fieldPath"])] ]}.

(** ** Parameters *)

Definition specialParams : strings := NewString [lit "timeout"].

Definition setParam (paramName value : str) (r : Request) : Request :=
  if Sets.Has specialParams paramName then
    set_err_text (lit "must set " ++ paramName ++ lit " through the corresponding function, not directly.") r
  else
    let params := default ∅ (r_params r) in
    set_params (Some (<[paramName := default [] (params !! paramName) ++ [value]]> params)) r.

Definition FieldsSelectorParam (s : option Selector) : Request → Request := unless_err (λ r,
  match s with
  | None => r
  | Some s =>
      if Fields.Empty s then r
      else match Transform (version_filterField fieldMappings (r_apiVersion r) (r_resource r)) s with
           | Err e => set_err_text e r
           | Ok s2 => setParam "fieldSelector" (Selector_String s2) r
           end
  end).

Definition LabelsSelectorParam (s : option LabelSelector) : Request → Request := unless_err (λ r,
  match s with
  | None => r
  | Some s => if Labels.Empty s then r else setParam "labelSelector" (Labels.String s) r
  end).

Definition UintParam (paramName : str) (u : Z) : Request → Request := unless_err (λ r,
  setParam paramName (format_uint u) r).

Definition Param (paramName s : str) : Request → Request := unless_err (setParam paramName s).

Definition SetHeader (key value : str) (r : Request) : Request :=
  set_headers (Some (Header_Set (default ∅ (r_headers r)) key value)) r.

Definition Timeout (d : Z) : Request → Request := unless_err (set_timeout d).

(** ** Paths *)

Definition UnversionedPath (segments : list str) : Request → Request := unless_err (λ r,
  let upath := clean (url_Path (r_baseURL r)) in
  let upath :=
    if has_prefix "v" (base upath) then
      let upath := dir upath in if decide (upath = lit ".") then lit "/" else upath
    else upath in
  set_path (path_join (upath :: segments)) r).

Definition AbsPath (segments : list str) : Request → Request := unless_err (λ r,
  match segments with
  | [segment] => set_path segment r
  | _ => set_path (path_join segments) r
  end).

(** The URL of the request as it stands. *)
Definition r_query (r : Request) : Values :=
  let query := default ∅ (r_params r) in
  if decide (r_timeout r ≠ 0)%Z then <[lit "timeout" := [Duration_String (r_timeout r)]]> query else query.

Definition r_final_path (r : Request) : str :=
  let p := r_path r in
  let p := if r_namespaceSet r && bool_decide (0 < length (r_namespace r)) then
    path_join [p; lit "namespaces"; r_namespace r] else p in
  let p := if decide (length (r_resource r) ≠ 0) then path_join [p; to_lower (r_resource r)] else p in
  if decide (length (r_resourceName r) ≠ 0 ∨ length (r_subpath r) ≠ 0 ∨ length (r_subresource r) ≠ 0)
  then path_join [p; r_resourceName r; r_subresource r; r_subpath r] else p.

Definition GetURL (r : Request) : URL :=
  mkURL (url_Scheme (r_baseURL r)) (url_Host (r_baseURL r)) (r_final_path r) (Encode (r_query r)).

Definition finalURLTemplate (r : Request) : str :=
  let r := if decide (length (r_resourceName r) ≠ 0) then set_resourceName "{name}" r else r in
  let r := if r_namespaceSet r && bool_decide (length (r_namespace r) ≠ 0) then
    set_namespace "{namespace}" true r else r in
  let newParams : Values := (λ _, [lit "{value}"]) <$> default ∅ (r_params r) in
  URL_String (GetURL (set_params (Some newParams) r)).

(** ** Answers *)

(** Errors of the transport; [NetErr] is any other than the end of file. *)
Inductive net_err :=
  | EOF
  | NetErr (text : str)
  | UrlErr (op url : str) (e : net_err).

Fixpoint net_Error (e : net_err) : str :=
  match e with
  | EOF => "EOF"
  | NetErr text => text
  | UrlErr op url e => op ++ " "%char :: url ++ lit ": " ++ net_Error e
  end.

Definition IsProbableEOF (e : net_err) : bool :=
  let e := match e with UrlErr _ _ e => e | _ => e end in
  match e with
  | EOF => true
  | _ =>
      bool_decide (net_Error e = lit "http: can't write HTTP request on broken connection") ||
      contains "connection reset by peer" (net_Error e) ||
      contains "use of closed network connection" (to_lower (net_Error e))
  end.

(** A body: what reading it to its end gives, and what reading it once more
    gives: the bytes, and an error. *)
Record Body := mkBody {
  bd_all : str * option err;
  bd_again : str * option err
}.

Record Response := mkResponse {
  rs_StatusCode : Z;
  rs_Status : str;
  rs_Header : Header;
  rs_Body : option Body
}.

Record http_request := mkHttp {
  hr_Method : str;
  hr_URL : str;
  hr_Header : option Header;
  hr_Body : option str
}.

Definition retryAfterSeconds (resp : Response) : Z * bool :=
  let h := Header_Get (rs_Header resp) "Retry-After" in
  if decide (0 < length h) then
    match atoi h with (i, None) => (i, true) | _ => (0%Z, false) end
  else (0%Z, false).

Definition checkWait (resp : Response) : Z * bool :=
  if decide (rs_StatusCode resp ≠ StatusTooManyRequests) then (0%Z, false) else retryAfterSeconds resp.

Definition isTextResponse (resp : Response) : bool :=
  let contentType := Header_Get (rs_Header resp) "Content-Type" in
  if decide (length contentType = 0) then true
  else match ParseMediaType contentType with
       | None => false
       | Some media => has_prefix "text/" media
       end.

(** ** The codec and the outside *)

Record Codec (Obj : Type) := mkCodec {
  codec_Encode : Obj → result err str;
  codec_Decode : str → result err Obj;
  codec_DecodeStatus : str → result err Status;
  (** what [FromObject] sees in an object *)
  codec_status : Obj → Status + str
}.
Arguments codec_Encode {Obj} _ _.
Arguments codec_Decode {Obj} _ _.
Arguments codec_DecodeStatus {Obj} _ _.
Arguments codec_status {Obj} _ _.

(** Sending: the new state of the world, what is left of the request's body,
    and the answer. *)
Definition Client (W : Type) : Type := W → http_request → W * str * result net_err Response.

Inductive body_value (Obj : Type) :=
  | BodyFile (name : str)
  | BodyBytes (data : str)
  | BodyReader (data : str)
  | BodyObject (obj : Obj)
  | BodyOther (text : str).
Arguments BodyFile {Obj} _.
Arguments BodyBytes {Obj} _.
Arguments BodyReader {Obj} _.
Arguments BodyObject {Obj} _.
Arguments BodyOther {Obj} _.

Record Result := mkResult {
  res_body : option str;
  res_err : option err;
  res_statusCode : Z
}.
Definition failed (e : err) : Result := mkResult None (Some e) 0.

(** What a request sent so far: each request, and the seconds slept after it. *)
Abbreviation attempts := (list (http_request * option Z)).

Section client.
Context {W Obj : Type}.
Variable printable : Z → bool.
Variable codec : Codec Obj.
Variable read_file : str → result err str.
Variable parse_url : str → result err (str * Values).
(** The error of [http.NewRequest] for a verb and a URL. *)
Variable bad_request : str → str → option err.
Variable client : Client W.
#[local] Abbreviation q s := (Quote printable s).

(** *** The rest of the chain *)

Definition already (what old new : str) (r : Request) : Request :=
  set_err_text (what ++ lit " already set to " ++ q old ++ lit ", cannot change to " ++ q new) r.

Definition Resource (resource : str) : Request → Request := unless_err (λ r,
  if decide (length (r_resource r) ≠ 0) then already "resource" (r_resource r) resource r
  else set_resource resource r).

Definition SubResource (subresources : list str) : Request → Request := unless_err (λ r,
  let subresource := path_join subresources in
  if decide (length (r_subresource r) ≠ 0) then already "subresource" (r_resource r) subresource r
  else set_subresource subresource r).

Definition Name (resourceName : str) : Request → Request := unless_err (λ r,
  if decide (length resourceName = 0) then set_err_text "resource name may not be empty" r
  else if decide (length (r_resourceName r) ≠ 0) then already "resource name" (r_resourceName r) resourceName r
  else set_resourceName resourceName r).

Definition Namespace (namespace : str) : Request → Request := unless_err (λ r,
  if r_namespaceSet r then already "namespace" (r_namespace r) namespace r
  else set_namespace namespace true r).

Definition NamespaceIfScoped (namespace : str) (scoped : bool) (r : Request) : Request :=
  if scoped then Namespace namespace r else r.

Definition RequestURI (uri : str) : Request → Request := unless_err (λ r,
  match parse_url uri with
  | Err e => set_err e r
  | Ok (path, query) =>
      let r := set_path path r in
      if decide (query = ∅) then r else set_params (Some (query ∪ default ∅ (r_params r))) r
  end).

Definition SetBody (obj : body_value Obj) : Request → Request := unless_err (λ r,
  match obj with
  | BodyFile name =>
      match read_file name with Err e => set_err e r | Ok data => set_body (Some data) r end
  | BodyBytes data | BodyReader data => set_body (Some data) r
  | BodyObject obj =>
      match codec_Encode codec obj with Err e => set_err e r | Ok data => set_body (Some data) r end
  | BodyOther text => set_err_text (lit "unknown type used for body: " ++ text) r
  end).

(** *** Sending *)

(** The checks before the first request. *)
Definition request_check (r : Request) : option err :=
  match r_err r with
  | Some e => Some e
  | None =>
      if decide (r_verb r = lit "GET" ∨ r_verb r = lit "PUT" ∨ r_verb r = lit "DELETE") then
        if r_namespaceSet r && bool_decide (0 < length (r_resourceName r) ∧ length (r_namespace r) = 0)
        then Some (Text "an empty namespace may not be set when a resource name is provided") else None
      else if decide (r_verb r = lit "POST") then
        if r_namespaceSet r && bool_decide (length (r_namespace r) = 0)
        then Some (Text "an empty namespace may not be set during creation") else None
      else None
  end.

Definition maxRetries : nat := 10.

Definition http_of (r : Request) : http_request :=
  mkHttp (r_verb r) (URL_String (GetURL r)) (r_headers r) (r_body r).

(** The body of [for]; [None] when the fuel ends. *)
Fixpoint request_loop (fuel retries : nat) (w : W) (r : Request) :
    option (W * Request * attempts * result err (http_request * Response)) :=
  match fuel with
  | 0 => None
  | S fuel =>
      let req := http_of r in
      match bad_request (r_verb r) (hr_URL req) with
      | Some e => Some (w, r, [], Err e)
      | None =>
          let '(w, rest, answer) := client w req in
          let r := set_body ((λ _, rest) <$> r_body r) r in
          match answer with
          | Err e => Some (w, r, [(req, None)], Err (Text (net_Error e)))
          | Ok resp =>
              let retries := S retries in
              let '(seconds, wait) := checkWait resp in
              if wait && bool_decide (retries < maxRetries) then
                (λ '(w, r, sent, out), (w, r, (req, Some seconds) :: sent, out)) <$>
                  request_loop fuel retries w r
              else Some (w, r, [(req, None)], Ok (req, resp))
          end
      end
  end.

Definition request (w : W) (r : Request) :
    option (W * Request * attempts * result err (http_request * Response)) :=
  match request_check r with
  | Some e => Some (w, r, [], Err e)
  | None => request_loop maxRetries 0 w r
  end.

(** The bytes of a body; none when there is no body or it cannot be read. *)
Definition read_body (resp : Response) : option str :=
  match rs_Body resp with
  | Some b => match bd_all b with (data, None) => Some data | _ => None end
  | None => None
  end.
Definition read_again (resp : Response) : option str :=
  match rs_Body resp with
  | Some b => match bd_again b with (data, None) => Some data | _ => None end
  | None => None
  end.

Definition transformUnstructuredResponseError (r : Request) (resp : Response) (req : http_request)
    (body : option str) : err :=
  let body := match body with None => read_again resp | Some _ => body end in
  let message := if isTextResponse resp then trim_space (default [] body) else lit "unknown" in
  let '(retryAfter, _) := retryAfterSeconds resp in
  NewGenericServerResponse (rs_StatusCode resp) (hr_Method req) (r_resource r) (r_resourceName r)
    message retryAfter true.

Definition success_code (code : Z) : bool := bool_decide (200 ≤ code ≤ 206)%Z.
Definition StatusSwitchingProtocols : Z := 101.

Definition transformResponse (r : Request) (resp : Response) (req : http_request) : Result :=
  let body := read_body resp in
  let status := match codec_DecodeStatus codec (default [] body) with
    | Ok status => if decide (st_Status status ≠ []) then Some status else None
    | Err _ => None
    end in
  if decide (rs_StatusCode resp ≠ StatusSwitchingProtocols ∧ success_code (rs_StatusCode resp) = false)
  then match status with
       | None => failed (transformUnstructuredResponseError r resp req body)
       | Some status => failed (FromObject (inl status))
       end
  else match status with
       | Some status =>
           if decide (st_Status status ≠ StatusSuccess ∧ success_code (rs_StatusCode resp) = false)
           then failed (FromObject (inl status))
           else mkResult body None (rs_StatusCode resp)
       | None => mkResult body None (rs_StatusCode resp)
       end.

(** [Do] without its metrics: the requests sent, and the result. *)
Definition Do (w : W) (r : Request) : option (W * Request * attempts * Result) :=
  (λ '(w, r', sent, out),
     (w, r', sent, match out with
       | Err e => failed e
       | Ok (req, resp) => transformResponse r resp req
       end)) <$> request w r.

(** [DoRaw]: the bytes and the error. *)
Definition DoRaw (w : W) (r : Request) : option (W * Request * attempts * (str * option err)) :=
  (λ '(w, r', sent, out),
     (w, r', sent, match out with
       | Err e => ([], Some e)
       | Ok (req, resp) => match rs_Body resp with Some b => bd_all b | None => ([], None) end
       end)) <$> request w r.

(** A watch that has ended, or one that reads the body of an answer. *)
Inductive watching := EmptyWatch | StreamWatch (resp : Response).

Definition Watch (w : W) (r : Request) : W * attempts * result err watching :=
  match r_err r with
  | Some e => (w, [], Err e)
  | None =>
      let req := mkHttp (r_verb r) (URL_String (GetURL r)) None (r_body r) in
      match bad_request (r_verb r) (hr_URL req) with
      | Some e => (w, [], Err e)
      | None =>
          let '(w, _, answer) := client w req in
          (w, [(req, None)],
           match answer with
           | Err e => if IsProbableEOF e then Ok EmptyWatch else Err (Text (net_Error e))
           | Ok resp =>
               if decide (rs_StatusCode resp ≠ 200%Z) then
                 match res_err (transformResponse r resp req) with
                 | Some e => Err e
                 | None => Err (Text (lit "for request '" ++ hr_URL req ++ lit "', got status: " ++
                     itoa (rs_StatusCode resp)))
                 end
               else Ok (StreamWatch resp)
           end)
      end
  end.

(** [Stream]: the body that is streamed. *)
Definition Stream (w : W) (r : Request) : W * attempts * result err (option Body) :=
  match r_err r with
  | Some e => (w, [], Err e)
  | None =>
      let req := mkHttp (r_verb r) (URL_String (GetURL r)) None None in
      match bad_request (r_verb r) (hr_URL req) with
      | Some e => (w, [], Err e)
      | None =>
          let '(w, _, answer) := client w req in
          (w, [(req, None)],
           match answer with
           | Err e => Err (Text (net_Error e))
           | Ok resp =>
               if decide (200 ≤ rs_StatusCode resp < 300)%Z then Ok (rs_Body resp)
               else
                 let '(bytes, e) := match rs_Body resp with Some b => bd_all b | None => ([], None) end in
                 match e with
                 | Some _ => Err (Text (rs_Status resp ++ lit " while accessing " ++ hr_URL req))
                 | None =>
                     let plain := Text (rs_Status resp ++ lit " while accessing " ++ hr_URL req ++ lit ": " ++ bytes) in
                     match codec_Decode codec bytes with
                     | Ok obj =>
                         match FromObject (codec_status codec obj) with
                         | StatusError st => Err (StatusError st)
                         | _ => Err plain
                         end
                     | Err _ => Err plain
                     end
                 end
           end)
      end
  end.

(** *** Results *)

Definition Raw (r : Result) : option str * option err := (res_body r, res_err r).
Definition Result_Get (r : Result) : result err Obj :=
  match res_err r with Some e => Err e | None => codec_Decode codec (default [] (res_body r)) end.
Definition Into {A} (decode : str → result err A) (r : Result) : result err A :=
  match res_err r with Some e => Err e | None => decode (default [] (res_body r)) end.
Definition WasCreated (r : Result) : bool := bool_decide (res_statusCode r = 201)%Z.
Definition Result_Error (r : Result) : option err := res_err r.
End client.

(** ** The REST client (restclient.go), without a limit on its rate *)

Record RESTClient := mkRESTClient {
  rc_baseURL : URL;
  rc_apiVersion : str;
  rc_Timeout : Z
}.

Definition has_suffix_slash (s : str) : bool := bool_decide (list.last s = Some "/"%char).

Definition NewRESTClient (baseURL : URL) (apiVersion : str) : RESTClient :=
  let path := if has_suffix_slash (url_Path baseURL) then url_Path baseURL else url_Path baseURL ++ lit "/" in
  mkRESTClient (mkURL (url_Scheme baseURL) (url_Host baseURL) path []) apiVersion 0.

Definition Verb (c : RESTClient) (verb : str) : Request :=
  Timeout (rc_Timeout c) (NewRequest verb (rc_baseURL c) (rc_apiVersion c)).
Definition Post (c : RESTClient) : Request := Verb c "POST".
Definition Put (c : RESTClient) : Request := Verb c "PUT".
Definition Patch (c : RESTClient) (pt : str) : Request := SetHeader "Content-Type" pt (Verb c "PATCH").
Definition GetVerb (c : RESTClient) : Request := Verb c "GET".
Definition DeleteVerb (c : RESTClient) : Request := Verb c "DELETE".

(** ** The client of Ingresses (ingress.go) *)

Section ingress.
Context {W : Type}.
Variable printable : Z → bool.
Variable codec : Codec Ingress.
Variable decode_Ingress : str → result err Ingress.
Variable read_file : str → result err str.
Variable bad_request : str → str → option err.
Variable client : Client W.
Variable c : RESTClient.
Variable ns : str.

#[local] Abbreviation namespaced r := (Resource printable "ingress" (Namespace printable ns r)).
#[local] Abbreviation body obj r := (SetBody codec read_file obj r).
#[local] Abbreviation run w r := (Do codec bad_request client w r).

Definition into {A} (decode : str → result err A) (o : option (W * Request * attempts * Result)) :
    option (W * attempts * result err A) :=
  (λ '(w, _, sent, res), (w, sent, Into decode res)) <$> o.
Definition only_error (o : option (W * Request * attempts * Result)) : option (W * attempts * option err) :=
  (λ '(w, _, sent, res), (w, sent, Result_Error res)) <$> o.

Definition ingress_List {L} (decode : str → result err L) (label : option LabelSelector) (field : option Selector)
    (w : W) : option (W * attempts * result err L) :=
  into decode (run w (FieldsSelectorParam field (LabelsSelectorParam label (namespaced (GetVerb c))))).

Definition ingress_Get_request (name : str) : Request := Name printable name (namespaced (GetVerb c)).
Definition ingress_Get (name : str) (w : W) : option (W * attempts * result err Ingress) :=
  into decode_Ingress (run w (ingress_Get_request name)).

Definition ingress_Create (ingress : Ingress) (w : W) : option (W * attempts * result err Ingress) :=
  into decode_Ingress (run w (body (BodyObject ingress) (namespaced (Post c)))).

Definition ingress_Update_request (ingress : Ingress) : Request :=
  body (BodyObject ingress) (Name printable (ing_Name ingress) (namespaced (Put c))).
Definition ingress_Update (ingress : Ingress) (w : W) : option (W * attempts * result err Ingress) :=
  into decode_Ingress (run w (ingress_Update_request ingress)).

(** The options are given encoded, or by the error of encoding them. *)
Definition ingress_Delete (name : str) (options : option (result err str)) (w : W) :
    option (W * attempts * option err) :=
  match options with
  | None => only_error (run w (Name printable name (namespaced (DeleteVerb c))))
  | Some (Err e) => Some (w, [], Some e)
  | Some (Ok data) =>
      only_error (run w (body (BodyBytes data) (Name printable name (namespaced (DeleteVerb c)))))
  end.

Definition ingress_Watch (label : option LabelSelector) (field : option Selector) (resourceVersion : str) (w : W) :
    W * attempts * result err watching :=
  Watch codec bad_request client w
    (FieldsSelectorParam field (LabelsSelectorParam label (Param "resourceVersion" resourceVersion
      (namespaced (Prefix [lit "watch"] (GetVerb c)))))).

Definition ingress_UpdateStatus (ingress : Ingress) (w : W) : option (W * attempts * result err Ingress) :=
  into decode_Ingress (run w (body (BodyObject ingress) (SubResource printable [lit "status"]
    (Name printable (ing_Name ingress) (namespaced (Put c)))))).
End ingress.
