(* ===== verification/KubeRequestSpec.v ===== *)
(** * Requests to the API server: specification

    Errors stick to a request, its path has the segments it was given, the
    loop over the answers ends, and the table of the results. *)

From S2P Require Import Prelude GoStr Json KubeTypes Sets Labels Fields Errors ApiErrors GoUrl GoUrlSpec FieldsSpec KubeRequest.

Local Open Scope go_scope.

(** ** Errors stick *)

Lemma unless_err_Some k r e : r_err r = Some e → unless_err k r = r.
Proof. intros H. unfold unless_err. by rewrite H. Qed.

Lemma unless_err_None k r : r_err r = None → unless_err k r = k r.
Proof. intros H. unfold unless_err. by rewrite H. Qed.

(** The calls of the chain, as data. *)
Inductive call (Obj : Type) :=
  | CPrefix (segments : list str) | CSuffix (segments : list str)
  | CResource (resource : str) | CSubResource (subresources : list str)
  | CName (name : str) | CNamespace (namespace : str) | CNamespaceIfScoped (namespace : str) (scoped : bool)
  | CUnversionedPath (segments : list str) | CAbsPath (segments : list str) | CRequestURI (uri : str)
  | CFieldsSelectorParam (s : option Selector) | CLabelsSelectorParam (s : option LabelSelector)
  | CUintParam (name : str) (u : Z) | CParam (name value : str) | CTimeout (d : Z)
  | CBody (obj : body_value Obj).
Arguments CPrefix {Obj} _.
Arguments CSuffix {Obj} _.
Arguments CResource {Obj} _.
Arguments CSubResource {Obj} _.
Arguments CName {Obj} _.
Arguments CNamespace {Obj} _.
Arguments CNamespaceIfScoped {Obj} _ _.
Arguments CUnversionedPath {Obj} _.
Arguments CAbsPath {Obj} _.
Arguments CRequestURI {Obj} _.
Arguments CFieldsSelectorParam {Obj} _.
Arguments CLabelsSelectorParam {Obj} _.
Arguments CUintParam {Obj} _ _.
Arguments CParam {Obj} _ _.
Arguments CTimeout {Obj} _.
Arguments CBody {Obj} _.

Section chain.
Context {W Obj : Type}.
Variable printable : Z → bool.
Variable codec : Codec Obj.
Variable read_file : str → result err str.
Variable parse_url : str → result err (str * Values).
Variable bad_request : str → str → option err.
Variable client : Client W.

Definition run_call (c : call Obj) (r : Request) : Request :=
  match c with
  | CPrefix l => Prefix l r
  | CSuffix l => Suffix l r
  | CResource x => Resource printable x r
  | CSubResource l => SubResource printable l r
  | CName x => Name printable x r
  | CNamespace x => Namespace printable x r
  | CNamespaceIfScoped x b => NamespaceIfScoped printable x b r
  | CUnversionedPath l => UnversionedPath l r
  | CAbsPath l => AbsPath l r
  | CRequestURI u => RequestURI parse_url u r
  | CFieldsSelectorParam s => FieldsSelectorParam s r
  | CLabelsSelectorParam s => LabelsSelectorParam s r
  | CUintParam k u => UintParam k u r
  | CParam k v => Param k v r
  | CTimeout d => Timeout d r
  | CBody o => SetBody codec read_file o r
  end.

Definition run_calls (cs : list (call Obj)) (r : Request) : Request := foldl (λ r c, run_call c r) r cs.

Lemma run_call_err c r e : r_err r = Some e → run_call c r = r.
Proof.
  intros H. destruct c; try exact (unless_err_Some _ r e H).
  cbn [run_call]. unfold NamespaceIfScoped. destruct scoped; [exact (unless_err_Some _ r e H)|done].
Qed.

Lemma run_calls_err cs r e : r_err r = Some e → run_calls cs r = r.
Proof.
  intros H. unfold run_calls. induction cs as [|c cs IH]; [done|]. simpl. by rewrite (run_call_err c r e H).
Qed.

(** the first error of a chain of calls is the error of the request: the
    calls after it change nothing, nothing is sent, and every way to end the
    chain reports it. *)
Theorem first_error_sticks (cs : list (call Obj)) (r : Request) (e : err) (w : W)
    (He : r_err r = Some e) :
  run_calls cs r = r ∧
  Do codec bad_request client w (run_calls cs r) = Some (w, r, [], failed e) ∧
  DoRaw bad_request client w (run_calls cs r) = Some (w, r, [], ([], Some e)) ∧
  Watch codec bad_request client w (run_calls cs r) = (w, [], Err e) ∧
  Stream codec bad_request client w (run_calls cs r) = (w, [], Err e).
Proof.
  rewrite (run_calls_err cs r e He). split; [done|].
  unfold Do, DoRaw, Watch, Stream, request, request_check. by rewrite He.
Qed.

(** ** The loop over the answers *)

Definition wait_of (resp : Response) : bool := snd (checkWait resp).

(** What a run of the loop leaves: everything but the reader of the body is
    as before. *)
Definition same_request (r r' : Request) : Prop := r' = set_body (r_body r') r.

Lemma same_request_set r b : same_request r (set_body b r).
Proof. unfold same_request. by destruct r. Qed.

Lemma same_request_trans r1 r2 r3 : same_request r1 r2 → same_request r2 r3 → same_request r1 r3.
Proof. unfold same_request. intros H1 H2. rewrite H2, H1. by destruct r1. Qed.

Lemma GetURL_set_body b r : GetURL (set_body b r) = GetURL r.
Proof. by destruct r. Qed.

(** The result of the loop, related to the answers: the inductive reading of
    the [for] loop. *)
Inductive answered : nat → W → Request → W → Request → attempts →
    result err (http_request * Response) → Prop :=
  | answered_bad n w r e :
      bad_request (r_verb r) (URL_String (GetURL r)) = Some e → answered n w r w r [] (Err e)
  | answered_net n w r w' rest e :
      bad_request (r_verb r) (URL_String (GetURL r)) = None →
      client w (http_of r) = (w', rest, Err e) →
      answered n w r w' (set_body ((λ _, rest) <$> r_body r) r) [(http_of r, None)]
        (Err (Text (net_Error e)))
  | answered_done n w r w' rest resp :
      bad_request (r_verb r) (URL_String (GetURL r)) = None →
      client w (http_of r) = (w', rest, Ok resp) →
      wait_of resp = false ∨ maxRetries ≤ S n →
      answered n w r w' (set_body ((λ _, rest) <$> r_body r) r) [(http_of r, None)]
        (Ok (http_of r, resp))
  | answered_wait n w r w' rest resp seconds w'' r'' sent out :
      bad_request (r_verb r) (URL_String (GetURL r)) = None →
      client w (http_of r) = (w', rest, Ok resp) →
      checkWait resp = (seconds, true) → S n < maxRetries →
      answered (S n) w' (set_body ((λ _, rest) <$> r_body r) r) w'' r'' sent out →
      answered n w r w'' r'' ((http_of r, Some seconds) :: sent) out.

Lemma request_loop_answered fuel n w r :
  maxRetries = fuel + n → fuel ≠ 0 →
  ∃ w' r' sent out, request_loop bad_request client fuel n w r = Some (w', r', sent, out) ∧
    answered n w r w' r' sent out.
Proof.
  revert n w r. induction fuel as [|fuel IH]; intros n w r Hf Hne; [done|].
  cbn [request_loop]. change (hr_URL (http_of r)) with (URL_String (GetURL r)).
  destruct (bad_request _ _) as [e|] eqn:Hb; [repeat eexists; by constructor|].
  destruct (client w (http_of r)) as [[w' rest] [resp|e]] eqn:Hc;
    [|repeat eexists; by econstructor].
  destruct (checkWait resp) as [seconds wait] eqn:Hw.
  destruct wait, (bool_decide_reflect (S n < maxRetries)) as [Hlt|Hge]; cbn [andb].
  - destruct (IH (S n) w' (set_body ((λ _, rest) <$> r_body r) r)) as (w'' & r'' & sent & out & -> & Ha);
      [lia|lia|].
    repeat eexists. by econstructor.
  - repeat eexists. econstructor; [done..|]. right. lia.
  - repeat eexists. econstructor; [done..|]. left. unfold wait_of. by rewrite Hw.
  - repeat eexists. econstructor; [done..|]. left. unfold wait_of. by rewrite Hw.
Qed.

Lemma request_answered w r :
  request_check r = None →
  ∃ w' r' sent out, request bad_request client w r = Some (w', r', sent, out) ∧
    answered 0 w r w' r' sent out.
Proof. intros H. unfold request. rewrite H. by apply request_loop_answered. Qed.

Lemma answered_same n w r w' r' sent out : answered n w r w' r' sent out → same_request r r'.
Proof.
  induction 1; [unfold same_request; by destruct r|apply same_request_set..|].
  eapply same_request_trans; [|eassumption]. apply same_request_set.
Qed.

(** Between two requests it slept, after the last it did not. *)
Definition sleeps_between (sent : attempts) : Prop :=
  ∀ i a, sent !! i = Some a → is_Some (snd a) ↔ S i < length sent.

Lemma sleeps_between_cons a s sent :
  sent ≠ [] → sleeps_between sent → sleeps_between ((a, Some s) :: sent).
Proof.
  intros Hne H i b. destruct i as [|i]; simpl.
  - intros [= <-]. split; [|by eexists]. destruct sent; [done|]. simpl. lia.
  - intros Hi. rewrite (H i b Hi). lia.
Qed.

Lemma sleeps_between_one a : sleeps_between [(a, None)].
Proof.
  intros [|i] b; [|done]. intros [= <-]. split; [by intros []|]. simpl. lia.
Qed.

Lemma answered_sent n w r w' r' sent out :
  answered n w r w' r' sent out → bad_request (r_verb r) (URL_String (GetURL r)) = None →
  sent ≠ [] ∧ sleeps_between sent.
Proof.
  induction 1 as [| | |? ? r ? ? ? ? ? ? ? ? ? ? ? ? ? IH]; intros Hb; [congruence|by (split; [|apply sleeps_between_one])..|].
  destruct IH as [Hne Hs]; [by destruct r|]. split; [done|]. by apply sleeps_between_cons.
Qed.

Lemma answered_length n w r w' r' sent out :
  answered n w r w' r' sent out → n < maxRetries → length sent + n ≤ maxRetries.
Proof. induction 1; simpl; lia. Qed.

Lemma answered_out n w r w' r' sent out req resp :
  answered n w r w' r' sent out → out = Ok (req, resp) →
  (wait_of resp = false ∨ maxRetries ≤ length sent + n) ∧
  (∃ s, list.last sent = Some (req, s)).
Proof.
  induction 1 as [| |? ? ? ? ? ? ? ? Hw|n w r w' rest resp' seconds w'' r'' sent out ? ? ? ? ? IH];
    intros [= E].
  - subst. split; [|by eexists]. destruct Hw; [by left|right; simpl; lia].
  - destruct (IH E) as [Hw [s Hs]]. split; [destruct Hw; [by left|right; simpl; lia]|].
    exists s. rewrite last_cons, Hs. done.
Qed.

(** C23: sending a request ends: after at most ten requests to the server, all
    of them alike but for what is left of the body, with a sleep between two;
    an answer that is handed on asks for no delay, unless it is the tenth. *)
Theorem request_ends (w : W) (r : Request) :
  ∃ w' r' sent out, request bad_request client w r = Some (w', r', sent, out) ∧
    same_request r r' ∧ length sent ≤ maxRetries ∧ sleeps_between sent ∧
    Forall (λ a, hr_Method (fst a) = r_verb r ∧ hr_URL (fst a) = URL_String (GetURL r) ∧
      hr_Header (fst a) = r_headers r) sent ∧
    (request_check r ≠ None → sent = [] ∧ w' = w) ∧
    (∀ req resp, out = Ok (req, resp) →
       (wait_of resp = false ∨ length sent = maxRetries) ∧ (∃ s, list.last sent = Some (req, s))).
Proof.
  destruct (request_check r) as [e|] eqn:Hc.
  - exists w, r, [], (Err e). unfold request. rewrite Hc. split; [done|].
    split; [by destruct r|]. split; [simpl; lia|]. split; [by intros i a; destruct i|].
    split; [constructor|]. split; [done|]. by intros.
  - destruct (request_answered w r Hc) as (w' & r' & sent & out & Hr & Ha).
    exists w', r', sent, out. pose proof (answered_length _ _ _ _ _ _ _ Ha ltac:(compute; lia)) as Hlen.
    repeat split_and; try done; [by apply (answered_same _ _ _ _ _ _ _ Ha)|lia| | |].
    + destruct (bad_request (r_verb r) (URL_String (GetURL r))) eqn:Hb.
      * inversion Ha; subst; try congruence. by intros i a; destruct i.
      * by apply (answered_sent _ _ _ _ _ _ _ Ha).
    + clear -Ha. induction Ha as [| | |n w r w' rest resp s w'' r'' sent out ? ? ? ? ? IH];
        [done|by repeat constructor..|]. constructor; [done|].
      destruct r. exact IH.
    + intros req resp Ho. destruct (answered_out _ _ _ _ _ _ _ _ _ Ha Ho) as [Hw Hl].
      split; [|done]. destruct Hw; [by left|right; lia].
Qed.

(** a request that is sent again has an empty body: the reader of the body
    is not set back, so that with a client that reads bodies to their end the
    server gets the body with the first request only. *)
Theorem retry_loses_body (w : W) (r : Request) w' r' a sent out
    (Hdrain : ∀ w req, snd (fst (client w req)) = [])
    (Hr : request bad_request client w r = Some (w', r', a :: sent, out)) :
  hr_Body (fst a) = r_body r ∧
  Forall (λ b, hr_Body (fst b) = ((λ _, []) <$> r_body r)) sent.
Proof.
  destruct (request_check r) as [e|] eqn:Hc; [unfold request in Hr; by rewrite Hc in Hr|].
  destruct (request_answered w r Hc) as (w1 & r1 & sent1 & out1 & Hr1 & Ha). simplify_eq.
  assert (∀ n w r w' r' sent out, answered n w r w' r' sent out → r_body r = (λ _, []) <$> r_body r →
    Forall (λ b, hr_Body (fst b) = ((λ _, []) <$> r_body r)) sent) as Hrest.
  { clear -Hdrain. induction 1 as [| | |n w r w' rest resp s w'' r'' sent out ? Hcl ? ? ? IH]; intros Hb;
      [done|repeat constructor; exact Hb..|].
    assert (rest = []) as -> by (by rewrite <- (Hdrain w (http_of r)), Hcl).
    constructor; [exact Hb|]. destruct r as [? ? ? ? ? ? ? ? ? ? ? ? ? ? b]. simpl in *.
    destruct b; simpl in *; by apply IH. }
  inversion Ha as [| | |? ? ? ? rest ? ? ? ? ? ? ? Hcl ? ? Ha']; subst; [by split; [|constructor]..|].
  split; [done|].
  assert (rest = []) as -> by (by rewrite <- (Hdrain w (http_of r)), Hcl).
  apply Hrest in Ha'; destruct r as [? ? ? ? ? ? ? ? ? ? ? ? ? ? b]; simpl in *; by destruct b.
Qed.
End chain.

(** ** The path of an object *)

Lemma path_join_name p x :
  is_rooted p = true → path_join [p; x; []; []] = path_of (reverse (segs_from (segs_from [] p) x)).
Proof.
  intros Hp. rewrite path_join_rooted by done.
  change (join "/" [p; x; []; []]) with (p ++ "/"%char :: (x ++ "/"%char :: ([] ++ "/"%char :: []))).
  rewrite clean_rooted, clean_segs_rooted by by apply is_rooted_app.
  by rewrite !segs_from_app, !segs_from_nil.
Qed.

Section object_path.
Variable printable : Z → bool.
Variable c : RESTClient.

Definition base_segs : list str := clean_segs (url_Path (rc_baseURL c)).

Lemma ingress_Get_request_eq ns name :
  name ≠ [] →
  ingress_Get_request printable c ns name =
    mkRequest "GET" (rc_baseURL c) (url_Path (rc_baseURL c)) [] None None ns true "ingress" name []
      (rc_Timeout c) (rc_apiVersion c) None None.
Proof. by destruct name. Qed.

(** The path up to the collection of the Ingresses of a namespace. *)
Definition collection_segs (ns : str) : list str := base_segs ++ [lit "namespaces"; ns; lit "ingress"].

Lemma collection_good ns :
  is_rooted (url_Path (rc_baseURL c)) = true → good_segment ns = true → good_segments (collection_segs ns).
Proof.
  intros Hb Hns. apply list.Forall_app. split; [by apply clean_segs_good|]. by repeat constructor.
Qed.

Lemma Get_request_path ns name :
  is_rooted (url_Path (rc_baseURL c)) = true → good_segment ns = true → name ≠ [] →
  r_final_path (ingress_Get_request printable c ns name) =
    path_of (reverse (segs_from (reverse (collection_segs ns)) name)).
Proof.
  intros Hb Hns Hn. rewrite ingress_Get_request_eq by done. unfold r_final_path. cbn [r_path r_namespaceSet
    r_namespace r_resource r_resourceName r_subpath r_subresource andb].
  rewrite bool_decide_true by (apply good_segment_inv in Hns; destruct ns; [naive_solver|simpl; lia]).
  rewrite decide_True by (left; by destruct name). rewrite decide_True by done.
  change (to_lower "ingress") with (lit "ingress").
  rewrite (path_join_good (url_Path _) [_; ns]) by (done || by repeat constructor).
  assert (good_segments (clean_segs (url_Path (rc_baseURL c)) ++ [lit "namespaces"; ns])) as Hg.
  { apply list.Forall_app. split; [by apply clean_segs_good|]. by repeat constructor. }
  rewrite (path_join_good (path_of _) [lit "ingress"]) by (done || by repeat constructor).
  rewrite clean_segs_path_of, <- app_assoc by done. rewrite path_join_name by done.
  change (_ ++ _ ++ [lit "ingress"]) with (collection_segs ns).
  pose proof (clean_segs_path_of _ (collection_good ns Hb Hns)) as Hc.
  rewrite clean_segs_rooted in Hc by done.
  by rewrite <- (reverse_involutive (segs_from [] _)), Hc.
Qed.

(** The path may lack its slash at the beginning: then the text of the URL has
    one after the host. *)
Lemma URL_String_eq u :
  url_Path u ≠ [] →
  URL_String u = url_prefix u ++
    (if negb (is_rooted (url_Path u)) && bool_decide (url_Host u ≠ []) then lit "/" else []) ++ PathEscape (url_Path u) ++
    (match url_RawQuery u with [] => [] | q => "?"%char :: q end).
Proof.
  intros Hv. unfold URL_String. do 2 f_equal. destruct (url_Path u) as [|x p] eqn:E; [done|]. cbn [is_rooted].
  assert (∃ a l, PathEscape (x :: p) = a :: l ∧ (a = "/"%char ↔ x = "/"%char)) as (a & l & -> & Ha).
  { unfold PathEscape. cbn [mbind list_bind]. destruct (url_unreserved x || path_reserved x) eqn:Hx.
    - by exists x, (p ≫= λ c, if url_unreserved c || path_reserved c then [c] else percent c).
    - exists "%"%char. eexists. split; [done|]. split; [done|]. by intros ->. }
  destruct (decide (x = "/"%char)) as [->|Hx].
  - rewrite decide_False by naive_solver. done.
  - rewrite (bool_decide_false _ Hx). cbn [negb andb].
    destruct (decide (url_Host u = [])) as [->|Hh]; [by rewrite decide_False by naive_solver|].
    rewrite decide_True by naive_solver. by rewrite bool_decide_true.
Qed.

Lemma URL_String_path u u' :
  url_Scheme u = url_Scheme u' → url_Host u = url_Host u' → url_RawQuery u = url_RawQuery u' →
  url_Path u ≠ [] → url_Path u' ≠ [] → is_rooted (url_Path u) = is_rooted (url_Path u') →
  URL_String u = URL_String u' → url_Path u = url_Path u'.
Proof.
  intros H1 H2 H3 Hu Hu' Hr E. rewrite (URL_String_eq u Hu), (URL_String_eq u' Hu') in E. unfold url_prefix in E.
  rewrite H1, H2, H3, Hr in E. apply app_inv_head, app_inv_head, app_inv_tail in E. by apply PathEscape_inj.
Qed.

Lemma Get_request_path_at ns name :
  good_segments base_segs → good_segment ns = true → good_segment name = true →
  url_Path (GetURL (ingress_Get_request printable c ns name)) =
    path_at (is_rooted (url_Path (rc_baseURL c))) (collection_segs ns ++ [name]).
Proof.
  intros Hb Hns Hn. pose proof (good_segment_inv name Hn) as (Hne & _). pose proof (good_segment_inv ns Hns) as (Hne' & _).
  rewrite ingress_Get_request_eq by done. cbn [GetURL url_Path]. unfold r_final_path. cbn [r_path r_namespaceSet
    r_namespace r_resource r_resourceName r_subpath r_subresource andb].
  rewrite bool_decide_true by (destruct ns; [done|simpl; lia]).
  rewrite decide_True by (left; by destruct name). rewrite decide_True by done.
  change (to_lower "ingress") with (lit "ingress").
  assert (H1 : good_segments [lit "namespaces"; ns]) by by repeat constructor.
  assert (H2 : good_segments (base_segs ++ [lit "namespaces"; ns])) by by apply list.Forall_app.
  rewrite (path_join_at (url_Path _) [_; ns]);
    [|done|by rewrite filter_cons_True by done|plain].
  rewrite (filter_cons_True _ (lit "namespaces")), (filter_cons_True _ ns), filter_nil by done. fold base_segs.
  rewrite (path_join_at _ [lit "ingress"]), clean_segs_at, path_at_rooted;
    [|by destruct base_segs|done|by destruct base_segs|done|by rewrite clean_segs_at by (done || by destruct base_segs)
    |done|plain].
  change (filter (λ s, s ≠ []) [lit "ingress"]) with [lit "ingress"]. rewrite <- app_assoc.
  change ([lit "namespaces"; ns] ++ [lit "ingress"]) with [lit "namespaces"; ns; lit "ingress"].
  fold (collection_segs ns).
  assert (Hc : good_segments (collection_segs ns)) by (apply list.Forall_app; split; [done|by repeat constructor]).
  assert (Hcn : collection_segs ns ≠ []) by (unfold collection_segs; by destruct base_segs).
  rewrite path_join_at, clean_segs_at, path_at_rooted; try done.
  - rewrite (filter_cons_True _ name) by done. by rewrite !filter_cons_False, filter_nil by naive_solver.
  - by rewrite clean_segs_at.
  - by rewrite (filter_cons_True _ name).
  - plain.
Qed.

Lemma Get_request_url_inj ns name ns' name' :
  good_segments base_segs →
  good_segment ns = true → good_segment name = true → good_segment ns' = true → good_segment name' = true →
  URL_String (GetURL (ingress_Get_request printable c ns name)) =
    URL_String (GetURL (ingress_Get_request printable c ns' name')) → ns = ns' ∧ name = name'.
Proof.
  intros Hb Hns Hn Hns' Hn' E.
  assert (Hg : ∀ ns name, good_segment ns = true → good_segment name = true → good_segments (collection_segs ns ++ [name])).
  { intros n m ??. apply list.Forall_app. split; [apply list.Forall_app; split; [done|]|]; by repeat constructor. }
  assert (Hne : ∀ l (x : str), l ++ [x] ≠ []) by by intros [].
  pose proof (good_segment_inv name Hn) as (Hnm & _). pose proof (good_segment_inv name' Hn') as (Hnm' & _).
  assert (Hpne : ∀ b l, l ≠ [] → good_segments l → path_at b l ≠ []).
  { intros b l Hl Hgl E'. pose proof (clean_segs_at b l Hl Hgl) as Hc. rewrite E' in Hc. by subst l. }
  apply URL_String_path in E.
  - rewrite !Get_request_path_at in E by done. apply path_at_inj in E; [|auto..].
    apply app_inj_2 in E as [E1 [= ->]]; [|done]. apply app_inv_head in E1. by injection E1 as ->.
  - by rewrite !ingress_Get_request_eq by done.
  - by rewrite !ingress_Get_request_eq by done.
  - by rewrite !ingress_Get_request_eq by done.
  - rewrite Get_request_path_at by done. auto.
  - rewrite Get_request_path_at by done. auto.
  - rewrite !Get_request_path_at by done. by rewrite !path_at_rooted by auto.
Qed.

(** C24: the request for an Ingress goes to its own path: the segments of the
    base, [namespaces], the namespace, [ingress] and the name; requests for
    different Ingresses have different URLs. *)
Theorem Get_request_url (ns name ns' name' : str)
    (Hb : good_segments base_segs)
    (Hns : good_segment ns = true) (Hn : good_segment name = true)
    (Hns' : good_segment ns' = true) (Hn' : good_segment name' = true) :
  url_Path (GetURL (ingress_Get_request printable c ns name)) =
    path_at (is_rooted (url_Path (rc_baseURL c))) (collection_segs ns ++ [name]) ∧
  (URL_String (GetURL (ingress_Get_request printable c ns name)) =
     URL_String (GetURL (ingress_Get_request printable c ns' name')) → ns = ns' ∧ name = name').
Proof. split; [by apply Get_request_path_at|by apply Get_request_url_inj]. Qed.

(** a name is not checked before it becomes a segment of the path: the
    request for the Ingress [..] of a namespace goes to the namespace itself. *)
Theorem Get_request_dotdot (ns : str)
    (Hb : is_rooted (url_Path (rc_baseURL c)) = true) (Hns : good_segment ns = true) :
  r_err (ingress_Get_request printable c ns (lit "..")) = None ∧
  url_Path (GetURL (ingress_Get_request printable c ns (lit ".."))) =
    path_of (base_segs ++ [lit "namespaces"; ns]).
Proof.
  split; [done|]. cbn [GetURL url_Path]. rewrite Get_request_path by done.
  assert (collection_segs ns = (base_segs ++ [lit "namespaces"; ns]) ++ [lit "ingress"]) as ->
    by (unfold collection_segs; by rewrite <- app_assoc).
  rewrite reverse_snoc. generalize (base_segs ++ [lit "namespaces"; ns]). intros l.
  change (segs_from (lit "ingress" :: reverse l) (lit "..")) with (reverse l).
  by rewrite reverse_involutive.
Qed.
End object_path.

(** ** The fields of a selector *)

Lemma fieldMappings_same :
  map_Forall (λ _ rm, map_Forall (λ _ m, map_Forall (λ k x : str, k = x) m) rm) fieldMappings.
Proof. apply (bool_decide_unpack _). vm_compute. exact I. Qed.

Lemma version_filterField_id apiVersion resource field value :
  version_filterField fieldMappings apiVersion resource field value = Ok (field, value).
Proof.
  unfold version_filterField. destruct (fieldMappings !! apiVersion) as [rm|] eqn:Hv; [|done].
  unfold resource_filterField. destruct (rm !! resource) as [m|] eqn:Hr; [|done].
  unfold client_filterField. destruct (m !! field) as [x|] eqn:Hf; [|done].
  by rewrite (fieldMappings_same _ _ Hv _ _ Hr _ _ Hf).
Qed.

(** the table of field names changes no field and refuses none: the
    parameter that is sent is the text of the selector itself, for every
    version and resource. *)
Theorem FieldsSelectorParam_spec (s : Selector) (r : Request)
    (He : r_err r = None) (Hs : Fields.Empty s = false) :
  FieldsSelectorParam (Some s) r = setParam "fieldSelector" (Selector_String s) r ∧
  r_err (FieldsSelectorParam (Some s) r) = None ∧
  default ∅ (r_params (FieldsSelectorParam (Some s) r)) !! lit "fieldSelector" =
    Some (default [] (default ∅ (r_params r) !! lit "fieldSelector") ++ [Selector_String s]).
Proof.
  assert (FieldsSelectorParam (Some s) r = setParam "fieldSelector" (Selector_String s) r) as ->.
  { unfold FieldsSelectorParam. rewrite unless_err_None, Hs by done.
    rewrite (Transform_identity _ (version_filterField_id _ _)). done. }
  split; [done|]. unfold setParam. change (Sets.Has specialParams (lit "fieldSelector")) with false.
  split; [done|]. apply lookup_insert_eq.
Qed.

(** ** The table of results *)

Section results.
Context {Obj : Type}.
Variable codec : Codec Obj.

(** The Status an answer holds, if its body is one. *)
Definition status_in (resp : Response) : option Status :=
  match codec_DecodeStatus codec (default [] (read_body resp)) with
  | Ok st => if decide (st_Status st ≠ []) then Some st else None
  | Err _ => None
  end.

Definition error_message (resp : Response) : str :=
  if isTextResponse resp then
    trim_space (default [] (match read_body resp with Some b => Some b | None => read_again resp end))
  else lit "unknown".

Definition error_of_answer (r : Request) (resp : Response) (req : http_request) : err :=
  match status_in resp with
  | Some st => StatusError st
  | None => NewGenericServerResponse (rs_StatusCode resp) (hr_Method req) (r_resource r) (r_resourceName r)
      (error_message resp) (fst (retryAfterSeconds resp)) true
  end.

(** the result of an answer: with a code from 200 to 206 it is the body,
    even when the body is a Status that reports a failure; with 101 it is the
    body unless that is such a Status; with every other code it is an error,
    the Status of the body or one made up from the code. *)
Theorem transformResponse_spec (r : Request) (resp : Response) (req : http_request) :
  let code := rs_StatusCode resp in
  ((200 ≤ code ≤ 206)%Z →
    transformResponse codec r resp req = mkResult (read_body resp) None code) ∧
  (code = 101%Z → transformResponse codec r resp req =
    match status_in resp with
    | Some st => if decide (st_Status st = StatusSuccess) then mkResult (read_body resp) None code
                 else failed (StatusError st)
    | None => mkResult (read_body resp) None code
    end) ∧
  (code ≠ 101%Z → ¬ (200 ≤ code ≤ 206)%Z →
    transformResponse codec r resp req = failed (error_of_answer r resp req)).
Proof.
  cbv zeta. unfold transformResponse. fold (status_in resp).
  unfold success_code, StatusSwitchingProtocols. split_and!.
  - intros Hc. rewrite bool_decide_true by done. rewrite decide_False by naive_solver.
    destruct (status_in resp); [|done]. by rewrite decide_False by naive_solver.
  - intros ->. rewrite decide_False by naive_solver. destruct (status_in resp) as [st|]; [|done].
    change (bool_decide (200 ≤ 101 ≤ 206)%Z) with false.
    destruct (decide (st_Status st = StatusSuccess)); [by rewrite decide_False by naive_solver|].
    by rewrite decide_True.
  - intros H1 H2. rewrite bool_decide_false by done. rewrite decide_True by done.
    unfold error_of_answer. destruct (status_in resp); [done|].
    unfold transformUnstructuredResponseError, error_message.
    by destruct (retryAfterSeconds resp), (read_body resp).
Qed.
End results.

(** ** Witnesses *)

Definition demo_status : Status :=
  mkStatus zero_TypeMeta (mkListMeta [] []) StatusFailure "no" StatusReasonNotFound None 404.

(** A codec of texts that takes ["S"] for a Status. *)
Definition demo_codec : Codec str := mkCodec str Ok Ok
  (λ s, if decide (s = lit "S") then Ok demo_status else Err (Text "not a status")) inr.

Definition demo_answer (code : Z) (body : str) : Response :=
  mkResponse code "status" {[lit "Retry-After" := [lit "1"]]} (Some (mkBody (body, None) ([], None))).

(** A server that asks for a delay twice, and a client that reads bodies. *)
Definition demo_client : Client nat := λ n req,
  (S n, [], Ok (if decide (n < 2) then demo_answer 429 "busy" else demo_answer 200 "S")).

Definition demo_base : URL := mkURL "http" "host" "/apis/extensions/v1beta1/" [].
Definition demo_rest : RESTClient := NewRESTClient demo_base "v1".
Definition demo_put : Request := set_body (Some (lit "data")) (Put demo_rest).

Lemma first_error_sticks_witness :
  Do demo_codec (λ _ _, None) demo_client 0
    (run_calls (λ _, false) demo_codec (λ _, Ok []) (λ _, Ok ([], ∅))
      [CName (lit "web"); CBody (BodyBytes (lit "x"))] (Name (λ _, false) [] (Put demo_rest))) =
  Some (0, Name (λ _, false) [] (Put demo_rest), [], failed (Text "resource name may not be empty")).
Proof.
  destruct (first_error_sticks (λ _, false) demo_codec (λ _, Ok []) (λ _, Ok ([], ∅)) (λ _ _, None) demo_client
    [CName (lit "web"); CBody (BodyBytes (lit "x"))] (Name (λ _, false) [] (Put demo_rest))
    (Text "resource name may not be empty") 0) as (_ & H & _); [reflexivity|exact H].
Defined.

Lemma retry_loses_body_witness :
  ∃ w' r' a sent out, request (λ _ _, None) demo_client 0 demo_put = Some (w', r', a :: sent, out) ∧
    length sent = 2 ∧ hr_Body (fst a) = Some (lit "data") ∧ Forall (λ b, hr_Body (fst b) = Some []) sent.
Proof.
  destruct (request (λ _ _, None) demo_client 0 demo_put) as [[[[w' r'] [|a sent]] out]|] eqn:E;
    [vm_compute in E; discriminate E| |vm_compute in E; discriminate E].
  exists w', r', a, sent, out. split; [reflexivity|].
  destruct (retry_loses_body (λ _ _, None) demo_client 0 demo_put w' r' a sent out) as [H1 H2];
    [reflexivity|exact E|].
  split; [|split; [exact H1|exact H2]]. vm_compute in E. by simplify_eq.
Defined.

Lemma Get_request_url_witness :
  url_Path (GetURL (ingress_Get_request (λ _, false) demo_rest "default" "web")) =
    lit "/apis/extensions/v1beta1/namespaces/default/ingress/web" ∧
  URL_String (GetURL (ingress_Get_request (λ _, false) demo_rest "default" "web")) ≠
    URL_String (GetURL (ingress_Get_request (λ _, false) demo_rest "default" "api")).
Proof.
  destruct (Get_request_url (λ _, false) demo_rest "default" "web" "default" "api") as [H1 H2];
    [by apply (bool_decide_unpack _); vm_compute|vm_compute; reflexivity..|].
  split; [rewrite H1; vm_compute; reflexivity|]. intros E. by destruct (H2 E).
Defined.

Lemma Get_request_dotdot_witness :
  url_Path (GetURL (ingress_Get_request (λ _, false) demo_rest "default" "..")) =
    lit "/apis/extensions/v1beta1/namespaces/default".
Proof.
  destruct (Get_request_dotdot (λ _, false) demo_rest "default") as [_ H]; [vm_compute; reflexivity..|].
  etransitivity; [exact H|]. vm_compute. reflexivity.
Defined.

Lemma FieldsSelectorParam_spec_witness :
  r_params (FieldsSelectorParam (Some (hasTerm (lit "spec.nodeName") (lit "n1"))) (GetVerb demo_rest)) =
    Some {[lit "fieldSelector" := [lit "spec.nodeName=n1"]]} .
Proof.
  destruct (FieldsSelectorParam_spec (hasTerm (lit "spec.nodeName") (lit "n1")) (GetVerb demo_rest))
    as (H & _); [reflexivity..|].
  rewrite H. vm_compute. reflexivity.
Defined.

Lemma transformResponse_spec_witness :
  res_err (transformResponse demo_codec demo_put (demo_answer 200 "S") (http_of demo_put)) = None ∧
  transformResponse demo_codec demo_put (demo_answer 404 "S") (http_of demo_put) =
    failed (StatusError demo_status).
Proof.
  split.
  - destruct (transformResponse_spec demo_codec demo_put (demo_answer 200 "S") (http_of demo_put)) as (H & _).
    rewrite H; [reflexivity|]. simpl. lia.
  - destruct (transformResponse_spec demo_codec demo_put (demo_answer 404 "S") (http_of demo_put)) as (_ & _ & H).
    rewrite H; [reflexivity| |]; simpl; lia.
Defined.
