(* ===== verification/Validation.v ===== *)
(** * Validation of objects (k8s.io/kubernetes/pkg/api/validation/validation.go,
      pkg/util/validation/validation.go)

    What the server checks of the metadata of every object, and of Secrets.
    A validator returns the list of its errors; slicing out of range makes it
    panic.  How values that are not strings are printed in an error, and the
    order in which a map is gone through, are parameters. *)

From S2P Require Import Prelude GoStr Json KubeTypes Sets Labels Errors.

Local Open Scope go_scope.

(** ** Formats (pkg/util/validation) *)

Definition DNS1123LabelFmt : str := "[a-z0-9]([-a-z0-9]*[a-z0-9])?".
Definition DNS1123SubdomainFmt : str := DNS1123LabelFmt ++ lit "(\." ++ DNS1123LabelFmt ++ lit ")*".
Definition DNS952LabelFmt : str := "[a-z]([-a-z0-9]*[a-z0-9])?".
Definition QualifiedNameFmt : str := "([A-Za-z0-9][-A-Za-z0-9_.]*)?[A-Za-z0-9]".
Definition LabelValueFmt : str := lit "(" ++ QualifiedNameFmt ++ lit ")?".
Definition IdentifierNoHyphensBeginEndFmt : str := "[a-z0-9]([a-z0-9-]*[a-z0-9])*".
Definition DNS952LabelMaxLength : nat := 24.

Definition IsDNS952Label (value : str) : bool :=
  bool_decide (length value ≤ DNS952LabelMaxLength) &&
  match value with c :: _ => is_lower c | [] => false end &&
  edged dns1123_char dns1123_ext_char value.

Definition c_first (c : ascii) : bool := is_upper c || is_lower c || bool_decide (c = "_"%char).
Definition IsCIdentifier (value : str) : bool :=
  match value with
  | [] => false
  | c :: t => c_first c && forallb (λ c, c_first c || is_digit c) t
  end.

Definition IsValidPortNum (port : Z) : bool := (0 <? port)%Z && (port <? 65536)%Z.

(** The dot of a regular expression matches no line feed. *)
Definition no_newline (s : str) : bool := forallb (λ c, bool_decide (ord c ≠ 10%Z)) s.
Definition doubleHyphens (s : str) : bool := contains "--" s && no_newline s.
Definition atLeastOneLetter (s : str) : bool := existsb is_lower s && no_newline s.

Definition IsValidPortName (port : str) : bool :=
  if decide (length port < 1 ∨ 15 < length port) then false
  else if doubleHyphens port then false
  else edged dns1123_char dns1123_ext_char port && atLeastOneLetter port.

Definition IsValidPercent (percent : str) : bool :=
  match reverse percent with
  | "%"%char :: ds => bool_decide (ds ≠ []) && forallb is_digit ds
  | _ => false
  end.

(** ** Messages *)

Definition quoted (s : str) : str := dquote :: s ++ [dquote].
Definition nat_text (n : nat) : str := itoa (Z.of_nat n).

Definition isNegativeErrorMsg : str := "must be non-negative".
Definition intervalErrorMsg (lo hi : Z) : str :=
  lit "must be greater than " ++ itoa lo ++ lit " and less than " ++ itoa hi.
Definition labelValueErrorMsg : str :=
  lit "must have at most " ++ nat_text LabelValueMaxLength ++ lit " characters, matching regex " ++
  LabelValueFmt ++ lit ": e.g. " ++ quoted "MyValue" ++ lit " or " ++ quoted [].
Definition qualifiedNameErrorMsg : str :=
  lit "must be a qualified name (at most " ++ nat_text QualifiedNameMaxLength ++
  lit " characters, matching regex " ++ QualifiedNameFmt ++
  lit "), with an optional DNS subdomain prefix (at most " ++ nat_text DNS1123SubdomainMaxLength ++
  lit " characters, matching regex " ++ DNS1123SubdomainFmt ++ lit ") and slash (/): e.g. " ++
  quoted "MyName" ++ lit " or " ++ quoted "example.com/MyName".
Definition DNSSubdomainErrorMsg : str :=
  lit "must be a DNS subdomain (at most " ++ nat_text DNS1123SubdomainMaxLength ++
  lit " characters, matching regex " ++ DNS1123SubdomainFmt ++ lit "): e.g. " ++ quoted "example.com".
Definition DNS1123LabelErrorMsg : str :=
  lit "must be a DNS label (at most " ++ nat_text DNS1123LabelMaxLength ++
  lit " characters, matching regex " ++ DNS1123LabelFmt ++ lit "): e.g. " ++ quoted "my-name".
Definition DNS952LabelErrorMsg : str :=
  lit "must be a DNS 952 label (at most " ++ nat_text DNS952LabelMaxLength ++
  lit " characters, matching regex " ++ DNS952LabelFmt ++ lit "): e.g. " ++ quoted "my-name".
Definition portRangeErrorMsg : str := intervalErrorMsg 0 65536.
Definition portNameErrorMsg : str :=
  lit "must be an IANA_SVC_NAME (at most 15 characters, matching regex " ++
  IdentifierNoHyphensBeginEndFmt ++
  lit ", it must contain at least one letter [a-z], and hyphens cannot be adjacent to other hyphens): e.g. " ++
  quoted "http".

Definition totalAnnotationSizeLimitB : Z := 64 * 1024.

(** ** Lists of errors *)

Abbreviation ValidationErrorList := (list err).

Definition invalid (field value detail : str) : ValidationErrorList :=
  [Validation (NewFieldInvalid field value detail)].
Definition required (field : str) : ValidationErrorList := [Validation (NewFieldRequired field)].

(** The errors, when the condition does not hold. *)
Definition unless (ok : bool) (l : ValidationErrorList) : ValidationErrorList := if ok then [] else l.

(** ** Labels and annotations *)

Section metadata.
(** The order in which [range] goes through a map. *)
Variable order : gmap str str → list (str * str).

Definition pairs (m : string_map) : list (str * str) := order (default ∅ m).

Definition ValidateLabelName (labelName fieldName : str) : ValidationErrorList :=
  unless (IsQualifiedName labelName) (invalid fieldName labelName qualifiedNameErrorMsg).

Definition ValidateLabels (labels : string_map) (field : str) : ValidationErrorList :=
  pairs labels ≫= λ '(k, v),
    ValidateLabelName k field ++ unless (IsValidLabelValue v) (invalid field v labelValueErrorMsg).

Definition annotation_size (l : list (str * str)) : Z :=
  foldl (λ n '(k, v), n + (Z.of_nat (length k) + Z.of_nat (length v)))%Z 0%Z l.

Definition ValidateAnnotations (annotations : string_map) (field : str) : ValidationErrorList :=
  (pairs annotations ≫= λ '(k, v),
     unless (IsQualifiedName (to_lower k)) (invalid field k qualifiedNameErrorMsg)) ++
  unless (annotation_size (pairs annotations) <=? totalAnnotationSizeLimitB)%Z
    [Validation (NewFieldTooLong field [] totalAnnotationSizeLimitB)].

(** ** Names: whether a name is valid, and why not *)

Definition ValidateNameFunc : Type := str → bool → control (bool * str).

(** The last character but one goes with the dash; a name that is a dash only
    has no such character. *)
Definition maskTrailingDash (name : str) : control str :=
  if decide (list.last name = Some "-"%char) then
    if decide (length name < 2) then Panic "slice bounds out of range"
    else Return (take (length name - 2) name ++ lit "a")
  else Return name.

Definition name_is (valid : str → bool) (msg : str) : ValidateNameFunc := λ name prefix,
  name ← (if prefix then maskTrailingDash name else Return name);
  Return (if valid name then (true, []) else (false, msg)).

Definition NameIsDNSSubdomain : ValidateNameFunc := name_is IsDNS1123Subdomain DNSSubdomainErrorMsg.
Definition NameIsDNSLabel : ValidateNameFunc := name_is IsDNS1123Label DNS1123LabelErrorMsg.
Definition NameIsDNS952Label : ValidateNameFunc := name_is IsDNS952Label DNS952LabelErrorMsg.

Definition ValidatePodName : ValidateNameFunc := NameIsDNSSubdomain.
Definition ValidateReplicationControllerName : ValidateNameFunc := NameIsDNSSubdomain.
Definition ValidateServiceName : ValidateNameFunc := NameIsDNS952Label.
Definition ValidateNodeName : ValidateNameFunc := NameIsDNSSubdomain.
Definition ValidateNamespaceName : ValidateNameFunc := NameIsDNSLabel.
Definition ValidateLimitRangeName : ValidateNameFunc := NameIsDNSSubdomain.
Definition ValidateResourceQuotaName : ValidateNameFunc := NameIsDNSSubdomain.
Definition ValidateSecretName : ValidateNameFunc := NameIsDNSSubdomain.
Definition ValidateServiceAccountName : ValidateNameFunc := NameIsDNSSubdomain.
Definition ValidateEndpointsName : ValidateNameFunc := NameIsDNSSubdomain.

(** ** Metadata *)

Definition ValidatePositiveField (value : Z) (fieldName : str) : ValidationErrorList :=
  if (value <? 0)%Z then invalid fieldName (itoa value) isNegativeErrorMsg else [].

(** The error of a name function as an error of a field. *)
Definition name_errors (nameFn : ValidateNameFunc) (field name : str) (prefix : bool) :
    control ValidationErrorList :=
  '(ok, qualifier) ← nameFn name prefix;
  Return (unless ok (invalid field name qualifier)).

Definition ValidateObjectMeta (meta : ObjectMeta) (requiresNamespace : bool) (nameFn : ValidateNameFunc) :
    control ValidationErrorList :=
  e1 ← (if decide (length (om_GenerateName meta) ≠ 0)
        then name_errors nameFn "generateName" (om_GenerateName meta) true else Return []);
  e2 ← (if decide (length (om_Name meta) = 0)
        then Return [Validation (mkValidationError TypeRequired "name" [] "name or generateName is required")]
        else name_errors nameFn "name" (om_Name meta) false);
  let e3 := ValidatePositiveField (om_Generation meta) "generation" in
  e4 ← (if requiresNamespace then
          if decide (length (om_Namespace meta) = 0) then Return (required "namespace")
          else '(ok, _) ← ValidateNamespaceName (om_Namespace meta) false;
               Return (unless ok (invalid "namespace" (om_Namespace meta) DNS1123LabelErrorMsg))
        else Return (unless (bool_decide (length (om_Namespace meta) = 0))
               (invalid "namespace" (om_Namespace meta) "namespace is not allowed on this type")));
  Return (e1 ++ e2 ++ e3 ++ e4 ++ ValidateLabels (om_Labels meta) "labels" ++
    ValidateAnnotations (om_Annotations meta) "annotations").

(** The text of a time and of a number behind a pointer. *)
Variable show_time show_seconds : Z → str.

Definition IsZero (t : option Z) : bool := match t with Some t => bool_decide (t = 0%Z) | None => true end.

(** [ValidateObjectMetaUpdate] changes both objects: the new one, the old one
    and the errors. *)
Definition ValidateObjectMetaUpdate (new old : ObjectMeta) :
    ObjectMeta * ObjectMeta * ValidationErrorList :=
  let uid := if decide (length (om_UID new) = 0) then om_UID old else om_UID new in
  let created := if decide (om_CreationTimestamp old = 0%Z) then om_CreationTimestamp new
    else om_CreationTimestamp old in
  let deleted := if IsZero (om_DeletionTimestamp old) then om_DeletionTimestamp new
    else om_DeletionTimestamp old in
  let grace := match om_DeletionGracePeriodSeconds old, om_DeletionGracePeriodSeconds new with
    | Some s, None => Some s
    | _, s => s
    end in
  let new := {| om_Name := om_Name new; om_GenerateName := om_GenerateName new;
    om_Namespace := om_Namespace new; om_SelfLink := om_SelfLink new; om_UID := uid;
    om_ResourceVersion := om_ResourceVersion new; om_Generation := om_Generation new;
    om_CreationTimestamp := created; om_DeletionTimestamp := deleted;
    om_DeletionGracePeriodSeconds := grace; om_Labels := om_Labels new;
    om_Annotations := om_Annotations new |} in
  let old := {| om_Name := om_Name old; om_GenerateName := om_GenerateName old;
    om_Namespace := om_Namespace old; om_SelfLink := om_SelfLink old; om_UID := om_UID old;
    om_ResourceVersion := om_ResourceVersion old; om_Generation := om_Generation old;
    om_CreationTimestamp := created; om_DeletionTimestamp := om_DeletionTimestamp old;
    om_DeletionGracePeriodSeconds := om_DeletionGracePeriodSeconds old; om_Labels := om_Labels old;
    om_Annotations := om_Annotations old |} in
  (new, old,
   match om_DeletionGracePeriodSeconds new, om_DeletionGracePeriodSeconds old with
   | Some s, Some t => unless (bool_decide (s = t)) (invalid "deletionGracePeriodSeconds" (show_seconds s)
       "field is immutable; may only be changed via deletion")
   | _, _ => []
   end ++
   unless (bool_decide (om_ResourceVersion new ≠ [])) (invalid "resourceVersion" (om_ResourceVersion new)
     "resourceVersion must be specified for an update") ++
   unless (bool_decide (om_Name old = om_Name new)) (invalid "name" (om_Name new) "field is immutable") ++
   unless (bool_decide (om_Namespace old = om_Namespace new))
     (invalid "namespace" (om_Namespace new) "field is immutable") ++
   unless (bool_decide (om_UID old = om_UID new)) (invalid "uid" (om_UID new) "field is immutable") ++
   unless (bool_decide (om_CreationTimestamp old = om_CreationTimestamp new))
     (invalid "creationTimestamp" (show_time (om_CreationTimestamp new)) "field is immutable") ++
   ValidateLabels (om_Labels new) "labels" ++ ValidateAnnotations (om_Annotations new) "annotations").

(** ** Secrets *)

Definition SecretKeyFmt : str := lit "\.?" ++ DNS1123LabelFmt ++ lit "(\." ++ DNS1123LabelFmt ++ lit ")*".

(** The dot in front is optional. *)
Definition IsSecretKey (value : str) : bool :=
  bool_decide (length value ≤ DNS1123SubdomainMaxLength) &&
  let labels := match value with "."%char :: t => t | _ => value end in
  forallb (edged dns1123_char dns1123_ext_char) (split "." labels).

Definition MaxSecretSize : Z := 1 * 1024 * 1024.
Definition SecretTypeServiceAccountToken : str := "kubernetes.io/service-account-token".
Definition SecretTypeOpaque : str := "Opaque".
Definition ServiceAccountNameKey : str := "kubernetes.io/service-account.name".
Definition SecretTypeDockercfg : str := "kubernetes.io/dockercfg".
Definition DockerConfigKey : str := ".dockercfg".

(** [json.Unmarshal] into a map: its error. *)
Variable json_object_error : str → option str.

Definition data_size (l : list (str * str)) : Z := foldl (λ n '(_, v), n + Z.of_nat (length v))%Z 0%Z l.

Definition secret_key_errors (key : str) : ValidationErrorList :=
  unless (IsSecretKey key) (invalid (lit "data[" ++ key ++ lit "]") key
    (lit "must have at most " ++ nat_text DNS1123SubdomainMaxLength ++ lit " characters and match regex " ++
       SecretKeyFmt)).

Definition secret_type_errors (secret : Secret) : ValidationErrorList :=
  let type := sec_Type secret in
  if decide (type = SecretTypeServiceAccountToken) then
    let value := default [] (default ∅ (om_Annotations (sec_ObjectMeta secret)) !! ServiceAccountNameKey) in
    unless (bool_decide (length value ≠ 0))
      (required (lit "metadata.annotations[" ++ ServiceAccountNameKey ++ lit "]"))
  else if decide (type = SecretTypeDockercfg) then
    let field := lit "data[" ++ DockerConfigKey ++ lit "]" in
    match default ∅ (sec_Data secret) !! DockerConfigKey with
    | None => required field
    | Some bytes =>
        match json_object_error bytes with
        | Some e => invalid field "<secret contents redacted>" e
        | None => []
        end
    end
  else [].

Definition ValidateSecret (secret : Secret) : control ValidationErrorList :=
  meta ← ValidateObjectMeta (sec_ObjectMeta secret) true ValidateSecretName;
  meta ← Prefix "metadata" meta;
  let data := pairs (sec_Data secret) in
  Return (meta ++ (data ≫= λ '(key, _), secret_key_errors key) ++
    unless (data_size data <=? MaxSecretSize)%Z
      [Validation (NewFieldForbidden "data" "Maximum secret size exceeded")] ++
    secret_type_errors secret).

(** The new Secret as it is after the checks, and the errors. *)
Definition ValidateSecretUpdate (oldSecret newSecret : Secret) : control (Secret * ValidationErrorList) :=
  let '(meta, _, errs) := ValidateObjectMetaUpdate (sec_ObjectMeta newSecret) (sec_ObjectMeta oldSecret) in
  errs ← Prefix "metadata" errs;
  let type := if decide (length (sec_Type newSecret) = 0) then sec_Type oldSecret else sec_Type newSecret in
  let new := {| sec_TypeMeta := sec_TypeMeta newSecret; sec_ObjectMeta := meta;
    sec_Data := sec_Data newSecret; sec_Type := type |} in
  rest ← ValidateSecret new;
  Return (new, errs ++ unless (bool_decide (type = sec_Type oldSecret))
    (invalid "type" type "field is immutable") ++ rest).
End metadata.

Example IsSecretKey_demo :
  (IsSecretKey <$> [lit ".key"; lit "web.crt"; lit "..x"; lit "."; lit "Web.crt"]) = [true; true; false; false; false].
Proof. vm_compute. reflexivity. Qed.

Example IsValidPortName_demo :
  (IsValidPortName <$> [lit "http"; lit "80"; lit "a--b"; lit "-a"; lit "p2p-alt"]) = [true; false; false; false; true].
Proof. vm_compute. reflexivity. Qed.
