(* ===== verification/IngressValidation.v ===== *)
(** * Validation of Ingresses (k8s.io/kubernetes/pkg/apis/extensions/validation)

    The checks the server makes before it stores an Ingress.  [net.ParseIP]
    and [regexp.CompilePOSIX] are parameters: whether they take a text. *)

From S2P Require Import Prelude GoStr Json KubeTypes Labels Errors Validation.

Local Open Scope go_scope.

Section ingress.
Variable order : gmap str str → list (str * str).
Variable show_time show_seconds : Z → str.
Variable is_ip is_posix_regexp : str → bool.
(** The text of a port, which may be a structure. *)
Variable show_port : IntOrString → str.

Definition ValidateIngressName : ValidateNameFunc := NameIsDNSSubdomain.

Definition validateIngressBackend (backend : IngressBackend) : control ValidationErrorList :=
  if decide (length (ib_ServiceName backend) = 0) then Return (required "serviceName")
  else
    name ← name_errors ValidateServiceName "serviceName" (ib_ServiceName backend) false;
    Return (name ++
      match ib_ServicePort backend with
      | StrVal s =>
          unless (IsDNS1123Label s) (invalid "servicePort" s DNS1123LabelErrorMsg) ++
          unless (IsValidPortName s) (invalid "servicePort" s portNameErrorMsg)
      | IntVal z =>
          unless (IsValidPortNum z) (invalid "servicePort" (show_port (IntVal z)) portRangeErrorMsg)
      end).

Fixpoint validate_paths (paths : list HTTPIngressPath) : control ValidationErrorList :=
  match paths with
  | [] => Return []
  | rule :: paths =>
      let path := hp_Path rule in
      let here := if decide (0 < length path) then
          unless (has_prefix "/" path) (invalid "path" path "path must begin with /") ++
          unless (is_posix_regexp path)
            (invalid "path" path "httpIngressRuleValue.path must be a valid regex.")
        else [] in
      backend ← validateIngressBackend (hp_Backend rule);
      backend ← Prefix "backend" backend;
      rest ← validate_paths paths;
      Return (here ++ backend ++ rest)
  end.

Definition validateHTTPIngressRuleValue (rule : HTTPIngressRuleValue) : control ValidationErrorList :=
  rest ← validate_paths (hr_Paths rule);
  Return (unless (bool_decide (length (hr_Paths rule) ≠ 0)) (required "paths") ++ rest).

Definition validateIngressRuleValue (http : option HTTPIngressRuleValue) : control ValidationErrorList :=
  match http with
  | Some http => errs ← validateHTTPIngressRuleValue http; Prefix "http" errs
  | None => Return []
  end.

Fixpoint validate_rules (rules : list IngressRule) : control ValidationErrorList :=
  match rules with
  | [] => Return []
  | ih :: rules =>
      host ← (if decide (0 < length (ir_Host ih)) then
          name ← name_errors NameIsDNSSubdomain "host" (ir_Host ih) false;
          Return (name ++ unless (negb (is_ip (ir_Host ih)))
            (invalid "host" (ir_Host ih) "Host must be a DNS name, not ip address"))
        else Return []);
      value ← validateIngressRuleValue (ir_HTTP ih);
      value ← Prefix "ingressRule" value;
      rest ← validate_rules rules;
      Return (host ++ value ++ rest)
  end.

Definition validateIngressRules (rules : list IngressRule) : control ValidationErrorList :=
  if decide (length rules = 0) then Return (required "IngressRules") else validate_rules rules.

Definition ValidateIngressSpec (spec : IngressSpec) : control ValidationErrorList :=
  first ← match is_Backend spec with
    | Some backend => errs ← validateIngressBackend backend; Prefix "backend" errs
    | None => Return (unless (bool_decide (length (is_Rules spec) ≠ 0)) (invalid "rules" "[]"
        "Either a default backend or a set of host rules are required for ingress."))
    end;
  rules ← (if decide (0 < length (is_Rules spec)) then
      errs ← validateIngressRules (is_Rules spec); Prefix "rules" errs
    else Return []);
  Return (first ++ rules).

Definition ValidateIngress (ingress : Ingress) : control ValidationErrorList :=
  meta ← ValidateObjectMeta order (ing_ObjectMeta ingress) true ValidateIngressName;
  meta ← Prefix "metadata" meta;
  spec ← ValidateIngressSpec (ing_Spec ingress);
  spec ← Prefix "spec" spec;
  Return (meta ++ spec).

(** The metadata as it is after the checks, and the errors. *)
Definition ValidateIngressUpdate (oldIngress ingress : Ingress) :
    control (ObjectMeta * ValidationErrorList) :=
  let '(meta, _, errs) := ValidateObjectMetaUpdate order show_time show_seconds
    (ing_ObjectMeta ingress) (ing_ObjectMeta oldIngress) in
  errs ← Prefix "metadata" errs;
  spec ← ValidateIngressSpec (ing_Spec ingress);
  spec ← Prefix "spec" spec;
  Return (meta, errs ++ spec).
End ingress.
