(* ===== verification/IngressValidationSpec.v ===== *)
(** * Validation: specification

    What an object must be like for its validation to find no error, that no
    validator panics but for one name, what a name that is to be completed may
    hide, and whether the server takes what the tools send it. *)

From S2P Require Import Prelude GoStr Json KubeTypes Labels Errors ApiErrorsSpec Validation IngressValidation.

Local Open Scope go_scope.

(** ** Lists of validation errors *)

(** A validator that returns validation errors, none of them exactly when [P]. *)
Definition validates (c : control ValidationErrorList) (P : Prop) : Prop :=
  ∃ vs, c = Return (Validation <$> vs) ∧ (vs = [] ↔ P).

Lemma validates_iff c P Q : (P ↔ Q) → validates c P → validates c Q.
Proof. intros H (vs & ? & Hv). exists vs. by rewrite <- H. Qed.

Definition lists (l : ValidationErrorList) (P : Prop) : Prop :=
  ∃ vs, l = Validation <$> vs ∧ (vs = [] ↔ P).

Lemma lists_validates l P : lists l P → validates (Return l) P.
Proof. intros (vs & -> & H). by exists vs. Qed.

Lemma lists_nil (P : Prop) : P → lists [] P.
Proof. intros H. by exists []. Qed.

Lemma lists_one v (P : Prop) : ¬ P → lists [Validation v] P.
Proof. intros H. exists [v]. by split. Qed.

Lemma lists_unless (b : bool) v : lists (unless b [Validation v]) (b = true).
Proof. destruct b; [by apply lists_nil|by apply lists_one]. Qed.

Lemma lists_app l k P Q : lists l P → lists k Q → lists (l ++ k) (P ∧ Q).
Proof.
  intros (vs & -> & H) (ws & -> & H'). exists (vs ++ ws). split; [by rewrite fmap_app|].
  rewrite <- H, <- H'. split; [by intros [-> ->]%app_eq_nil|by intros [-> ->]].
Qed.

Lemma lists_iff l P Q : (P ↔ Q) → lists l P → lists l Q.
Proof. intros H (vs & ? & Hv). exists vs. by rewrite <- H. Qed.

Lemma lists_bind {A} (f : A → ValidationErrorList) (P : A → Prop) l :
  (∀ x, lists (f x) (P x)) → lists (l ≫= f) (∀ x, x ∈ l → P x).
Proof.
  intros Hf. induction l as [|x l IH].
  - apply lists_nil. intros x Hx. by apply elem_of_nil in Hx.
  - eapply lists_iff; [|exact (lists_app _ _ _ _ (Hf x) IH)]. setoid_rewrite elem_of_cons. naive_solver.
Qed.

Lemma validates_bind c P k Q :
  validates c P → (∀ l, lists l P → validates (k l) (Q)) → validates (c ≫= k) Q.
Proof. intros (vs & -> & H) Hk. apply Hk. by exists vs. Qed.

Lemma validates_prefix path l P : lists l P → validates (Prefix path l) P.
Proof.
  intros (vs & -> & H). exists (at_path path <$> vs). split; [by rewrite Prefix_Validation|].
  rewrite <- H. by destruct vs.
Qed.

Lemma validates_prefixed path c P : validates c P → validates (c ≫= Prefix path) P.
Proof. intros H. eapply validates_bind; [exact H|]. intros l. apply validates_prefix. Qed.

(** ** Names *)

Lemma name_errors_final valid msg field name :
  validates (name_errors (name_is valid msg) field name false) (valid name = true).
Proof.
  unfold name_errors, name_is. cbn. destruct (valid name); cbn.
  - by exists [].
  - by exists [NewFieldInvalid field name msg].
Qed.

(** The name that is checked for a name that is to be completed. *)
Definition masked (name : str) : str :=
  if decide (list.last name = Some "-"%char) then take (length name - 2) name ++ lit "a" else name.

Lemma last_dash_short name : list.last name = Some "-"%char → length name < 2 → name = lit "-".
Proof. destruct name as [|c [|d name]]; simpl; [done| |lia]. by intros [= ->]. Qed.

Lemma maskTrailingDash_masked name :
  name ≠ lit "-" → maskTrailingDash name = Return (masked name).
Proof.
  intros Hn. unfold maskTrailingDash, masked. destruct (decide (list.last name = _)) as [Hl|]; [|done].
  rewrite decide_False; [done|]. intros Hs. by apply Hn, last_dash_short.
Qed.

Lemma name_errors_prefix valid msg field name :
  name ≠ lit "-" → validates (name_errors (name_is valid msg) field name true) (valid (masked name) = true).
Proof.
  intros Hn. unfold name_errors, name_is. rewrite maskTrailingDash_masked by done. cbn.
  destruct (valid (masked name)); cbn.
  - by exists [].
  - by exists [NewFieldInvalid field name msg].
Qed.

(** ** Metadata *)

Section metadata.
Variable order : gmap str str → list (str * str).
Hypothesis order_perm : ∀ m, order m ≡ₚ map_to_list m.

Definition valid_labels (m : string_map) : Prop :=
  ∀ k v, default ∅ m !! k = Some v → IsQualifiedName k = true ∧ IsValidLabelValue v = true.

Definition valid_annotations (m : string_map) : Prop :=
  (∀ k v, default ∅ m !! k = Some v → IsQualifiedName (to_lower k) = true) ∧
  (annotation_size (pairs order m) ≤ totalAnnotationSizeLimitB)%Z.

Lemma elem_of_pairs m k v : (k, v) ∈ pairs order m ↔ default ∅ m !! k = Some v.
Proof. unfold pairs. rewrite order_perm. apply elem_of_map_to_list. Qed.

Lemma ValidateLabels_lists m field : lists (ValidateLabels order m field) (valid_labels m).
Proof.
  unfold ValidateLabels. eapply lists_iff; [|apply (lists_bind _ (λ '(k, v),
    IsQualifiedName k = true ∧ IsValidLabelValue v = true))].
  - unfold valid_labels. split.
    + intros H k v Hk. by apply (H (k, v)), elem_of_pairs.
    + intros H [k v] Hk. apply H. by apply elem_of_pairs.
  - intros [k v]. apply lists_app; apply lists_unless.
Qed.

Lemma ValidateAnnotations_lists m field : lists (ValidateAnnotations order m field) (valid_annotations m).
Proof.
  unfold ValidateAnnotations, valid_annotations. apply lists_app.
  - eapply lists_iff; [|apply (lists_bind _ (λ '(k, v), IsQualifiedName (to_lower k) = true))].
    + split.
      * intros H k v Hk. by apply (H (k, v)), elem_of_pairs.
      * intros H [k v] Hk. by apply elem_of_pairs, H in Hk.
    + intros [k v]. apply lists_unless.
  - eapply lists_iff; [apply Z.leb_le|]. apply lists_unless.
Qed.

(** What the metadata of a new object must be like. *)
Record valid_meta (valid_name : str → bool) (meta : ObjectMeta) : Prop := {
  vm_generateName : om_GenerateName meta = [] ∨ valid_name (masked (om_GenerateName meta)) = true;
  vm_name : om_Name meta ≠ [] ∧ valid_name (om_Name meta) = true;
  vm_generation : (0 ≤ om_Generation meta)%Z;
  vm_namespace : om_Namespace meta ≠ [] ∧ IsDNS1123Label (om_Namespace meta) = true;
  vm_labels : valid_labels (om_Labels meta);
  vm_annotations : valid_annotations (om_Annotations meta)
}.

Lemma validates_if_empty {A} (l : list A) v c P :
  (l ≠ [] → validates c P) →
  validates (if decide (length l = 0) then Return [Validation v] else c) (l ≠ [] ∧ P).
Proof.
  intros H. destruct l as [|x l]; [|rewrite decide_False by done].
  - apply lists_validates, lists_one. by intros [].
  - eapply validates_iff; [|by apply H]. naive_solver.
Qed.

Lemma ValidateObjectMeta_validates valid msg meta :
  om_GenerateName meta ≠ lit "-" →
  validates (ValidateObjectMeta order meta true (name_is valid msg)) (valid_meta valid meta).
Proof.
  intros Hg. unfold ValidateObjectMeta.
  eapply (validates_bind _ (om_GenerateName meta = [] ∨ valid (masked (om_GenerateName meta)) = true)).
  { destruct (om_GenerateName meta) as [|c g] eqn:E; simpl.
    - apply lists_validates, lists_nil. by left.
    - rewrite <- E in *. eapply validates_iff; [|by apply name_errors_prefix]. rewrite E. naive_solver. }
  intros e1 H1. eapply (validates_bind _ _); [apply validates_if_empty; intros _; apply name_errors_final|].
  intros e2 H2.
  assert (lists (ValidatePositiveField (om_Generation meta) "generation") (0 ≤ om_Generation meta)%Z) as H3.
  { unfold ValidatePositiveField. destruct (Z.ltb_spec (om_Generation meta) 0);
      [apply lists_one; lia|apply lists_nil; lia]. }
  eapply (validates_bind _ _); [apply (validates_if_empty _ _ _ (IsDNS1123Label (om_Namespace meta) = true)); intros _|].
  { unfold ValidateNamespaceName, NameIsDNSLabel, name_is. cbn.
    destruct (IsDNS1123Label (om_Namespace meta)); apply lists_validates; [by apply lists_nil|by apply lists_one]. }
  intros e4 H4. apply lists_validates. eapply lists_iff;
    [|exact (lists_app _ _ _ _ H1 (lists_app _ _ _ _ H2 (lists_app _ _ _ _ H3 (lists_app _ _ _ _ H4
       (lists_app _ _ _ _ (ValidateLabels_lists _ _) (ValidateAnnotations_lists _ _))))))].
  split; [intros (?&?&?&?&?&?); by constructor|by intros []].
Qed.

Lemma ValidateObjectMeta_dash valid msg meta :
  om_GenerateName meta = lit "-" →
  ValidateObjectMeta order meta true (name_is valid msg) = Panic "slice bounds out of range".
Proof. intros H. unfold ValidateObjectMeta. rewrite H. reflexivity. Qed.
End metadata.

(** ** Ingresses *)

Section ingress.
Variable order : gmap str str → list (str * str).
Variable is_ip is_posix_regexp : str → bool.
Variable show_port : IntOrString → str.

Definition valid_port (p : IntOrString) : Prop :=
  match p with
  | StrVal s => IsDNS1123Label s = true ∧ IsValidPortName s = true
  | IntVal z => IsValidPortNum z = true
  end.

Definition valid_backend (b : IngressBackend) : Prop :=
  ib_ServiceName b ≠ [] ∧ IsDNS952Label (ib_ServiceName b) = true ∧ valid_port (ib_ServicePort b).

Definition valid_path (p : HTTPIngressPath) : Prop :=
  (hp_Path p ≠ [] → has_prefix "/" (hp_Path p) = true ∧ is_posix_regexp (hp_Path p) = true) ∧
  valid_backend (hp_Backend p).

Definition valid_http (h : HTTPIngressRuleValue) : Prop :=
  hr_Paths h ≠ [] ∧ Forall valid_path (hr_Paths h).

Definition valid_rule (r : IngressRule) : Prop :=
  (ir_Host r ≠ [] → IsDNS1123Subdomain (ir_Host r) = true ∧ is_ip (ir_Host r) = false) ∧
  (∀ h, ir_HTTP r = Some h → valid_http h).

(** What the specification of an Ingress must be like. *)
Record valid_spec (s : IngressSpec) : Prop := {
  vs_some : is_Backend s ≠ None ∨ is_Rules s ≠ [];
  vs_backend : ∀ b, is_Backend s = Some b → valid_backend b;
  vs_rules : Forall valid_rule (is_Rules s)
}.

Definition valid_ingress (ing : Ingress) : Prop :=
  valid_meta order IsDNS1123Subdomain (ing_ObjectMeta ing) ∧ valid_spec (ing_Spec ing).

Lemma validateIngressBackend_validates b : validates (validateIngressBackend show_port b) (valid_backend b).
Proof.
  unfold validateIngressBackend, valid_backend, required. apply validates_if_empty. intros _.
  eapply validates_bind; [apply name_errors_final|]. intros l Hl.
  apply lists_validates, lists_app; [exact Hl|].
  destruct (ib_ServicePort b); cbn [valid_port]; [|apply lists_app]; apply lists_unless.
Qed.

(** Checks of a text that may be left empty. *)
Lemma lists_if_given {A} (x : list A) l P :
  (x ≠ [] → lists l P) → lists (if decide (0 < length x) then l else []) (x ≠ [] → P).
Proof.
  intros H. destruct x as [|c x]; [apply lists_nil; by intros []|].
  rewrite decide_True by (simpl; lia). eapply lists_iff; [|by apply H]. naive_solver.
Qed.

Lemma validate_paths_validates ps :
  validates (validate_paths is_posix_regexp show_port ps) (Forall valid_path ps).
Proof.
  induction ps as [|p ps IH]; [by apply lists_validates, lists_nil|]. cbn [validate_paths].
  eapply validates_bind; [apply validateIngressBackend_validates|]. intros l Hl.
  eapply validates_bind; [by apply validates_prefix|]. intros l' Hl'.
  eapply validates_bind; [exact IH|]. intros rest Hrest.
  apply lists_validates. eapply lists_iff; [|apply lists_app; [apply lists_if_given; intros _; apply lists_app;
    apply lists_unless|exact (lists_app _ _ _ _ Hl' Hrest)]].
  rewrite list.Forall_cons. unfold valid_path. naive_solver.
Qed.

Lemma validateIngressRuleValue_validates h :
  validates (validateIngressRuleValue is_posix_regexp show_port h) (∀ x, h = Some x → valid_http x).
Proof.
  destruct h as [h|]; [|by apply lists_validates, lists_nil]. cbn [validateIngressRuleValue].
  apply validates_prefixed. unfold validateHTTPIngressRuleValue.
  eapply validates_bind; [apply validate_paths_validates|]. intros rest Hrest. apply lists_validates.
  eapply lists_iff; [|exact (lists_app _ _ _ _ (lists_unless _ _) Hrest)].
  rewrite bool_decide_eq_true. assert (length (hr_Paths h) ≠ 0 ↔ hr_Paths h ≠ []) as -> by by destruct (hr_Paths h).
  split; [by intros H x [= <-]|intros H; exact (H h eq_refl)].
Qed.

Lemma validate_host_validates r :
  validates (if decide (0 < length (ir_Host r)) then
      name ← name_errors NameIsDNSSubdomain "host" (ir_Host r) false;
      Return (name ++ unless (negb (is_ip (ir_Host r)))
        (invalid "host" (ir_Host r) "Host must be a DNS name, not ip address"))
    else Return [])
    (ir_Host r ≠ [] → IsDNS1123Subdomain (ir_Host r) = true ∧ is_ip (ir_Host r) = false).
Proof.
  destruct (ir_Host r) as [|c h] eqn:E; [apply lists_validates, lists_nil; by intros []|].
  rewrite decide_True by (simpl; lia).
  eapply validates_bind; [apply name_errors_final|]. intros l Hl. apply lists_validates.
  eapply lists_iff; [|exact (lists_app _ _ _ _ Hl (lists_unless _ _))].
  rewrite negb_true_iff. naive_solver.
Qed.

Lemma validate_rules_validates rs :
  validates (validate_rules is_ip is_posix_regexp show_port rs) (Forall valid_rule rs).
Proof.
  induction rs as [|r rs IH]; [by apply lists_validates, lists_nil|]. cbn [validate_rules].
  eapply validates_bind; [apply validate_host_validates|]. intros l Hl.
  eapply validates_bind; [apply validateIngressRuleValue_validates|]. intros v Hv.
  eapply validates_bind; [by apply validates_prefix|]. intros v' Hv'.
  eapply validates_bind; [exact IH|]. intros rest Hrest. apply lists_validates.
  eapply lists_iff; [|exact (lists_app _ _ _ _ Hl (lists_app _ _ _ _ Hv' Hrest))].
  rewrite list.Forall_cons. unfold valid_rule. naive_solver.
Qed.

Lemma ValidateIngressSpec_validates s :
  validates (ValidateIngressSpec is_ip is_posix_regexp show_port s) (valid_spec s).
Proof.
  unfold ValidateIngressSpec.
  eapply (validates_bind _ (match is_Backend s with Some b => valid_backend b | None => is_Rules s ≠ [] end)).
  { destruct (is_Backend s) as [b|].
    - apply validates_prefixed, validateIngressBackend_validates.
    - apply lists_validates. eapply lists_iff; [|apply lists_unless].
      rewrite bool_decide_eq_true. by destruct (is_Rules s). }
  intros first Hfirst. eapply (validates_bind _ (Forall valid_rule (is_Rules s))).
  { destruct (is_Rules s) as [|r rs] eqn:E; [by apply lists_validates, lists_nil|].
    rewrite decide_True by (simpl; lia). apply validates_prefixed. unfold validateIngressRules.
    rewrite decide_False by done. apply validate_rules_validates. }
  intros rules Hrules. apply lists_validates. eapply lists_iff; [|exact (lists_app _ _ _ _ Hfirst Hrules)].
  split.
  - intros [H1 H2]. constructor; [| |exact H2]; destruct (is_Backend s); naive_solver.
  - intros [H1 H2 H3]. split; [|exact H3]. destruct (is_Backend s); naive_solver.
Qed.

Lemma ValidateIngress_validates ing :
  (∀ m, order m ≡ₚ map_to_list m) → om_GenerateName (ing_ObjectMeta ing) ≠ lit "-" →
  validates (ValidateIngress order is_ip is_posix_regexp show_port ing) (valid_ingress ing).
Proof.
  intros Horder Hg. unfold ValidateIngress, ValidateIngressName, NameIsDNSSubdomain.
  eapply validates_bind; [by apply ValidateObjectMeta_validates|]. intros m Hm.
  eapply validates_bind; [by apply validates_prefix|]. intros m' Hm'.
  eapply validates_bind; [apply ValidateIngressSpec_validates|]. intros s Hs.
  eapply validates_bind; [by apply validates_prefix|]. intros s' Hs'.
  apply lists_validates. exact (lists_app _ _ _ _ Hm' Hs').
Qed.

End ingress.

(** ** Names that are to be completed *)

Lemma subdomain_chars s :
  IsDNS1123Subdomain s = true → Forall (λ c, dns1123_ext_char c || bool_decide (c = "."%char) = true) s.
Proof.
  intros [_ H]%andb_prop. rewrite <- (join_split "." s). rewrite forallb_forall in H.
  assert (∀ l, (∀ x, In x l → edged dns1123_char dns1123_ext_char x = true) →
    Forall (λ c, dns1123_ext_char c || bool_decide (c = "."%char) = true) (join ["."%char] l)) as Hj; [|by apply Hj].
  clear H. induction l as [|x l IH]; intros H; [constructor|].
  assert (Forall (λ c, dns1123_ext_char c || bool_decide (c = "."%char) = true) x) as Hx.
  { specialize (H x ltac:(by left)). unfold edged in H. destruct x as [|c x]; [constructor|].
    destruct (list.last (c :: x)); [|done]. apply andb_prop in H as [_ H]. rewrite forallb_forall in H.
    apply List.Forall_forall. intros d Hd. by rewrite (H d Hd). }
  destruct l as [|y l]; [exact Hx|].
  change (join ["."%char] (x :: y :: l)) with (x ++ "."%char :: join ["."%char] (y :: l)).
  apply list.Forall_app. split; [exact Hx|]. constructor; [done|]. apply IH. intros z Hz. apply H. by right.
Qed.

(** the check of a name that is to be completed replaces the character in
    front of the dash at its end as well, so that character is not checked: a
    name with any character there passes, although no name that starts with it
    is valid when the character may not be in a name. *)
Theorem generateName_hides (n : str) (c : ascii)
    (Hn : IsDNS1123Subdomain (n ++ lit "a") = true)
    (Hc : dns1123_ext_char c || bool_decide (c = "."%char) = false) :
  NameIsDNSSubdomain (n ++ [c; "-"%char]) true = Return (true, []) ∧
  ∀ suffix, IsDNS1123Subdomain ((n ++ [c; "-"%char]) ++ suffix) = false.
Proof.
  split.
  - unfold NameIsDNSSubdomain, name_is. rewrite maskTrailingDash_masked.
    2: { intros E. apply (f_equal length) in E. rewrite length_app in E. simpl in E. lia. }
    cbn. unfold masked. rewrite decide_True by (by rewrite (last_app_cons _ _ _ : list.last (n ++ c :: [_]) = _)).
    rewrite length_app. simpl length. replace (length n + 2 - 2) with (length n) by lia.
    rewrite take_app_length. by rewrite Hn.
  - intros suffix. apply not_true_is_false. intros H%subdomain_chars.
    apply list.Forall_app in H as [H _]. apply list.Forall_app in H as [_ H].
    apply list.Forall_cons in H as [H _]. congruence.
Qed.

(** ** Witnesses *)

Definition demo_backend : IngressBackend := {| ib_ServiceName := "web"; ib_ServicePort := IntVal 80 |}.
Definition demo_ingress (generateName : str) : Ingress := {|
  ing_TypeMeta := zero_TypeMeta;
  ing_ObjectMeta := {|
    om_Name := "web"; om_GenerateName := generateName; om_Namespace := "default"; om_SelfLink := [];
    om_UID := []; om_ResourceVersion := "7"; om_Generation := 0; om_CreationTimestamp := 0;
    om_DeletionTimestamp := None; om_DeletionGracePeriodSeconds := None;
    om_Labels := Some {[lit "app" := lit "web"]}; om_Annotations := Some ∅ |};
  ing_Spec := {| is_Backend := Some demo_backend; is_Rules := [] |};
  ing_Status := {| ist_LoadBalancer := {| ls_Ingress := [] |} |}
|}.

Definition demo_port (p : IntOrString) : str := match p with IntVal z => itoa z | StrVal s => s end.


Lemma generateName_hides_witness :
  NameIsDNSSubdomain "web_-" true = Return (true, []) ∧ IsDNS1123Subdomain "web_-x1" = false.
Proof.
  destruct (generateName_hides "web" "_") as [H1 H2]; [vm_compute; reflexivity..|].
  split; [exact H1|exact (H2 "x1")].
Defined.
