(* ===== verification/AcceptedSpec.v ===== *)
(** * What the tools send is what the server takes

    The Ingress that the update of the receivers writes, and the Secret that
    the script prints, against the validation of the server. *)

From S2P Require Import Prelude GoStr KubeTypes Labels Errors ApiErrorsSpec Receivers ReceiverJson MakeSecret Validation IngressValidation IngressValidationSpec.

Local Open Scope go_scope.

Section accepted.
Variable order : gmap str str → list (str * str).
Hypothesis order_perm : ∀ m, order m ≡ₚ map_to_list m.

(** ** Updates *)

(** What an update of the metadata must be like. *)
Definition valid_update (new old : ObjectMeta) : Prop :=
  om_ResourceVersion new ≠ [] ∧ om_Name new = om_Name old ∧ om_Namespace new = om_Namespace old ∧
  (om_UID new = [] ∨ om_UID new = om_UID old) ∧
  (∀ s t, om_DeletionGracePeriodSeconds new = Some s → om_DeletionGracePeriodSeconds old = Some t → s = t) ∧
  valid_labels (om_Labels new) ∧ valid_annotations order (om_Annotations new).

Lemma lists_check b v (P : Prop) : (b = true ↔ P) → lists (unless b [Validation v]) P.
Proof. intros H. eapply lists_iff; [exact H|apply lists_unless]. Qed.

Lemma ValidateObjectMetaUpdate_lists show_time show_seconds new old new' old' l :
  ValidateObjectMetaUpdate order show_time show_seconds new old = (new', old', l) →
  lists l (valid_update new old).
Proof.
  unfold ValidateObjectMetaUpdate. cbn zeta. intros [= _ _ <-].
  eapply lists_iff; [|apply lists_app;
    [|apply lists_app; [apply lists_check, bool_decide_eq_true|
      apply lists_app; [apply lists_check, bool_decide_eq_true|
      apply lists_app; [apply lists_check, bool_decide_eq_true|
      apply lists_app; [apply lists_check, bool_decide_eq_true|
      apply lists_app; [apply lists_check, bool_decide_eq_true|
      apply lists_app; [by apply ValidateLabels_lists|by apply ValidateAnnotations_lists]]]]]]]].
  2: { cbn [om_DeletionGracePeriodSeconds].
       instantiate (1 := ∀ s t, om_DeletionGracePeriodSeconds new = Some s →
         om_DeletionGracePeriodSeconds old = Some t → s = t).
       destruct (om_DeletionGracePeriodSeconds old) as [t|], (om_DeletionGracePeriodSeconds new) as [s|];
         [eapply lists_check; rewrite bool_decide_eq_true; naive_solver| |
          apply lists_nil; naive_solver..].
       rewrite bool_decide_true by done. apply lists_nil. naive_solver. }
  cbn [om_ResourceVersion om_Name om_Namespace om_UID om_CreationTimestamp om_Labels om_Annotations].
  unfold valid_update. destruct (om_UID new) as [|c uid]; cbn [length]; naive_solver.
Qed.

Lemma valid_annotations_insert m k v :
  valid_annotations order (Some m) → IsQualifiedName (to_lower k) = true →
  (annotation_size (pairs order (Some (<[k := v]> m))) ≤ totalAnnotationSizeLimitB)%Z →
  valid_annotations order (Some (<[k := v]> m)).
Proof.
  intros [Hm _] Hk Hsize. split; [|exact Hsize]. intros k' v'. cbn.
  rewrite lookup_insert_Some. intros [[<- _]|[_ Hk']]; [done|]. by apply (Hm k' v').
Qed.

Lemma valid_ingress_set_Annotations is_ip is_re m ing :
  valid_ingress order is_ip is_re ing → valid_annotations order m →
  valid_ingress order is_ip is_re (set_Annotations m ing).
Proof. intros [[] Hs] Hm. split; [by constructor|exact Hs]. Qed.

Section edit.
Context {E : Type} `{!ReceiverCodec}.
Variable show_time show_seconds : Z → str.
Variable is_ip is_posix_regexp : str → bool.
Variable show_port : IntOrString → str.

(** C26: the Ingress that the update of the receivers sends back passes the
    server's validation of updates when the one it read was valid, and it
    changes nothing the server would put back, unless the read one had no
    resource version or the annotations with the receivers are larger than
    the server allows: exactly then it is refused. *)
Theorem edit_accepted (ing ing' : Ingress) (rec : Receiver)
    (Hvalid : valid_ingress order is_ip is_posix_regexp ing)
    (Hedit : edit (E := E) ing rec = Return (Ok ing')) :
  ∃ vs, ValidateIngressUpdate order show_time show_seconds is_ip is_posix_regexp show_port ing ing' =
      Return (ing_ObjectMeta ing', Validation <$> vs) ∧
    (vs = [] ↔ ing_ResourceVersion ing ≠ [] ∧
       (annotation_size (pairs order (ing_Annotations ing')) ≤ totalAnnotationSizeLimitB)%Z).
Proof.
  apply edit_Ok in Hedit as (rs & j & m & _ & _ & Hm & ->).
  unfold ValidateIngressUpdate.
  destruct (ValidateObjectMetaUpdate _ _ _ _ _) as [[meta old] l] eqn:Hu.
  pose proof (ValidateObjectMetaUpdate_lists _ _ _ _ _ _ _ Hu) as Hl.
  assert (meta = ing_ObjectMeta (set_Annotations (Some (<[receiversKey := j]> m)) ing)) as ->.
  { unfold ValidateObjectMetaUpdate in Hu. injection Hu as <- _ _. cbn. f_equal;
      repeat case_match; repeat case_decide; congruence. }
  destruct (validates_prefix "metadata" l _ Hl) as (vs1 & -> & H1).
  destruct (validates_prefixed "spec" _ _ (ValidateIngressSpec_validates is_ip is_posix_regexp show_port
    (ing_Spec ing))) as (vs2 & H2e & H2).
  exists (vs1 ++ vs2). split.
  - cbn [mbind control_bind set_Annotations ing_Spec]. cbn in H2e.
    destruct (ValidateIngressSpec _ _ _ _) as [spec| |]; cbn in *; [|done..].
    rewrite H2e. by rewrite fmap_app.
  - assert (vs1 ++ vs2 = [] ↔ vs1 = [] ∧ vs2 = []) as -> by (split; [by intros ?%app_nil|by intros [-> ->]]).
    rewrite H1, H2. destruct Hvalid as [[_ _ _ _ Hlab Hann] Hspec]. unfold ing_Annotations in Hm. rewrite Hm in Hann.
    split; [intros [(Hrv & _ & _ & _ & _ & _ & Ha) _]; split; [done|apply Ha]|].
    intros [Hrv Hsize]. split; [|exact Hspec]. split; [exact Hrv|]. split; [done|]. split; [done|].
    split; [by right|]. split; [intros s t; cbn; congruence|]. split; [exact Hlab|].
    by apply valid_annotations_insert.
Qed.
End edit.

(** ** Secrets *)

Lemma sum_permutation {A} (w : A → Z) (l k : list A) :
  l ≡ₚ k → ∀ n, foldl (λ n x, n + w x)%Z n l = foldl (λ n x, n + w x)%Z n k.
Proof.
  induction 1 as [|x l k _ IH|x y l|l k j _ IH1 _ IH2]; intros n; simpl; [done|by apply IH| |by rewrite IH1].
  f_equal. lia.
Qed.

Lemma data_size_perm l k : l ≡ₚ k → data_size l = data_size k.
Proof.
  intros H. unfold data_size.
  assert (∀ l n, foldl (λ n '(_, v), n + Z.of_nat (length v))%Z n l =
    foldl (λ n (x : str * str), n + Z.of_nat (length x.2))%Z n l) as Hf.
  { clear. induction l as [|[k v] l IH]; intros n; simpl; [done|]. by rewrite IH. }
  rewrite !Hf. by apply sum_permutation.
Qed.

(** The server puts the namespace of the URL into the object. *)
Definition in_namespace (ns : str) (s : Secret) : Secret := {|
  sec_TypeMeta := sec_TypeMeta s;
  sec_ObjectMeta := {|
    om_Name := om_Name (sec_ObjectMeta s); om_GenerateName := om_GenerateName (sec_ObjectMeta s);
    om_Namespace := ns; om_SelfLink := om_SelfLink (sec_ObjectMeta s); om_UID := om_UID (sec_ObjectMeta s);
    om_ResourceVersion := om_ResourceVersion (sec_ObjectMeta s);
    om_Generation := om_Generation (sec_ObjectMeta s);
    om_CreationTimestamp := om_CreationTimestamp (sec_ObjectMeta s);
    om_DeletionTimestamp := om_DeletionTimestamp (sec_ObjectMeta s);
    om_DeletionGracePeriodSeconds := om_DeletionGracePeriodSeconds (sec_ObjectMeta s);
    om_Labels := om_Labels (sec_ObjectMeta s); om_Annotations := om_Annotations (sec_ObjectMeta s) |};
  sec_Data := sec_Data s;
  sec_Type := sec_Type s
|}.

Lemma secret_pairs app crt key :
  pairs order (sec_Data (make_secret [] app crt key)) ≡ₚ
    [(app ++ lit ".key", key); (app ++ lit ".crt", crt)].
Proof.
  unfold pairs. rewrite order_perm. cbn [sec_Data make_secret default]. apply map_to_list_to_map.
  cbn. apply list.NoDup_cons. split; [|by apply NoDup_singleton].
  intros H%list_elem_of_singleton. by apply app_inv_head in H.
Qed.

Lemma lists_perm {A} (f : A → ValidationErrorList) (P : A → Prop) l k :
  (∀ x, lists (f x) (P x)) → l ≡ₚ k → lists (l ≫= f) (Forall P k).
Proof.
  intros Hf Hp. eapply lists_iff; [|apply (lists_bind f P l Hf)]. rewrite list.Forall_forall.
  by setoid_rewrite Hp.
Qed.

(** the Secret the script makes is taken by the server exactly when its
    name is a DNS subdomain, the application a value of a label, the names of
    its two files keys of a Secret, and key and certificate together no larger
    than a mebibyte: none of which the script checks. *)
Theorem make_secret_accepted (json_object_error : str → option str) (ns name app crt key : str) :
  ∃ vs, ValidateSecret order json_object_error (in_namespace ns (make_secret name app crt key)) =
      Return (Validation <$> vs) ∧
    (vs = [] ↔
       (name ≠ [] ∧ IsDNS1123Subdomain name = true) ∧ (ns ≠ [] ∧ IsDNS1123Label ns = true) ∧
       IsValidLabelValue app = true ∧
       IsSecretKey (app ++ lit ".key") = true ∧ IsSecretKey (app ++ lit ".crt") = true ∧
       (Z.of_nat (length key) + Z.of_nat (length crt) ≤ MaxSecretSize)%Z).
Proof.
  set (P := _ ∧ _). change (validates (ValidateSecret order json_object_error
    (in_namespace ns (make_secret name app crt key))) P). unfold ValidateSecret, ValidateSecretName, NameIsDNSSubdomain.
  eapply validates_bind; [by apply ValidateObjectMeta_validates|]. intros m Hm.
  eapply validates_bind; [by apply validates_prefix|]. intros m' Hm'.
  apply lists_validates. change (sec_Data (in_namespace ns (make_secret name app crt key)))
    with (sec_Data (make_secret [] app crt key)).
  rewrite (data_size_perm _ _ (secret_pairs app crt key)).
  eapply lists_iff; [|exact (lists_app _ _ _ _ Hm' (lists_app _ _ _ _
    (lists_perm (λ '(key, _), secret_key_errors key) (λ '(key, _), IsSecretKey key = true) _ _
      ltac:(intros [k v]; apply lists_unless) (secret_pairs app crt key))
    (lists_app _ _ _ _ (lists_unless _ _) (lists_nil True I))))].
  subst P. rewrite !list.Forall_cons, Z.leb_le. unfold data_size. cbn [foldl]. rewrite Z.add_0_l.
  assert (valid_meta order IsDNS1123Subdomain (sec_ObjectMeta (in_namespace ns (make_secret name app crt key))) ↔
    (name ≠ [] ∧ IsDNS1123Subdomain name = true) ∧ (ns ≠ [] ∧ IsDNS1123Label ns = true) ∧
    IsValidLabelValue app = true) as ->; [|by intuition constructor].
  assert (∀ k v, default ∅ (Some {[lit "app" := app]} : string_map) !! k = Some v ↔ k = lit "app" ∧ v = app) as Hlab.
  { intros k v. change (({[lit "app" := app]} : gmap str str) !! k = Some v ↔ k = lit "app" ∧ v = app).
    rewrite lookup_singleton_Some. naive_solver. }
  split.
  - intros [_ H1 _ H2 H3 _]. split; [exact H1|]. split; [exact H2|]. by apply (H3 (lit "app") app), Hlab.
  - intros (H1 & H2 & H3). constructor; try done; [by left| |].
    + intros k v [-> ->]%Hlab. by split; [vm_compute|].
    + split; [intros k v; cbn; by rewrite lookup_empty|]. unfold pairs. cbn.
      assert (order ∅ = []) as ->; [|by vm_compute].
      apply Permutation_nil. rewrite order_perm. by rewrite map_to_list_empty.
Qed.
End accepted.

(** ** Witnesses *)

Definition demo_receiver : Receiver := mkReceiver "a" 80 "cert".

Lemma edit_accepted_witness :
  ∃ ing' vs, edit (E := unit) (demo_ingress []) demo_receiver = Return (Ok ing') ∧
    ValidateIngressUpdate map_to_list itoa itoa (λ _, false) (λ _, true) demo_port (demo_ingress []) ing' =
      Return (ing_ObjectMeta ing', Validation <$> vs) ∧ vs = [].
Proof.
  destruct (edit (E := unit) (demo_ingress []) demo_receiver) as [[ing'|e]| |] eqn:E;
    [|vm_compute in E; discriminate E..].
  destruct (edit_accepted (E := unit) map_to_list (λ m, Permutation_refl _) itoa itoa (λ _, false) (λ _, true) demo_port
    (demo_ingress []) ing' demo_receiver) as (vs & H1 & H2).
  - destruct (ValidateIngress_validates map_to_list (λ _, false) (λ _, true) demo_port (demo_ingress []))
      as (vs & Hv & H); [done|done|]. apply H. vm_compute in Hv. by destruct vs.
  - exact E.
  - exists ing', vs. split; [reflexivity|]. split; [exact H1|]. apply H2. vm_compute in E.
    injection E as <-. split; [done|]. by vm_compute.
Defined.

Lemma make_secret_accepted_witness :
  ∃ vs, ValidateSecret map_to_list (λ _, None) (in_namespace "default" (make_secret "web" "My App" "crt" "key")) =
    Return (Validation <$> vs) ∧ vs ≠ [].
Proof.
  destruct (make_secret_accepted map_to_list (λ m, Permutation_refl _) (λ _, None) "default" "web" "My App" "crt" "key")
    as (vs & H1 & H2).
  exists vs. split; [exact H1|]. intros Hv. apply H2 in Hv as (_ & _ & Hv & _). vm_compute in Hv. discriminate Hv.
Defined.
