(* ===== verification/RateLimit.v ===== *)
(** * The limit on the rate of requests (github.com/juju/ratelimit,
      k8s.io/kubernetes/pkg/util/throttle.go)

    A bucket of tokens that is filled as time passes.  Numbers of tokens,
    ticks and durations are 64 bits wide; a time is its distance to a fixed
    instant in nanoseconds.  The lock makes each operation one step; sleeping
    is the duration that is returned. *)

From S2P Require Import Prelude GoStr.

Local Open Scope Z_scope.

(** [Time.Sub]: the difference of two times, cut to the largest durations. *)
Definition time_sub (t u : Z) : Z := Z.max min_int64 (Z.min max_int64 (t - u)).

Record Bucket := mkBucket {
  startTime : Z;
  capacity : Z;
  quantum : Z;
  fillInterval : Z;
  avail : Z;
  availTick : Z
}.

Definition set_avail (a tick : Z) (tb : Bucket) : Bucket :=
  mkBucket (startTime tb) (capacity tb) (quantum tb) (fillInterval tb) a tick.

(** The growth is in 64 bits. *)
Definition nextQuantum (q : Z) : Z :=
  let q1 := Z.quot (wrap64 (q * 11)) 10 in if (q1 =? q) then wrap64 (q1 + 1) else q1.

Definition NewBucketWithQuantum (now fillInterval capacity quantum : Z) : control Bucket :=
  if (fillInterval <=? 0) then Panic "token bucket fill interval is not > 0"%go
  else if (capacity <=? 0) then Panic "token bucket capacity is not > 0"%go
  else if (quantum <=? 0) then Panic "token bucket quantum is not > 0"%go
  else Return (mkBucket now capacity quantum fillInterval capacity 0).

Definition NewBucket (now fillInterval capacity : Z) : control Bucket :=
  NewBucketWithQuantum now fillInterval capacity 1.

Section rate.
(** The computations in floating point: the interval for a quantum, and
    whether the rate of an interval and a quantum is close to the rate. *)
Variable interval : Z → Z.
Variable close : Z → Z → bool.
Variable rate_text : str.

(** [None] when the fuel ends. *)
Fixpoint search_quantum (fuel : nat) (now capacity q : Z) : option (control Bucket) :=
  match fuel with
  | O => None
  | S fuel =>
      if (q <? 2 ^ 50) then
        let fillInterval := interval q in
        if (fillInterval <=? 0) then search_quantum fuel now capacity (nextQuantum q)
        else
          match NewBucketWithQuantum now fillInterval capacity q with
          | Return tb =>
              if close fillInterval q then Some (Return tb)
              else search_quantum fuel now capacity (nextQuantum q)
          | Panic w => Some (Panic w)
          | Fatal m => Some (Fatal m)
          end
      else Some (Panic (lit "cannot find suitable quantum for " ++ rate_text)%go)
  end.

Definition NewBucketWithRate (now capacity : Z) : option (control Bucket) :=
  search_quantum 400 now capacity 1.
End rate.

(** The tick, and the bucket with what was filled in since the last tick. *)
Definition adjust (now : Z) (tb : Bucket) : Bucket * Z :=
  let currentTick := Z.quot (time_sub now (startTime tb)) (fillInterval tb) in
  if (capacity tb <=? avail tb) then (tb, currentTick)
  else
    let a := wrap64 (avail tb + wrap64 (wrap64 (currentTick - availTick tb) * quantum tb)) in
    let a := if (capacity tb <? a) then capacity tb else a in
    (set_avail a currentTick tb, currentTick).

(** The number of tokens taken. *)
Definition takeAvailable (now count : Z) (tb : Bucket) : Bucket * Z :=
  if (count <=? 0) then (tb, 0)
  else
    let '(tb, _) := adjust now tb in
    if (avail tb <=? 0) then (tb, 0)
    else
      let count := if (avail tb <? count) then avail tb else count in
      (set_avail (wrap64 (avail tb - count)) (availTick tb) tb, count).

Definition infinityDuration : Z := 9223372036854775807.

(** The time to wait, and whether the tokens were taken. *)
Definition take (now count maxWait : Z) (tb : Bucket) : Bucket * (Z * bool) :=
  if (count <=? 0) then (tb, (0, true))
  else
    let '(tb, currentTick) := adjust now tb in
    let a := wrap64 (avail tb - count) in
    if (0 <=? a) then (set_avail a (availTick tb) tb, (0, true))
    else
      let endTick := wrap64 (currentTick +
        Z.quot (wrap64 (wrap64 (wrap64 (- a) + quantum tb) - 1)) (quantum tb)) in
      let endTime := startTime tb + wrap64 (endTick * fillInterval tb) in
      let waitTime := time_sub endTime now in
      if (maxWait <? waitTime) then (tb, (0, false))
      else (set_avail a (availTick tb) tb, (waitTime, true)).

Definition Take (now count : Z) (tb : Bucket) : Bucket * Z :=
  let '(tb, (d, _)) := take now count infinityDuration tb in (tb, d).
Definition TakeMaxDuration (now count maxWait : Z) (tb : Bucket) : Bucket * (Z * bool) :=
  take now count maxWait tb.
Definition TakeAvailable (now count : Z) (tb : Bucket) : Bucket * Z := takeAvailable now count tb.

(** [Wait] and [WaitMaxDuration], with the time they sleep. *)
Definition sleep_of (d : Z) : Z := if (0 <? d) then d else 0.
Definition Wait (now count : Z) (tb : Bucket) : Bucket * Z :=
  let '(tb, d) := Take now count tb in (tb, sleep_of d).
Definition WaitMaxDuration (now count maxWait : Z) (tb : Bucket) : Bucket * (Z * bool) :=
  let '(tb, (d, ok)) := TakeMaxDuration now count maxWait tb in (tb, (sleep_of d, ok)).

(** ** The limiter of the client (throttle.go) *)

Definition CanAccept (now : Z) (limiter : Bucket) : Bucket * bool :=
  let '(tb, n) := TakeAvailable now 1 limiter in (tb, n =? 1).

(** [Accept], with the time it sleeps. *)
Definition Accept (now : Z) (limiter : Bucket) : Bucket * Z := Wait now 1 limiter.
