(* ===== verification/RateLimitSpec.v ===== *)
(** * The limit on the rate: specification

    The tokens a bucket gives respect its rate over every stretch of time from
    its start; its capacity bounds what it gives at one instant only twice
    over. *)

From S2P Require Import Prelude GoStr RateLimit.

Local Open Scope Z_scope.

Definition wf_bucket (tb : Bucket) : Prop :=
  0 < capacity tb ∧ 0 < quantum tb ∧ 0 < fillInterval tb ∧ avail tb ≤ capacity tb ∧ 0 ≤ availTick tb.

Definition tick (tb : Bucket) (now : Z) : Z := Z.quot (now - startTime tb) (fillInterval tb).

(** Nothing overflows at the time [now] for a bucket that owes [debt] tokens. *)
Definition in_range (tb : Bucket) (now debt : Z) : Prop :=
  0 ≤ now - startTime tb ∧ 0 ≤ debt ∧
  (now - startTime tb) + debt * fillInterval tb ≤ max_int64 ∧
  tick tb now * quantum tb + debt + quantum tb + capacity tb ≤ max_int64.

Lemma tick_bounds tb now :
  0 < fillInterval tb → 0 ≤ now - startTime tb →
  0 ≤ tick tb now ∧ tick tb now * fillInterval tb ≤ now - startTime tb ∧
  now - startTime tb < (tick tb now + 1) * fillInterval tb.
Proof.
  intros Hf Hn. unfold tick. rewrite Z.quot_div_nonneg by lia.
  pose proof (Z.div_pos _ _ Hn Hf). pose proof (Z.mul_div_le (now - startTime tb) _ Hf).
  pose proof (Z.mul_succ_div_gt (now - startTime tb) _ Hf). nia.
Qed.

Lemma time_sub_id t u : in_int64 (t - u) → time_sub t u = t - u.
Proof. unfold time_sub, in_int64. lia. Qed.

(** What [adjust] does when nothing overflows. *)
Definition refilled (now : Z) (tb : Bucket) : Bucket :=
  if decide (capacity tb ≤ avail tb) then tb
  else set_avail (Z.min (capacity tb) (avail tb + (tick tb now - availTick tb) * quantum tb)) (tick tb now) tb.

Lemma adjust_refilled tb now debt :
  wf_bucket tb → in_range tb now debt → - avail tb ≤ debt → availTick tb ≤ tick tb now →
  adjust now tb = (refilled now tb, tick tb now).
Proof.
  intros (Hc & Hq & Hf & Ha & Ht) (Hn & Hd & H1 & H2) Hdebt Htick.
  pose proof (tick_bounds tb now Hf Hn) as (T0 & T1 & T2).
  unfold max_int64 in *. unfold adjust. rewrite time_sub_id by (unfold in_int64, min_int64, max_int64; nia).
  fold (tick tb now). unfold refilled. case_decide as Hfull.
  - by rewrite (proj2 (Z.leb_le _ _) Hfull).
  - rewrite (proj2 (Z.leb_gt _ _)) by lia.
    assert (tick tb now * fillInterval tb ≤ 2 ^ 63 - 1) by lia.
    rewrite (wrap64_id (tick tb now - availTick tb)) by (unfold in_int64, min_int64, max_int64; nia).
    assert (0 ≤ (tick tb now - availTick tb) * quantum tb ≤ tick tb now * quantum tb) by nia.
    rewrite (wrap64_id (_ * _)) by (unfold in_int64, min_int64, max_int64; lia).
    rewrite (wrap64_id (avail tb + _)) by (unfold in_int64, min_int64, max_int64; lia).
    destruct (Z.ltb_spec (capacity tb) (avail tb + (tick tb now - availTick tb) * quantum tb));
      do 2 f_equal; lia.
Qed.

(** ** Histories *)

Inductive op :=
  | OTakeAvailable (count : Z)
  | OTake (count maxWait : Z).

Definition requested (o : op) : Z :=
  match o with OTakeAvailable c | OTake c _ => Z.max 0 c end.

(** The number of tokens given, and the time the caller goes on with them. *)
Definition run_op (now : Z) (o : op) (tb : Bucket) : Bucket * (Z * Z) :=
  match o with
  | OTakeAvailable c => let '(tb, n) := takeAvailable now c tb in (tb, (n, now))
  | OTake c m =>
      let '(tb, (d, ok)) := take now c m tb in (tb, (if ok then Z.max 0 c else 0, now + sleep_of d))
  end.

(** The bucket after some operations that gave [taken] tokens. *)
Record history (tb : Bucket) (now taken debt : Z) : Prop := {
  h_wf : wf_bucket tb;
  h_tick : availTick tb ≤ tick tb now;
  h_taken : taken + avail tb ≤ capacity tb + availTick tb * quantum tb;
  h_debt : - avail tb ≤ debt
}.

Definition same_bucket (tb tb' : Bucket) : Prop :=
  startTime tb' = startTime tb ∧ capacity tb' = capacity tb ∧ quantum tb' = quantum tb ∧
  fillInterval tb' = fillInterval tb.

Lemma same_tick tb tb' now : same_bucket tb tb' → tick tb' now = tick tb now.
Proof. intros (H1 & _ & _ & H4). unfold tick. by rewrite H1, H4. Qed.

Lemma refilled_history tb now taken debt :
  history tb now taken debt → 0 ≤ debt →
  history (refilled now tb) now taken debt ∧ same_bucket tb (refilled now tb).
Proof.
  intros [(Hc & Hq & Hf & Ha & Ht) Htick Htaken Hdebt] Hd. unfold refilled. case_decide as Hfull.
  - split; [|done]. by constructor.
  - split; [|done]. pose proof (Z.mul_sub_distr_r (tick tb now) (availTick tb) (quantum tb)).
    assert (0 ≤ (tick tb now - availTick tb) * quantum tb) by nia.
    set (tb' := set_avail _ _ tb). assert (tick tb' now = tick tb now) as Ht' by done.
    generalize dependent (tick tb now). intros t Htick Hm Hp tb' Ht'.
    constructor; [repeat split| | |]; rewrite ?Ht'; cbn; lia.
Qed.

Lemma same_in_range tb tb' now debt : same_bucket tb tb' → in_range tb now debt → in_range tb' now debt.
Proof.
  intros H (H1 & H2 & H3 & H4). pose proof (same_tick _ _ now H) as Ht. destruct H as (E1 & E2 & E3 & E4).
  unfold in_range. by rewrite Ht, E1, E2, E3, E4.
Qed.

Lemma history_set_avail tb now taken debt a :
  history tb now taken debt → a ≤ avail tb →
  history (set_avail a (availTick tb) tb) now (taken + (avail tb - a)) (debt + (avail tb - a)) ∧
  same_bucket tb (set_avail a (availTick tb) tb).
Proof.
  intros [(Hc & Hq & Hf & Ha & Ht) Htick Htaken Hdebt] Hle. split; [|done].
  assert (tick (set_avail a (availTick tb) tb) now = tick tb now) as Ht' by done.
  constructor; [repeat split| | |]; rewrite ?Ht'; cbn; lia.
Qed.

Lemma history_more tb now taken debt debt' :
  history tb now taken debt → debt ≤ debt' → history tb now taken debt'.
Proof. intros [] ?. constructor; [done|lia..]. Qed.

Lemma same_bucket_trans tb1 tb2 tb3 : same_bucket tb1 tb2 → same_bucket tb2 tb3 → same_bucket tb1 tb3.
Proof. unfold same_bucket. intros (-> & -> & -> & ->). done. Qed.

(** What an operation that gives [n] tokens at [release] does. *)
Definition gives (tb tb' : Bucket) (now taken debt count n release : Z) : Prop :=
  history tb' now (taken + n) (debt + count) ∧ same_bucket tb tb' ∧ 0 ≤ n ≤ count ∧ now ≤ release ∧
  (0 < n → taken + n ≤ capacity tb + tick tb release * quantum tb).

Lemma gives_nothing tb tb' now taken debt count :
  history tb' now taken debt → same_bucket tb tb' → 0 ≤ count → gives tb tb' now taken debt count 0 now.
Proof.
  intros Hh Hs Hc. split; [|split; [done|lia]]. rewrite Z.add_0_r. eapply history_more; [exact Hh|lia].
Qed.

Lemma gives_at_once tb tb1 now taken debt count n :
  history tb1 now taken debt → same_bucket tb tb1 → 0 ≤ n ≤ count → n ≤ avail tb1 →
  gives tb (set_avail (avail tb1 - n) (availTick tb1) tb1) now taken debt count n now.
Proof.
  intros Hh Hs Hn Ha. destruct (history_set_avail tb1 now taken debt (avail tb1 - n) Hh) as [Hh' Hs']; [lia|].
  replace (avail tb1 - (avail tb1 - n)) with n in Hh' by lia.
  split; [eapply history_more; [exact Hh'|lia]|]. split; [by eapply same_bucket_trans|]. split; [lia|].
  split; [lia|]. intros _. destruct Hh as [(_ & Hq & _ & _ & _) Ht Htaken _].
  rewrite (same_tick _ _ now Hs) in Ht. destruct Hs as (_ & E2 & E3 & _). rewrite E2, E3 in *. nia.
Qed.

Lemma takeAvailable_gives tb now taken debt count tb' n :
  history tb now taken debt → in_range tb now (debt + Z.max 0 count) → 0 ≤ debt →
  takeAvailable now count tb = (tb', n) → gives tb tb' now taken debt (Z.max 0 count) n now.
Proof.
  intros Hh Hr Hd. unfold takeAvailable.
  destruct (Z.leb_spec count 0) as [Hc|Hc]; [intros [= <- <-]; apply gives_nothing; [done..|lia]|].
  destruct (refilled_history _ _ _ _ Hh Hd) as [Hh1 Hs].
  rewrite (adjust_refilled tb now (debt + Z.max 0 count)); [|apply Hh|done|destruct Hh; lia|apply Hh].
  destruct (Z.leb_spec (avail (refilled now tb)) 0) as [Ha|Ha];
    [intros [= <- <-]; apply gives_nothing; [done..|lia]|].
  intros [= <- <-]. destruct Hr as (_ & _ & _ & Hr). pose proof Hs as (_ & E2 & _ & _).
  pose proof (h_wf _ _ _ _ Hh1) as (_ & _ & _ & Hcap & _).
  assert (0 ≤ tick tb now * quantum tb) as Htq.
  { destruct Hh as [(_ & Hq & _ & _ & H0) Ht _ _]. nia. }
  pose proof Hh as [(_ & Hq & _ & _ & _) _ _ _].
  rewrite E2 in Hcap. unfold max_int64 in *.
  destruct (Z.ltb_spec (avail (refilled now tb)) count);
    (rewrite wrap64_id by (unfold in_int64, min_int64, max_int64; lia); apply gives_at_once; [exact Hh1|exact Hs|lia|lia]).
Qed.

Lemma take_gives tb now taken debt count maxWait tb' d ok :
  history tb now taken debt → in_range tb now (debt + Z.max 0 count) → 0 ≤ debt →
  take now count maxWait tb = (tb', (d, ok)) →
  gives tb tb' now taken debt (Z.max 0 count) (if ok then Z.max 0 count else 0) (now + sleep_of d).
Proof.
  intros Hh Hr Hd. unfold take.
  destruct (Z.leb_spec count 0) as [Hc|Hc].
  { intros [= <- <- <-]. rewrite Z.add_0_r. replace (Z.max 0 count) with 0 by lia. apply gives_nothing; [done..|lia]. }
  destruct (refilled_history _ _ _ _ Hh Hd) as [Hh1 Hs].
  rewrite (adjust_refilled tb now (debt + Z.max 0 count)); [|apply Hh|done|destruct Hh; lia|apply Hh].
  replace (Z.max 0 count) with count in * by lia.
  pose proof (h_wf _ _ _ _ Hh1) as (_ & _ & _ & Hcap & _). pose proof (h_debt _ _ _ _ Hh1) as Hdebt.
  pose proof (h_wf _ _ _ _ Hh) as (Hc0 & Hq & Hf & _ & H0). pose proof (h_tick _ _ _ _ Hh) as Ht.
  destruct Hr as (Hn & _ & Hr1 & Hr2). pose proof Hs as (E1 & E2 & E3 & E4). rewrite E2 in Hcap.
  pose proof (tick_bounds tb now Hf Hn) as (T0 & T1 & T2).
  assert (tick tb now ≤ tick tb now * quantum tb) as Htq by (clear -T0 Hq; nia). unfold max_int64 in *.
  rewrite (wrap64_id (avail (refilled now tb) - count)) by (unfold in_int64, min_int64, max_int64; lia).
  destruct (Z.leb_spec 0 (avail (refilled now tb) - count)) as [Ha|Ha].
  { intros [= <- <- <-]. cbn. rewrite Z.add_0_r. apply gives_at_once; [done..|lia|lia]. }
  rewrite E1, E3, E4. set (missing := - (avail (refilled now tb) - count)).
  assert (0 < missing ≤ debt + count) as Hm by (subst missing; lia).
  assert (0 ≤ debt * fillInterval tb) by (clear -Hd Hf; nia).
  assert (0 ≤ count * fillInterval tb) by (clear -Hc Hf; nia).
  rewrite (wrap64_id missing) by (unfold in_int64, min_int64, max_int64; lia).
  rewrite (wrap64_id (missing + quantum tb)) by (unfold in_int64, min_int64, max_int64; lia).
  rewrite (wrap64_id (missing + quantum tb - 1)) by (unfold in_int64, min_int64, max_int64; lia).
  rewrite (Z.quot_div_nonneg (missing + quantum tb - 1)) by lia.
  set (more := (missing + quantum tb - 1) / quantum tb).
  assert (missing ≤ more * quantum tb) as Hmore.
  { subst more. pose proof (Z.mul_succ_div_gt (missing + quantum tb - 1) (quantum tb) Hq). lia. }
  assert (1 ≤ more ≤ debt + count) as Hmore2.
  { subst more. split.
    - apply Z.div_le_lower_bound; lia.
    - transitivity missing; [|lia]. apply Z.div_le_upper_bound; [lia|]. clear -Hm Hq. nia. }
  assert ((tick tb now + more) * fillInterval tb ≤ now - startTime tb + (debt + count) * fillInterval tb) as Hend
    by (clear -T1 Hmore2 Hf; nia).
  assert (now - startTime tb < (tick tb now + more) * fillInterval tb) as Hlater by (clear -T2 Hmore2 Hf; nia).
  assert (0 ≤ tick tb now * fillInterval tb) by (clear -T0 Hf; nia).
  rewrite (wrap64_id (tick tb now + more)) by (unfold in_int64, min_int64, max_int64; lia).
  rewrite (wrap64_id (_ * _)) by (unfold in_int64, min_int64, max_int64; lia).
  rewrite time_sub_id by (unfold in_int64, min_int64, max_int64; lia).
  destruct (Z.ltb_spec maxWait (startTime tb + (tick tb now + more) * fillInterval tb - now)) as [Hw|Hw].
  { intros [= <- <- <-]. cbn. rewrite Z.add_0_r. apply gives_nothing; [done..|lia]. }
  intros [= <- <- <-].
  destruct (history_set_avail _ _ _ _ (avail (refilled now tb) - count) Hh1) as [Hh' Hs']; [lia|].
  replace (avail (refilled now tb) - (avail (refilled now tb) - count)) with count in Hh' by lia.
  split; [eapply history_more; [exact Hh'|lia]|]. split; [by eapply same_bucket_trans|]. split; [lia|].
  unfold sleep_of. rewrite (proj2 (Z.ltb_lt _ _)) by lia. split; [lia|]. intros _.
  assert (tick tb (now + (startTime tb + (tick tb now + more) * fillInterval tb - now)) = tick tb now + more) as ->.
  { unfold tick at 1. replace (now + _ - startTime tb) with ((tick tb now + more) * fillInterval tb) by lia.
    rewrite Z.quot_mul; lia. }
  pose proof (h_taken _ _ _ _ Hh1) as Htaken. pose proof (h_tick _ _ _ _ Hh1) as Ht1.
  rewrite (same_tick _ _ now Hs) in Ht1. rewrite E2, E3 in Htaken.
  clear -Ht1 Htaken Hmore Hq. subst missing. nia.
Qed.

Lemma run_op_gives tb now taken debt o tb' n release :
  history tb now taken debt → in_range tb now (debt + requested o) → 0 ≤ debt →
  run_op now o tb = (tb', (n, release)) → gives tb tb' now taken debt (requested o) n release.
Proof.
  intros Hh Hr Hd. destruct o as [c|c m]; cbn [run_op requested] in *.
  - destruct (takeAvailable now c tb) as [tb1 n1] eqn:E. intros [= <- <- <-]. by apply takeAvailable_gives.
  - destruct (take now c m tb) as [tb1 [d ok]] eqn:E. intros [= <- <- <-]. by apply take_gives with m.
Qed.

(** ** Sequences of operations *)

(** The times at which tokens are given, each with all the tokens given so far. *)
Fixpoint run (tr : list (Z * op)) (tb : Bucket) (taken : Z) : list (Z * Z) :=
  match tr with
  | [] => []
  | (now, o) :: tr =>
      let '(tb, (n, release)) := run_op now o tb in
      (if 0 <? n then [(release, taken + n)] else []) ++ run tr tb (taken + n)
  end.

Definition total (tr : list (Z * op)) : Z := foldr (λ '(_, o) n, requested o + n) 0 tr.

Fixpoint ordered (t : Z) (tr : list (Z * op)) : Prop :=
  match tr with [] => True | (now, _) :: tr => t ≤ now ∧ ordered now tr end.

Lemma requested_nonneg o : 0 ≤ requested o.
Proof. destruct o; simpl; lia. Qed.

Lemma total_nonneg tr : 0 ≤ total tr.
Proof. induction tr as [|[now o] tr IH]; simpl; [lia|]. pose proof (requested_nonneg o). lia. Qed.

Lemma in_range_less tb now debt debt' :
  0 < fillInterval tb → 0 ≤ debt' ≤ debt → in_range tb now debt → in_range tb now debt'.
Proof. intros Hf Hd (H1 & H2 & H3 & H4). repeat split; [lia..|nia|lia]. Qed.

Lemma tick_mono tb t now :
  0 < fillInterval tb → 0 ≤ t - startTime tb → t ≤ now → tick tb t ≤ tick tb now.
Proof. intros Hf Ht Hle. unfold tick. apply Z.quot_le_mono; lia. Qed.

Lemma history_later tb t now taken debt :
  history tb t taken debt → 0 ≤ t - startTime tb → t ≤ now → history tb now taken debt.
Proof.
  intros [Hw Ht Htaken Hd] H0 Hle. constructor; [done| |done..].
  destruct Hw as (_ & _ & Hf & _). pose proof (tick_mono tb t now Hf H0 Hle). lia.
Qed.

Lemma run_respects tr tb t taken debt N :
  history tb t taken debt → 0 ≤ debt → 0 ≤ t - startTime tb → ordered t tr → debt + total tr ≤ N →
  Forall (λ '(now, _), in_range tb now N) tr →
  Forall (λ '(release, given), given ≤ capacity tb + tick tb release * quantum tb) (run tr tb taken).
Proof.
  revert tb t taken debt. induction tr as [|[now o] tr IH]; intros tb t taken debt Hh Hd Ht Ho HN Hr; [constructor|].
  cbn [ordered total foldr] in Ho, HN. destruct Ho as [Hle Ho]. apply list.Forall_cons in Hr as [Hr1 Hr].
  fold (total tr) in HN. pose proof (requested_nonneg o) as Hreq. pose proof (total_nonneg tr) as Htot.
  pose proof (h_wf _ _ _ _ Hh) as (_ & _ & Hf & _).
  cbn [run]. destruct (run_op now o tb) as [tb' [n release]] eqn:E.
  assert (in_range tb now (debt + requested o)) as Hr' by (apply (in_range_less tb now N); [done|lia|done]).
  apply run_op_gives with (taken := taken) (debt := debt) in E; [|by apply (history_later tb t)|done..].
  destruct E as (Hh' & Hs & Hn & Hrel & Hgive). apply list.Forall_app. split.
  - destruct (Z.ltb_spec 0 n); [|constructor]. constructor; [|constructor]. by apply Hgive.
  - pose proof Hs as (E1 & E2 & E3 & E4).
    assert (Forall (λ '(release, given), given ≤ capacity tb' + tick tb' release * quantum tb')
      (run tr tb' (taken + n))) as Hrun.
    { apply (IH tb' now (taken + n) (debt + requested o)); [done|lia|rewrite E1; lia|done|lia|].
      apply list.Forall_impl with (1 := Hr). intros [now' o'] H. by apply (same_in_range tb). }
    apply list.Forall_impl with (1 := Hrun). intros [rel given]. by rewrite (same_tick _ _ rel Hs), E2, E3.
Qed.

(** C27: the limiter keeps its rate: from a bucket that is new, for every
    sequence of requests at times that do not go back, with and without
    waiting, the tokens given by the time at which a caller goes on are no
    more than the capacity and what was filled in since the start. *)
Theorem rate_respected (start fill cap q : Z) (tb : Bucket) (tr : list (Z * op))
    (Hnew : NewBucketWithQuantum start fill cap q = Return tb)
    (Hord : ordered start tr)
    (Hrange : Forall (λ '(now, _), in_range tb now (total tr)) tr) :
  Forall (λ '(release, given), given ≤ cap + Z.quot (release - start) fill * q) (run tr tb 0).
Proof.
  unfold NewBucketWithQuantum in Hnew.
  destruct (Z.leb_spec fill 0), (Z.leb_spec cap 0), (Z.leb_spec q 0); [done..|]. injection Hnew as <-.
  apply (run_respects tr (mkBucket start cap q fill cap 0) start 0 0 (total tr)); cbn; [|lia|lia|done|lia|done].
  constructor; [unfold wf_bucket; cbn; lia|unfold tick; cbn| |]; cbn; try lia.
  rewrite Z.sub_diag. by rewrite Z.quot_0_l by lia.
Qed.

(** a bucket that is full does not note the ticks that pass, so that after
    a rest it gives its whole capacity twice at the same instant: twice the
    burst that it was made for, and nothing after that. *)
Theorem full_bucket_gives_twice (tb : Bucket) (now : Z)
    (Hwf : wf_bucket tb) (Hfull : avail tb = capacity tb)
    (Hrest : capacity tb ≤ (tick tb now - availTick tb) * quantum tb)
    (Hrange : in_range tb now 0) :
  ∃ tb1 tb2, takeAvailable now (capacity tb) tb = (tb1, capacity tb) ∧
    takeAvailable now (capacity tb) tb1 = (tb2, capacity tb) ∧
    snd (takeAvailable now 1 tb2) = 0.
Proof.
  pose proof Hwf as (Hc & Hq & Hf & _ & H0). pose proof Hrange as (Hn & _ & _ & Hr2).
  assert (availTick tb ≤ tick tb now) as Htick by nia.
  assert (0 ≤ tick tb now * quantum tb) as Htq by nia.
  assert (∀ a t, a = 0 ∨ a = capacity tb → 0 ≤ t ≤ tick tb now →
    adjust now (set_avail a t tb) = (refilled now (set_avail a t tb), tick tb now)) as Hadj.
  { intros a t Ha Ht. apply (adjust_refilled (set_avail a t tb) now 0); [|done|cbn; lia|cbn; exact (proj2 Ht)].
    unfold wf_bucket. cbn. lia. }
  assert (∀ a, 0 ≤ a ≤ capacity tb → wrap64 a = a) as Hwrap.
  { intros a Ha. apply wrap64_id. unfold in_int64, min_int64, max_int64 in *. lia. }
  assert (∀ t, capacity tb ≤ (tick tb now - t) * quantum tb → 0 ≤ t ≤ tick tb now →
    ∀ a t', refilled now (set_avail a t tb) = set_avail (capacity tb) t' tb → a = 0 ∨ a = capacity tb →
    takeAvailable now (capacity tb) (set_avail a t tb) = (set_avail 0 t' tb, capacity tb)) as Htake.
  { intros t Hlarge Ht a t' Href Ha. unfold takeAvailable. rewrite (proj2 (Z.leb_gt _ _)) by lia.
    rewrite Hadj, Href by done. cbn. rewrite (proj2 (Z.leb_gt _ _)) by lia.
    rewrite Z.ltb_irrefl, Hwrap by lia. by rewrite Z.sub_diag. }
  exists (set_avail 0 (availTick tb) tb), (set_avail 0 (tick tb now) tb).
  assert (tb = set_avail (capacity tb) (availTick tb) tb) as Htb by (rewrite <- Hfull; by destruct tb).
  split; [|split].
  - rewrite Htb at 2. apply Htake; [done|lia| |by right]. unfold refilled. by rewrite decide_True by (cbn; lia).
  - apply Htake; [done|lia| |by left]. unfold refilled. rewrite decide_False by (cbn; lia).
    cbn. change (tick (set_avail 0 (availTick tb) tb) now) with (tick tb now).
    rewrite (Z.min_l (capacity tb)) by lia. done.
  - unfold takeAvailable. cbn [Z.leb Z.compare]. rewrite Hadj by (auto; lia). unfold refilled.
    rewrite decide_False by (cbn; lia). cbn. change (tick (set_avail _ _ tb) now) with (tick tb now).
    rewrite Z.sub_diag. cbn. rewrite Z.min_r by lia. done.
Qed.

(** ** The search for a quantum *)

Fixpoint reaches_end (fuel : nat) (q : Z) : bool :=
  match fuel with
  | O => false
  | S fuel => if q <? 2 ^ 50 then reaches_end fuel (nextQuantum q) else true
  end.

Lemma search_quantum_ends interval close rate now cap fuel q :
  reaches_end fuel q = true → is_Some (search_quantum interval close rate fuel now cap q).
Proof.
  revert q. induction fuel as [|fuel IH]; intros q; [done|]. cbn [reaches_end search_quantum].
  destruct (q <? 2 ^ 50); [|by eexists]. intros H. specialize (IH _ H).
  destruct (interval q <=? 0); [done|]. destruct (NewBucketWithQuantum _ _ _ _); [|by eexists..].
  by destruct (close _ _); [eexists|].
Qed.

(** the search for a quantum ends for every rate, whatever the rounding of
    floating point numbers: within four hundred quanta there is one that is
    too large. *)
Theorem NewBucketWithRate_ends (interval : Z → Z) (close : Z → Z → bool) (rate : str) (now cap : Z) :
  is_Some (NewBucketWithRate interval close rate now cap).
Proof. apply search_quantum_ends. vm_compute. reflexivity. Qed.

(** ** Witnesses *)

(** Five tokens, one more every 200 milliseconds. *)
Definition demo_bucket : Bucket := mkBucket 0 5 1 200000000 5 0.

Lemma rate_respected_witness :
  run [(0, OTake 3 infinityDuration); (0, OTakeAvailable 9); (0, OTake 2 infinityDuration); (100000000, OTakeAvailable 1)]
    demo_bucket 0 = [(0, 3); (0, 5); (400000000, 7)] ∧
  Forall (λ '(release, given), given ≤ 5 + Z.quot (release - 0) 200000000 * 1)
    (run [(0, OTake 3 infinityDuration); (0, OTakeAvailable 9); (0, OTake 2 infinityDuration);
      (100000000, OTakeAvailable 1)] demo_bucket 0).
Proof.
  split; [vm_compute; reflexivity|].
  apply (rate_respected 0 200000000 5 1 demo_bucket); [reflexivity|cbn; lia|].
  repeat constructor; vm_compute; discriminate.
Defined.

Lemma full_bucket_gives_twice_witness :
  ∃ tb1 tb2, takeAvailable 1000000000 5 demo_bucket = (tb1, 5) ∧ takeAvailable 1000000000 5 tb1 = (tb2, 5) ∧
    snd (takeAvailable 1000000000 1 tb2) = 0.
Proof.
  apply (full_bucket_gives_twice demo_bucket 1000000000); [|reflexivity|vm_compute; discriminate|].
  - unfold wf_bucket. cbn. lia.
  - repeat split; vm_compute; discriminate.
Defined.
