(* ===== verification/ClientCmd.v ===== *)
(** * The configuration of the client (clientcmd: api/types.go, client_config.go,
      validation.go; imdario/mergo)

    A configuration names clusters, users and contexts.  The parts a context
    selects are merged, field by field, with defaults and with the overrides
    of the command line.  A pointer of a map is the value it points to. *)

From S2P Require Import Prelude GoStr Labels Errors Validation.

Local Open Scope go_scope.

(** ** Merging (mergo) *)

(** A field of any kind but maps: what is empty in the source is kept. *)
Definition merge_str (dst src : str) : str := match src with [] => dst | _ => src end.
Definition merge_bool (dst src : bool) : bool := if src then src else dst.

(** A map: the keys of the destination are kept; there is no assigning to a
    map that is nil. *)
Definition merge_map {V} (dst src : option (gmap str V)) : control (option (gmap str V)) :=
  match dst with
  | Some m => Return (Some (m ∪ default ∅ src))
  | None => if decide (dom (default ∅ src) = ∅) then Return None else Panic "assignment to entry in nil map"
  end.

(** ** The configuration (api/types.go) *)

Abbreviation extensions := (option (gmap str str)).

Record Cluster := mkCluster {
  cl_LocationOfOrigin : str;
  cl_Server : str;
  cl_APIVersion : str;
  cl_InsecureSkipTLSVerify : bool;
  cl_CertificateAuthority : str;
  cl_CertificateAuthorityData : str;
  cl_Extensions : extensions
}.

Record AuthInfo := mkAuthInfo {
  au_LocationOfOrigin : str;
  au_ClientCertificate : str;
  au_ClientCertificateData : str;
  au_ClientKey : str;
  au_ClientKeyData : str;
  au_Token : str;
  au_Username : str;
  au_Password : str;
  au_Extensions : extensions
}.

Record Context := mkContext {
  cx_LocationOfOrigin : str;
  cx_Cluster : str;
  cx_AuthInfo : str;
  cx_Namespace : str;
  cx_Extensions : extensions
}.

Record Preferences := mkPreferences {
  pr_Colors : bool;
  pr_Extensions : extensions
}.

Record Config := mkConfig {
  cfg_Kind : str;
  cfg_APIVersion : str;
  cfg_Preferences : Preferences;
  cfg_Clusters : option (gmap str Cluster);
  cfg_AuthInfos : option (gmap str AuthInfo);
  cfg_Contexts : option (gmap str Context);
  cfg_CurrentContext : str;
  cfg_Extensions : extensions
}.

Definition NewPreferences : Preferences := mkPreferences false (Some ∅).
Definition NewConfig : Config := mkConfig [] [] NewPreferences (Some ∅) (Some ∅) (Some ∅) [] (Some ∅).
Definition NewContext : Context := mkContext [] [] [] [] (Some ∅).
Definition NewCluster : Cluster := mkCluster [] [] [] false [] [] (Some ∅).
Definition NewAuthInfo : AuthInfo := mkAuthInfo [] [] [] [] [] [] [] [] (Some ∅).

(** The zero values of [var]. *)
Definition zero_Context : Context := mkContext [] [] [] [] None.
Definition zero_Cluster : Cluster := mkCluster [] [] [] false [] [] None.
Definition zero_AuthInfo : AuthInfo := mkAuthInfo [] [] [] [] [] [] [] [] None.

Definition merge_Cluster (dst src : Cluster) : control Cluster :=
  ext ← merge_map (cl_Extensions dst) (cl_Extensions src);
  Return (mkCluster (merge_str (cl_LocationOfOrigin dst) (cl_LocationOfOrigin src))
    (merge_str (cl_Server dst) (cl_Server src)) (merge_str (cl_APIVersion dst) (cl_APIVersion src))
    (merge_bool (cl_InsecureSkipTLSVerify dst) (cl_InsecureSkipTLSVerify src))
    (merge_str (cl_CertificateAuthority dst) (cl_CertificateAuthority src))
    (merge_str (cl_CertificateAuthorityData dst) (cl_CertificateAuthorityData src)) ext).

Definition merge_AuthInfo (dst src : AuthInfo) : control AuthInfo :=
  ext ← merge_map (au_Extensions dst) (au_Extensions src);
  Return (mkAuthInfo (merge_str (au_LocationOfOrigin dst) (au_LocationOfOrigin src))
    (merge_str (au_ClientCertificate dst) (au_ClientCertificate src))
    (merge_str (au_ClientCertificateData dst) (au_ClientCertificateData src))
    (merge_str (au_ClientKey dst) (au_ClientKey src))
    (merge_str (au_ClientKeyData dst) (au_ClientKeyData src))
    (merge_str (au_Token dst) (au_Token src)) (merge_str (au_Username dst) (au_Username src))
    (merge_str (au_Password dst) (au_Password src)) ext).

Definition merge_Context (dst src : Context) : control Context :=
  ext ← merge_map (cx_Extensions dst) (cx_Extensions src);
  Return (mkContext (merge_str (cx_LocationOfOrigin dst) (cx_LocationOfOrigin src))
    (merge_str (cx_Cluster dst) (cx_Cluster src)) (merge_str (cx_AuthInfo dst) (cx_AuthInfo src))
    (merge_str (cx_Namespace dst) (cx_Namespace src)) ext).

Definition merge_Config (dst src : Config) : control Config :=
  pext ← merge_map (pr_Extensions (cfg_Preferences dst)) (pr_Extensions (cfg_Preferences src));
  clusters ← merge_map (cfg_Clusters dst) (cfg_Clusters src);
  users ← merge_map (cfg_AuthInfos dst) (cfg_AuthInfos src);
  contexts ← merge_map (cfg_Contexts dst) (cfg_Contexts src);
  ext ← merge_map (cfg_Extensions dst) (cfg_Extensions src);
  Return (mkConfig (merge_str (cfg_Kind dst) (cfg_Kind src))
    (merge_str (cfg_APIVersion dst) (cfg_APIVersion src))
    (mkPreferences (merge_bool (pr_Colors (cfg_Preferences dst)) (pr_Colors (cfg_Preferences src))) pext)
    clusters users contexts (merge_str (cfg_CurrentContext dst) (cfg_CurrentContext src)) ext).

(** ** Errors of a configuration (validation.go) *)

Inductive config_problem :=
  | ContextNotFound (contextName : str)
  | Problem (text : str).

Inductive config_error :=
  | ErrNoContext
  | OneProblem (p : config_problem)
  | ConfigurationInvalid (errs : list config_problem).

Definition problem_Error (p : config_problem) : str :=
  match p with
  | ContextNotFound name => lit "context was not found for specified context: " ++ name
  | Problem text => text
  end.

Definition config_Error (e : config_error) : str :=
  match e with
  | ErrNoContext => "no context chosen"
  | OneProblem p => problem_Error p
  | ConfigurationInvalid errs =>
      lit "invalid configuration: " ++ Error (Aggregate ((λ p, Text (problem_Error p)) <$> errs))
  end.

Definition IsContextNotFound (e : option config_error) : bool :=
  match e with
  | None => false
  | Some (ErrNoContext | OneProblem (ContextNotFound _)) => true
  | Some e => contains "context was not found for specified context" (config_Error e)
  end.

Definition IsConfigurationInvalid (e : option config_error) : bool :=
  match e with
  | Some (OneProblem (ContextNotFound _) | ConfigurationInvalid _) => true
  | _ => IsContextNotFound e
  end.

Definition newErrConfigurationInvalid (errs : list config_problem) : option config_error :=
  match errs with [] => None | _ => Some (ConfigurationInvalid errs) end.

Section validation.
(** The error of opening a file to read it; printable runes; the order of maps. *)
Variable open_error : str → option str.
Variable printable : Z → bool.
Variable order : ∀ {V}, gmap str V → list (str * V).
#[local] Abbreviation q s := (Quote printable s).

Definition problem_if (b : bool) (text : str) : list config_problem := if b then [Problem text] else [].

(** What is wrong with a file that is named. *)
Definition file_problem (what file name : str) : list config_problem :=
  if given file then
    match open_error file with
    | Some e => [Problem (lit "unable to read " ++ what ++ lit " " ++ file ++ lit " for " ++ name ++
        lit " due to " ++ e)]
    | None => []
    end
  else [].

Definition validateClusterInfo (clusterName : str) (c : Cluster) : list config_problem :=
  (if given (cl_Server c) then []
   else if given clusterName then [Problem (lit "no server found for cluster " ++ q clusterName)]
   else [Problem "default cluster has no server defined"]) ++
  problem_if (given (cl_CertificateAuthority c) && given (cl_CertificateAuthorityData c))
    (lit "certificate-authority-data and certificate-authority are both specified for " ++ clusterName ++
     lit ". certificate-authority-data will override.") ++
  file_problem "certificate-authority" (cl_CertificateAuthority c) clusterName.

Definition validateAuthInfo (authInfoName : str) (a : AuthInfo) : list config_problem :=
  let methods := (if given (au_Token a) then [lit "token"] else []) ++
    (if given (au_Username a) || given (au_Password a) then [lit "basicAuth"] else []) in
  (if given (au_ClientCertificate a) || given (au_ClientCertificateData a) then
     problem_if (given (au_ClientCertificate a) && given (au_ClientCertificateData a))
       (lit "client-cert-data and client-cert are both specified for " ++ authInfoName ++
        lit ". client-cert-data will override.") ++
     problem_if (given (au_ClientKey a) && given (au_ClientKeyData a))
       (lit "client-key-data and client-key are both specified for " ++ authInfoName ++
        lit "; client-key-data will override") ++
     problem_if (negb (given (au_ClientKey a)) && negb (given (au_ClientKeyData a)))
       (lit "client-key-data or client-key must be specified for " ++ authInfoName ++
        lit " to use the clientCert authentication method.") ++
     file_problem "client-cert" (au_ClientCertificate a) authInfoName ++
     file_problem "client-key" (au_ClientKey a) authInfoName
   else []) ++
  problem_if (bool_decide (1 < length methods))
    (lit "more than one authentication method found for " ++ authInfoName ++ lit "; found [" ++
     join " " methods ++ lit "], only one is allowed").

Definition validateContext (contextName : str) (c : Context) (config : Config) : list config_problem :=
  (if given (cx_AuthInfo c) then
     problem_if (bool_decide (default ∅ (cfg_AuthInfos config) !! cx_AuthInfo c = None))
       (lit "user " ++ q (cx_AuthInfo c) ++ lit " was not found for context " ++ q contextName)
   else [Problem (lit "user was not specified for context " ++ q contextName)]) ++
  (if given (cx_Cluster c) then
     problem_if (bool_decide (default ∅ (cfg_Clusters config) !! cx_Cluster c = None))
       (lit "cluster " ++ q (cx_Cluster c) ++ lit " was not found for context " ++ q contextName)
   else [Problem (lit "cluster was not specified for context " ++ q contextName)]) ++
  problem_if (given (cx_Namespace c) && negb (IsDNS952Label (cx_Namespace c)))
    (lit "namespace " ++ q (cx_Namespace c) ++ lit " for context " ++ q contextName ++
     lit " does not conform to the kubernetes DNS952 rules").

Definition Validate (config : Config) : option config_error :=
  newErrConfigurationInvalid (
    (if given (cfg_CurrentContext config) && bool_decide (default ∅ (cfg_Contexts config) !! cfg_CurrentContext config = None)
     then [ContextNotFound (cfg_CurrentContext config)] else []) ++
    (order (default ∅ (cfg_Contexts config)) ≫= λ '(name, c), validateContext name c config) ++
    (order (default ∅ (cfg_AuthInfos config)) ≫= λ '(name, a), validateAuthInfo name a) ++
    (order (default ∅ (cfg_Clusters config)) ≫= λ '(name, c), validateClusterInfo name c)).

(** The pointer a map holds, followed: there is none for a missing key. *)
Definition deref {V} (o : option V) : control V :=
  match o with Some v => Return v | None => Panic "invalid memory address or nil pointer dereference" end.

Definition ConfirmUsable (config : Config) (passedContextName : str) : control (option config_error) :=
  let contextName := if given passedContextName then passedContextName else cfg_CurrentContext config in
  if given contextName then
    match default ∅ (cfg_Contexts config) !! contextName with
    | None => Return (newErrConfigurationInvalid [ContextNotFound contextName])
    | Some context =>
        let errs := validateContext contextName context config in
        user ← deref (default ∅ (cfg_AuthInfos config) !! cx_AuthInfo context);
        cluster ← deref (default ∅ (cfg_Clusters config) !! cx_Cluster context);
        Return (newErrConfigurationInvalid (errs ++ validateAuthInfo (cx_AuthInfo context) user ++
          validateClusterInfo (cx_Cluster context) cluster))
    end
  else Return (Some ErrNoContext).

(** ** The configuration that is used (client_config.go) *)

Record ConfigOverrides := mkConfigOverrides {
  co_AuthInfo : AuthInfo;
  co_ClusterInfo : Cluster;
  co_Context : Context;
  co_CurrentContext : str
}.

Definition DefaultCluster : Cluster := mkCluster [] "http://localhost:8080" [] false [] [] None.

(** The value of KUBERNETES_MASTER. *)
Variable kubernetes_master : str.
Definition EnvVarCluster : Cluster := mkCluster [] kubernetes_master [] false [] [] None.

Record DirectClientConfig := mkDirect {
  dc_config : Config;
  dc_contextName : str;
  dc_overrides : ConfigOverrides
}.

Definition getContextName (d : DirectClientConfig) : str :=
  if given (co_CurrentContext (dc_overrides d)) then co_CurrentContext (dc_overrides d)
  else if given (dc_contextName d) then dc_contextName d
  else cfg_CurrentContext (dc_config d).

(** Merge what a map holds for a name, if anything. *)
Definition merge_found {V} (merge : V → V → control V) (m : option (gmap str V)) (name : str) (dst : V) : control V :=
  match default ∅ m !! name with Some v => merge dst v | None => Return dst end.

Definition getContext (d : DirectClientConfig) : control Context :=
  c ← merge_found merge_Context (cfg_Contexts (dc_config d)) (getContextName d) zero_Context;
  merge_Context c (co_Context (dc_overrides d)).

Definition getAuthInfoName (d : DirectClientConfig) : control str :=
  if given (cx_AuthInfo (co_Context (dc_overrides d))) then Return (cx_AuthInfo (co_Context (dc_overrides d)))
  else c ← getContext d; Return (cx_AuthInfo c).

Definition getClusterName (d : DirectClientConfig) : control str :=
  if given (cx_Cluster (co_Context (dc_overrides d))) then Return (cx_Cluster (co_Context (dc_overrides d)))
  else c ← getContext d; Return (cx_Cluster c).

Definition getAuthInfo (d : DirectClientConfig) : control AuthInfo :=
  name ← getAuthInfoName d;
  a ← merge_found merge_AuthInfo (cfg_AuthInfos (dc_config d)) name zero_AuthInfo;
  merge_AuthInfo a (co_AuthInfo (dc_overrides d)).

Definition getCluster (d : DirectClientConfig) : control Cluster :=
  name ← getClusterName d;
  c ← merge_Cluster zero_Cluster DefaultCluster;
  c ← merge_Cluster c EnvVarCluster;
  c ← merge_found merge_Cluster (cfg_Clusters (dc_config d)) name c;
  merge_Cluster c (co_ClusterInfo (dc_overrides d)).

Definition direct_ConfirmUsable (d : DirectClientConfig) : control (option config_error) :=
  userName ← getAuthInfoName d;
  user ← getAuthInfo d;
  clusterName ← getClusterName d;
  cluster ← getCluster d;
  Return (newErrConfigurationInvalid (validateAuthInfo userName user ++ validateClusterInfo clusterName cluster)).

(** The namespace, and whether it is from the command line. *)
Definition direct_Namespace (d : DirectClientConfig) : control (result config_error (str * bool)) :=
  e ← direct_ConfirmUsable d;
  match e with
  | Some e => Return (Err e)
  | None =>
      c ← getContext d;
      Return (Ok (if given (cx_Namespace c)
        then (cx_Namespace c, bool_decide (cx_Namespace (co_Context (dc_overrides d)) ≠ []))
        else (lit "default", false)))
  end.
End validation.
