(* ===== verification/ClientCmdSpec.v ===== *)
(** * The configuration of the client: specification

    What a merge gives is the first value that is given, from the overrides
    down to the defaults; a configuration that passes [Validate] can be used
    under every context it names. *)

From S2P Require Import Prelude GoStr Labels Errors Validation ClientCmd.

Local Open Scope go_scope.

(** ** Merging *)

(** The reference for a merge of many sources: the first that is given. *)
Fixpoint first_given (l : list str) : str :=
  match l with
  | [] => []
  | [] :: l => first_given l
  | s :: _ => s
  end.

Lemma merge_str_first s l : merge_str (first_given l) s = first_given (s :: l).
Proof. by destruct s. Qed.

Lemma first_given_one s : first_given [s] = s.
Proof. by destruct s. Qed.

Lemma first_given_nil s : first_given [s; []] = s.
Proof. by destruct s. Qed.

Lemma merge_bool_orb a b : merge_bool a b = b || a.
Proof. by destruct a, b. Qed.

(** No extensions. *)
Definition bare (ext : extensions) : Prop := default ∅ ext = ∅.

#[global] Instance bare_dec ext : Decision (bare ext) := decide (default ∅ ext = ∅).

Lemma merge_map_nil (src : extensions) :
  merge_map None src = if decide (bare src) then Return None else Panic "assignment to entry in nil map".
Proof.
  unfold merge_map, bare.
  destruct (decide (default ∅ src = ∅)) as [->|Hne]; [done|].
  rewrite decide_False; [done|]. by rewrite dom_empty_iff_L.
Qed.

Lemma given_true s : given s = true ↔ s ≠ [].
Proof. unfold given. destruct s; simpl; naive_solver. Qed.

Lemma given_false s : given s = false ↔ s = [].
Proof. unfold given. destruct s; simpl; naive_solver. Qed.

Lemma newErr_None errs : newErrConfigurationInvalid errs = None ↔ errs = [].
Proof. by destruct errs. Qed.

Lemma problem_if_nil b text : problem_if b text = [] ↔ b = false.
Proof. by destruct b. Qed.

Lemma merge_Cluster_nil dst src :
  cl_Extensions dst = None →
  merge_Cluster dst src =
    if decide (bare (cl_Extensions src)) then
      Return (mkCluster (merge_str (cl_LocationOfOrigin dst) (cl_LocationOfOrigin src))
        (merge_str (cl_Server dst) (cl_Server src)) (merge_str (cl_APIVersion dst) (cl_APIVersion src))
        (cl_InsecureSkipTLSVerify src || cl_InsecureSkipTLSVerify dst)
        (merge_str (cl_CertificateAuthority dst) (cl_CertificateAuthority src))
        (merge_str (cl_CertificateAuthorityData dst) (cl_CertificateAuthorityData src)) None)
    else Panic "assignment to entry in nil map".
Proof.
  intros He. unfold merge_Cluster. rewrite He, merge_map_nil, merge_bool_orb. by case_decide.
Qed.

(** Merging nothing. *)
Lemma merge_found_Cluster m name c :
  cl_Extensions c = None →
  merge_found merge_Cluster m name c = merge_Cluster c (default zero_Cluster (default ∅ m !! name)).
Proof.
  intros He. unfold merge_found. destruct (default ∅ m !! name) as [v|]; [done|].
  rewrite merge_Cluster_nil by done. destruct c; simpl in *. by subst.
Qed.

Section config.
Variable open_error : str → option str.
Variable printable : Z → bool.
Variable kubernetes_master : str.

Definition found_cluster (d : DirectClientConfig) (name : str) : Cluster :=
  default zero_Cluster (default ∅ (cfg_Clusters (dc_config d)) !! name).

(** the cluster that is used takes each field from the overrides, the
    file, the variable KUBERNETES_MASTER and the default, in this order; a
    flag that is true anywhere stays true.  A cluster with extensions, in the
    file or in the overrides, makes the process panic. *)
Theorem getCluster_spec d name :
  getClusterName d = Return name →
  getCluster kubernetes_master d =
    let f := found_cluster d name in let o := co_ClusterInfo (dc_overrides d) in
    if decide (bare (cl_Extensions f) ∧ bare (cl_Extensions o)) then
      Return (mkCluster (first_given [cl_LocationOfOrigin o; cl_LocationOfOrigin f])
        (first_given [cl_Server o; cl_Server f; kubernetes_master; lit "http://localhost:8080"])
        (first_given [cl_APIVersion o; cl_APIVersion f])
        (cl_InsecureSkipTLSVerify o || cl_InsecureSkipTLSVerify f)
        (first_given [cl_CertificateAuthority o; cl_CertificateAuthority f])
        (first_given [cl_CertificateAuthorityData o; cl_CertificateAuthorityData f]) None)
    else Panic "assignment to entry in nil map".
Proof.
  intros Hname. unfold getCluster. rewrite Hname. cbn zeta.
  set (o := co_ClusterInfo (dc_overrides d)).
  rewrite (merge_Cluster_nil zero_Cluster), (decide_True (P := bare (cl_Extensions DefaultCluster))) by done.
  cbn [mbind control_bind].
  rewrite merge_Cluster_nil,
    (decide_True (P := bare (cl_Extensions (EnvVarCluster kubernetes_master)))) by done.
  cbn [mbind control_bind]. rewrite merge_found_Cluster by done. fold (found_cluster d name).
  generalize (found_cluster d name) as f. intros f.
  rewrite merge_Cluster_nil by done.
  destruct (decide (bare (cl_Extensions f))) as [Hf|Hf]; cbn [mbind control_bind];
    [|by rewrite decide_False by naive_solver].
  rewrite merge_Cluster_nil by done.
  destruct (decide (bare (cl_Extensions o))) as [Ho|Ho]; [|by rewrite decide_False by naive_solver].
  rewrite decide_True by done. cbn. rewrite orb_false_r.
  destruct (cl_Server o), (cl_Server f), kubernetes_master, (cl_LocationOfOrigin o), (cl_APIVersion o),
    (cl_CertificateAuthority o), (cl_CertificateAuthorityData o); cbn; rewrite ?first_given_one; done.
Qed.
(** nothing tells an unknown context: with no overrides, the configuration
    of a context that is not there is taken to be usable, and it is the
    default server without a user. *)
Theorem unknown_context_usable d :
  default ∅ (cfg_Contexts (dc_config d)) !! getContextName d = None →
  default ∅ (cfg_AuthInfos (dc_config d)) !! [] = None →
  default ∅ (cfg_Clusters (dc_config d)) !! [] = None →
  co_Context (dc_overrides d) = zero_Context → co_AuthInfo (dc_overrides d) = zero_AuthInfo →
  co_ClusterInfo (dc_overrides d) = zero_Cluster → kubernetes_master = [] →
  direct_ConfirmUsable open_error printable kubernetes_master d = Return None ∧
  getCluster kubernetes_master d = Return DefaultCluster ∧
  getAuthInfo d = Return zero_AuthInfo ∧
  direct_Namespace open_error printable kubernetes_master d = Return (Ok (lit "default", false)).
Proof.
  intros Hc Ha Hl Ho1 Ho2 Ho3 Hm.
  assert (Hx : getContext d = Return zero_Context) by (unfold getContext, merge_found; by rewrite Hc, Ho1).
  assert (Hn : getAuthInfoName d = Return []) by (unfold getAuthInfoName; by rewrite Ho1, Hx).
  assert (Hk : getClusterName d = Return []) by (unfold getClusterName; by rewrite Ho1, Hx).
  assert (Hu : getAuthInfo d = Return zero_AuthInfo)
    by (unfold getAuthInfo, merge_found; rewrite Hn; cbn [mbind control_bind]; by rewrite Ha, Ho2).
  assert (Hr : getCluster kubernetes_master d = Return DefaultCluster)
    by (unfold getCluster, merge_found; rewrite Hk; cbn [mbind control_bind]; by rewrite Hl, Ho3, Hm).
  assert (Hd : direct_ConfirmUsable open_error printable kubernetes_master d = Return None)
    by (unfold direct_ConfirmUsable; by rewrite Hn, Hk, Hu, Hr).
  repeat split; [done..|]. unfold direct_Namespace. by rewrite Hd, Hx.
Qed.

(** ** Validation *)

(** The context [ConfirmUsable] is asked about. *)
Definition chosen (config : Config) (passed : str) : str :=
  if given passed then passed else cfg_CurrentContext config.

(** ConfirmUsable panics exactly when the context exists and its user or
    its cluster does not. *)
Theorem ConfirmUsable_panics config passed :
  (∃ why, ConfirmUsable open_error printable config passed = Panic why) ↔
  chosen config passed ≠ [] ∧
  ∃ c, default ∅ (cfg_Contexts config) !! chosen config passed = Some c ∧
    (default ∅ (cfg_AuthInfos config) !! cx_AuthInfo c = None ∨
     default ∅ (cfg_Clusters config) !! cx_Cluster c = None).
Proof.
  unfold ConfirmUsable. fold (chosen config passed). cbn zeta.
  destruct (given (chosen config passed)) eqn:Hg.
  2: { apply given_false in Hg. split; [by intros (? & ?) | by intros (? & ?)]. }
  apply given_true in Hg.
  destruct (default ∅ (cfg_Contexts config) !! chosen config passed) as [c|];
    [|split; [by intros (? & ?) | by intros (_ & ? & ? & ?)]].
  destruct (default ∅ (cfg_AuthInfos config) !! cx_AuthInfo c) eqn:Hu,
    (default ∅ (cfg_Clusters config) !! cx_Cluster c) eqn:Hc; cbn.
  - split; [by intros (? & ?)|]. intros (_ & ? & [= <-] & [?|?]); congruence.
  - split; [|eauto]. intros _. split; [done|]. exists c. auto.
  - split; [|eauto]. intros _. split; [done|]. exists c. auto.
  - split; [|eauto]. intros _. split; [done|]. exists c. auto.
Qed.

Lemma validateContext_nil name c config :
  validateContext printable name c config = [] →
  (∃ u, default ∅ (cfg_AuthInfos config) !! cx_AuthInfo c = Some u) ∧
  (∃ k, default ∅ (cfg_Clusters config) !! cx_Cluster c = Some k).
Proof.
  unfold validateContext. intros [Hu [Hc _]%app_eq_nil]%app_eq_nil.
  destruct (given (cx_AuthInfo c)); [|done]. destruct (given (cx_Cluster c)); [|done].
  apply problem_if_nil, bool_decide_eq_false in Hu, Hc.
  split; apply not_eq_None_Some in Hu, Hc; [destruct Hu | destruct Hc]; eauto.
Qed.

Section order.
Variable order : ∀ {V}, gmap str V → list (str * V).
Hypothesis order_perm : ∀ V (m : gmap str V), order m ≡ₚ map_to_list m.

Lemma order_bind_nil {V E} (f : str * V → list E) (m : gmap str V) k v :
  order m ≫= f = [] → m !! k = Some v → f (k, v) = [].
Proof.
  intros Hn Hk. destruct (f (k, v)) as [|e l] eqn:Hf; [done|].
  assert (e ∈ order m ≫= f) as He; [|rewrite Hn in He; by apply not_elem_of_nil in He].
  apply list_elem_of_bind. exists (k, v). rewrite Hf, order_perm. split; [left|].
  by apply elem_of_map_to_list.
Qed.

(** a configuration that [Validate] accepts can be used under each of its
    contexts. *)
Theorem Validate_usable config name c :
  Validate open_error printable (@order) config = None →
  name ≠ [] → default ∅ (cfg_Contexts config) !! name = Some c →
  ConfirmUsable open_error printable config name = Return None.
Proof.
  unfold Validate. rewrite newErr_None.
  intros [_ [Hx [Ha Hk]%app_eq_nil]%app_eq_nil]%app_eq_nil Hname Hc.
  pose proof (order_bind_nil _ _ _ _ Hx Hc) as Hv. simpl in Hv.
  destruct (validateContext_nil _ _ _ Hv) as [[u Hu] [k Hk']].
  unfold ConfirmUsable. rewrite (proj2 (given_true name) Hname). cbn zeta.
  rewrite (proj2 (given_true name) Hname), Hc, Hu, Hk'. cbn. rewrite Hv.
  pose proof (order_bind_nil _ _ _ _ Ha Hu) as Hau. pose proof (order_bind_nil _ _ _ _ Hk Hk') as Hkk.
  simpl in Hau, Hkk. by rewrite Hau, Hkk.
Qed.
End order.
End config.

(** ** Witnesses *)

Module Ex.
Definition prod : Cluster := mkCluster "f" "https://prod" [] false "/ca.crt" [] None.
Definition alice : AuthInfo := mkAuthInfo "f" "/a.crt" [] "/a.key" [] [] [] [] None.
Definition work : Context := mkContext "f" "prod" "alice" "team" None.
Definition config : Config :=
  mkConfig [] [] NewPreferences (Some {[ lit "prod" := prod ]}) (Some {[ lit "alice" := alice ]})
    (Some {[ lit "work" := work ]}) "work" (Some ∅).
Definition no_overrides : ConfigOverrides := mkConfigOverrides zero_AuthInfo zero_Cluster zero_Context [].
Definition insecure : ConfigOverrides :=
  mkConfigOverrides zero_AuthInfo (mkCluster [] [] "v1" true [] [] None) zero_Context [].
Definition direct : DirectClientConfig := mkDirect config [] insecure.
Definition unknown : DirectClientConfig := mkDirect config "home" no_overrides.
Definition opens : str → option str := λ _, None.
Definition ascii_printable (z : Z) : bool := (32 <=? z)%Z && (z <? 127)%Z.
End Ex.

Lemma getCluster_spec_witness :
  getClusterName Ex.direct = Return (lit "prod") ∧
  getCluster (lit "http://master") Ex.direct =
    Return (mkCluster "f" "https://prod" "v1" true "/ca.crt" [] None).
Proof.
  split; [by vm_compute|]. rewrite (getCluster_spec (lit "http://master") Ex.direct "prod"); by vm_compute.
Defined.

Lemma unknown_context_usable_witness :
  getContextName Ex.unknown = lit "home" ∧ getCluster [] Ex.unknown = Return DefaultCluster.
Proof.
  split; [by vm_compute|].
  apply (unknown_context_usable Ex.opens Ex.ascii_printable [] Ex.unknown); by vm_compute.
Defined.

Lemma Validate_usable_witness :
  Validate Ex.opens Ex.ascii_printable (λ V, map_to_list) Ex.config = None ∧
  ConfirmUsable Ex.opens Ex.ascii_printable Ex.config "work" = Return None.
Proof.
  split; [by vm_compute|].
  apply (Validate_usable Ex.opens Ex.ascii_printable (λ V, map_to_list) (λ V m, Permutation_refl _)
    Ex.config "work" Ex.work); by vm_compute.
Defined.
