(* ===== verification/ClientLoader.v ===== *)
(** * Loading, migrating and rewriting configuration files (clientcmd:
      loader.go, merged_client_builder.go, api/helpers.go)

    The files are those of [GoStd]; decoding the bytes of a file is a
    parameter.  What the source changes through the pointers of a map is here
    the map with the changed values. *)

From S2P Require Import Prelude GoStr GoStd Labels Errors Validation ClientCmd.

Local Open Scope go_scope.

(** ** Errors of the operating system *)

Definition strerror (e : errno) : str :=
  match e with
  | ENOENT => "no such file or directory"
  | ENOTDIR => "not a directory"
  | EISDIR => "is a directory"
  | EEXIST => "file exists"
  | ENOSPC => "no space left on device"
  end.

Inductive load_error :=
  | PathError (op path : str) (e : errno)
  | LoadText (text : str).

Definition load_Error (e : load_error) : str :=
  match e with
  | PathError op path e => op ++ lit " " ++ path ++ lit ": " ++ strerror e
  | LoadText text => text
  end.

(** [os.IsNotExist]. *)
Definition IsNotExist (e : load_error) : bool :=
  match e with PathError _ _ ENOENT => true | _ => false end.

(** A proper prefix of a path that is a file and not a directory. *)
Definition below_file (fs : files) (path : str) : bool :=
  existsb (λ n, match path !! n, nodes fs !! take n path with
                | Some "/"%char, Some (File _) => true
                | _, _ => false
                end) (seq 0 (length path)).

(** [os.Stat], which tells what is below a file from what is not there. *)
Definition os_stat (op : str) (fs : files) (path : str) : result load_error node :=
  match stat fs path with
  | Ok n => Ok n
  | Err e => Err (PathError op path (if below_file fs (clean path) then ENOTDIR else e))
  end.

(** [ioutil.ReadFile]. *)
Definition os_read (fs : files) (path : str) : result load_error str :=
  match os_stat "open" fs path with
  | Ok (File content) => Ok content
  | Ok (Dir _) => Err (PathError "read" path EISDIR)
  | Err e => Err e
  end.

Definition is_dir (n : node) : bool := match n with Dir _ => true | File _ => false end.

(** ** The paths of a configuration *)

Definition IsAbs (path : str) : bool := is_rooted path.

(** [filepath.Abs], in a working directory. *)
Definition Abs (cwd : result str str) (path : str) : result str str :=
  if IsAbs path then Ok (clean path) else cwd ≫= λ d, Ok (path_join [d; path]).

Definition ResolvePath (path base : str) : str :=
  if given path && negb (IsAbs path) then path_join [base; path] else path.

Definition MakeAbs (cwd : result str str) (path base : str) : result str str :=
  if IsAbs path then Ok path
  else if given base then Ok (path_join [base; path])
  else cwd ≫= λ d, Ok (path_join [d; path]).

Definition ResolvePaths (refs : list str) (base : str) : list str := (λ r, ResolvePath r base) <$> refs.

Definition GetClusterFileReferences (c : Cluster) : list str := [cl_CertificateAuthority c].
Definition GetAuthInfoFileReferences (a : AuthInfo) : list str := [au_ClientCertificate a; au_ClientKey a].

Definition set_cluster_ca (ca data : str) (c : Cluster) : Cluster :=
  mkCluster (cl_LocationOfOrigin c) (cl_Server c) (cl_APIVersion c) (cl_InsecureSkipTLSVerify c) ca data
    (cl_Extensions c).
Definition set_cert (cert data : str) (a : AuthInfo) : AuthInfo :=
  mkAuthInfo (au_LocationOfOrigin a) cert data (au_ClientKey a) (au_ClientKeyData a) (au_Token a)
    (au_Username a) (au_Password a) (au_Extensions a).
Definition set_key (key data : str) (a : AuthInfo) : AuthInfo :=
  mkAuthInfo (au_LocationOfOrigin a) (au_ClientCertificate a) (au_ClientCertificateData a) key data (au_Token a)
    (au_Username a) (au_Password a) (au_Extensions a).

(** What the pointers to the paths of a cluster and of a user point to. *)
Definition put_cluster_refs (refs : list str) (c : Cluster) : Cluster :=
  match refs with [ca] => set_cluster_ca ca (cl_CertificateAuthorityData c) c | _ => c end.
Definition put_authinfo_refs (refs : list str) (a : AuthInfo) : AuthInfo :=
  match refs with
  | [cert; key] => set_key key (au_ClientKeyData a) (set_cert cert (au_ClientCertificateData a) a)
  | _ => a
  end.

(** A loop over a map that changes the values and stops at the first error;
    the value the error is of is changed too. *)
Fixpoint each {E V} (f : V → V * option E) (l : list (str * V)) (m : gmap str V) : gmap str V * option E :=
  match l with
  | [] => (m, None)
  | (k, v) :: l =>
      match f v with
      | (v, None) => each f l (<[k := v]> m)
      | (v, Some e) => (<[k := v]> m, Some e)
      end
  end.

Definition set_stanzas (clusters : gmap str Cluster) (users : gmap str AuthInfo) (c : Config) : Config :=
  mkConfig (cfg_Kind c) (cfg_APIVersion c) (cfg_Preferences c)
    ((λ _, clusters) <$> cfg_Clusters c) ((λ _, users) <$> cfg_AuthInfos c)
    (cfg_Contexts c) (cfg_CurrentContext c) (cfg_Extensions c).
Definition clusters_of (c : Config) : gmap str Cluster := default ∅ (cfg_Clusters c).
Definition users_of (c : Config) : gmap str AuthInfo := default ∅ (cfg_AuthInfos c).
Definition contexts_of (c : Config) : gmap str Context := default ∅ (cfg_Contexts c).

(** ** Rewriting a configuration (api/helpers.go) *)

(** What is to be in place of the keys: those the letters [REDACTED] encode
    in base64. *)
Definition redactedBytes : str := chr <$> [68; 64; 192; 9; 49; 3]%Z.

(** The entry of a map for one name, if a name is given. *)
Definition keep_only {V} (what : str) (m : gmap str V) (name : str) : result str (gmap str V) :=
  if given name then
    match m !! name with
    | None => Err (lit "cannot locate " ++ what ++ lit " " ++ name)
    | Some v => Ok {[ name := v ]}
    end
  else Ok ∅.

Definition MinifyConfig (c : Config) : result str Config :=
  if given (cfg_CurrentContext c) then
    match contexts_of c !! cfg_CurrentContext c with
    | None => Err (lit "cannot locate context " ++ cfg_CurrentContext c)
    | Some currContext =>
        newClusters ← keep_only "cluster" (clusters_of c) (cx_Cluster currContext);
        newAuthInfos ← keep_only "user" (users_of c) (cx_AuthInfo currContext);
        Ok (mkConfig (cfg_Kind c) (cfg_APIVersion c) (cfg_Preferences c) (Some newClusters) (Some newAuthInfos)
          (Some {[ cfg_CurrentContext c := currContext ]}) (cfg_CurrentContext c) (cfg_Extensions c))
    end
  else Err (lit "current-context must exist in order to minify").

Definition redact (data : str) : str := if given data then redactedBytes else data.

Definition ShortenConfig (c : Config) : Config :=
  set_stanzas ((λ v, set_cluster_ca (cl_CertificateAuthority v) (redact (cl_CertificateAuthorityData v)) v) <$> clusters_of c)
    ((λ v, set_key (au_ClientKey v) (redact (au_ClientKeyData v))
             (set_cert (au_ClientCertificate v) (redact (au_ClientCertificateData v)) v)) <$> users_of c) c.

(** The path and the contents, changed. *)
Definition FlattenContent (fs : files) (path contents baseDir : str) : (str * str) * option load_error :=
  if given path then
    if given contents then (path, contents, Some (LoadText "cannot have values for both path and contents"))
    else match os_read fs (ResolvePath path baseDir) with
         | Err e => (path, [], Some e)
         | Ok content => ([], content, None)
         end
  else (path, contents, None).

Definition flatten_cluster (fs : files) (cwd : result str str) (c : Cluster) : Cluster * option load_error :=
  match MakeAbs cwd (dir (cl_LocationOfOrigin c)) [] with
  | Err e => (c, Some (LoadText e))
  | Ok baseDir =>
      let '(path, contents, e) := FlattenContent fs (cl_CertificateAuthority c) (cl_CertificateAuthorityData c) baseDir in
      (set_cluster_ca path contents c, e)
  end.

Definition flatten_authinfo (fs : files) (cwd : result str str) (a : AuthInfo) : AuthInfo * option load_error :=
  match MakeAbs cwd (dir (au_LocationOfOrigin a)) [] with
  | Err e => (a, Some (LoadText e))
  | Ok baseDir =>
      match FlattenContent fs (au_ClientCertificate a) (au_ClientCertificateData a) baseDir with
      | (path, contents, Some e) => (set_cert path contents a, Some e)
      | (path, contents, None) =>
          let a := set_cert path contents a in
          let '(path, contents, e) := FlattenContent fs (au_ClientKey a) (au_ClientKeyData a) baseDir in
          (set_key path contents a, e)
      end
  end.

Section loader.
(** The order of maps, the working directory and the decoding of a file. *)
Variable order : ∀ {V}, gmap str V → list (str * V).
Variable cwd : result str str.
Variable decode : str → result str Config.

(** Two loops over the stanzas of a configuration, users or clusters first. *)
Definition FlattenConfig (fs : files) (c : Config) : Config * option load_error :=
  let '(users, e) := each (flatten_authinfo fs cwd) (order (users_of c)) (users_of c) in
  match e with
  | Some e => (set_stanzas (clusters_of c) users c, Some e)
  | None =>
      let '(clusters, e) := each (flatten_cluster fs cwd) (order (clusters_of c)) (clusters_of c) in
      (set_stanzas clusters users c, e)
  end.

Definition no_directory (location e : str) : load_error :=
  LoadText (lit "Could not determine the absolute path of config file " ++ location ++ lit ": " ++ e).

Definition resolve_cluster (c : Cluster) : Cluster * option load_error :=
  if given (cl_LocationOfOrigin c) then
    match Abs cwd (dir (cl_LocationOfOrigin c)) with
    | Err e => (c, Some (no_directory (cl_LocationOfOrigin c) e))
    | Ok base => (put_cluster_refs (ResolvePaths (GetClusterFileReferences c) base) c, None)
    end
  else (c, None).

Definition resolve_authinfo (a : AuthInfo) : AuthInfo * option load_error :=
  if given (au_LocationOfOrigin a) then
    match Abs cwd (dir (au_LocationOfOrigin a)) with
    | Err e => (a, Some (no_directory (au_LocationOfOrigin a) e))
    | Ok base => (put_authinfo_refs (ResolvePaths (GetAuthInfoFileReferences a) base) a, None)
    end
  else (a, None).

Definition ResolveLocalPaths (c : Config) : Config * option load_error :=
  let '(clusters, e) := each resolve_cluster (order (clusters_of c)) (clusters_of c) in
  match e with
  | Some e => (set_stanzas clusters (users_of c) c, Some e)
  | None =>
      let '(users, e) := each resolve_authinfo (order (users_of c)) (users_of c) in
      (set_stanzas clusters users c, e)
  end.

(** ** Loading (loader.go) *)

Definition Load (data : str) : result load_error Config :=
  if given data then match decode data with Ok c => Ok c | Err e => Err (LoadText e) end else Ok NewConfig.

Definition cluster_from (filename : str) (c : Cluster) : Cluster :=
  mkCluster filename (cl_Server c) (cl_APIVersion c) (cl_InsecureSkipTLSVerify c) (cl_CertificateAuthority c)
    (cl_CertificateAuthorityData c) (cl_Extensions c).
Definition authinfo_from (filename : str) (a : AuthInfo) : AuthInfo :=
  mkAuthInfo filename (au_ClientCertificate a) (au_ClientCertificateData a) (au_ClientKey a) (au_ClientKeyData a)
    (au_Token a) (au_Username a) (au_Password a) (au_Extensions a).
Definition context_from (filename : str) (c : Context) : Context :=
  mkContext filename (cx_Cluster c) (cx_AuthInfo c) (cx_Namespace c) (cx_Extensions c).

Definition LoadFromFile (fs : files) (filename : str) : result load_error Config :=
  kubeconfigBytes ← os_read fs filename;
  c ← Load kubeconfigBytes;
  Ok (mkConfig (cfg_Kind c) (cfg_APIVersion c) (cfg_Preferences c)
    ((λ m : gmap str Cluster, cluster_from filename <$> m) <$> cfg_Clusters c)
    ((λ m : gmap str AuthInfo, authinfo_from filename <$> m) <$> cfg_AuthInfos c)
    ((λ m : gmap str Context, context_from filename <$> m) <$> cfg_Contexts c)
    (cfg_CurrentContext c) (cfg_Extensions c)).

Definition mergeConfigWithFile (fs : files) (startingConfig : Config) (filename : str) :
    control (Config * option load_error) :=
  if given filename then
    match LoadFromFile fs filename with
    | Ok c => merged ← merge_Config startingConfig c; Return (merged, None)
    | Err e =>
        if IsNotExist e then Return (startingConfig, None)
        else Return (startingConfig, Some (LoadText (lit "Error loading config file " ++ quoted filename ++ lit ": " ++ load_Error e)))
    end
  else Return (startingConfig, None).

(** A file, written in a directory that is made if it is not there. *)
Definition WriteToFile (encode : Config → result str str) (c : Config) (filename : str) (fs : files) :
    files * option load_error :=
  match encode c with
  | Err e => (fs, Some (LoadText e))
  | Ok content =>
      let d := dir filename in
      let made := match os_stat "stat" fs d with
        | Err e => if IsNotExist e then mkdir_all d 493 fs else (fs, None)
        | Ok _ => (fs, None)
        end in
      match made with
      | (fs, Some e) => (fs, Some (PathError "mkdir" d e))
      | (fs, None) =>
          let '(fs, e) := write_file filename content fs in
          (fs, (λ e, PathError (if e is ENOSPC then "write" else "open") filename e) <$> e)
      end
  end.

(** The files merged one after the other, with the errors. *)
Fixpoint mergeFiles (fs : files) (c : Config) (filenames : list str) : control (Config * list load_error) :=
  match filenames with
  | [] => Return (c, [])
  | filename :: rest =>
      one ← mergeConfigWithFile fs c filename;
      others ← mergeFiles fs (fst one) rest;
      Return (fst others, option_list (snd one) ++ snd others)
  end.

Record ClientConfigLoadingRules := mkRules {
  ExplicitPath : str;
  Precedence : list str;
  MigrationRules : option (gmap str str);
  DoNotResolvePaths : bool
}.

Fixpoint migrate (fs : files) (l : list (str * str)) : files * option load_error :=
  match l with
  | [] => (fs, None)
  | (destination, source) :: l =>
      match os_stat "stat" fs destination with
      | Ok _ => migrate fs l
      | Err e =>
          if IsNotExist e then
            match os_stat "stat" fs source with
            | Err e => if IsNotExist e then migrate fs l else (fs, Some e)
            | Ok (Dir _) => (fs, Some (LoadText (lit "cannot migrate " ++ source ++ lit " to " ++ destination ++
                lit " because it is a directory")))
            | Ok (File content) =>
                match write_file destination content fs with
                | (fs, None) => migrate fs l
                | (fs, Some e) => (fs, Some (PathError (if e is ENOSPC then "write" else "open") destination e))
                end
            end
          else (fs, Some e)
      end
  end.

Definition Migrate (rules : ClientConfigLoadingRules) (fs : files) : files * option load_error :=
  match MigrationRules rules with None => (fs, None) | Some m => migrate fs (order m) end.

Definition aggregate (errs : list load_error) : option err := NewAggregate ((λ e, Text (load_Error e)) <$> errs).

Definition kubeConfigFiles (rules : ClientConfigLoadingRules) (fs : files) : result load_error (list str) :=
  if given (ExplicitPath rules) then
    match os_stat "stat" fs (ExplicitPath rules) with
    | Err e => if IsNotExist e then Err e else Ok [ExplicitPath rules]
    | Ok _ => Ok [ExplicitPath rules]
    end
  else Ok (Precedence rules).

(** What the files give, before their paths are resolved. *)
Definition merged_files (fs : files) (filenames : list str) : control (Config * list load_error) :=
  maps ← mergeFiles fs NewConfig filenames;
  scalars ← mergeFiles fs NewConfig (reverse filenames);
  config ← merge_Config NewConfig (fst maps);
  config ← merge_Config config (fst scalars);
  Return (config, snd maps).

Definition rules_Load (rules : ClientConfigLoadingRules) (fs : files) :
    files * control (option Config * option err) :=
  let '(fs, e) := Migrate rules fs in
  (fs, match e with
       | Some e => Return (None, Some (Text (load_Error e)))
       | None =>
           match kubeConfigFiles rules fs with
           | Err e => Return (None, Some (Text (load_Error e)))
           | Ok filenames =>
               merged ← merged_files fs filenames;
               let '(config, errlist) := merged in
               if DoNotResolvePaths rules then Return (Some config, aggregate errlist)
               else let '(config, e) := ResolveLocalPaths config in
                    Return (Some config, aggregate (errlist ++ option_list e))
           end
       end).

(** The rules of the environment: KUBECONFIG, or a file of the home
    directory. *)
Definition RecommendedHomeFile (home : str) : str := path_join [home; lit ".kube"; lit "config"].
Definition OldRecommendedHomeFile (home : str) : str := path_join [home; lit "/.kube/.kubeconfig"].

Definition NewDefaultClientConfigLoadingRules (kubeconfig home : str) : ClientConfigLoadingRules :=
  if given kubeconfig then mkRules [] (split ":" kubeconfig) (Some ∅) false
  else mkRules [] [RecommendedHomeFile home]
    (Some {[ RecommendedHomeFile home := OldRecommendedHomeFile home ]}) false.

(** ** Loading when the configuration is asked for (merged_client_builder.go) *)

Definition createClientConfig (rules : ClientConfigLoadingRules) (overrides : ConfigOverrides) (fs : files) :
    files * control (result err DirectClientConfig) :=
  let '(fs, r) := rules_Load rules fs in
  (fs, r ≫= λ '(c, e),
     match e, c with
     | Some e, _ => Return (Err e)
     | None, Some c => Return (Ok (mkDirect c (co_CurrentContext overrides) overrides))
     | None, None => Panic "invalid memory address or nil pointer dereference"
     end).
End loader.
