(* ===== verification/ClientLoaderSpec.v ===== *)
(** * Loading configuration files: specification

    For every name the first file wins, and for every scalar too; a
    configuration whose paths are resolved has absolute paths only; one that is
    flattened has none; a migration never overwrites a file. *)

From S2P Require Import Prelude GoStr GoStd GoUrl GoUrlSpec Labels Errors Validation ClientCmd ClientCmdSpec ClientLoader.

Local Open Scope go_scope.

(** ** Merging files *)

(** A configuration without nil maps, as [NewConfig] makes it. *)
Definition full (c : Config) : Prop :=
  is_Some (pr_Extensions (cfg_Preferences c)) ∧ is_Some (cfg_Clusters c) ∧ is_Some (cfg_AuthInfos c) ∧
  is_Some (cfg_Contexts c) ∧ is_Some (cfg_Extensions c).

Lemma merge_map_Some {V} (dst src : option (gmap str V)) :
  is_Some dst → merge_map dst src = Return (Some (default ∅ dst ∪ default ∅ src)).
Proof. by intros [m ->]. Qed.

(** What a merge into such a configuration gives. *)
Definition merged (dst src : Config) : Config :=
  mkConfig (merge_str (cfg_Kind dst) (cfg_Kind src)) (merge_str (cfg_APIVersion dst) (cfg_APIVersion src))
    (mkPreferences (merge_bool (pr_Colors (cfg_Preferences dst)) (pr_Colors (cfg_Preferences src)))
      (Some (default ∅ (pr_Extensions (cfg_Preferences dst)) ∪ default ∅ (pr_Extensions (cfg_Preferences src)))))
    (Some (clusters_of dst ∪ clusters_of src)) (Some (users_of dst ∪ users_of src))
    (Some (contexts_of dst ∪ contexts_of src)) (merge_str (cfg_CurrentContext dst) (cfg_CurrentContext src))
    (Some (default ∅ (cfg_Extensions dst) ∪ default ∅ (cfg_Extensions src))).

Lemma merge_Config_full dst src : full dst → merge_Config dst src = Return (merged dst src).
Proof.
  intros (? & ? & ? & ? & ?). unfold merge_Config. by rewrite !merge_map_Some by done.
Qed.

Lemma merged_full dst src : full (merged dst src).
Proof. by repeat split; eexists. Qed.

Lemma NewConfig_full : full NewConfig.
Proof. by repeat split; eexists. Qed.

#[export] Hint Resolve merged_full NewConfig_full : go.

Lemma first_given_end l : first_given (l ++ [[]]) = first_given l.
Proof. induction l as [|[|a s] l IH]; simpl; [done|apply IH|done]. Qed.

Lemma first_given_empty l : first_given l = [] ↔ Forall (λ s, s = []) l.
Proof.
  induction l as [|[|a s] l IH]; simpl; [done|rewrite IH, list.Forall_cons; naive_solver|].
  rewrite list.Forall_cons. by split; [|intros [? _]].
Qed.

Lemma omap_reverse {A B} (f : A → option B) l : omap f (reverse l) = reverse (omap f l).
Proof.
  induction l as [|x l IH]; [done|]. rewrite reverse_cons, omap_app, IH. simpl.
  destruct (f x); [by rewrite reverse_cons | by rewrite app_nil_r].
Qed.

Section loader.
Variable order : ∀ {V}, gmap str V → list (str * V).
Variable cwd : result str str.
Variable decode : str → result str Config.

(** The configurations of the files that can be loaded, and what is wrong
    with the others. *)
Definition loaded (fs : files) (filename : str) : option Config :=
  if given filename then
    match LoadFromFile decode fs filename with Ok c => Some c | Err _ => None end
  else None.

Definition load_problem (fs : files) (filename : str) : option load_error :=
  if given filename then
    match LoadFromFile decode fs filename with
    | Ok _ => None
    | Err e =>
        if IsNotExist e then None
        else Some (LoadText (lit "Error loading config file " ++ quoted filename ++ lit ": " ++ load_Error e))
    end
  else None.

Lemma mergeConfigWithFile_full fs c filename :
  full c →
  mergeConfigWithFile decode fs c filename =
    Return (foldl merged c (option_list (loaded fs filename)), load_problem fs filename).
Proof.
  intros Hc. unfold mergeConfigWithFile, loaded, load_problem. destruct (given filename); [|done].
  destruct (LoadFromFile decode fs filename) as [f|e]; simpl.
  - by rewrite merge_Config_full.
  - by destruct (IsNotExist e).
Qed.

Lemma foldl_merged_full c l : full c → full (foldl merged c l).
Proof. revert c. induction l as [|x l IH]; intros c Hc; simpl; [done|]. apply IH, merged_full. Qed.

Lemma mergeFiles_full fs c filenames :
  full c →
  mergeFiles decode fs c filenames =
    Return (foldl merged c (omap (loaded fs) filenames), omap (load_problem fs) filenames).
Proof.
  revert c. induction filenames as [|f rest IH]; intros c Hc; [done|]. cbn [mergeFiles].
  rewrite mergeConfigWithFile_full by done. cbn [mbind control_bind fst snd].
  rewrite IH by by apply foldl_merged_full. cbn [mbind control_bind fst snd].
  simpl. by destruct (loaded fs f), (load_problem fs f).
Qed.

(** A field of maps: the first configuration that has the key. *)
Definition first_with {V} (field : Config → gmap str V) (l : list Config) (k : str) : option V :=
  head (omap (λ c, field c !! k) l).

Lemma merged_lookup {V} (field : Config → gmap str V) c l k :
  (∀ c d, field (merged c d) = field c ∪ field d) →
  field (foldl merged c l) !! k =
    match field c !! k with Some v => Some v | None => first_with field l k end.
Proof.
  intros Hf. revert c. induction l as [|d l IH]; intros c; simpl.
  - by destruct (field c !! k).
  - rewrite IH, Hf, lookup_union. unfold first_with. simpl.
    by destruct (field c !! k), (field d !! k).
Qed.

(** A scalar: the last configuration that gives it. *)
Lemma merged_scalar (field : Config → str) c l :
  (∀ c d, field (merged c d) = merge_str (field c) (field d)) →
  field (foldl merged c l) = first_given (reverse (field <$> l) ++ [field c]).
Proof.
  intros Hf. revert c. induction l as [|d l IH]; intros c.
  - cbn. by destruct (field c).
  - cbn [foldl]. rewrite IH, Hf, fmap_cons, reverse_cons, <- app_assoc. clear IH.
    induction (reverse (field <$> l)) as [|s r IHr]; simpl.
    + by destruct (field d), (field c).
    + destruct s; [apply IHr|done].
Qed.

(** A scalar, merged from the last file to the first and then over what the
    other order gives. *)
Lemma merged_scalar_both (field : Config → str) l :
  (∀ c d, field (merged c d) = merge_str (field c) (field d)) → field NewConfig = [] →
  field (merged (merged NewConfig (foldl merged NewConfig l)) (foldl merged NewConfig (reverse l))) =
    first_given (field <$> l).
Proof.
  intros Hf H0. rewrite !Hf, !merged_scalar, H0 by done.
  rewrite fmap_reverse, reverse_involutive.
  rewrite !first_given_end. destruct (first_given (field <$> l)) eqn:E; [|done]. simpl.
  rewrite (proj2 (first_given_empty _)); [done|]. rewrite Forall_reverse. by apply first_given_empty.
Qed.
Lemma merged_lookup_both {V} (field : Config → gmap str V) l k :
  (∀ c d, field (merged c d) = field c ∪ field d) → field NewConfig = ∅ →
  field (merged (merged NewConfig (foldl merged NewConfig l)) (foldl merged NewConfig (reverse l))) !! k =
    first_with field l k.
Proof.
  intros Hf H0. rewrite !Hf, !lookup_union, !merged_lookup, H0, lookup_empty by done.
  unfold first_with at 1 3.
  destruct (omap (λ c, field c !! k) l) as [|v r] eqn:E; simpl.
  - unfold first_with. rewrite omap_reverse, E. by destruct l.
  - by destruct (first_with field (reverse l) k).
Qed.

(** loading never panics, the errors are those of the files that cannot be
    loaded, and of the files that can the first one that has a name gives its
    cluster, its user and its context, and the first one that gives a
    current context gives the current context. *)
Theorem merged_files_spec fs filenames :
  ∃ c, merged_files decode fs filenames = Return (c, omap (load_problem fs) filenames) ∧
    let l := omap (loaded fs) filenames in
    (∀ k, clusters_of c !! k = first_with clusters_of l k) ∧
    (∀ k, users_of c !! k = first_with users_of l k) ∧
    (∀ k, contexts_of c !! k = first_with contexts_of l k) ∧
    cfg_CurrentContext c = first_given (cfg_CurrentContext <$> l) ∧
    cfg_Kind c = first_given (cfg_Kind <$> l).
Proof.
  unfold merged_files. rewrite !mergeFiles_full by auto with go. cbn [mbind control_bind fst snd].
  rewrite merge_Config_full by auto with go. cbn [mbind control_bind].
  rewrite merge_Config_full by auto with go. cbn [mbind control_bind].
  eexists. split; [done|]. rewrite omap_reverse. cbn zeta.
  split_and!; intros; [by apply merged_lookup_both..|by apply merged_scalar_both|by apply merged_scalar_both].
Qed.
End loader.

(** ** Loops over the stanzas *)

(** A loop that ends without an error has changed every value. *)
Lemma each_fst {E V} (f : V → V * option E) l m m' :
  NoDup l.*1 → each f l m = (m', None) →
  (∀ k v, (k, v) ∈ l → snd (f v) = None) ∧
  m' = list_to_map ((λ '(k, v), (k, fst (f v))) <$> l) ∪ m.
Proof.
  revert m. induction l as [|[k v] l IH]; intros m; simpl.
  - intros _ [= <-]. split; [by intros ?? ?%not_elem_of_nil|]. by rewrite (left_id_L ∅ (∪)).
  - intros [Hk Hl]%list.NoDup_cons. destruct (f v) as [w [e|]] eqn:Hf; [done|].
    intros H. destruct (IH _ Hl H) as [Hall ->]. split.
    + intros k' v' [[= -> ->]|?]%elem_of_cons; [by rewrite Hf | by eapply Hall].
    + rewrite <- insert_union_r.
      * by rewrite insert_union_l.
      * apply not_elem_of_list_to_map_1. intros Hin. apply Hk.
        apply list_elem_of_fmap in Hin as ([a b] & -> & ((x & y) & [= -> ->] & Hxy)%list_elem_of_fmap).
        apply list_elem_of_fmap. by exists (x, y).
Qed.

Lemma each_None {E V} (f : V → V * option E) l m :
  (∀ v, snd (f v) = None) → ∃ m', each f l m = (m', None).
Proof.
  intros Hf. revert m. induction l as [|[k v] l IH]; intros m; simpl; [eauto|].
  pose proof (Hf v). destruct (f v) as [w [e|]]; [done|]. apply IH.
Qed.

Lemma clusters_of_set a b c k v : clusters_of (set_stanzas a b c) !! k = Some v → a !! k = Some v.
Proof. unfold clusters_of. simpl. by destruct (cfg_Clusters c). Qed.

Lemma users_of_set a b c k v : users_of (set_stanzas a b c) !! k = Some v → b !! k = Some v.
Proof. unfold users_of. simpl. by destruct (cfg_AuthInfos c). Qed.

(** ** Paths *)

(** A path that is resolved. *)
Definition resolved (path : str) : Prop := path = [] ∨ IsAbs path = true.

Lemma path_join_abs d p : IsAbs d = true → IsAbs (path_join [d; p]) = true.
Proof.
  intros H. rewrite path_join_rooted by done. rewrite clean_rooted; [done|]. by apply is_rooted_app.
Qed.

Lemma ResolvePath_resolved path base : IsAbs base = true → resolved (ResolvePath path base).
Proof.
  intros Hb. unfold ResolvePath, resolved.
  destruct (given path) eqn:Hg; simpl; [|left; by apply given_false].
  destruct (IsAbs path) eqn:Ha; simpl; right; [done|by apply path_join_abs].
Qed.

Lemma Abs_abs d path : IsAbs d = true → ∃ base, Abs (Ok d) path = Ok base ∧ IsAbs base = true.
Proof.
  intros Hd. unfold Abs. destruct (IsAbs path) eqn:Ha; (eexists; split; [done|]).
  - by rewrite clean_rooted.
  - by apply path_join_abs.
Qed.

Section order.
Variable order : ∀ {V}, gmap str V → list (str * V).
Hypothesis order_perm : ∀ V (m : gmap str V), order m ≡ₚ map_to_list m.

Lemma each_order {E V} (f : V → V * option E) m m' :
  each f (order m) m = (m', None) →
  ∀ k v, m' !! k = Some v → ∃ w, m !! k = Some w ∧ f w = (v, None).
Proof.
  intros H k v Hk. apply each_fst in H as [Hall ->].
  2: { rewrite order_perm. apply NoDup_fst_map_to_list. }
  assert (Hm : list_to_map ((λ '(k, v), (k, fst (f v))) <$> order m) = (λ v, fst (f v)) <$> m).
  { rewrite <- (list_to_map_to_list ((λ v, fst (f v)) <$> m)), map_to_list_fmap.
    apply list_to_map_proper.
    - rewrite <- list_fmap_compose. rewrite order_perm.
      rewrite (list_fmap_ext _ fst) by by intros ? [].
      apply NoDup_fst_map_to_list.
    - rewrite order_perm. apply reflexive_eq, list_fmap_ext. by intros ? []. }
  rewrite Hm in Hk. rewrite lookup_union, lookup_fmap in Hk.
  destruct (m !! k) as [w|] eqn:Hw; simpl in Hk; [|by destruct (m !! k)].
  exists w. split; [done|]. assert (snd (f w) = None) as Hs.
  { apply (Hall k). rewrite order_perm. by apply elem_of_map_to_list. }
  rewrite union_Some_l in Hk. destruct (f w); naive_solver.
Qed.

(** in a known working directory the paths of a configuration can be
    resolved, and then every path of a cluster or of a user that comes from a
    file is absolute or empty. *)
Theorem ResolveLocalPaths_spec d c :
  IsAbs d = true →
  ∃ c', ResolveLocalPaths (@order) (Ok d) c = (c', None) ∧
    (∀ k v, clusters_of c' !! k = Some v → cl_LocationOfOrigin v ≠ [] → resolved (cl_CertificateAuthority v)) ∧
    (∀ k v, users_of c' !! k = Some v → au_LocationOfOrigin v ≠ [] →
       resolved (au_ClientCertificate v) ∧ resolved (au_ClientKey v)).
Proof.
  intros Hd. unfold ResolveLocalPaths.
  destruct (each_None (resolve_cluster (Ok d)) (order (clusters_of c)) (clusters_of c)) as [clusters Hc].
  { intros v. unfold resolve_cluster. destruct (given _); [|done].
    by destruct (Abs_abs d (dir (cl_LocationOfOrigin v)) Hd) as (base & -> & _). }
  destruct (each_None (resolve_authinfo (Ok d)) (order (users_of c)) (users_of c)) as [users Hu].
  { intros v. unfold resolve_authinfo. destruct (given _); [|done].
    by destruct (Abs_abs d (dir (au_LocationOfOrigin v)) Hd) as (base & -> & _). }
  rewrite Hc, Hu. eexists. split; [done|]. split.
  - intros k v Hk Hl. apply clusters_of_set in Hk.
    destruct (each_order _ _ _ Hc _ _ Hk) as (w & _ & Hw). unfold resolve_cluster in Hw.
    destruct (given (cl_LocationOfOrigin w)) eqn:Hg; [|apply given_false in Hg; naive_solver].
    destruct (Abs_abs d (dir (cl_LocationOfOrigin w)) Hd) as (base & Hb & Ha). rewrite Hb in Hw.
    injection Hw as <-. by apply ResolvePath_resolved.
  - intros k v Hk Hl. apply users_of_set in Hk.
    destruct (each_order _ _ _ Hu _ _ Hk) as (w & _ & Hw). unfold resolve_authinfo in Hw.
    destruct (given (au_LocationOfOrigin w)) eqn:Hg; [|apply given_false in Hg; naive_solver].
    destruct (Abs_abs d (dir (au_LocationOfOrigin w)) Hd) as (base & Hb & Ha). rewrite Hb in Hw.
    injection Hw as <-. split; by apply ResolvePath_resolved.
Qed.

(** ** Flattening *)

(** A path and the contents in its place, after flattening. *)
Definition flattened (fs : files) (base path data path' data' : str) : Prop :=
  path' = [] ∧
  if given path then data = [] ∧ os_read fs (ResolvePath path base) = Ok data' else data' = data.

Lemma FlattenContent_flattened fs path data base path' data' :
  FlattenContent fs path data base = (path', data', None) → flattened fs base path data path' data'.
Proof.
  unfold FlattenContent, flattened. destruct (given path) eqn:Hp.
  - destruct (given data) eqn:Hd; [done|]. apply given_false in Hd.
    destruct (os_read _ _); naive_solver.
  - apply given_false in Hp. naive_solver.
Qed.

(** a configuration that is flattened names no files: in place of each path
    there are the contents of the file it named, relative to the file the
    stanza is from, and what had no path keeps its contents. *)
Theorem FlattenConfig_spec cwd fs c c' :
  FlattenConfig (@order) cwd fs c = (c', None) →
  (∀ k v', clusters_of c' !! k = Some v' → ∃ v base, clusters_of c !! k = Some v ∧
     MakeAbs cwd (dir (cl_LocationOfOrigin v)) [] = Ok base ∧
     flattened fs base (cl_CertificateAuthority v) (cl_CertificateAuthorityData v)
       (cl_CertificateAuthority v') (cl_CertificateAuthorityData v')) ∧
  (∀ k v', users_of c' !! k = Some v' → ∃ v base, users_of c !! k = Some v ∧
     MakeAbs cwd (dir (au_LocationOfOrigin v)) [] = Ok base ∧
     flattened fs base (au_ClientCertificate v) (au_ClientCertificateData v)
       (au_ClientCertificate v') (au_ClientCertificateData v') ∧
     flattened fs base (au_ClientKey v) (au_ClientKeyData v) (au_ClientKey v') (au_ClientKeyData v')).
Proof.
  unfold FlattenConfig. destruct (each (flatten_authinfo fs cwd) _ _) as [users [e|]] eqn:Hu; [done|].
  destruct (each (flatten_cluster fs cwd) _ _) as [clusters e] eqn:Hc. intros [= <- ->]. split.
  - intros k v' Hk%clusters_of_set. destruct (each_order _ _ _ Hc _ _ Hk) as (v & Hv & Hf).
    unfold flatten_cluster in Hf. destruct (MakeAbs _ _ _) as [base|] eqn:Hb; [|done].
    destruct (FlattenContent _ _ _ _) as [[path data] e] eqn:HF. injection Hf as <- ->.
    exists v, base. split_and!; [done..|]. by apply FlattenContent_flattened.
  - intros k v' Hk%users_of_set. destruct (each_order _ _ _ Hu _ _ Hk) as (v & Hv & Hf).
    unfold flatten_authinfo in Hf. destruct (MakeAbs _ _ _) as [base|] eqn:Hb; [|done].
    destruct (FlattenContent fs (au_ClientCertificate v) _ _) as [[path data] [e|]] eqn:HF; [done|].
    cbn zeta in Hf. destruct (FlattenContent fs (au_ClientKey _) _ _) as [[path2 data2] e] eqn:HG.
    injection Hf as <- ->. exists v, base.
    split_and!; [done..|by apply FlattenContent_flattened|by apply (FlattenContent_flattened _ _ _ _ _ _ HG)].
Qed.
End order.

(** ** Minifying *)

Lemma ConfirmUsable_ext open_error printable c c' x :
  cfg_CurrentContext c' = cfg_CurrentContext c →
  contexts_of c !! cfg_CurrentContext c = Some x → contexts_of c' !! cfg_CurrentContext c = Some x →
  users_of c' !! cx_AuthInfo x = users_of c !! cx_AuthInfo x →
  clusters_of c' !! cx_Cluster x = clusters_of c !! cx_Cluster x →
  ConfirmUsable open_error printable c' [] = ConfirmUsable open_error printable c [].
Proof.
  unfold contexts_of, users_of, clusters_of. intros Hcur Hx Hx' Hu Hk.
  unfold ConfirmUsable. cbn [given length]. rewrite !(proj2 (given_false [])) by done. rewrite Hcur.
  rewrite Hx, Hx', Hu, Hk. unfold validateContext. by rewrite Hu, Hk.
Qed.

(** The part of a map for one name, as far as it is given. *)
Definition minified {V} (m m' : gmap str V) (name : str) : Prop :=
  if given name then ∃ v, m !! name = Some v ∧ m' = {[ name := v ]} else m' = ∅.

Lemma keep_only_Ok {V} (what name : str) (m m' : gmap str V) : keep_only what m name = Ok m' ↔ minified m m' name.
Proof.
  unfold keep_only, minified. destruct (given name); [|naive_solver].
  destruct (m !! name); naive_solver.
Qed.

Lemma minified_lookup {V} (m m' : gmap str V) name :
  minified m m' name → m !! [] = None → m' !! name = m !! name ∧ m' ⊆ m.
Proof.
  unfold minified. destruct (given name) eqn:Hg.
  - intros (v & Hv & ->) _. rewrite lookup_singleton_eq. split; [done|]. by apply map_singleton_subseteq_l.
  - apply given_false in Hg as ->. intros -> ->. split; [done|]. apply map_empty_subseteq.
Qed.

Lemma MinifyConfig_Ok c c' :
  MinifyConfig c = Ok c' ↔
  ∃ x clusters users, cfg_CurrentContext c ≠ [] ∧ contexts_of c !! cfg_CurrentContext c = Some x ∧
    minified (clusters_of c) clusters (cx_Cluster x) ∧ minified (users_of c) users (cx_AuthInfo x) ∧
    c' = mkConfig (cfg_Kind c) (cfg_APIVersion c) (cfg_Preferences c) (Some clusters) (Some users)
      (Some {[ cfg_CurrentContext c := x ]}) (cfg_CurrentContext c) (cfg_Extensions c).
Proof.
  unfold MinifyConfig. destruct (given (cfg_CurrentContext c)) eqn:Hg.
  2: { apply given_false in Hg. split; [done|]. by intros (? & ? & ? & ? & _). }
  apply given_true in Hg. destruct (contexts_of c !! _) as [x|]; [|split; [done|]; by intros (? & ? & ? & ? & ? & _)].
  rewrite result_bind_Ok. setoid_rewrite result_bind_Ok. setoid_rewrite keep_only_Ok. split.
  - intros (clusters & Hk & users & Hu & [= <-]). by exists x, clusters, users.
  - intros (y & clusters & users & _ & [= <-] & Hk & Hu & ->). eauto 6.
Qed.

(** a configuration that is minified is as usable as before, and minifying
    it again changes nothing. *)
Theorem MinifyConfig_spec open_error printable c c' :
  MinifyConfig c = Ok c' → clusters_of c !! [] = None → users_of c !! [] = None →
  ConfirmUsable open_error printable c' [] = ConfirmUsable open_error printable c [] ∧
  MinifyConfig c' = Ok c' ∧
  clusters_of c' ⊆ clusters_of c ∧ users_of c' ⊆ users_of c ∧ dom (contexts_of c') = {[ cfg_CurrentContext c ]}.
Proof.
  rewrite !MinifyConfig_Ok. intros (x & clusters & users & Hg & Hx & Hk & Hu & ->) Hk0 Hu0.
  destruct (minified_lookup _ _ _ Hk Hk0) as [Hk1 Hk2], (minified_lookup _ _ _ Hu Hu0) as [Hu1 Hu2].
  split; [|split; [|split_and!]].
  - apply (ConfirmUsable_ext _ _ c _ x); [done|done| |done|done]. by apply lookup_singleton_eq.
  - exists x, clusters, users. split_and!; [done|by apply lookup_singleton_eq| | |done].
    + unfold minified in *. cbn. destruct (given (cx_Cluster x)); [|done].
      destruct Hk as (v & _ & ->). exists v. by rewrite lookup_singleton_eq.
    + unfold minified in *. cbn. destruct (given (cx_AuthInfo x)); [|done].
      destruct Hu as (v & _ & ->). exists v. by rewrite lookup_singleton_eq.
  - done.
  - done.
  - apply dom_singleton_L.
Qed.

(** ** Migrating *)

Lemma os_stat_Err op fs path e : os_stat op fs path = Err e → path = [] ∨ nodes fs !! clean path = None.
Proof.
  unfold os_stat, stat. destruct path as [|a t]; [by left|].
  destruct (nodes fs !! clean (a :: t)); [done|by right].
Qed.

Lemma write_file_new path content fs fs' e q n :
  write_file path content fs = (fs', e) → path = [] ∨ nodes fs !! clean path = None →
  nodes fs !! q = Some n → nodes fs' !! q = Some n.
Proof.
  intros Hw [->|Hnew] Hq; [by injection Hw as <- _|].
  rewrite (write_file_frame _ _ _ _ _ q Hw); [done|]. intros ->. congruence.
Qed.

(** a migration changes no file that is there, whatever it is that stops
    it. *)
Theorem Migrate_keeps order rules fs fs' e q n :
  Migrate order rules fs = (fs', e) → nodes fs !! q = Some n → nodes fs' !! q = Some n.
Proof.
  unfold Migrate. destruct (MigrationRules rules) as [m|]; [|by intros [= <- _]].
  generalize (order _ m) as l. intros l. revert fs.
  induction l as [|[dst src] l IH]; intros fs; cbn [migrate]; [by intros [= <- _]|].
  destruct (os_stat "stat" fs dst) as [?|e1] eqn:Hd; [apply IH|].
  destruct (IsNotExist e1); [|by intros [= <- _]].
  destruct (os_stat "stat" fs src) as [[content|]|e2]; [|by intros [= <- _]|].
  - destruct (write_file dst content fs) as [fs1 e3] eqn:Hw.
    intros H Hq. pose proof (write_file_new _ _ _ _ _ _ _ Hw (os_stat_Err _ _ _ _ Hd) Hq) as H1.
    destruct e3; [by injection H as <- _ | by eapply IH].
  - destruct (IsNotExist e2); [apply IH | by intros [= <- _]].
Qed.

(** a migration that runs out of space leaves a part of the file at the
    destination, and the next one takes it to be done. *)
Theorem Migrate_truncated (order : ∀ {V}, gmap str V → list (str * V)) dst src content rest fs :
  (∀ m : gmap str str, order m ≡ₚ map_to_list m) →
  os_stat "stat" fs dst = Err (PathError "stat" dst ENOENT) → dst ≠ [] → in_dir fs dst = None →
  os_stat "stat" fs src = Ok (File content) → space fs < length content →
  let rules := mkRules [] rest (Some {[ dst := src ]}) false in
  ∃ fs', Migrate (@order) rules fs = (fs', Some (PathError "write" dst ENOSPC)) ∧
    nodes fs' !! clean dst = Some (File (take (space fs) content)) ∧
    Migrate (@order) rules fs' = (fs', None).
Proof.
  intros Horder Hd Hne Hdir Hsrc Hlen. cbn zeta. unfold Migrate. cbn [MigrationRules].
  pose proof (Horder {[ dst := src ]}) as Hl. rewrite map_to_list_singleton in Hl.
  apply Permutation_singleton_r in Hl. rewrite Hl.
  assert (Hw : write_file dst content fs =
    (mkFiles (<[clean dst := File (take (space fs) content)]> (nodes fs)) 0, Some ENOSPC)).
  { destruct (os_stat_Err _ _ _ _ Hd) as [?|Hnone]; [done|].
    unfold write_file. destruct dst as [|a t]; [done|]. rewrite Hnone, Hdir.
    cbn [length]. rewrite !Nat.add_0_r, Nat.min_l by lia. by rewrite Nat.sub_diag, decide_True. }
  exists (mkFiles (<[clean dst := File (take (space fs) content)]> (nodes fs)) 0). split_and!.
  - cbn [migrate]. rewrite Hd. cbn [IsNotExist]. rewrite Hsrc, Hw. done.
  - simpl. by rewrite lookup_insert_eq.
  - cbn [migrate]. unfold os_stat, stat. destruct dst as [|a t]; [done|].
    cbn [nodes]. by rewrite lookup_insert_eq.
Qed.

(** ** Witnesses *)

Module LoaderEx.
(** A directory with a configuration that names two files. *)
Definition fs : files := mkFiles (list_to_map [
  (lit "/", Dir 493); (lit "/k", Dir 493); (lit "/k/ca.crt", File "CA"); (lit "/k/a.crt", File "CERT");
  (lit "/k/a.key", File "KEY"); (lit "/old", File "abc")]) 2.
Definition dev : Cluster := mkCluster "k/config" "https://dev" [] false "ca.crt" [] None.
Definition bob : AuthInfo := mkAuthInfo "k/config" "a.crt" [] "/k/a.key" [] [] [] [] None.
Definition day : Context := mkContext "k/config" "dev" "bob" [] None.
Definition config : Config :=
  mkConfig [] [] NewPreferences (Some {[ lit "dev" := dev; lit "other" := zero_Cluster ]})
    (Some {[ lit "bob" := bob ]}) (Some {[ lit "day" := day ]}) "day" (Some ∅).
Definition root : result str str := Ok (lit "/").
Definition rules : ClientConfigLoadingRules := mkRules [] [lit "/new"] (Some {[ lit "/new" := lit "/old" ]}) false.
End LoaderEx.

Lemma ResolveLocalPaths_spec_witness :
  cl_CertificateAuthority <$>
    clusters_of (fst (ResolveLocalPaths (λ V, map_to_list) LoaderEx.root LoaderEx.config)) !! lit "dev" =
      Some (lit "/k/ca.crt") ∧
  ∃ c', ResolveLocalPaths (λ V, map_to_list) LoaderEx.root LoaderEx.config = (c', None).
Proof.
  split; [by vm_compute|].
  destruct (ResolveLocalPaths_spec (λ V, map_to_list) (λ V m, Permutation_refl _) "/" LoaderEx.config)
    as (c' & H & _); [by vm_compute|]. exists c'. exact H.
Defined.

Lemma FlattenConfig_spec_witness :
  match FlattenConfig (λ V, map_to_list) LoaderEx.root LoaderEx.fs LoaderEx.config with
  | (c', e) => e = None ∧ cl_CertificateAuthorityData <$> clusters_of c' !! lit "dev" = Some (lit "CA") ∧
      ∀ v, clusters_of c' !! lit "dev" = Some v → cl_CertificateAuthority v = []
  end.
Proof.
  destruct (FlattenConfig (λ V, map_to_list) LoaderEx.root LoaderEx.fs LoaderEx.config) as [c' e] eqn:H.
  assert (He : e = None) by (transitivity (snd (c', e)); [done|]; rewrite <- H; by vm_compute).
  subst e. split; [done|]. split.
  - transitivity (cl_CertificateAuthorityData <$> clusters_of (fst (c', None (A := load_error))) !! lit "dev");
      [done|]. rewrite <- H. by vm_compute.
  - intros v Hv.
    destruct (FlattenConfig_spec (λ V, map_to_list) (λ V m, Permutation_refl _) _ _ _ _ H) as [Hc _].
    destruct (Hc _ _ Hv) as (w & base & _ & _ & Hf). apply Hf.
Defined.

Lemma MinifyConfig_spec_witness :
  match MinifyConfig LoaderEx.config with
  | Ok c' => clusters_of c' !! lit "other" = None ∧
      ConfirmUsable Ex.opens Ex.ascii_printable c' [] = ConfirmUsable Ex.opens Ex.ascii_printable LoaderEx.config []
  | Err _ => False
  end.
Proof.
  destruct (MinifyConfig LoaderEx.config) as [c'|] eqn:H; [|by vm_compute in H].
  split.
  - revert H. vm_compute. by intros [= <-].
  - apply (MinifyConfig_spec _ _ _ _ H); by vm_compute.
Defined.

Lemma Migrate_keeps_witness :
  nodes LoaderEx.fs !! lit "/old" = Some (File "abc") ∧
  nodes (fst (Migrate (λ V, map_to_list) LoaderEx.rules LoaderEx.fs)) !! lit "/old" = Some (File "abc").
Proof.
  split; [by vm_compute|].
  apply (Migrate_keeps (λ V, map_to_list) LoaderEx.rules LoaderEx.fs _ _ _ _ (surjective_pairing _)). by vm_compute.
Defined.

Lemma Migrate_truncated_witness :
  ∃ fs', Migrate (λ V, map_to_list) LoaderEx.rules LoaderEx.fs = (fs', Some (PathError "write" "/new" ENOSPC)) ∧
    nodes fs' !! lit "/new" = Some (File "ab") ∧ Migrate (λ V, map_to_list) LoaderEx.rules fs' = (fs', None).
Proof.
  apply (Migrate_truncated (λ V, map_to_list) "/new" "/old" "abc" [lit "/new"] LoaderEx.fs
    (λ m, Permutation_refl _));
    [by vm_compute|done|by vm_compute|by vm_compute|vm_compute; lia].
Defined.
