(* ===== verification/WorkQueue.v ===== *)
(** * A queue of work (k8s.io/kubernetes/pkg/util/workqueue: queue.go)

    Each method holds the lock from its first line to its last, so that a call
    is one step; [Get] gives the lock up while it waits on the condition, and
    is therefore a step for each time it looks at the queue.  The goroutines
    that call [Get] are threads, woken one at a time by [Signal] and all
    together by [Broadcast]. *)

From S2P Require Import Prelude.

Section queue.
Context {T : Type} `{Countable T}.

(** ** The queue *)

Record WorkQueue := mkQueue {
  queue : list T;
  dirty : gset T;
  processing : gset T;
  shuttingDown : bool
}.

Definition New : WorkQueue := mkQueue [] ∅ ∅ false.

(** The queue afterwards, and whether the condition is signalled. *)
Definition Add (item : T) (q : WorkQueue) : WorkQueue * bool :=
  if shuttingDown q then (q, false)
  else if decide (item ∈ dirty q) then (q, false)
  else
    let dirty := {[ item ]} ∪ dirty q in
    if decide (item ∈ processing q) then (mkQueue (queue q) dirty (processing q) false, false)
    else (mkQueue (queue q ++ [item]) dirty (processing q) false, true).

Definition Len (q : WorkQueue) : nat := length (queue q).

(** What [Get] does when it holds the lock: it waits, or returns an item, or
    returns that the queue is shutting down. *)
Inductive got :=
  | Waits
  | Item (item : T)
  | Shutdown.

Definition Get (q : WorkQueue) : WorkQueue * got :=
  match queue q with
  | [] => (q, if shuttingDown q then Shutdown else Waits)
  | item :: rest =>
      (mkQueue rest (dirty q ∖ {[ item ]}) ({[ item ]} ∪ processing q) (shuttingDown q), Item item)
  end.

Definition Done (item : T) (q : WorkQueue) : WorkQueue * bool :=
  let processing := processing q ∖ {[ item ]} in
  if decide (item ∈ dirty q)
  then (mkQueue (queue q ++ [item]) (dirty q) processing (shuttingDown q), true)
  else (mkQueue (queue q) (dirty q) processing (shuttingDown q), false).

Definition ShutDown (q : WorkQueue) : WorkQueue :=
  mkQueue (queue q) (dirty q) (processing q) true.

(** ** The workers *)

(** A worker calls [Get], waits on the condition or is about to look at the
    queue, and calls [Done] when it has worked on the item; it ends when the
    queue is shutting down. *)
Inductive thread :=
  | Idle
  | Looking
  | Waiting
  | Working (item : T)
  | Ended.

#[global] Instance thread_eq_dec : EqDecision thread.
Proof. solve_decision. Defined.

(** [Signal] wakes one of the threads that wait, if there is any. *)
Inductive wake : bool → list thread → list thread → Prop :=
  | wake_no ts : wake false ts ts
  | wake_none ts : Waiting ∉ ts → wake true ts ts
  | wake_one ts i : ts !! i = Some Waiting → wake true ts (<[i := Looking]> ts).

Definition woken (t : thread) : thread := if decide (t = Waiting) then Looking else t.

Inductive event :=
  | Added (item : T)
  | Called (worker : nat)
  | Slept (worker : nat)
  | Took (worker : nat) (item : T)
  | Finished (worker : nat) (item : T)
  | Left (worker : nat)
  | Shut.

Record system := mkSystem {
  sys_queue : WorkQueue;
  sys_threads : list thread
}.

Definition init (workers : nat) : system := mkSystem New (replicate workers Idle).

Inductive step : system → event → system → Prop :=
  | step_add q ts item q' b ts' :
      Add item q = (q', b) → wake b ts ts' →
      step (mkSystem q ts) (Added item) (mkSystem q' ts')
  | step_call q ts i :
      ts !! i = Some Idle →
      step (mkSystem q ts) (Called i) (mkSystem q (<[i := Looking]> ts))
  | step_wait q ts i q' :
      ts !! i = Some Looking → Get q = (q', Waits) →
      step (mkSystem q ts) (Slept i) (mkSystem q' (<[i := Waiting]> ts))
  | step_take q ts i q' item :
      ts !! i = Some Looking → Get q = (q', Item item) →
      step (mkSystem q ts) (Took i item) (mkSystem q' (<[i := Working item]> ts))
  | step_leave q ts i q' :
      ts !! i = Some Looking → Get q = (q', Shutdown) →
      step (mkSystem q ts) (Left i) (mkSystem q' (<[i := Ended]> ts))
  | step_done q ts i item q' b ts' :
      ts !! i = Some (Working item) → Done item q = (q', b) → wake b (<[i := Idle]> ts) ts' →
      step (mkSystem q ts) (Finished i item) (mkSystem q' ts')
  | step_shutdown q ts :
      step (mkSystem q ts) Shut (mkSystem (ShutDown q) (woken <$> ts)).

(** Runs, and what happened in them. *)
Inductive runs : system → list event → system → Prop :=
  | runs_nil s : runs s [] s
  | runs_step s l s1 e s2 : runs s l s1 → step s1 e s2 → runs s (l ++ [e]) s2.

Definition reachable (s : system) : Prop := ∃ n l, runs (init n) l s.
End queue.
Arguments WorkQueue T {_ _}.
Arguments thread T : clear implicits.
Arguments event T : clear implicits.
Arguments system T {_ _}.
