(* ===== verification/WorkQueueSpec.v ===== *)
(** * The queue of work: specification

    In every reachable state no item is worked on twice at a time, no item that
    was added is forgotten, and no worker sleeps while there is work for it;
    when the queue shuts down, what is left is handed out once. *)

From S2P Require Import Prelude WorkQueue.

Section spec.
Context {T : Type} `{Countable T}.
Implicit Types (q : WorkQueue T) (ts : list (thread T)) (s : system T) (x : T).

(** ** Threads *)

Definition looking ts : nat := length (filter (λ t, t = Looking) ts).

Definition one (b : bool) : nat := if b then 1 else 0.

Lemma looking_insert ts i t t' :
  ts !! i = Some t →
  looking (<[i := t']> ts) + one (bool_decide (t = Looking)) = looking ts + one (bool_decide (t' = Looking)).
Proof.
  unfold looking. revert i. induction ts as [|u ts IH]; intros [|i] Hi; simplify_eq/=.
  - rewrite !filter_cons. repeat case_decide; repeat case_bool_decide; simplify_eq/=; lia.
  - rewrite !filter_cons. specialize (IH _ Hi). destruct (decide (u = Looking)); simpl; lia.
Qed.

Lemma wake_lookup b ts ts' i t :
  wake b ts ts' → t ≠ Looking → t ≠ Waiting → ts' !! i = Some t ↔ ts !! i = Some t.
Proof.
  intros [| |? j Hj] Hl Hw; [done..|]. destruct (decide (i = j)) as [->|?].
  - rewrite list_lookup_insert_eq by by apply lookup_lt_Some in Hj. naive_solver.
  - by rewrite list_lookup_insert_ne.
Qed.

Lemma woken_lookup ts i t :
  t ≠ Looking → t ≠ Waiting → (woken <$> ts) !! i = Some t ↔ ts !! i = Some t.
Proof.
  intros Hl Hw. rewrite list_lookup_fmap. destruct (ts !! i) as [u|]; simpl; [|done].
  unfold woken. case_decide; naive_solver.
Qed.

Lemma woken_not_waiting ts : Waiting ∉ woken <$> ts.
Proof.
  intros (t & Ht & _)%list_elem_of_fmap. unfold woken in Ht. by case_decide.
Qed.

(** ** The invariant *)

Record inv (s : system T) : Prop := {
  inv_nodup : NoDup (queue (sys_queue s));
  inv_queue : ∀ x, x ∈ queue (sys_queue s) → x ∈ dirty (sys_queue s) ∧ x ∉ processing (sys_queue s);
  inv_dirty : ∀ x, x ∈ dirty (sys_queue s) → x ∈ queue (sys_queue s) ∨ x ∈ processing (sys_queue s);
  inv_working : ∀ x, x ∈ processing (sys_queue s) ↔ ∃ i, sys_threads s !! i = Some (Working x);
  inv_once : ∀ i j x, sys_threads s !! i = Some (Working x) → sys_threads s !! j = Some (Working x) → i = j;
  inv_shut : shuttingDown (sys_queue s) = true → Waiting ∉ sys_threads s;
  inv_awake : Waiting ∈ sys_threads s → length (queue (sys_queue s)) ≤ looking (sys_threads s)
}.

Lemma init_inv n : inv (init n).
Proof.
  assert (Hw : ∀ t i, replicate n Idle !! i = Some t → t = @Idle T).
  { by intros t i [-> _]%lookup_replicate. }
  split; cbn; [constructor|set_solver|set_solver| | |done|lia].
  - intros x. split; [set_solver|]. by intros [i Hi%Hw].
  - by intros i j x Hi%Hw.
Qed.

(** One more item in the queue, and the signal for it. *)
Lemma wake_awake ts ts' n :
  (Waiting ∈ ts → n ≤ looking ts) → wake true ts ts' → Waiting ∈ ts' → S n ≤ looking ts'.
Proof.
  intros Hn Hw Hin. inversion Hw as [|? Hno|? i Hi]; subst; [done|].
  pose proof (looking_insert ts i Waiting Looking Hi) as Hl.
  rewrite bool_decide_false, bool_decide_true in Hl by done. simpl in Hl.
  assert (Waiting ∈ ts) as Hts by by eapply list_elem_of_lookup_2. specialize (Hn Hts). lia.
Qed.

Lemma wake_waiting b ts ts' : wake b ts ts' → Waiting ∈ ts' → Waiting ∈ ts.
Proof.
  intros [| |? i Hi] Hin; [done..|]. by eapply list_elem_of_lookup_2.
Qed.

(** A thread that neither works nor waits changes into another of the kind. *)
Lemma insert_working ts i t t' j x :
  ts !! i = Some t → (∀ y, t ≠ Working y) → (∀ y, t' ≠ Working y) →
  <[i := t']> ts !! j = Some (Working x) ↔ ts !! j = Some (Working x).
Proof.
  intros Hi Ht Ht'. destruct (decide (j = i)) as [->|?].
  - rewrite list_lookup_insert_eq by by apply lookup_lt_Some in Hi. naive_solver.
  - by rewrite list_lookup_insert_ne.
Qed.

Lemma insert_waiting ts i t t' :
  ts !! i = Some t → t' ≠ Waiting → Waiting ∈ <[i := t']> ts → Waiting ∈ ts.
Proof.
  intros Hi Ht' (j & Hj)%list_elem_of_lookup. destruct (decide (j = i)) as [->|?].
  - rewrite list_lookup_insert_eq in Hj by by apply lookup_lt_Some in Hi. naive_solver.
  - rewrite list_lookup_insert_ne in Hj by done. by eapply list_elem_of_lookup_2.
Qed.
(** ** Every step keeps the invariant *)

Lemma add_inv q ts x q' b ts' :
  Add x q = (q', b) → wake b ts ts' → inv (mkSystem q ts) → inv (mkSystem q' ts').
Proof.
  intros HA Hw Hi. unfold Add in HA.
  destruct (shuttingDown q) eqn:Hs; [injection HA as <- <-; by inversion Hw; subst|].
  case_decide as Hd; [injection HA as <- <-; by inversion Hw; subst|].
  destruct Hi as [H1 H2 H3 H4 H5 H6 H7]; cbn [sys_queue sys_threads] in *.
  case_decide as Hp; injection HA as <- <-.
  - inversion Hw; subst. split; cbn [sys_queue sys_threads queue dirty processing shuttingDown]; [done|set_solver|set_solver|done|done|done|done].
  - assert (Hx : x ∉ queue q) by (intros Hx; by apply Hd, H2).
    split; cbn [sys_queue sys_threads queue dirty processing shuttingDown].
    + apply list.NoDup_app. split_and!; [done|set_solver|apply NoDup_singleton].
    + set_solver.
    + set_solver.
    + intros y. rewrite H4. f_equiv. intros i. by rewrite (wake_lookup _ _ _ _ _ Hw).
    + intros i j y. rewrite !(wake_lookup _ _ _ _ _ Hw) by done. apply H5.
    + done.
    + intros Hin. rewrite length_app, Nat.add_1_r. by eapply wake_awake.
Qed.

Lemma done_inv q ts i x q' b ts' :
  ts !! i = Some (Working x) → Done x q = (q', b) → wake b (<[i := Idle]> ts) ts' →
  inv (mkSystem q ts) → inv (mkSystem q' ts').
Proof.
  intros Hix HD Hw [H1 H2 H3 H4 H5 H6 H7]; cbn [sys_queue sys_threads] in *.
  assert (Hp : x ∈ processing q) by (apply H4; eauto).
  assert (Hx : x ∉ queue q) by (intros Hx; by apply (H2 x Hx)).
  assert (Hone : ∀ j y, ts' !! j = Some (Working y) ↔ j ≠ i ∧ ts !! j = Some (Working y)).
  { intros j y. rewrite (wake_lookup _ _ _ _ _ Hw) by done. destruct (decide (j = i)) as [->|?].
    - rewrite list_lookup_insert_eq by by apply lookup_lt_Some in Hix. naive_solver.
    - rewrite list_lookup_insert_ne by done. naive_solver. }
  assert (Hworking : ∀ y, y ∈ processing q ∖ {[x]} ↔ ∃ j, ts' !! j = Some (Working y)).
  { intros y. rewrite elem_of_difference, elem_of_singleton, H4. setoid_rewrite Hone. split.
    - intros [[j Hj] Hyx]. exists j. split; [intros ->; naive_solver|done].
    - intros (j & Hji & Hj). split; [eauto|]. intros ->. by apply Hji, (H5 j i x). }
  assert (Honce : ∀ j k y, ts' !! j = Some (Working y) → ts' !! k = Some (Working y) → j = k).
  { intros j k y [_ Hj]%Hone [_ Hk]%Hone. by eapply H5. }
  assert (Hwait : Waiting ∈ ts' → Waiting ∈ ts).
  { intros Hin. eapply (insert_waiting ts i _ Idle Hix); [done|]. by eapply wake_waiting. }
  assert (Hlook : looking (<[i := Idle]> ts) = looking ts).
  { pose proof (looking_insert ts i _ Idle Hix) as Hl.
    rewrite !bool_decide_false in Hl by done. simpl in Hl. lia. }
  unfold Done in HD. case_decide as Hd; injection HD as <- <-; split; cbn [sys_queue sys_threads queue dirty processing shuttingDown]; auto.
  - apply list.NoDup_app. split_and!; [done|set_solver|apply NoDup_singleton].
  - intros y. rewrite elem_of_app, list_elem_of_singleton, elem_of_difference, elem_of_singleton.
    intros [Hy| ->]; [destruct (H2 y Hy)|]; tauto.
  - intros y Hy. rewrite elem_of_app, elem_of_difference, list_elem_of_singleton, elem_of_singleton.
    destruct (decide (y = x)), (H3 y Hy); tauto.
  - intros Hs Hin. by apply (H6 Hs), Hwait.
  - intros Hin. rewrite length_app, Nat.add_1_r. eapply wake_awake; [|done|done].
    rewrite Hlook. intros Hin'. apply H7. by eapply (insert_waiting ts i _ Idle Hix).
  - intros y Hy. destruct (H2 y Hy). split; [done|]. rewrite elem_of_difference. tauto.
  - intros y Hy. rewrite elem_of_difference, elem_of_singleton.
    destruct (H3 y Hy), (decide (y = x)) as [->|?]; tauto.
  - intros Hs Hin. by apply (H6 Hs), Hwait.
  - inversion Hw; subst. rewrite Hlook. auto.
Qed.

(** A step of a worker that leaves the queue as it is. *)
Lemma insert_inv q ts i t t' :
  ts !! i = Some t → (∀ y, t ≠ Working y) → (∀ y, t' ≠ Working y) →
  (t' = Waiting → queue q = [] ∧ shuttingDown q = false) → (t = Looking → t' = Looking ∨ queue q = []) →
  inv (mkSystem q ts) → inv (mkSystem q (<[i := t']> ts)).
Proof.
  intros Hi Ht Ht' Hwait Hlook [H1 H2 H3 H4 H5 H6 H7]; cbn [sys_queue sys_threads] in *. split; cbn [sys_queue sys_threads queue dirty processing shuttingDown]; auto.
  - intros y. rewrite H4. f_equiv. intros j. by rewrite (insert_working ts i t t' j y).
  - intros j k y Hj%(insert_working ts i t t' _ _ Hi Ht Ht') Hk%(insert_working ts i t t' _ _ Hi Ht Ht').
    by eapply H5.
  - intros Hs Hin. destruct (decide (t' = Waiting)) as [->|Hn]; [destruct (Hwait eq_refl); congruence|].
    by apply H6, (insert_waiting ts i t t' Hi Hn).
  - intros Hin. pose proof (looking_insert ts i t t' Hi) as Hl.
    destruct (decide (queue q = [])) as [->|Hq]; [simpl; lia|].
    destruct (decide (t' = Waiting)) as [->|Hn]; [destruct (Hwait eq_refl); congruence|].
    specialize (H7 (insert_waiting ts i t t' Hi Hn Hin)).
    destruct (decide (t = Looking)) as [->|Htl].
    + destruct Hlook as [->|?]; [done|lia|done].
    + rewrite (bool_decide_false (t = Looking)) in Hl by done. simpl in Hl. lia.
Qed.

Lemma take_inv q ts i q' x :
  ts !! i = Some Looking → Get q = (q', Item x) →
  inv (mkSystem q ts) → inv (mkSystem q' (<[i := Working x]> ts)).
Proof.
  intros Hi HG [H1 H2 H3 H4 H5 H6 H7]; cbn [sys_queue sys_threads] in *. unfold Get in HG.
  destruct (queue q) as [|y rest] eqn:Hq; [by destruct (shuttingDown q)|]. injection HG as <- <-.
  apply list.NoDup_cons in H1 as [Hy Hrest].
  destruct (H2 y ltac:(left)) as [Hyd Hyp].
  assert (Hone : ∀ j z, <[i := Working y]> ts !! j = Some (Working z) ↔
    (j = i ∧ z = y) ∨ (j ≠ i ∧ ts !! j = Some (Working z))).
  { intros j z. destruct (decide (j = i)) as [->|?].
    - rewrite list_lookup_insert_eq by by apply lookup_lt_Some in Hi. naive_solver.
    - rewrite list_lookup_insert_ne by done. naive_solver. }
  assert (Hny : ∀ j, ts !! j ≠ Some (Working y)) by (intros j Hj; apply Hyp, H4; eauto).
  split; cbn [sys_queue sys_threads queue dirty processing shuttingDown].
  - done.
  - intros z Hz. rewrite elem_of_difference, elem_of_union, elem_of_singleton.
    destruct (H2 z ltac:(by right)), (decide (z = y)) as [->|]; tauto.
  - intros z. rewrite elem_of_difference, elem_of_union, elem_of_singleton.
    intros [Hz Hzy]. destruct (H3 z Hz) as [[?|?]%elem_of_cons|?]; tauto.
  - intros z. setoid_rewrite Hone. rewrite elem_of_union, elem_of_singleton, H4. split.
    + intros [->|[j Hj]]; [by exists i; left|]. exists j. right. split; [intros ->; congruence|done].
    + intros (j & [[_ ->]|[_ Hj]]); eauto.
  - intros j k z [[-> ->]|[? Hj]]%Hone [[-> Hz]|[? Hk]]%Hone; [done| | |by eapply H5].
    + by destruct (Hny k).
    + subst z. by destruct (Hny j).
  - intros Hs Hin. by apply H6, (insert_waiting ts i _ (Working y) Hi).
  - intros Hin. specialize (H7 (insert_waiting ts i _ (Working y) Hi ltac:(done) Hin)). simpl in H7.
    pose proof (looking_insert ts i _ (Working y) Hi) as Hl.
    rewrite bool_decide_true, bool_decide_false in Hl by done. simpl in Hl. lia.
Qed.

Lemma shutdown_inv q ts : inv (mkSystem q ts) → inv (mkSystem (ShutDown q) (woken <$> ts)).
Proof.
  intros [H1 H2 H3 H4 H5 H6 H7]; cbn [sys_queue sys_threads] in *. split; cbn [sys_queue sys_threads queue dirty processing shuttingDown]; auto.
  - intros y. rewrite H4. f_equiv. intros j. by rewrite woken_lookup.
  - intros i j y. rewrite !woken_lookup by done. apply H5.
  - intros _. apply woken_not_waiting.
  - intros Hin. by apply woken_not_waiting in Hin.
Qed.

Lemma step_inv s e s' : step s e s' → inv s → inv s'.
Proof.
  destruct 1 as [|q ts i Hi|q ts i q' Hi HG| |q ts i q' Hi HG| |].
  - by eapply add_inv.
  - apply (insert_inv q ts i Idle); naive_solver.
  - unfold Get in HG. destruct (queue q) eqn:Hq; [|done].
    destruct (shuttingDown q) eqn:Hs; [done|]. injection HG as <-.
    apply (insert_inv q ts i Looking); naive_solver.
  - by eapply take_inv.
  - unfold Get in HG. destruct (queue q) eqn:Hq; [|done].
    destruct (shuttingDown q) eqn:Hs; [|done]. injection HG as <-.
    apply (insert_inv q ts i Looking); naive_solver.
  - by eapply done_inv.
  - apply shutdown_inv.
Qed.

Lemma runs_inv s l s' : runs s l s' → inv s → inv s'.
Proof. induction 1; eauto using step_inv. Qed.

Lemma reachable_inv s : reachable s → inv s.
Proof. intros (n & l & Hr). eapply runs_inv; [done|apply init_inv]. Qed.

(** ** What a run guarantees *)

(** C11: no two workers work on the same item at a time, and an item that is
    worked on is not in the queue, however often it is added meanwhile. *)
Theorem exclusive_work s i x :
  reachable s → sys_threads s !! i = Some (Working x) →
  x ∉ queue (sys_queue s) ∧ ∀ j, sys_threads s !! j = Some (Working x) → j = i.
Proof.
  intros Hr Hi. pose proof (reachable_inv s Hr) as I. split.
  - intros Hx. apply (inv_queue s I x Hx). apply (inv_working s I). eauto.
  - intros j Hj. by eapply inv_once.
Qed.

(** C12: no wake-up is lost: while there is an item and a worker sleeps, some
    worker is awake that can take the item. *)
Theorem no_lost_wakeup s :
  reachable s → Waiting ∈ sys_threads s → queue (sys_queue s) ≠ [] →
  ∃ i x s', step s (Took i x) s' ∧ queue (sys_queue s) = x :: queue (sys_queue s').
Proof.
  intros Hr Hw Hq. pose proof (inv_awake s (reachable_inv s Hr) Hw) as Hl.
  destruct s as [q ts]. cbn [sys_queue sys_threads] in *.
  destruct (queue q) as [|x rest] eqn:E; [done|]. simpl in Hl. unfold looking in Hl.
  destruct (filter (λ t, t = Looking) ts) as [|t l] eqn:Hf; [simpl in Hl; lia|].
  assert (Ht : t ∈ filter (λ t, t = Looking) ts) by (rewrite Hf; left).
  apply list_elem_of_filter in Ht as [-> [i Hi]%list_elem_of_lookup].
  exists i, x, (mkSystem (mkQueue rest (dirty q ∖ {[x]}) ({[x]} ∪ processing q) (shuttingDown q))
    (<[i := Working x]> ts)).
  split; [|done]. constructor; [done|]. unfold Get. by rewrite E.
Qed.

Lemma step_dirty s e s' x :
  step s e s' → x ∈ dirty (sys_queue s) → x ∈ dirty (sys_queue s') ∨ ∃ i, e = Took i x.
Proof.
  destruct 1 as [q ts y q' b ts' HA| |q ts i q' ? HG|q ts i q' y ? HG|q ts i q' ? HG|q ts i y q' b ts' ? HD|];
    cbn [sys_queue]; intros Hx.
  - left. unfold Add in HA. destruct (shuttingDown q); [by injection HA as <- _|].
    case_decide; [by injection HA as <- _|]. case_decide; injection HA as <- _; cbn; set_solver.
  - by left.
  - left. unfold Get in HG. destruct (queue q), (shuttingDown q); by simplify_eq.
  - unfold Get in HG. destruct (queue q); [by destruct (shuttingDown q)|]. simplify_eq/=. destruct (decide (x = y)) as [->|]; [eauto|].
    left. set_solver.
  - left. unfold Get in HG. destruct (queue q), (shuttingDown q); by simplify_eq.
  - left. unfold Done in HD. case_decide; by simplify_eq/=.
  - by left.
Qed.

Lemma runs_dirty s l s' x :
  runs s l s' → x ∈ dirty (sys_queue s) → x ∈ dirty (sys_queue s') ∨ ∃ i, Took i x ∈ l.
Proof.
  induction 1 as [|s l s1 e s2 Hr IH Hs]; intros Hx; [by left|].
  destruct (IH Hx) as [H1|[i Hi]]; [|right; exists i; set_solver].
  destruct (step_dirty _ _ _ _ Hs H1) as [|[i ->]]; [by left|]. right. exists i. set_solver.
Qed.

(** C13: an item that is added before the queue shuts down is taken by some
    worker afterwards, or is still to be: it is in the queue, or a worker has
    it and will put it back. *)
Theorem added_not_lost s x s1 l s2 :
  reachable s → shuttingDown (sys_queue s) = false → step s (Added x) s1 → runs s1 l s2 →
  (∃ i, Took i x ∈ l) ∨
  (x ∈ dirty (sys_queue s2) ∧
   (x ∈ queue (sys_queue s2) ∨ ∃ i, sys_threads s2 !! i = Some (Working x))).
Proof.
  intros Hr Hs Hstep Hruns. pose proof (step_inv _ _ _ Hstep (reachable_inv s Hr)) as I1.
  assert (Hx : x ∈ dirty (sys_queue s1)).
  { inversion Hstep as [q ts y q' b ts' HA| | | | | |]; subst. cbn [sys_queue] in *. unfold Add in HA.
    rewrite Hs in HA. case_decide; [by injection HA as <- _|].
    case_decide; injection HA as <- _; cbn; set_solver. }
  destruct (runs_dirty _ _ _ _ Hruns Hx) as [Hd|?]; [|by left]. right. split; [done|].
  pose proof (runs_inv _ _ _ Hruns I1) as I2.
  destruct (inv_dirty _ I2 x Hd) as [?|Hp]; [by left|]. right. by apply (inv_working _ I2).
Qed.

(** ** Shutting down *)

(** Workers leave only a queue that is shutting down, and the last of them
    only an empty one. *)
Record inv_left (s : system T) : Prop := {
  left_shut : Ended ∈ sys_threads s → shuttingDown (sys_queue s) = true;
  left_empty : (∀ t, t ∈ sys_threads s → t = Ended) → sys_threads s = [] ∨ queue (sys_queue s) = []
}.

Lemma inv_left_other q ts i t' :
  i < length ts → t' ≠ Ended → (Ended ∈ ts → shuttingDown q = true) → inv_left (mkSystem q (<[i := t']> ts)).
Proof.
  intros Hi Ht Hs. split; cbn [sys_queue sys_threads].
  - intros (j & Hj)%list_elem_of_lookup. apply Hs. destruct (decide (j = i)) as [->|?].
    + rewrite list_lookup_insert_eq in Hj by done. congruence.
    + rewrite list_lookup_insert_ne in Hj by done. by eapply list_elem_of_lookup_2.
  - intros Hall. exfalso. apply Ht, Hall. apply list_elem_of_lookup. exists i. by apply list_lookup_insert_eq.
Qed.

Lemma wake_inv_left q b ts ts' :
  wake b ts ts' → inv_left (mkSystem q ts) → inv_left (mkSystem q ts').
Proof.
  intros [| |? i Hi] I; [done..|]. apply inv_left_other; [by apply lookup_lt_Some in Hi|done|].
  apply (left_shut _ I).
Qed.

Lemma woken_Ended ts t : t ∈ woken <$> ts → t = Ended → Ended ∈ ts.
Proof. intros (u & -> & Hu)%list_elem_of_fmap. unfold woken. case_decide; naive_solver. Qed.

Lemma step_inv_left s e s' : step s e s' → inv_left s → inv_left s'.
Proof.
  destruct 1 as [q ts x q' b ts' HA Hw|q ts i Hi|q ts i q' Hi HG|q ts i q' x Hi HG|q ts i q' Hi HG
    |q ts i x q' b ts' Hi HD Hw|q ts]; intros I;
    try (apply lookup_lt_Some in Hi as Hlt); try (unfold Get in HG; destruct (queue q) eqn:Hq; injection HG as <- HG; try discriminate).
  - eapply wake_inv_left; [done|]. destruct I as [I1 I2]; cbn [sys_queue sys_threads] in *.
    unfold Add in HA. destruct (shuttingDown q) eqn:Hs; [injection HA as <- _; by split; cbn; rewrite ?Hs|].
    assert (Hno : Ended ∉ ts) by (intros Hin; by discriminate (I1 Hin)).
    split; cbn [sys_queue sys_threads]; [done|]. intros Hall. left.
    destruct ts as [|t ts]; [done|]. exfalso. apply Hno. rewrite <- (Hall t); left.
  - apply inv_left_other; [done|done|]. apply (left_shut _ I).
  - apply inv_left_other; [done|done|]. apply (left_shut _ I).
  - by destruct (shuttingDown q).
  - apply inv_left_other; [done|done|]. apply (left_shut _ I).
  - destruct (shuttingDown q) eqn:Hs; [|done]. split; cbn [sys_queue sys_threads]; [done|by right].
  - eapply wake_inv_left; [done|]. apply inv_left_other; [done|done|].
    intros Hin. unfold Done in HD. case_decide; injection HD as <- _; by apply (left_shut _ I).
  - destruct I as [I1 I2]; cbn [sys_queue sys_threads] in *. split; cbn [sys_queue sys_threads]; [done|].
    intros Hall. destruct I2 as [->|?]; [|by left|by right].
    intros t Ht. assert (woken t ∈ woken <$> ts) as Hwt by by apply list_elem_of_fmap_2.
    specialize (Hall _ Hwt). unfold woken in Hall. by case_decide.
Qed.

Lemma reachable_inv_left s : reachable s → inv_left s.
Proof.
  intros (n & l & Hr). remember (init n) as s0 eqn:E. revert E.
  induction Hr as [s|s l s1 e s2 Hr IH Hs]; intros ->; [|by eapply step_inv_left, IH].
  split; cbn; [|by right]. by intros [? _]%elem_of_replicate.
Qed.

(** when the last worker has left, all the work that was accepted has been
    done. *)
Theorem all_left_all_done s :
  reachable s → sys_threads s ≠ [] → (∀ t, t ∈ sys_threads s → t = Ended) →
  queue (sys_queue s) = [] ∧ dirty (sys_queue s) = ∅ ∧ processing (sys_queue s) = ∅.
Proof.
  intros Hr Hne Hall. pose proof (reachable_inv s Hr) as I.
  destruct (left_empty s (reachable_inv_left s Hr) Hall) as [?|Hq]; [done|].
  assert (Hp : processing (sys_queue s) = ∅).
  { apply elem_of_equiv_empty_L. intros x [i Hi]%(inv_working s I).
    by discriminate (Hall _ (list_elem_of_lookup_2 _ _ _ Hi)). }
  split_and!; [done| |done]. apply elem_of_equiv_empty_L. intros x Hx.
  destruct (inv_dirty s I x Hx) as [Hx'|Hx']; [rewrite Hq in Hx'|rewrite Hp in Hx']; set_solver.
Qed.

(** *** The work that is left *)

Definition weight (t : thread T) : nat :=
  match t with Idle => 2 | Looking => 1 | Working _ => 3 | Waiting | Ended => 0 end.

Definition work_left s : nat :=
  3 * size (dirty (sys_queue s)) + sum_list_with weight (sys_threads s).

(** What a worker does, not its environment. *)
Definition by_worker (e : event T) : bool :=
  match e with Added _ | Shut => false | _ => true end.

Definition taken (l : list (event T)) : list T :=
  omap (λ e, match e with Took _ x => Some x | _ => None end) l.

Lemma weight_insert ts i t t' :
  ts !! i = Some t → sum_list_with weight (<[i := t']> ts) + weight t = sum_list_with weight ts + weight t'.
Proof.
  revert i. induction ts as [|u ts IH]; intros [|i] Hi; simplify_eq/=; [lia|]. specialize (IH _ Hi). lia.
Qed.

Lemma woken_id ts : Waiting ∉ ts → woken <$> ts = ts.
Proof.
  intros Hw. apply list_eq. intros i. rewrite list_lookup_fmap. destruct (ts !! i) as [t|] eqn:Hi; [|done].
  simpl. unfold woken. case_decide as Ht; [|done]. subst t. exfalso. by eapply Hw, list_elem_of_lookup_2.
Qed.

Lemma wake_id b ts ts' : wake b ts ts' → Waiting ∉ ts → ts' = ts.
Proof. intros [| |? i Hi] Hw; [done..|]. exfalso. by eapply Hw, list_elem_of_lookup_2. Qed.

(** A step of a queue that is shutting down. *)
Lemma step_shut s e s' :
  step s e s' → inv s → shuttingDown (sys_queue s) = true →
  shuttingDown (sys_queue s') = true ∧ work_left s' + one (by_worker e) = work_left s ∧
  dirty (sys_queue s') = dirty (sys_queue s) ∖ list_to_set (taken [e]) ∧
  ∀ x, x ∈ taken [e] → x ∈ dirty (sys_queue s).
Proof.
  intros Hstep I Hs. pose proof (inv_shut s I Hs) as Hnw. unfold work_left.
  destruct Hstep as [q ts x q' b ts' HA Hw|q ts i Hi|q ts i q' Hi HG|q ts i q' x Hi HG|q ts i q' Hi HG
    |q ts i x q' b ts' Hi HD Hw|q ts]; cbn [sys_queue sys_threads] in *;
    try (unfold Get in HG; destruct (queue q) eqn:Hq; rewrite ?Hs in HG; injection HG as <- HG; try discriminate);
    try (match goal with |- context [<[i := ?t]> ts] => pose proof (weight_insert ts i _ t Hi) as Hwt; simpl in Hwt end).
  - unfold Add in HA. rewrite Hs in HA. injection HA as <- <-. inversion Hw; subst. simpl.
    split_and!; [done|lia|set_solver|set_solver].
  - simpl. split_and!; [done|lia|set_solver|set_solver].
  - subst. simpl. assert (Hx : x ∈ dirty q) by (apply (inv_queue _ I); cbn; rewrite Hq; left).
    split_and!; [done| |set_solver|set_solver].
    rewrite size_difference, size_singleton by set_solver.
    assert (size (dirty q) ≠ 0) by (intros ?%size_empty_inv; set_solver). lia.
  - unfold Get in HG. destruct (queue q) eqn:Hq; [|done]. rewrite Hs in HG. injection HG as <-.
    simpl. split_and!; [done|lia|set_solver|set_solver].
  - apply wake_id in Hw as ->.
    2: { intros Hin. by eapply Hnw, (insert_waiting ts i _ Idle Hi). }
    pose proof (weight_insert ts i _ Idle Hi) as Hwt. simpl in Hwt.
    unfold Done in HD. case_decide; injection HD as <- <-; simpl; (split_and!; [done|lia|set_solver|set_solver]).
  - rewrite woken_id by done. simpl. split_and!; [done|lia|set_solver|set_solver].
Qed.

(** C14: once the queue shuts down the workers end: they do no more than a
    number of things that is known at that time, and hand out each item that
    is still there at most once and no other. *)
Theorem ShutDown_drains s l s' :
  reachable s → shuttingDown (sys_queue s) = true → runs s l s' →
  length (filter (λ e, by_worker e = true) l) ≤ work_left s ∧
  NoDup (taken l) ∧ (∀ x, x ∈ taken l → x ∈ dirty (sys_queue s)).
Proof.
  intros Hr Hs Hruns.
  assert (length (filter (λ e, by_worker e = true) l) + work_left s' = work_left s ∧
    shuttingDown (sys_queue s') = true ∧ NoDup (taken l) ∧
    (∀ x, x ∈ taken l → x ∈ dirty (sys_queue s)) ∧
    dirty (sys_queue s') = dirty (sys_queue s) ∖ list_to_set (taken l)) as Hall; [|intuition lia].
  pose proof (reachable_inv s Hr) as I.
  induction Hruns as [s|s l s1 e s2 Hruns IH Hstep].
  { simpl. split_and!; [lia|done|constructor|set_solver|set_solver]. }
  destruct (IH Hr Hs I) as (H1 & H2 & H3 & H4 & H5).
  destruct (step_shut _ _ _ Hstep (runs_inv _ _ _ Hruns I) H2) as (K1 & K2 & K3 & K4).
  assert (Ht : taken (l ++ [e]) = taken l ++ taken [e]) by apply omap_app.
  assert (Hnd : NoDup (taken [e])) by (destruct e; simpl; repeat constructor; set_solver).
  rewrite Ht, list.filter_app, length_app. split_and!.
  - replace (length (filter (λ e, by_worker e = true) [e])) with (one (by_worker e)); [lia|].
    rewrite filter_cons, filter_nil. by destruct (by_worker e).
  - done.
  - apply list.NoDup_app. split_and!; [done| |done]. intros x Hx Hx'. specialize (K4 x Hx').
    rewrite H5 in K4. set_solver.
  - intros x [Hx|Hx]%elem_of_app; [by apply H4|]. specialize (K4 x Hx). rewrite H5 in K4. set_solver.
  - rewrite K3, H5, list_to_set_app_L. set_solver.
Qed.
End spec.

(** ** Witnesses *)

Module QueueEx.
(** Two workers; an item is added, one worker takes it, it is added again
    while it is worked on, the other worker goes to sleep. *)
Definition busy : system nat :=
  mkSystem (mkQueue [] {[ 7 ]} {[ 7 ]} false) [Working 7; Waiting].
Definition added : system nat :=
  mkSystem (mkQueue [8] {[ 7; 8 ]} {[ 7 ]} false) [Working 7; Looking].

Lemma busy_runs : runs (init 2) [Added 7; Called 0; Called 1; Took 0 7; Added 7; Slept 1] busy.
Proof.
  change [Added 7; Called 0; Called 1; Took 0 7; Added 7; Slept 1]
    with (((((([] ++ [Added 7]) ++ [Called 0]) ++ [Called 1]) ++ [Took 0 7]) ++ [Added 7]) ++ [@Slept nat 1]).
  apply (runs_step _ _ (mkSystem (mkQueue [] {[ 7 ]} {[ 7 ]} false) [Working 7; Looking])).
  2: { apply (step_wait _ [Working 7; Looking] 1); by vm_compute. }
  apply (runs_step _ _ (mkSystem (mkQueue [] ∅ {[ 7 ]} false) [Working 7; Looking])).
  2: { apply (step_add _ _ 7 _ false); [by vm_compute|constructor]. }
  apply (runs_step _ _ (mkSystem (mkQueue [7] {[ 7 ]} ∅ false) [Looking; Looking])).
  2: { apply (step_take _ [Looking; Looking] 0); by vm_compute. }
  apply (runs_step _ _ (mkSystem (mkQueue [7] {[ 7 ]} ∅ false) [Looking; Idle])).
  2: { by apply (step_call _ [Looking; Idle] 1). }
  apply (runs_step _ _ (mkSystem (mkQueue [7] {[ 7 ]} ∅ false) [Idle; Idle])).
  2: { by apply (step_call _ [Idle; Idle] 0). }
  apply (runs_step _ _ (init 2)); [constructor|].
  apply (step_add _ _ 7 _ true); [by vm_compute|]. apply wake_none. cbn. intros H.
  apply elem_of_cons in H as [H|H]; [done|]. apply elem_of_cons in H as [H|H]; [done|].
  by apply not_elem_of_nil in H.
Qed.

Lemma busy_reachable : reachable busy.
Proof. exists 2. eexists. apply busy_runs. Qed.

Lemma busy_add : step busy (Added 8) added.
Proof.
  apply (step_add _ _ 8 (mkQueue [8] {[ 7; 8 ]} {[ 7 ]} false) true); [by vm_compute|].
  by apply (wake_one [Working 7; Waiting] 1).
Qed.

Lemma added_reachable : reachable added.
Proof. exists 2. eexists. eapply runs_step; [apply busy_runs | apply busy_add]. Qed.

Definition ending : system nat := mkSystem (mkQueue [8] {[ 7; 8 ]} {[ 7 ]} true) [Working 7; Looking].

Lemma ending_reachable : reachable ending.
Proof.
  exists 2. eexists. eapply (runs_step _ _ added Shut); [eapply runs_step; [apply busy_runs | apply busy_add]|].
  exact (step_shutdown (mkQueue [8] {[ 7; 8 ]} {[ 7 ]} false) [Working 7; Looking]).
Qed.

(** Both workers sleep, then an item wakes one of them. *)
Definition sleepy : system nat := mkSystem (mkQueue [8] {[ 8 ]} ∅ false) [Looking; Waiting].
Lemma sleepy_reachable : reachable sleepy.
Proof.
  exists 2, ((((([] ++ [Called 0]) ++ [Slept 0]) ++ [Called 1]) ++ [Slept 1]) ++ [Added 8]).
  apply (runs_step _ _ (mkSystem New [Waiting; Waiting])).
  2: { apply (step_add _ _ 8 _ true); [by vm_compute|]. by apply (wake_one [Waiting; Waiting] 0). }
  apply (runs_step _ _ (mkSystem New [Waiting; Looking])).
  2: { by apply (step_wait _ [Waiting; Looking] 1). }
  apply (runs_step _ _ (mkSystem New [Waiting; Idle])).
  2: { by apply (step_call _ [Waiting; Idle] 1). }
  apply (runs_step _ _ (mkSystem New [Looking; Idle])).
  2: { by apply (step_wait _ [Looking; Idle] 0). }
  apply (runs_step _ _ (init 2)); [constructor|]. by apply (step_call _ [Idle; Idle] 0).
Qed.

Definition left : system nat := mkSystem (mkQueue [] ∅ ∅ true) [@Ended nat].
Lemma left_reachable : reachable left.
Proof.
  exists 1, ((([] ++ [Shut]) ++ [Called 0]) ++ [Left 0]).
  apply (runs_step _ _ (mkSystem (mkQueue [] ∅ ∅ true) [Looking])).
  2: { by apply (step_leave _ [Looking] 0). }
  apply (runs_step _ _ (mkSystem (mkQueue [] ∅ ∅ true) [Idle])).
  2: { by apply (step_call _ [Idle] 0). }
  apply (runs_step _ _ (init 1)); [constructor|]. apply (step_shutdown New [Idle]).
Qed.
End QueueEx.

Lemma exclusive_work_witness :
  sys_threads QueueEx.busy !! 0 = Some (Working 7) ∧ 7 ∉ queue (sys_queue QueueEx.busy).
Proof.
  split; [done|]. by apply (exclusive_work QueueEx.busy 0 7 QueueEx.busy_reachable eq_refl).
Defined.

Lemma no_lost_wakeup_witness :
  queue (sys_queue QueueEx.sleepy) = [8] ∧ ∃ i x s', step QueueEx.sleepy (Took i x) s'.
Proof.
  split; [done|].
  destruct (no_lost_wakeup QueueEx.sleepy QueueEx.sleepy_reachable) as (i & x & s' & Hs & _);
    [right; left|done|]. eauto.
Defined.

Lemma added_not_lost_witness :
  8 ∈ dirty (sys_queue QueueEx.added) ∧ 8 ∈ queue (sys_queue QueueEx.added).
Proof.
  destruct (added_not_lost QueueEx.busy 8 QueueEx.added [] QueueEx.added QueueEx.busy_reachable eq_refl
    QueueEx.busy_add (runs_nil _)) as [[i Hi]|[Hd _]]; [by apply not_elem_of_nil in Hi|].
  split; [exact Hd | left].
Defined.

Lemma all_left_all_done_witness :
  sys_threads QueueEx.left = [Ended] ∧ dirty (sys_queue QueueEx.left) = ∅.
Proof.
  split; [done|]. apply (all_left_all_done QueueEx.left QueueEx.left_reachable); [done|].
  intros t [->|Ht]%elem_of_cons; [done|by apply not_elem_of_nil in Ht].
Defined.

Lemma ShutDown_drains_witness :
  work_left QueueEx.ending = 10 ∧
  ∀ l s', runs QueueEx.ending l s' → length (filter (λ e, by_worker e = true) l) ≤ 10.
Proof.
  split; [by vm_compute|]. intros l s' Hr.
  apply (ShutDown_drains QueueEx.ending l s' QueueEx.ending_reachable eq_refl Hr).
Defined.
