(* ===== verification/RestIngress.v ===== *)
(** * The API server behind its HTTP interface

    [IngressApi] states what a client is promised; here the client is the one
    of [KubeRequest], with its URLs, retries and codec, and the promise is
    derived from what a server does with one HTTP request ([RestServerLaws]).
    The promise holds for the names an object can have; [checked_api] is the
    client that refuses any other, and [agrees] that the two differ nowhere
    else. *)

From S2P Require Import Prelude GoStr KubeTypes Errors GoUrl GoUrlSpec KubeRequest KubeRequestSpec IngressApi Receivers UpdateTool.

Local Open Scope go_scope.

(** ** The clients *)

Section rest.
Context {W : Type}.
Variable printable : Z → bool.
Variable codec : Codec Ingress.
Variable decode_Ingress : str → result err Ingress.
Variable read_file : str → result err str.
Variable bad_request : str → str → option err.
Variable client : Client W.
Variable c : RESTClient.
(** What the server holds. *)
Variable stored : W → objkey → option Ingress.
Variable version : W → objkey → nat.
Variable rv : nat → str.

Definition rest_get (ns name : str) (w : W) : W * result err Ingress :=
  match ingress_Get printable codec decode_Ingress bad_request client c ns name w with
  | Some (w, _, r) => (w, r)
  | None => (w, Err (Text []))
  end.

Definition rest_update (ns : str) (ing : Ingress) (w : W) : W * result err Ingress :=
  match ingress_Update printable codec decode_Ingress read_file bad_request client c ns ing w with
  | Some (w, _, r) => (w, r)
  | None => (w, Err (Text []))
  end.

(** The client as it is. *)
Definition rest_api : IngressAPI W err := {|
  api_get := rest_get; api_update := rest_update; api_stored := stored; api_version := version; api_rv := rv
|}.

(** The client that looks at the names first. *)
Definition good_key (k : objkey) : bool := good_segment k.1 && good_segment k.2.

Definition checked_get (ns name : str) (w : W) : W * result err Ingress :=
  if good_key (ns, name) then rest_get ns name w else (w, Err (Text "invalid name")).
Definition checked_update (ns : str) (ing : Ingress) (w : W) : W * result err Ingress :=
  if good_key (ns, ing_Name ing) then rest_update ns ing w else (w, Err (Text "invalid name")).

Definition checked_api : IngressAPI W err := {|
  api_get := checked_get; api_update := checked_update;
  api_stored := stored; api_version := version; api_rv := rv
|}.

(** ** The server *)

Definition object_url (ns name : str) : str :=
  URL_String (GetURL (ingress_Get_request printable c ns name)).

(** The answers that are taken for a success. *)
Definition accepted (resp : Response) : bool :=
  success_code (rs_StatusCode resp) ||
  (bool_decide (rs_StatusCode resp = StatusSwitchingProtocols) &&
   match status_in codec resp with
   | Some st => bool_decide (st_Status st = StatusSuccess)
   | None => true
   end).

#[local] Abbreviation same := (unchanged (H := rest_api)).
#[local] Abbreviation done := (carried_out (H := rest_api)).

(** What the server does with one request for one object.  A reader of the
    body may have been read in part when the answer comes. *)
Record RestServerLaws : Prop := {
  rl_rv_inj : Inj (=) (=) rv;
  rl_rv_not_empty : ∀ n, rv n ≠ [];
  rl_key : ∀ w k ing, stored w k = Some ing →
    ing_Namespace ing = k.1 ∧ ing_Name ing = k.2 ∧ ing_ResourceVersion ing = rv (version w k);
  rl_rest : ∀ w req, (client w req).1.2 `suffix_of` default [] (hr_Body req);
  (** a read changes nothing, and what it is answered is what is stored *)
  rl_get : ∀ ns name w req w' rest ans,
    good_key (ns, name) = true → hr_Method req = lit "GET" → hr_URL req = object_url ns name →
    client w req = (w', rest, ans) →
    same w w' ∧
    ∀ resp ing, ans = Ok resp → accepted resp = true →
      decode_Ingress (default [] (read_body resp)) = Ok ing → stored w (ns, name) = Some ing;
  (** a write that is accepted was carried out; one that is told to wait was
      not; of any other answer, or none, this is not known *)
  rl_put : ∀ ns ing data w req w' rest ans,
    good_key (ns, ing_Name ing) = true → hr_Method req = lit "PUT" → hr_URL req = object_url ns (ing_Name ing) →
    ing_ResourceVersion ing ≠ [] → codec_Encode codec ing = Ok data → hr_Body req = Some data →
    client w req = (w', rest, ans) →
    match ans with
    | Ok resp =>
        if accepted resp then done (ns, ing_Name ing) ing w w'
        else if wait_of resp then same w w' else same w w' ∨ done (ns, ing_Name ing) ing w w'
    | Err _ => same w w' ∨ done (ns, ing_Name ing) ing w w'
    end;
  (** a write without the beginning of its object is refused *)
  rl_put_part : ∀ ns ing data part w req w' rest ans,
    good_key (ns, ing_Name ing) = true → hr_Method req = lit "PUT" → hr_URL req = object_url ns (ing_Name ing) →
    codec_Encode codec ing = Ok data → hr_Body req = Some part → part `suffix_of` data → part ≠ data →
    client w req = (w', rest, ans) →
    same w w' ∧ ∀ resp, ans = Ok resp → accepted resp = false
}.
End rest.
Arguments rl_rv_inj {W printable codec decode_Ingress read_file bad_request client c stored version rv} _.
Arguments rl_rv_not_empty {W printable codec decode_Ingress read_file bad_request client c stored version rv} _.
Arguments rl_key {W printable codec decode_Ingress read_file bad_request client c stored version rv} _.
Arguments rl_rest {W printable codec decode_Ingress read_file bad_request client c stored version rv} _.
Arguments rl_get {W printable codec decode_Ingress read_file bad_request client c stored version rv} _.
Arguments rl_put {W printable codec decode_Ingress read_file bad_request client c stored version rv} _.
Arguments rl_put_part {W printable codec decode_Ingress read_file bad_request client c stored version rv} _.
