(* ===== verification/RestMap.v ===== *)
(** * An HTTP server that keeps Ingresses in a map

    [MapServer] behind HTTP, with a codec of its own: it obeys
    [RestServerLaws], and asks the first requests to wait.  The witnesses run
    the client against it. *)

From S2P Require Import Prelude GoStr KubeTypes Errors GoUrl GoUrlSpec KubeRequest KubeRequestSpec IngressApi RestIngress.

Local Open Scope go_scope.

(** ** Ingresses as text *)

#[global] Instance TypeMeta_eq_dec : EqDecision TypeMeta. Proof. solve_decision. Defined.
#[global] Instance ObjectMeta_eq_dec : EqDecision ObjectMeta. Proof. solve_decision. Defined.
#[global] Instance IntOrString_eq_dec : EqDecision IntOrString. Proof. solve_decision. Defined.
#[global] Instance IngressBackend_eq_dec : EqDecision IngressBackend. Proof. solve_decision. Defined.
#[global] Instance HTTPIngressPath_eq_dec : EqDecision HTTPIngressPath. Proof. solve_decision. Defined.
#[global] Instance HTTPIngressRuleValue_eq_dec : EqDecision HTTPIngressRuleValue. Proof. solve_decision. Defined.
#[global] Instance IngressRule_eq_dec : EqDecision IngressRule. Proof. solve_decision. Defined.
#[global] Instance IngressSpec_eq_dec : EqDecision IngressSpec. Proof. solve_decision. Defined.
#[global] Instance LoadBalancerIngress_eq_dec : EqDecision LoadBalancerIngress. Proof. solve_decision. Defined.
#[global] Instance LoadBalancerStatus_eq_dec : EqDecision LoadBalancerStatus. Proof. solve_decision. Defined.
#[global] Instance IngressStatus_eq_dec : EqDecision IngressStatus. Proof. solve_decision. Defined.
#[global] Instance Ingress_eq_dec : EqDecision Ingress. Proof. solve_decision. Defined.

#[global] Instance TypeMeta_countable : Countable TypeMeta.
Proof.
  by apply (inj_countable' (λ x, (tm_Kind x, tm_APIVersion x)) (λ '(a, b), Build_TypeMeta a b)); intros [].
Defined.
#[global] Instance ObjectMeta_countable : Countable ObjectMeta.
Proof.
  apply (inj_countable' (λ x, (om_Name x, om_GenerateName x, om_Namespace x, om_SelfLink x, om_UID x,
      om_ResourceVersion x, (om_Generation x, om_CreationTimestamp x, om_DeletionTimestamp x,
      om_DeletionGracePeriodSeconds x, om_Labels x, om_Annotations x)))
    (λ '(a, b, c, d, e, f, (g, h, i, j, k, l)), Build_ObjectMeta a b c d e f g h i j k l)).
  by intros [].
Defined.
#[global] Instance IntOrString_countable : Countable IntOrString.
Proof.
  apply (inj_countable' (λ x, match x with IntVal z => inl z | StrVal s => inr s end)
    (λ x, match x with inl z => IntVal z | inr s => StrVal s end)). by intros [].
Defined.
#[global] Instance IngressBackend_countable : Countable IngressBackend.
Proof.
  by apply (inj_countable' (λ x, (ib_ServiceName x, ib_ServicePort x)) (λ '(a, b), Build_IngressBackend a b)); intros [].
Defined.
#[global] Instance HTTPIngressPath_countable : Countable HTTPIngressPath.
Proof. by apply (inj_countable' (λ x, (hp_Path x, hp_Backend x)) (λ '(a, b), Build_HTTPIngressPath a b)); intros []. Defined.
#[global] Instance HTTPIngressRuleValue_countable : Countable HTTPIngressRuleValue.
Proof. by apply (inj_countable' hr_Paths Build_HTTPIngressRuleValue); intros []. Defined.
#[global] Instance IngressRule_countable : Countable IngressRule.
Proof. by apply (inj_countable' (λ x, (ir_Host x, ir_HTTP x)) (λ '(a, b), Build_IngressRule a b)); intros []. Defined.
#[global] Instance IngressSpec_countable : Countable IngressSpec.
Proof. by apply (inj_countable' (λ x, (is_Backend x, is_Rules x)) (λ '(a, b), Build_IngressSpec a b)); intros []. Defined.
#[global] Instance LoadBalancerIngress_countable : Countable LoadBalancerIngress.
Proof. by apply (inj_countable' (λ x, (lb_IP x, lb_Hostname x)) (λ '(a, b), Build_LoadBalancerIngress a b)); intros []. Defined.
#[global] Instance LoadBalancerStatus_countable : Countable LoadBalancerStatus.
Proof. by apply (inj_countable' ls_Ingress Build_LoadBalancerStatus); intros []. Defined.
#[global] Instance IngressStatus_countable : Countable IngressStatus.
Proof. by apply (inj_countable' ist_LoadBalancer Build_IngressStatus); intros []. Defined.
#[global] Instance Ingress_countable : Countable Ingress.
Proof.
  apply (inj_countable' (λ x, (ing_TypeMeta x, ing_ObjectMeta x, ing_Spec x, ing_Status x))
    (λ '(a, b, c, d), Build_Ingress a b c d)). by intros [].
Defined.

(** A number in binary, the lowest digit first. *)
Fixpoint digits (p : positive) : str :=
  match p with xH => [] | xO p => "0"%char :: digits p | xI p => "1"%char :: digits p end.
Fixpoint undigits (s : str) : option positive :=
  match s with
  | [] => Some xH
  | a :: s =>
      p ← undigits s;
      if decide (a = "0"%char) then Some (xO p) else if decide (a = "1"%char) then Some (xI p) else None
  end.

Lemma undigits_digits p : undigits (digits p) = Some p.
Proof. induction p as [p IH|p IH|]; simpl; [by rewrite IH..|done]. Qed.

Lemma digits_no_brace p : "{"%char ∉ digits p.
Proof. induction p; simpl; set_solver. Qed.

Definition enc (ing : Ingress) : str := "{"%char :: digits (encode ing).
Definition dec (s : str) : option Ingress :=
  match s with
  | a :: s => if decide (a = "{"%char) then undigits s ≫= decode else None
  | [] => None
  end.

Lemma dec_enc ing : dec (enc ing) = Some ing.
Proof. simpl. by rewrite undigits_digits; simpl; rewrite decode_encode. Qed.

Lemma dec_part ing s : s `suffix_of` enc ing → s ≠ enc ing → dec s = None.
Proof.
  unfold enc. intros [[|a l] E]; simpl in E; intros Hne; [by rewrite E in Hne|].
  injection E as _ E. destruct s as [|b s]; [done|]. simpl. case_decide as Hb; [|done]. subst b.
  exfalso. apply (digits_no_brace (encode ing)). rewrite E. set_solver.
Qed.

(** ** The server *)

Definition map_codec : Codec Ingress :=
  mkCodec Ingress (λ ing, Ok (enc ing))
    (λ s, match dec s with Some ing => Ok ing | None => Err (Text "not an object") end)
    (λ _, Err (Text "not a Status")) (λ _, inr []).
Definition map_decode (s : str) : result err Ingress :=
  match dec s with Some ing => Ok ing | None => Err (Text "not an object") end.

Section server.
Variable printable : Z → bool.
Variable c : RESTClient.
Hypothesis good_base : good_segments (clean_segs (url_Path (rc_baseURL c))).

(** The number of requests it will ask to wait, and the objects. *)
Abbreviation state := (nat * MapServer.server)%type.

Definition respond (code : Z) (body : str) : Response :=
  mkResponse code [] ∅ (Some (mkBody (body, None) ([], None))).
Definition wait_a_second : Response :=
  mkResponse 429 [] {[ lit "Retry-After" := [lit "1"] ]} (Some (mkBody ([], None) ([], None))).

(** The object a URL names. *)
Definition route (s : MapServer.server) (url : str) : option objkey :=
  snd <$> list_find (λ k, good_key k = true ∧ object_url printable c k.1 k.2 = url) (map_to_list (MapServer.objects s)).*1.

Definition handle (s : MapServer.server) (req : http_request) : MapServer.server * Response :=
  match route s (hr_URL req) with
  | None => (s, respond 404 [])
  | Some k =>
      if decide (hr_Method req = lit "GET") then
        (s, match MapServer.stored s k with Some ing => respond 200 (enc ing) | None => respond 404 [] end)
      else if decide (hr_Method req = lit "PUT") then
        match dec (default [] (hr_Body req)) with
        | None => (s, respond 400 [])
        | Some ing =>
            if decide (ing_Name ing = k.2) then
              match MapServer.update k.1 ing s with
              | (s, Ok ing) => (s, respond 200 (enc ing))
              | (s, Err _) => (s, respond 409 [])
              end
            else (s, respond 400 [])
        end
      else (s, respond 405 [])
  end.

Definition map_client : Client state := λ '(n, s) req,
  match n with
  | S n => (n, s, [], Ok wait_a_second)
  | 0 => let '(s, resp) := handle s req in (0, s, [], Ok resp)
  end.

Definition map_stored (w : state) : objkey → option Ingress := MapServer.stored w.2.
Definition map_version (w : state) : objkey → nat := MapServer.version w.2.

Lemma route_good s k url : route s url = Some k → good_key k = true ∧ object_url printable c k.1 k.2 = url.
Proof.
  unfold route. intros ([i k'] & Hf & ->)%fmap_Some. by apply list_find_Some in Hf as (_ & Hk & _).
Qed.

Lemma route_key s ns name :
  good_key (ns, name) = true →
  route s (object_url printable c ns name) =
    if decide (is_Some (MapServer.objects s !! (ns, name))) then Some (ns, name) else None.
Proof.
  intros Hk. case_decide as Hs.
  - destruct (route s _) as [[ns' name']|] eqn:Hr.
    + apply route_good in Hr as [Hk' Hu]. f_equal.
      unfold good_key in *. apply andb_true_iff in Hk as [? ?], Hk' as [? ?].
      by destruct (Get_request_url_inj printable c ns' name' ns name) as [-> ->].
    + unfold route in Hr. apply fmap_None, list_find_None in Hr.
      destruct Hs as [v Hv]. apply elem_of_map_to_list in Hv.
      rewrite list.Forall_forall in Hr. exfalso. apply (Hr (ns, name)); [|by split].
      apply list_elem_of_fmap. by exists ((ns, name), v).
  - destruct (route s _) as [k|] eqn:Hr; [|done]. exfalso. apply Hs.
    pose proof (route_good _ _ _ Hr) as [Hk' Hu].
    unfold good_key in *. apply andb_true_iff in Hk as [? ?], Hk' as [? ?].
    destruct (Get_request_url_inj printable c k.1 k.2 ns name) as [E1 E2]; [done..|].
    unfold route in Hr. apply fmap_Some in Hr as ([i k'] & Hf & ->).
    apply list_find_Some in Hf as (Hi & _). simpl in *. apply list_elem_of_lookup_2 in Hi.
    apply list_elem_of_fmap in Hi as ([k v] & -> & Hv). apply elem_of_map_to_list in Hv. simpl in *.
    destruct k; simpl in *; subst. by eexists.
Qed.

(** ** It obeys the laws *)

Variable read_file : str → result err str.
Variable bad_request : str → str → option err.
#[local] Abbreviation api := (rest_api printable map_codec map_decode read_file bad_request
  map_client c map_stored map_version MapServer.rv).

Lemma accepted_respond code body : accepted map_codec (respond code body) = success_code code || bool_decide (code = 101%Z).
Proof. unfold accepted. cbn. by rewrite andb_true_r. Qed.

Lemma body_respond code body : default [] (read_body (respond code body)) = body.
Proof. done. Qed.

Lemma accepted_wait : accepted map_codec wait_a_second = false.
Proof. by vm_compute. Qed.

Lemma handle_get s req ns name :
  good_key (ns, name) = true → hr_Method req = lit "GET" → hr_URL req = object_url printable c ns name →
  (handle s req).1 = s ∧
  ∀ ing, accepted map_codec (handle s req).2 = true →
    map_decode (default [] (read_body (handle s req).2)) = Ok ing →
    MapServer.stored s (ns, name) = Some ing.
Proof.
  intros Hk Hm Hu. unfold handle. rewrite Hu, route_key by done.
  case_decide as Hs; [|done]. rewrite decide_True by done. cbn [fst snd]. split; [done|].
  destruct (MapServer.stored s (ns, name)) as [ing|]; [|by rewrite accepted_respond].
  intros ing' _. rewrite body_respond. unfold map_decode. rewrite dec_enc. by intros [= ->].
Qed.

Lemma handle_put s req ns ing :
  good_key (ns, ing_Name ing) = true → hr_Method req = lit "PUT" →
  hr_URL req = object_url printable c ns (ing_Name ing) → hr_Body req = Some (enc ing) →
  ((handle s req).1 = s ∧ accepted map_codec (handle s req).2 = false) ∨
  (carried_out (H := MapServer.api) (ns, ing_Name ing) ing s (handle s req).1 ∧
   accepted map_codec (handle s req).2 = true).
Proof.
  intros Hk Hm Hu Hb. unfold handle. rewrite Hu, route_key by done.
  case_decide as Hs; [|left; cbn [fst snd]; by rewrite accepted_respond].
  rewrite decide_False by (by rewrite Hm). rewrite decide_True by done. rewrite Hb. cbn [from_option id].
  rewrite dec_enc. rewrite decide_True by done. cbn [fst].
  pose proof (MapServer.update_carried_out ns ing s) as Hc.
  destruct (MapServer.update ns ing s) as [s' [ing'|e]] eqn:HU; cbn [fst snd] in *.
  - right. split; [by apply (Hc ing')|by rewrite accepted_respond].
  - left. rewrite accepted_respond. split; [|done]. revert HU. unfold MapServer.update.
    destruct (MapServer.stored s _); [|by intros [= <- _]]. case_decide; [done|by intros [= <- _]].
Qed.

Lemma handle_part s req ns name ing part :
  good_key (ns, name) = true → hr_Method req = lit "PUT" → hr_URL req = object_url printable c ns name →
  hr_Body req = Some part → part `suffix_of` enc ing → part ≠ enc ing →
  (handle s req).1 = s ∧ accepted map_codec (handle s req).2 = false.
Proof.
  intros Hk Hm Hu Hb Hp Hne. unfold handle. rewrite Hu, route_key by done.
  case_decide as Hs; [|cbn [fst snd]; by rewrite accepted_respond].
  rewrite decide_False by (by rewrite Hm). rewrite decide_True by done. rewrite Hb. cbn [from_option id].
  rewrite (dec_part ing part Hp Hne). cbn [fst snd]. by rewrite accepted_respond.
Qed.

Lemma map_laws : RestServerLaws printable map_codec map_decode read_file bad_request
  map_client c map_stored map_version MapServer.rv.
Proof.
  split; try done.
  - apply MapServer.rv_inj.
  - intros w k ing. apply MapServer.stored_Some.
  - intros [[|n] s] req; cbn; [|apply suffix_nil]. destruct (handle s req). apply suffix_nil.
  - intros ns name [[|n] s] req w' rest ans Hk Hm Hu; cbn.
    + destruct (handle_get s req ns name Hk Hm Hu) as [E Hok].
      destruct (handle s req) as [s' resp]. cbn in E, Hok. subst s'. intros [= <- <- <-].
      split; [done|]. intros resp' ing [= <-]. apply Hok.
    + intros [= <- <- <-]. split; [done|]. intros resp ing [= <-]. by rewrite accepted_wait.
  - intros ns ing data [[|n] s] req w' rest ans Hk Hm Hu Hrv [= <-] Hb; cbn.
    + pose proof (handle_put s req ns ing Hk Hm Hu Hb) as H. destruct (handle s req) as [s' resp].
      cbn in H. intros [= <- <- <-]. destruct H as [[-> ->]|[H ->]]; [|exact H].
      destruct (wait_of resp); [done|by left].
    + intros [= <- <- <-]. rewrite accepted_wait. by vm_compute.
  - intros ns ing data part [[|n] s] req w' rest ans Hk Hm Hu [= <-] Hb Hp Hne; cbn.
    + pose proof (handle_part s req ns (ing_Name ing) ing part Hk Hm Hu Hb Hp Hne) as [E Hacc].
      destruct (handle s req) as [s' resp]. cbn in E, Hacc. subst s'. intros [= <- <- <-].
      split; [done|]. by intros resp' [= <-].
    + intros [= <- <- <-]. split; [done|]. intros resp [= <-]. apply accepted_wait.
Qed.
End server.
