(* ===== verification/RestIngressSpec.v ===== *)
(** * The API server behind its HTTP interface: specification

    What [IngressAPILaws] asks of a client is derived from the behaviour of
    the server on single requests, through the retries of the client and its
    reading of answers; the tool on the real client does what it does on the
    client that refuses impossible names. *)

From S2P Require Import Prelude GoStr KubeTypes Errors GoUrl GoUrlSpec KubeRequest KubeRequestSpec IngressApi RestIngress RestMap.
From S2P Require Import Receivers ReceiverJson ReceiversSpec Pflag PflagSpec KubeFlags UpdateTool UpdateToolSpec.

Local Open Scope go_scope.

Section spec.
Context {W : Type}.
Variable printable : Z → bool.
Variable codec : Codec Ingress.
Variable decode_Ingress : str → result err Ingress.
Variable read_file : str → result err str.
Variable bad_request : str → str → option err.
Variable client : Client W.
Variable c : RESTClient.
Variable stored : W → objkey → option Ingress.
Variable version : W → objkey → nat.
Variable rv : nat → str.
Hypothesis laws : RestServerLaws printable codec decode_Ingress read_file bad_request client c stored version rv.

#[local] Abbreviation real :=
  (rest_api printable codec decode_Ingress read_file bad_request client c stored version rv).
#[local] Abbreviation checked :=
  (checked_api printable codec decode_Ingress read_file bad_request client c stored version rv).
#[local] Abbreviation same := (unchanged (H := real)).
#[local] Abbreviation wrote := (carried_out (H := real)).
#[local] Abbreviation url := (object_url printable c).

(** ** Results of answers *)

Lemma transform_accepted r resp req :
  accepted codec resp = true →
  transformResponse codec r resp req = mkResult (read_body resp) None (rs_StatusCode resp).
Proof.
  unfold accepted, transformResponse. fold (status_in codec resp).
  destruct (success_code (rs_StatusCode resp)); cbn [orb].
  - intros _. rewrite decide_False by naive_solver.
    destruct (status_in codec resp); [|done]. by rewrite decide_False by naive_solver.
  - intros [Hc Hs]%andb_true_iff. apply bool_decide_eq_true in Hc.
    rewrite decide_False by naive_solver. destruct (status_in codec resp); [|done].
    apply bool_decide_eq_true in Hs. by rewrite decide_False by naive_solver.
Qed.

Lemma transform_refused r resp req :
  accepted codec resp = false → is_Some (res_err (transformResponse codec r resp req)).
Proof.
  unfold accepted, transformResponse. fold (status_in codec resp).
  destruct (success_code (rs_StatusCode resp)); cbn [orb]; [done|]. intros H.
  destruct (decide (rs_StatusCode resp = StatusSwitchingProtocols)) as [Hc|Hc].
  - rewrite bool_decide_true in H by done. rewrite decide_False by naive_solver.
    destruct (status_in codec resp) as [st|]; [|done]. apply bool_decide_eq_false in H.
    by rewrite decide_True.
  - rewrite decide_True by done. destruct (status_in codec resp); by eexists.
Qed.

(** ** Histories of the server *)

Lemma same_refl w : same w w.
Proof. done. Qed.

Lemma same_trans w1 w2 w3 : same w1 w2 → same w2 w3 → same w1 w3.
Proof. intros H1 H2 k. destruct (H1 k), (H2 k). split; congruence. Qed.

Lemma same_wrote k ing w1 w2 w3 : same w1 w2 → wrote k ing w2 w3 → wrote k ing w1 w3.
Proof.
  intros Hs (H1 & H2 & H3 & H4 & H5). unfold carried_out in *. cbn in *.
  destruct (Hs k) as [E1 E2]. cbn in E1, E2. split_and!; [congruence|congruence|done|lia|].
  intros k' Hk'. destruct (H5 k' Hk') as [-> ->]. apply (Hs k').
Qed.

(** ** Reading *)

Lemma get_answered ns name n w r w' r' sent out :
  answered bad_request client n w r w' r' sent out →
  good_key (ns, name) = true → r_verb r = lit "GET" → URL_String (GetURL r) = url ns name →
  same w w' ∧
  ∀ req resp ing, out = Ok (req, resp) → accepted codec resp = true →
    decode_Ingress (default [] (read_body resp)) = Ok ing → stored w (ns, name) = Some ing.
Proof.
  intros Ha Hk. induction Ha as [n w r e Hb|n w r w' rest e Hb Hc|n w r w' rest resp Hb Hc Hw
    |n w r w' rest resp seconds w'' r'' sent out Hb Hc Hw Hn Ha IH]; intros Hv Hu.
  - by split.
  - destruct (rl_get laws ns name w (http_of r) w' rest _ Hk Hv Hu Hc) as [Hs _]. by split.
  - destruct (rl_get laws ns name w (http_of r) w' rest _ Hk Hv Hu Hc) as [Hs Hok].
    split; [done|]. intros req resp' ing [= _ <-]. by apply Hok.
  - destruct (rl_get laws ns name w (http_of r) w' rest _ Hk Hv Hu Hc) as [Hs _].
    destruct IH as [Hs' Hok]; [done|by rewrite GetURL_set_body|]. split; [by eapply same_trans|].
    intros req resp' ing Ho Hacc Hd. rewrite <- (Hok req resp' ing Ho Hacc Hd).
    symmetry. apply (Hs (ns, name)).
Qed.

Lemma Get_request_ok ns name :
  good_key (ns, name) = true →
  r_err (ingress_Get_request printable c ns name) = None ∧
  request_check (ingress_Get_request printable c ns name) = None.
Proof.
  unfold good_key. intros [Hns Hn]%andb_true_iff. cbn in Hns, Hn.
  apply good_segment_inv in Hn as (Hn & _). apply good_segment_inv in Hns as (Hns & _).
  rewrite ingress_Get_request_eq by done. split; [done|]. unfold request_check. cbn.
  rewrite bool_decide_false; [done|]. destruct ns; [naive_solver|]. simpl. lia.
Qed.

Lemma rest_get_spec ns name w :
  good_key (ns, name) = true →
  same w (rest_get printable codec decode_Ingress bad_request client c ns name w).1 ∧
  ∀ ing, (rest_get printable codec decode_Ingress bad_request client c ns name w).2 = Ok ing →
    stored w (ns, name) = Some ing.
Proof.
  intros Hk. destruct (Get_request_ok ns name Hk) as [He Hc].
  unfold rest_get, ingress_Get, into, Do.
  destruct (request_answered bad_request client w _ Hc) as (w' & r' & sent & out & -> & Ha). cbn.
  destruct (get_answered ns name _ _ _ _ _ _ _ Ha Hk) as [Hs Hok].
  { rewrite ingress_Get_request_eq; [done|]. intros ->. by destruct (andb_true_iff (good_segment ns) false) as [[]]. }
  { done. }
  split; [done|]. intros ing. unfold Into. destruct out as [[req resp]|e]; [|done].
  destruct (accepted codec resp) eqn:Hacc.
  - rewrite transform_accepted by done. cbn. by apply (Hok req resp).
  - destruct (transform_refused (ingress_Get_request printable c ns name) resp req Hacc) as [e ->]. done.
Qed.
(** ** Writing *)

Lemma wait_not_accepted resp : wait_of resp = true → accepted codec resp = false.
Proof.
  unfold wait_of, checkWait, accepted. case_decide as Hc; [done|].
  unfold success_code. rewrite Hc. done.
Qed.

(** One attempt: with the whole body, or with a part that was left. *)
Lemma put_once ns ing data part w r w' rest ans :
  good_key (ns, ing_Name ing) = true → r_verb r = lit "PUT" → URL_String (GetURL r) = url ns (ing_Name ing) →
  ing_ResourceVersion ing ≠ [] → codec_Encode codec ing = Ok data → r_body r = Some part →
  part `suffix_of` data → client w (http_of r) = (w', rest, ans) →
  (same w w' ∨ wrote (ns, ing_Name ing) ing w w') ∧
  (∀ resp, ans = Ok resp → accepted codec resp = true → wrote (ns, ing_Name ing) ing w w') ∧
  (∀ resp, ans = Ok resp → wait_of resp = true → same w w').
Proof.
  intros Hk Hv Hu Hrv Henc Hbody Hpart Hc. destruct (decide (part = data)) as [->|Hne].
  - pose proof (rl_put laws ns ing data w (http_of r) w' rest ans Hk Hv Hu Hrv Henc Hbody Hc) as H.
    destruct ans as [resp|e]; [|split; [done|]; by split].
    pose proof (wait_not_accepted resp) as Hwait. split.
    + destruct (accepted codec resp); [by right|]. destruct (wait_of resp); [by left|done].
    + split; intros resp' [= <-] Hr; [by rewrite Hr in H|]. by rewrite (Hwait Hr), Hr in H.
  - destruct (rl_put_part laws ns ing data part w (http_of r) w' rest ans Hk Hv Hu Henc Hbody Hpart Hne Hc)
      as [Hs Hacc]. split; [by left|]. split; [|done]. intros resp Ha Hr. by rewrite (Hacc resp Ha) in Hr.
Qed.

Lemma put_answered ns ing data part n w r w' r' sent out :
  answered bad_request client n w r w' r' sent out →
  good_key (ns, ing_Name ing) = true → r_verb r = lit "PUT" → URL_String (GetURL r) = url ns (ing_Name ing) →
  ing_ResourceVersion ing ≠ [] → codec_Encode codec ing = Ok data → r_body r = Some part → part `suffix_of` data →
  (same w w' ∨ wrote (ns, ing_Name ing) ing w w') ∧
  ∀ req resp, out = Ok (req, resp) → accepted codec resp = true → wrote (ns, ing_Name ing) ing w w'.
Proof.
  intros Ha Hk. revert part. induction Ha as [n w r e Hb|n w r w' rest e Hb Hc|n w r w' rest resp Hb Hc Hw
    |n w r w' rest resp seconds w'' r'' sent out Hb Hc Hw Hn Ha IH]; intros part Hv Hu Hrv Henc Hbody Hpart.
  - split; [by left|done].
  - destruct (put_once ns ing data part w r w' rest _ Hk Hv Hu Hrv Henc Hbody Hpart Hc) as (H & _). by split.
  - destruct (put_once ns ing data part w r w' rest _ Hk Hv Hu Hrv Henc Hbody Hpart Hc) as (H & Hok & _).
    split; [done|]. intros req resp' [= _ <-]. by apply Hok.
  - destruct (put_once ns ing data part w r w' rest _ Hk Hv Hu Hrv Henc Hbody Hpart Hc) as (_ & _ & Hs).
    specialize (Hs resp eq_refl). unfold wait_of in Hs. rewrite Hw in Hs. specialize (Hs eq_refl).
    pose proof (rl_rest laws w (http_of r)) as Hr. rewrite Hc in Hr. cbn in Hr. rewrite Hbody in Hr. cbn in Hr.
    destruct (IH rest) as [Hor Hok]; [done|by rewrite GetURL_set_body|done|done| |by etransitivity|].
    { cbn. by rewrite Hbody. }
    split; [|intros req resp' Ho Hacc; eapply same_wrote; [done|by eapply Hok]].
    destruct Hor; [left; by eapply same_trans | right; by eapply same_wrote].
Qed.

Lemma Update_request_ok ns ing data :
  good_key (ns, ing_Name ing) = true → codec_Encode codec ing = Ok data →
  let r := ingress_Update_request printable codec read_file c ns ing in
  request_check r = None ∧ r_verb r = lit "PUT" ∧ r_body r = Some data ∧
  URL_String (GetURL r) = url ns (ing_Name ing).
Proof.
  unfold good_key. intros [Hns Hn]%andb_true_iff Henc. cbn in Hns, Hn. cbn zeta.
  apply good_segment_inv in Hn as (Hn & _). apply good_segment_inv in Hns as (Hns & _).
  assert (E : ingress_Update_request printable codec read_file c ns ing =
    mkRequest "PUT" (rc_baseURL c) (url_Path (rc_baseURL c)) [] None None ns true "ingress" (ing_Name ing) []
      (rc_Timeout c) (rc_apiVersion c) None (Some data)).
  { unfold ingress_Update_request. destruct (ing_Name ing) as [|x n]; [done|]. cbn. unfold SetBody, unless_err.
    cbn. by rewrite Henc. }
  rewrite E. split_and!; [|done|done|].
  - unfold request_check. cbn. rewrite bool_decide_false; [done|]. destruct ns; [naive_solver|]. simpl. lia.
  - unfold object_url. by rewrite ingress_Get_request_eq by done.
Qed.

Lemma Update_request_err ns ing e :
  good_key (ns, ing_Name ing) = true → codec_Encode codec ing = Err e →
  request_check (ingress_Update_request printable codec read_file c ns ing) = Some e.
Proof.
  unfold good_key. intros [Hns Hn]%andb_true_iff Henc. cbn in Hns, Hn.
  apply good_segment_inv in Hn as (Hn & _). unfold ingress_Update_request.
  destruct (ing_Name ing) as [|x n]; [done|]. cbn. unfold SetBody, unless_err. cbn. by rewrite Henc.
Qed.

Lemma rest_update_spec ns ing w :
  good_key (ns, ing_Name ing) = true → ing_ResourceVersion ing ≠ [] →
  let '(w', r) := rest_update printable codec decode_Ingress read_file bad_request client c ns ing w in
  match r with
  | Ok _ => wrote (ns, ing_Name ing) ing w w'
  | Err _ => same w w' ∨ wrote (ns, ing_Name ing) ing w w'
  end.
Proof.
  intros Hk Hrv. unfold rest_update, ingress_Update, into, Do.
  destruct (codec_Encode codec ing) as [data|e] eqn:Henc.
  - destruct (Update_request_ok ns ing data Hk Henc) as (Hc & Hv & Hb & Hu).
    destruct (request_answered bad_request client w _ Hc) as (w' & r' & sent & out & -> & Ha). cbn.
    destruct (put_answered ns ing data data _ _ _ _ _ _ _ Ha Hk Hv Hu Hrv Henc Hb) as [Hor Hok]; [done|].
    unfold Into. destruct out as [[req resp]|e]; [|done]. destruct (accepted codec resp) eqn:Hacc.
    + rewrite transform_accepted by done. cbn.
      destruct (decode_Ingress _); [by eapply Hok|right; by eapply Hok].
    + by destruct (transform_refused (ingress_Update_request printable codec read_file c ns ing) resp req Hacc)
        as [e ->].
  - unfold request. rewrite (Update_request_err ns ing e Hk Henc). cbn. by left.
Qed.

(** ** The promise of [IngressApi] *)

Lemma checked_laws : IngressAPILaws W err (IngressAPI0 := checked).
Proof.
  constructor; cbn [api_get api_update api_stored api_version api_rv checked_api].
  - apply (rl_rv_inj laws).
  - apply (rl_rv_not_empty laws).
  - apply (rl_key laws).
  - intros ns name w. unfold checked_get. destruct (good_key (ns, name)) eqn:Hk; [|done].
    apply (rest_get_spec ns name w Hk).
  - intros ns name w ing. unfold checked_get. destruct (good_key (ns, name)) eqn:Hk; [|done].
    apply (rest_get_spec ns name w Hk).
  - intros ns ing w ing' Hrv. unfold checked_update. destruct (good_key _) eqn:Hk; [|done].
    pose proof (rest_update_spec ns ing w Hk Hrv) as H. destruct (rest_update _ _ _ _ _ _ _ _ _ _) as [w' r].
    cbn. intros ->. done.
  - intros ns ing w e Hrv. unfold checked_update. destruct (good_key _) eqn:Hk; [|by left].
    pose proof (rest_update_spec ns ing w Hk Hrv) as H. destruct (rest_update _ _ _ _ _ _ _ _ _ _) as [w' r].
    cbn. intros ->. done.
Qed.

(** ** The receivers and the tool on this client *)

Context `{!ReceiverCodec}.

Lemma Update_agrees ns name rec w :
  good_key (ns, name) = true →
  Update (IngressAPI0 := real) name ns rec w = Update (IngressAPI0 := checked) name ns rec w.
Proof.
  intros Hk. unfold Update. cbn [api_get api_update rest_api checked_api]. unfold checked_get. rewrite Hk.
  destruct (rest_get_spec ns name w Hk) as [_ Hok]. destruct (rest_get _ _ _ _ _ _ _ _ _) as [w' [ing|e]]; [|done].
  cbn in Hok. destruct (rl_key laws _ _ _ (Hok ing eq_refl)) as (_ & Hn & _). cbn in Hn.
  destruct (edit (E := err) ing rec) as [[ing'|e]| |] eqn:He; try done. cbn.
  destruct (edit_key _ _ _ He) as (Hn' & _). unfold checked_update. by rewrite Hn', Hn, Hk.
Qed.

Lemma Get_agrees ns name w :
  good_key (ns, name) = true →
  Get (IngressAPI0 := real) name ns w = Get (IngressAPI0 := checked) name ns w.
Proof. intros Hk. unfold Get. cbn [api_get rest_api checked_api]. unfold checked_get. by rewrite Hk. Qed.

Lemma update_and_get_agrees {CErr} ns name rec w :
  good_key (ns, name) = true →
  update_and_get (IngressAPI0 := real) (CErr := CErr) ns name rec w =
  update_and_get (IngressAPI0 := checked) (CErr := CErr) ns name rec w.
Proof.
  intros Hk. unfold update_and_get. rewrite Update_agrees by done.
  destruct (Update _ _ _ _) as [[w' [[]|e]]| |]; try done.
  - by rewrite Get_agrees.
  - cbn [api_get rest_api checked_api]. unfold checked_get. by rewrite Hk.
Qed.

(** The Ingress the arguments name, if they name one, can exist. *)
Definition names_object (its : list item) : Prop :=
  ∀ ns name, split "/" (arg_ing (arguments_of its)) = [ns; name] → good_key (ns, name) = true.

(** the tool on the real client does what it does on a client that looks
    at the names first, for every name an Ingress can have: all that is proved
    of the tool against [IngressAPILaws] holds of it. *)
Theorem main_agrees {CErr} (connect : str → Overrides str bool → result CErr ()) its w :
  Forall (item_ok tool_world) its → names_object its →
  main (IngressAPI0 := real) connect (concat (render <$> its)) w =
  main (IngressAPI0 := checked) connect (concat (render <$> its)) w.
Proof.
  intros Hits Hn. erewrite !main_act; [|by apply run_start_static|by apply Parse_run
    |by apply run_start_static|by apply Parse_run].
  rewrite (arguments_at_run its Hits). unfold act.
  destruct (check_arguments (arguments_of its)) as [[[ns name] rec]| |] eqn:Hc; [|done..].
  apply check_arguments_inv in Hc as [Hs _]. destruct (connect [] no_overrides); [|done].
  by apply update_and_get_agrees, Hn.
Qed.

(** C10: end to end: a run of the tool that reports a list of receivers has, by
    its requests to the server, assigned the receiver of the command line in
    the list the server held, and reports what the server holds then, however
    often the server made it wait. *)
Theorem main_over_http `{!ReceiverCodecLaws} {CErr} (connect : str → Overrides str bool → result CErr ())
    its w w' rs :
  Forall (item_ok tool_world) its → names_object its → wf_receiver (receiver_of (arguments_of its)) →
  main (IngressAPI0 := real) connect (concat (render <$> its)) w = (w', Done rs) →
  ∃ ns name rs0,
    split "/" (arg_ing (arguments_of its)) = [ns; name] ∧
    receivers_of (IngressAPI0 := real) w (ns, name) = Some rs0 ∧
    rs = upsert rs0 (receiver_of (arguments_of its)) ∧
    receivers_of (IngressAPI0 := real) w' (ns, name) = Some rs.
Proof.
  intros Hits Hn Hwf. erewrite main_act; [|by apply run_start_static|by apply Parse_run].
  rewrite (arguments_at_run its Hits). unfold act.
  destruct (check_arguments (arguments_of its)) as [[[ns name] rec]| |] eqn:Hc; [|done..].
  apply check_arguments_inv in Hc as [Hs ->]. destruct (connect [] no_overrides); [|done].
  rewrite update_and_get_agrees by by apply Hn. intros Hd.
  apply (update_and_get_Done (IngressAPILaws0 := checked_laws) ns name _ w w' rs Hwf) in Hd as (rs0 & ? & ? & ?).
  by exists ns, name, rs0.
Qed.
End spec.

(** ** Witnesses *)

Lemma demo_base : Forall (λ s, good_segment s = true) (clean_segs (url_Path (rc_baseURL demo_rest))).
Proof. apply (bool_decide_unpack _). by vm_compute. Qed.

Module RestEx.
Definition printable (z : Z) : bool := (32 <=? z)%Z && (z <? 127)%Z.
Definition no_file (name : str) : result err str := Err (Text "no such file").
Definition fine (verb url : str) : option err := None.
Definition send : Client (nat * MapServer.server) := map_client printable demo_rest.
(** The tool on a server that asks the first two requests to wait. *)
Definition api : IngressAPI (nat * MapServer.server) err :=
  rest_api printable map_codec map_decode no_file fine send demo_rest map_stored map_version MapServer.rv.
Definition run (w : nat * MapServer.server) : (nat * MapServer.server) * outcome (E := err) (CErr := ()) :=
  main (IngressAPI0 := api) demo_connect (concat (render <$> demo_line)) w.
Definition laws : RestServerLaws printable map_codec map_decode no_file fine send demo_rest
  map_stored map_version MapServer.rv := map_laws printable demo_rest demo_base no_file fine.
Lemma names : names_object demo_line.
Proof.
  intros ns name. rewrite demo_arguments. change (split "/" (arg_ing _)) with [lit "default"; lit "web"].
  by intros [= <- <-].
Qed.
End RestEx.

Lemma main_agrees_witness :
  (RestEx.run (2, demo)).2 = Done [demo_rec "a.com" 443; demo_rec "b.com" 80] ∧
  RestEx.run (2, demo) = main (IngressAPI0 := checked_api RestEx.printable map_codec map_decode RestEx.no_file
    RestEx.fine RestEx.send demo_rest map_stored map_version MapServer.rv)
    demo_connect (concat (render <$> demo_line)) (2, demo).
Proof.
  split; [by vm_compute|].
  apply (main_agrees _ _ _ _ _ _ _ _ _ _ RestEx.laws demo_connect demo_line (2, demo) demo_line_ok RestEx.names).
Defined.

Lemma main_over_http_witness :
  ∃ rs0, receivers_of (IngressAPI0 := RestEx.api) (2, demo) (lit "default", lit "web") = Some rs0 ∧
    (RestEx.run (2, demo)).2 = Done (upsert rs0 (demo_rec "b.com" 80)).
Proof.
  destruct (RestEx.run (2, demo)) as [w' o] eqn:Hm.
  assert (o = Done [demo_rec "a.com" 443; demo_rec "b.com" 80]) as ->.
  { apply (f_equal snd) in Hm. simpl in Hm. rewrite <- Hm. vm_compute. reflexivity. }
  destruct (main_over_http _ _ _ _ _ _ _ _ _ _ RestEx.laws demo_connect demo_line (2, demo) w' _ demo_line_ok
    RestEx.names ltac:(rewrite demo_arguments; exact demo_rec_wf) Hm) as (ns & name & rs0 & H1 & H2 & H3 & _).
  rewrite demo_arguments in H1, H3. exists rs0. split; [|simpl; f_equal; exact H3].
  simpl in H1. change (split "/"%char (lit "default/web")) with [lit "default"; lit "web"] in H1.
  injection H1 as <- <-. exact H2.
Defined.
