(* ===== verification/ApiGroups.v ===== *)
(** * The groups of the API (api/util/group_version.go, api/registered,
      api/latest, the install packages)

    Each group of the API registers itself when the program starts, in the
    versions the environment allows. *)

From S2P Require Import Prelude GoStr Errors.

Local Open Scope go_scope.

(** ** A group and its version (group_version.go) *)

Definition GetVersion (groupVersion : str) : str := default [] (list.last (split "/" groupVersion)).

Definition GetGroup (groupVersion : str) : str :=
  match split "/" groupVersion with [_] => [] | group :: _ => group | [] => [] end.

Definition GetGroupVersion (group version : str) : str :=
  if decide (length group = 0) then version else group ++ lit "/" ++ version.

(** ** The versions that are registered (registered.go) *)

Definition validAPIVersions : list str := [lit "v1"; lit "extensions/v1beta1"].
Definition defaultSupportedVersions : str := "v1,extensions/v1beta1".

(** A codec is known by the version it encodes to. *)
Inductive codec := CodecFor (version : str).

Record GroupMeta := mkGroupMeta {
  gm_GroupVersion : str;
  gm_Version : str;
  gm_Group : str;
  gm_Versions : list str;
  gm_GroupVersions : list str;
  gm_Codec : option codec;
  gm_InterfacesFor : str → result err codec
}.

(** A call of a nil function panics; nothing calls the zero value. *)
Definition zero_GroupMeta : GroupMeta := mkGroupMeta [] [] [] [] [] None (λ _, Err (Text [])).

Abbreviation GroupMetaMap := (gmap str GroupMeta).

Section env.
(** How [%v] writes the two maps: the keys of one are in any order, and the
    values of the other are addresses. *)
Variable valid_text : str.
Variable groups_text : str.
(** KUBE_API_VERSIONS *)
Variable env : str.

Fixpoint register_versions (registered versions : list str) : control (list str) :=
  match versions with
  | [] => Return registered
  | version :: rest =>
      if decide (version ∈ validAPIVersions) then register_versions (registered ++ [version]) rest
      else Fatal (lit "invalid api version: " ++ version ++ lit " in KUBE_API_VERSIONS: " ++ env ++
        lit ". List of valid API versions: " ++ valid_text)
  end.

Definition registered_init : control (list str) :=
  register_versions [] (split "," (if decide (env = []) then defaultSupportedVersions else env)).

Definition IsRegisteredAPIVersion (registered : list str) (version : str) : bool :=
  existsb (λ v, bool_decide (v = version)) registered.

Definition GroupVersionsForGroup (registered : list str) (group : str) : list str :=
  filter (λ v, GetGroup v = group) registered.

(** ** The groups (latest.go) *)

Definition RegisterGroup (registered : list str) (group : str) (g : GroupMetaMap) : GroupMetaMap * option err :=
  match g !! group with
  | Some _ => (g, Some (Text (lit "group " ++ groups_text ++ lit " is already registered")))
  | None =>
      if decide (length (GroupVersionsForGroup registered group) = 0)
      then (g, Some (Text (lit "No version is registered for group " ++ group)))
      else (<[group := zero_GroupMeta]> g, None)
  end.

Definition Group (g : GroupMetaMap) (group : str) : result err GroupMeta :=
  match g !! group with
  | None => Err (Text (lit "no version is registered for group " ++ group))
  | Some groupMeta => Ok groupMeta
  end.

Definition IsRegistered (g : GroupMetaMap) (group : str) : bool := bool_decide (is_Some (g !! group)).

Definition GroupOrDie (g : GroupMetaMap) (group : str) : control GroupMeta :=
  let msg := lit "Please check the KUBE_API_VERSIONS environment variable." in
  match g !! group with
  | None =>
      if decide (group = []) then Panic (lit "The legacy v1 API is not registered. " ++ msg)
      else Panic (lit "No version is registered for group " ++ group ++ lit ". " ++ msg)
  | Some groupMeta => Return groupMeta
  end.

Definition AllPreferredGroupVersions (g : GroupMetaMap) : str :=
  join "," (sort_strings (gm_GroupVersion ∘ snd <$> map_to_list g)).

(** ** The install packages *)

(** [interfacesFor] of a group that knows the version [known]; the group is
    there when it is called. *)
Definition interfacesFor (known : str) (versions : list str) (version : str) : result err codec :=
  if decide (version = known) then Ok (CodecFor known)
  else Err (Text (lit "unsupported storage version: " ++ version ++ lit " (valid: " ++ join ", " versions ++ lit ")")).

Definition install (group known : str) (registered : list str) (g : GroupMetaMap) : GroupMetaMap :=
  match RegisterGroup registered group g with
  | (g, Some _) => g
  | (g, None) =>
      let registeredGroupVersions := GroupVersionsForGroup registered group in
      let groupVersion := default [] (head registeredGroupVersions) in
      let versions := GetVersion <$> reverse registeredGroupVersions in
      <[group := mkGroupMeta groupVersion (GetVersion groupVersion) (GetGroup groupVersion)
          versions (reverse registeredGroupVersions) (Some (CodecFor groupVersion))
          (interfacesFor known versions)]> g
  end.

Definition install_core : list str → GroupMetaMap → GroupMetaMap := install [] "v1".
Definition install_extensions : list str → GroupMetaMap → GroupMetaMap := install "extensions" "extensions/v1beta1".

(** The groups when the program has started. *)
Definition allGroups : control GroupMetaMap :=
  registered ← registered_init;
  Return (install_extensions registered (install_core registered ∅)).
End env.

Example allGroups_demo :
  (AllPreferredGroupVersions <$> match allGroups [] [] [] with Return g => Some g | _ => None end) =
    Some (lit "extensions/v1beta1,v1") ∧
  (AllPreferredGroupVersions <$> match allGroups [] [] "extensions/v1beta1" with Return g => Some g | _ => None end) =
    Some (lit "extensions/v1beta1") ∧
  allGroups [] [] "v2" =
    Fatal (lit "invalid api version: v2 in KUBE_API_VERSIONS: v2. List of valid API versions: ").
Proof. vm_compute. repeat split. Qed.
