(* ===== verification/ClientTransport.v ===== *)
(** * Making a client of a configuration (client/unversioned: helper.go,
      transport.go, experimental.go)

    The URL of the server, the transport with its layers that put credentials
    into requests, the store of the transports that share their TLS options,
    and the two clients of [New].  Certificates and pools are what they were
    made of.  Files, the parsing of key pairs, the authority of URLs and
    computations in floating point are parameters. *)

From S2P Require Import Prelude GoStr Utf8 Errors GoUrl GoUrlParse ApiGroups RateLimit KubeRequest.

Local Open Scope go_scope.

(** ** The configuration (helper.go) *)

Record TLSClientConfig := mkTLSClientConfig {
  tc_CertFile : str;
  tc_KeyFile : str;
  tc_CAFile : str;
  tc_CertData : str;
  tc_KeyData : str;
  tc_CAData : str
}.

Definition no_TLS : TLSClientConfig := mkTLSClientConfig [] [] [] [] [] [].

Record tls_Config := mkTlsConfig {
  tls_MinVersion10 : bool;
  tls_Certificates : list (str * str);
  (** [None] for the pools of the system *)
  tls_RootCAs : option str;
  tls_InsecureSkipVerify : bool
}.

(** A transport that was made has a number: two are the same only when their
    numbers are. *)
Inductive RoundTripper :=
  | DefaultTransport
  | TLSTransport (id : nat) (c : tls_Config)
  | CustomTransport (id : nat)
  | DebuggingRoundTripper (levels : list str) (rt : RoundTripper)
  | bearerAuthRoundTripper (bearer : str) (rt : RoundTripper)
  | basicAuthRoundTripper (username password : str) (rt : RoundTripper)
  | userAgentRoundTripper (agent : str) (rt : RoundTripper).

(** [F] is [float32]. *)
Record ClientConfig {F : Type} := mkClientConfig {
  cc_Host : str;
  cc_Prefix : str;
  cc_Version : str;
  cc_Codec : option codec;
  cc_Username : str;
  cc_Password : str;
  cc_BearerToken : str;
  cc_TLS : TLSClientConfig;
  cc_Insecure : bool;
  cc_UserAgent : str;
  cc_Transport : option RoundTripper;
  cc_WrapTransport : option (RoundTripper → RoundTripper);
  cc_QPS : F;
  cc_Burst : Z
}.
Arguments ClientConfig F : clear implicits.

(** What [RESTClientFor] makes: a client with its transport. *)
Record Connection := mkConnection {
  cn_baseURL : FullURL;
  cn_apiVersion : str;
  cn_codec : codec;
  cn_throttle : option Bucket;
  cn_transport : RoundTripper
}.

Record KubeClient := mkKubeClient {
  RESTClient_ : Connection;
  ExperimentalClient : option Connection
}.

Section config.
Context {F : Type}.
Implicit Types c : ClientConfig F.

Definition set_Prefix p c : ClientConfig F :=
  mkClientConfig F (cc_Host c) p (cc_Version c) (cc_Codec c) (cc_Username c) (cc_Password c)
    (cc_BearerToken c) (cc_TLS c) (cc_Insecure c) (cc_UserAgent c) (cc_Transport c) (cc_WrapTransport c) (cc_QPS c) (cc_Burst c).
Definition set_Version v c : ClientConfig F :=
  mkClientConfig F (cc_Host c) (cc_Prefix c) v (cc_Codec c) (cc_Username c) (cc_Password c)
    (cc_BearerToken c) (cc_TLS c) (cc_Insecure c) (cc_UserAgent c) (cc_Transport c) (cc_WrapTransport c) (cc_QPS c) (cc_Burst c).
Definition set_Codec k c : ClientConfig F :=
  mkClientConfig F (cc_Host c) (cc_Prefix c) (cc_Version c) (Some k) (cc_Username c) (cc_Password c)
    (cc_BearerToken c) (cc_TLS c) (cc_Insecure c) (cc_UserAgent c) (cc_Transport c) (cc_WrapTransport c) (cc_QPS c) (cc_Burst c).
Definition set_TLS t c : ClientConfig F :=
  mkClientConfig F (cc_Host c) (cc_Prefix c) (cc_Version c) (cc_Codec c) (cc_Username c) (cc_Password c)
    (cc_BearerToken c) t (cc_Insecure c) (cc_UserAgent c) (cc_Transport c) (cc_WrapTransport c) (cc_QPS c) (cc_Burst c).
Definition set_UserAgent a c : ClientConfig F :=
  mkClientConfig F (cc_Host c) (cc_Prefix c) (cc_Version c) (cc_Codec c) (cc_Username c) (cc_Password c)
    (cc_BearerToken c) (cc_TLS c) (cc_Insecure c) a (cc_Transport c) (cc_WrapTransport c) (cc_QPS c) (cc_Burst c).
Definition set_rate q b c : ClientConfig F :=
  mkClientConfig F (cc_Host c) (cc_Prefix c) (cc_Version c) (cc_Codec c) (cc_Username c) (cc_Password c)
    (cc_BearerToken c) (cc_TLS c) (cc_Insecure c) (cc_UserAgent c) (cc_Transport c) (cc_WrapTransport c) q b.

Definition hasCA c : bool := given (tc_CAFile (cc_TLS c)) || given (tc_CAData (cc_TLS c)).
Definition hasCert c : bool := given (tc_CertFile (cc_TLS c)) || given (tc_CertData (cc_TLS c)).
End config.

(** ** Requests through the layers (transport.go) *)

(** The transport that is reached, and the headers it is given.  A layer
    that adds a header sends a copy of the request. *)
Fixpoint RoundTrip (rt : RoundTripper) (h : Header) : RoundTripper * Header :=
  match rt with
  | DebuggingRoundTripper _ rt => RoundTrip rt h
  | bearerAuthRoundTripper bearer rt =>
      if given (Header_Get h "Authorization") then RoundTrip rt h
      else RoundTrip rt (Header_Set h "Authorization" (lit "Bearer " ++ bearer))
  | basicAuthRoundTripper username password rt =>
      if given (Header_Get h "Authorization") then RoundTrip rt h
      else RoundTrip rt (Header_Set h "Authorization" (lit "Basic " ++ base64 (username ++ lit ":" ++ password)))
  | userAgentRoundTripper agent rt =>
      if given (Header_Get h "User-Agent") then RoundTrip rt h
      else RoundTrip rt (Header_Set h "User-Agent" agent)
  | DefaultTransport | TLSTransport _ _ | CustomTransport _ => (rt, h)
  end.

(** ** The TLS options (transport.go) *)

Section connection.
Context {F : Type}.
Variable printable : Z → bool.
Variable parse_authority : str → result str (option str * str).
(** [ioutil.ReadFile], with the text of its error. *)
Variable read_file : str → result err str.
(** The error of [tls.X509KeyPair]. *)
Variable bad_key_pair : str → str → option err.
Implicit Types c : ClientConfig F.

(** [dataFromSliceOrFile] *)
Definition dataFromSliceOrFile (data file : str) : result err str :=
  if given data then Ok data
  else if given file then read_file file
  else Ok [].

(** It writes to the configuration it is given a pointer to. *)
Definition LoadTLSFiles c : ClientConfig F * option err :=
  let t := cc_TLS c in
  match dataFromSliceOrFile (tc_CertData t) (tc_CertFile t) with
  | Err e => (c, Some e)
  | Ok certData =>
      let t := mkTLSClientConfig (tc_CertFile t) (tc_KeyFile t) (tc_CAFile t) certData (tc_KeyData t) (tc_CAData t) in
      match dataFromSliceOrFile (tc_KeyData t) (tc_KeyFile t) with
      | Err e => (set_TLS t c, Some e)
      | Ok keyData =>
          let t := mkTLSClientConfig (tc_CertFile t) (tc_KeyFile t) (tc_CAFile t) certData keyData (tc_CAData t) in
          match dataFromSliceOrFile (tc_CAData t) (tc_CAFile t) with
          | Err e => (set_TLS t c, Some e)
          | Ok caData =>
              (set_TLS (mkTLSClientConfig (tc_CertFile t) (tc_KeyFile t) (tc_CAFile t) certData keyData caData) c, None)
          end
      end
  end.

Definition rootCertPool (caData : str) : option str := if decide (length caData = 0) then None else Some caData.

Definition NewClientCertTLSConfig (certData keyData caData : str) : result err tls_Config :=
  match bad_key_pair certData keyData with
  | Some e => Err e
  | None => Ok (mkTlsConfig true [(certData, keyData)] (rootCertPool caData) false)
  end.
Definition NewTLSConfig (caData : str) : result err tls_Config := Ok (mkTlsConfig true [] (rootCertPool caData) false).
Definition NewUnsafeTLSConfig : tls_Config := mkTlsConfig false [] None true.

(** [None] when no security is asked for. *)
Definition TLSConfigFor c : ClientConfig F * result err (option tls_Config) :=
  let ca := hasCA c in
  let cert := hasCert c in
  if ca && cc_Insecure c then
    (c, Err (Text "specifying a root certificates file with the insecure flag is not allowed"))
  else
    match LoadTLSFiles c with
    | (c, Some e) => (c, Err e)
    | (c, None) =>
        let t := cc_TLS c in
        (c, if cert then Some <$> NewClientCertTLSConfig (tc_CertData t) (tc_KeyData t) (tc_CAData t)
            else if ca then Some <$> NewTLSConfig (tc_CAData t)
            else if cc_Insecure c then Ok (Some NewUnsafeTLSConfig)
            else Ok None)
    end.

Definition tlsKey (insecure : bool) (caData certData keyData : str) : str :=
  format_bool insecure ++ lit "/" ++ hex caData ++ lit "/" ++ hex certData ++ lit "/" ++ hex keyData.

Definition tlsConfigKey c : ClientConfig F * result err str :=
  match LoadTLSFiles c with
  | (c, Some e) => (c, Err e)
  | (c, None) =>
      let t := cc_TLS c in (c, Ok (tlsKey (cc_Insecure c) (tc_CAData t) (tc_CertData t) (tc_KeyData t)))
  end.

(** ** The transports that are shared (helper.go) *)

(** [tlsTransports], and how many transports were made. *)
Record TransportStore := mkTransportStore {
  tlsTransports : gmap str (nat * tls_Config);
  made : nat
}.
Definition no_transports : TransportStore := mkTransportStore ∅ 0.

Definition tlsTransportFor c (s : TransportStore) : TransportStore * ClientConfig F * result err RoundTripper :=
  match tlsConfigKey c with
  | (c, Err e) => (s, c, Err e)
  | (c, Ok key) =>
      match tlsTransports s !! key with
      | Some (id, t) => (s, c, Ok (TLSTransport id t))
      | None =>
          match TLSConfigFor c with
          | (c, Err e) => (s, c, Err e)
          | (c, Ok None) => (s, c, Ok DefaultTransport)
          | (c, Ok (Some t)) =>
              (mkTransportStore (<[key := (made s, t)]> (tlsTransports s)) (S (made s)), c, Ok (TLSTransport (made s) t))
          end
      end
  end.

Definition HTTPWrappersForConfig c (rt : RoundTripper) : result err RoundTripper :=
  let hasBasicAuth := given (cc_Username c) || given (cc_Password c) in
  if hasBasicAuth && given (cc_BearerToken c)
  then Err (Text "username/password or bearer token may be set, but not both")
  else
    let rt := if given (cc_BearerToken c) then bearerAuthRoundTripper (cc_BearerToken c) rt
      else if hasBasicAuth then basicAuthRoundTripper (cc_Username c) (cc_Password c) rt
      else rt in
    Ok (if given (cc_UserAgent c) then userAgentRoundTripper (cc_UserAgent c) rt else rt).

(** The verbosity of the log. *)
Variable verbosity : Z.

Definition debugging (rt : RoundTripper) : RoundTripper :=
  if (9 <=? verbosity)%Z then DebuggingRoundTripper [lit "curlcommand"; lit "urltiming"; lit "responseheaders"] rt
  else if (8 <=? verbosity)%Z then
    DebuggingRoundTripper [lit "url"; lit "requestheaders"; lit "responsestatus"; lit "responseheaders"] rt
  else if (7 <=? verbosity)%Z then DebuggingRoundTripper [lit "url"; lit "requestheaders"; lit "responsestatus"] rt
  else if (6 <=? verbosity)%Z then DebuggingRoundTripper [lit "urltiming"] rt
  else rt.

Definition TransportFor c (s : TransportStore) : TransportStore * result err RoundTripper :=
  match cc_Transport c with
  | Some transport =>
      (s, if hasCA c || hasCert c || cc_Insecure c then
            Err (Text "using a custom transport with TLS certificate options or the insecure flag is not allowed")
          else HTTPWrappersForConfig c (debugging (default id (cc_WrapTransport c) transport)))
  | None =>
      let '(s, c, r) := tlsTransportFor c s in
      (s, transport ← r; HTTPWrappersForConfig c (debugging (default id (cc_WrapTransport c) transport)))
  end.

(** ** The URL of the server (helper.go) *)

#[local] Abbreviation parse_url := (ParseURL printable parse_authority).

Definition DefaultServerURL (host prefix version : str) (defaultTLS : bool) : result err FullURL :=
  if decide (host = []) then Err (Text "host must be a URL or a host:port pair")
  else
    hostURL ← parse_url host;
    hostURL ←
      (if decide (fu_Scheme hostURL = []) then
         hostURL ← parse_url ((if defaultTLS then lit "https://" else lit "http://") ++ host);
         if decide (fu_Path hostURL ≠ [] ∧ fu_Path hostURL ≠ lit "/")
         then Err (Text (lit "host must be a URL or a host:port pair: " ++ Quote printable host))
         else Ok hostURL
       else Ok hostURL);
    let hostURL :=
      if decide (fu_Path hostURL = []) then set_full_path (if decide (prefix = []) then lit "/" else prefix) hostURL
      else hostURL in
    Ok (set_full_path (path_join [fu_Path hostURL; version]) hostURL).

Definition defaultServerUrlFor c : result err FullURL :=
  let defaultTLS := hasCA c || hasCert c || cc_Insecure c in
  DefaultServerURL (if decide (cc_Host c = []) then lit "localhost" else cc_Host c)
    (cc_Prefix c) (cc_Version c) defaultTLS.

Variable groups : GroupMetaMap.

Definition defaultVersionFor c : control str :=
  if decide (cc_Version c = []) then g ← GroupOrDie groups []; Return (gm_Version g) else Return (cc_Version c).

Definition IsConfigTransportTLS c : control bool :=
  version ← defaultVersionFor c;
  Return (match defaultServerUrlFor (set_Version version c) with
          | Err _ => false
          | Ok baseURL => bool_decide (fu_Scheme baseURL = lit "https")
          end).

(** ** The clients *)

(** The program: [os.Args[0]], its version and commit, and its platform. *)
Variable args0 gitVersion gitCommit GOOS GOARCH : str.

Definition DefaultKubernetesUserAgent : str :=
  let commit := firstn 7 gitCommit in
  let commit := if decide (length commit = 0) then lit "unknown" else commit in
  base args0 ++ lit "/" ++ default [] (head (split "-" gitVersion)) ++ lit " (" ++ GOOS ++ lit "/" ++ GOARCH ++
  lit ") kubernetes/" ++ commit.

(** [float32]: the test for zero, five, and the limiter of a rate. *)
Variable is_zero positive : F → bool.
Variable five : F.
Variable NewTokenBucketRateLimiter : F → Z → control Bucket.

Definition default_rate c : ClientConfig F :=
  set_rate (if is_zero (cc_QPS c) then five else cc_QPS c) (if decide (cc_Burst c = 0%Z) then 10%Z else cc_Burst c) c.
Definition default_agent c : ClientConfig F :=
  if given (cc_UserAgent c) then c else set_UserAgent DefaultKubernetesUserAgent c.

Definition SetKubernetesDefaults c : control (result err (ClientConfig F)) :=
  let c := if decide (cc_Prefix c = []) then set_Prefix "/api" c else c in
  let c := default_agent c in
  version ← defaultVersionFor c;
  let c := set_Version version c in
  g ← GroupOrDie groups [];
  Return (match gm_InterfacesFor g version with
          | Err _ => Err (Text (lit "API version '" ++ version ++ lit "' is not recognized (valid values: " ++
              join ", " (gm_Versions g) ++ lit ")"))
          | Ok codec => Ok (default_rate (match cc_Codec c with None => set_Codec codec c | Some _ => c end))
          end).

Definition setExperimentalDefaults c : result err (ClientConfig F) :=
  g ← Group groups "extensions";
  let c := default_agent (set_Prefix "apis/" c) in
  let c := set_Version (gm_GroupVersion g) c in
  match gm_InterfacesFor g (cc_Version c) with
  | Err _ => Err (Text (lit "Experimental API version '" ++ cc_Version c ++ lit "' is not recognized (valid values: " ++
      join ", " (gm_Versions g) ++ lit ")"))
  | Ok codec => Ok (default_rate (set_Codec codec c))
  end.

(** [NewRESTClient]: the base ends with a slash, and has no query. *)
Definition base_of (baseURL : FullURL) : FullURL :=
  let path := if has_suffix_slash (fu_Path baseURL) then fu_Path baseURL else fu_Path baseURL ++ lit "/" in
  mkFull (fu_Scheme baseURL) (fu_Opaque baseURL) (fu_User baseURL) (fu_Host baseURL) path (fu_RawPath baseURL) [] [].

Definition RESTClientFor c (s : TransportStore) : TransportStore * control (result err Connection) :=
  if decide (length (cc_Version c) = 0) then (s, Return (Err (Text "version is required when initializing a RESTClient")))
  else
    match cc_Codec c with
    | None => (s, Return (Err (Text "Codec is required when initializing a RESTClient")))
    | Some codec =>
        match defaultServerUrlFor c with
        | Err e => (s, Return (Err e))
        | Ok baseURL =>
            match (if positive (cc_QPS c) then b ← NewTokenBucketRateLimiter (cc_QPS c) (cc_Burst c); Return (Some b)
                   else Return None) with
            | Panic why => (s, Panic why)
            | Fatal m => (s, Fatal m)
            | Return throttle =>
                let '(s, r) := TransportFor c s in
                (s, Return (transport ← r;
                            Ok (mkConnection (base_of baseURL) (cc_Version c) codec throttle transport)))
            end
        end
    end.

Definition NewExperimental c (s : TransportStore) : TransportStore * control (result err Connection) :=
  match setExperimentalDefaults c with
  | Err e => (s, Return (Err e))
  | Ok config => RESTClientFor config s
  end.

Definition New c (s : TransportStore) : TransportStore * control (result err KubeClient) :=
  match SetKubernetesDefaults c with
  | Panic why => (s, Panic why)
  | Fatal m => (s, Fatal m)
  | Return (Err e) => (s, Return (Err e))
  | Return (Ok config) =>
      match RESTClientFor config s with
      | (s, Return (Ok client)) =>
          match Group groups "extensions" with
          | Err _ => (s, Return (Ok (mkKubeClient client None)))
          | Ok _ =>
              match NewExperimental c s with
              | (s, Return (Ok experimental)) => (s, Return (Ok (mkKubeClient client (Some experimental))))
              | (s, Return (Err e)) => (s, Return (Err e))
              | (s, Panic why) => (s, Panic why)
              | (s, Fatal m) => (s, Fatal m)
              end
          end
      | (s, Return (Err e)) => (s, Return (Err e))
      | (s, Panic why) => (s, Panic why)
      | (s, Fatal m) => (s, Fatal m)
      end
  end.
End connection.

(** ** The client a connection gives to the requests *)

(** A URL without opaque part, user and escapes of its own, for the requests
    of [KubeRequest]. *)
Definition rest_client (cn : Connection) : option RESTClient :=
  let u := cn_baseURL cn in
  if decide (fu_Opaque u = [] ∧ fu_User u = None ∧ fu_RawPath u = [])
  then Some (NewRESTClient (mkURL (fu_Scheme u) (fu_Host u) (fu_Path u) []) (cn_apiVersion cn))
  else None.

(** ** Agreeing on a version (helper.go) *)

(** The group versions of a list of groups. *)
Definition extractGroupVersions (groups : list (list str)) : list str := concat groups.

Section negotiate.
(** How [%v] writes a set of strings, whose order is any. *)
Variable set_text : list str → str.

(** The first version of the client that the server has. *)
Definition first_supported (serverVersions clientRegisteredVersions : list str) : result err str :=
  match list_find (λ v, v ∈ serverVersions) clientRegisteredVersions with
  | Some (_, clientVersion) => Ok clientVersion
  | None => Err (Text (lit "Failed to negotiate an api version. Server supports: " ++ set_text serverVersions ++
      lit ". Client supports: [" ++ join " " clientRegisteredVersions ++ lit "]."))
  end.

(** With the answer of the server, the version of the configuration, and the
    one that is asked for. *)
Definition NegotiateVersion (ServerAPIVersions : result err (list str)) (c_Version version : str)
    (clientRegisteredVersions : list str) : result err str :=
  match ServerAPIVersions with
  | Err e => Err (Text (lit "couldn't read version from server: " ++ Error e))
  | Ok serverVersions =>
      let version := if decide (length version = 0) then c_Version else version in
      if decide (length version = 0) then first_supported serverVersions clientRegisteredVersions
      else if decide (version ∉ clientRegisteredVersions) then
        Err (Text (lit "Client does not support API version '" ++ version ++
          lit "'. Client supported API versions: " ++ set_text clientRegisteredVersions))
      else if decide (version ∈ serverVersions) then Ok version
      else if decide (version = c_Version) then
        Err (Text (lit "Server does not support API version '" ++ version ++ lit "'."))
      else first_supported serverVersions clientRegisteredVersions
  end.
End negotiate.
