(* ===== verification/ClientTransportSpec.v ===== *)
(** * The clients that are made (proofs about [ClientTransport])

    Where the URL of the server comes from, which requests carry credentials,
    which transports are shared, and the URL of an Ingress of a client that
    [New] makes. *)

From S2P Require Import Prelude GoStr Utf8 Errors GoUrl GoUrlSpec GoUrlParse ApiGroups RateLimit KubeRequest KubeRequestSpec ClientTransport.

Local Open Scope go_scope.

Lemma given_spec s : given s = bool_decide (s ≠ []).
Proof. by destruct s. Qed.

(** ** Parsing the URLs of servers *)

Lemma cut_at_none c b s : c ∉ s → cut_at c b s = (s, []).
Proof. intros H. unfold cut_at. by rewrite (proj2 (index_byte_None c s) H). Qed.

(** The names that look like a scheme. *)
Definition scheme_name (s : str) : Prop :=
  match s with
  | c :: t => is_letter c = true ∧ Forall (λ c, is_letter c || is_scheme_char c = true) t
  | [] => False
  end.

Lemma scheme_char_bytes c : implb (is_letter c || is_scheme_char c) (bool_decide (c ∉ [":"; "#"; "?"; "/"; "*"]%char)) = true.
Proof. by_bytes c. Qed.

Lemma getscheme_at_name i name rest raw :
  i ≠ 0 → Forall (λ c, is_letter c || is_scheme_char c = true) name →
  getscheme_at i (name ++ ":"%char :: rest) raw = Ok (firstn (i + length name) raw, rest).
Proof.
  intros Hi Hn. revert i Hi. induction Hn as [|c name Hc Hn IH]; intros i Hi.
  - simpl app. cbn [getscheme_at]. rewrite Nat.add_0_r.
    change (is_letter ":") with false. change (is_scheme_char ":") with false. cbv iota.
    by rewrite decide_True, decide_False.
  - cbn [app getscheme_at length]. rewrite Nat.add_succ_r, <- Nat.add_succ_l.
    destruct (is_letter c); [by apply IH|]. simpl in Hc. rewrite Hc, decide_False by done. by apply IH.
Qed.

Lemma getscheme_name name rest : scheme_name name → getscheme (name ++ ":"%char :: rest) = Ok (name, rest).
Proof.
  destruct name as [|c name]; [done|]. intros [Hc Hn]. unfold getscheme.
  cbn [app getscheme_at]. rewrite Hc, getscheme_at_name by done.
  f_equal. f_equal. cbn [length Nat.add firstn]. by rewrite firstn_app, firstn_all, Nat.sub_diag, app_nil_r.
Qed.

Lemma plain_bytes c :
  implb (url_unreserved c || bool_decide (c = ":"%char)) (bool_decide (c ∉ ["/"; "#"; "?"]%char)) = true.
Proof. by_bytes c. Qed.

Lemma plain_host_bytes h : plain_host h = true → h ≠ [] ∧ "/"%char ∉ h ∧ "#"%char ∉ h ∧ "?"%char ∉ h.
Proof.
  intros [Hne Hh]%andb_true_iff. apply bool_decide_eq_true in Hne. split; [done|].
  rewrite forallb_forall in Hh.
  assert (∀ c, c ∈ h → c ∉ ["/"; "#"; "?"]%char) as H.
  { intros c Hc%list_elem_of_In%Hh. pose proof (plain_bytes c) as Hp. rewrite Hc in Hp.
    by apply bool_decide_eq_true in Hp. }
  repeat split; intros Hc%H; set_solver.
Qed.

(** The schemes of servers. *)
Definition web (scheme : str) : Prop := scheme = lit "http" ∨ scheme = lit "https".

Lemma web_parts scheme :
  web scheme → scheme_name scheme ∧ to_lower scheme = scheme ∧ scheme ≠ [] ∧ "#"%char ∉ scheme ∧
  ∀ s, scheme ++ s ≠ lit "*".
Proof.
  intros [-> | ->]; (split; [split; [done|by repeat constructor]|]); repeat split; try done; set_solver.
Qed.

Section servers.
Variable printable : Z → bool.
Variable parse_authority : str → result str (option str * str).
Variable escape_host : str → str.
#[local] Abbreviation parse_url := (ParseURL printable parse_authority).

Hypothesis laws : AuthorityLaws parse_authority escape_host.

Lemma parse_uri_server viaRequest scheme h :
  web scheme → plain_host h = true →
  parse_uri printable parse_authority viaRequest (scheme ++ lit "://" ++ h) = Ok (mkFull scheme [] None h [] [] [] []).
Proof.
  intros Hs Hh. pose proof (web_parts scheme Hs) as (Hn & Hl & Hne & Hf & Hstar).
  pose proof (plain_host_bytes h Hh) as (Hh0 & Hsl & Hfr & Hq).
  unfold parse_uri. rewrite bool_decide_false by (destruct scheme; [done|by intros [= ?]]). cbn [andb].
  rewrite decide_False by done. change (scheme ++ lit "://" ++ h) with (scheme ++ ":"%char :: lit "//" ++ h).
  rewrite getscheme_name by done. cbn [mbind result_bind].
  rewrite cut_at_none by set_solver. rewrite Hl. unfold parse_rest.
  change (is_rooted (lit "//" ++ h)) with true. change (has_prefix "//" (lit "//" ++ h)) with true.
  rewrite bool_decide_true by done. cbn [negb andb orb]. change (drop 2 (lit "//" ++ h)) with h.
  rewrite cut_at_none by done. by rewrite (al_parse laws h Hh).
Qed.

Lemma parse_server scheme h :
  web scheme → plain_host h = true →
  parse_url (scheme ++ lit "://" ++ h) = Ok (mkFull scheme [] None h [] [] [] []).
Proof.
  intros Hs Hh. pose proof (web_parts scheme Hs) as (_ & _ & _ & Hf & _).
  pose proof (plain_host_bytes h Hh) as (_ & _ & Hfr & _).
  unfold ParseURL. rewrite cut_at_none by set_solver. by rewrite parse_uri_server.
Qed.

(** A host with a scheme in front is its own URL; one that begins like a
    scheme is taken for a URL whose scheme is the host. *)
Lemma parse_opaque name port :
  scheme_name name → port ≠ [] → "/"%char ∉ port → "#"%char ∉ port → "?"%char ∉ port →
  parse_url (name ++ ":"%char :: port) = Ok (mkFull (to_lower name) port None [] [] [] [] []).
Proof.
  intros Hn Hp Hsl Hf Hq.
  assert (Hc : ∀ c, c ∈ name → c ∉ [":"; "#"; "?"; "/"; "*"]%char).
  { intros c Hc. pose proof (scheme_char_bytes c) as Hb. destruct name as [|d t]; [done|].
    destruct Hn as [Hd Ht]. rewrite list.Forall_forall in Ht.
    apply elem_of_cons in Hc as [->|Hc]; [rewrite Hd in Hb|rewrite (Ht c Hc) in Hb];
      by apply bool_decide_eq_true in Hb. }
  assert (Hne : name ≠ []) by by destruct name.
  unfold ParseURL. rewrite cut_at_none.
  2:{ rewrite elem_of_app, elem_of_cons. intros [H%Hc|[?|?]]; [set_solver|done|done]. }
  unfold parse_uri. rewrite andb_false_r.
  rewrite decide_False by (destruct name as [|d [|]]; [done|simpl; by intros [= _ ?]|done]).
  rewrite getscheme_name by done. cbn [mbind result_bind]. rewrite cut_at_none by done. unfold parse_rest.
  assert (is_rooted port = false) as ->.
  { destruct port as [|d port]; [done|]. simpl. apply bool_decide_eq_false. set_solver. }
  rewrite bool_decide_true by (by destruct name). done.
Qed.

(** A name or an address without a scheme: a name without a port, or what
    begins with a digit. *)
Definition bare_host (h : str) : Prop :=
  plain_host h = true ∧ (":"%char ∉ h ∨ match h with c :: _ => is_digit c = true | [] => False end).

Lemma digit_not_letter c : implb (is_digit c) (negb (is_letter c) && is_scheme_char c) = true.
Proof. by_bytes c. Qed.

Lemma getscheme_bare h : bare_host h → getscheme h = Ok ([], h).
Proof.
  intros [_ [Hc|Hd]]; unfold getscheme.
  - generalize 0 as i. generalize h at 2 3 as raw. induction h as [|c h IH]; intros raw i; [done|].
    cbn [getscheme_at]. assert (":"%char ∉ h) by set_solver.
    destruct (is_letter c); [by apply IH|]. destruct (is_scheme_char c); [case_decide; [done|by apply IH]|].
    rewrite decide_False by set_solver. done.
  - destruct h as [|c h]; [done|]. cbn [getscheme_at]. pose proof (digit_not_letter c) as Hb. rewrite Hd in Hb.
    apply andb_true_iff in Hb as [Hl ->]. apply negb_true_iff in Hl as ->. done.
Qed.

Lemma percent_bytes c : implb (url_unreserved c || bool_decide (c = ":"%char)) (bool_decide (c ≠ "%"%char)) = true.
Proof. by_bytes c. Qed.

Lemma unescape_plain h : "%"%char ∉ h → unescape h = Ok h.
Proof.
  induction h as [|c h IH]; [done|]. intros Hc. cbn [unescape]. rewrite decide_False by set_solver.
  by rewrite IH by set_solver.
Qed.

Lemma plain_no_percent h : plain_host h = true → "%"%char ∉ h.
Proof.
  intros [_ Hh]%andb_true_iff Hc. rewrite forallb_forall in Hh. apply list_elem_of_In, Hh in Hc. done.
Qed.

Lemma parse_bare h : bare_host h → ∃ u, parse_url h = Ok u ∧ fu_Scheme u = [].
Proof.
  intros Hb. pose proof (getscheme_bare h Hb) as Hg. destruct Hb as [Hh _].
  pose proof (plain_host_bytes h Hh) as (Hne & Hsl & Hfr & Hq).
  unfold ParseURL. rewrite cut_at_none by done. unfold parse_uri. rewrite andb_false_r.
  destruct (decide (h = lit "*")) as [->|_]; [done|]. rewrite Hg. cbn [mbind result_bind].
  rewrite cut_at_none by done. unfold parse_rest.
  assert (is_rooted h = false) as Hr.
  { destruct h as [|d h]; [done|]. simpl. apply bool_decide_eq_false. set_solver. }
  assert (has_prefix "//" h = false) as Hp.
  { apply not_true_iff_false. rewrite has_prefix_spec. intros [t ->]. set_solver. }
  rewrite Hr, Hp, !andb_false_r. cbn [negb andb mbind result_bind].
  rewrite (unescape_plain h) by by apply plain_no_percent. eexists. split; [reflexivity|done].
Qed.

(** ** The URL of the server *)

#[local] Abbreviation server_url := (DefaultServerURL printable parse_authority).

(** The path for the version below the prefix. *)
Definition api_path (prefix version : str) : str := path_join [if decide (prefix = []) then lit "/" else prefix; version].

Lemma server_url_web scheme h prefix version tls :
  web scheme → plain_host h = true →
  server_url (scheme ++ lit "://" ++ h) prefix version tls =
    Ok (mkFull scheme [] None h (api_path prefix version) [] [] []).
Proof.
  intros Hs Hh. unfold DefaultServerURL.
  pose proof (web_parts scheme Hs) as (_ & _ & Hne & _).
  rewrite decide_False by (intros E; apply app_nil in E as [E _]; exact (Hne E)).
  rewrite parse_server by done. cbn [mbind result_bind fu_Scheme].
  by rewrite (decide_False (P := scheme = [])) by done.
Qed.

Lemma server_url_bare h prefix version tls :
  bare_host h →
  server_url h prefix version tls =
    Ok (mkFull (if tls then "https" else "http") [] None h (api_path prefix version) [] [] []).
Proof.
  intros Hb. pose proof (proj1 Hb) as Hh. unfold DefaultServerURL.
  rewrite decide_False by by destruct (plain_host_bytes h Hh).
  destruct (parse_bare h Hb) as (u & -> & Hu). cbn [mbind result_bind]. rewrite (decide_True (P := fu_Scheme u = [])) by done.
  assert (parse_url ((if tls then lit "https://" else lit "http://") ++ h) =
    Ok (mkFull (if tls then "https" else "http") [] None h [] [] [] [])) as ->.
  { destruct tls; [apply (parse_server "https")|apply (parse_server "http")]; unfold web; auto. }
  cbn [mbind result_bind fu_Path]. by rewrite (decide_False (P := _ ∧ _)) by naive_solver.
Qed.

(** the URL of the server: a URL keeps its scheme; a name, or an address with
    or without a port, gets [https] when the configuration has a certificate,
    an authority or asks for no verification, and [http] otherwise; either has
    the version below the prefix as its path. *)
Theorem DefaultServerURL_spec (scheme h prefix version : str) (tls : bool)
    (Hs : web scheme) (Hh : plain_host h = true) :
  server_url (scheme ++ lit "://" ++ h) prefix version tls =
    Ok (mkFull scheme [] None h (api_path prefix version) [] [] []) ∧
  (bare_host h → server_url h prefix version tls =
    Ok (mkFull (if tls then "https" else "http") [] None h (api_path prefix version) [] [] [])).
Proof. split; [by apply server_url_web|apply server_url_bare]. Qed.

(** a name with a port is not a host to it: the name is taken for the scheme
    and the port for what the scheme refers to, so that no request will go to
    that server. *)
Theorem host_port_is_opaque (name port prefix version : str) (tls : bool)
    (Hn : scheme_name name) (Hp : port ≠ []) (Hd : Forall (λ c, is_digit c = true) port) :
  ∃ u, server_url (name ++ ":"%char :: port) prefix version tls = Ok u ∧
    fu_Host u = [] ∧ Full_String escape_host u = to_lower name ++ ":"%char :: port.
Proof.
  assert (Hc : ∀ c, is_digit c = false → c ∉ port).
  { intros c Hc Hin. rewrite list.Forall_forall in Hd. by rewrite (Hd c Hin) in Hc. }
  assert (Hl : ∃ a l, to_lower name = a :: l) by (destruct name; [done|by eexists _, _]).
  destruct Hl as (a & l & Hl). exists (mkFull (a :: l) port None [] (api_path prefix version) [] [] []). split.
  - unfold DefaultServerURL. rewrite decide_False by by destruct name.
    rewrite parse_opaque by (done || by apply Hc). cbn [mbind result_bind fu_Scheme].
    by rewrite Hl, (decide_False (P := a :: l = [])) by done.
  - split; [done|]. rewrite Hl. unfold Full_String. cbn. destruct port; [done|]. by rewrite app_nil_r, <- app_assoc.
Qed.
End servers.

(** ** The groups of the environment *)

Lemma register_versions_valid vt env l l' r :
  Forall (λ v, v ∈ validAPIVersions) l → register_versions vt env l l' = Return r →
  Forall (λ v, v ∈ validAPIVersions) r.
Proof.
  revert l. induction l' as [|v l' IH]; intros l Hl; cbn [register_versions]; [by intros [= <-]|].
  case_decide; [|done]. apply IH. apply list.Forall_app. split; [done|]. by apply list.Forall_singleton.
Qed.

Lemma install_other registered gt g group group' known :
  group' ≠ group → install gt group known registered g !! group' = g !! group'.
Proof.
  intros Hne. unfold install, RegisterGroup. destruct (g !! group); [done|]. case_decide; [done|].
  by rewrite !lookup_insert_ne by done.
Qed.

Lemma install_extensions_version gt registered g m :
  Forall (λ v, v ∈ validAPIVersions) registered → g !! lit "extensions" = None →
  install_extensions gt registered g !! lit "extensions" = Some m → gm_GroupVersion m = lit "extensions/v1beta1".
Proof.
  intros Hr Hg. unfold install_extensions, install, RegisterGroup. rewrite Hg. case_decide as Hl; [by rewrite Hg|].
  rewrite lookup_insert_eq. intros [= <-].
  change (default [] (list.head (GroupVersionsForGroup registered "extensions")) = lit "extensions/v1beta1").
  destruct (GroupVersionsForGroup registered "extensions") as [|v l] eqn:E; [done|].
  assert (Hv : v ∈ GroupVersionsForGroup registered "extensions") by (rewrite E; left).
  unfold GroupVersionsForGroup in Hv. apply list_elem_of_filter in Hv as [Hv Hin].
  rewrite list.Forall_forall in Hr. apply Hr in Hin. unfold validAPIVersions in Hin.
  apply elem_of_cons in Hin as [->|Hin]; [by vm_compute in Hv|].
  apply list_elem_of_singleton in Hin as ->. done.
Qed.

(** The extensions are served in one version. *)
Lemma allGroups_extensions vt gt env g m :
  allGroups vt gt env = Return g → Group g "extensions" = Ok m → gm_GroupVersion m = lit "extensions/v1beta1".
Proof.
  unfold allGroups. destruct (registered_init vt env) as [r| |] eqn:Hr; [|done..]. intros [= <-].
  unfold Group. destruct (install_extensions _ _ _ !! _) as [m'|] eqn:Hm; [|done]. intros [= <-].
  eapply (install_extensions_version gt r (install_core gt r ∅)); [|unfold install_core; by rewrite install_other|exact Hm].
  eapply register_versions_valid; [constructor|exact Hr].
Qed.

(** ** The clients of [New] *)

Section clients.
Context {F : Type}.
Variable printable : Z → bool.
Variable parse_authority : str → result str (option str * str).
Variable escape_host : str → str.
Variable read_file : str → result err str.
Variable bad_key_pair : str → str → option err.
Variable verbosity : Z.
Variable groups : gmap str GroupMeta.
Variable args0 gitVersion gitCommit GOOS GOARCH : str.
Variable is_zero positive : F → bool.
Variable five : F.
Variable limiter : F → Z → control Bucket.
Implicit Types c : ClientConfig F.
#[local] Abbreviation rest_for :=
  (RESTClientFor printable parse_authority read_file bad_key_pair verbosity positive limiter).
#[local] Abbreviation core_defaults :=
  (SetKubernetesDefaults groups args0 gitVersion gitCommit GOOS GOARCH is_zero five).
#[local] Abbreviation experimental_defaults :=
  (setExperimentalDefaults groups args0 gitVersion gitCommit GOOS GOARCH is_zero five).
#[local] Abbreviation new :=
  (New printable parse_authority read_file bad_key_pair verbosity groups args0 gitVersion gitCommit GOOS GOARCH
    is_zero positive five limiter).
#[local] Abbreviation url_for := (defaultServerUrlFor printable parse_authority).

Lemma RESTClientFor_inv c s s' cn :
  rest_for c s = (s', Return (Ok cn)) →
  ∃ u, url_for c = Ok u ∧ cn_baseURL cn = base_of u ∧ cn_apiVersion cn = cc_Version c ∧
    cc_Codec c = Some (cn_codec cn) ∧
    TransportFor read_file bad_key_pair verbosity c s = (s', Ok (cn_transport cn)).
Proof.
  unfold RESTClientFor. case_decide; [by intros [= _ ?]|]. destruct (cc_Codec c) as [k|]; [|by intros [= _ ?]].
  destruct (url_for c) as [u|]; [|by intros [= _ ?]].
  destruct (if positive _ then _ else _) as [t| |]; [|by intros [= _ ?]..].
  destruct (TransportFor _ _ _ _ _) as [s1 [rt|]]; [|by intros [= _ ?]].
  intros [= <- <-]. by exists u.
Qed.

Lemma default_agent_same c :
  let c' := default_agent args0 gitVersion gitCommit GOOS GOARCH c in
  cc_Host c' = cc_Host c ∧ cc_Prefix c' = cc_Prefix c ∧ cc_Version c' = cc_Version c ∧ cc_TLS c' = cc_TLS c ∧
  cc_Insecure c' = cc_Insecure c ∧ cc_Username c' = cc_Username c ∧ cc_Password c' = cc_Password c ∧
  cc_BearerToken c' = cc_BearerToken c.
Proof. unfold default_agent. by destruct (given _). Qed.

(** What the defaults leave as it is. *)
Definition same_server c c' : Prop :=
  cc_Host c' = cc_Host c ∧ cc_TLS c' = cc_TLS c ∧ cc_Insecure c' = cc_Insecure c.

Lemma experimental_defaults_inv c c' :
  experimental_defaults c = Ok c' →
  ∃ g, Group groups "extensions" = Ok g ∧ same_server c c' ∧
    cc_Prefix c' = lit "apis/" ∧ cc_Version c' = gm_GroupVersion g.
Proof.
  unfold setExperimentalDefaults. destruct (Group groups _) as [g|]; [|done]. cbn [mbind result_bind].
  destruct (gm_InterfacesFor _ _) as [k|]; [|done]. intros [= <-]. exists g.
  destruct (default_agent_same (set_Prefix "apis/" c)) as (H1 & H2 & H3 & H4 & H5 & _).
  split; [done|]. split; [|done]. split; [|split]; done.
Qed.

Lemma New_inv c s s' k :
  new c s = (s', Return (Ok k)) →
  ∃ config s1, core_defaults c = Return (Ok config) ∧ rest_for config s = (s1, Return (Ok (RESTClient_ k))) ∧
    match ExperimentalClient k with
    | None => is_ok (Group groups "extensions") = false ∧ s' = s1
    | Some cn => ∃ c', experimental_defaults c = Ok c' ∧ rest_for c' s1 = (s', Return (Ok cn))
    end.
Proof.
  unfold New. destruct (core_defaults c) as [[config|]| |]; [|by intros [= _ ?]..].
  destruct (rest_for config s) as [s1 [[cn|]| |]] eqn:Hr; [|by intros [= _ ?]..].
  destruct (Group groups "extensions") as [g|e] eqn:Hg.
  - unfold NewExperimental. destruct (experimental_defaults c) as [c'|]; [|by intros [= _ ?]].
    destruct (rest_for c' s1) as [s2 [[cn'|]| |]] eqn:Hr2; [|by intros [= _ ?]..].
    intros [= <- <-]. exists config, s1. split; [done|]. split; [done|]. by exists c'.
  - intros [= <- <-]. by exists config, s1.
Qed.

(** *** The URL of an Ingress *)

Hypothesis laws : AuthorityLaws parse_authority escape_host.

Lemma url_for_web c scheme h :
  cc_Host c = scheme ++ lit "://" ++ h → web scheme → plain_host h = true →
  url_for c = Ok (mkFull scheme [] None h (api_path (cc_Prefix c) (cc_Version c)) [] [] []).
Proof.
  intros Hc Hs Hh. unfold defaultServerUrlFor. rewrite Hc.
  rewrite decide_False by by destruct Hs as [-> | ->]. by eapply server_url_web.
Qed.

Lemma experimental_base c s s' k cn scheme h :
  (∀ m, Group groups "extensions" = Ok m → gm_GroupVersion m = lit "extensions/v1beta1") →
  cc_Host c = scheme ++ lit "://" ++ h → web scheme → plain_host h = true →
  new c s = (s', Return (Ok k)) → ExperimentalClient k = Some cn →
  cn_baseURL cn = mkFull scheme [] None h "apis/extensions/v1beta1/" [] [] [].
Proof.
  intros Hg Hc Hs Hh Hn He. apply New_inv in Hn as (config & s1 & _ & _ & Hk). rewrite He in Hk.
  destruct Hk as (c' & Hc' & Hr). apply experimental_defaults_inv in Hc' as (g & Hgg & Hsame & Hp & Hv).
  apply RESTClientFor_inv in Hr as (u & Hu & -> & _).
  rewrite (url_for_web c' scheme h) in Hu by (done || by destruct Hsame as [-> _]).
  injection Hu as <-. by rewrite Hp, Hv, (Hg g Hgg).
Qed.

Lemma PathEscape_app s t : PathEscape (s ++ t) = PathEscape s ++ PathEscape t.
Proof. apply bind_app. Qed.

Lemma ingress_path b ns name :
  url_Path b = lit "apis/extensions/v1beta1/" → good_segment ns = true → good_segment name = true →
  url_Path (GetURL (ingress_Get_request printable (mkRESTClient b "extensions/v1beta1" 0) ns name)) =
    lit "apis/extensions/v1beta1/namespaces/" ++ ns ++ lit "/ingress/" ++ name.
Proof.
  intros Hb Hns Hn. rewrite Get_request_path_at; [|unfold base_segs; cbn [rc_baseURL]; rewrite Hb|done..].
  - unfold collection_segs, base_segs. cbn [rc_baseURL]. by rewrite Hb.
  - by apply (bool_decide_unpack _); vm_compute.
Qed.

(** C16: the client that [New] makes for a server asks for an Ingress below
    [apis] at the root of the server: a prefix that the configuration gives
    for the API of the server is not part of the URL. *)
Theorem ingress_url (vt gt env scheme h : str) (c : ClientConfig F) (s s' : TransportStore) (k : KubeClient) (cn : Connection)
    (Hg : allGroups vt gt env = Return groups)
    (Hc : cc_Host c = scheme ++ lit "://" ++ h) (Hs : web scheme) (Hh : plain_host h = true)
    (Hn : new c s = (s', Return (Ok k))) (He : ExperimentalClient k = Some cn) :
  ∃ rc, rest_client cn = Some rc ∧
    ∀ ns name, good_segment ns = true → good_segment name = true →
      URL_String (GetURL (ingress_Get_request printable rc ns name)) =
        scheme ++ lit "://" ++ h ++ lit "/apis/extensions/v1beta1/namespaces/" ++ PathEscape ns ++
        lit "/ingress/" ++ PathEscape name.
Proof.
  assert (Hb : cn_baseURL cn = mkFull scheme [] None h "apis/extensions/v1beta1/" [] [] []).
  { eapply experimental_base; try done. intros m. by eapply allGroups_extensions. }
  assert (Hv : cn_apiVersion cn = lit "extensions/v1beta1").
  { apply New_inv in Hn as (config & s1 & _ & _ & Hk). rewrite He in Hk. destruct Hk as (c' & Hc' & Hr).
    apply experimental_defaults_inv in Hc' as (g & Hgg & _ & _ & Hv).
    apply RESTClientFor_inv in Hr as (u & _ & _ & -> & _). rewrite Hv. by eapply allGroups_extensions. }
  unfold rest_client. rewrite Hb, Hv. cbn [fu_Opaque fu_User fu_RawPath]. rewrite decide_True by done.
  eexists. split; [reflexivity|]. intros ns name Hns Hname.
  set (b := mkURL scheme h "apis/extensions/v1beta1/" []).
  change (NewRESTClient _ _) with (mkRESTClient b "extensions/v1beta1" 0).
  pose proof (ingress_path b ns name eq_refl Hns Hname) as Hp.
  pose proof (good_segment_inv name Hname) as (Hne & _).
  rewrite URL_String_eq by by rewrite Hp. rewrite Hp.
  rewrite !ingress_Get_request_eq by done. destruct (plain_host_bytes h Hh) as (Hh0 & _).
  pose proof (web_parts scheme Hs) as (_ & _ & Hs0 & _).
  unfold url_prefix. cbn [GetURL url_Scheme url_Host url_RawQuery r_baseURL rc_baseURL b].
  rewrite (decide_True (P := _ ∨ _)) by (by left). rewrite bool_decide_true by done.
  rewrite !PathEscape_app. destruct scheme as [|a scheme]; [done|].
  match goal with |- context [Encode ?q] => assert (Encode q = []) as -> by by vm_compute end.
  by rewrite app_nil_r, <- !app_assoc.
Qed.
End clients.

(** ** Transports that are shared *)

Lemma app_sep_inj (c : ascii) x y x' y' :
  c ∉ x → c ∉ x' → x ++ c :: y = x' ++ c :: y' → x = x' ∧ y = y'.
Proof.
  revert x'. induction x as [|a x IH]; intros [|a' x'] Hx Hx'; simpl.
  - by intros [= ->].
  - intros [= -> _]. set_solver.
  - intros [= -> _]. set_solver.
  - intros [= -> E]. destruct (IH x') as [-> ->]; [set_solver..|done|done].
Qed.

Definition lower_value (c : ascii) : Z := if is_digit c then ord c - 48 else ord c - 87.

Lemma hex_byte c :
  chr (16 * lower_value (lower_hex (ord c / 16)) + lower_value (lower_hex (ord c mod 16))) = c ∧
  "/"%char ≠ lower_hex (ord c / 16) ∧ "/"%char ≠ lower_hex (ord c mod 16).
Proof. by_bytes c. Qed.

Lemma hex_cons c s : hex (c :: s) = lower_hex (ord c / 16) :: lower_hex (ord c mod 16) :: hex s.
Proof. done. Qed.

#[global] Instance hex_inj : Inj (=) (=) hex.
Proof.
  intros s. induction s as [|c s IH]; intros [|d t]; rewrite ?hex_cons; [done..|].
  intros [= E1 E2 E3]. f_equal; [|by apply IH].
  by rewrite <- (proj1 (hex_byte c)), <- (proj1 (hex_byte d)), E1, E2.
Qed.

Lemma hex_no_slash s : "/"%char ∉ hex s.
Proof.
  induction s as [|c s IH]; [set_solver|]. rewrite hex_cons. destruct (hex_byte c) as (_ & ? & ?). set_solver.
Qed.

(** The TLS options of a configuration whose files are loaded. *)
Definition options : Type := bool * str * str * str.
Definition options_of {F} (c : ClientConfig F) : options :=
  (cc_Insecure c, tc_CAData (cc_TLS c), tc_CertData (cc_TLS c), tc_KeyData (cc_TLS c)).
Definition key_of (o : options) : str := let '(i, ca, cert, key) := o in tlsKey i ca cert key.

#[global] Instance key_of_inj : Inj (=) (=) key_of.
Proof.
  intros [[[i ca] cert] key] [[[i' ca'] cert'] key']. unfold key_of, tlsKey.
  assert (Hb : ∀ b, "/"%char ∉ format_bool b) by (intros []; set_solver).
  intros (Ei & E)%app_sep_inj; [|done..].
  apply app_sep_inj in E as (->%hex_inj & E); [|apply hex_no_slash..].
  apply app_sep_inj in E as (->%hex_inj & ->%hex_inj); [|apply hex_no_slash..].
  by destruct i, i'.
Qed.

(** The configuration of TLS for some options. *)
Definition tls_of (o : options) : tls_Config :=
  let '(insecure, ca, cert, key) := o in
  if given cert then mkTlsConfig true [(cert, key)] (rootCertPool ca) false
  else if insecure then NewUnsafeTLSConfig
  else mkTlsConfig true [] (rootCertPool ca) false.

Section transports.
Context {F : Type}.
Variable read_file : str → result err str.
Variable bad_key_pair : str → str → option err.
Implicit Types c : ClientConfig F.
(** Nothing is no key pair. *)
Hypothesis no_pair_in_nothing : ∀ key, bad_key_pair [] key ≠ None.
#[local] Abbreviation transport_for := (tlsTransportFor read_file bad_key_pair).
#[local] Abbreviation load := (LoadTLSFiles read_file).

Lemma data_given data file d :
  dataFromSliceOrFile read_file data file = Ok d → given data = true → d = data.
Proof. unfold dataFromSliceOrFile. intros H Hd. rewrite Hd in H. by injection H. Qed.

Lemma data_not_given data file d :
  dataFromSliceOrFile read_file data file = Ok d → given data || given file = false → d = [].
Proof. unfold dataFromSliceOrFile. intros H [Hd Hf]%orb_false_iff. rewrite Hd, Hf in H. by injection H. Qed.

Lemma load_inv c c' :
  load c = (c', None) →
  cc_Insecure c' = cc_Insecure c ∧ hasCert c' = hasCert c ∧ hasCA c' = hasCA c ∧
  (hasCert c = false → tc_CertData (cc_TLS c') = []) ∧ (hasCA c = false → tc_CAData (cc_TLS c') = []).
Proof.
  unfold LoadTLSFiles. destruct (dataFromSliceOrFile _ (tc_CertData _) _) as [cert|] eqn:H1; [|done].
  cbn [tc_KeyData tc_KeyFile tc_CAData tc_CAFile].
  destruct (dataFromSliceOrFile _ (tc_KeyData _) _) as [key|] eqn:H2; [|done].
  destruct (dataFromSliceOrFile _ (tc_CAData _) _) as [ca|] eqn:H3; [|done].
  intros [= <-]. unfold hasCert, hasCA. cbn.
  assert (Hg : ∀ data file d, dataFromSliceOrFile read_file data file = Ok d →
    given file || given d = given file || given data).
  { intros data file d Hd. destruct (given data) eqn:E.
    { pose proof (data_given _ _ _ Hd E) as ->. by rewrite E. }
    destruct (given file) eqn:E'; [done|]. rewrite (data_not_given _ _ _ Hd); [done|]. by rewrite E, E'. }
  rewrite (Hg _ _ _ H1), (Hg _ _ _ H3). repeat split.
  - intros [Hf Hd]%orb_false_iff. apply (data_not_given _ _ _ H1). by rewrite Hf, Hd.
  - intros [Hf Hd]%orb_false_iff. apply (data_not_given _ _ _ H3). by rewrite Hf, Hd.
Qed.

Lemma data_twice data file d :
  dataFromSliceOrFile read_file data file = Ok d → dataFromSliceOrFile read_file d file = Ok d.
Proof.
  unfold dataFromSliceOrFile. destruct (given data) eqn:Hd; [intros [= ->]; by rewrite Hd|].
  destruct (given file); [|by intros [= <-]]. by destruct (given d).
Qed.

Lemma load_twice c c' : load c = (c', None) → load c' = (c', None).
Proof.
  unfold LoadTLSFiles. destruct (dataFromSliceOrFile _ (tc_CertData _) _) as [cert|] eqn:H1; [|done].
  cbn [tc_KeyData tc_KeyFile tc_CAData tc_CAFile].
  destruct (dataFromSliceOrFile _ (tc_KeyData _) _) as [key|] eqn:H2; [|done].
  destruct (dataFromSliceOrFile _ (tc_CAData _) _) as [ca|] eqn:H3; [|done].
  intros [= <-]. cbn. by rewrite (data_twice _ _ _ H1), (data_twice _ _ _ H2), (data_twice _ _ _ H3).
Qed.

Lemma TLSConfigFor_inv c c' r :
  TLSConfigFor read_file bad_key_pair c = (c', Ok r) →
  load c = (c', None) ∧ hasCA c && cc_Insecure c = false ∧
  r = if hasCert c || hasCA c || cc_Insecure c then Some (tls_of (options_of c')) else None.
Proof.
  unfold TLSConfigFor. destruct (hasCA c && cc_Insecure c) eqn:Hi; [done|].
  destruct (load c) as [c1 [e|]] eqn:Hl; [done|]. destruct (load_inv c c1 Hl) as (Hins & Hcert & Hca & Hnc & Hna).
  intros [= <- Hr]. split; [done|]. split; [done|]. unfold tls_of, options_of. rewrite Hins.
  destruct (hasCert c) eqn:E1; simpl.
  - unfold NewClientCertTLSConfig in Hr. destruct (bad_key_pair _ _) as [e|] eqn:Hb; [done|]. injection Hr as <-.
    destruct (tc_CertData (cc_TLS c1)) as [|a d] eqn:Hd; [by destruct (no_pair_in_nothing _ Hb)|done].
  - rewrite Hnc by done. cbn [given length]. destruct (hasCA c) eqn:E2; simpl.
    + simpl in Hi. rewrite Hi. by simplify_eq/=.
    + rewrite Hins in Hr. by destruct (cc_Insecure c); simplify_eq/=.
Qed.

(** the verification of the server is skipped only when the configuration
    asks for it and has no client certificate: next to a certificate the flag
    is not looked at. *)
Theorem verification_skipped (c c' : ClientConfig F) (t : tls_Config)
    (Ht : TLSConfigFor read_file bad_key_pair c = (c', Ok (Some t))) :
  tls_InsecureSkipVerify t = true ↔ cc_Insecure c = true ∧ hasCert c = false.
Proof.
  unfold TLSConfigFor in Ht. destruct (hasCA c && cc_Insecure c) eqn:Hi; [done|].
  destruct (load c) as [c1 [e|]] eqn:Hl; [done|]. destruct (load_inv c c1 Hl) as (Hins & _).
  injection Ht as _ Ht. destruct (hasCert c).
  - unfold NewClientCertTLSConfig in Ht. destruct (bad_key_pair _ _); [done|]. injection Ht as <-. naive_solver.
  - destruct (hasCA c) eqn:E2; simpl in *.
    + simplify_eq/=. naive_solver.
    + rewrite Hins in Ht. destruct (cc_Insecure c); [|done]. by simplify_eq/=.
Qed.

(** What holds of the store: a transport is kept under the key of its own
    options, and no two have the same number. *)
Record store_ok (s : TransportStore) : Prop := {
  so_key : ∀ key id t, tlsTransports s !! key = Some (id, t) → ∃ o, key = key_of o ∧ t = tls_of o;
  so_fresh : ∀ key id t, tlsTransports s !! key = Some (id, t) → id < made s;
  so_inj : ∀ key key' id t t', tlsTransports s !! key = Some (id, t) → tlsTransports s !! key' = Some (id, t') → key = key'
}.

Lemma no_transports_ok : store_ok no_transports.
Proof. by split. Qed.

Lemma store_insert s o :
  store_ok s → tlsTransports s !! key_of o = None →
  store_ok (mkTransportStore (<[key_of o := (made s, tls_of o)]> (tlsTransports s)) (S (made s))).
Proof.
  intros [Hk Hf Hi] Hn. split; cbn [tlsTransports made].
  - intros key id t [[<- [= <- <-]]|[_ H]]%lookup_insert_Some; eauto.
  - intros key id t [[<- [= <- <-]]|[_ H]]%lookup_insert_Some; [lia|]. apply Hf in H. lia.
  - intros key key' id t t' [[<- [= <- <-]]|[_ H]]%lookup_insert_Some [[<- E]|[_ H']]%lookup_insert_Some.
    + done.
    + apply Hf in H'. lia.
    + injection E as <- _. apply Hf in H. lia.
    + by eapply Hi.
Qed.

(** How a call leaves the store, and what it returns. *)
Lemma transport_for_spec c s s' c' r :
  store_ok s → transport_for c s = (s', c', r) →
  store_ok s' ∧ tlsTransports s ⊆ tlsTransports s' ∧
  match r with
  | Ok (TLSTransport id t) =>
      tlsTransports s' !! key_of (options_of c') = Some (id, t) ∧ t = tls_of (options_of c')
  | Ok DefaultTransport => hasCert c' = false ∧ hasCA c' = false ∧ cc_Insecure c' = false
  | Ok _ => False
  | Err _ => s' = s
  end.
Proof.
  intros Hok. unfold tlsTransportFor, tlsConfigKey.
  destruct (load c) as [c1 [e|]] eqn:Hl; [by intros [= <- <- <-]|].
  change (tlsKey _ _ _ _) with (key_of (options_of c1)).
  destruct (tlsTransports s !! _) as [[id t]|] eqn:Hk.
  { intros [= <- <- <-]. split; [done|]. split; [done|]. split; [done|].
    by destruct (so_key s Hok _ _ _ Hk) as (o & <-%key_of_inj & ->). }
  destruct (TLSConfigFor _ _ c1) as [c2 [o|e]] eqn:Ht.
  2:{ by intros [= <- <- <-]. }
  apply TLSConfigFor_inv in Ht as (Hl2 & _ & Ho). rewrite (load_twice _ _ Hl) in Hl2. injection Hl2 as <-.
  destruct (hasCert c1 || hasCA c1 || cc_Insecure c1) eqn:Hany; subst o; intros [= <- <- <-].
  - split; [by apply (store_insert s (options_of c1))|]. split; [by apply insert_subseteq|]. split; [|done].
    apply (lookup_insert_eq (tlsTransports s) (key_of (options_of c1))).
  - apply orb_false_iff in Hany as [[? ?]%orb_false_iff ?]. done.
Qed.

(** The stores that calls lead to. *)
Inductive later : TransportStore → TransportStore → Prop :=
  | later_refl s : later s s
  | later_call s s1 c s2 c' r : later s s1 → transport_for c s1 = (s2, c', r) → later s s2.

Lemma later_ok s s' : later s s' → store_ok s → store_ok s' ∧ tlsTransports s ⊆ tlsTransports s'.
Proof.
  induction 1 as [|s s1 c s2 c' r Hl IH Hc]; intros Hok; [done|]. destruct (IH Hok) as [H1 Hs].
  destruct (transport_for_spec c s1 s2 c' r H1 Hc) as (H2 & Hs' & _). split; [done|]. by trans (tlsTransports s1).
Qed.


Lemma transport_for_loaded c s s' c' rt : transport_for c s = (s', c', Ok rt) → load c = (c', None).
Proof.
  unfold tlsTransportFor, tlsConfigKey. destruct (load c) as [c1 [e|]] eqn:Hl; [done|].
  destruct (tlsTransports s !! _) as [[? ?]|]; [by intros [= _ <- _]|].
  destruct (TLSConfigFor _ _ c1) as [c2 [o|e]] eqn:Ht; [|done].
  apply TLSConfigFor_inv in Ht as (Hl2 & _ & _). rewrite (load_twice _ _ Hl) in Hl2. injection Hl2 as <-.
  destruct o; by intros [= _ <- _].
Qed.

Lemma load_nothing c c' :
  load c = (c', None) → hasCert c = false → hasCA c = false → cc_Insecure c = false →
  tc_KeyFile (cc_TLS c) = [] → tc_KeyData (cc_TLS c) = [] → options_of c' = (false, [], [], []).
Proof.
  intros Hl Hn Ha Hi Hk Hkd. pose proof (load_inv _ _ Hl) as (Hins & _ & _ & H1 & H2). unfold options_of.
  rewrite Hins, H1, H2 by done. f_equal; [by rewrite Hi|]. clear -Hl Hk Hkd. revert Hl. unfold LoadTLSFiles.
  destruct (dataFromSliceOrFile _ (tc_CertData _) _); [|done]. cbn [tc_KeyData tc_KeyFile tc_CAData tc_CAFile].
  rewrite Hk, Hkd. change (dataFromSliceOrFile read_file [] []) with (@Ok err str []). cbv iota.
  destruct (dataFromSliceOrFile _ (tc_CAData _) _); [|done]. by intros [= <-].
Qed.

(** a configuration without any option is given the default transport, unless
    one whose authority is an empty file was there before it: the transport of
    that one is kept under the same key. *)
Theorem default_transport (s0 s1 : TransportStore) (c c' : ClientConfig F) (rt : RoundTripper)
    (H0 : later no_transports s0)
    (Hn : hasCert c = false) (Ha : hasCA c = false) (Hi : cc_Insecure c = false) (Hk : tc_KeyFile (cc_TLS c) = [])
    (Hkd : tc_KeyData (cc_TLS c) = [])
    (Hc : transport_for c s0 = (s1, c', Ok rt)) :
  rt = match tlsTransports s0 !! lit "false///" with
       | Some (id, _) => TLSTransport id (mkTlsConfig true [] None false)
       | None => DefaultTransport
       end.
Proof.
  destruct (later_ok _ _ H0 no_transports_ok) as [Hok0 _].
  pose proof (transport_for_loaded _ _ _ _ _ Hc) as Hl. pose proof (load_nothing _ _ Hl Hn Ha Hi Hk Hkd) as Ho.
  pose proof (load_inv _ _ Hl) as (Hins & Hcert & Hca & _).
  unfold tlsTransportFor, tlsConfigKey in Hc. rewrite Hl in Hc.
  change (tlsKey _ _ _ _) with (key_of (options_of c')) in Hc. rewrite Ho in Hc.
  change (key_of (false, [], [], [])) with (lit "false///") in Hc.
  destruct (tlsTransports s0 !! _) as [[id t]|] eqn:Hs.
  - injection Hc as _ <-. destruct (so_key _ Hok0 _ _ _ Hs) as (o & E & ->).
    change (lit "false///") with (key_of (false, [], [], [])) in E. by apply key_of_inj in E as <-.
  - destruct (TLSConfigFor _ _ c') as [c2 [o|e]] eqn:Ht; [|done].
    apply TLSConfigFor_inv in Ht as (_ & _ & ->). rewrite Hcert, Hca, Hins, Hn, Ha, Hi in Hc. by injection Hc.
Qed.
End transports.

(** ** What requests carry *)

(** A header that is put into a request that has none of that name. *)
Definition put_missing (key value : str) (h : Header) : Header :=
  if given value && negb (given (Header_Get h key)) then Header_Set h key value else h.

(** The credentials of a configuration, as a header. *)
Definition authorization {F} (c : ClientConfig F) : str :=
  if given (cc_BearerToken c) then lit "Bearer " ++ cc_BearerToken c
  else if given (cc_Username c) || given (cc_Password c) then
    lit "Basic " ++ base64 (cc_Username c ++ lit ":" ++ cc_Password c)
  else [].

Lemma RoundTrip_debugging v rt h : RoundTrip (debugging v rt) h = RoundTrip rt h.
Proof. unfold debugging. by repeat case_match. Qed.

Definition is_base (rt : RoundTripper) : bool :=
  match rt with DefaultTransport | TLSTransport _ _ | CustomTransport _ => true | _ => false end.

Lemma RoundTrip_base rt h : is_base rt = true → RoundTrip rt h = (rt, h).
Proof. by destruct rt. Qed.

Lemma HTTPWrappers_carry {F} (c : ClientConfig F) base rt h v :
  is_base base = true → HTTPWrappersForConfig c (debugging v base) = Ok rt →
  RoundTrip rt h = (base, put_missing "Authorization" (authorization c) (put_missing "User-Agent" (cc_UserAgent c) h)).
Proof.
  intros Hb. unfold HTTPWrappersForConfig. destruct (_ && given (cc_BearerToken c)) eqn:Hboth; [done|].
  intros [= <-].
  assert (Hauth : ∀ h, RoundTrip (if given (cc_BearerToken c) then bearerAuthRoundTripper (cc_BearerToken c) (debugging v base)
      else if given (cc_Username c) || given (cc_Password c)
      then basicAuthRoundTripper (cc_Username c) (cc_Password c) (debugging v base) else debugging v base) h =
    (base, put_missing "Authorization" (authorization c) h)).
  { clear h. intros h. unfold put_missing, authorization. destruct (given (cc_BearerToken c)); cbn [RoundTrip].
    - rewrite !RoundTrip_debugging, !RoundTrip_base by done. by destruct (given (Header_Get h _)).
    - destruct (given (cc_Username c) || given (cc_Password c)); cbn [RoundTrip];
        rewrite !RoundTrip_debugging, !RoundTrip_base by done; [|done]. by destruct (given (Header_Get h _)). }
  unfold put_missing at 2. destruct (given (cc_UserAgent c)); cbn [RoundTrip]; [|apply Hauth].
  destruct (given (Header_Get h "User-Agent")); apply Hauth.
Qed.

(** What loading the files leaves as it is. *)
Definition credentials {F} (c : ClientConfig F) :=
  (cc_Username c, cc_Password c, cc_BearerToken c, cc_UserAgent c, cc_WrapTransport c).

Lemma load_credentials {F} read_file (c : ClientConfig F) : credentials (LoadTLSFiles read_file c).1 = credentials c.
Proof. unfold LoadTLSFiles. by repeat case_match. Qed.

Lemma transport_for_credentials {F} read_file bad_key_pair (c : ClientConfig F) s :
  credentials (tlsTransportFor read_file bad_key_pair c s).1.2 = credentials c.
Proof.
  unfold tlsTransportFor, tlsConfigKey. pose proof (load_credentials read_file c) as H1.
  destruct (LoadTLSFiles read_file c) as [c1 [e|]]; [done|]. cbn [fst] in H1.
  destruct (tlsTransports s !! _) as [[? ?]|]; [done|]. rewrite <- H1. unfold TLSConfigFor.
  destruct (hasCA c1 && cc_Insecure c1); [done|]. pose proof (load_credentials read_file c1) as H2.
  destruct (LoadTLSFiles read_file c1) as [c2 [e|]]; [done|]. cbn [fst] in H2. rewrite <- H2.
  by repeat case_match.
Qed.

(** C17: every request that a client sends has the credentials of its
    configuration, unless it has an authorization of its own already, and the
    name of the program; its other headers are left alone.  A configuration
    with a token and a user or a password makes no client. *)
Theorem requests_carry {F} read_file bad_key_pair verbosity (c : ClientConfig F) (s s' : TransportStore) (rt : RoundTripper)
    (no_pair : ∀ key, bad_key_pair [] key ≠ None)
    (Hs : store_ok s) (Ht : cc_Transport c = None) (Hw : cc_WrapTransport c = None)
    (Hr : TransportFor read_file bad_key_pair verbosity c s = (s', Ok rt)) :
  ∃ base, is_base base = true ∧
    (given (cc_BearerToken c) = false ∨ given (cc_Username c) = false ∧ given (cc_Password c) = false) ∧
    ∀ h, RoundTrip rt h =
      (base, put_missing "Authorization" (authorization c) (put_missing "User-Agent" (cc_UserAgent c) h)).
Proof.
  unfold TransportFor in Hr. rewrite Ht in Hr. pose proof (transport_for_credentials read_file bad_key_pair c s) as Hcr.
  destruct (tlsTransportFor read_file bad_key_pair c s) as [[s1 c1] [base|]] eqn:Hb; [|done].
  unfold credentials in Hcr. cbn [fst snd] in Hcr. injection Hcr as H1 H2 H3 H4 H5. rewrite H5, Hw in Hr.
  injection Hr as <- Hr. change (HTTPWrappersForConfig c1 (debugging verbosity base) = Ok rt) in Hr.
  destruct (transport_for_spec read_file bad_key_pair no_pair c s s1 c1 _ Hs Hb) as (_ & _ & Hbase).
  assert (is_base base = true) as Hib by by destruct base.
  exists base. split; [done|]. split.
  - unfold HTTPWrappersForConfig in Hr. rewrite H1, H2, H3 in Hr.
    destruct (given (cc_BearerToken c)), (given (cc_Username c)), (given (cc_Password c)); naive_solver.
  - intros h. rewrite (HTTPWrappers_carry c1 base rt h verbosity Hib Hr). unfold authorization. by rewrite H1, H2, H3, H4.
Qed.

(** ** Agreeing on a version *)

Lemma first_supported_Ok set_text server registered v :
  first_supported set_text server registered = Ok v →
  ∃ before after, registered = before ++ v :: after ∧ v ∈ server ∧ Forall (λ x, x ∉ server) before.
Proof.
  unfold first_supported. destruct (list_find _ registered) as [[i x]|] eqn:E; [|done]. intros [= <-].
  apply list_find_Some in E as (Hi & Hx & Hbefore).
  exists (firstn i registered), (drop (S i) registered). split; [by rewrite take_drop_middle|]. split; [done|].
  apply list.Forall_forall. intros y (j & Hj & Hlt)%elem_of_take. by eapply Hbefore.
Qed.

(** a version that is agreed on is one of both sides: the one that was asked
    for, or that of the configuration, when the server has it, and otherwise
    the one that the client prefers among those of the server; a version of the
    configuration is never replaced. *)
Theorem NegotiateVersion_spec (set_text : list str → str) (server : list str) (c_Version version v : str)
    (registered : list str)
    (Hv : NegotiateVersion set_text (Ok server) c_Version version registered = Ok v) :
  let wanted := if decide (length version = 0) then c_Version else version in
  v ∈ registered ∧ v ∈ server ∧
  (wanted ∈ server → wanted ≠ [] → v = wanted) ∧
  (wanted = c_Version → wanted ≠ [] → v = wanted) ∧
  (v = wanted ∨ ∃ before after, registered = before ++ v :: after ∧ Forall (λ x, x ∉ server) before).
Proof.
  cbv zeta. unfold NegotiateVersion in Hv. set (wanted := if decide (length version = 0) then c_Version else version) in *.
  assert (Hfirst : first_supported set_text server registered = Ok v →
    v ∈ registered ∧ v ∈ server ∧ ∃ before after, registered = before ++ v :: after ∧ Forall (λ x, x ∉ server) before).
  { intros (before & after & -> & Hs & Hb)%first_supported_Ok. split; [set_solver|]. split; [done|]. by exists before, after. }
  destruct (decide (length wanted = 0)) as [Hl|Hl].
  { apply nil_length_inv in Hl. destruct (Hfirst Hv) as (? & ? & ?). rewrite Hl. repeat split; auto; done. }
  destruct (decide (wanted ∉ registered)) as [|Hr]; [done|]. apply dec_stable in Hr.
  destruct (decide (wanted ∈ server)); [injection Hv as <-; repeat split; auto|].
  destruct (decide (wanted = c_Version)); [done|]. destruct (Hfirst Hv) as (? & ? & ?). repeat split; auto; done.
Qed.

(** ** Witnesses *)

Module ClientDemo.
Definition ascii_only (z : Z) : bool := (32 <=? z)%Z && (z <? 127)%Z.
Definition plain_authority (h : str) : result str (option str * str) := Ok (None, h).
Definition same_host (h : str) : str := h.
Definition no_files (name : str) : result err str := if decide (name = lit "empty.crt") then Ok [] else Err (Text "no such file").
Definition pair_error (cert key : str) : option err := if given cert then None else Some (Text "no certificate").
Definition limiter (qps burst : Z) : control Bucket := NewBucketWithQuantum 0 200000000 burst 1.

Lemma laws : AuthorityLaws plain_authority same_host.
Proof. by split. Qed.
Lemma pair_needed key : pair_error [] key ≠ None.
Proof. done. Qed.

Definition groups : gmap str GroupMeta :=
  match allGroups [] [] [] with Return g => g | _ => ∅ end.
Lemma groups_all : allGroups [] [] [] = Return groups.
Proof. by vm_compute. Qed.

Definition config (host prefix token : str) (t : TLSClientConfig) (insecure : bool) : ClientConfig Z :=
  mkClientConfig Z host prefix [] None [] [] token t insecure [] None None 0%Z 0.
Definition new (c : ClientConfig Z) : TransportStore → TransportStore * control (result err KubeClient) :=
  New ascii_only plain_authority no_files pair_error 0 groups "tool" "v1.1.0" "abcdef0123" "linux" "amd64"
    (λ q, q =? 0)%Z (λ q, 0 <? q)%Z 5%Z limiter c.
(** A server with a path of its own, and an authority. *)
Definition remote : ClientConfig Z :=
  config "https://10.0.0.1:6443" "/k8s" "secret" (mkTLSClientConfig [] [] [] [] [] "PEM") false.
Definition made_of (c : ClientConfig Z) : option (TransportStore * KubeClient * Connection) :=
  match new c no_transports with
  | (s, Return (Ok k)) => cn ← ExperimentalClient k; Some (s, k, cn)
  | _ => None
  end.
Lemma made_new c s k cn :
  made_of c = Some (s, k, cn) → new c no_transports = (s, Return (Ok k)) ∧ ExperimentalClient k = Some cn.
Proof.
  unfold made_of. destruct (new c no_transports) as [s1 [[k1|]| |]]; [|done..].
  destruct (ExperimentalClient k1) as [cn1|] eqn:E; [|done]. by intros [= -> -> ->].
Qed.
End ClientDemo.
Import ClientDemo.

Lemma ingress_url_witness :
  ∃ rc, URL_String (GetURL (ingress_Get_request ascii_only rc "default" "a b")) =
    lit "https://10.0.0.1:6443/apis/extensions/v1beta1/namespaces/default/ingress/a%20b".
Proof.
  destruct (made_of remote) as [[[s k] cn]|] eqn:E; [|vm_compute in E; discriminate E].
  destruct (made_new _ _ _ _ E) as [Hn He].
  destruct (ingress_url ascii_only plain_authority same_host no_files pair_error 0 groups "tool" "v1.1.0" "abcdef0123"
    "linux" "amd64" (λ q, q =? 0)%Z (λ q, 0 <? q)%Z 5%Z limiter laws [] [] [] "https" "10.0.0.1:6443" remote
    no_transports s k cn groups_all) as (rc & _ & H); [reflexivity|by right|reflexivity|exact Hn|exact He|].
  exists rc. etransitivity; [apply H; reflexivity|]. vm_compute. reflexivity.
Defined.

Lemma DefaultServerURL_spec_witness :
  DefaultServerURL ascii_only plain_authority "10.0.0.1:443" "/api" "v1" true =
    Ok (mkFull "https" [] None "10.0.0.1:443" "/api/v1" [] [] []).
Proof.
  destruct (DefaultServerURL_spec ascii_only plain_authority same_host laws "https" "10.0.0.1:443" "/api" "v1" true)
    as [_ H]; [by right|reflexivity|].
  etransitivity; [apply H; split; [reflexivity|by right]|]. vm_compute. reflexivity.
Defined.

Lemma host_port_is_opaque_witness :
  ∃ u, DefaultServerURL ascii_only plain_authority "localhost:8080" "/api" "v1" true = Ok u ∧
    Full_String same_host u = lit "localhost:8080".
Proof.
  destruct (host_port_is_opaque ascii_only plain_authority same_host laws "localhost" "8080" "/api" "v1" true)
    as (u & H & _ & Hs); [split; [reflexivity|by repeat constructor]|done|by repeat constructor|].
  exists u. split; [exact H|]. etransitivity; [exact Hs|]. vm_compute. reflexivity.
Defined.

(** With a certificate, the flag changes nothing. *)
Definition with_cert : ClientConfig Z :=
  config "https://10.0.0.1" [] [] (mkTLSClientConfig [] [] [] "CERT" "KEY" []) true.

Lemma verification_skipped_witness :
  ∃ c' t, TLSConfigFor no_files pair_error with_cert = (c', Ok (Some t)) ∧ tls_InsecureSkipVerify t ≠ true.
Proof.
  destruct (TLSConfigFor no_files pair_error with_cert) as [c' [[t|]|]] eqn:E; [|vm_compute in E; discriminate E..].
  exists c', t. split; [reflexivity|]. intros H.
  apply (verification_skipped no_files pair_error with_cert c' t E) in H as [_ H]. vm_compute in H. discriminate H.
Defined.

(** The transport of a call. *)
Definition called (c : ClientConfig Z) (s : TransportStore) : TransportStore * ClientConfig Z * result err RoundTripper :=
  tlsTransportFor no_files pair_error c s.


Lemma requests_carry_witness :
  ∃ rt, (TransportFor no_files pair_error 0 remote no_transports).2 = Ok rt ∧
    Header_Get (RoundTrip rt ∅).2 "Authorization" = lit "Bearer secret".
Proof.
  destruct (TransportFor no_files pair_error 0 remote no_transports) as [s' [rt|]] eqn:E; [|vm_compute in E; discriminate E].
  exists rt. split; [reflexivity|].
  destruct (requests_carry no_files pair_error 0 remote no_transports s' rt pair_needed no_transports_ok
    eq_refl eq_refl E) as (base & _ & _ & H).
  rewrite H. vm_compute. reflexivity.
Defined.

(** A file of authorities that is empty, then a configuration without any
    option: it is not given the default transport. *)
Lemma default_transport_witness :
  ∃ s, later (F := Z) no_files pair_error no_transports s ∧
    (called (config "http://10.0.0.1" [] [] no_TLS false) s).2 = Ok (TLSTransport 0 (mkTlsConfig true [] None false)).
Proof.
  set (odd := config "https://10.0.0.1" [] [] (mkTLSClientConfig [] [] "empty.crt" [] [] []) false).
  destruct (called odd no_transports) as [[s c'] r] eqn:E.
  exists s. assert (later (F := Z) no_files pair_error no_transports s) as Hl.
  { eapply later_call; [apply later_refl|exact E]. }
  split; [exact Hl|].
  destruct (called (config "http://10.0.0.1" [] [] no_TLS false) s) as [[s1 c1] [rt|e]] eqn:E1.
  - rewrite (default_transport no_files pair_error pair_needed s s1
      (config "http://10.0.0.1" [] [] no_TLS false) c1 rt Hl eq_refl eq_refl eq_refl eq_refl eq_refl E1).
    vm_compute in E. injection E as <- _ _. vm_compute. reflexivity.
  - exfalso. vm_compute in E. injection E as <- _ _. vm_compute in E1. discriminate E1.
Defined.

Lemma NegotiateVersion_spec_witness :
  NegotiateVersion (join " ") (Ok [lit "v2"; lit "v1"]) [] "v3" [lit "v3"; lit "v1"; lit "v2"] = Ok (lit "v1") ∧
  lit "v1" ∈ [lit "v2"; lit "v1"].
Proof.
  split; [vm_compute; reflexivity|].
  apply (NegotiateVersion_spec (join " ") [lit "v2"; lit "v1"] [] "v3" "v1" [lit "v3"; lit "v1"; lit "v2"]).
  vm_compute. reflexivity.
Defined.
