(* ===== verification/ClientConnect.v ===== *)
(** * From the configuration files to a client (clientcmd: client_config.go,
      merged_client_builder.go, auth_loaders.go)

    The configuration of a connection, from the cluster and the user that were
    chosen; the prompt for a name and a password; the configuration inside a
    cluster; and all of it for the tool: flags, files, connection. *)

From S2P Require Import Prelude GoStr Utf8 Errors GoStd GoUrl GoUrlParse ApiGroups KubeFlags ClientTransport ClientCmd ClientLoader.

Local Open Scope go_scope.

(** ** Reading a word (fmt.Fscan) *)

Fixpoint skip_spaces (l : list (Z * str)) : list (Z * str) :=
  match l with
  | rb :: t => if is_space_rune rb.1 then skip_spaces t else l
  | [] => []
  end.

(** The word, and what is left: the space behind the word is read too. *)
Fixpoint take_word (l : list (Z * str)) : str * list (Z * str) :=
  match l with
  | rb :: t =>
      if is_space_rune rb.1 then ([], t)
      else let '(word, rest) := take_word t in (encode_rune rb.1 ++ word, rest)
  | [] => ([], [])
  end.

Definition Fscan (input : str) : str * str :=
  let '(word, rest) := take_word (skip_spaces (rune_chunks input)) in (word, concat (snd <$> rest)).

(** ** The prompt (auth_loaders.go) *)

Record Info := mkInfo {
  info_User : str;
  info_Password : str;
  info_CAFile : str;
  info_CertFile : str;
  info_KeyFile : str;
  info_BearerToken : str;
  info_Insecure : option bool
}.

(** What is printed is left out. *)
Definition promptForString (input : str) : str * str := Fscan input.

Definition Prompt (input : str) : Info * str :=
  let '(user, input) := promptForString input in
  let '(password, input) := promptForString input in
  (mkInfo user password [] [] [] [] None, input).

(** [MergeWithConfig] and [Complete] of the package auth. *)
Definition Complete (info : Info) : bool :=
  given (info_User info) || given (info_CertFile info) || given (info_BearerToken info).

Section config.
Context {F : Type}.
(** [float32]: zero, and the test for it. *)
Variable zero : F.
Variable is_zero : F → bool.
#[local] Abbreviation CConfig := (ClientConfig F).

Definition zero_Config : CConfig :=
  mkClientConfig F [] [] [] None [] [] [] no_TLS false [] None None zero 0.

(** [mergo.Merge]: an interface keeps what it holds; a function is always
    taken from the source. *)
Definition merge_iface {A} (dst src : option A) : option A := match dst with None => src | Some _ => dst end.

Definition merge_TLS (dst src : TLSClientConfig) : TLSClientConfig :=
  mkTLSClientConfig (merge_str (tc_CertFile dst) (tc_CertFile src)) (merge_str (tc_KeyFile dst) (tc_KeyFile src))
    (merge_str (tc_CAFile dst) (tc_CAFile src)) (merge_str (tc_CertData dst) (tc_CertData src))
    (merge_str (tc_KeyData dst) (tc_KeyData src)) (merge_str (tc_CAData dst) (tc_CAData src)).

Definition merge_Config (dst src : CConfig) : CConfig :=
  mkClientConfig F (merge_str (cc_Host dst) (cc_Host src)) (merge_str (cc_Prefix dst) (cc_Prefix src))
    (merge_str (cc_Version dst) (cc_Version src)) (merge_iface (cc_Codec dst) (cc_Codec src))
    (merge_str (cc_Username dst) (cc_Username src)) (merge_str (cc_Password dst) (cc_Password src))
    (merge_str (cc_BearerToken dst) (cc_BearerToken src)) (merge_TLS (cc_TLS dst) (cc_TLS src))
    (merge_bool (cc_Insecure dst) (cc_Insecure src)) (merge_str (cc_UserAgent dst) (cc_UserAgent src))
    (merge_iface (cc_Transport dst) (cc_Transport src)) (cc_WrapTransport src)
    (if is_zero (cc_QPS src) then cc_QPS dst else cc_QPS src)
    (if decide (cc_Burst src = 0%Z) then cc_Burst dst else cc_Burst src).

(** ** Who the user is, and which server (client_config.go) *)

Definition identity (username password token : str) (t : TLSClientConfig) (insecure : bool) : CConfig :=
  mkClientConfig F [] [] [] None username password token t insecure [] None None zero 0.

Definition getServerIdentificationPartialConfig (c : Cluster) : CConfig :=
  merge_Config zero_Config
    (identity [] [] [] (mkTLSClientConfig [] [] (cl_CertificateAuthority c) [] [] (cl_CertificateAuthorityData c))
      (cl_InsecureSkipTLSVerify c)).

Definition makeUserIdentificationConfig (info : Info) : CConfig :=
  identity (info_User info) (info_Password info) (info_BearerToken info)
    (mkTLSClientConfig (info_CertFile info) (info_KeyFile info) [] [] [] []) false.

Definition makeServerIdentificationConfig (info : Info) : CConfig :=
  identity [] [] [] (mkTLSClientConfig [] [] (info_CAFile info) [] [] []) (default false (info_Insecure info)).

Definition MergeWithConfig (info : Info) (c : CConfig) : CConfig :=
  mkClientConfig F (cc_Host c) (cc_Prefix c) (cc_Version c) (cc_Codec c) (info_User info) (info_Password info)
    (info_BearerToken info)
    (mkTLSClientConfig (info_CertFile info) (info_KeyFile info) (info_CAFile info)
      (tc_CertData (cc_TLS c)) (tc_KeyData (cc_TLS c)) (tc_CAData (cc_TLS c)))
    (default (cc_Insecure c) (info_Insecure info)) (cc_UserAgent c) (cc_Transport c) (cc_WrapTransport c)
    (cc_QPS c) (cc_Burst c).

Definition canIdentifyUser (c : CConfig) : bool :=
  given (cc_Username c) || (given (tc_CertFile (cc_TLS c)) || given (tc_CertData (cc_TLS c))) || given (cc_BearerToken c).

(** What the files and the flags say of the user. *)
Definition known_user (a : AuthInfo) : CConfig :=
  let cert := given (au_ClientCertificate a) || given (au_ClientCertificateData a) in
  let basic := given (au_Username a) || given (au_Password a) in
  identity (if basic then au_Username a else []) (if basic then au_Password a else [])
    (if given (au_Token a) then au_Token a else [])
    (if cert then mkTLSClientConfig (au_ClientCertificate a) (au_ClientKey a) []
       (au_ClientCertificateData a) (au_ClientKeyData a) [] else no_TLS) false.

(** The reader is what is still to be read, if there is one. *)
Definition getUserIdentificationPartialConfig (a : AuthInfo) (reader : option str) : CConfig * option str :=
  let mergedConfig := known_user a in
  match reader with
  | Some input =>
      if canIdentifyUser mergedConfig then (mergedConfig, reader)
      else
        let '(promptedAuthInfo, input) := Prompt input in
        (merge_Config (merge_Config zero_Config (makeUserIdentificationConfig promptedAuthInfo)) mergedConfig, Some input)
  | None => (mergedConfig, None)
  end.

Section client_config.
Variable printable : Z → bool.
Variable parse_authority : str → result str (option str * str).
Variable escape_host : str → str.
(** The error of opening a file; KUBERNETES_MASTER. *)
Variable open_error : str → option str.
Variable kubernetes_master : str.
Variable groups : gmap str GroupMeta.

(** The address of the server, and the prefix of its API if it has one. *)
Definition server_config (server version : str) : CConfig :=
  let '(host, prefix) :=
    match ParseRequestURI printable parse_authority server with
    | Ok u =>
        if bool_decide (fu_Opaque u = []) && bool_decide (1 < length (fu_Path u))
        then (Full_String escape_host (only_server u), fu_Path u) else (server, [])
    | Err _ => (server, [])
    end in
  mkClientConfig F host prefix version None [] [] [] no_TLS false [] None None zero 0.

Definition direct_ClientConfig (d : DirectClientConfig) (reader : option str) :
    control (result err CConfig * option str) :=
  e ← direct_ConfirmUsable open_error printable kubernetes_master d;
  match e with
  | Some e => Return (Err (Text (config_Error e)), reader)
  | None =>
      configAuthInfo ← getAuthInfo d;
      configClusterInfo ← getCluster kubernetes_master d;
      let clientConfig := server_config (cl_Server configClusterInfo) (cl_APIVersion configClusterInfo) in
      tls ← IsConfigTransportTLS printable parse_authority groups clientConfig;
      if tls : bool then
        let '(userAuthPartialConfig, reader) := getUserIdentificationPartialConfig configAuthInfo reader in
        let clientConfig := merge_Config clientConfig userAuthPartialConfig in
        Return (Ok (merge_Config clientConfig (getServerIdentificationPartialConfig configClusterInfo)), reader)
      else Return (Ok clientConfig, reader)
  end.

(** ** Inside a cluster *)

Variable getenv : str → str.
Variable read_file : str → result err str.
(** The error of [util.CertPoolFromFile]; whether a path is a file. *)
Variable bad_pool : str → option err.
Variable is_file : str → bool.

Definition service_account : str := "/var/run/secrets/kubernetes.io/serviceaccount/".

Definition JoinHostPort (host port : str) : str :=
  if decide (":"%char ∈ host ∨ "%"%char ∈ host) then lit "[" ++ host ++ lit "]:" ++ port
  else host ++ lit ":" ++ port.

Definition InClusterConfig : result err CConfig :=
  token ← read_file (service_account ++ lit "token");
  let rootCAFile := service_account ++ lit "ca.crt" in
  let ca := match bad_pool rootCAFile with Some _ => [] | None => rootCAFile end in
  Ok (mkClientConfig F
    (lit "https://" ++ JoinHostPort (getenv "KUBERNETES_SERVICE_HOST") (getenv "KUBERNETES_SERVICE_PORT"))
    [] [] None [] [] token (mkTLSClientConfig [] [] ca [] [] []) false [] None None zero 0).

Definition inCluster_Namespace : str :=
  if decide (getenv "POD_NAMESPACE" = []) then "default" else getenv "POD_NAMESPACE".

Definition Possible : bool :=
  bool_decide (getenv "KUBERNETES_SERVICE_HOST" ≠ []) && bool_decide (getenv "KUBERNETES_SERVICE_PORT" ≠ []) &&
  is_file (service_account ++ lit "token").

(** ** The configuration that is loaded late (merged_client_builder.go) *)

Definition zero_overrides : ConfigOverrides := mkConfigOverrides zero_AuthInfo zero_Cluster zero_Context [].
Definition DefaultClientConfig_ : DirectClientConfig := mkDirect NewConfig [] zero_overrides.

(** [reflect.DeepEqual] of two configurations that have no codec and no
    transport of their own. *)
Definition DeepEqual (c d : CConfig) : bool :=
  bool_decide (cc_Host c = cc_Host d ∧ cc_Prefix c = cc_Prefix d ∧ cc_Version c = cc_Version d ∧
    cc_Username c = cc_Username d ∧ cc_Password c = cc_Password d ∧ cc_BearerToken c = cc_BearerToken d ∧
    tc_CertFile (cc_TLS c) = tc_CertFile (cc_TLS d) ∧ tc_KeyFile (cc_TLS c) = tc_KeyFile (cc_TLS d) ∧
    tc_CAFile (cc_TLS c) = tc_CAFile (cc_TLS d) ∧ tc_CertData (cc_TLS c) = tc_CertData (cc_TLS d) ∧
    tc_KeyData (cc_TLS c) = tc_KeyData (cc_TLS d) ∧ tc_CAData (cc_TLS c) = tc_CAData (cc_TLS d) ∧
    cc_Insecure c = cc_Insecure d ∧ cc_UserAgent c = cc_UserAgent d ∧ cc_Burst c = cc_Burst d).

(** What the files gave is replaced by the configuration of the cluster when
    it is the same as that of no file. *)
Definition merged_ClientConfig (d : DirectClientConfig) (reader : option str) :
    control (result err CConfig * option str) :=
  '(r, reader) ← direct_ClientConfig d reader;
  match r with
  | Err e => Return (Err e, reader)
  | Ok mergedConfig =>
      '(defaultConfig, _) ← direct_ClientConfig DefaultClientConfig_ None;
      Return (match defaultConfig with
              | Ok defaultConfig =>
                  if Possible && DeepEqual mergedConfig defaultConfig then InClusterConfig else Ok mergedConfig
              | Err _ => Ok mergedConfig
              end, reader)
  end.
End client_config.

(** ** The client of the tool *)

Definition overrides_of (o : Overrides str bool) : ConfigOverrides :=
  mkConfigOverrides
    (mkAuthInfo [] (ov_ClientCertificate o) [] (ov_ClientKey o) [] (ov_Token o) (ov_Username o) (ov_Password o) None)
    (mkCluster [] (ov_Server o) (ov_APIVersion o) (ov_InsecureSkipTLSVerify o) (ov_CertificateAuthority o) [] None)
    (mkContext [] (ov_Cluster o) (ov_AuthInfo o) (ov_Namespace o) None) (ov_CurrentContext o).

Definition with_ExplicitPath (path : str) (rules : ClientConfigLoadingRules) : ClientConfigLoadingRules :=
  mkRules path (Precedence rules) (MigrationRules rules) (DoNotResolvePaths rules).

(** Files as the client reads and opens them. *)
Definition content_of (fs : files) (path : str) : result err str :=
  match GoStd.read_file fs path with
  | Ok c => Ok c
  | Err e => Err (Text (load_Error (PathError (if e is EISDIR then "read" else "open") path e)))
  end.
Definition open_error_of (fs : files) (path : str) : option str :=
  match stat fs path with Ok _ => None | Err e => Some (load_Error (PathError "open" path e)) end.
Definition is_file_of (fs : files) (path : str) : bool :=
  match stat fs path with Ok (File _) => true | _ => false end.

(** Everything that is given to the tool from outside. *)
Record machine := mkMachine {
  m_printable : Z → bool;
  m_parse_authority : str → result str (option str * str);
  m_escape_host : str → str;
  m_order : ∀ V, gmap str V → list (str * V);
  m_cwd : result str str;
  m_decode : str → result str ClientCmd.Config;
  m_getenv : str → str;
  m_bad_pool : str → option err;
  m_bad_key_pair : str → str → option err;
  m_verbosity : Z;
  m_args0 : str;
  m_version : str * str;
  m_platform : str * str;
  m_positive : F → bool;
  m_five : F;
  m_limiter : F → Z → control RateLimit.Bucket;
  m_groups : gmap str GroupMeta
}.

(** [DefaultClientConfig(flags).ClientConfig()]: the files that are left, and
    what is left to be read. *)
Definition load_client_config (m : machine) (path : str) (o : Overrides str bool) (fs : files) (reader : option str) :
    files * control (result err CConfig * option str) :=
  let rules := with_ExplicitPath path
    (NewDefaultClientConfigLoadingRules (m_getenv m "KUBECONFIG") (m_getenv m "HOME")) in
  let '(fs, r) := createClientConfig (m_order m) (m_cwd m) (m_decode m) rules (overrides_of o) fs in
  (fs, d ← r;
       match d with
       | Err e => Return (Err e, reader)
       | Ok d =>
           merged_ClientConfig (m_printable m) (m_parse_authority m) (m_escape_host m) (open_error_of fs)
             (m_getenv m "KUBERNETES_MASTER") (m_groups m) (m_getenv m) (content_of fs) (m_bad_pool m)
             (is_file_of fs) d reader
       end).

Definition new_client (m : machine) (fs : files) (c : CConfig) (s : TransportStore) : TransportStore * control (result err KubeClient) :=
  New (m_printable m) (m_parse_authority m) (content_of fs) (m_bad_key_pair m) (m_verbosity m) (m_groups m)
    (m_args0 m) (m_version m).1 (m_version m).2 (m_platform m).1 (m_platform m).2 is_zero (m_positive m) (m_five m)
    (m_limiter m) c s.

(** Why there is no client. *)
Inductive failure :=
  | Failed (e : err)
  | Panicked (why : str)
  | Died (msg : str).

Definition outcome_of {A} (r : control (result err A)) : result failure A :=
  match r with
  | Return (Ok a) => Ok a
  | Return (Err e) => Err (Failed e)
  | Panic why => Err (Panicked why)
  | Fatal msg => Err (Died msg)
  end.

(** The client that the tool makes, with standard input to read from. *)
Definition connect (m : machine) (fs : files) (stdin : str) (path : str) (o : Overrides str bool) :
    result failure KubeClient :=
  let '(fs, r) := load_client_config m path o fs (Some stdin) in
  c ← outcome_of (r ≫= λ cr, Return cr.1);
  outcome_of (new_client m fs c no_transports).2.
End config.

Example Fscan_demo :
  let '(user, rest) := Fscan (lit "  bob " ++ [chr 10] ++ lit "secret x") in
  let '(password, rest) := Fscan rest in
  (user, password, rest) = (lit "bob", lit "secret", lit "x").
Proof. vm_compute. reflexivity. Qed.
