(* ===== verification/ClientConnectSpec.v ===== *)
(** * From the configuration files to a client (proofs about [ClientConnect])

    Credentials and TLS options are only put into a configuration whose server
    is reached over TLS; who the user is, and when they are asked; what a tool
    without a configuration does inside a cluster. *)

From S2P Require Import Prelude GoStr Utf8 Errors GoStd GoUrl GoUrlSpec GoUrlParse ApiGroups KubeFlags ClientTransport ClientTransportSpec ClientCmd ClientCmdSpec ClientLoader ClientConnect.

Local Open Scope go_scope.

(** ** The scheme of the server *)

Section scheme.
Variable printable : Z → bool.
Variable parse_authority : str → result str (option str * str).
#[local] Abbreviation parse_url := (ParseURL printable parse_authority).

Lemma cut_at_app c b s t : c ∉ s → cut_at c b (s ++ t) = (s ++ (cut_at c b t).1, (cut_at c b t).2).
Proof.
  intros Hc. unfold cut_at. assert (index_byte c (s ++ t) = (λ i, length s + i) <$> index_byte c t) as ->.
  { induction s as [|a s IH]; [cbn [app length]; by destruct (index_byte c t)|]. cbn [app index_byte length].
    rewrite decide_False by set_solver. rewrite IH by set_solver. by destruct (index_byte c t). }
  destruct (index_byte c t) as [i|]; cbn [fmap option_fmap option_map fst snd]; [|done].
  f_equal; [by apply take_app_add'|]. destruct b; [rewrite <- Nat.add_succ_r|]; by apply drop_app_add'.
Qed.

Lemma parse_rest_scheme viaRequest scheme rest query u :
  parse_rest printable parse_authority viaRequest scheme rest query = Ok u → fu_Scheme u = scheme.
Proof.
  unfold parse_rest. destruct (_ && bool_decide (scheme ≠ [])); [by intros [= <-]|].
  destruct (_ && viaRequest); [done|].
  intros ([[user host] r] & _ & (p & _ & [= <-])%result_bind_Ok)%result_bind_Ok. done.
Qed.

(** A text with the scheme of the web in front has that scheme. *)
Lemma parse_web_scheme scheme x u :
  web scheme → parse_url (scheme ++ ":"%char :: x) = Ok u → fu_Scheme u = scheme.
Proof.
  intros Hs. pose proof (web_parts scheme Hs) as (Hn & Hl & Hne & Hf & Hstar).
  unfold ParseURL. rewrite (cut_at_app "#" true scheme) by done.
  assert (Hc : (cut_at "#" true (":"%char :: x)).1 = ":"%char :: (cut_at "#" true x).1).
  { change (":"%char :: x) with ([":"%char] ++ x). rewrite cut_at_app by set_solver. done. }
  rewrite Hc. unfold parse_uri. rewrite andb_false_r, decide_False by apply Hstar.
  rewrite getscheme_name by done. cbn [mbind result_bind]. destruct (cut_at "?" true _) as [rest query].
  destruct (parse_rest _ _ _ _ _ _) as [u'|] eqn:Hp; [|done].
  destruct (or_escape _ _); [|done]. intros [= <-]. cbn [fu_Scheme]. apply parse_rest_scheme in Hp. by rewrite Hp, Hl.
Qed.

(** A server that is reached over TLS without an option that asks for it is
    reached over TLS. *)
Lemma https_stays host prefix version u prefix' version' tls u' :
  DefaultServerURL printable parse_authority host prefix version false = Ok u → fu_Scheme u = lit "https" →
  DefaultServerURL printable parse_authority host prefix' version' tls = Ok u' → fu_Scheme u' = lit "https".
Proof.
  unfold DefaultServerURL. destruct (decide (host = [])); [done|].
  destruct (parse_url host) as [h|]; [|done]. cbn [mbind result_bind]. intros H1 H2 H3. revert H1 H3.
  destruct (decide (fu_Scheme h = [])).
  - destruct (parse_url (lit "http://" ++ host)) as [h1|] eqn:Hp; [|done]. cbn [mbind result_bind].
    apply (parse_web_scheme (lit "http") (lit "//" ++ host)) in Hp; [|by left].
    destruct (decide (fu_Path h1 ≠ [] ∧ _)); [done|]. cbn [mbind result_bind]. intros [= <-].
    cbn [fu_Scheme set_full_path] in H2. by destruct (decide (fu_Path h1 = [])); cbn [fu_Scheme set_full_path] in H2; rewrite Hp in H2.
  - cbn [mbind result_bind]. intros [= <-] [= <-].
    destruct (decide (fu_Path h = [])); exact H2.
Qed.
End scheme.

(** ** Credentials and TLS *)

Section secure.
Context {F : Type}.
Variable zero : F.
Variable is_zero : F → bool.
Variable printable : Z → bool.
Variable parse_authority : str → result str (option str * str).
Variable escape_host : str → str.
Variable open_error : str → option str.
Variable kubernetes_master : str.
Variable groups : gmap str GroupMeta.
Implicit Types c : ClientConfig F.
#[local] Abbreviation direct :=
  (direct_ClientConfig zero is_zero printable parse_authority escape_host open_error kubernetes_master groups).
#[local] Abbreviation is_TLS := (IsConfigTransportTLS (F := F) printable parse_authority groups).

(** Whether a configuration has anything that is only for a server that is
    known. *)
Definition has_secrets c : bool :=
  given (cc_Username c) || given (cc_Password c) || given (cc_BearerToken c) || hasCert c || hasCA c || cc_Insecure c.

Lemma server_config_plain server version :
  let c := server_config (F := F) zero printable parse_authority escape_host server version in
  has_secrets c = false ∧ cc_TLS c = no_TLS ∧ cc_Insecure c = false.
Proof. unfold server_config. by destruct (if _ is Ok _ then _ else _) as [host prefix]. Qed.

Lemma is_TLS_https c :
  cc_TLS c = no_TLS → cc_Insecure c = false → is_TLS c = Return true →
  ∃ version u, DefaultServerURL printable parse_authority (if decide (cc_Host c = []) then "localhost" else cc_Host c)
      (cc_Prefix c) version false = Ok u ∧ fu_Scheme u = lit "https".
Proof.
  intros Ht Hi. unfold IsConfigTransportTLS. destruct (defaultVersionFor groups c) as [v| |]; [|done..].
  cbn [mbind control_bind]. unfold defaultServerUrlFor, hasCA, hasCert.
  cbn [cc_Host cc_Prefix cc_Version cc_TLS cc_Insecure set_Version]. rewrite Ht, Hi.
  change (given _ || given _ || _ || false) with false.
  destruct (DefaultServerURL _ _ _ _ v _) as [u|] eqn:Hu; [|done]. intros [= H%bool_decide_eq_true].
  by exists v, u.
Qed.

(** A configuration that is made is the server's own, or has the host of a
    server over TLS. *)
Lemma direct_inv d reader c reader' :
  direct d reader = Return (Ok c, reader') →
  (has_secrets c = false ∧ reader' = reader) ∨
  ∃ sc, cc_Host c = cc_Host sc ∧ cc_TLS sc = no_TLS ∧ cc_Insecure sc = false ∧ is_TLS sc = Return true.
Proof.
  unfold direct_ClientConfig. destruct (direct_ConfirmUsable _ _ _ d) as [[e|]| |]; [done| |done..].
  cbn [mbind control_bind]. destruct (getAuthInfo d) as [a| |]; [|done..].
  destruct (getCluster kubernetes_master d) as [cl| |]; [|done..]. cbn [mbind control_bind].
  pose proof (server_config_plain (cl_Server cl) (cl_APIVersion cl)) as (H1 & H2 & H3).
  set (sc := server_config _ _ _ _ _ _) in *.
  destruct (is_TLS sc) as [[]| |] eqn:Htls; [| |done..].
  - destruct (getUserIdentificationPartialConfig _ _ a reader) as [user r] eqn:Hu. intros [= <- <-]. right.
    exists sc. split; [|done]. cbn [cc_Host merge_Config getServerIdentificationPartialConfig identity zero_Config].
    assert (cc_Host user = []) as ->.
    { revert Hu. unfold getUserIdentificationPartialConfig. destruct reader as [input|]; [|by intros [= <- _]].
      destruct (canIdentifyUser _); [by intros [= <- _]|]. destruct (Prompt input) as [i rest]. by intros [= <- _]. }
    done.
  - intros [= <- <-]. by left.
Qed.

Variable read_file : str → result err str.
Variable bad_key_pair : str → str → option err.
Variable verbosity : Z.
Variable args0 gitVersion gitCommit GOOS GOARCH : str.
Variable positive : F → bool.
Variable five : F.
Variable limiter : F → Z → control RateLimit.Bucket.
#[local] Abbreviation new :=
  (New printable parse_authority read_file bad_key_pair verbosity groups args0 gitVersion gitCommit GOOS GOARCH
    is_zero positive five limiter).

Lemma core_defaults_host c c' :
  SetKubernetesDefaults groups args0 gitVersion gitCommit GOOS GOARCH is_zero five c = Return (Ok c') →
  cc_Host c' = cc_Host c.
Proof.
  unfold SetKubernetesDefaults. destruct (defaultVersionFor groups _) as [v| |]; [|done..]. cbn [mbind control_bind].
  destruct (GroupOrDie groups []) as [g| |]; [|done..]. cbn [mbind control_bind].
  destruct (gm_InterfacesFor g v) as [k|]; [|done]. intros [= <-]. unfold default_agent.
  by repeat case_match.
Qed.

(** C15: credentials, certificates and the options of TLS are only put into a
    configuration whose server is reached over TLS: both clients that are made
    of it then speak [https], and without them nobody is asked for a
    password. *)
Theorem secrets_need_TLS (d : DirectClientConfig) (reader reader' : option str) (c : ClientConfig F)
    (s s' : TransportStore) (k : KubeClient)
    (Hd : direct d reader = Return (Ok c, reader')) (Hn : new c s = (s', Return (Ok k))) :
  (has_secrets c = false ∧ reader' = reader) ∨
  (fu_Scheme (cn_baseURL (RESTClient_ k)) = lit "https" ∧
   ∀ cn, ExperimentalClient k = Some cn → fu_Scheme (cn_baseURL cn) = lit "https").
Proof.
  destruct (direct_inv d reader c reader' Hd) as [?|(sc & Hh & Ht & Hi & Htls)]; [by left|]. right.
  destruct (is_TLS_https sc Ht Hi Htls) as (v & u & Hu & Hs). rewrite <- Hh in Hu.
  assert (Hbase : ∀ c' s1 s2 cn, cc_Host c' = cc_Host c →
    RESTClientFor printable parse_authority read_file bad_key_pair verbosity positive limiter c' s1 =
      (s2, Return (Ok cn)) → fu_Scheme (cn_baseURL cn) = lit "https").
  { intros c' s1 s2 cn Hc' (u' & Hu' & -> & _)%RESTClientFor_inv. unfold defaultServerUrlFor in Hu'. rewrite Hc' in Hu'.
    cbn [fu_Scheme base_of]. by eapply https_stays. }
  apply New_inv in Hn as (config & s1 & Hcd%core_defaults_host & Hr & Hk). split; [by eapply Hbase|].
  intros cn He. rewrite He in Hk. destruct Hk as (c' & Hc' & Hr').
  apply experimental_defaults_inv in Hc' as (g & _ & (Hc' & _) & _). by eapply Hbase.
Qed.
End secure.

(** ** Inside a cluster *)

Section in_cluster.
Context {F : Type}.
Variable zero : F.
Variable is_zero : F → bool.
Variable printable : Z → bool.
Variable parse_authority : str → result str (option str * str).
Variable escape_host : str → str.
Variable open_error : str → option str.
Variable groups : gmap str GroupMeta.
Hypothesis laws : AuthorityLaws parse_authority escape_host.
#[local] Abbreviation direct :=
  (direct_ClientConfig zero is_zero printable parse_authority escape_host open_error [] groups).

(** The server without any configuration: on this machine, without TLS. *)
Lemma direct_default g reader :
  Group groups [] = Ok g →
  direct DefaultClientConfig_ reader =
    Return (Ok (server_config zero printable parse_authority escape_host "http://localhost:8080" []), reader).
Proof.
  intros Hg. unfold direct_ClientConfig.
  assert (direct_ConfirmUsable open_error printable [] DefaultClientConfig_ = Return None) as -> by by vm_compute.
  assert (getAuthInfo DefaultClientConfig_ = Return zero_AuthInfo) as -> by by vm_compute.
  assert (getCluster [] DefaultClientConfig_ = Return DefaultCluster) as -> by by vm_compute.
  cbn [mbind control_bind]. change (cl_Server DefaultCluster) with (lit "http" ++ lit "://" ++ lit "localhost:8080").
  change (cl_APIVersion DefaultCluster) with (@nil ascii).
  assert (Hw : web (lit "http")) by by left.
  assert (server_config zero printable parse_authority escape_host (lit "http" ++ lit "://" ++ lit "localhost:8080") [] =
    mkClientConfig F (lit "http" ++ lit "://" ++ lit "localhost:8080") [] [] None [] [] [] no_TLS false [] None None zero 0)
    as Hsc.
  { unfold server_config, ParseRequestURI. by rewrite (parse_uri_server printable parse_authority escape_host laws). }
  rewrite Hsc. unfold IsConfigTransportTLS, defaultVersionFor. cbn [cc_Version]. rewrite decide_True by done.
  unfold GroupOrDie. unfold Group in Hg. destruct (groups !! []) as [m|]; [|done]. cbn [mbind control_bind].
  unfold defaultServerUrlFor. cbn [cc_Host set_Version cc_Prefix cc_Version cc_TLS cc_Insecure].
  rewrite decide_False by done. rewrite (server_url_web printable parse_authority escape_host laws) by done.
  cbn [fu_Scheme]. rewrite bool_decide_false by done.
  by rewrite <- Hsc.
Qed.

Lemma DeepEqual_refl (c : ClientConfig F) : DeepEqual c c = true.
Proof. by apply bool_decide_eq_true. Qed.

(** a tool without a configuration that runs in a pod uses the service
    account of the pod: it speaks TLS to the server of the cluster, with the
    token of the account, and asks for nothing. *)
Theorem in_cluster_config getenv read_file bad_pool is_file (g : GroupMeta) (reader : option str)
    (Hg : Group groups [] = Ok g) (Hp : Possible getenv is_file = true) :
  merged_ClientConfig zero is_zero printable parse_authority escape_host open_error [] groups getenv read_file
    bad_pool is_file DefaultClientConfig_ reader =
  Return (InClusterConfig zero getenv read_file bad_pool, reader) ∧
  ∀ c, InClusterConfig zero getenv read_file bad_pool = Ok c →
    read_file (service_account ++ lit "token") = Ok (cc_BearerToken c) ∧
    ∃ h, cc_Host c = lit "https://" ++ h.
Proof.
  split.
  - unfold merged_ClientConfig. rewrite !(direct_default g) by done. cbn [mbind control_bind].
    by rewrite Hp, DeepEqual_refl.
  - unfold InClusterConfig. intros c (token & Ht & [= <-])%result_bind_Ok. split; [done|]. by eexists.
Qed.
End in_cluster.

(** ** Who the user is *)

(** the user of the files and the flags is taken when it is enough to identify
    them; otherwise the name and the password are read from the input, one
    word each, and a password that is known already is kept. *)
Theorem user_identified {F} (zero : F) (is_zero : F → bool) (a : AuthInfo) (input : str) :
  let known := known_user zero a in
  let '(c, reader) := getUserIdentificationPartialConfig zero is_zero a (Some input) in
  if canIdentifyUser known then c = known ∧ reader = Some input
  else ∃ user rest password rest',
    Fscan input = (user, rest) ∧ Fscan rest = (password, rest') ∧ reader = Some rest' ∧
    cc_Username c = user ∧ cc_Password c = (if given (au_Password a) then au_Password a else password) ∧
    cc_BearerToken c = [] ∧ hasCert c = false.
Proof.
  cbv zeta. unfold getUserIdentificationPartialConfig. destruct (canIdentifyUser (known_user zero a)) eqn:Hc; [done|].
  unfold Prompt, promptForString. destruct (Fscan input) as [user rest] eqn:H1.
  destruct (Fscan rest) as [password rest'] eqn:H2. exists user, rest, password, rest'.
  split; [done|]. split; [done|]. split; [done|].
  unfold canIdentifyUser in Hc. apply orb_false_iff in Hc as [[Hu Hcert]%orb_false_iff Ht].
  unfold known_user in Hu, Ht, Hcert. cbn [identity cc_Username cc_BearerToken cc_TLS] in Hu, Ht, Hcert.
  assert (au_Username a = []) as Hun.
  { destruct (au_Username a); [done|]. by simpl in Hu. }
  assert (au_Token a = []) as Htk by by destruct (au_Token a).
  destruct (given (au_ClientCertificate a) || given (au_ClientCertificateData a)) eqn:Hcc.
  { cbn [tc_CertFile tc_CertData] in Hcert. by rewrite Hcc in Hcert. }
  unfold known_user, hasCert. rewrite Hun, Htk, Hcc.
  cbn [merge_Config makeUserIdentificationConfig identity cc_Username cc_Password cc_BearerToken cc_TLS merge_TLS
    no_TLS zero_Config tc_CertFile tc_CertData info_User info_Password info_BearerToken info_CertFile].
  change (given []) with false. cbn [orb]. cbn [merge_str]. split; [by destruct (given (au_Password a)), user|]. split; [|done].
  destruct (au_Password a) as [|x w]; [change (given []) with false; by destruct password|done].
Qed.

(** ** Witnesses *)

Import ClientDemo.

Module ConnectDemo.
Definition opens (path : str) : option str := None.
(** A cluster over TLS, and a user with a token. *)
Definition cluster : Cluster := mkCluster [] "https://10.0.0.1:6443/k8s" [] false [] "PEM" None.
Definition user : AuthInfo := mkAuthInfo [] [] [] [] [] "secret" [] [] None.
Definition file : ClientCmd.Config :=
  ClientCmd.mkConfig [] [] NewPreferences (Some {[ lit "c" := cluster ]}) (Some {[ lit "u" := user ]})
    (Some {[ lit "x" := mkContext [] "c" "u" [] None ]}) "x" (Some ∅).
Definition chosen : DirectClientConfig := mkDirect file "x" zero_overrides.
Definition loaded : control (result err (ClientConfig Z) * option str) :=
  direct_ClientConfig 0%Z (λ q, q =? 0)%Z ascii_only plain_authority same_host opens [] groups chosen (Some []).
Definition made (c : ClientConfig Z) : TransportStore * control (result err KubeClient) := new c no_transports.
Definition in_pod (name : str) : str :=
  if decide (name = lit "KUBERNETES_SERVICE_HOST") then "10.1.0.1"
  else if decide (name = lit "KUBERNETES_SERVICE_PORT") then "443" else [].
Definition account_files (name : str) : result err str := Ok (lit "token").
End ConnectDemo.
Import ConnectDemo.

Lemma secrets_need_TLS_witness :
  ∃ c r s k, loaded = Return (Ok c, r) ∧ made c = (s, Return (Ok k)) ∧ cc_BearerToken c = lit "secret" ∧
    fu_Scheme (cn_baseURL (RESTClient_ k)) = lit "https".
Proof.
  destruct loaded as [[[c|] r]| |] eqn:El; [|vm_compute in El; discriminate El..].
  destruct (made c) as [s [[k|]| |]] eqn:Em;
    [|exfalso; vm_compute in El; injection El as <- <-; vm_compute in Em; discriminate Em..].
  exists c, r, s, k. split; [reflexivity|]. split; [exact Em|].
  destruct (secrets_need_TLS 0%Z (λ q, q =? 0)%Z ascii_only plain_authority same_host opens [] groups no_files pair_error 0
    "tool" "v1.1.0" "abcdef0123" "linux" "amd64" (λ q, 0 <? q)%Z 5%Z limiter chosen (Some []) r c no_transports s k El Em)
    as [[H _]|[H _]].
  - exfalso. vm_compute in El. injection El as <- <-. vm_compute in H. discriminate H.
  - split; [|exact H]. vm_compute in El. injection El as <- <-. reflexivity.
Defined.

Lemma in_cluster_config_witness :
  ∃ c, merged_ClientConfig 0%Z (λ q, q =? 0)%Z ascii_only plain_authority same_host opens [] groups in_pod account_files
      (λ _, None) (λ _, true) DefaultClientConfig_ (Some []) = Return (Ok c, Some []) ∧
    cc_Host c = lit "https://10.1.0.1:443" ∧ cc_BearerToken c = lit "token".
Proof.
  destruct (Group groups []) as [g|] eqn:Hg; [|vm_compute in Hg; discriminate Hg].
  destruct (in_cluster_config 0%Z (λ q, q =? 0)%Z ascii_only plain_authority same_host opens groups laws in_pod account_files
    (λ _, None) (λ _, true) g (Some []) Hg) as [H _]; [vm_compute; reflexivity|].
  eexists. split; [etransitivity; [exact H|]; vm_compute; reflexivity|]. split; reflexivity.
Defined.
