(* ===== verification/Broadcaster.v ===== *)
(** * Distributing events to watchers (pkg/watch: mux.go)

    A broadcaster has a goroutine that takes events from a channel and sends
    each to every watcher.  It holds the lock while it sends, and a send may
    have to wait; the other methods hold the lock from their first line to
    their last and never wait while they do, so that each is one step.  The
    callers keep to what the comments ask of them: no [Action] and no [Watch]
    after [Shutdown], which is called once. *)

From S2P Require Import Prelude.

Inductive FullChannelBehavior := WaitIfChannelFull | DropIfChannelFull.

Definition incomingQueueLength : nat := 25.

Section broadcaster.
Context {E : Type}.

(** ** The watchers *)

(** The channel of a watcher is what it holds, its length and whether it is
    closed.  [awaiting]: somebody waits to receive from it.  [leaving]: [Stop]
    has closed [stopped] and is about to call [stopWatching].  The last three
    fields are not in the code: what has been received, the events the
    channel was made with, and how many had been distributed by then. *)
Record broadcasterWatcher := mkWatcher {
  result : list E;
  capacity : nat;
  closed : bool;
  stopped : bool;
  leaving : bool;
  awaiting : bool;
  received : list E;
  queued : list E;
  born : nat
}.

(** There is room for one more event: in the channel, or at once in the hands
    of who waits for it. *)
Definition room (w : broadcasterWatcher) : bool :=
  bool_decide (length (result w) < capacity w + if awaiting w then 1 else 0).

Definition push (e : E) (w : broadcasterWatcher) : broadcasterWatcher :=
  mkWatcher (result w ++ [e]) (capacity w) (closed w) (stopped w) (leaving w) (awaiting w)
    (received w) (queued w) (born w).
Definition close (w : broadcasterWatcher) : broadcasterWatcher :=
  mkWatcher (result w) (capacity w) true (stopped w) (leaving w) (awaiting w) (received w) (queued w) (born w).
Definition set_stop (stopped leaving : bool) (w : broadcasterWatcher) : broadcasterWatcher :=
  mkWatcher (result w) (capacity w) (closed w) stopped leaving (awaiting w) (received w) (queued w) (born w).
Definition await (w : broadcasterWatcher) : broadcasterWatcher :=
  mkWatcher (result w) (capacity w) (closed w) (stopped w) (leaving w) true (received w) (queued w) (born w).
Definition take_one (e : E) (rest : list E) (w : broadcasterWatcher) : broadcasterWatcher :=
  mkWatcher rest (capacity w) (closed w) (stopped w) (leaving w) false (received w ++ [e]) (queued w) (born w).

(** ** The broadcaster *)

(** Where the goroutine is: at the channel, with an event in front of the
    lock, sending the event to the watchers that are left, in front of
    [closeAll], or at its end. *)
Inductive loop_state :=
  | Receiving
  | Holding (e : E)
  | Distributing (e : E) (todo : gset nat)
  | Closing
  | Ended.

(** Watchers are numbered from zero, so that the next number is that of all
    that were made; [watchers] has the numbers of those in the map.  The last
    two fields are not in the code: the events whose distribution has begun,
    and all that were given to [Action]. *)
Record Broadcaster := mkBroadcaster {
  objects : list broadcasterWatcher;
  watchers : gset nat;
  incoming : list E;
  incoming_closed : bool;
  watchQueueLength : nat;
  fullChannelBehavior : FullChannelBehavior;
  loop : loop_state;
  log : list E;
  actions : list E
}.

Definition NewBroadcaster (queueLength : nat) (b : FullChannelBehavior) : Broadcaster :=
  mkBroadcaster [] ∅ [] false queueLength b Receiving [] [].

Definition set_objects (l : list broadcasterWatcher) (m : Broadcaster) : Broadcaster :=
  mkBroadcaster l (watchers m) (incoming m) (incoming_closed m) (watchQueueLength m) (fullChannelBehavior m)
    (loop m) (log m) (actions m).
Definition set_watchers (s : gset nat) (m : Broadcaster) : Broadcaster :=
  mkBroadcaster (objects m) s (incoming m) (incoming_closed m) (watchQueueLength m) (fullChannelBehavior m)
    (loop m) (log m) (actions m).
Definition set_loop (st : loop_state) (m : Broadcaster) : Broadcaster :=
  mkBroadcaster (objects m) (watchers m) (incoming m) (incoming_closed m) (watchQueueLength m)
    (fullChannelBehavior m) st (log m) (actions m).
Definition set_incoming (l : list E) (c : bool) (m : Broadcaster) : Broadcaster :=
  mkBroadcaster (objects m) (watchers m) l c (watchQueueLength m) (fullChannelBehavior m) (loop m) (log m) (actions m).

(** A new watcher whose channel has the given length and holds the events. *)
Definition add_watcher (length : nat) (queuedEvents : list E) (m : Broadcaster) : Broadcaster :=
  let id := base.length (objects m) in
  set_watchers ({[ id ]} ∪ watchers m)
    (set_objects (objects m ++
      [mkWatcher queuedEvents length false false false false [] queuedEvents (base.length (log m))]) m).

Definition Watch (m : Broadcaster) : Broadcaster := add_watcher (watchQueueLength m) [] m.

Definition prefix_length (queuedEvents : list E) (m : Broadcaster) : nat :=
  let n := length queuedEvents + 1 in if decide (watchQueueLength m < n) then n else watchQueueLength m.
Definition WatchWithPrefix (queuedEvents : list E) (m : Broadcaster) : Broadcaster :=
  add_watcher (prefix_length queuedEvents m) queuedEvents m.

Definition stopWatching (id : nat) (m : Broadcaster) : Broadcaster :=
  if decide (id ∈ watchers m) then
    set_watchers (watchers m ∖ {[ id ]}) (set_objects (alter close id (objects m)) m)
  else m.

Definition closeAll (m : Broadcaster) : Broadcaster :=
  set_watchers ∅ (set_objects (imap (λ id w, if decide (id ∈ watchers m) then close w else w) (objects m)) m).

(** Nobody holds the lock but the goroutine, while it sends. *)
Definition lock_free (m : Broadcaster) : bool := match loop m with Distributing _ _ => false | _ => true end.

(** ** Steps *)

(** The steps of the goroutine. *)
Inductive loop_step : Broadcaster → Broadcaster → Prop :=
  | step_receive m e rest :
      loop m = Receiving → incoming m = e :: rest →
      loop_step m (set_loop (Holding e) (set_incoming rest (incoming_closed m) m))
  | step_lock m e :
      loop m = Holding e →
      loop_step m (mkBroadcaster (objects m) (watchers m) (incoming m) (incoming_closed m) (watchQueueLength m)
        (fullChannelBehavior m) (Distributing e (watchers m)) (log m ++ [e]) (actions m))
  | step_send m e todo id w :
      loop m = Distributing e todo → id ∈ todo → objects m !! id = Some w → closed w = false → room w = true →
      loop_step m (set_loop (Distributing e (todo ∖ {[ id ]})) (set_objects (<[id := push e w]> (objects m)) m))
  | step_skip m e todo id w :
      loop m = Distributing e todo → id ∈ todo → objects m !! id = Some w → stopped w = true →
      loop_step m (set_loop (Distributing e (todo ∖ {[ id ]})) m)
  | step_drop m e todo id w :
      loop m = Distributing e todo → id ∈ todo → objects m !! id = Some w →
      fullChannelBehavior m = DropIfChannelFull → room w = false → stopped w = false →
      loop_step m (set_loop (Distributing e (todo ∖ {[ id ]})) m)
  | step_distributed m e :
      loop m = Distributing e ∅ → loop_step m (set_loop Receiving m)
  | step_break m :
      loop m = Receiving → incoming m = [] → incoming_closed m = true → loop_step m (set_loop Closing m)
  | step_close_all m :
      loop m = Closing → loop_step m (set_loop Ended (closeAll m)).

(** The steps of those who use it. *)
Inductive user_step : Broadcaster → Broadcaster → Prop :=
  | step_action m e :
      incoming_closed m = false → length (incoming m) < incomingQueueLength →
      user_step m (mkBroadcaster (objects m) (watchers m) (incoming m ++ [e]) false (watchQueueLength m)
        (fullChannelBehavior m) (loop m) (log m) (actions m ++ [e]))
  | step_watch m :
      lock_free m = true → incoming_closed m = false → user_step m (Watch m)
  | step_watch_prefix m queuedEvents :
      lock_free m = true → incoming_closed m = false → user_step m (WatchWithPrefix queuedEvents m)
  | step_stop m id w :
      objects m !! id = Some w → stopped w = false →
      user_step m (set_objects (<[id := set_stop true true w]> (objects m)) m)
  | step_stop_watching m id w :
      objects m !! id = Some w → leaving w = true → lock_free m = true →
      user_step m (stopWatching id (set_objects (<[id := set_stop true false w]> (objects m)) m))
  | step_await m id w :
      objects m !! id = Some w → result w = [] → closed w = false →
      user_step m (set_objects (<[id := await w]> (objects m)) m)
  | step_take m id w e rest :
      objects m !! id = Some w → result w = e :: rest →
      user_step m (set_objects (<[id := take_one e rest w]> (objects m)) m)
  | step_shutdown m :
      incoming_closed m = false → user_step m (set_incoming (incoming m) true m).

Definition step (m m' : Broadcaster) : Prop := loop_step m m' ∨ user_step m m'.

Definition reachable (m : Broadcaster) : Prop := ∃ queueLength b, rtc step (NewBroadcaster queueLength b) m.

(** What would make the process panic: sending to a channel that is closed,
    and closing it again. *)
Definition panics (m : Broadcaster) : Prop :=
  (∃ e todo id w, loop m = Distributing e todo ∧ id ∈ todo ∧ objects m !! id = Some w ∧ closed w = true) ∨
  (∃ id w, id ∈ watchers m ∧ objects m !! id = Some w ∧ closed w = true).
End broadcaster.
Arguments Broadcaster E : clear implicits.
Arguments broadcasterWatcher E : clear implicits.
