(* ===== verification/BroadcasterSpec.v ===== *)
(** * Distributing events to watchers (proofs about [Broadcaster])

    An invariant of every state that can be reached: no channel is closed
    twice or sent to when it is closed, and what a watcher is given is what
    was distributed since it was made, in that order.  The goroutine waits
    only for events and for watchers that are slow, and ends after
    [Shutdown]. *)

From S2P Require Import Prelude Broadcaster.

Section broadcaster.
Context {E : Type}.
Implicit Types m : Broadcaster E.
Implicit Types w : broadcasterWatcher E.

(** The events whose distribution has passed the watcher. *)
Definition seen (id : nat) m : list E :=
  match loop m with
  | Distributing _ todo => if decide (id ∈ todo) then removelast (log m) else log m
  | _ => log m
  end.

(** What the watcher has been given. *)
Definition given_to w : list E := received w ++ result w.

(** What it should have been given. *)
Definition due (id : nat) w m : list E := queued w ++ drop (born w) (seen id m).

Definition held m : list E := match loop m with Holding e => [e] | _ => [] end.

Record good m (id : nat) w : Prop := {
  good_born : born w ≤ length (seen id m);
  good_order : given_to w `sublist_of` due id w m;
  good_exact : fullChannelBehavior m = WaitIfChannelFull → stopped w = false → given_to w = due id w m;
  good_closed : closed w = true → stopped w = true ∨ loop m = Ended;
  good_leaving : leaving w = true → stopped w = true
}.

Record inv m : Prop := {
  inv_listed : ∀ id, id ∈ watchers m → ∃ w, objects m !! id = Some w ∧ closed w = false;
  inv_unlisted : ∀ id w, objects m !! id = Some w → id ∉ watchers m → closed w = true;
  inv_todo : ∀ e todo, loop m = Distributing e todo → todo ⊆ watchers m ∧ ∃ l, log m = l ++ [e];
  inv_actions : actions m = log m ++ held m ++ incoming m;
  inv_shut : loop m = Closing ∨ loop m = Ended → incoming m = [] ∧ incoming_closed m = true;
  inv_good : ∀ id w, objects m !! id = Some w → good m id w
}.

Lemma drop_grow {A} n (l k : list A) : drop n l `sublist_of` drop n (l ++ k).
Proof. rewrite drop_app. by apply sublist_inserts_r. Qed.

(** ** The steps of the goroutine keep it *)

(** When [seen] stays for a watcher, or grows for one that is stopped. *)
Lemma good_same m m' id w :
  seen id m' = seen id m → fullChannelBehavior m' = fullChannelBehavior m →
  (loop m = Ended → loop m' = Ended) → good m id w → good m' id w.
Proof.
  intros Hs Hf Hl [H1 H2 H3 H4 H5]. split; unfold due in *; rewrite ?Hs, ?Hf; auto. naive_solver.
Qed.

Lemma good_grow m m' id w k :
  seen id m' = seen id m ++ k → fullChannelBehavior m' = fullChannelBehavior m →
  (loop m = Ended → loop m' = Ended) → stopped w = true ∨ fullChannelBehavior m ≠ WaitIfChannelFull →
  good m id w → good m' id w.
Proof.
  intros Hs Hf Hl Hst [H1 H2 H3 H4 H5]. split; unfold due in *; rewrite ?Hs, ?Hf.
  - rewrite length_app. lia.
  - etransitivity; [exact H2|]. by apply sublist_app; [|apply drop_grow].
  - intros Hw Hns. destruct Hst; congruence.
  - naive_solver.
  - done.
Qed.

Lemma seen_todo id m e todo l :
  loop m = Distributing e todo → log m = l ++ [e] → id ∈ todo → seen id m = l.
Proof. intros Hl Hg Hid. unfold seen. rewrite Hl, Hg, decide_True by done. apply removelast_last. Qed.

Lemma seen_not_todo id m e todo : loop m = Distributing e todo → id ∉ todo → seen id m = log m.
Proof. intros Hl Hid. unfold seen. by rewrite Hl, decide_False. Qed.

(** One watcher less is left: the others see what they saw. *)
Lemma seen_remove m m' e todo id id' :
  loop m = Distributing e todo → loop m' = Distributing e (todo ∖ {[ id ]}) → log m' = log m → id' ≠ id →
  seen id' m' = seen id' m.
Proof.
  intros Hl Hl' Hg Hne. unfold seen. rewrite Hl, Hl', Hg.
  destruct (decide (id' ∈ todo)); [by rewrite decide_True by set_solver|by rewrite decide_False by set_solver].
Qed.

Lemma seen_removed m m' e todo id l :
  loop m = Distributing e todo → loop m' = Distributing e (todo ∖ {[ id ]}) → log m' = log m → log m = l ++ [e] →
  id ∈ todo → seen id m' = seen id m ++ [e].
Proof.
  intros Hl Hl' Hg Hlog Hid. rewrite (seen_todo id m e todo l) by done.
  rewrite (seen_not_todo id m' _ _ Hl') by set_solver. by rewrite Hg.
Qed.

Lemma send_good m m' e todo id w l :
  loop m = Distributing e todo → loop m' = Distributing e (todo ∖ {[ id ]}) → log m' = log m → log m = l ++ [e] →
  fullChannelBehavior m' = fullChannelBehavior m → id ∈ todo → good m id w → good m' id (push e w).
Proof.
  intros Hl Hl' Hg Hlog Hf Hid [H1 H2 H3 H4 H5].
  pose proof (seen_removed m m' e todo id l Hl Hl' Hg Hlog Hid) as Hs.
  assert (Hgiven : given_to (push e w) = given_to w ++ [e]) by (unfold given_to; simpl; by rewrite app_assoc).
  assert (Hdue : due id (push e w) m' = due id w m ++ [e]).
  { unfold due. rewrite Hs. simpl. rewrite drop_app_le by done. by rewrite app_assoc. }
  split; rewrite ?Hgiven, ?Hdue, ?Hf, ?Hs; simpl.
  - rewrite length_app. lia.
  - by apply sublist_app.
  - intros Hw Hst. by rewrite H3.
  - intros Hc. destruct (H4 Hc) as [?|?]; [by left|congruence].
  - done.
Qed.

(** The watchers stay as they are, and so does what they have seen. *)
Lemma inv_frame m m' :
  inv m → objects m' = objects m → watchers m' = watchers m → fullChannelBehavior m' = fullChannelBehavior m →
  (loop m = Ended → loop m' = Ended) →
  (∀ id w, objects m !! id = Some w → seen id m' = seen id m) →
  (∀ e todo, loop m' = Distributing e todo → todo ⊆ watchers m ∧ ∃ l, log m' = l ++ [e]) →
  actions m' = log m' ++ held m' ++ incoming m' →
  (loop m' = Closing ∨ loop m' = Ended → incoming m' = [] ∧ incoming_closed m' = true) → inv m'.
Proof.
  intros [I1 I2 I3 I4 I5 I6] Ho Hw Hf Hend Hs Ht Ha Hsh. split; rewrite ?Ho, ?Hw; try done.
  intros id w Hid. apply (good_same m); [by eapply Hs|done|done|by apply I6].
Qed.

(** One watcher changes, and neither leaves the map nor joins it. *)
Lemma inv_insert m m' id w w' :
  inv m → objects m !! id = Some w → objects m' = <[id := w']> (objects m) → watchers m' = watchers m →
  closed w' = closed w → fullChannelBehavior m' = fullChannelBehavior m → (loop m = Ended → loop m' = Ended) →
  (∀ id', id' ≠ id → seen id' m' = seen id' m) →
  (∀ e todo, loop m' = Distributing e todo → todo ⊆ watchers m ∧ ∃ l, log m' = l ++ [e]) →
  actions m' = log m' ++ held m' ++ incoming m' →
  (loop m' = Closing ∨ loop m' = Ended → incoming m' = [] ∧ incoming_closed m' = true) →
  good m' id w' → inv m'.
Proof.
  intros [I1 I2 I3 I4 I5 I6] Hid Ho Hw Hc Hf Hend Hs Ht Ha Hsh Hgood.
  assert (Hlt : id < length (objects m)) by (apply lookup_lt_is_Some; eauto).
  split; rewrite ?Ho, ?Hw; try done.
  - intros i Hi. destruct (I1 i Hi) as (v & Hv & Hvc). destruct (decide (i = id)) as [->|Hne].
    + exists w'. rewrite list_lookup_insert_eq by done. split; [done|congruence].
    + exists v. by rewrite list_lookup_insert_ne by done.
  - intros i v Hi Hni. destruct (decide (i = id)) as [->|Hne].
    + rewrite list_lookup_insert_eq in Hi by done. simplify_eq. rewrite Hc. by eapply I2.
    + rewrite list_lookup_insert_ne in Hi by done. by eapply I2.
  - intros i v Hi. destruct (decide (i = id)) as [->|Hne].
    + rewrite list_lookup_insert_eq in Hi by done. by simplify_eq.
    + rewrite list_lookup_insert_ne in Hi by done. apply (good_same m); auto.
Qed.

Lemma lock_inv m e :
  inv m → loop m = Holding e →
  inv (mkBroadcaster (objects m) (watchers m) (incoming m) (incoming_closed m) (watchQueueLength m)
    (fullChannelBehavior m) (Distributing e (watchers m)) (log m ++ [e]) (actions m)).
Proof.
  intros [I1 I2 I3 I4 I5 I6] Hl. split; simpl; auto.
  - intros e' todo [= <- <-]. eauto.
  - unfold held in *. rewrite Hl in I4. rewrite I4. unfold held. simpl. by rewrite <- app_assoc.
  - intros [?|?]; done.
  - intros id w Hid. destruct (decide (id ∈ watchers m)) as [Hin|Hout].
    + apply (good_same m); simpl; auto; [|congruence].
      unfold seen. simpl. rewrite decide_True by done. rewrite Hl. apply removelast_last.
    + apply (good_grow m _ id w [e]); simpl; auto; [|congruence|].
      * unfold seen. simpl. rewrite decide_False by done. by rewrite Hl.
      * left. destruct (good_closed _ _ _ (I6 id w Hid) (I2 id w Hid Hout)); [done|congruence].
Qed.

(** A watcher that is stopped, or full when events are dropped, is passed over. *)
Lemma pass_inv m e todo id w :
  inv m → loop m = Distributing e todo → id ∈ todo → objects m !! id = Some w →
  stopped w = true ∨ fullChannelBehavior m ≠ WaitIfChannelFull →
  inv (set_loop (Distributing e (todo ∖ {[ id ]})) m).
Proof.
  intros [I1 I2 I3 I4 I5 I6] Hl Hid Hw Hwhy. destruct (I3 e todo Hl) as [Hsub [l Hlog]]. split; simpl; auto.
  - intros e' todo' [= <- <-]. split; [set_solver|eauto].
  - unfold held in *. by rewrite Hl in I4.
  - intros [?|?]; done.
  - intros i v Hi. destruct (decide (i = id)) as [->|Hne].
    + assert (v = w) as -> by congruence. apply (good_grow m _ id w [e]); simpl; auto; [|congruence].
      by apply (seen_removed m _ e todo id l).
    + apply (good_same m); simpl; auto; [|congruence]. by apply (seen_remove m _ e todo id i).
Qed.

Lemma send_inv m e todo id w :
  inv m → loop m = Distributing e todo → id ∈ todo → objects m !! id = Some w →
  inv (set_loop (Distributing e (todo ∖ {[ id ]})) (set_objects (<[id := push e w]> (objects m)) m)).
Proof.
  intros Hinv Hl Hid Hw. pose proof Hinv as [I1 I2 I3 I4 I5 I6]. destruct (I3 e todo Hl) as [Hsub [l Hlog]].
  apply (inv_insert m _ id w (push e w)); simpl; auto.
  - congruence.
  - intros i Hne. by apply (seen_remove m _ e todo id i).
  - intros e' todo' [= <- <-]. split; [set_solver|eauto].
  - unfold held in *. by rewrite Hl in I4.
  - intros [?|?]; done.
  - by apply (send_good m _ e todo id w l); auto.
Qed.

Lemma close_all_inv m : inv m → loop m = Closing → inv (set_loop Ended (closeAll m)).
Proof.
  intros [I1 I2 I3 I4 I5 I6] Hl. split; simpl; auto.
  - by intros id Hid%not_elem_of_empty.
  - intros id w Hw _. rewrite list_lookup_imap in Hw. apply fmap_Some in Hw as (v & Hv & ->).
    destruct (decide (id ∈ watchers m)); [done|by apply (I2 id)].
  - done.
  - unfold held in *. by rewrite Hl in I4.
  - intros id w Hw. rewrite list_lookup_imap in Hw. apply fmap_Some in Hw as (v & Hv & ->).
    destruct (I6 id v Hv) as [H1 H2 H3 H4 H5].
    assert (Hs : seen id (set_loop Ended (closeAll m)) = seen id m) by (unfold seen; simpl; by rewrite Hl).
    destruct (decide (id ∈ watchers m)); split; unfold due in *; rewrite ?Hs; auto.
Qed.

Lemma loop_step_inv m m' : loop_step m m' → inv m → inv m'.
Proof.
  intros Hstep Hinv. pose proof Hinv as [I1 I2 I3 I4 I5 I6].
  destruct Hstep as [m e rest Hl Hi|m e Hl|m e todo id w Hl Hid Hw Hc Hr|m e todo id w Hl Hid Hw Hst
    |m e todo id w Hl Hid Hw Hf Hr Hst|m e Hl|m Hl Hi Hc|m Hl].
  - apply (inv_frame m); simpl; try done; [congruence|by intros; unfold seen; simpl; rewrite Hl| |naive_solver].
    unfold held in *. simpl. by rewrite I4, Hl, Hi.
  - by apply lock_inv.
  - by apply send_inv.
  - eapply pass_inv; eauto.
  - eapply pass_inv; eauto. right. congruence.
  - apply (inv_frame m); simpl; try done; [congruence| | |naive_solver].
    + intros id w Hw. unfold seen. simpl. rewrite Hl. by rewrite decide_False by set_solver.
    + unfold held in *. by rewrite Hl in I4.
  - apply (inv_frame m); simpl; try done; [congruence|by intros; unfold seen; simpl; rewrite Hl|].
    unfold held in *. by rewrite Hl in I4.
  - by apply close_all_inv.
Qed.

(** ** The steps of the users keep it *)

Lemma add_watcher_inv n queuedEvents m :
  inv m → lock_free m = true → incoming_closed m = false → inv (add_watcher n queuedEvents m).
Proof.
  intros [I1 I2 I3 I4 I5 I6] Hlock Hopen.
  assert (Hseen : ∀ id, seen id m = log m) by (intros id; unfold seen; unfold lock_free in Hlock; by destruct (loop m)).
  assert (Hseen' : ∀ id, seen id (add_watcher n queuedEvents m) = seen id m) by done.
  split; simpl; auto.
  - intros id [->%elem_of_singleton|Hid]%elem_of_union.
    + eexists. by rewrite list_lookup_middle.
    + destruct (I1 id Hid) as (w & Hw & Hc). exists w. split; [by apply lookup_app_l_Some|done].
  - intros id w [Hw|[Hlen Hw]]%lookup_app_Some Hid; [eapply I2; [done|set_solver]|].
    apply list_lookup_singleton_Some in Hw as [Hz <-]. assert (id = length (objects m)) by lia. set_solver.
  - intros e todo Hl. destruct (I3 e todo Hl) as [Hsub He]. split; [set_solver|done].
  - intros id w [Hw|[Hlen Hw]]%lookup_app_Some; [by apply (good_same m); auto|].
    apply list_lookup_singleton_Some in Hw as [Hz <-].
    split; unfold due, given_to; simpl; rewrite ?Hseen', ?Hseen, ?drop_all, ?app_nil_r; done.
Qed.

Lemma stopWatching_inv m id w :
  inv m → objects m !! id = Some w → stopped w = true → lock_free m = true → inv (stopWatching id m).
Proof.
  intros Hinv Hw Hst Hlock. unfold stopWatching. destruct (decide (id ∈ watchers m)) as [Hid|]; [|done].
  destruct Hinv as [I1 I2 I3 I4 I5 I6]. split; simpl; auto.
  - intros i Hi. destruct (I1 i) as (v & Hv & Hc); [set_solver|]. exists v.
    rewrite list_lookup_alter_ne by set_solver. done.
  - intros i v Hv Hi. destruct (decide (i = id)) as [->|Hne].
    + rewrite list_lookup_alter_eq, Hw in Hv. by simplify_eq/=.
    + rewrite list_lookup_alter_ne in Hv by done. eapply I2; [done|set_solver].
  - intros e todo Hl. unfold lock_free in Hlock. by rewrite Hl in Hlock.
  - intros i v Hv. destruct (decide (i = id)) as [->|Hne].
    + rewrite list_lookup_alter_eq, Hw in Hv. simplify_eq/=. destruct (I6 id w Hw) as [H1 H2 H3 H4 H5].
      split; unfold due in *; simpl; auto.
    + rewrite list_lookup_alter_ne in Hv by done. by apply (good_same m); auto.
Qed.

Lemma user_step_inv m m' : user_step m m' → inv m → inv m'.
Proof.
  intros Hstep Hinv. pose proof Hinv as [I1 I2 I3 I4 I5 I6].
  destruct Hstep as [m e Ho Hr|m Hl Ho|m q Hl Ho|m id w Hw Hst|m id w Hw Hlv Hl|m id w Hw Hr Hc|m id w e rest Hw Hr|m Ho].
  - apply (inv_frame m); simpl; try done; [by unfold held in *; rewrite I4, !app_assoc|].
    intros Hx. destruct (I5 Hx). congruence.
  - by apply add_watcher_inv.
  - by apply add_watcher_inv.
  - apply (inv_insert m _ id w (set_stop true true w)); simpl; try done. destruct (I6 id w Hw). split; simpl; by auto.
  - assert (Hst := good_leaving _ _ _ (I6 id w Hw) Hlv).
    apply (stopWatching_inv _ id (set_stop true false w)); [|simpl|done|done].
    + apply (inv_insert m _ id w (set_stop true false w)); simpl; try done. destruct (I6 id w Hw). split; simpl; by auto.
    + apply list_lookup_insert_eq. apply lookup_lt_is_Some. eauto.
  - apply (inv_insert m _ id w (await w)); simpl; try done. destruct (I6 id w Hw). split; simpl; by auto.
  - apply (inv_insert m _ id w (take_one e rest w)); simpl; try done. destruct (I6 id w Hw) as [H1 H2 H3 H4 H5].
    assert (Hg : given_to (take_one e rest w) = given_to w) by (unfold given_to; simpl; by rewrite Hr, <- app_assoc).
    by split; rewrite ?Hg.
  - apply (inv_frame m); simpl; try done. intros Hx. by destruct (I5 Hx).
Qed.

Lemma new_inv n b : inv (NewBroadcaster n b).
Proof. split; simpl; try done. naive_solver. Qed.

Lemma broadcaster_inv m : reachable m → inv m.
Proof.
  intros (n & b & Hsteps). remember (NewBroadcaster n b) as m0 eqn:H0.
  assert (Hinv : inv m0) by (rewrite H0; apply new_inv). clear H0.
  induction Hsteps as [|m1 m2 m3 [Hs|Hs] _ IH]; [done|apply IH; by eapply loop_step_inv|apply IH; by eapply user_step_inv].
Qed.

(** ** At the end nobody is listed *)

Definition ended_empty m : Prop := loop m = Ended → watchers m = ∅.

Lemma step_ended m m' : step m m' → inv m → ended_empty m → ended_empty m'.
Proof.
  unfold ended_empty.
  intros [[]|Hu] Hinv Hend; simpl; try congruence.
  destruct Hu as [m e|m Hl Ho|m q Hl Ho|m id w|m id w|m id w|m id w|m]; simpl; auto.
  1,2: intros Hl'; destruct (inv_shut m Hinv (or_intror Hl')); congruence.
  unfold stopWatching. simpl. destruct (decide (id ∈ watchers m)); simpl; [set_solver|done].
Qed.

Lemma broadcaster_step_inv m m' : step m m' → inv m → inv m'.
Proof. intros [H|H]; [by apply loop_step_inv|by apply user_step_inv]. Qed.

Lemma reachable_ended m : reachable m → ended_empty m.
Proof.
  intros (n & b & Hsteps). remember (NewBroadcaster n b) as m0 eqn:H0.
  assert (Hinv : inv m0 ∧ ended_empty m0) by (rewrite H0; split; [apply new_inv|done]). clear H0.
  induction Hsteps as [|m1 m2 m3 Hs _ IH]; [apply Hinv|apply IH]. destruct Hinv as [Hi He].
  split; [by apply (broadcaster_step_inv m1)|by apply (step_ended m1 m2)].
Qed.

Lemma reachable_step m m' : reachable m → step m m' → reachable m'.
Proof. intros (n & b & H) Hs. exists n, b. by eapply rtc_r. Qed.

(** ** The goroutine waits only for events and for slow watchers *)

Definition waits_for_events m : Prop := loop m = Receiving ∧ incoming m = [] ∧ incoming_closed m = false.

Definition waits_for_watchers m : Prop :=
  fullChannelBehavior m = WaitIfChannelFull ∧
  ∃ e todo, loop m = Distributing e todo ∧ todo ≠ ∅ ∧
    ∀ id, id ∈ todo → ∃ w, objects m !! id = Some w ∧ stopped w = false ∧ room w = false.

Definition drops m : bool := match fullChannelBehavior m with DropIfChannelFull => true | _ => false end.

Definition may_pass m (id : nat) : bool :=
  match objects m !! id with Some w => stopped w || room w || drops m | None => false end.

Lemma may_pass_step m e todo id :
  inv m → loop m = Distributing e todo → id ∈ todo → may_pass m id = true → ∃ m', loop_step m m'.
Proof.
  intros Hinv Hl Hid Hp. destruct (inv_todo m Hinv e todo Hl) as [Hsub _].
  destruct (inv_listed m Hinv id (Hsub id Hid)) as (w & Hw & Hc).
  unfold may_pass, drops in Hp. rewrite Hw in Hp. destruct (stopped w) eqn:Hst; [eexists; by eapply step_skip|].
  destruct (room w) eqn:Hr; [eexists; by eapply step_send|].
  destruct (fullChannelBehavior m) eqn:Hf; [done|]. eexists. by eapply step_drop.
Qed.

Lemma none_may_pass m e todo :
  inv m → loop m = Distributing e todo → todo ≠ ∅ → set_Forall (λ id, may_pass m id = false) todo →
  waits_for_watchers m.
Proof.
  intros Hinv Hl Hne Hall. destruct (inv_todo m Hinv e todo Hl) as [Hsub _].
  assert (Hfull : ∀ id, id ∈ todo →
    drops m = false ∧ ∃ w, objects m !! id = Some w ∧ stopped w = false ∧ room w = false).
  { intros id Hid. destruct (inv_listed m Hinv id (Hsub id Hid)) as (w & Hw & Hc).
    specialize (Hall id Hid). unfold may_pass in Hall. simpl in Hall. rewrite Hw in Hall.
    apply orb_false_iff in Hall as [[Hst Hr]%orb_false_iff Hd]. eauto. }
  destruct (set_choose_L todo Hne) as [id Hid]. destruct (Hfull id Hid) as [Hd _].
  split; [unfold drops in Hd; by destruct (fullChannelBehavior m)|]. exists e, todo. split; [done|]. split; [done|].
  intros i Hi. by apply Hfull.
Qed.

Lemma loop_progress m :
  inv m → loop m = Ended ∨ waits_for_events m ∨ waits_for_watchers m ∨ ∃ m', loop_step m m'.
Proof.
  intros Hinv. destruct (loop m) as [|e|e todo| |] eqn:Hl; [| | | |by left].
  - destruct (incoming m) as [|e rest] eqn:Hi.
    + destruct (incoming_closed m) eqn:Hc; [|right; by left]. do 3 right. eexists. by eapply step_break.
    + do 3 right. eexists. by eapply step_receive.
  - do 3 right. eexists. by eapply step_lock.
  - destruct (decide (todo = ∅)) as [->|Hne]; [do 3 right; eexists; by eapply step_distributed|].
    assert (dec : ∀ id, {may_pass m id = false} + {may_pass m id = true})
      by (intros id; destruct (may_pass m id); auto).
    destruct (set_Forall_Exists_dec _ _ dec todo) as [Hall|(id & Hid & Hp)].
    + do 2 right. left. by eapply none_may_pass.
    + do 3 right. by eapply may_pass_step.
  - do 3 right. eexists. by eapply step_close_all.
Qed.

(** ** After [Shutdown] it ends *)

(** How many steps the goroutine can still take. *)
Definition loop_weight m : nat :=
  length (incoming m) * (length (objects m) + 3) +
  match loop m with
  | Receiving => 2
  | Holding _ => length (objects m) + 4
  | Distributing _ todo => size todo + 3
  | Closing => 1
  | Ended => 0
  end.

(** Steps of everybody, those of the goroutine counted. *)
Inductive run : nat → Broadcaster E → Broadcaster E → Prop :=
  | run_done m : run 0 m m
  | run_loop k m m1 m2 : loop_step m m1 → run k m1 m2 → run (S k) m m2
  | run_user k m m1 m2 : user_step m m1 → run k m1 m2 → run k m m2.

Lemma listed_size m : inv m → size (watchers m) ≤ length (objects m).
Proof.
  intros Hinv. rewrite <- (size_set_seq (C := gset nat) 0 (length (objects m))). apply subseteq_size.
  intros id Hid. destruct (inv_listed m Hinv id Hid) as (w & Hw & _).
  apply elem_of_set_seq. apply lookup_lt_Some in Hw. lia.
Qed.

Lemma size_less (s : gset nat) id : id ∈ s → size (s ∖ {[ id ]}) < size s.
Proof. intros Hid. apply subset_size. set_solver. Qed.

Lemma loop_step_weight m m' : inv m → loop_step m m' → loop_weight m' < loop_weight m.
Proof.
  intros Hinv Hs. pose proof (listed_size m Hinv) as Hsz. unfold loop_weight.
  destruct Hs as [m e rest Hl Hi|m e Hl|m e todo id w Hl Hid|m e todo id w Hl Hid|m e todo id w Hl Hid|m e Hl|m Hl Hi|m Hl];
    simpl; rewrite Hl, ?length_insert, ?length_imap; try pose proof (size_less todo id Hid); try lia.
  - rewrite Hi. simpl. lia.
Qed.

Lemma user_step_shut m m' :
  incoming_closed m = true → user_step m m' →
  incoming_closed m' = true ∧ actions m' = actions m ∧ loop_weight m' = loop_weight m.
Proof.
  intros Hc Hs. destruct Hs; try congruence; unfold loop_weight; simpl; rewrite ?length_insert; try done.
  unfold stopWatching. simpl. destruct (decide (id ∈ watchers m)); simpl; by rewrite ?length_alter, ?length_insert.
Qed.

Lemma loop_step_shut m m' :
  incoming_closed m = true → loop_step m m' → incoming_closed m' = true ∧ actions m' = actions m.
Proof. intros Hc Hs. by destruct Hs. Qed.

Lemma run_shut k m m' :
  run k m m' → reachable m → incoming_closed m = true →
  reachable m' ∧ incoming_closed m' = true ∧ actions m' = actions m ∧ k + loop_weight m' ≤ loop_weight m.
Proof.
  induction 1 as [m|k m m1 m2 Hs _ IH|k m m1 m2 Hs _ IH]; intros Hr Hc; [auto| |].
  - destruct (loop_step_shut m m1 Hc Hs) as [Hc1 Ha].
    pose proof (loop_step_weight m m1 (broadcaster_inv m Hr) Hs).
    destruct IH as (H1 & H2 & H3 & H4); [eapply reachable_step; [done|by left]|done|].
    split; [done|]. split; [done|]. split; [congruence|lia].
  - destruct (user_step_shut m m1 Hc Hs) as (Hc1 & Ha & Hw).
    destruct IH as (H1 & H2 & H3 & H4); [eapply reachable_step; [done|by right]|done|].
    split; [done|]. split; [done|]. split; [congruence|lia].
Qed.

Lemma ended_all m :
  reachable m → loop m = Ended → log m = actions m ∧ ∀ id w, objects m !! id = Some w → closed w = true.
Proof.
  intros Hr Hl. pose proof (broadcaster_inv m Hr) as Hinv. split.
  - destruct (inv_shut m Hinv (or_intror Hl)) as [Hi _]. rewrite (inv_actions m Hinv), Hi. unfold held.
    rewrite Hl. by rewrite !app_nil_r.
  - intros id w Hw. apply (inv_unlisted m Hinv id w Hw). rewrite (reachable_ended m Hr Hl). set_solver.
Qed.

(** What has been distributed to a watcher has all been, but for the event
    that is being distributed while its turn is to come. *)
Lemma seen_log m id :
  inv m → seen id m = log m ∨ ∃ e todo, loop m = Distributing e todo ∧ id ∈ todo ∧ log m = seen id m ++ [e].
Proof.
  intros Hinv. destruct (loop m) as [|e|e todo| |] eqn:Hl; try by (left; unfold seen; rewrite Hl).
  destruct (decide (id ∈ todo)) as [Hid|]; [right|left; by eapply seen_not_todo].
  destruct (inv_todo m Hinv e todo Hl) as [_ [l Hlog]]. exists e, todo.
  by rewrite (seen_todo id m e todo l).
Qed.

Lemma seen_sublist m id w : inv m → due id w m `sublist_of` queued w ++ drop (born w) (log m).
Proof.
  intros Hinv. unfold due. apply sublist_app; [done|].
  destruct (seen_log m id Hinv) as [->|(e & todo & _ & _ & ->)]; [done|apply drop_grow].
Qed.

(** ** The theorems *)


(** C29: What [Action] was given is distributed in that order, and a watcher is
    given its prefix and then, in that order and each once, events that were
    distributed since it was made: all of them, but for one whose turn is to
    come, if the broadcaster waits for watchers and this one has not been
    stopped. *)
Theorem delivered_in_order m id w :
  reachable m → objects m !! id = Some w →
  actions m = log m ++ held m ++ incoming m ∧
  given_to w `sublist_of` queued w ++ drop (born w) (log m) ∧
  (fullChannelBehavior m = WaitIfChannelFull → stopped w = false →
    ∃ rest, queued w ++ drop (born w) (log m) = given_to w ++ rest ∧
      (rest = [] ∨ ∃ e todo, loop m = Distributing e todo ∧ id ∈ todo ∧ rest = [e])).
Proof.
  intros Hr Hw. pose proof (broadcaster_inv m Hr) as Hinv. destruct (inv_good m Hinv id w Hw) as [H1 H2 H3 _ _].
  split; [by apply inv_actions|]. split; [etransitivity; [exact H2|by apply seen_sublist]|].
  intros Hf Hst. rewrite (H3 Hf Hst). unfold due.
  destruct (seen_log m id Hinv) as [->|(e & todo & Hl & Hid & ->)].
  - exists []. rewrite app_nil_r. by split; [|left].
  - exists [e]. rewrite drop_app_le by done. split; [by rewrite app_assoc|]. right. by exists e, todo.
Qed.

(** After [Shutdown] the goroutine takes a bounded number of steps, whatever
    the others do between them; it waits only for watchers that are neither
    stopped nor have room, and for none if events are dropped; and when it
    has ended, which is when [Shutdown] returns, every event has been
    distributed and every channel is closed. *)
Theorem Broadcaster_Shutdown_ends m m' k :
  reachable m → incoming_closed m = true → run k m m' →
  k ≤ loop_weight m ∧
  (loop m' = Ended ∨ waits_for_watchers m' ∨ ∃ m'', loop_step m' m'') ∧
  (loop m' = Ended → log m' = actions m ∧ ∀ id w, objects m' !! id = Some w → closed w = true).
Proof.
  intros Hr Hc Hrun. destruct (run_shut k m m' Hrun Hr Hc) as (Hr' & Hc' & Ha & Hle).
  split; [lia|]. split.
  - destruct (loop_progress m' (broadcaster_inv m' Hr')) as [?|[(_ & _ & ?)|?]]; [by left|congruence|by right].
  - intros Hl. rewrite <- Ha. by apply ended_all.
Qed.
End broadcaster.

(** ** A broadcaster with one watcher and one event *)

Definition one_event : Broadcaster nat :=
  mkBroadcaster [mkWatcher [] 1 false false false false [] [] 0] {[ 0 ]} [7] true 1 WaitIfChannelFull Receiving [] [7].

Lemma one_event_reachable : reachable one_event.
Proof.
  exists 1, WaitIfChannelFull. eapply rtc_l; [right; apply step_watch; reflexivity|].
  eapply rtc_l; [right; apply (step_action _ 7); [reflexivity|unfold incomingQueueLength; simpl; lia]|].
  eapply rtc_l; [right; apply step_shutdown; reflexivity|]. apply rtc_refl.
Qed.

Definition one_event_ended : Broadcaster nat :=
  mkBroadcaster [mkWatcher [7] 1 true false false false [] [] 0] ∅ [] true 1 WaitIfChannelFull Ended [7] [7].

Lemma one_event_ends : run 6 one_event one_event_ended.
Proof.
  eapply run_loop; [eapply step_receive; reflexivity|].
  eapply run_loop; [eapply step_lock; reflexivity|].
  eapply run_loop; [eapply (step_send _ 7 {[ 0 ]} 0); [reflexivity|set_solver|reflexivity..]|].
  eapply run_loop; [eapply (step_distributed _ 7); reflexivity|].
  eapply run_loop; [eapply step_break; reflexivity|].
  eapply run_loop; [eapply step_close_all; reflexivity|].
  apply run_done.
Qed.


Lemma one_event_ended_reachable : reachable one_event_ended.
Proof. by apply (run_shut 6 one_event); [apply one_event_ends|apply one_event_reachable|]. Qed.

Lemma delivered_in_order_witness :
  actions one_event_ended = log one_event_ended ∧ [7] `sublist_of` drop 0 (log one_event_ended).
Proof.
  destruct (delivered_in_order one_event_ended 0 _ one_event_ended_reachable eq_refl) as (H & Hsub & _).
  split; [exact H|exact Hsub].
Defined.

Lemma Broadcaster_Shutdown_ends_witness :
  6 ≤ loop_weight one_event ∧ log one_event_ended = [7].
Proof.
  destruct (Broadcaster_Shutdown_ends one_event one_event_ended 6 one_event_reachable eq_refl one_event_ends)
    as (H & _ & Hend).
  split; [exact H|]. apply Hend. reflexivity.
Defined.
