(* ===== verification/StreamWatcher.v ===== *)
(** * Watching a stream, and filters (pkg/watch: iowatcher.go, filter.go,
      watch.go)

    A watch is a channel of events and a way to stop it.  The one over a
    stream has a goroutine that decodes an event and hands it to whoever
    receives from the channel, which has no buffer; a filter has a goroutine
    that receives from another watch and hands over what the filter keeps.
    The decoder is not part of this code: decoding gives an event, or an
    error, or panics, and after [Close] no event. *)

From S2P Require Import Prelude.

(** ** Events (watch.go) *)

Inductive EventType := Added | Modified | Deleted | Error.
Record Event (O : Type) := mkEvent { ev_Type : EventType; ev_Object : O }.
Arguments mkEvent {O} _ _.
Arguments ev_Type {O} _.
Arguments ev_Object {O} _.

(** The watch without events: a channel that is closed.  [None]: the channel
    is closed. *)
Definition NewEmptyWatch {E} : list E * bool := ([], true).
Definition empty_Stop {E} (w : list E * bool) : list E * bool := w.

(** The watch for tests.  [got] is what has been received from its channel,
    which has no buffer: a send ends when somebody has received it. *)
Record FakeWatcher (O : Type) := mkFake { fake_got : list (Event O); fake_closed : bool; Stopped : bool }.
Arguments mkFake {O} _ _ _.
Arguments fake_got {O} _.
Arguments fake_closed {O} _.
Arguments Stopped {O} _.

Section fake.
Context {O : Type}.
Definition NewFake : FakeWatcher O := mkFake [] false false.
Definition fake_Stop (f : FakeWatcher O) : FakeWatcher O :=
  if Stopped f then f else mkFake (fake_got f) true true.
Definition Action (action : EventType) (obj : O) (f : FakeWatcher O) : control (FakeWatcher O) :=
  if fake_closed f then Panic (lit "send on closed channel"%go)
  else Return (mkFake (fake_got f ++ [mkEvent action obj]) (fake_closed f) (Stopped f)).
Definition fake_Add (obj : O) (f : FakeWatcher O) : control (FakeWatcher O) := Action Added obj f.
Definition fake_Modify (obj : O) (f : FakeWatcher O) : control (FakeWatcher O) := Action Modified obj f.
Definition fake_Delete (lastValue : O) (f : FakeWatcher O) : control (FakeWatcher O) := Action Deleted lastValue f.
Definition fake_Error (errValue : O) (f : FakeWatcher O) : control (FakeWatcher O) := Action Error errValue f.
End fake.

(** ** A watch over a stream (iowatcher.go) *)

Section stream.
Context {E Err : Type}.

(** Where the goroutine is: in [Decode], with its error, handing an event
    over, in front of the deferred [Stop], in front of the deferred [close],
    at its end. *)
Inductive receive_state :=
  | Decoding
  | Failed (err : Err)
  | Sending (e : E)
  | Stopping
  | ClosingResult
  | Returned.

(** [source_closed]: how often [Close] of the decoder was called.  The last
    two fields are not in the code: the events that were decoded, and those
    that were received from the channel. *)
Record StreamWatcher := mkStream {
  source_closed : nat;
  stopped : bool;
  result_closed : nat;
  receiving : receive_state;
  decoded : list E;
  got : list E
}.

Definition NewStreamWatcher : StreamWatcher := mkStream 0 false 0 Decoding [] [].

Definition set_receiving (st : receive_state) (sw : StreamWatcher) : StreamWatcher :=
  mkStream (source_closed sw) (stopped sw) (result_closed sw) st (decoded sw) (got sw).

Definition Stop (sw : StreamWatcher) : StreamWatcher :=
  if stopped sw then sw
  else mkStream (S (source_closed sw)) true (result_closed sw) (receiving sw) (decoded sw) (got sw).
Definition stopping (sw : StreamWatcher) : bool := stopped sw.

(** The steps the goroutine takes by itself. *)
Inductive receive_step : StreamWatcher → StreamWatcher → Prop :=
  | step_decode sw e :
      receiving sw = Decoding → source_closed sw = 0 →
      receive_step sw (mkStream 0 (stopped sw) (result_closed sw) (Sending e) (decoded sw ++ [e]) (got sw))
  | step_decode_error sw err :
      receiving sw = Decoding → receive_step sw (set_receiving (Failed err) sw)
  | step_decode_panic sw :
      receiving sw = Decoding → receive_step sw (set_receiving Stopping sw)
  | step_return sw err :
      receiving sw = Failed err → receive_step sw (set_receiving Stopping sw)
  | step_deferred_Stop sw :
      receiving sw = Stopping → receive_step sw (set_receiving ClosingResult (Stop sw))
  | step_deferred_close sw :
      receiving sw = ClosingResult →
      receive_step sw (mkStream (source_closed sw) (stopped sw) (S (result_closed sw)) Returned (decoded sw) (got sw)).

(** Somebody receives the event that is being handed over. *)
Definition hand_over (e : E) (sw : StreamWatcher) : StreamWatcher :=
  mkStream (source_closed sw) (stopped sw) (result_closed sw) Decoding (decoded sw) (got sw ++ [e]).

Inductive step : StreamWatcher → StreamWatcher → Prop :=
  | step_receive sw sw' : receive_step sw sw' → step sw sw'
  | step_hand_over sw e : receiving sw = Sending e → step sw (hand_over e sw)
  | step_Stop sw : step sw (Stop sw).

Definition reachable (sw : StreamWatcher) : Prop := rtc step NewStreamWatcher sw.

(** ** A filter on it (filter.go) *)

Definition FilterFunc := E → E * bool.

(** At the channel of the other watch, handing an event over, at the end. *)
Inductive filter_state := Waiting | Passing (e : E) | Ended.

(** The watch that is filtered, where the goroutine is, and how often its
    channel was closed; [f_got] is what was received from it. *)
Record filteredWatch := mkFiltered {
  f_incoming : StreamWatcher;
  f_loop : filter_state;
  f_closed : nat;
  f_got : list E
}.

Definition Filter (w : StreamWatcher) : filteredWatch := mkFiltered w Waiting 0 [].
Definition f_Stop (fw : filteredWatch) : filteredWatch :=
  mkFiltered (Stop (f_incoming fw)) (f_loop fw) (f_closed fw) (f_got fw).

Definition filter_event (f : FilterFunc) (event : E) : filter_state :=
  let '(filtered, keep) := f event in if keep : bool then Passing filtered else Waiting.

Inductive filter_step (f : FilterFunc) : filteredWatch → filteredWatch → Prop :=
  | step_source fw sw :
      receive_step (f_incoming fw) sw → filter_step f fw (mkFiltered sw (f_loop fw) (f_closed fw) (f_got fw))
  | step_event fw e :
      f_loop fw = Waiting → receiving (f_incoming fw) = Sending e →
      filter_step f fw (mkFiltered (hand_over e (f_incoming fw)) (filter_event f e) (f_closed fw) (f_got fw))
  | step_filter_close fw :
      f_loop fw = Waiting → result_closed (f_incoming fw) ≠ 0 →
      filter_step f fw (mkFiltered (f_incoming fw) Ended (S (f_closed fw)) (f_got fw))
  | step_pass fw e :
      f_loop fw = Passing e →
      filter_step f fw (mkFiltered (f_incoming fw) Waiting (f_closed fw) (f_got fw ++ [e]))
  | step_filter_Stop fw : filter_step f fw (f_Stop fw).

Definition filter_reachable (f : FilterFunc) (fw : filteredWatch) : Prop :=
  rtc (filter_step f) (Filter NewStreamWatcher) fw.
End stream.
Arguments StreamWatcher E Err : clear implicits.
Arguments filteredWatch E Err : clear implicits.
Arguments receive_state E Err : clear implicits.
