(* ===== verification/StreamWatcherSpec.v ===== *)
(** * Watching a stream, and filters (proofs about [StreamWatcher])

    The decoder is closed once, the channel too, and the events that were
    decoded are received in that order; through a filter, those that it
    keeps.  After [Stop] the goroutine takes a bounded number of steps, but
    waits as long as nobody receives the event it is about to hand over. *)

From S2P Require Import Prelude StreamWatcher.

Section stream.
Context {E Err : Type}.
Implicit Types sw : StreamWatcher E Err.

Definition held (st : receive_state E Err) : list E := match st with Sending e => [e] | _ => [] end.

Record good sw : Prop := {
  good_closed : source_closed sw = if stopped sw then 1 else 0;
  good_order : decoded sw = got sw ++ held (receiving sw);
  good_result : result_closed sw = match receiving sw with Returned => 1 | _ => 0 end;
  good_stopped : receiving sw = ClosingResult ∨ receiving sw = Returned → stopped sw = true
}.

Lemma Stop_good sw : good sw → good (Stop sw).
Proof. intros [H1 H2 H3 H4]. unfold Stop. destruct (stopped sw) eqn:Hs; split; simpl; rewrite ?Hs; try done; by rewrite ?H1. Qed.

Lemma set_good sw st :
  good sw → held st = [] → held (receiving sw) = [] → receiving sw ≠ Returned → st ≠ Returned →
  (st = ClosingResult → stopped sw = true) → good (set_receiving st sw).
Proof.
  intros [H1 H2 H3 H4] Hst Hsw Hr Hr' Hc. split; simpl; [done|by rewrite H2, Hst, Hsw| |naive_solver].
  rewrite H3. destruct (receiving sw), st; done.
Qed.

Lemma receive_good sw sw' : receive_step sw sw' → good sw → good sw'.
Proof.
  intros Hs Hg. destruct Hs as [sw e Hr Hc|sw err Hr|sw Hr|sw err Hr|sw Hr|sw Hr]; pose proof Hg as [H1 H2 H3 H4].
  - split; simpl; [congruence|by rewrite H2, Hr, app_nil_r|by rewrite H3, Hr|naive_solver].
  - apply set_good; rewrite ?Hr; done.
  - apply set_good; rewrite ?Hr; done.
  - apply set_good; rewrite ?Hr; done.
  - assert (Hrs : receiving (Stop sw) = Stopping) by (unfold Stop; by destruct (stopped sw)).
    apply set_good; rewrite ?Hrs; try done; [by apply Stop_good|].
    intros _. unfold Stop. by destruct (stopped sw) eqn:?.
  - split; simpl; [done|by rewrite H2, Hr|by rewrite H3, Hr|naive_solver].
Qed.

Lemma hand_over_good sw e : receiving sw = Sending e → good sw → good (hand_over e sw).
Proof.
  intros Hr [H1 H2 H3 H4]. split; simpl; [done|by rewrite H2, Hr, app_nil_r|by rewrite H3, Hr|naive_solver].
Qed.

Lemma new_good : good (NewStreamWatcher (E := E) (Err := Err)).
Proof. split; simpl; [done..|naive_solver]. Qed.

Lemma reachable_good sw : reachable sw → good sw.
Proof.
  unfold reachable. generalize (NewStreamWatcher (E := E) (Err := Err)), new_good. intros sw0 Hg Hs.
  induction Hs as [|a b c Hs _ IH]; [done|apply IH].
  destruct Hs; [by eapply receive_good|by apply hand_over_good|by apply Stop_good].
Qed.

(** ** After [Stop] *)

Definition weight (st : receive_state E Err) : nat :=
  match st with
  | Sending _ => 5 | Decoding => 4 | Failed _ => 3 | Stopping => 2 | ClosingResult => 1 | Returned => 0
  end.

(** Steps of everybody, those of the goroutine and those that receive from it
    counted. *)
Inductive run : nat → StreamWatcher E Err → StreamWatcher E Err → Prop :=
  | run_done sw : run 0 sw sw
  | run_receive k sw sw1 sw2 : receive_step sw sw1 → run k sw1 sw2 → run (S k) sw sw2
  | run_hand_over k sw e sw2 : receiving sw = Sending e → run k (hand_over e sw) sw2 → run (S k) sw sw2
  | run_Stop k sw sw2 : run k (Stop sw) sw2 → run k sw sw2.

Lemma Stop_stopped sw : stopped sw = true → Stop sw = sw.
Proof. intros H. unfold Stop. by rewrite H. Qed.

Lemma run_weight k sw sw' :
  run k sw sw' → good sw → stopped sw = true →
  good sw' ∧ stopped sw' = true ∧ k + weight (receiving sw') ≤ weight (receiving sw).
Proof.
  induction 1 as [sw|k sw sw1 sw2 Hs _ IH|k sw e sw2 Hr _ IH|k sw sw2 _ IH]; intros Hg Hst; [split; [done|split; [done|lia]]|..].
  - assert (H1 : stopped sw1 = true ∧ S (weight (receiving sw1)) ≤ weight (receiving sw)).
    { destruct Hs as [sw e Hr Hc|sw err Hr|sw Hr|sw err Hr|sw Hr|sw Hr]; simpl; rewrite ?Hr; simpl; split; try done; try lia.
      - rewrite (good_closed sw Hg), Hst in Hc. done.
      - by rewrite Stop_stopped. }
    destruct IH as (H2 & H3 & H4); [by eapply receive_good|apply H1|]. split; [done|split; [done|lia]].
  - destruct IH as (H2 & H3 & H4); [by apply hand_over_good|done|]. simpl in H4. rewrite Hr. simpl.
    split; [done|split; [done|lia]].
  - rewrite Stop_stopped in IH by done. by apply IH.
Qed.

Lemma receive_progress sw :
  receiving sw = Returned ∨ (∃ e, receiving sw = Sending e) ∨ ∃ sw', receive_step sw sw'.
Proof.
  destruct (receiving sw) as [|err|e| | |] eqn:Hr; [| |right; left; by exists e| | |by left]; do 2 right.
  - eexists. by eapply step_decode_panic.
  - eexists. by eapply step_return.
  - eexists. by eapply step_deferred_Stop.
  - eexists. by eapply step_deferred_close.
Qed.

(** An event that nobody receives keeps the goroutine, after [Stop] too: the
    channel is not closed. *)
Lemma Stop_waits_for_receiver sw e sw' : receiving sw = Sending e → ¬ receive_step (Stop sw) sw'.
Proof.
  intros Hr Hs. assert (Hr' : receiving (Stop sw) = Sending e) by (unfold Stop; by destruct (stopped sw)).
  destruct Hs; congruence.
Qed.

(** ** Through a filter *)

Section filter.
Context (f : FilterFunc (E := E)).
Implicit Types fw : filteredWatch E Err.

(** What the filter makes of events. *)
Definition kept (l : list E) : list E := omap (λ e, let '(out, keep) := f e in if keep : bool then Some out else None) l.

Definition passing (st : filter_state (E := E)) : list E := match st with Passing e => [e] | _ => [] end.

Record f_good fw : Prop := {
  f_source : good (f_incoming fw);
  f_order : kept (got (f_incoming fw)) = f_got fw ++ passing (f_loop fw);
  f_once : f_closed fw = match f_loop fw with Ended => 1 | _ => 0 end;
  f_end : f_loop fw = Ended → receiving (f_incoming fw) = Returned
}.

Lemma kept_snoc l e : kept (l ++ [e]) = kept l ++ passing (filter_event f e).
Proof. unfold kept, filter_event. rewrite omap_app. simpl. destruct (f e) as [out []]; simpl; by rewrite ?app_nil_r. Qed.

Lemma receive_got sw sw' : receive_step sw sw' → got sw' = got sw.
Proof. intros []; simpl; try done. unfold Stop. by destruct (stopped _). Qed.

Lemma filter_step_good fw fw' : filter_step f fw fw' → f_good fw → f_good fw'.
Proof.
  intros Hs [H1 H2 H3 H4]. destruct Hs as [fw sw Hs|fw e Hl Hr|fw Hl Hc|fw e Hl|fw].
  - split; simpl; [by eapply receive_good|by rewrite (receive_got _ _ Hs)|done|].
    intros Hl. specialize (H4 Hl). destruct Hs; congruence.
  - split; simpl.
    + by apply hand_over_good.
    + rewrite kept_snoc, H2, Hl. simpl. by rewrite app_nil_r.
    + rewrite H3, Hl. unfold filter_event. by destruct (f e) as [? []].
    + unfold filter_event. by destruct (f e) as [? []].
  - split; simpl; [done|by rewrite H2, Hl|by rewrite H3, Hl|]. intros _.
    rewrite (good_result _ H1) in Hc. by destruct (receiving (f_incoming fw)).
  - split; simpl; [done|by rewrite H2, Hl, app_nil_r|by rewrite H3, Hl|done].
  - assert (Hg : got (Stop (f_incoming fw)) = got (f_incoming fw) ∧ receiving (Stop (f_incoming fw)) = receiving (f_incoming fw))
      by (unfold Stop; by destruct (stopped (f_incoming fw))).
    destruct Hg as [Hg Hr]. split; simpl; [by apply Stop_good|by rewrite Hg|done|by rewrite Hr].
Qed.

Lemma filter_reachable_good fw : filter_reachable f fw → f_good fw.
Proof.
  assert (H0 : f_good (Filter (NewStreamWatcher (E := E) (Err := Err)))) by (split; [apply new_good|done..]).
  unfold filter_reachable. revert H0. generalize (Filter (NewStreamWatcher (E := E) (Err := Err))). intros fw0 Hg Hs.
  induction Hs as [|a b c Hs _ IH]; [done|apply IH]. by eapply filter_step_good.
Qed.

(** What is received from a filter on a stream is what the filter makes of a
    prefix of the events that were decoded, in their order; all of them, when
    its channel is closed.  The decoder is closed at most once, and once if
    somebody has called [Stop] or the stream has ended; the channels are
    closed at most once. *)
Theorem Filter_delivers fw :
  filter_reachable f fw →
  ∃ rest, decoded (f_incoming fw) = got (f_incoming fw) ++ rest ∧
    kept (got (f_incoming fw)) = f_got fw ++ passing (f_loop fw) ∧
    (f_closed fw = 1 → rest = [] ∧ f_got fw = kept (decoded (f_incoming fw)) ∧ result_closed (f_incoming fw) = 1 ∧
      source_closed (f_incoming fw) = 1) ∧
    source_closed (f_incoming fw) ≤ 1 ∧ result_closed (f_incoming fw) ≤ 1 ∧ f_closed fw ≤ 1.
Proof.
  intros Hr. destruct (filter_reachable_good fw Hr) as [[H1 H2 H3 H4] Ho Hf He].
  exists (held (receiving (f_incoming fw))). split; [done|]. split; [done|]. split.
  - rewrite Hf. destruct (f_loop fw) eqn:Hl; try done. intros _. specialize (He eq_refl).
    rewrite He in *. simpl in *. rewrite app_nil_r in *. rewrite H2, Ho, H1. repeat split; [done|].
    by rewrite H4 by auto.
  - rewrite H1, H3, Hf. destruct (stopped _), (receiving _), (f_loop fw); lia.
Qed.

(** After [Stop] the goroutine takes at most five more steps, those counted
    that receive from it.  It waits for nothing but a receiver for an event
    that it is handing over; at its end the channel is closed and every event
    that was decoded has been received. *)
Theorem Stop_ends sw sw' k :
  reachable sw → stopped sw = true → run k sw sw' →
  k ≤ 5 ∧ (receiving sw' = Returned ∨ (∃ e, receiving sw' = Sending e) ∨ ∃ sw'', receive_step sw' sw'') ∧
  (receiving sw' = Returned → result_closed sw' = 1 ∧ got sw' = decoded sw').
Proof.
  intros Hr Hst Hrun. destruct (run_weight k sw sw' Hrun (reachable_good sw Hr) Hst) as (Hg & _ & Hw).
  split; [destruct (receiving sw); simpl in Hw; lia|]. split; [apply receive_progress|].
  intros Hret. destruct Hg as [_ H2 H3 _]. rewrite H2, H3, Hret. simpl. by rewrite app_nil_r.
Qed.
End filter.
End stream.

(** ** One event, through a filter that adds one *)

Definition add_one (e : nat) : nat * bool := (S e, true).

Definition one_passing : filteredWatch nat unit :=
  mkFiltered (mkStream 0 false 0 Decoding [7] [7]) (Passing 8) 0 [].

Lemma one_passing_reachable : filter_reachable add_one one_passing.
Proof.
  eapply rtc_l; [apply step_source; by apply (step_decode _ 7)|].
  eapply rtc_l; [by eapply (step_event _ _ 7)|]. apply rtc_refl.
Qed.

Lemma Filter_delivers_witness :
  ∃ rest, [7] = [7] ++ rest ∧ kept add_one [7] = [8] ∧ rest = [].
Proof.
  destruct (Filter_delivers add_one one_passing one_passing_reachable) as (rest & H & Hk & _).
  exists rest. split; [exact H|]. split; [exact Hk|]. injection H as H. symmetry. exact H.
Defined.

Definition stopped_stream : StreamWatcher nat unit := Stop NewStreamWatcher.
Definition ended_stream : StreamWatcher nat unit := mkStream 1 true 1 Returned [] [].

Lemma stopped_stream_run : run 4 stopped_stream ended_stream.
Proof.
  eapply run_receive; [by apply (step_decode_error _ tt)|]. eapply run_receive; [by eapply step_return|].
  eapply run_receive; [by apply step_deferred_Stop|]. eapply run_receive; [by apply step_deferred_close|]. apply run_done.
Qed.

Lemma Stop_ends_witness : 4 ≤ 5 ∧ result_closed ended_stream = 1.
Proof.
  assert (Hr : reachable stopped_stream) by (eapply rtc_l; [apply step_Stop|apply rtc_refl]).
  destruct (Stop_ends stopped_stream ended_stream 4 Hr eq_refl stopped_stream_run) as (H & _ & Hend).
  split; [exact H|]. apply Hend. reflexivity.
Defined.
