(* ===== verification/Cluster.v ===== *)
(** * A cluster and the programs that work on it (pkg/util/wait,
      client/unversioned/conditions.go, api/resource_helpers.go)

    The commands that scale, stop and replace controllers are written against
    a client, a clock and a poller.  [Cluster] is the interface of these: what
    the calls of the client do, how time passes, and how many ticks a poller
    gives before it ends.  A program is a function of the world ([M]) that is
    done, fails with an error, panics or goes on forever.  Of the objects,
    the fields that the programs read or write are modelled; what they print
    is not. *)

From S2P Require Import Prelude GoStr KubeTypes Labels Errors ApiErrors.

Local Open Scope go_scope.

(** ** Objects (pkg/api/types.go, pkg/apis/extensions/types.go) *)

(** [rest] stands for the fields the programs hand on unread. *)
Record Container := mkContainer { Container_Image : str; Container_rest : str }.

Record PodTemplateSpec := mkTemplate {
  pt_Labels : string_map;
  pt_Containers : list Container;
  pt_NodeSelector : string_map;
  pt_rest : str
}.

Record ReplicationController := mkRC {
  rc_ObjectMeta : ObjectMeta;
  rc_Replicas : Z;
  rc_Selector : string_map;
  rc_Template : option PodTemplateSpec;
  rc_StatusReplicas : Z;
  rc_ObservedGeneration : Z
}.

Record PodCondition := mkPodCondition { pc_Type : str; pc_Status : str }.
Record Pod := mkPod { pod_ObjectMeta : ObjectMeta; pod_Conditions : list PodCondition; pod_rest : str }.

Record Job := mkJob {
  job_ObjectMeta : ObjectMeta;
  job_Parallelism : option Z;
  job_Completions : option Z;
  job_Active : Z;
  job_Succeeded : Z;
  job_rest : str
}.

Record DaemonSet := mkDaemonSet {
  ds_ObjectMeta : ObjectMeta;
  ds_Template : option PodTemplateSpec;
  ds_CurrentNumberScheduled : Z;
  ds_NumberMisscheduled : Z;
  ds_rest : str
}.

Record DeleteOptions := mkDeleteOptions { GracePeriodSeconds : option Z }.

(** Assignments to fields. *)
Definition meta_set (name resourceVersion : str) (labels annotations : string_map) (m : ObjectMeta) : ObjectMeta := {|
  om_Name := name;
  om_GenerateName := om_GenerateName m;
  om_Namespace := om_Namespace m;
  om_SelfLink := om_SelfLink m;
  om_UID := om_UID m;
  om_ResourceVersion := resourceVersion;
  om_Generation := om_Generation m;
  om_CreationTimestamp := om_CreationTimestamp m;
  om_DeletionTimestamp := om_DeletionTimestamp m;
  om_DeletionGracePeriodSeconds := om_DeletionGracePeriodSeconds m;
  om_Labels := labels;
  om_Annotations := annotations
|}.
Definition meta_ResourceVersion (v : str) (m : ObjectMeta) := meta_set (om_Name m) v (om_Labels m) (om_Annotations m) m.
Definition meta_Name (n : str) (m : ObjectMeta) := meta_set n (om_ResourceVersion m) (om_Labels m) (om_Annotations m) m.
Definition meta_Labels (l : string_map) (m : ObjectMeta) := meta_set (om_Name m) (om_ResourceVersion m) l (om_Annotations m) m.
Definition meta_Annotations (a : string_map) (m : ObjectMeta) := meta_set (om_Name m) (om_ResourceVersion m) (om_Labels m) a m.

Definition rc_meta (f : ObjectMeta → ObjectMeta) (rc : ReplicationController) : ReplicationController :=
  mkRC (f (rc_ObjectMeta rc)) (rc_Replicas rc) (rc_Selector rc) (rc_Template rc) (rc_StatusReplicas rc) (rc_ObservedGeneration rc).
Definition set_Replicas (n : Z) (rc : ReplicationController) : ReplicationController :=
  mkRC (rc_ObjectMeta rc) n (rc_Selector rc) (rc_Template rc) (rc_StatusReplicas rc) (rc_ObservedGeneration rc).
Definition set_Selector (s : string_map) (rc : ReplicationController) : ReplicationController :=
  mkRC (rc_ObjectMeta rc) (rc_Replicas rc) s (rc_Template rc) (rc_StatusReplicas rc) (rc_ObservedGeneration rc).
Definition set_Template (t : option PodTemplateSpec) (rc : ReplicationController) : ReplicationController :=
  mkRC (rc_ObjectMeta rc) (rc_Replicas rc) (rc_Selector rc) t (rc_StatusReplicas rc) (rc_ObservedGeneration rc).
Definition set_Parallelism (n : option Z) (job : Job) : Job :=
  mkJob (job_ObjectMeta job) n (job_Completions job) (job_Active job) (job_Succeeded job) (job_rest job).

Definition rc_Name (rc : ReplicationController) : str := om_Name (rc_ObjectMeta rc).
Definition rc_Namespace (rc : ReplicationController) : str := om_Namespace (rc_ObjectMeta rc).
Definition rc_Annotations (rc : ReplicationController) : string_map := om_Annotations (rc_ObjectMeta rc).

(** ** Readiness (resource_helpers.go) *)

Definition GetPodReadyCondition (conditions : list PodCondition) : option PodCondition :=
  snd <$> list_find (λ c, pc_Type c = lit "Ready") conditions.
Definition IsPodReadyConditionTrue (conditions : list PodCondition) : bool :=
  match GetPodReadyCondition conditions with Some c => bool_decide (pc_Status c = lit "True") | None => false end.
Definition IsPodReady (pod : Pod) : bool := IsPodReadyConditionTrue (pod_Conditions pod).

(** ** Programs *)

Inductive ControllerScaleErrorType :=
  | ControllerScaleGetFailure
  | ControllerScaleUpdateFailure
  | ControllerScaleUpdateInvalidFailure.

(** The errors, with what their messages name. *)
Inductive cluster_error :=
  | ApiErr (e : err)
  | ErrWaitTimeout
  | PreconditionError (Precondition ExpectedValue ActualValue : str)
  | ControllerScaleError (FailureType : ControllerScaleErrorType) (ResourceVersion : str) (ActualError : err)
  | NoScaler (kind : str)
  | NoSuchReaperError (kind : str)
  | GettingControllers (e : cluster_error)
  | Overlapping (name : str) (others : list str)
  | CannotParseAnnotation (name key : str)
  | NeitherSurgeNorUnavailable
  | NoProgress
  | InvalidController (name : str) (replicas : Z)
  | UnexpectedAnnotations (name sourceId : str)
  | NegativeValue (name : str)
  | InvalidValue (name value : str)
  | MultiContainer
  | NoContainers
  | CannotEncode
  | NoOriginalReplicas (name : str)
  | NoSourceController (namespace name : str).

Inductive outcome (A : Type) :=
  | Done (a : A)
  | Failed (e : cluster_error)
  | Panicked
  | Forever.
Arguments Done {A} _.
Arguments Failed {A} _.
Arguments Panicked {A}.
Arguments Forever {A}.

Definition M (W A : Type) : Type := W → W * outcome A.

#[global] Instance M_ret {W} : MRet (M W) := λ A a w, (w, Done a).
#[global] Instance M_bind {W} : MBind (M W) := λ A B k m w,
  match m w with
  | (w, Done a) => k a w
  | (w, Failed e) => (w, Failed e)
  | (w, Panicked) => (w, Panicked)
  | (w, Forever) => (w, Forever)
  end.

Definition fail {W A : Type} (e : cluster_error) : M W A := λ w, (w, Failed e).
Definition panic {W A : Type} : M W A := λ w, (w, Panicked).

(** A pointer that is followed, and a map that is assigned to. *)
Definition deref {W A : Type} (p : option A) : M W A := match p with Some a => mret a | None => panic end.
Definition assign {W : Type} (m : string_map) (k v : str) : M W string_map :=
  match map_assign m k v with Return m => mret m | _ => panic end.

(** A call whose error is looked at. *)
Definition catch {W A : Type} (m : M W A) : M W (A + cluster_error) := λ w,
  match m w with
  | (w, Done a) => (w, Done (inl a))
  | (w, Failed e) => (w, Done (inr e))
  | (w, Panicked) => (w, Panicked)
  | (w, Forever) => (w, Forever)
  end.
Definition wrap_error {W A : Type} (f : cluster_error → cluster_error) (m : M W A) : M W A :=
  r ← catch m; match r with inl a => mret a | inr e => fail (f e) end.

(** A call of the client. *)
Abbreviation call W A := (W → W * result err A).

Class Cluster (W : Type) := {
  poll_ticks : Z → Z → W → nat;
  unix_nano : W → W * Z;
  sleep : Z → W → W;
  new_uuid : W → W * str;
  rcs_get : str → str → call W ReplicationController;
  rcs_list : str → LabelSelector → call W (list ReplicationController);
  rcs_create : str → ReplicationController → call W ReplicationController;
  rcs_update : str → ReplicationController → call W ReplicationController;
  rcs_delete : str → str → call W ();
  pods_get : str → str → call W Pod;
  pods_list : str → LabelSelector → call W (list Pod);
  pods_update : str → Pod → call W Pod;
  pods_delete : str → str → option DeleteOptions → call W ();
  jobs_get : str → str → call W Job;
  jobs_update : str → Job → call W Job;
  jobs_delete : str → str → option DeleteOptions → call W ();
  daemonsets_get : str → str → call W DaemonSet;
  daemonsets_update : str → DaemonSet → call W DaemonSet;
  daemonsets_delete : str → str → call W ();
  services_get : str → str → call W ();
  services_delete : str → str → call W ()
}.
#[global] Hint Mode Cluster ! : typeclass_instances.

Definition api {W A : Type} (c : call W A) : M W A := λ w,
  match c w with (w, Ok a) => (w, Done a) | (w, Err e) => (w, Failed (ApiErr e)) end.
Definition pure_step {W A : Type} (f : W → W * A) : M W A := λ w, let '(w, a) := f w in (w, Done a).

(** ** Polling (wait.go) *)

Section wait.
Context {W : Type} `{Cluster W}.

(** [WaitFor]: the condition is tried once for every tick and once more when
    the channel is closed; a channel that is not closed is waited for.  The
    variables that the condition closes over are its state [s]. *)
Fixpoint WaitFor {S} (ticks : nat) (closes : bool) (fn : S → M W (bool * S)) (s : S) : M W S :=
  '(ok, s) ← fn s;
  if (ok : bool) then mret s
  else match ticks with
       | Datatypes.S ticks => WaitFor ticks closes fn s
       | O => if closes then fail ErrWaitTimeout else λ w, (w, Forever)
       end.

(** A poller of no timeout does not close its channel. *)
Definition pollInternal {S} (interval timeout : Z) (condition : S → M W (bool * S)) (s : S) : M W S := λ w,
  WaitFor (poll_ticks interval timeout w) (bool_decide (timeout ≠ 0%Z)) condition s w.
Definition Poll {S} (interval timeout : Z) (condition : S → M W (bool * S)) (s : S) : M W S :=
  pollInternal interval timeout condition s.
Definition PollImmediate {S} (interval timeout : Z) (condition : S → M W (bool * S)) (s : S) : M W S :=
  '(ok, s) ← condition s; if (ok : bool) then mret s else pollInternal interval timeout condition s.
Definition PollInfinite {S} (interval : Z) (condition : S → M W (bool * S)) (s : S) : M W S :=
  pollInternal interval 0 condition s.

(** A condition without variables. *)
Definition closed (condition : M W bool) : () → M W (bool * ()) := λ _, ok ← condition; mret (ok, ()).

(** ** Conditions (conditions.go) *)

Definition ControllerHasDesiredReplicas (controller : ReplicationController) : M W bool :=
  let desiredGeneration := om_Generation (rc_ObjectMeta controller) in
  ctrl ← api (rcs_get (rc_Namespace controller) (rc_Name controller));
  mret ((desiredGeneration <=? rc_ObservedGeneration ctrl)%Z && (rc_StatusReplicas ctrl =? rc_Replicas ctrl)%Z).

Definition JobHasDesiredParallelism (job : Job) : M W bool :=
  job ← api (jobs_get (om_Namespace (job_ObjectMeta job)) (om_Name (job_ObjectMeta job)));
  parallelism ← deref (job_Parallelism job);
  if decide (job_Active job = parallelism) then mret true
  else
    completions ← deref (job_Completions job);
    mret (bool_decide (wrap64 (completions - job_Active job - job_Succeeded job) = 0%Z)).
End wait.
