(* ===== verification/ClusterSpec.v ===== *)
(** * A cluster and the programs that work on it (proofs about [Cluster])

    How a program that is done was done, what polling returns, and a cluster
    to run programs on: it keeps controllers, follows them at once, and has
    all their pods ready. *)

From S2P Require Import Prelude GoStr KubeTypes Labels Errors ApiErrors Cluster.

Local Open Scope go_scope.

(** ** Programs that are done *)

Lemma bind_Done {W A B} (m : M W A) (k : A → M W B) w w' b :
  (m ≫= k) w = (w', Done b) ↔ ∃ w1 a, m w = (w1, Done a) ∧ k a w1 = (w', Done b).
Proof.
  unfold mbind, M_bind. destruct (m w) as [w1 [a| | |]]; [split; [eauto|naive_solver]|split; [done|naive_solver]..].
Qed.

Lemma bind_done {W A B} (m : M W A) (k : A → M W B) w w1 a : m w = (w1, Done a) → (m ≫= k) w = k a w1.
Proof. intros E. unfold mbind, M_bind. by rewrite E. Qed.

Lemma bind_not_Forever {W A B} (m : M W A) (k : A → M W B) w :
  (m w).2 ≠ Forever → (∀ w' a, m w = (w', Done a) → (k a w').2 ≠ Forever) → ((m ≫= k) w).2 ≠ Forever.
Proof. intros Hm Hk. unfold mbind, M_bind. destruct (m w) as [w1 [a| | |]]; [by eapply Hk|done..]. Qed.

Lemma api_Done {W A : Type} (c : call W A) w w' a : api c w = (w', Done a) ↔ c w = (w', Ok a).
Proof. unfold api. destruct (c w) as [w1 []]; naive_solver. Qed.

Lemma catch_Done {W A : Type} (m : M W A) w w' x :
  catch m w = (w', Done x) ↔
  match x with inl a => m w = (w', Done a) | inr e => m w = (w', Failed e) end.
Proof. unfold catch. destruct (m w) as [w1 []], x; naive_solver. Qed.

Lemma wrap_error_Done {W A : Type} f (m : M W A) w w' a : wrap_error f m w = (w', Done a) ↔ m w = (w', Done a).
Proof.
  unfold wrap_error. rewrite bind_Done. setoid_rewrite catch_Done. split.
  - by intros (w1 & [b|e] & Hm & [= <- <-]).
  - intros Hm. by exists w', (inl a).
Qed.

(** ** Polling *)

Section wait.
Context {W : Type} `{Cluster W}.

(** A poller that returns has had the condition, in the end. *)
Lemma WaitFor_Done {S} ticks closes (fn : S → M W (bool * S)) s w w' s' :
  WaitFor ticks closes fn s w = (w', Done s') → ∃ w1 s1, fn s1 w1 = (w', Done (true, s')).
Proof.
  revert s w. induction ticks as [|ticks IH]; intros s w; simpl; rewrite bind_Done; intros (w1 & [[] s1] & Hfn & E).
  - injection E as <- <-. eauto.
  - by destruct closes.
  - injection E as <- <-. eauto.
  - by apply IH in E.
Qed.

Lemma Poll_Done {S} interval timeout (fn : S → M W (bool * S)) s w w' s' :
  Poll interval timeout fn s w = (w', Done s') → ∃ w1 s1, fn s1 w1 = (w', Done (true, s')).
Proof. apply WaitFor_Done. Qed.

Lemma Poll_closed_Done interval timeout (condition : M W bool) w w' :
  Poll interval timeout (closed condition) () w = (w', Done ()) → ∃ w1, condition w1 = (w', Done true).
Proof.
  intros (w1 & [] & Hc)%Poll_Done. unfold closed in Hc. apply bind_Done in Hc as (w2 & ok & Hc & [= -> ->]). eauto.
Qed.

(** With a timeout, a poller ends if its condition does. *)
Lemma Poll_ends {S} interval timeout (fn : S → M W (bool * S)) s w :
  timeout ≠ 0%Z → (∀ s w, (fn s w).2 ≠ Forever) → (Poll interval timeout fn s w).2 ≠ Forever.
Proof.
  intros Hto Hfn. unfold Poll, pollInternal. rewrite bool_decide_true by done. generalize (poll_ticks interval timeout w).
  intros ticks. revert s w. induction ticks as [|ticks IH]; intros s w; simpl; apply bind_not_Forever; try done;
    by intros w' [[] s'] _.
Qed.
End wait.

(** ** A cluster that follows at once *)

Module Toy.

Record cluster := mkCluster { rcs : list ReplicationController; clock : N }.

Definition is_rc (ns name : str) (rc : ReplicationController) : Prop := rc_Namespace rc = ns ∧ rc_Name rc = name.
#[global] Instance is_rc_dec ns name rc : Decision (is_rc ns name rc).
Proof. unfold is_rc. apply _. Defined.

(** The status follows the specification. *)
Definition follow (rc : ReplicationController) : ReplicationController :=
  mkRC (rc_ObjectMeta rc) (rc_Replicas rc) (rc_Selector rc) (rc_Template rc) (rc_Replicas rc) (om_Generation (rc_ObjectMeta rc)).

Definition missing {A} (name : str) : result err A := Err (NewNotFound (λ _, true) (lit "object") name).

Definition find (ns name : str) (w : cluster) : option ReplicationController := snd <$> list_find (is_rc ns name) (rcs w).
Definition drop_rc (ns name : str) (w : cluster) : cluster := mkCluster (filter (λ rc, ¬ is_rc ns name rc) (rcs w)) (clock w).

(** Every replica is a pod that is ready. *)
Definition pods_of (rc : ReplicationController) : list Pod :=
  replicate (Z.to_nat (rc_Replicas rc)) (mkPod (meta_Labels (rc_Selector rc) zero_ObjectMeta)
    [mkPodCondition (lit "Ready") (lit "True")] []).

#[global] Instance toy : Cluster cluster := {
  poll_ticks _ _ _ := 0;
  unix_nano w := (mkCluster (rcs w) (N.succ (clock w)), Z.of_N (N.succ (clock w)));
  sleep d w := mkCluster (rcs w) (clock w + Z.to_N d)%N;
  new_uuid w := (w, []);
  rcs_get ns name w := (w, match find ns name w with Some rc => Ok rc | None => missing name end);
  rcs_list ns sel w := (w, Ok (filter (λ rc, rc_Namespace rc = ns) (rcs w)));
  rcs_create ns rc w := (mkCluster (rcs w ++ [follow rc]) (clock w), Ok (follow rc));
  rcs_update ns rc w :=
    match find ns (rc_Name rc) w with
    | Some _ => (mkCluster (rcs (drop_rc ns (rc_Name rc) w) ++ [follow rc]) (clock w), Ok (follow rc))
    | None => (w, missing (rc_Name rc))
    end;
  rcs_delete ns name w :=
    match find ns name w with Some _ => (drop_rc ns name w, Ok ()) | None => (w, missing name) end;
  pods_get ns name w := (w, missing name);
  pods_list ns sel w :=
    (w, Ok (filter (λ pod, Matches sel (default ∅ (om_Labels (pod_ObjectMeta pod)))) (rcs w ≫= pods_of)));
  pods_update ns pod w := (w, Ok pod);
  pods_delete ns name options w := (w, missing name);
  jobs_get ns name w := (w, missing name);
  jobs_update ns job w := (w, Ok job);
  jobs_delete ns name options w := (w, missing name);
  daemonsets_get ns name w := (w, missing name);
  daemonsets_update ns ds w := (w, Ok ds);
  daemonsets_delete ns name w := (w, missing name);
  services_get ns name w := (w, missing name);
  services_delete ns name w := (w, missing name)
}.

(** A controller of the toy. *)
Definition controller (name : str) (replicas : Z) (key value : str) : ReplicationController :=
  mkRC (meta_Name name zero_ObjectMeta) replicas (Some {[key := value]}) None replicas 0.

End Toy.
