(* ===== verification/Scale.v ===== *)
(** * Scaling controllers and jobs (pkg/kubectl: scale.go)

    A scaler reads an object, looks at the preconditions, writes the new size,
    and does so again while the write is refused; then it may wait until the
    cluster has followed. *)

From S2P Require Import Prelude GoStr KubeTypes Errors ApiErrors Cluster.

Local Open Scope go_scope.

(** ** Preconditions *)

Record ScalePrecondition := mkPrecondition { Size : Z; pre_ResourceVersion : str }.

Definition ValidateReplicationController (precondition : ScalePrecondition) (controller : ReplicationController) :
    option cluster_error :=
  if decide (Size precondition ≠ (-1)%Z ∧ rc_Replicas controller ≠ Size precondition)
  then Some (PreconditionError (lit "replicas") (itoa (Size precondition)) (itoa (rc_Replicas controller)))
  else if decide (pre_ResourceVersion precondition ≠ [] ∧
                  om_ResourceVersion (rc_ObjectMeta controller) ≠ pre_ResourceVersion precondition)
  then Some (PreconditionError (lit "resource version") (pre_ResourceVersion precondition)
               (om_ResourceVersion (rc_ObjectMeta controller)))
  else None.

Definition ValidateJob (precondition : ScalePrecondition) (job : Job) : option cluster_error :=
  let version :=
    if decide (pre_ResourceVersion precondition ≠ [] ∧ om_ResourceVersion (job_ObjectMeta job) ≠ pre_ResourceVersion precondition)
    then Some (PreconditionError (lit "resource version") (pre_ResourceVersion precondition)
                 (om_ResourceVersion (job_ObjectMeta job)))
    else None in
  if decide (Size precondition = (-1)%Z) then version
  else match job_Parallelism job with
       | None => Some (PreconditionError (lit "parallelism") (itoa (Size precondition)) (lit "nil"))
       | Some p =>
           if decide (p ≠ Size precondition)
           then Some (PreconditionError (lit "parallelism") (itoa (Size precondition)) (itoa p))
           else version
       end.

(** ** Scalers *)

Record RetryParams := mkRetryParams { Interval : Z; Timeout : Z }.
Definition NewRetryParams (interval timeout : Z) : RetryParams := mkRetryParams interval timeout.

Definition Millisecond : Z := 1000000.
Definition Second : Z := 1000 * Millisecond.

(** The conversion from [int] to [uint]. *)
Definition to_uint (z : Z) : Z := z mod 2 ^ 64.

Record Scaler (W : Type) := mkScaler {
  Scaler_Scale : str → str → Z → option ScalePrecondition → option RetryParams → option RetryParams → M W ();
  Scaler_ScaleSimple : str → str → option ScalePrecondition → Z → M W ()
}.
Arguments mkScaler {W} _ _.
Arguments Scaler_Scale {W} _ _ _ _ _ _ _.
Arguments Scaler_ScaleSimple {W} _ _ _ _ _.

Section scale.
Context {W : Type} `{Cluster W}.

(** What refuses a write is kept as the failure it is. *)
Definition refused (resourceVersion : str) (e : err) : cluster_error :=
  if IsInvalid (Some e) then ControllerScaleError ControllerScaleUpdateInvalidFailure resourceVersion e
  else ControllerScaleError ControllerScaleUpdateFailure resourceVersion e.

Definition check {A} (validate : ScalePrecondition → A → option cluster_error) (preconditions : option ScalePrecondition)
    (a : A) : M W () :=
  match preconditions with
  | Some p => match validate p a with Some e => fail e | None => mret () end
  | None => mret ()
  end.

(** A call of the client, with what its error becomes. *)
Definition api_with {A} (f : err → cluster_error) (c : call W A) : M W A := λ w,
  match c w with (w, Ok a) => (w, Done a) | (w, Err e) => (w, Failed (f e)) end.
Definition get_failure (e : err) : cluster_error := ControllerScaleError ControllerScaleGetFailure (lit "Unknown") e.

(** The two one-shot attempts: [newSize] is a [uint]. *)
Definition rc_ScaleSimple (namespace name : str) (preconditions : option ScalePrecondition) (newSize : Z) : M W () :=
  controller ← api_with get_failure (rcs_get namespace name);
  check ValidateReplicationController preconditions controller;;
  api_with (refused (om_ResourceVersion (rc_ObjectMeta controller)))
    (rcs_update namespace (set_Replicas (wrap64 newSize) controller));;
  mret ().

Definition job_ScaleSimple (namespace name : str) (preconditions : option ScalePrecondition) (newSize : Z) : M W () :=
  job ← api_with get_failure (jobs_get namespace name);
  check ValidateJob preconditions job;;
  api_with (refused (om_ResourceVersion (job_ObjectMeta job)))
    (jobs_update namespace (set_Parallelism (Some (wrap64 newSize)) job));;
  mret ().

(** A refused write is tried again, unless it was invalid. *)
Definition ScaleCondition (ScaleSimple : str → str → option ScalePrecondition → Z → M W ())
    (precondition : option ScalePrecondition) (namespace name : str) (count : Z) : M W bool :=
  r ← catch (ScaleSimple namespace name precondition count);
  match r with
  | inl _ => mret true
  | inr (ControllerScaleError ControllerScaleUpdateFailure _ _) => mret false
  | inr e => fail e
  end.

Definition default_precondition (preconditions : option ScalePrecondition) : option ScalePrecondition :=
  match preconditions with None => Some (mkPrecondition (-1) []) | Some p => Some p end.
Definition default_retry (retry : option RetryParams) : RetryParams :=
  match retry with None => mkRetryParams Millisecond Millisecond | Some r => r end.

Definition rc_Scale (namespace name : str) (newSize : Z) (preconditions : option ScalePrecondition)
    (retry waitForReplicas : option RetryParams) : M W () :=
  let preconditions := default_precondition preconditions in
  let retry := default_retry retry in
  Poll (Interval retry) (Timeout retry) (closed (ScaleCondition rc_ScaleSimple preconditions namespace name newSize)) ();;
  match waitForReplicas with
  | Some wait =>
      rc ← api (rcs_get namespace name);
      Poll (Interval wait) (Timeout wait) (closed (ControllerHasDesiredReplicas rc)) ()
  | None => mret ()
  end.

Definition job_Scale (namespace name : str) (newSize : Z) (preconditions : option ScalePrecondition)
    (retry waitForReplicas : option RetryParams) : M W () :=
  let preconditions := default_precondition preconditions in
  let retry := default_retry retry in
  Poll (Interval retry) (Timeout retry) (closed (ScaleCondition job_ScaleSimple preconditions namespace name newSize)) ();;
  match waitForReplicas with
  | Some wait =>
      job ← api (jobs_get namespace name);
      Poll (Interval wait) (Timeout wait) (closed (JobHasDesiredParallelism job)) ()
  | None => mret ()
  end.

Definition ReplicationControllerScaler : Scaler W := mkScaler rc_Scale rc_ScaleSimple.
Definition JobScaler : Scaler W := mkScaler job_Scale job_ScaleSimple.

Definition ScalerFor (kind : str) : cluster_error + Scaler W :=
  if decide (kind = lit "ReplicationController") then inr ReplicationControllerScaler
  else if decide (kind = lit "Job") then inr JobScaler
  else inl (NoScaler kind).
End scale.
