(* ===== verification/Reaper.v ===== *)
(** * Stopping controllers, daemon sets, jobs, pods and services
      (pkg/kubectl: stop.go)

    A reaper lets the cluster take down what an object runs before it deletes
    the object. *)

From S2P Require Import Prelude GoStr KubeTypes Labels Errors ApiErrors Cluster Scale.

Local Open Scope go_scope.

Definition Interval_ : Z := Second.
Definition Timeout_ : Z := 5 * 60 * Second.

Section reaper.
Context {W : Type} `{Cluster W}.
(** The order in which a selector is made of a map. *)
Variable order : Set_ → list (str * str).

(** [len] of a map, nil or not, and the map as labels. *)
Definition labels_of (m : string_map) : Set_ := default ∅ m.
Definition map_len (m : string_map) : nat := size (labels_of m).

Definition overlaps (rc controller : ReplicationController) : bool :=
  Matches (SelectorFromSet order (rc_Selector controller)) (labels_of (rc_Selector rc)) ||
  Matches (SelectorFromSet order (rc_Selector rc)) (labels_of (rc_Selector controller)).

Definition getOverlappingControllers (namespace : str) (rc : ReplicationController) : M W (list ReplicationController) :=
  rcs ← wrap_error GettingControllers (api (rcs_list namespace Everything));
  mret (filter (λ controller, overlaps rc controller) rcs).

Definition stopped (name : str) : str := name ++ lit " stopped".

(** [time.Duration(10*n)*time.Second] added to the timeout of the package. *)
Definition patience (timeout n : Z) : Z :=
  if decide (timeout = 0%Z) then wrap64 (Timeout_ + 10 * n * Second) else timeout.

(** [pollInterval] and [reaperTimeout] are fields of the reaper. *)
Definition rc_Stop (pollInterval reaperTimeout : Z) (namespace name : str) (timeout : Z) : M W str :=
  ctrl ← api (rcs_get namespace name);
  let timeout := patience timeout (rc_Replicas ctrl) in
  overlappingCtrls ← wrap_error GettingControllers (getOverlappingControllers namespace ctrl);
  let exactMatchRCs := filter (λ c, map_len (rc_Selector c) = map_len (rc_Selector ctrl)) overlappingCtrls in
  let overlapRCs := rc_Name <$> filter (λ c, map_len (rc_Selector c) ≠ map_len (rc_Selector ctrl)) overlappingCtrls in
  if decide (0 < length overlapRCs) then fail (Overlapping (rc_Name ctrl) overlapRCs)
  else
    (if decide (length exactMatchRCs = 1)
     then Scaler_Scale ReplicationControllerScaler namespace name 0 None
            (Some (NewRetryParams pollInterval reaperTimeout)) (Some (NewRetryParams pollInterval timeout))
     else mret ());;
    api (rcs_delete namespace name);;
    mret (stopped name).

Definition ds_set (selector : string_map) (ds : DaemonSet) (template : PodTemplateSpec) : DaemonSet :=
  mkDaemonSet (meta_ResourceVersion [] (ds_ObjectMeta ds))
    (Some (mkTemplate (pt_Labels template) (pt_Containers template) selector (pt_rest template)))
    (ds_CurrentNumberScheduled ds) (ds_NumberMisscheduled ds) (ds_rest ds).

Definition none_scheduled (namespace name : str) : M W bool :=
  r ← catch (api (daemonsets_get namespace name));
  match r with
  | inr _ => mret false
  | inl ds => mret (bool_decide (wrap64 (ds_CurrentNumberScheduled ds + ds_NumberMisscheduled ds) = 0%Z))
  end.

Definition ds_Stop (pollInterval reaperTimeout : Z) (namespace name : str) : M W str :=
  ds ← api (daemonsets_get namespace name);
  template ← deref (ds_Template ds);
  k ← pure_step new_uuid;
  v ← pure_step new_uuid;
  api (daemonsets_update namespace (ds_set (Some {[k := v]}) ds template));;
  Poll pollInterval reaperTimeout (closed (none_scheduled namespace name)) ();;
  api (daemonsets_delete namespace name);;
  mret (stopped name).

Definition job_Stop (pollInterval reaperTimeout : Z) (namespace name : str) (timeout : Z)
    (gracePeriod : option DeleteOptions) : M W str :=
  job ← api (jobs_get namespace name);
  timeout ← (if decide (timeout = 0%Z) then parallelism ← deref (job_Parallelism job); mret (patience timeout parallelism)
             else mret timeout);
  Scaler_Scale JobScaler namespace name 0 None
    (Some (NewRetryParams pollInterval reaperTimeout)) (Some (NewRetryParams pollInterval timeout));;
  api (jobs_delete namespace name gracePeriod);;
  mret (stopped name).

Definition pod_Stop (namespace name : str) (gracePeriod : option DeleteOptions) : M W str :=
  api (pods_get namespace name);;
  api (pods_delete namespace name gracePeriod);;
  mret (stopped name).

Definition service_Stop (namespace name : str) : M W str :=
  api (services_get namespace name);;
  api (services_delete namespace name);;
  mret (stopped name).

(** A reaper is its method [Stop]. *)
Abbreviation Reaper := (str → str → Z → option DeleteOptions → M W str).

Definition ReaperFor (kind : str) : cluster_error + Reaper :=
  if decide (kind = lit "ReplicationController")
  then inr (λ namespace name timeout _, rc_Stop Interval_ Timeout_ namespace name timeout)
  else if decide (kind = lit "DaemonSet") then inr (λ namespace name _ _, ds_Stop Interval_ Timeout_ namespace name)
  else if decide (kind = lit "Pod") then inr (λ namespace name _ gracePeriod, pod_Stop namespace name gracePeriod)
  else if decide (kind = lit "Service") then inr (λ namespace name _ _, service_Stop namespace name)
  else if decide (kind = lit "Job")
  then inr (λ namespace name timeout gracePeriod, job_Stop Interval_ Timeout_ namespace name timeout gracePeriod)
  else inl (NoSuchReaperError kind).

Definition ReaperForReplicationController (timeout : Z) : Reaper :=
  λ namespace name timeout' _, rc_Stop Interval_ timeout namespace name timeout'.
End reaper.

Definition IsNoSuchReaperError (e : option cluster_error) : bool :=
  match e with Some (NoSuchReaperError _) => true | _ => false end.
