(* ===== verification/ScaleSpec.v ===== *)
(** * Scaling and stopping (proofs about [Scale] and [Reaper])

    What has happened when a scaler or a reaper reports success. *)

From S2P Require Import Prelude GoStr KubeTypes Labels LabelsSpec Errors ApiErrors Cluster ClusterSpec Scale Reaper.

Local Open Scope go_scope.

Section scale.
Context {W : Type} `{Cluster W}.
Implicit Types w : W.

Lemma api_with_Done {A} f (c : call W A) w w' a : api_with f c w = (w', Done a) ↔ c w = (w', Ok a).
Proof. unfold api_with. destruct (c w) as [w1 []]; naive_solver. Qed.

Lemma check_Done {A} (validate : ScalePrecondition → A → option cluster_error) pre a w w' :
  check (W:=W) validate pre a w = (w', Done ()) → w' = w ∧ ∀ p, pre = Some p → validate p a = None.
Proof.
  unfold check. destruct pre as [p|]; [destruct (validate p a) eqn:E|]; intros [= ->]; naive_solver.
Qed.

(** A write of the size was taken, of an object that met the conditions. *)
Definition written (namespace name : str) (pre : option ScalePrecondition) (newSize : Z) (w : W) : Prop :=
  ∃ w1 controller w2 updated,
    rcs_get namespace name w1 = (w2, Ok controller) ∧
    (∀ p, pre = Some p → ValidateReplicationController p controller = None) ∧
    rcs_update namespace (set_Replicas (wrap64 newSize) controller) w2 = (w, Ok updated).

Lemma rc_ScaleSimple_Done namespace name pre newSize w w' :
  rc_ScaleSimple namespace name pre newSize w = (w', Done ()) → written namespace name pre newSize w'.
Proof.
  unfold rc_ScaleSimple. intros (w1 & c & Hget%api_with_Done & E)%bind_Done.
  apply bind_Done in E as (w2 & [] & [-> Hpre]%check_Done & E).
  apply bind_Done in E as (w3 & u & Hup%api_with_Done & [= ->]). by exists w, c, w1, u.
Qed.

Lemma ScaleCondition_true (ScaleSimple : str → str → option ScalePrecondition → Z → M W ()) pre namespace name count w w' :
  ScaleCondition ScaleSimple pre namespace name count w = (w', Done true) →
  ScaleSimple namespace name pre count w = (w', Done ()).
Proof.
  unfold ScaleCondition. intros (w1 & [[]|e] & Hc%catch_Done & E)%bind_Done; [by injection E as ->|].
  destruct e; try done. by destruct FailureType.
Qed.

(** A refused write is tried again, an invalid one is not. *)
Lemma ScaleCondition_refused namespace name pre count w w1 w2 controller e :
  rcs_get namespace name w = (w1, Ok controller) → (∀ p, pre = Some p → ValidateReplicationController p controller = None) →
  rcs_update namespace (set_Replicas (wrap64 count) controller) w1 = (w2, Err e) →
  ScaleCondition rc_ScaleSimple pre namespace name count w =
  (w2, if IsInvalid (Some e)
       then Failed (ControllerScaleError ControllerScaleUpdateInvalidFailure (om_ResourceVersion (rc_ObjectMeta controller)) e)
       else Done false).
Proof.
  intros Hget Hpre Hup. unfold ScaleCondition, rc_ScaleSimple, catch, api_with, mbind, M_bind. rewrite Hget.
  assert (Hc : check (W:=W) ValidateReplicationController pre controller w1 = (w1, Done ())).
  { unfold check. destruct pre as [p|]; [by rewrite (Hpre p)|done]. }
  rewrite Hc, Hup. unfold refused. by destruct (IsInvalid (Some e)).
Qed.

(** scaling succeeds only after a write of the new size was taken, of a
    controller that met the preconditions when it was read; and when it is
    waited, after the cluster had seen the controller as it then was and had
    as many replicas as it should. *)
Theorem Scale_written namespace name newSize pre retry wait w w' :
  rc_Scale namespace name newSize pre retry wait w = (w', Done ()) →
  ∃ w1, written namespace name pre newSize w1 ∧
    match wait with
    | None => w' = w1
    | Some _ => ∃ w2 rc w3 seen,
        rcs_get namespace name w1 = (w2, Ok rc) ∧
        rcs_get (rc_Namespace rc) (rc_Name rc) w3 = (w', Ok seen) ∧
        (om_Generation (rc_ObjectMeta rc) ≤ rc_ObservedGeneration seen)%Z ∧ rc_StatusReplicas seen = rc_Replicas seen
    end.
Proof.
  unfold rc_Scale. cbv zeta. intros (w1 & [] & Hpoll & E)%bind_Done.
  apply Poll_closed_Done in Hpoll as (w0 & Hw%ScaleCondition_true%rc_ScaleSimple_Done). exists w1. split.
  - destruct Hw as (a & c & b & u & Hget & Hpre & Hup). exists a, c, b, u. split; [done|]. split; [|done].
    intros p ->. by apply Hpre.
  - destruct wait as [params|]; [|by injection E as ->].
    apply bind_Done in E as (w2 & rc & Hget%api_Done & E). apply Poll_closed_Done in E as (w3 & E).
    unfold ControllerHasDesiredReplicas in E. apply bind_Done in E as (w4 & seen & Hseen%api_Done & E).
    injection E as -> [? ?]%andb_prop. exists w2, rc, w3, seen. split; [done|]. split; [done|]. lia.
Qed.

(** ** Stopping *)

Section stop.
Context (order : Set_ → list (str * str)) (Horder : ∀ m, order m ≡ₚ map_to_list m).

(** The labels of a selector can be asked for. *)
Definition selector_ok (rc : ReplicationController) : Prop := Forall label_ok (map_to_list (labels_of (rc_Selector rc))).

Lemma selects s l :
  Forall label_ok (map_to_list (labels_of s)) → Matches (SelectorFromSet order s) l = true ↔ labels_of s ⊆ l.
Proof.
  destruct s as [m|]; simpl; intros Hok; [by apply (proj1 (SelectorFromSet_spec order m l Horder))|].
  split; [intros _; apply map_empty_subseteq|done].
Qed.

Lemma overlaps_spec rc c :
  selector_ok rc → selector_ok c →
  overlaps order rc c = true ↔ labels_of (rc_Selector c) ⊆ labels_of (rc_Selector rc) ∨ labels_of (rc_Selector rc) ⊆ labels_of (rc_Selector c).
Proof. intros Hrc Hc. unfold overlaps. rewrite orb_true_iff, !selects by done. done. Qed.

(** Overlapping with as many labels is having the same labels. *)
Lemma overlaps_same rc c :
  selector_ok rc → selector_ok c → overlaps order rc c = true → map_len (rc_Selector c) = map_len (rc_Selector rc) →
  labels_of (rc_Selector c) = labels_of (rc_Selector rc).
Proof.
  unfold map_len. intros Hrc Hc [Hs|Hs]%overlaps_spec Hlen; try done.
  - apply map_subseteq_size_eq; [done|lia].
  - symmetry. apply map_subseteq_size_eq; [done|lia].
Qed.

Lemma filter_all {A} (P : A → Prop) `{!∀ a, Decision (P a)} (l : list A) : Forall P l → filter P l = l.
Proof. induction 1 as [|a l Ha _ IH]; [done|]. by rewrite filter_cons_True, IH. Qed.

(** C40: a controller is deleted only when no other one selects more or fewer of
    its labels; and unless another selects the same, only after it was scaled
    to nothing and the cluster had followed. *)
Theorem Stop_deletes pollInterval reaperTimeout namespace name timeout w w' msg :
  rc_Stop order pollInterval reaperTimeout namespace name timeout w = (w', Done msg) →
  ∃ w1 ctrl w2 rcs,
    rcs_get namespace name w = (w1, Ok ctrl) ∧ rcs_list namespace Everything w1 = (w2, Ok rcs) ∧
    (selector_ok ctrl → Forall selector_ok rcs →
     ∀ c, c ∈ rcs →
       (labels_of (rc_Selector c) ⊆ labels_of (rc_Selector ctrl) ∨ labels_of (rc_Selector ctrl) ⊆ labels_of (rc_Selector c)) →
       labels_of (rc_Selector c) = labels_of (rc_Selector ctrl)) ∧
    ∃ w3, rcs_delete namespace name w3 = (w', Ok ()) ∧
      (length (filter (λ c, overlaps order ctrl c) rcs) = 1 →
       rc_Scale namespace name 0 None (Some (NewRetryParams pollInterval reaperTimeout))
         (Some (NewRetryParams pollInterval (patience timeout (rc_Replicas ctrl)))) w2 = (w3, Done ())).
Proof.
  unfold rc_Stop. cbv zeta. intros (w1 & ctrl & Hget%api_Done & E)%bind_Done.
  apply bind_Done in E as (w2 & over & Hover%wrap_error_Done & E).
  unfold getOverlappingControllers in Hover. apply bind_Done in Hover as (w2' & rcs & Hlist%wrap_error_Done%api_Done & [= -> <-]).
  exists w1, ctrl, w2, rcs. split; [done|]. split; [done|]. case_decide as Hno; [done|].
  assert (Hnone : ∀ c, c ∈ rcs → overlaps order ctrl c = true → map_len (rc_Selector c) = map_len (rc_Selector ctrl)).
  { intros c Hc Ho. destruct (decide (map_len (rc_Selector c) = map_len (rc_Selector ctrl))) as [|Hne]; [done|].
    exfalso. apply Hno. apply Nat.neq_0_lt_0. intros Hz%length_zero_iff_nil.
    assert (Hin : rc_Name c ∈ rc_Name <$> filter (λ c, map_len (rc_Selector c) ≠ map_len (rc_Selector ctrl))
                                  (filter (λ c, overlaps order ctrl c) rcs)).
    { apply list_elem_of_fmap_2, list_elem_of_filter. split; [done|]. apply list_elem_of_filter. by rewrite Ho. }
    rewrite Hz in Hin. by apply elem_of_nil in Hin. }
  split.
  - intros Hok Hall c Hc Hsub. assert (Hokc : selector_ok c) by (by eapply list.Forall_forall in Hall).
    assert (Ho : overlaps order ctrl c = true) by (by apply overlaps_spec). apply overlaps_same; auto.
  - apply bind_Done in E as (w3 & [] & Hscale & E). exists w3. apply bind_Done in E as (w4 & [] & Hdel%api_Done & [= -> _]).
    split; [done|]. intros Hone. rewrite decide_True in Hscale; [exact Hscale|]. rewrite <- Hone. f_equal.
    apply filter_all, list.Forall_forall. intros c [Ho Hc]%list_elem_of_filter. apply Hnone; [done|].
    by destruct (overlaps order ctrl c).
Qed.
End stop.
End scale.

(** ** On the toy cluster *)

Definition two_controllers : Toy.cluster :=
  Toy.mkCluster [Toy.controller (lit "web") 3 (lit "app") (lit "web"); Toy.controller (lit "db") 1 (lit "app") (lit "db")] 0.
Definition stop_web : Toy.cluster * outcome str :=
  rc_Stop (λ m, map_to_list m) Interval_ Timeout_ [] (lit "web") 0 two_controllers.

Example web_stopped :
  stop_web.2 = Done (lit "web stopped") ∧ map rc_Name (Toy.rcs stop_web.1) = [lit "db"].
Proof. by vm_compute. Qed.

(** A selector that cannot be asked for selects everything: a controller with
    one overlaps with every other, and keeps them from being stopped. *)
Definition bad_selector : Toy.cluster :=
  Toy.mkCluster [Toy.controller (lit "web") 3 (lit "app") (lit "web");
                 set_Selector (Some {[lit "app" := lit "db"; lit "not a key!" := []]})
                   (Toy.controller (lit "db") 1 (lit "app") (lit "db"))] 0.
Example bad_selector_blocks :
  (rc_Stop (λ m, map_to_list m) Interval_ Timeout_ [] (lit "web") 0 bad_selector).2 =
  Failed (Overlapping (lit "web") [lit "db"]).
Proof. by vm_compute. Qed.

Lemma Scale_written_witness :
  let params := NewRetryParams Second Second in
  ∃ w1 : Toy.cluster, written [] (lit "web") (Some (mkPrecondition 3 [])) 5 w1 ∧
    ∃ (w2 : Toy.cluster) rc (w3 : Toy.cluster) seen,
      rcs_get [] (lit "web") w1 = (w2, Ok rc) ∧
      rcs_get (rc_Namespace rc) (rc_Name rc) w3 =
        ((rc_Scale [] (lit "web") 5 (Some (mkPrecondition 3 [])) (Some params) (Some params) two_controllers).1, Ok seen) ∧
      (om_Generation (rc_ObjectMeta rc) ≤ rc_ObservedGeneration seen)%Z ∧ rc_StatusReplicas seen = rc_Replicas seen.
Proof.
  exact (Scale_written [] (lit "web") 5 (Some (mkPrecondition 3 [])) (Some (NewRetryParams Second Second))
           (Some (NewRetryParams Second Second)) two_controllers _ eq_refl).
Defined.

Lemma Stop_deletes_witness :
  ∃ (w1 : Toy.cluster) ctrl (w2 : Toy.cluster) rcs,
    rcs_get [] (lit "web") two_controllers = (w1, Ok ctrl) ∧ rcs_list [] Everything w1 = (w2, Ok rcs) ∧
    (selector_ok ctrl → Forall selector_ok rcs →
     ∀ c, c ∈ rcs →
       (labels_of (rc_Selector c) ⊆ labels_of (rc_Selector ctrl) ∨ labels_of (rc_Selector ctrl) ⊆ labels_of (rc_Selector c)) →
       labels_of (rc_Selector c) = labels_of (rc_Selector ctrl)) ∧
    ∃ w3 : Toy.cluster, rcs_delete [] (lit "web") w3 = (stop_web.1, Ok ()) ∧
      (length (filter (λ c, overlaps (λ m, map_to_list m) ctrl c) rcs) = 1 →
       rc_Scale [] (lit "web") 0 None (Some (NewRetryParams Interval_ Timeout_))
         (Some (NewRetryParams Interval_ (patience 0 (rc_Replicas ctrl)))) w2 = (w3, Done ())).
Proof.
  apply (Stop_deletes (λ m, map_to_list m) (λ m, reflexivity _) Interval_ Timeout_ [] (lit "web") 0 two_controllers _ (lit "web stopped")).
  vm_compute. reflexivity.
Defined.
