(* ===== verification/RollingUpdater.v ===== *)
(** * Replacing a controller step by step (pkg/kubectl: rolling_updater.go)

    The updater scales a new controller up and the old one down, between a
    bound on the pods there are and a bound on the pods that are ready, and
    keeps what it needs to go on after an interruption in annotations.  Like
    the code, [Update] is written against four operations ([RollingUpdater]),
    of which [NewRollingUpdater] gives the implementation with a client. *)

From Stdlib Require Import Floats.SpecFloat.
From S2P Require Import Prelude GoStr KubeTypes Labels Errors ApiErrors Cluster Scale.

Local Open Scope go_scope.

Definition kubectlAnnotationPrefix : str := "kubectl.kubernetes.io/".
Definition sourceIdAnnotation : str := kubectlAnnotationPrefix ++ lit "update-source-id".
Definition desiredReplicasAnnotation : str := kubectlAnnotationPrefix ++ lit "desired-replicas".
Definition originalReplicasAnnotation : str := kubectlAnnotationPrefix ++ lit "original-replicas".
Definition nextControllerAnnotation : str := kubectlAnnotationPrefix ++ lit "next-controller-id".

Inductive CleanupPolicy :=
  | DeleteRollingUpdateCleanupPolicy
  | PreserveRollingUpdateCleanupPolicy
  | RenameRollingUpdateCleanupPolicy
  | OtherCleanupPolicy.

Record RollingUpdaterConfig := mkConfig {
  OldRc : ReplicationController;
  NewRc : ReplicationController;
  UpdatePeriod : Z;
  cfg_Interval : Z;
  cfg_Timeout : Z;
  cfg_CleanupPolicy : CleanupPolicy;
  MaxUnavailable : IntOrString;
  MaxSurge : IntOrString
}.

Record RollingUpdater (W : Type) := mkUpdater {
  ru_ns : str;
  scaleAndWait : ReplicationController → RetryParams → RetryParams → M W ReplicationController;
  getOrCreateTargetController : ReplicationController → str → M W (ReplicationController * bool);
  cleanup : ReplicationController → ReplicationController → RollingUpdaterConfig → M W ();
  waitForReadyPods : Z → Z → ReplicationController → ReplicationController → M W (Z * Z)
}.
Arguments mkUpdater {W} _ _ _ _ _.
Arguments ru_ns {W} _.
Arguments scaleAndWait {W} _ _ _ _ _.
Arguments getOrCreateTargetController {W} _ _ _ _.
Arguments cleanup {W} _ _ _ _ _.
Arguments waitForReadyPods {W} _ _ _ _ _ _.

(** An annotation, and the annotations with one more. *)
Definition annotation (rc : ReplicationController) (key : str) : option str := map_index (rc_Annotations rc) key.
Definition annotate (key value : str) (rc : ReplicationController) : ReplicationController :=
  rc_meta (meta_Annotations (Some (<[key := value]> (default ∅ (rc_Annotations rc))))) rc.
Definition unannotate (key : str) (rc : ReplicationController) : ReplicationController :=
  rc_meta (meta_Annotations (delete key <$> rc_Annotations rc)) rc.

(** [strconv.Atoi] of an annotation; what is not there is empty. *)
Definition annotated_number {W : Type} (rc : ReplicationController) (key : str) : M W Z :=
  match atoi (default [] (annotation rc key)) with
  | (n, None) => mret n
  | (_, Some _) => fail (CannotParseAnnotation (rc_Name rc) key)
  end.

(** ** Absolute numbers and percentages *)

(** Numbers in floating point: 53 bits of mantissa, exponents up to 1024. *)
Definition float64 (z : Z) : spec_float := binary_normalize 53 1024 z 0 false.
(** [int(math.Ceil(f))]; a number out of range becomes the least one. *)
Definition ceil_int (f : spec_float) : Z :=
  match f with
  | S754_zero _ => 0
  | S754_finite s m e =>
      let m := if s : bool then Zneg m else Zpos m in
      let z := (if 0 <=? e then m * 2 ^ e else - (- m / 2 ^ (- e)))%Z in
      if decide (in_int64 z) then z else min_int64
  | _ => min_int64
  end.
Definition percentage (value v : Z) : Z :=
  ceil_int (SFdiv 53 1024 (SFmul 53 1024 (float64 value) (float64 v)) (float64 100)).

Definition extractMaxValue (field : IntOrString) (name : str) (value : Z) : cluster_error + Z :=
  match field with
  | IntVal n => if (n <? 0)%Z then inl (NegativeValue name) else inr n
  | StrVal text =>
      match atoi (filter (λ c, c ≠ "%"%char) text) with
      | (_, Some _) => inl (InvalidValue name text)
      | (v, None) => if (v <? 0)%Z then inl (NegativeValue name) else inr (percentage value v)
      end
  end.

Definition or_fail {W A : Type} (r : cluster_error + A) : M W A := match r with inl e => fail e | inr a => mret a end.

(** ** The loop *)

Section updater.
Context {W : Type} `{Cluster W}.
Variable r : RollingUpdater W.

Definition scaleUp (newRc oldRc : ReplicationController) (original desired maxSurge maxUnavailable : Z)
    (scaleRetryParams : RetryParams) : M W ReplicationController :=
  if decide (rc_Replicas newRc = desired) then mret newRc
  else
    let increment := wrap64 (original + maxSurge - (rc_Replicas oldRc + rc_Replicas newRc)) in
    let increment := if decide (rc_Replicas oldRc = 0%Z) then wrap64 (desired - rc_Replicas newRc) else increment in
    if (increment <=? 0)%Z then mret newRc
    else
      let replicas := wrap64 (rc_Replicas newRc + increment) in
      let replicas := if (desired <? replicas)%Z then desired else replicas in
      scaleAndWait r (set_Replicas replicas newRc) scaleRetryParams scaleRetryParams.

Definition scaleDown (newRc oldRc : ReplicationController) (desired minAvailable maxUnavailable maxSurge : Z)
    (config : RollingUpdaterConfig) : M W ReplicationController :=
  if decide (rc_Replicas oldRc = 0%Z) then mret oldRc
  else
    '(oldAvailable, newAvailable) ← waitForReadyPods r (cfg_Interval config) (cfg_Timeout config) oldRc newRc;
    let decrement := wrap64 (oldAvailable + newAvailable - minAvailable) in
    if (decrement <=? 0)%Z then mret oldRc
    else
      let replicas := wrap64 (rc_Replicas oldRc - decrement) in
      let replicas := if (replicas <? 0)%Z then 0%Z else replicas in
      let replicas := if decide (rc_Replicas newRc = desired ∧ newAvailable = desired) then 0%Z else replicas in
      let retryWait := mkRetryParams (cfg_Interval config) (cfg_Timeout config) in
      scaleAndWait r (set_Replicas replicas oldRc) retryWait retryWait.

(** The numbers that do not change while the loop runs. *)
Record plan := mkPlan { original : Z; desired : Z; maxSurge : Z; maxUnavailable : Z }.
Definition minAvailable (p : plan) : Z := wrap64 (original p - maxUnavailable p).

Definition deadline (config : RollingUpdaterConfig) : M W Z :=
  now ← pure_step unix_nano; mret (wrap64 (now + cfg_Timeout config)).

(** One pass, with the deadline that it may move. *)
Definition pass (config : RollingUpdaterConfig) (p : plan) (newRc oldRc : ReplicationController) (progressDeadline : Z) :
    M W (ReplicationController * ReplicationController * Z) :=
  let scaleRetryParams := NewRetryParams (cfg_Interval config) (cfg_Timeout config) in
  newRc' ← scaleUp newRc oldRc (original p) (desired p) (maxSurge p) (maxUnavailable p) scaleRetryParams;
  (λ w, (sleep (UpdatePeriod config) w, Done ()));;
  oldRc' ← scaleDown newRc' oldRc (desired p) (minAvailable p) (maxUnavailable p) (maxSurge p) config;
  if decide (rc_Replicas newRc' ≠ rc_Replicas newRc ∨ rc_Replicas oldRc' ≠ rc_Replicas oldRc)
  then progressDeadline ← deadline config; mret (newRc', oldRc', progressDeadline)
  else
    now ← pure_step unix_nano;
    if (progressDeadline <? now)%Z then fail NoProgress else mret (newRc', oldRc', progressDeadline).

(** The loop; a loop that has not ended within [fuel] passes goes on. *)
Fixpoint update_loop (fuel : nat) (config : RollingUpdaterConfig) (p : plan) (newRc oldRc : ReplicationController)
    (progressDeadline : Z) : M W (ReplicationController * ReplicationController) :=
  if decide (rc_Replicas newRc ≠ desired p ∨ rc_Replicas oldRc ≠ 0%Z)
  then match fuel with
       | O => λ w, (w, Forever)
       | S fuel =>
           '(newRc, oldRc, progressDeadline) ← pass config p newRc oldRc progressDeadline;
           update_loop fuel config p newRc oldRc progressDeadline
       end
  else mret (newRc, oldRc).

Definition sourceId_of (rc : ReplicationController) : str := rc_Name rc ++ lit ":" ++ om_UID (rc_ObjectMeta rc).

(** The old controller with the annotation of its original size. *)
Definition with_original (oldRc : ReplicationController) : M W ReplicationController :=
  match annotation oldRc originalReplicasAnnotation with
  | Some _ => mret oldRc
  | None =>
      existing ← api (rcs_get (rc_Namespace oldRc) (rc_Name oldRc));
      api (rcs_update (rc_Namespace existing) (annotate originalReplicasAnnotation (itoa (rc_Replicas existing)) existing))
  end.

Definition Update (fuel : nat) (config : RollingUpdaterConfig) : M W () :=
  '(newRc, existed) ← getOrCreateTargetController r (NewRc config) (sourceId_of (OldRc config));
  desired ← annotated_number newRc desiredReplicasAnnotation;
  oldRc ← with_original (OldRc config);
  original ← annotated_number oldRc originalReplicasAnnotation;
  maxUnavailable ← or_fail (extractMaxValue (MaxUnavailable config) (lit "maxUnavailable") desired);
  maxSurge ← or_fail (extractMaxValue (MaxSurge config) (lit "maxSurge") desired);
  if decide (maxUnavailable = 0%Z ∧ maxSurge = 0%Z) then fail NeitherSurgeNorUnavailable
  else
    progressDeadline ← deadline config;
    '(newRc, oldRc) ← update_loop fuel config (mkPlan original desired maxSurge maxUnavailable) newRc oldRc progressDeadline;
    cleanup r oldRc newRc config.
End updater.

(** ** The operations with a client *)

Section client.
Context {W : Type} `{Cluster W}.
Variable order : Set_ → list (str * str).
Variable printable : Z → bool.

Definition scaleAndWaitWithScaler (rc : ReplicationController) (retry wait : RetryParams) : M W ReplicationController :=
  scaler ← or_fail (ScalerFor (lit "ReplicationController"));
  Scaler_Scale scaler (rc_Namespace rc) (rc_Name rc) (to_uint (rc_Replicas rc)) (Some (mkPrecondition (-1) []))
    (Some retry) (Some wait);;
  api (rcs_get (rc_Namespace rc) (rc_Name rc)).

(** The counts with the ready pods of one of the two controllers. *)
Definition count_ready (oldName newName name : str) (pods : list Pod) (counts : Z * Z) : Z * Z :=
  let n := Z.of_nat (length (filter (λ pod, IsPodReady pod) pods)) in
  if decide (name = oldName) then (wrap64 (counts.1 + n), counts.2)
  else if decide (name = newName) then (counts.1, wrap64 (counts.2 + n))
  else counts.

Fixpoint poll_ready (oldName newName : str) (controllers : list ReplicationController) (anyReady : bool) (counts : Z * Z) :
    M W (bool * (Z * Z)) :=
  match controllers with
  | [] => mret (anyReady, counts)
  | controller :: controllers =>
      pods ← api (pods_list (rc_Namespace controller) (SelectorFromSet order (rc_Selector controller)));
      poll_ready oldName newName controllers (anyReady || existsb IsPodReady pods)
        (count_ready oldName newName (rc_Name controller) pods counts)
  end.

Definition pollForReadyPods (interval timeout : Z) (oldRc newRc : ReplicationController) : M W (Z * Z) :=
  Poll interval timeout (poll_ready (rc_Name oldRc) (rc_Name newRc) [oldRc; newRc] false) (0%Z, 0%Z).

(** Without a name to ask for, a controller is not found. *)
Definition existingController (controller : ReplicationController) : call W ReplicationController := λ w,
  if decide (length (rc_Name controller) = 0 ∧ 0 < length (om_GenerateName (rc_ObjectMeta controller)))
  then (w, Err (NewNotFound printable (lit "ReplicationController") (rc_Name controller)))
  else rcs_get (rc_Namespace controller) (rc_Name controller) w.

(** The controller that is created: with no replicas yet. *)
Definition prepared (sourceId : str) (controller : ReplicationController) : ReplicationController :=
  set_Replicas 0
    (annotate sourceIdAnnotation sourceId
      (annotate desiredReplicasAnnotation (itoa (rc_Replicas controller)) controller)).

Definition getOrCreateTargetControllerWithClient (ns : str) (controller : ReplicationController) (sourceId : str) :
    M W (ReplicationController * bool) := λ w,
  match existingController controller w with
  | (w, Err e) =>
      (if negb (IsNotFound (Some e)) then fail (ApiErr e)
       else if (rc_Replicas controller <=? 0)%Z then fail (InvalidController (rc_Name controller) (rc_Replicas controller))
       else newRc ← api (rcs_create ns (prepared sourceId controller)); mret (newRc, false)) w
  | (w, Ok existingRc) =>
      (if decide (default [] (annotation existingRc sourceIdAnnotation) ≠ sourceId ∨
                  annotation existingRc desiredReplicasAnnotation = None)
       then fail (UnexpectedAnnotations (rc_Name controller) sourceId)
       else mret (existingRc, true)) w
  end.

Definition Rename (rc : ReplicationController) (newName : str) : M W () :=
  let oldName := rc_Name rc in
  let rc := rc_meta (λ m, meta_ResourceVersion [] (meta_Name newName m)) rc in
  api (rcs_create (rc_Namespace rc) rc);;
  r ← catch (api (rcs_delete (rc_Namespace rc) oldName));
  match r with
  | inr (ApiErr e) => if IsNotFound (Some e) then mret () else fail (ApiErr e)
  | inr e => fail e
  | inl _ => mret ()
  end.

Definition cleanupWithClients (ns : str) (oldRc newRc : ReplicationController) (config : RollingUpdaterConfig) : M W () :=
  newRc ← api (rcs_get ns (rc_Name newRc));
  newRc ← api (rcs_update ns (unannotate desiredReplicasAnnotation (unannotate sourceIdAnnotation newRc)));
  Poll (cfg_Interval config) (cfg_Timeout config) (closed (ControllerHasDesiredReplicas newRc)) ();;
  newRc ← api (rcs_get ns (rc_Name newRc));
  match cfg_CleanupPolicy config with
  | DeleteRollingUpdateCleanupPolicy => api (rcs_delete ns (rc_Name oldRc))
  | RenameRollingUpdateCleanupPolicy => api (rcs_delete ns (rc_Name oldRc));; Rename newRc (rc_Name oldRc)
  | PreserveRollingUpdateCleanupPolicy | OtherCleanupPolicy => mret ()
  end.

Definition NewRollingUpdater (namespace : str) : RollingUpdater W :=
  mkUpdater namespace scaleAndWaitWithScaler (getOrCreateTargetControllerWithClient namespace)
    (cleanupWithClients namespace) pollForReadyPods.

(** ** Preparing an update *)

Definition LoadExistingNextReplicationController (namespace newName : str) : M W (option ReplicationController) :=
  if decide (length newName = 0) then mret None
  else
    r ← catch (api (rcs_get namespace newName));
    match r with
    | inl newRc => mret (Some newRc)
    | inr (ApiErr e) => if IsNotFound (Some e) then mret None else fail (ApiErr e)
    | inr e => fail e
    end.

(** The hash of an object is that of what the codec makes of it. *)
Definition CreateNewControllerFromCurrentController (HashObject : ReplicationController → option str)
    (namespace oldName newName image deploymentKey : str) : M W ReplicationController :=
  newRc ← api (rcs_get namespace oldName);
  template ← deref (rc_Template newRc);
  match pt_Containers template with
  | [] => fail NoContainers
  | _ :: _ :: _ => fail MultiContainer
  | [c] =>
      let template := mkTemplate (pt_Labels template) [mkContainer image (Container_rest c)] (pt_NodeSelector template)
                        (pt_rest template) in
      let newRc := set_Template (Some template) newRc in
      newHash ← match HashObject newRc with Some hash => mret hash | None => fail CannotEncode end;
      let newName := if decide (length newName = 0) then rc_Name newRc ++ lit "-" ++ newHash else newName in
      selector ← assign (rc_Selector newRc) deploymentKey newHash;
      labels ← assign (pt_Labels template) deploymentKey newHash;
      let template := mkTemplate labels (pt_Containers template) (pt_NodeSelector template) (pt_rest template) in
      mret (rc_meta (λ m, meta_ResourceVersion [] (meta_Name newName m))
              (set_Template (Some template) (set_Selector selector newRc)))
  end.

(** The configuration is changed before the error is found. *)
Definition AbortRollingUpdate (c : RollingUpdaterConfig) : RollingUpdaterConfig * option cluster_error :=
  let newRc := annotate sourceIdAnnotation (sourceId_of (NewRc c)) (OldRc c) in
  let with_rc newRc policy :=
    mkConfig (NewRc c) newRc (UpdatePeriod c) (cfg_Interval c) (cfg_Timeout c) policy (MaxUnavailable c) (MaxSurge c) in
  match annotation newRc originalReplicasAnnotation with
  | None => (with_rc newRc (cfg_CleanupPolicy c), Some (NoOriginalReplicas (rc_Name (OldRc c))))
  | Some originalSize =>
      (with_rc (annotate desiredReplicasAnnotation originalSize newRc) DeleteRollingUpdateCleanupPolicy, None)
  end.

Definition GetNextControllerAnnotation (rc : ReplicationController) : option str := annotation rc nextControllerAnnotation.
Definition SetNextControllerAnnotation (name : str) (rc : ReplicationController) : ReplicationController :=
  annotate nextControllerAnnotation name rc.

(** [updateWithRetries]: the object that is updated is the one given until a
    read has succeeded ([None]); changing it changes the object given. *)
Definition try_update (namespace : str) (applyUpdate : ReplicationController → M W ReplicationController)
    (s : option ReplicationController * ReplicationController) :
    M W (bool * (option ReplicationController * ReplicationController)) :=
  let '(rc, oldRc) := s in
  changed ← applyUpdate (default oldRc rc);
  let oldRc := match rc with None => changed | Some _ => oldRc end in
  updated ← catch (api (rcs_update namespace changed));
  match updated with
  | inl rc => mret (true, (Some rc, oldRc))
  | inr _ =>
      latest ← catch (api (rcs_get namespace (rc_Name oldRc)));
      mret (false, (match latest with inl rc => Some rc | inr _ => None end, oldRc))
  end.

Definition updateWithRetries (namespace : str) (rc : ReplicationController)
    (applyUpdate : ReplicationController → M W ReplicationController) : M W ReplicationController :=
  '(rc', oldRc) ← Poll (10 * Millisecond) (60 * Second) (try_update namespace applyUpdate) (None, rc);
  mret (default oldRc rc').

Definition MaxRetries : nat := 3.

(** The writes of a pod that are left, and the seconds before the next. *)
Fixpoint update_pod (retries : nat) (delay : Z) (namespace : str) (pod : Pod) (last : option cluster_error) : M W () :=
  match retries with
  | O => match last with None => mret () | Some e => fail e end
  | S retries =>
      u ← catch (api (pods_update namespace pod));
      match u with
      | inl _ => mret ()
      | inr e =>
          (λ w, (sleep (wrap64 (Second * delay)) w, Done ()));;
          update_pod retries (wrap64 (delay * delay)) namespace pod (Some e)
      end
  end.

Definition label_pod (key value : str) (pod : Pod) : Pod :=
  let m := pod_ObjectMeta pod in
  mkPod (meta_Labels (Some (<[key := value]> (default ∅ (om_Labels m)))) m) (pod_Conditions pod) (pod_rest pod).

Fixpoint update_pods (key value namespace : str) (pods : list Pod) : M W () :=
  match pods with
  | [] => mret ()
  | pod :: pods =>
      update_pod MaxRetries 3 namespace (label_pod key value pod) None;;
      update_pods key value namespace pods
  end.

Fixpoint delete_orphans (key value namespace : str) (pods : list Pod) : M W () :=
  match pods with
  | [] => mret ()
  | pod :: pods =>
      (if decide (map_index (om_Labels (pod_ObjectMeta pod)) key = Some value) then mret ()
       else api (pods_delete namespace (om_Name (pod_ObjectMeta pod)) None));;
      delete_orphans key value namespace pods
  end.

Definition label_template (key value : str) (rc : ReplicationController) : M W ReplicationController :=
  t ← deref (rc_Template rc);
  mret (set_Template (Some (mkTemplate (Some (<[key := value]> (default ∅ (pt_Labels t)))) (pt_Containers t)
                              (pt_NodeSelector t) (pt_rest t))) rc).
Definition select_key (key value : str) (rc : ReplicationController) : M W ReplicationController :=
  s ← assign (rc_Selector rc) key value; mret (set_Selector s rc).

Definition AddDeploymentKeyToReplicationController (oldRc : ReplicationController)
    (deploymentKey deploymentValue namespace : str) : M W ReplicationController :=
  oldRc ← updateWithRetries namespace oldRc (label_template deploymentKey deploymentValue);
  podList ← api (pods_list namespace (SelectorFromSet order (rc_Selector oldRc)));
  update_pods deploymentKey deploymentValue namespace podList;;
  let selectorCopy := default ∅ (rc_Selector oldRc) in
  let oldRc := set_Selector (Some (<[deploymentKey := deploymentValue]> selectorCopy)) oldRc in
  oldRc ← updateWithRetries namespace oldRc (select_key deploymentKey deploymentValue);
  podList ← catch (api (pods_list namespace (SelectorFromSet order (Some selectorCopy))));
  (* the error is dropped; the client gives an empty list with it *)
  delete_orphans deploymentKey deploymentValue namespace (match podList with inl pods => pods | inr _ => [] end);;
  mret oldRc.

Definition UpdateExistingReplicationController (oldRc : ReplicationController)
    (namespace newName deploymentKey deploymentValue : str) : M W ReplicationController :=
  let oldRc := SetNextControllerAnnotation newName oldRc in
  match map_index (rc_Selector oldRc) deploymentKey with
  | None => AddDeploymentKeyToReplicationController oldRc deploymentKey deploymentValue namespace
  | Some _ => api (rcs_update namespace oldRc)
  end.

Definition FindSourceController (namespace name : str) : M W ReplicationController :=
  l ← api (rcs_list namespace Everything);
  match list_find (λ rc, is_Some (rc_Annotations rc) ∧
                         has_prefix name (default [] (annotation rc sourceIdAnnotation)) = true) l with
  | Some (_, rc) => mret rc
  | None => fail (NoSourceController namespace name)
  end.
End client.
