(* ===== verification/RollingUpdaterSpec.v ===== *)
(** * Replacing a controller step by step (proofs about [RollingUpdater])

    What the sizes of the two controllers are after each step, against the
    reference functions [up] and [down]; from these, the bounds that hold
    throughout, that the loop ends, that it succeeds when pods are ready, and
    where it cannot; and what an interrupted update goes on with. *)

From S2P Require Import Prelude GoStr KubeTypes Labels Errors ApiErrors Cluster ClusterSpec Scale RollingUpdater.

Local Open Scope go_scope.
Local Open Scope Z_scope.

(** ** The sizes *)

(** The sizes that are dealt with: far from the ends of [int]. *)
Definition size_ok (z : Z) : Prop := 0 ≤ z ≤ 2 ^ 60.
Definition plan_ok (p : plan) : Prop :=
  size_ok (original p) ∧ size_ok (desired p) ∧ size_ok (maxSurge p) ∧ size_ok (maxUnavailable p).
Definition least_available (p : plan) : Z := original p - maxUnavailable p.

(** The size of the new controller after a step up, that of the old one after
    a step down. *)
Definition up (p : plan) (n o : Z) : Z :=
  if decide (n = desired p) then n
  else
    let increment := if decide (o = 0) then desired p - n else original p + maxSurge p - (o + n) in
    if decide (increment ≤ 0) then n else Z.min (desired p) (n + increment).
Definition down (p : plan) (n o oldAvailable newAvailable : Z) : Z :=
  let decrement := oldAvailable + newAvailable - least_available p in
  if decide (o = 0 ∨ decrement ≤ 0) then o
  else if decide (n = desired p ∧ newAvailable = desired p) then 0 else Z.max 0 (o - decrement).

Lemma wrap64_small z : - 2 ^ 63 ≤ z < 2 ^ 63 → wrap64 z = z.
Proof. intros. apply wrap64_id. unfold in_int64, min_int64, max_int64. lia. Qed.

Ltac sizes := unfold plan_ok, size_ok, least_available in *; lia.

Lemma up_bounds p n o : size_ok (desired p) → size_ok n → size_ok (up p n o).
Proof. intros. unfold up. repeat case_decide; sizes. Qed.

Lemma down_bounds p n o oa na : size_ok o → size_ok oa → size_ok na → size_ok (original p) → size_ok (maxUnavailable p) →
  0 ≤ down p n o oa na ≤ o.
Proof. intros. unfold down. repeat case_decide; sizes. Qed.

Section updater.
Context {W : Type} `{Cluster W}.
Variable r : RollingUpdater W.
Implicit Types newRc oldRc : ReplicationController.
Implicit Types config : RollingUpdaterConfig.

(** What the operations promise: a controller has the size it was scaled to,
    and the counts are counts. *)
Record honest : Prop := {
  scales_to : ∀ rc retry wait w w' rc', scaleAndWait r rc retry wait w = (w', Done rc') → rc_Replicas rc' = rc_Replicas rc;
  counts_ok : ∀ interval timeout oldRc newRc w w' oa na,
    waitForReadyPods r interval timeout oldRc newRc w = (w', Done (oa, na)) → size_ok oa ∧ size_ok na
}.

Definition sizes_ok newRc oldRc : Prop := size_ok (rc_Replicas newRc) ∧ size_ok (rc_Replicas oldRc).

Section laws.
Hypothesis Hr : honest.

(** What is asked for in a step up. *)
Lemma scaleUp_asks p newRc oldRc params :
  plan_ok p → sizes_ok newRc oldRc →
  scaleUp r newRc oldRc (original p) (desired p) (maxSurge p) (maxUnavailable p) params =
  if decide (up p (rc_Replicas newRc) (rc_Replicas oldRc) = rc_Replicas newRc) then mret newRc
  else scaleAndWait r (set_Replicas (up p (rc_Replicas newRc) (rc_Replicas oldRc)) newRc) params params.
Proof.
  intros Hp [Hn Ho]. unfold scaleUp, up. set (n := rc_Replicas newRc) in *. set (o := rc_Replicas oldRc) in *.
  destruct (decide (n = desired p)) as [->|Hne]; [by rewrite decide_True by done|].
  rewrite !(wrap64_small (desired p - n)), !(wrap64_small (original p + maxSurge p - (o + n))) by sizes.
  set (inc := if decide (o = 0) then _ else _).
  assert (Hinc : - 2 ^ 62 ≤ inc ≤ 2 ^ 62) by (unfold inc; case_decide; sizes).
  destruct (Z.leb_spec inc 0).
  - by rewrite (decide_True (P := inc ≤ 0)) by done; rewrite decide_True by done.
  - rewrite (decide_False (P := inc ≤ 0)) by lia. rewrite (wrap64_small (n + inc)) by sizes.
    assert (Hmin : (if desired p <? n + inc then desired p else n + inc) = Z.min (desired p) (n + inc))
      by (destruct (Z.ltb_spec (desired p) (n + inc)); lia).
    rewrite Hmin. rewrite decide_False; [done|]. intros E. unfold inc in *. case_decide; sizes.
Qed.

Lemma scaleUp_Done p newRc oldRc params w w' newRc' :
  plan_ok p → sizes_ok newRc oldRc →
  scaleUp r newRc oldRc (original p) (desired p) (maxSurge p) (maxUnavailable p) params w = (w', Done newRc') →
  rc_Replicas newRc' = up p (rc_Replicas newRc) (rc_Replicas oldRc).
Proof.
  intros Hp Hs. rewrite (scaleUp_asks p) by done. case_decide as E.
  - intros [= _ <-]. done.
  - intros Hd. by apply (scales_to Hr) in Hd.
Qed.

(** What is asked for in a step down. *)
Lemma scaleDown_asks p newRc oldRc config oa na :
  plan_ok p → sizes_ok newRc oldRc → size_ok oa → size_ok na → rc_Replicas oldRc ≠ 0 →
  let replicas := down p (rc_Replicas newRc) (rc_Replicas oldRc) oa na in
  let decrement := wrap64 (oa + na - minAvailable p) in
  (if decrement <=? 0 then mret oldRc
   else
     let replicas := wrap64 (rc_Replicas oldRc - decrement) in
     let replicas := if replicas <? 0 then 0 else replicas in
     let replicas := if decide (rc_Replicas newRc = desired p ∧ na = desired p) then 0 else replicas in
     let retryWait := mkRetryParams (cfg_Interval config) (cfg_Timeout config) in
     scaleAndWait r (set_Replicas replicas oldRc) retryWait retryWait) =
  if decide (replicas = rc_Replicas oldRc) then mret oldRc
  else scaleAndWait r (set_Replicas replicas oldRc) (mkRetryParams (cfg_Interval config) (cfg_Timeout config))
         (mkRetryParams (cfg_Interval config) (cfg_Timeout config)).
Proof.
  intros Hp [Hn Ho] Hoa Hna Hne. unfold down, minAvailable, least_available.
  set (n := rc_Replicas newRc) in *. set (o := rc_Replicas oldRc) in *.
  rewrite (wrap64_small (original p - maxUnavailable p)) by sizes.
  rewrite (wrap64_small (oa + na - (original p - maxUnavailable p))) by sizes.
  set (dec := oa + na - (original p - maxUnavailable p)) in *. cbv zeta.
  assert (Hdec : - 2 ^ 62 ≤ dec ≤ 2 ^ 62) by (unfold dec; sizes).
  destruct (Z.leb_spec dec 0).
  - rewrite (decide_True (P := o = 0 ∨ dec ≤ 0)) by (by right). by rewrite decide_True by done.
  - rewrite (decide_False (P := o = 0 ∨ dec ≤ 0)) by lia. rewrite (wrap64_small (o - dec)) by sizes.
    assert (Hmax : (if o - dec <? 0 then 0 else o - dec) = Z.max 0 (o - dec)) by (destruct (Z.ltb_spec (o - dec) 0); lia).
    rewrite Hmax. rewrite (decide_False (P := _ = o)); [done|]. intros E. case_decide; sizes.
Qed.

Lemma scaleDown_Done p newRc oldRc config w w' oldRc' :
  plan_ok p → sizes_ok newRc oldRc →
  scaleDown r newRc oldRc (desired p) (minAvailable p) (maxUnavailable p) (maxSurge p) config w = (w', Done oldRc') →
  rc_Replicas oldRc = 0 ∧ rc_Replicas oldRc' = 0 ∨
  ∃ oa na w1, waitForReadyPods r (cfg_Interval config) (cfg_Timeout config) oldRc newRc w = (w1, Done (oa, na)) ∧
    size_ok oa ∧ size_ok na ∧ rc_Replicas oldRc' = down p (rc_Replicas newRc) (rc_Replicas oldRc) oa na.
Proof.
  intros Hp Hs. unfold scaleDown. case_decide as E; [intros [= _ <-]; by left|]. intros Hdone. right.
  apply bind_Done in Hdone as (w1 & [oa na] & Hw & Hd). exists oa, na, w1.
  destruct (counts_ok Hr _ _ _ _ _ _ _ _ Hw) as [Hoa Hna]. split; [done|]. split; [done|]. split; [done|].
  rewrite (scaleDown_asks p) in Hd by done. case_decide as E'.
  - injection Hd as <- <-. by rewrite E'.
  - by apply (scales_to Hr) in Hd.
Qed.

(** One pass that is done. *)
Lemma pass_Done config p newRc oldRc d w w' newRc' oldRc' d' :
  plan_ok p → sizes_ok newRc oldRc →
  pass r config p newRc oldRc d w = (w', Done (newRc', oldRc', d')) →
  let n' := up p (rc_Replicas newRc) (rc_Replicas oldRc) in
  rc_Replicas newRc' = n' ∧
  (rc_Replicas oldRc = 0 ∧ rc_Replicas oldRc' = 0 ∨
   ∃ oa na, size_ok oa ∧ size_ok na ∧ rc_Replicas oldRc' = down p n' (rc_Replicas oldRc) oa na).
Proof.
  intros Hp Hs Hpass n'. unfold pass in Hpass. apply bind_Done in Hpass as (w1 & new1 & Hup & Hpass).
  apply scaleUp_Done in Hup; [|done..]. apply bind_Done in Hpass as (w2 & [] & _ & Hpass).
  apply bind_Done in Hpass as (w3 & old1 & Hdown & Hpass).
  assert (Hs1 : sizes_ok new1 oldRc) by (split; [rewrite Hup; apply up_bounds|]; apply Hs || apply Hp).
  apply (scaleDown_Done p) in Hdown; [|done..].
  assert (newRc' = new1 ∧ oldRc' = old1) as [-> ->].
  { case_decide.
    - apply bind_Done in Hpass as (w4 & t & _ & [= _ -> -> _]). done.
    - apply bind_Done in Hpass as (w4 & t & _ & Hpass). case_match; [done|]. by injection Hpass as _ -> ->. }
  split; [done|]. destruct Hdown as [?|(oa & na & w4 & _ & ? & ? & Ho)]; [by left|]. right. exists oa, na.
  split; [done|]. split; [done|]. by rewrite Ho, Hup.
Qed.

Lemma pass_sizes_ok config p newRc oldRc d w w' newRc' oldRc' d' :
  plan_ok p → sizes_ok newRc oldRc →
  pass r config p newRc oldRc d w = (w', Done (newRc', oldRc', d')) → sizes_ok newRc' oldRc'.
Proof.
  intros Hp Hs Hpass. destruct (pass_Done _ _ _ _ _ _ _ _ _ _ Hp Hs Hpass) as [Hn Ho]. destruct Hs as [Hsn Hso].
  split; [rewrite Hn; apply up_bounds; [apply Hp|done]|].
  destruct Ho as [[_ ->]|(oa & na & ? & ? & ->)]; [unfold size_ok; lia|].
  pose proof (down_bounds p (up p (rc_Replicas newRc) (rc_Replicas oldRc)) (rc_Replicas oldRc) oa na). sizes.
Qed.

(** ** The bounds *)

(** The controllers the loop has after its steps, also between the step up
    and the step down of a pass. *)
Definition unfinished p newRc oldRc : Prop := rc_Replicas newRc ≠ desired p ∨ rc_Replicas oldRc ≠ 0.

Inductive visits config p :
    W → ReplicationController → ReplicationController → Z → ReplicationController → ReplicationController → Prop :=
  | visits_here w newRc oldRc d : visits config p w newRc oldRc d newRc oldRc
  | visits_between w newRc oldRc d w' newRc' :
      unfinished p newRc oldRc →
      scaleUp r newRc oldRc (original p) (desired p) (maxSurge p) (maxUnavailable p)
        (NewRetryParams (cfg_Interval config) (cfg_Timeout config)) w = (w', Done newRc') →
      visits config p w newRc oldRc d newRc' oldRc
  | visits_next w newRc oldRc d w' newRc' oldRc' d' newRc'' oldRc'' :
      unfinished p newRc oldRc →
      pass r config p newRc oldRc d w = (w', Done (newRc', oldRc', d')) →
      visits config p w' newRc' oldRc' d' newRc'' oldRc'' →
      visits config p w newRc oldRc d newRc'' oldRc''.

Lemma up_total p n o : up p n o + o ≤ Z.max (original p + maxSurge p) (Z.max (desired p) (n + o)).
Proof. unfold up. repeat case_decide; lia. Qed.

Lemma down_le p n o oa na : size_ok o → down p n o oa na ≤ o.
Proof. unfold down, size_ok. intros. repeat case_decide; lia. Qed.


(** a step down leaves enough pods that were counted as ready, even if every
    pod it takes was one of them, unless the new controller is complete. *)
Theorem availability_kept p newRc oldRc config w w' oldRc' :
  plan_ok p → sizes_ok newRc oldRc →
  scaleDown r newRc oldRc (desired p) (minAvailable p) (maxUnavailable p) (maxSurge p) config w = (w', Done oldRc') →
  rc_Replicas oldRc' = rc_Replicas oldRc ∨
  ∃ oa na w1, waitForReadyPods r (cfg_Interval config) (cfg_Timeout config) oldRc newRc w = (w1, Done (oa, na)) ∧
    (least_available p ≤ oa + na - (rc_Replicas oldRc - rc_Replicas oldRc') ∨
     na = desired p ∧ rc_Replicas newRc = desired p ∧ rc_Replicas oldRc' = 0).
Proof.
  intros Hp Hs Hd. apply (scaleDown_Done p) in Hd as [[? ?]|(oa & na & w1 & Hw & _ & _ & ->)]; [left; congruence| |done..].
  unfold down. case_decide; [by left|]. right. exists oa, na, w1. split; [done|]. case_decide; [right; naive_solver|]. left. lia.
Qed.

(** ** Where the loop cannot end *)

(** when no more is known to be ready than there is, and both controllers
    together do not reach the number that has to stay available, the old one
    is never taken down: the number comes from an annotation, which may be
    older than the size of the controller. *)
Theorem update_stuck config p newRc oldRc d fuel w w' res :
  plan_ok p → sizes_ok newRc oldRc →
  (∀ interval timeout oldRc newRc w w' oa na, waitForReadyPods r interval timeout oldRc newRc w = (w', Done (oa, na)) →
     oa ≤ rc_Replicas oldRc ∧ na ≤ rc_Replicas newRc) →
  rc_Replicas newRc = desired p → 0 < rc_Replicas oldRc → rc_Replicas oldRc + desired p ≤ least_available p →
  update_loop r fuel config p newRc oldRc d w ≠ (w', Done res).
Proof.
  intros Hp Hs Hseen. revert newRc oldRc d w Hs. induction fuel as [|fuel IH]; intros newRc oldRc d w Hs Hn Ho Hlow; simpl;
    (rewrite decide_True by lia); [done|]. intros Hloop.
  apply bind_Done in Hloop as (w1 & [[new1 old1] d1] & Hpass & Hloop).
  pose proof (pass_sizes_ok _ _ _ _ _ _ _ _ _ _ Hp Hs Hpass) as Hs1.
  unfold pass in Hpass. apply bind_Done in Hpass as (w2 & new2 & Hup & Hpass).
  assert (new2 = newRc) as ->. { unfold scaleUp in Hup. rewrite decide_True in Hup by done. by injection Hup as _ ->. }
  apply bind_Done in Hpass as (w3 & [] & _ & Hpass). apply bind_Done in Hpass as (w4 & old2 & Hdown & Hpass).
  assert (Hsame : rc_Replicas old2 = rc_Replicas oldRc).
  { apply (scaleDown_Done p) in Hdown as [[? ?]|(oa & na & w5 & Hw & _ & _ & ->)]; [lia| |done..].
    apply Hseen in Hw. unfold down. by rewrite decide_True by lia. }
  rewrite decide_False in Hpass by lia. apply bind_Done in Hpass as (w5 & t & _ & Hpass). case_match; [done|].
  injection Hpass as -> <- <- <-. by apply (IH newRc old2 d w1 Hs1) in Hloop; rewrite ?Hsame.
Qed.

(** ** The loop ends *)

(** A program that does not turn back time. *)
Definition forward (time : W → Z) {A} (m : M W A) : Prop := ∀ w, time w ≤ time (m w).1.

(** Time goes on when it is read, up to an end of time, no operation turns it
    back, and the operations return. *)
Definition end_of_time : Z := 2 ^ 62.
Record timely (time : W → Z) : Prop := {
  time_0 : ∀ w, 0 ≤ time w;
  time_read : ∀ w, time w < end_of_time → time w < (unix_nano w).2 ≤ time (unix_nano w).1 ∧ (unix_nano w).2 ≤ end_of_time;
  time_unix_nano : forward time (pure_step unix_nano);
  time_sleep : ∀ d w, time w ≤ time (sleep d w);
  time_scale : ∀ rc retry wait, forward time (scaleAndWait r rc retry wait);
  time_wait : ∀ interval timeout oldRc newRc, forward time (waitForReadyPods r interval timeout oldRc newRc);
  scale_returns : ∀ rc retry wait w, (scaleAndWait r rc retry wait w).2 ≠ Forever;
  wait_returns : ∀ interval timeout oldRc newRc w, (waitForReadyPods r interval timeout oldRc newRc w).2 ≠ Forever
}.

(** What there is to scale, and what that gives in passes: each pass scales
    or uses up time before the deadline. *)
Definition to_scale p newRc oldRc : Z := Z.abs (desired p - rc_Replicas newRc) + rc_Replicas oldRc.
Definition passes_left (time : W → Z) config p newRc oldRc d w : Z :=
  to_scale p newRc oldRc * (cfg_Timeout config + 1) + Z.max 0 (d - time w).

Lemma up_progress p n o : size_ok n → size_ok o → plan_ok p → up p n o ≠ n → Z.abs (desired p - up p n o) < Z.abs (desired p - n).
Proof. unfold up. intros. repeat case_decide; sizes. Qed.

Lemma up_toward p n o : size_ok n → size_ok o → plan_ok p → Z.abs (desired p - up p n o) ≤ Z.abs (desired p - n).
Proof. unfold up. intros. repeat case_decide; sizes. Qed.

(** The sizes that a loop that is done has reached. *)
Lemma update_loop_Done config p newRc oldRc d fuel w w' newRc' oldRc' :
  update_loop r fuel config p newRc oldRc d w = (w', Done (newRc', oldRc')) →
  rc_Replicas newRc' = desired p ∧ rc_Replicas oldRc' = 0.
Proof.
  revert newRc oldRc d w. induction fuel as [|fuel IH]; intros newRc oldRc d w; simpl;
    (case_decide as E; [|intros [= _ <- <-]; lia]); [done|].
  intros (w1 & [[new1 old1] d1] & _ & Hloop)%bind_Done. by eapply IH.
Qed.

Section clock.
Context (time : W → Z) (Htime : timely time).

Lemma forward_ret {A} (a : A) : forward time (mret a).
Proof. intros w. simpl. lia. Qed.
Lemma forward_fail {A} e : forward time (fail (A := A) e).
Proof. intros w. simpl. lia. Qed.
Lemma forward_bind {A B} (m : M W A) (k : A → M W B) : forward time m → (∀ a, forward time (k a)) → forward time (m ≫= k).
Proof.
  intros Hm Hk w. specialize (Hm w). unfold mbind, M_bind. destruct (m w) as [w1 [a| | |]]; simpl in *; [|done..].
  specialize (Hk a w1). lia.
Qed.
Lemma forward_Done {A} (m : M W A) w w' a : forward time m → m w = (w', Done a) → time w ≤ time w'.
Proof. intros Hm E. specialize (Hm w). by rewrite E in Hm. Qed.

Lemma scaleUp_forward p newRc oldRc params :
  forward time (scaleUp r newRc oldRc (original p) (desired p) (maxSurge p) (maxUnavailable p) params).
Proof.
  unfold scaleUp. case_decide; [apply forward_ret|]. cbv zeta. case_match; [apply forward_ret|apply (time_scale _ Htime)].
Qed.

Lemma scaleDown_forward p newRc oldRc config :
  forward time (scaleDown r newRc oldRc (desired p) (minAvailable p) (maxUnavailable p) (maxSurge p) config).
Proof.
  unfold scaleDown. case_decide; [apply forward_ret|]. apply forward_bind; [apply (time_wait _ Htime)|]. intros [oa na].
  cbv zeta. case_match; [apply forward_ret|apply (time_scale _ Htime)].
Qed.

Lemma pass_forward config p newRc oldRc d : forward time (pass r config p newRc oldRc d).
Proof.
  unfold pass. apply forward_bind; [apply scaleUp_forward|]. intros new1.
  apply forward_bind; [intros w; apply (time_sleep _ Htime)|]. intros [].
  apply forward_bind; [apply scaleDown_forward|]. intros old1. case_decide.
  - apply forward_bind; [|intros; apply forward_ret]. unfold deadline.
    apply forward_bind; [apply (time_unix_nano _ Htime)|intros; apply forward_ret].
  - apply forward_bind; [apply (time_unix_nano _ Htime)|]. intros t. case_match; [apply forward_fail|apply forward_ret].
Qed.

Lemma update_loop_forward fuel config p newRc oldRc d : forward time (update_loop r fuel config p newRc oldRc d).
Proof.
  revert newRc oldRc d. induction fuel as [|fuel IH]; intros newRc oldRc d; simpl; (case_decide; [|apply forward_ret]).
  - intros w. simpl. lia.
  - apply forward_bind; [apply pass_forward|]. intros [[new1 old1] d1]. apply IH.
Qed.

Lemma unix_nano_Done w w' t :
  pure_step unix_nano w = (w', Done t) → time w < end_of_time → time w < t ≤ time w' ∧ t ≤ end_of_time.
Proof.
  unfold pure_step. intros Ht Hend. pose proof (time_read _ Htime w Hend) as Hr'. destruct (unix_nano w).
  by injection Ht as -> ->.
Qed.

Lemma deadline_Done config w w' d :
  size_ok (cfg_Timeout config) → deadline config w = (w', Done d) → time w < end_of_time → d - time w' ≤ cfg_Timeout config.
Proof.
  intros Hto (w1 & t & Ht & [= -> <-])%bind_Done Hend. apply unix_nano_Done in Ht; [|done].
  pose proof (time_0 _ Htime w). unfold end_of_time, size_ok in *. rewrite wrap64_small; lia.
Qed.

(** A pass scales or uses up time. *)
Lemma pass_uses config p newRc oldRc d w w' newRc' oldRc' d' :
  plan_ok p → sizes_ok newRc oldRc → size_ok (cfg_Timeout config) →
  pass r config p newRc oldRc d w = (w', Done (newRc', oldRc', d')) → time w' < end_of_time →
  passes_left time config p newRc' oldRc' d' w' < passes_left time config p newRc oldRc d w.
Proof.
  intros Hp Hs Hto Hpass Hend. destruct (pass_Done _ _ _ _ _ _ _ _ _ _ Hp Hs Hpass) as [Hn Ho]. destruct Hs as [Hsn Hso].
  assert (Hole : 0 ≤ rc_Replicas oldRc' ≤ rc_Replicas oldRc).
  { destruct Ho as [[-> ->]|(oa & na & ? & ? & ->)]; [lia|]. apply down_bounds; try done; apply Hp. }
  pose proof (up_toward p _ _ Hsn Hso Hp) as Htow. rewrite <- Hn in Htow.
  unfold pass in Hpass. apply bind_Done in Hpass as (w1 & new1 & Hup & Hpass).
  apply (forward_Done _ _ _ _ (scaleUp_forward _ _ _ _)) in Hup.
  apply bind_Done in Hpass as (w2 & [] & [= <-] & Hpass). pose proof (time_sleep _ Htime (UpdatePeriod config) w1) as Hsl.
  apply bind_Done in Hpass as (w3 & old1 & Hdown & Hpass).
  apply (forward_Done _ _ _ _ (scaleDown_forward _ _ _ _)) in Hdown.
  unfold passes_left, to_scale. case_decide as E.
  - apply bind_Done in Hpass as (w4 & t & Hd & [= -> -> -> ->]).
    assert (Hfw : time w3 ≤ time w').
    { apply (forward_Done _ _ _ _) in Hd; [done|]. unfold deadline.
      apply forward_bind; [apply (time_unix_nano _ Htime)|intros; apply forward_ret]. }
    apply deadline_Done in Hd; [|done|lia].
    assert (Hless : Z.abs (desired p - rc_Replicas newRc') + rc_Replicas oldRc' + 1 ≤
                    Z.abs (desired p - rc_Replicas newRc) + rc_Replicas oldRc).
    { destruct E as [E|E]; [|lia]. rewrite Hn in E |- *. pose proof (up_progress p _ _ Hsn Hso Hp E). lia. }
    apply (Z.mul_le_mono_nonneg_r _ _ (cfg_Timeout config + 1)) in Hless; unfold size_ok in *; lia.
  - apply bind_Done in Hpass as (w4 & t & Ht & Hpass).
    pose proof (forward_Done _ _ _ _ (time_unix_nano _ Htime) Ht) as Hfw.
    destruct (Z.ltb_spec d t); [done|]. injection Hpass as -> -> -> ->. apply unix_nano_Done in Ht; [|lia].
    assert (Hless : Z.abs (desired p - rc_Replicas newRc') + rc_Replicas oldRc' ≤
                    Z.abs (desired p - rc_Replicas newRc) + rc_Replicas oldRc) by lia.
    apply (Z.mul_le_mono_nonneg_r _ _ (cfg_Timeout config + 1)) in Hless; unfold size_ok in *; lia.
Qed.

Lemma pass_not_Forever config p newRc oldRc d w : (pass r config p newRc oldRc d w).2 ≠ Forever.
Proof.
  unfold pass. apply bind_not_Forever.
  - unfold scaleUp. case_decide; [done|]. cbv zeta. case_match; [done|]. apply (scale_returns _ Htime).
  - intros w1 new1 _. apply bind_not_Forever; [done|]. intros w2 [] _. apply bind_not_Forever.
    + unfold scaleDown. case_decide; [done|]. apply bind_not_Forever; [apply (wait_returns _ Htime)|]. intros w3 [oa na] _.
      cbv zeta. case_match; [done|]. apply (scale_returns _ Htime).
    + intros w3 old1 _. case_decide.
      * unfold deadline, pure_step, mbind, M_bind. by destruct (unix_nano w3).
      * unfold pure_step, mbind, M_bind. destruct (unix_nano w3). by case_match.
Qed.

End clock.

End laws.

(** ** The loop succeeds *)

(** Every scaling is done, and every pod is ready as soon as it is asked. *)
Record cooperative : Prop := {
  scales : ∀ rc retry wait w, ∃ w' rc', scaleAndWait r rc retry wait w = (w', Done rc') ∧ rc_Replicas rc' = rc_Replicas rc;
  all_ready : ∀ interval timeout oldRc newRc w, 0 < rc_Replicas oldRc + rc_Replicas newRc →
    ∃ w', waitForReadyPods r interval timeout oldRc newRc w = (w', Done (rc_Replicas oldRc, rc_Replicas newRc))
}.

(** What keeps the old controller from being stuck. *)
Definition can_finish p (n o : Z) : Prop :=
  size_ok n ∧ n ≤ desired p ∧ size_ok o ∧ (o = 0 ∨ least_available p < o + desired p).

(** A pass scales, and can finish still. *)
Lemma progress p n o :
  plan_ok p → 0 < maxSurge p + maxUnavailable p → can_finish p n o → n ≠ desired p ∨ o ≠ 0 →
  let n' := up p n o in let o' := down p n' o o n' in
  can_finish p n' o' ∧ n ≤ n' ∧ o' ≤ o ∧ (n' ≠ n ∨ o' ≠ o).
Proof.
  intros Hp Hsome (Hn & Hnd & Ho & Hlow) Hun. cbv zeta. unfold can_finish.
  assert (Hup : n ≤ up p n o ≤ desired p ∧ (o = 0 → up p n o = desired p) ∧
                (up p n o = n → n = desired p ∨ o ≠ 0 ∧ original p + maxSurge p ≤ o + n)).
  { unfold up. repeat case_decide; sizes. }
  destruct Hup as (Hup & Hzero & Hsame). revert Hup Hzero Hsame. generalize (up p n o). intros n' Hup Hzero Hsame.
  unfold down. repeat case_decide; sizes.
Qed.

Lemma scaleUp_does p newRc oldRc params w :
  cooperative → plan_ok p → sizes_ok newRc oldRc →
  ∃ w' newRc', scaleUp r newRc oldRc (original p) (desired p) (maxSurge p) (maxUnavailable p) params w = (w', Done newRc') ∧
    rc_Replicas newRc' = up p (rc_Replicas newRc) (rc_Replicas oldRc).
Proof.
  intros Hc Hp Hs. rewrite (scaleUp_asks p) by done. case_decide as E; [by exists w, newRc|].
  destruct (scales Hc (set_Replicas (up p (rc_Replicas newRc) (rc_Replicas oldRc)) newRc) params params w)
    as (w' & rc' & -> & Hrc). by exists w', rc'.
Qed.

Lemma scaleDown_does p newRc oldRc config w :
  cooperative → plan_ok p → sizes_ok newRc oldRc →
  ∃ w' oldRc', scaleDown r newRc oldRc (desired p) (minAvailable p) (maxUnavailable p) (maxSurge p) config w = (w', Done oldRc') ∧
    rc_Replicas oldRc' = down p (rc_Replicas newRc) (rc_Replicas oldRc) (rc_Replicas oldRc) (rc_Replicas newRc).
Proof.
  intros Hc Hp Hs. unfold scaleDown. case_decide as E.
  - exists w, oldRc. split; [done|]. unfold down. by rewrite decide_True by (by left).
  - destruct (all_ready Hc (cfg_Interval config) (cfg_Timeout config) oldRc newRc w) as [w1 Hw].
    { destruct Hs. sizes. }
    rewrite (bind_done _ _ _ _ _ Hw). rewrite (scaleDown_asks p) by (done || apply Hs).
    case_decide as E'; [by exists w1, oldRc|].
    match goal with |- context [scaleAndWait r ?rc ?a ?b w1] => destruct (scales Hc rc a b w1) as (w' & rc' & -> & Hrc) end.
    by exists w', rc'.
Qed.

Lemma pass_does config p newRc oldRc d w :
  cooperative → plan_ok p → 0 < maxSurge p + maxUnavailable p →
  can_finish p (rc_Replicas newRc) (rc_Replicas oldRc) → unfinished p newRc oldRc →
  let n' := up p (rc_Replicas newRc) (rc_Replicas oldRc) in
  ∃ w' newRc' oldRc' d', pass r config p newRc oldRc d w = (w', Done (newRc', oldRc', d')) ∧
    rc_Replicas newRc' = n' ∧ rc_Replicas oldRc' = down p n' (rc_Replicas oldRc) (rc_Replicas oldRc) n'.
Proof.
  intros Hc Hp Hsome Hcan Hun n'. pose proof (progress p _ _ Hp Hsome Hcan Hun) as (_ & _ & _ & Hmoves).
  assert (Hs : sizes_ok newRc oldRc) by (split; apply Hcan).
  unfold pass. destruct (scaleUp_does p newRc oldRc (NewRetryParams (cfg_Interval config) (cfg_Timeout config)) w Hc Hp Hs)
    as (w1 & new1 & Hup & Hn1).
  assert (Hs1 : sizes_ok new1 oldRc) by (split; [rewrite Hn1; apply up_bounds; [apply Hp|apply Hs]|apply Hs]).
  rewrite (bind_done _ _ _ _ _ Hup).
  rewrite (bind_done _ _ w1 (sleep (UpdatePeriod config) w1) () eq_refl).
  destruct (scaleDown_does p new1 oldRc config (sleep (UpdatePeriod config) w1) Hc Hp Hs1) as (w2 & old1 & Hdown & Ho1).
  rewrite (bind_done _ _ _ _ _ Hdown). rewrite Hn1 in Ho1. rewrite decide_True by (rewrite Hn1, Ho1; exact Hmoves).
  unfold deadline, pure_step. destruct (unix_nano w2) as [w3 t] eqn:Et.
  eexists w3, new1, old1, _. split; [|done]. unfold mbind, M_bind. by rewrite Et.
Qed.

End updater.

(** ** What an interrupted update goes on with *)

Lemma annotation_annotate key value rc : annotation (annotate key value rc) key = Some value.
Proof. unfold annotation, annotate. simpl. apply lookup_insert_eq. Qed.

Lemma annotation_annotate_ne key key' value rc : key ≠ key' → annotation (annotate key value rc) key' = annotation rc key'.
Proof.
  intros Hne. unfold annotation, annotate, rc_Annotations. simpl. rewrite lookup_insert_ne by done.
  by destruct (om_Annotations (rc_ObjectMeta rc)).
Qed.

Lemma source_not_desired : sourceIdAnnotation ≠ desiredReplicasAnnotation.
Proof. intros E. by vm_compute in E. Qed.

Lemma annotated_number_itoa {W : Type} rc key n (w : W) :
  in_int64 n → annotation rc key = Some (itoa n) → annotated_number rc key w = (w, Done n).
Proof. intros Hn Ha. unfold annotated_number. rewrite Ha. simpl. by rewrite atoi_itoa. Qed.

Section resume.
Context {W : Type} `{Cluster W}.
Variable printable : Z → bool.

(** an update that is started again, with whatever controller in its
    configuration, takes the controller of the first, and the size that was
    to be reached, as the server still has the annotations of the first. *)
Theorem interrupted_resumes ns (first_ again existing : ReplicationController) sourceId (w w' : W) :
  existingController printable again w = (w', Ok existing) →
  rc_Annotations existing = rc_Annotations (prepared sourceId first_) → in_int64 (rc_Replicas first_) →
  getOrCreateTargetControllerWithClient printable ns again sourceId w = (w', Done (existing, true)) ∧
  annotated_number existing desiredReplicasAnnotation w' = (w', Done (rc_Replicas first_)).
Proof.
  intros Hex Hann Hint.
  assert (Hall : ∀ key, annotation existing key = annotation (prepared sourceId first_) key)
    by (intros; unfold annotation; by rewrite Hann).
  assert (Hsource : annotation existing sourceIdAnnotation = Some sourceId)
    by (rewrite Hall; exact (annotation_annotate _ _ _)).
  assert (Hdesired : annotation existing desiredReplicasAnnotation = Some (itoa (rc_Replicas first_))).
  { rewrite Hall. etrans; [exact (annotation_annotate_ne _ _ _ _ source_not_desired)|]. exact (annotation_annotate _ _ _). }
  split; [|by apply annotated_number_itoa].
  unfold getOrCreateTargetControllerWithClient. rewrite Hex, decide_False; [done|].
  rewrite Hsource, Hdesired. by intros [?|?].
Qed.
End resume.

(** ** Percentages and the choice of the source *)

Example percentage_up : percentage 10 33 = 4 ∧ percentage 7 50 = 4 ∧ percentage 3 100 = 3 ∧ percentage 0 25 = 0.
Proof. by vm_compute. Qed.

(** Turning back without a known size: an error, and the controllers of the
    configuration are exchanged all the same. *)
Lemma Abort_exchanged c :
  annotation (OldRc c) originalReplicasAnnotation = None →
  let '(c', e) := AbortRollingUpdate c in
  e = Some (NoOriginalReplicas (rc_Name (OldRc c))) ∧ OldRc c' = NewRc c ∧ rc_Name (NewRc c') = rc_Name (OldRc c).
Proof.
  intros Hnone. unfold AbortRollingUpdate.
  rewrite annotation_annotate_ne by (intros E; by vm_compute in E). by rewrite Hnone.
Qed.

(** ** An update on the toy cluster *)

Definition sample_config (policy : CleanupPolicy) (size : Z) : RollingUpdaterConfig :=
  mkConfig (Toy.controller (lit "web-1") 3 (lit "version") (lit "1")) (Toy.controller (lit "web-2") size (lit "version") (lit "2"))
    Second Second (60 * Second) policy (IntVal 0) (StrVal (lit "34%")).
Definition sample_updater : RollingUpdater Toy.cluster := NewRollingUpdater (λ m, map_to_list m) (λ _, true) [].
Definition sample_cluster : Toy.cluster := Toy.mkCluster [Toy.controller (lit "web-1") 3 (lit "version") (lit "1")] 0.

(** Four controllers at most, then the new one under the name of the old. *)
Example sample_update :
  let '(w, res) := Update sample_updater 6 (sample_config RenameRollingUpdateCleanupPolicy 3) sample_cluster in
  res = Done () ∧ map (λ rc, (rc_Name rc, rc_Replicas rc)) (Toy.rcs w) = [(lit "web-1", 3)].
Proof. by vm_compute. Qed.

(** The old controller, kept with nothing to run, was scaled again by hand:
    its annotation still has the first size, and the next update of it does
    not end before its deadline. *)
Definition kept_cluster : Toy.cluster :=
  Toy.mkCluster [annotate originalReplicasAnnotation (lit "30") (Toy.controller (lit "web-1") 3 (lit "version") (lit "1"))] 0.
Definition kept_config : RollingUpdaterConfig :=
  mkConfig (annotate originalReplicasAnnotation (lit "30") (Toy.controller (lit "web-1") 3 (lit "version") (lit "1")))
    (Toy.controller (lit "web-2") 3 (lit "version") (lit "2"))
    Second Second (5 * Second) DeleteRollingUpdateCleanupPolicy (IntVal 1) (IntVal 1).
Example kept_update :
  (Update sample_updater 20 kept_config kept_cluster).2 = Failed NoProgress.
Proof. by vm_compute. Qed.

(** The source of an update is found by a prefix: another controller's name
    that continues the one asked for will do. *)
Definition sources_cluster : Toy.cluster :=
  Toy.mkCluster [annotate sourceIdAnnotation (lit "web-10:uid") (Toy.controller (lit "next-of-10") 1 (lit "a") (lit "b"));
                 annotate sourceIdAnnotation (lit "web-1:uid") (Toy.controller (lit "next-of-1") 1 (lit "a") (lit "b"))] 0.
Example wrong_source :
  match FindSourceController [] (lit "web-1") sources_cluster with
  | (_, Done rc) => rc_Name rc = lit "next-of-10"
  | _ => False
  end.
Proof. by vm_compute. Qed.

(** ** Witnesses *)

(** Operations that do at once what is asked of them; their counts stay
    within what is dealt with. *)
Definition within (z : Z) : Z := Z.max 0 (Z.min z (2 ^ 60)).
Definition prompt (counted : Z → Z) : RollingUpdater Toy.cluster :=
  mkUpdater [] (λ rc _ _, mret rc) (λ rc _, mret (rc, false)) (λ _ _ _, mret ())
    (λ _ _ oldRc newRc, mret (counted (rc_Replicas oldRc), counted (rc_Replicas newRc))).

Lemma prompt_honest : honest (prompt within).
Proof.
  split.
  - by intros ?????? [= _ <-].
  - intros ???????? [= _ <- <-]. unfold size_ok, within. lia.
Qed.

Lemma prompt_cooperative : cooperative (prompt id).
Proof. split; [|by eexists]. intros rc ?? w. by exists w, rc. Qed.

Definition toy_time (w : Toy.cluster) : Z := Z.of_N (Toy.clock w).
Lemma prompt_timely : timely (prompt within) toy_time.
Proof.
  unfold toy_time, end_of_time. split; try done; intros; try (intros w; unfold pure_step); simpl; lia.
Qed.

Definition sized (n : Z) : ReplicationController := Toy.controller (lit "rc") n (lit "a") (lit "b").
Definition sample_plan : plan := mkPlan 3 2 1 0.

Lemma sample_plan_ok : plan_ok sample_plan.
Proof. unfold plan_ok, size_ok. simpl. lia. Qed.

Lemma sizes_ok_small n o : size_ok n → size_ok o → sizes_ok (sized n) (sized o).
Proof. by split. Qed.



